(* ===== verification/_CoqProject ===== *)
-Q . S2P
Prelude.v
Posix.v
Tools.v
Md5Api.v
KMd5.v
Skin.v
Shell.v
Molt.v
SsuDiff.v
Prompt.v
Pipeline.v
Ctype.v
KString.v
KStrtox.v
KHex.v
KMatch.v
KSort.v
KRange.v
KCrc.v
KCmdline.v
KArgv.v
KParser.v
KMath.v
KHeap.v
KListSort.v
KFifo.v
KTextSearch.v
KRbtree.v
KTimerqueue.v
KBoyerMoore.v
KThreads.v
KLlist.v
KRefcount.v
KErrseq.v
KPacking.v
