(* ===== verification/Prelude.v ===== *)
(** * A verification of the profiler

    The repository is a tool kit to manage versions of the kernel of a BMC.  Its own
    C programs are in [3-3/src/comp_kernel]: [skin] writes a tree of digests beside a
    source tree, [molt] copies the files of a version whose digests changed,
    [ssu_diff] and [ssu_diff2] report what differs between two versions, [prompt]
    is the command loop that runs them.  A web server in JavaScript
    ([3-3/src/start.js]) calls the programs and shows their output.  The data they
    work on are two snapshots of Linux 5.4.62 ([kernel_management/V1] and [V2]), of
    which this development models library code: the message digest, strings,
    conversions, patterns, sorting, ranges, checksums, option parsing, arithmetic,
    linked lists, FIFO buffers, text search, red-black trees, timer queues, lock-less
    lists, reference counts, error sequences and packed bit fields.
    The headers of the snapshots are empty or absent; what the code takes from them
    is a type class with the laws that the code relies on, and an instance.

    ** Files

    The tools, in the order of the dependencies:
    - [Prelude] (this file): bytes, C strings as lists of bytes, machine words, the
      tactics [case_scrut], [bool_to_prop], [vm_decide], [zlen_lia], the hint bases
      [prof], [wordarith] and [zlen], lemmas on bits, byte strings and sorted lists.
    - [Posix]: the world of a process (file system, output, [exit], undefined
      behaviour as an outcome), the monad [C] of the programs, and the system calls.
    - [Tools]: what the programs repeat: path buffers of [BUFMAX] bytes, the [scandir]
      filter, absolute names, names derived from names, trees of names.
    - [Md5Api], [KMd5]: the interface [MD5], and [crypto/md5.c] as its
      implementation ([md5_transform], [md5_init], [md5_update], [md5_final]).
    - [Skin]: [skin.c] ([md5], [skinning_file], [skinning_dir], [main]).
    - [Shell]: what [molt] and [ssu_diff] rely on in [system] and [popen].
    - [Molt]: [molt.c] ([molting_file], [molting_dir], [main]).
    - [SsuDiff]: [ssu_diff.c] and [ssu_diff2.c] ([diff_file], [diff_file_org],
      [diff_dir], [comp_dir], [main]), with the report as a parameter.
    - [Prompt]: [prompt.c] ([prompting], [main] with its buffer that survives an
      iteration).
    - [Pipeline]: [skin], [skin], [molt] as processes on one file system.

    The kernel library, each file with the source it names in its own header:
    - [Ctype]: [lib/ctype.c] and the class [Ctype] of the character macros.
    - [KString]: [lib/string.c], every routine.
    - [KStrtox]: [lib/kstrtox.c].
    - [KHex]: [lib/hexdump.c].
    - [KMatch]: [lib/glob.c] and [match_wildcard] of [lib/parser.c].
    - [KSort]: [lib/sort.c] on bytes, [lib/bsearch.c].
    - [KRange]: [kernel/range.c], on the interface [RangeSorter] that the heapsort of
      [KSort] implements.
    - [KCrc]: [lib/crc16.c], [lib/crc-ccitt.c], [lib/crc-itu-t.c], [lib/crc7.c],
      [lib/crc8.c].
    - [KCmdline]: the conversions [simple_strto*] of [lib/vsprintf.c], and
      [lib/cmdline.c].
    - [KArgv]: the copies of [mm/util.c] and [lib/argv_split.c], on a heap of blocks
      and the allocator interface [Kmalloc].
    - [KParser]: the rest of [lib/parser.c].
    - [KMath]: [lib/math/gcd.c], [lcm.c], [int_pow.c], [int_sqrt.c].
    - [KHeap]: the monad [M] of routines on pointer structures.
    - [KListSort]: [lib/list_sort.c] on a heap of doubly linked nodes.
    - [KFifo]: [lib/kfifo.c]: bytes, records, user-space copies, scatter lists.
    - [KTextSearch]: [lib/textsearch.c] and, as an implementation of its interface
      [SearchAlgo], [lib/ts_kmp.c].
    - [KBoyerMoore]: [lib/ts_bm.c] on the same framework.
    - [KRbtree]: [lib/rbtree.c] on a heap of nodes; a subtree with its surroundings (a
      zipper) is the shape that every lemma is about.
    - [KTimerqueue]: [lib/timerqueue.c] on the trees of [KRbtree].
    - [KThreads]: runs of interleaved threads and schedules, shared by the next three.
    - [KLlist]: [lib/llist.c], as threads that interleave at their accesses to memory.
    - [KRefcount]: [lib/refcount.c], as threads with the references of their users.
    - [KErrseq]: [lib/errseq.c], as threads that write errors and subscribers.
    - [KPacking]: [lib/packing.c] on a buffer of bytes.

    ** How code is modelled

    The programs of [comp_kernel] are functions of the monad [C]: state is the
    [world], [undef] and [exit] stop a run, an overflow of a path buffer is undefined
    behaviour, a [struct stat] that was never written is [None].  A library routine is
    a function to [option], [None] being an access outside an object, so that a
    theorem that gives [Some] also states that the routine stays inside its objects.
    Pointers are offsets or the bytes that remain; integers are [Z] with the
    wrap-around of their width written out ([wrap], [w8], [w32], [w64], [signed]).  A
    loop is a structural recursion where the code counts down or walks a string, else
    a recursion on fuel.

    ** What the theorems show

    - The pipeline of [skin] and [molt] leaves exactly the files of the new tree whose
      originals have another digest, each with its content; the same for each program
      alone, with frame conditions on the rest of the file system; a skin inside its
      source is refused when the two are given as relative names or as absolute names in
      canonical form (an absolute name is not normalised, and an example shows what then
      gets through).
    - [ssu_diff] prints exactly the reports of the table above [comp_dir] ([table_at]), in
      order, except where the code departs from that table ([passed_over]): the entries
      left when one list ends, and directories that are in one version only.
    - [prompt] answers every line by its words, and ends at the end of the input.
    - The streaming MD5 is the function of RFC 1321 however the message is cut; the
      reference is written from the text of the RFC, its constants computed from sines.
    - String routines: bounds and results of [strscpy], [strlcpy], [memmove],
      [strstr], [strsep], [memchr_inv], [strim], [strcmp]; the words that [strscpy] reads
      stay inside the page that holds the end of the source.
    - Conversions: what [kstrtoull] accepts; printed integers, hexadecimal text, lists
      of integers and options are read back; buffers are large enough.
    - Patterns: the single level of backtracking of [glob_match] and
      [match_wildcard], and the mount-option matcher, agree with reference matchers.
    - [sort] sorts by any comparison, byte-wise as the code does it; [bsearch] finds;
      the range routines keep the set of numbers that an array stands for.
    - Table-driven checksums equal the division bit by bit.
    - [next_arg], [parse_option_str], [memparse], [get_options] take apart what was
      put together; a range too long for [get_options] is not handled.
    - [argv_split] gives the words, and gives back its memory.
    - [gcd], [lcm], [int_sqrt], [int_pow] compute what their names say.
    - [list_sort] is a stable sort that relinks the list it is given and no other node.
    - A kernel FIFO is a bounded queue of bytes or of records, across the wrap of the
      ring and of its counters, also when a copy with user space stops early; its
      scatter lists address exactly the free or the queued bytes.  A record whose length
      does not fit its length field is misread later.
    - The KMP search finds the first occurrence in a text given in any blocks, alone and
      behind the search framework; the registry adds, finds and removes the algorithms it
      is told to.  The search of Boyer and Moore finds the first occurrence in linear
      data, but does not look at a second block that is no longer than the first.
    - Red-black trees: insertion and rebalancing restore the invariant (black root, no
      red node below a red one, equal black heights) with the nodes in order and no
      other node written; the walks visit the nodes in order and in post-order within
      the logarithmic depth that the comment of the code promises; replacement keeps the
      tree.  A timer queue on top is sorted and stable, and knows its first timer.
    - A lock-less list is a stack under every interleaving of adders with one deleter at a
      time, and its calls are lock-free; with two deleters nodes come back.
    - A reference count is saturating arithmetic; under every interleaving it is the
      number of references or stuck at its maximum, and exactly one caller is told that
      it dropped the last one.
    - An error sequence tells a subscriber the latest error since its last look, under
      every interleaving, except for one race, of which a run is given.
    - [packing] writes exactly the bits of its field and reads them back, in the order that
      the quirks define, for the byte and word quirks on whole words, and for the bit
      quirk with whole bytes; else the latter is undefined.

    ** Fuel and bounds

    [skinning_dir], [molting_dir] and [comp_dir] recurse on the depth of the tree; the
    theorems hold for every fuel above it.  The merge loops get one unit per entry.
    String loops get the length of the string; [match_loop] and [options_loop] take a
    byte in each pass.  [sort_loop] gets two units per element.  [gcd] gets two units
    per bit because the product of its two numbers halves, [sqrt_loop] and [pow_loop]
    one per bit; [msb_outer] and [lsb_outer] nine, for the eight bits of a byte.
    [list_sort] needs more fuel than the list has nodes, and [find_tail] 65 units, one
    more than the bits of its counter.  [kmp_back] gets one unit per matched byte,
    [kmp_loop] and [bm_loop] one per block, [bm_scan] one per byte of a block,
    [sgl_loop] one per page.  The loops on red-black trees get
    one unit per level, and [2 * log2 (n + 1)] levels are shown to be enough.
    [reverse_loop] needs more units than the list has nodes.  The theorems state a result
    ([Some], or [Done]), so the fuel is shown to be enough.  The loops around a
    [cmpxchg] are steps of a thread and have no fuel.
    Strings are shorter than [2 ^ 31] bytes where the code counts them in an [int], texts
    shorter than [2 ^ 32] where it counts in an [unsigned int]; the allocator is taken to
    refuse a gigabyte and more, so that the 32-bit sizes of the search tables do not wrap.
    [sort] takes elements of less than [2 ^ 32] bytes, and of less than [2 ^ 31] with a
    swap function of the caller, to which it passes the size as an [int].

    ** Not modelled

    - [3-3/src/comp_kernel/test.c], a scratch program; the JavaScript server and
      client; third-party packages.
    - The shell, [cp], [mkdir] and [diff]: the class [Shell].  OpenSSL: the class [MD5].
      The allocator, the copies from user space, [printk]: parameters.
    - The rest of the two kernel snapshots: drivers, file systems, scheduling, memory
      management, and library code outside the files named above.
    - Of the text search, [lib/ts_fsm.c] and the references to modules;
      of the FIFO, the memory barriers.
    - [__rb_erase_augmented] and [rb_erase_cached] are in a header that the snapshots
      lack: they are parameters, and the theorems on removal start at what they leave.
      Lockless readers of a tree are not modelled.
    - Concurrency: the tools are sequential.  The threads of [KLlist], [KRefcount] and
      [KErrseq] share a sequentially consistent memory; memory orderings and the
      interrupt flags of [refcount_dec_and_lock_irqsave] are not modelled. *)
From stdpp Require Import base sorting strings numbers sets list.

(** ** Bytes and C strings

    A [char] of the C code is a [Z] in [0, 256) and a C string is the list of
    its bytes without the terminating NUL.  *)

Abbreviation bytes := (list Z).

Definition is_byte (b : Z) : Prop := (0 ≤ b < 256)%Z.

#[export] Instance is_byte_dec b : Decision (is_byte b).
Proof. unfold is_byte. apply _. Defined.

(** The bytes of a string literal of the C source. *)
Fixpoint B (s : string) : bytes :=
  match s with
  | EmptyString => []
  | String c s => Z.of_N (Ascii.N_of_ascii c) :: B s
  end.

Definition NUL : Z := 0%Z.
Definition SLASH : Z := 47%Z.
Definition UNDERSCORE : Z := 95%Z.
Definition SPACE : Z := 32%Z.
Definition NEWLINE : Z := 10%Z.
Definition PIPE : Z := 124%Z.

(** A C string holds bytes other than NUL. *)
Definition is_cstr (s : bytes) : Prop := Forall (λ b, is_byte b ∧ b ≠ NUL) s.

#[export] Instance is_cstr_dec s : Decision (is_cstr s).
Proof. unfold is_cstr. apply _. Defined.

(** Lengths as [Z], so that they compare with the buffer sizes of the code. *)
Definition zlen {A} (l : list A) : Z := Z.of_nat (length l).

(** ** Machine words *)

Definition wrap (n x : Z) : Z := (x mod 2 ^ n)%Z.
Definition w8 (x : Z) : Z := wrap 8 x.
Definition w32 (x : Z) : Z := wrap 32 x.
Definition w64 (x : Z) : Z := wrap 64 x.

(** ** The development's tactics *)

(** Case analysis on the scrutinee of a [match] in the goal, keeping its
    equation. *)
Ltac case_scrut :=
  match goal with
  | |- context [match ?x with _ => _ end] => destruct x eqn:?
  end.

(** Split boolean conjunctions and turn boolean comparisons into
    propositions. *)
Ltac bool_to_prop :=
  repeat match goal with
  | H : _ && _ = true |- _ => apply andb_prop in H as [? ?]
  | H : _ && _ = false |- _ => apply andb_false_iff in H
  | H : _ || _ = true |- _ => apply orb_prop in H
  | H : _ || _ = false |- _ => apply orb_false_elim in H as [? ?]
  | H : negb _ = true |- _ => apply negb_true_iff in H
  | H : negb _ = false |- _ => apply negb_false_iff in H
  | H : (_ =? _)%Z = true |- _ => apply Z.eqb_eq in H
  | H : (_ =? _)%Z = false |- _ => apply Z.eqb_neq in H
  | H : (_ <? _)%Z = true |- _ => apply Z.ltb_lt in H
  | H : (_ <? _)%Z = false |- _ => apply Z.ltb_ge in H
  | H : (_ <=? _)%Z = true |- _ => apply Z.leb_le in H
  | H : (_ <=? _)%Z = false |- _ => apply Z.leb_gt in H
  | H : bool_decide _ = true |- _ => apply bool_decide_eq_true in H
  | H : bool_decide _ = false |- _ => apply bool_decide_eq_false in H
  end.

(** Decide a closed decidable proposition, and a closed equation, by
    evaluation. *)
Ltac vm_decide := apply (bool_decide_unpack _); vm_compute; exact I.
Ltac vm_refl := vm_compute; reflexivity.

Create HintDb prof discriminated.
Create Rewrite HintDb wordarith.
Create Rewrite HintDb zlen.

(** ** Arithmetic helpers *)

Lemma wrap_range n x : (0 ≤ n)%Z → (0 ≤ wrap n x < 2 ^ n)%Z.
Proof. intros. apply Z.mod_pos_bound. apply Z.pow_pos_nonneg; lia. Qed.

Lemma wrap_small n x : (0 ≤ x < 2 ^ n)%Z → wrap n x = x.
Proof. apply Z.mod_small. Qed.

Lemma wrap_add_l n a b : wrap n (wrap n a + b) = wrap n (a + b).
Proof. apply Zplus_mod_idemp_l. Qed.

Lemma wrap_add_r n a b : wrap n (a + wrap n b) = wrap n (a + b).
Proof. apply Zplus_mod_idemp_r. Qed.

#[export] Hint Rewrite wrap_add_l wrap_add_r : wordarith.

Lemma zlen_nil {A} : zlen (@nil A) = 0%Z.
Proof. done. Qed.

Lemma zlen_cons {A} (x : A) l : zlen (x :: l) = (1 + zlen l)%Z.
Proof. unfold zlen. simpl length. lia. Qed.

Lemma zlen_app {A} (l k : list A) : zlen (l ++ k) = (zlen l + zlen k)%Z.
Proof. unfold zlen. rewrite length_app. lia. Qed.

Lemma zlen_nonneg {A} (l : list A) : (0 ≤ zlen l)%Z.
Proof. unfold zlen. lia. Qed.

#[export] Hint Rewrite @zlen_nil @zlen_cons @zlen_app : zlen.
#[export] Hint Resolve zlen_nonneg : prof.

Ltac zlen_note l :=
  lazymatch goal with
  | _ : (0 ≤ zlen l)%Z |- _ => fail
  | _ => pose proof (zlen_nonneg l)
  end.

Ltac zlen_lia :=
  autorewrite with zlen in *;
  repeat match goal with
  | |- context [zlen ?l] => zlen_note l
  | _ : context [zlen ?l] |- _ => zlen_note l
  end; lia.

(** ** Bits *)

Section bits.
Local Open Scope Z_scope.

(** A positive number is odd times a power of two. *)
Lemma odd_part size : 0 < size → ∃ k m, 0 ≤ k ∧ 0 ≤ m ∧ size = (2 * m + 1) * 2 ^ k.
Proof.
  destruct size as [|p|]; [done| |done]. intros _. induction p as [p _|p IH|].
  - exists 0, (Z.pos p). lia.
  - destruct IH as (k & m & Hk & Hm & E). exists (k + 1), m. split_and!; [lia|done|].
    rewrite Z.pow_add_r by lia. lia.
  - exists 0, 0. done.
Qed.

Lemma land_mul_pow2 x y k : 0 ≤ k → Z.land (x * 2 ^ k) (y * 2 ^ k) = Z.land x y * 2 ^ k.
Proof. intros Hk. by rewrite <-!Z.shiftl_mul_pow2, Z.shiftl_land by done. Qed.

Lemma lor_disjoint a b m : 0 ≤ m → 0 ≤ b < 2 ^ m → Z.lor (a * 2 ^ m) b = a * 2 ^ m + b.
Proof.
  intros Hm Hb. symmetry. rewrite <-Z.shiftl_mul_pow2 by done. apply Z.add_nocarry_lor.
  apply Z.bits_inj'. intros i Hi. rewrite Z.land_spec, Z.bits_0, Z.shiftl_spec by done.
  destruct (Z.lt_ge_cases i m).
  - by rewrite Z.testbit_neg_r by lia.
  - by rewrite <-(Z.mod_small b (2 ^ m)), Z.mod_pow2_bits_high, andb_false_r by lia.
Qed.

Lemma land_pow2_testbit w n : 0 ≤ n → (Z.land w (2 ^ n) =? 0) = negb (Z.testbit w n).
Proof.
  intros Hn. destruct (Z.testbit w n) eqn:E; simpl.
  - apply Z.eqb_neq. intros E'. apply (f_equal (λ x, Z.testbit x n)) in E'.
    by rewrite Z.land_spec, E, Z.pow2_bits_true, Z.bits_0 in E' by done.
  - apply Z.eqb_eq, Z.bits_inj'. intros i Hi. rewrite Z.land_spec, Z.bits_0.
    destruct (decide (n = i)) as [->|]; [by rewrite E|].
    by rewrite Z.pow2_bits_false, andb_false_r by done.
Qed.

Lemma land_odd_opp m : Z.land (2 * m + 1) (- (2 * m + 1)) = 1.
Proof.
  replace (- (2 * m + 1)) with (Z.lnot (2 * m)) by (unfold Z.lnot; lia).
  apply Z.bits_inj'. intros n Hn. rewrite Z.land_spec, Z.lnot_spec by done.
  destruct (Z.eq_dec n 0) as [->|].
  - by rewrite Z.testbit_odd_0, Z.testbit_even_0.
  - replace n with (Z.succ (n - 1)) by lia.
    rewrite Z.testbit_odd_succ, Z.testbit_even_succ by lia.
    rewrite andb_negb_r. symmetry. change 1 with (2 * 0 + 1). rewrite Z.testbit_odd_succ by lia.
    apply Z.bits_0.
Qed.

Lemma land_wrap n x y : 0 ≤ x < 2 ^ n → 0 ≤ n → Z.land x (wrap n y) = Z.land x y.
Proof.
  intros Hx Hn. unfold wrap. rewrite <-Z.land_ones by done.
  rewrite (Z.land_comm y), Z.land_assoc, Z.land_ones by done. by rewrite Z.mod_small.
Qed.

End bits.

(** ** Byte strings: order, search, splitting *)

(** The order of [strcmp], of [alphasort] in the C locale, and of the
    comparison of unsigned bytes they stand on. *)
Fixpoint bytes_compare (a b : bytes) : comparison :=
  match a, b with
  | [], [] => Eq
  | [], _ :: _ => Lt
  | _ :: _, [] => Gt
  | x :: a, y :: b =>
      match (x ?= y)%Z with
      | Eq => bytes_compare a b
      | c => c
      end
  end.

Definition bytes_lt (a b : bytes) : Prop := bytes_compare a b = Lt.
Definition bytes_le (a b : bytes) : Prop := bytes_compare a b ≠ Gt.

#[export] Instance bytes_lt_dec : RelDecision bytes_lt.
Proof. intros a b. unfold bytes_lt. solve_decision. Defined.
#[export] Instance bytes_le_dec : RelDecision bytes_le.
Proof. intros a b. unfold bytes_le. apply _. Defined.

Lemma bytes_compare_eq a b : bytes_compare a b = Eq ↔ a = b.
Proof.
  revert b; induction a as [|x a IH]; intros [|y b]; simpl; try done.
  destruct (Z.compare_spec x y) as [->|?|?].
  - rewrite IH. naive_solver.
  - split; [done|]. intros; simplify_eq; lia.
  - split; [done|]. intros; simplify_eq; lia.
Qed.

Lemma bytes_compare_refl a : bytes_compare a a = Eq.
Proof. by apply bytes_compare_eq. Qed.

Lemma bytes_compare_antisym a b :
  bytes_compare b a = CompOpp (bytes_compare a b).
Proof.
  revert b; induction a as [|x a IH]; intros [|y b]; simpl; try done.
  rewrite (Z.compare_antisym x y). destruct (x ?= y)%Z; simpl; auto.
Qed.

Lemma bytes_lt_trans a b c : bytes_lt a b → bytes_lt b c → bytes_lt a c.
Proof.
  unfold bytes_lt. revert b c.
  induction a as [|x a IH]; intros [|y b] [|z c]; simpl; try done.
  destruct (Z.compare_spec x y), (Z.compare_spec y z),
    (Z.compare_spec x z); try lia; try done; eauto.
Qed.

Lemma bytes_lt_irrefl a : ¬ bytes_lt a a.
Proof. unfold bytes_lt. by rewrite bytes_compare_refl. Qed.

Lemma bytes_trichotomy a b : bytes_lt a b ∨ a = b ∨ bytes_lt b a.
Proof.
  unfold bytes_lt. rewrite (bytes_compare_antisym a b).
  destruct (bytes_compare a b) eqn:E; simpl; auto.
  right; left. by apply bytes_compare_eq.
Qed.

Lemma bytes_le_lt_eq a b : bytes_le a b ↔ bytes_lt a b ∨ a = b.
Proof.
  unfold bytes_le, bytes_lt. rewrite <- bytes_compare_eq.
  destruct (bytes_compare a b); naive_solver.
Qed.

#[export] Instance bytes_le_total : Total bytes_le.
Proof.
  intros a b. rewrite !bytes_le_lt_eq.
  destruct (bytes_trichotomy a b) as [?|[?|?]]; auto.
Qed.

#[export] Instance bytes_le_trans : Transitive bytes_le.
Proof.
  intros a b c. rewrite !bytes_le_lt_eq.
  intros [?| ->] [?| ->]; eauto using bytes_lt_trans.
Qed.

#[export] Instance bytes_le_antisymm : AntiSymm (=) bytes_le.
Proof.
  intros a b. rewrite !bytes_le_lt_eq. intros [H1|?] [H2|?]; auto.
  destruct (bytes_lt_irrefl a). eauto using bytes_lt_trans.
Qed.

#[export] Hint Resolve bytes_lt_trans bytes_lt_irrefl : prof.

(** Is [p] a prefix of [s]? *)
Fixpoint starts_with (p s : bytes) : bool :=
  match p, s with
  | [], _ => true
  | _ :: _, [] => false
  | x :: p, y :: s => (x =? y)%Z && starts_with p s
  end.

(** Offset of the first occurrence of [p] in [s]. *)
Fixpoint find_sub (p s : bytes) : option nat :=
  if starts_with p s then Some 0
  else match s with
       | [] => None
       | _ :: s => S <$> find_sub p s
       end.

(** Offset of the first and of the last occurrence of a byte. *)
Fixpoint find_byte (c : Z) (s : bytes) : option nat :=
  match s with
  | [] => None
  | x :: s => if (x =? c)%Z then Some 0 else S <$> find_byte c s
  end.

Fixpoint rfind_byte (c : Z) (s : bytes) : option nat :=
  match s with
  | [] => None
  | x :: s =>
      match rfind_byte c s with
      | Some i => Some (S i)
      | None => if (x =? c)%Z then Some 0 else None
      end
  end.

(** The pieces of [s] between the occurrences of [c]; never empty. *)
Fixpoint split_byte (c : Z) (s : bytes) : list bytes :=
  match s with
  | [] => [[]]
  | x :: s =>
      if (x =? c)%Z then [] :: split_byte c s
      else match split_byte c s with
           | [] => [[x]]
           | w :: ws => (x :: w) :: ws
           end
  end.

Lemma starts_with_spec p s : starts_with p s = true ↔ ∃ k, s = p ++ k.
Proof.
  revert s; induction p as [|x p IH]; intros s; simpl; [naive_solver|].
  destruct s as [|y s]; [split; [done|by intros [??]]|].
  rewrite andb_true_iff, Z.eqb_eq, IH. naive_solver.
Qed.

Lemma find_sub_prefix p k : find_sub p (p ++ k) = Some 0.
Proof.
  assert (starts_with p (p ++ k) = true) as H
    by (apply starts_with_spec; eauto).
  destruct (p ++ k) eqn:E; simpl; by rewrite H.
Qed.

Lemma find_sub_None p s : find_sub p s = None → ∀ a k, s ≠ a ++ p ++ k.
Proof.
  revert p; induction s as [|x s IH]; intros p Hf a k Heq.
  - destruct a; simplify_eq/=. destruct p; simplify_eq/=.
  - destruct a as [|y a]; simplify_eq/=.
    + assert (starts_with p (p ++ k) = true) as Hs
        by (apply starts_with_spec; eauto).
      rewrite Heq in *. by rewrite Hs in Hf.
    + destruct (starts_with _ _); [done|].
      destruct (find_sub p _) eqn:E; simplify_eq/=.
      by eapply IH.
Qed.

Lemma find_sub_Some p s i :
  find_sub p s = Some i → ∃ k, s = take i s ++ p ++ k.
Proof.
  revert i; induction s as [|x s IH]; intros i; simpl.
  - destruct p; simpl; [|done]. intros; simplify_eq. by exists [].
  - destruct (starts_with p (x :: s)) eqn:Hs.
    + apply starts_with_spec in Hs as [k Hk]. intros; simplify_eq.
      exists k. by rewrite Hk.
    + destruct (find_sub p s) as [j|]; intros; simplify_eq/=.
      destruct (IH j) as [k Hk]; [done|]. exists k. simpl. by f_equal.
Qed.

Lemma find_byte_None c s : find_byte c s = None ↔ c ∉ s.
Proof.
  induction s as [|x s IH]; simpl; [set_solver|].
  destruct (Z.eqb_spec x c); [set_solver|].
  rewrite fmap_None, IH. set_solver.
Qed.

Lemma find_byte_app c a k : c ∉ a → find_byte c (a ++ c :: k) = Some (length a).
Proof.
  induction a as [|x a IH]; simpl; intros Hc.
  - by rewrite Z.eqb_refl.
  - destruct (Z.eqb_spec x c); [set_solver|].
    rewrite IH by set_solver. done.
Qed.

Lemma rfind_byte_None c s : rfind_byte c s = None ↔ c ∉ s.
Proof.
  induction s as [|x s IH]; simpl; [set_solver|].
  destruct (rfind_byte c s) as [i|].
  - split; [done|]. intros H.
    exfalso. assert (Some i = None); [apply IH; set_solver|done].
  - destruct (Z.eqb_spec x c); [set_solver|].
    split; [|done]. intros _. rewrite elem_of_cons.
    intros [->|?]; [done|]. by apply IH.
Qed.

Lemma rfind_byte_app c a k :
  c ∉ k → rfind_byte c (a ++ c :: k) = Some (length a).
Proof.
  intros Hk. induction a as [|x a IH]; simpl.
  - apply rfind_byte_None in Hk. by rewrite Hk, Z.eqb_refl.
  - by rewrite IH.
Qed.

Lemma rfind_byte_Some c s i :
  rfind_byte c s = Some i → ∃ a k, s = a ++ c :: k ∧ length a = i ∧ c ∉ k.
Proof.
  revert i; induction s as [|x s IH]; intros i; simpl; [done|].
  destruct (rfind_byte c s) as [j|] eqn:E.
  - intros; simplify_eq. destruct (IH j) as (a & k & -> & <- & ?); [done|].
    by exists (x :: a), k.
  - destruct (Z.eqb_spec x c) as [->|]; intros; simplify_eq.
    exists [], s. by apply rfind_byte_None in E.
Qed.

Lemma split_byte_nonempty c s : split_byte c s ≠ [].
Proof. destruct s; simpl; repeat case_match; done. Qed.

Lemma split_byte_notin c n : c ∉ n → split_byte c n = [n].
Proof.
  induction n as [|x n IH]; simpl; intros Hn; [done|].
  destruct (Z.eqb_spec x c); [set_solver|].
  rewrite IH by set_solver. done.
Qed.

Lemma split_byte_app c s n :
  split_byte c (s ++ c :: n) = split_byte c s ++ split_byte c n.
Proof.
  induction s as [|x s IH]; simpl.
  - by rewrite Z.eqb_refl.
  - rewrite IH. destruct (Z.eqb_spec x c); [done|].
    pose proof (split_byte_nonempty c s).
    by destruct (split_byte c s).
Qed.

#[export] Hint Resolve split_byte_nonempty : prof.

(** ** Generic list lemmas *)

Lemma drop_app_S {A} (l : list A) x k : drop (S (length l)) (l ++ x :: k) = k.
Proof. induction l; simpl; [done|]. done. Qed.

(** A strictly sorted list of names: what [scandir] with [alphasort] gives. *)
Abbreviation ssorted := (StronglySorted bytes_lt).

Lemma ssorted_head x y l : ssorted (x :: l) → y ∈ l → bytes_lt x y.
Proof.
  intros Hs Hy. inv Hs. by eapply Forall_forall; [|exact Hy].
Qed.

Lemma ssorted_tail x l : ssorted (x :: l) → ssorted l.
Proof. by inversion 1. Qed.

Lemma ssorted_below x y l : ssorted (y :: l) → bytes_lt x y → x ∉ y :: l.
Proof.
  intros Hs Hlt Hin. apply elem_of_cons in Hin as [->|Hin].
  - by apply bytes_lt_irrefl in Hlt.
  - apply (bytes_lt_irrefl x). eapply bytes_lt_trans; [exact Hlt|].
    by eapply ssorted_head.
Qed.

Lemma merge_sort_ssorted l : NoDup l → ssorted (merge_sort bytes_le l).
Proof.
  intros Hnd.
  assert (NoDup (merge_sort bytes_le l)) as Hnd'
    by (by rewrite (merge_sort_Permutation bytes_le l)).
  pose proof (StronglySorted_merge_sort bytes_le l) as Hs.
  induction Hs as [|x k Hs IH Hx]; [constructor|].
  apply NoDup_cons in Hnd' as [Hxk Hk]. constructor; [by auto|].
  rewrite Forall_forall in Hx |- *. intros y Hy.
  specialize (Hx y Hy). apply bytes_le_lt_eq in Hx as [?| ->]; done.
Qed.

#[export] Hint Resolve merge_sort_ssorted ssorted_tail : prof.
