(* ===== verification/Posix.v ===== *)
(** * The operating-system interface the C programs run against

    The tools of [3-3/src/comp_kernel] are sequential C programs over the
    POSIX file interface.  This file models what they use of it: a file
    system as a finite map from absolute paths to nodes, path-name resolution,
    [access], [stat], [mkdir], [rmdir], [realpath], [scandir], whole-file
    reads and writes, the standard output streams, [exit], and the fixed-size
    [char] buffers whose overflow is undefined behaviour.

    A path is the list of its components, leaf first: [n :: p] is the entry
    [n] of the directory [p], and [[]] is the root. *)
From stdpp Require Import base sorting strings numbers gmap list.
From S2P Require Import Prelude.

Abbreviation name := (list Z).
Abbreviation path := (list (list Z)).

(** A directory entry.  A symbolic link that resolves is seen as what it
    resolves to; [NDangling] is one that does not (its target, or the
    directory of its target, is missing), so every call that follows it
    fails. *)
Inductive node :=
  | NFile (data : bytes)
  | NDir
  | NDangling.

#[export] Instance node_eq_dec : EqDecision node.
Proof. solve_decision. Defined.

Abbreviation fsmap := (gmap path node).

(** The state of a process: the file system, its working directory, and what
    it has written to its standard streams. *)
Record world := World {
  w_fs : fsmap;
  w_cwd : path;
  w_out : bytes;
  w_err : bytes;
}.

(** How a run ends without returning a value: [exit], undefined behaviour, or
    the bound on the recursion depth. *)
Inductive stop :=
  | Exit (code : Z)
  | Undef (why : string)
  | OutOfFuel.

Inductive outcome (A : Type) :=
  | Done (a : A)
  | Stopped (s : stop).
Arguments Done {A} _.
Arguments Stopped {A} _.

(** The monad of the C code. *)
Definition C (A : Type) : Type := world → outcome A * world.

#[export] Instance C_ret : MRet C := λ A a w, (Done a, w).
#[export] Instance C_bind : MBind C := λ A A' k m w,
  match m w with
  | (Done a, w') => k a w'
  | (Stopped s, w') => (Stopped s, w')
  end.

Definition halt {A} (s : stop) : C A := λ w, (Stopped s, w).
Definition exit {A} (code : Z) : C A := halt (Exit code).
Definition undef {A} (why : string) : C A := halt (Undef why).
Definition get_fs : C fsmap := λ w, (Done (w_fs w), w).
Definition put_fs (fs : fsmap) : C unit := λ w,
  (Done tt, World fs (w_cwd w) (w_out w) (w_err w)).
Definition printf (s : bytes) : C unit := λ w,
  (Done tt, World (w_fs w) (w_cwd w) (w_out w ++ s) (w_err w)).
Definition eprintf (s : bytes) : C unit := λ w,
  (Done tt, World (w_fs w) (w_cwd w) (w_out w) (w_err w ++ s)).

(** ** Path names *)

Definition PATH_MAX : Z := 4096.

Definition DOT : bytes := B ".".
Definition DOTDOT : bytes := B "..".

Definition valid_name (n : name) : Prop :=
  n ≠ [] ∧ is_cstr n ∧ (SLASH ∉ n) ∧ n ≠ DOT ∧ n ≠ DOTDOT.

#[export] Instance valid_name_dec n : Decision (valid_name n).
Proof. unfold valid_name. apply _. Defined.

(** Path-name lookup component by component: every component is looked up in
    a directory, the empty name and "." stay, ".." goes to the parent. *)
Fixpoint walk (fs : fsmap) (cur : path) (comps : list bytes) : option path :=
  match comps with
  | [] => Some cur
  | c :: cs =>
      match fs !! cur with
      | Some NDir =>
          if bool_decide (c = [] ∨ c = DOT) then walk fs cur cs
          else if bool_decide (c = DOTDOT) then walk fs (tail cur) cs
          else walk fs (c :: cur) cs
      | _ => None
      end
  end.

Definition resolve (fs : fsmap) (cwd : path) (s : bytes) : option path :=
  if (PATH_MAX <=? zlen s)%Z then None
  else match s with
       | [] => None
       | c :: _ =>
           walk fs (if (c =? SLASH)%Z then [] else cwd) (split_byte SLASH s)
       end.

(** [s] followed by the components of [rel] (leaf first). *)
Fixpoint path_append (s : bytes) (rel : path) : bytes :=
  match rel with
  | [] => s
  | n :: rel => path_append s rel ++ SLASH :: n
  end.

(** The canonical absolute name of a path. *)
Definition path_str (p : path) : bytes :=
  match p with
  | [] => [SLASH]
  | _ => path_append [] p
  end.

(** ** File-system invariant *)

Definition fs_entry_ok (fs : fsmap) (q : path) : Prop :=
  match q with
  | [] => True
  | n :: p => fs !! p = Some NDir ∧ valid_name n
  end.

#[export] Instance fs_entry_ok_dec fs q : Decision (fs_entry_ok fs q).
Proof. destruct q; simpl; apply _. Defined.

(** The root is a directory, every entry is in a directory, and its name is a
    file name. *)
Definition fs_wf (fs : fsmap) : Prop :=
  fs !! ([] : path) = Some NDir ∧ map_Forall (λ q _, fs_entry_ok fs q) fs.

#[export] Instance fs_wf_dec fs : Decision (fs_wf fs).
Proof. unfold fs_wf. apply _. Defined.

(** A bound on the depth of the entries. *)
Definition fs_height (fs : fsmap) : nat :=
  map_fold (λ q _ h, max (length q) h) 0 fs.

(** ** System calls *)

Definition lookup_at (w : world) (s : bytes) : option (path * node) :=
  p ← resolve (w_fs w) (w_cwd w) s;
  n ← w_fs w !! p;
  match n with NDangling => None | _ => Some (p, n) end.

(** [access(s, F_OK) == 0] *)
Definition access (s : bytes) : C bool := λ w,
  (Done (match lookup_at w s with Some _ => true | None => false end), w).

Inductive mode := IFDIR | IFREG.

Definition node_mode (n : node) : mode :=
  match n with NDir => IFDIR | _ => IFREG end.

(** [stat(s, &st)] with its return value ignored: a failed call leaves the
    structure as it was, indeterminate ([None]) if nothing filled it. *)
Definition stat (s : bytes) (st : option mode) : C (option mode) := λ w,
  (Done (match lookup_at w s with
         | Some (_, n) => Some (node_mode n)
         | None => st
         end), w).

(** [S_ISDIR(st.st_mode)] *)
Definition S_ISDIR (st : option mode) : C bool :=
  match st with
  | Some IFDIR => mret true
  | Some IFREG => mret false
  | None => undef "indeterminate struct stat"
  end.

(** [mkdir(s, 0755)], return value ignored. *)
Definition mkdir_fs (fs : fsmap) (p : path) : fsmap :=
  match p with
  | [] => fs
  | n :: d =>
      match fs !! d, fs !! p with
      | Some NDir, None => <[p := NDir]> fs
      | _, _ => fs
      end
  end.

Definition mkdir (s : bytes) : C unit := λ w,
  match resolve (w_fs w) (w_cwd w) s with
  | Some p => put_fs (mkdir_fs (w_fs w) p) w
  | None => (Done tt, w)
  end.

(** The names of the entries of a directory, in the map's own order. *)
Definition children (fs : fsmap) (p : path) : list name :=
  omap (λ '(q, _), match q with
                   | n :: d => if decide (d = p) then Some n else None
                   | [] => None
                   end) (map_to_list fs).

(** [rmdir(s)], return value ignored: only an empty directory goes. *)
Definition rmdir_fs (fs : fsmap) (p : path) : fsmap :=
  match p, fs !! p with
  | _ :: _, Some NDir =>
      match children fs p with [] => delete p fs | _ => fs end
  | _, _ => fs
  end.

Definition rmdir (s : bytes) : C unit := λ w,
  match resolve (w_fs w) (w_cwd w) s with
  | Some p => put_fs (rmdir_fs (w_fs w) p) w
  | None => (Done tt, w)
  end.

(** [realpath(s, buf)] *)
Definition realpath (s : bytes) : C (option bytes) := λ w,
  (Done (match lookup_at w s with
         | Some (p, _) =>
             let r := path_str p in
             if (zlen r <? PATH_MAX)%Z then Some r else None
         | None => None
         end), w).

(** [scandir(s, &list, filter, alphasort)]: "." and ".." are among the
    entries given to the filter. [None] is the return value [-1]. *)
Definition scandir (s : bytes) (filter : name → bool) : C (option (list name)) :=
  λ w,
  (Done (match lookup_at w s with
         | Some (p, NDir) =>
             Some (merge_sort bytes_le
                     (List.filter filter (DOT :: DOTDOT :: children (w_fs w) p)))
         | _ => None
         end), w).

(** [open(s, O_WRONLY | O_CREAT | O_TRUNC, 0644)] followed by one [write] of
    [data] and [close]; [false] when [open] fails. *)
Definition write_fs (fs : fsmap) (p : path) (data : bytes) : option fsmap :=
  match p with
  | [] => None
  | _ :: d =>
      match fs !! d, fs !! p with
      | Some NDir, (None | Some (NFile _)) => Some (<[p := NFile data]> fs)
      | _, _ => None
      end
  end.

Definition write_file (s data : bytes) : C bool := λ w,
  match resolve (w_fs w) (w_cwd w) s ≫= λ p, write_fs (w_fs w) p data with
  | Some fs' => (Done true, World fs' (w_cwd w) (w_out w) (w_err w))
  | None => (Done false, w)
  end.

(** The bytes [read] gets from [open(s, O_RDONLY)]: none when the file cannot
    be opened or is a directory. *)
Definition read_all (s : bytes) : C bytes := λ w,
  (Done (match lookup_at w s with Some (_, NFile d) => d | _ => [] end), w).

(** The bytes [fread] gets from [fopen(s, "rb")]; [None] when [fopen] fails
    (it opens a directory, which then reads as empty). *)
Definition fopen_read (s : bytes) : C (option bytes) := λ w,
  (Done (match lookup_at w s with
         | Some (_, NFile d) => Some d
         | Some (_, _) => Some []
         | None => None
         end), w).

(** [strcpy] or [sprintf] of the string [s] into a [char] array of [size]
    bytes. *)
Definition store (size : Z) (s : bytes) : C bytes :=
  if (zlen s <? size)%Z then mret s else undef "buffer overflow".

(** ** Character arrays filled by [read]

    A local [char] array is a list of optional bytes; [None] is a byte nothing
    has written.  Using such a byte, or running past the end, is undefined. *)

(** The array after one [read(fd, buf, size)] at the start of [data]. *)
Definition read_buf (size : nat) (data : bytes) : list (option Z) :=
  (Some <$> take size data) ++ replicate (size - length data) None.

(** [strcmp(a, b) == 0] *)
Fixpoint buf_streq (a b : list (option Z)) : C bool :=
  match a, b with
  | Some x :: a, Some y :: b =>
      if (x =? y)%Z then
        if (x =? NUL)%Z then mret true else buf_streq a b
      else mret false
  | _, _ => undef "indeterminate bytes"
  end.

(** The string an array holds: what [strlen] counts and ["%s"] prints. *)
Fixpoint buf_string (a : list (option Z)) : C bytes :=
  match a with
  | Some x :: a =>
      if (x =? NUL)%Z then mret []
      else s ← buf_string a; mret (x :: s)
  | _ => undef "indeterminate bytes"
  end.

(** ** Lemmas: the monad *)

Lemma C_bind_unfold {A A'} (m : C A) (k : A → C A') w :
  (m ≫= k) w =
  match m w with
  | (Done a, w') => k a w'
  | (Stopped s, w') => (Stopped s, w')
  end.
Proof. done. Qed.

Lemma C_bind_ret {A A'} (a : A) (k : A → C A') w : (mret a ≫= k) w = k a w.
Proof. done. Qed.

(** Run the next call of a computation whose outcome is known. *)
Lemma C_bind_step {A A'} (m : C A) (k : A → C A') w a w' :
  m w = (Done a, w') → (m ≫= k) w = k a w'.
Proof. intros H. by rewrite C_bind_unfold, H. Qed.

Lemma C_bind_stop {A A'} (m : C A) (k : A → C A') w s w' :
  m w = (Stopped s, w') → (m ≫= k) w = (Stopped s, w').
Proof. intros H. by rewrite C_bind_unfold, H. Qed.

Lemma C_bind_assoc {A A' A''} (m : C A) (f : A → C A') (g : A' → C A'') w :
  ((m ≫= f) ≫= g) w = (m ≫= λ a, f a ≫= g) w.
Proof. rewrite !C_bind_unfold. destruct (m w) as [[]]; done. Qed.

(** The state after a change of the file system alone. *)
Definition with_fs (w : world) (fs : fsmap) : world :=
  World fs (w_cwd w) (w_out w) (w_err w).

Lemma with_fs_id w : with_fs w (w_fs w) = w.
Proof. by destruct w. Qed.

Lemma with_fs_with_fs w f g : with_fs (with_fs w f) g = with_fs w g.
Proof. done. Qed.

Lemma w_fs_with_fs w f : w_fs (with_fs w f) = f.
Proof. done. Qed.

Lemma w_cwd_with_fs w f : w_cwd (with_fs w f) = w_cwd w.
Proof. done. Qed.

Create Rewrite HintDb posix.
#[export] Hint Rewrite with_fs_id with_fs_with_fs w_fs_with_fs w_cwd_with_fs
  : posix.

(** ** Lemmas: paths *)

Lemma walk_app fs cur c1 c2 :
  walk fs cur (c1 ++ c2) = walk fs cur c1 ≫= λ p, walk fs p c2.
Proof.
  revert cur; induction c1 as [|c c1 IH]; intros cur; simpl; [done|].
  repeat (case_match; try done); apply IH.
Qed.

Lemma valid_name_walk n :
  valid_name n →
  bool_decide (n = [] ∨ n = DOT) = false ∧ bool_decide (n = DOTDOT) = false.
Proof.
  intros (? & _ & _ & ? & ?).
  split; apply bool_decide_eq_false; naive_solver.
Qed.

(** The entry [n] of a directory is what its name, a slash and [n] resolve
    to, however the directory was named. *)
Lemma resolve_child fs cwd s p n :
  resolve fs cwd s = Some p → fs !! p = Some NDir → valid_name n →
  (zlen (s ++ SLASH :: n) < PATH_MAX)%Z →
  resolve fs cwd (s ++ SLASH :: n) = Some (n :: p).
Proof.
  unfold resolve. intros Hs Hp Hn Hlen.
  destruct (PATH_MAX <=? zlen s)%Z eqn:E1; [done|].
  destruct s as [|c s]; [done|].
  destruct (Z.leb_spec PATH_MAX (zlen ((c :: s) ++ SLASH :: n))); [lia|].
  cbn [app]. rewrite app_comm_cons, split_byte_app, walk_app, Hs.
  cbn [mbind option_bind].
  rewrite (split_byte_notin _ n) by apply Hn. cbn [walk]. rewrite Hp.
  by destruct (valid_name_walk n Hn) as [-> ->].
Qed.

(** Changing entries other than directories that a walk goes through does not
    change where it leads. *)
Lemma walk_mono fs fs' cur cs p :
  walk fs cur cs = Some p →
  (∀ q, fs !! q = Some NDir → fs' !! q = Some NDir) →
  walk fs' cur cs = Some p.
Proof.
  intros Hw Hmono. revert cur Hw.
  induction cs as [|c cs IH]; intros cur; simpl; [done|].
  destruct (fs !! cur) as [[| |]|] eqn:E; try done.
  rewrite (Hmono _ E). repeat case_match; eauto.
Qed.

Lemma resolve_mono fs fs' cwd s p :
  resolve fs cwd s = Some p →
  (∀ q, fs !! q = Some NDir → fs' !! q = Some NDir) →
  resolve fs' cwd s = Some p.
Proof.
  unfold resolve. repeat (case_match; try done); eauto using walk_mono.
Qed.

Lemma resolve_len fs cwd s p : resolve fs cwd s = Some p → (zlen s < PATH_MAX)%Z.
Proof. unfold resolve. case_match; [done|]. bool_to_prop. done. Qed.

Lemma walk_canon fs p :
  fs_wf fs → match p with [] => True | _ :: d => fs !! d = Some NDir end →
  Forall valid_name p →
  walk fs [] (split_byte SLASH (path_append [] p)) = Some p.
Proof.
  intros [Hroot Hwf]. induction p as [|n p IH]; simpl; intros Hd Hv.
  - rewrite Hroot. done.
  - apply Forall_cons in Hv as [Hn Hv].
    rewrite split_byte_app, walk_app, IH; [| |done].
    + simpl. rewrite split_byte_notin by apply Hn. simpl. rewrite Hd.
      by destruct (valid_name_walk n Hn) as [-> ->].
    + destruct p; [done|]. by destruct (Hwf _ _ Hd).
Qed.

Lemma path_append_nil_nonroot n p : ∃ c s,
  path_append [] (n :: p) = c :: s ∧ c = SLASH.
Proof.
  revert n; induction p as [|m p IH]; intros n; simpl; [eauto|].
  destruct (IH m) as (c & s & E & ->). simpl in E. rewrite E. simpl. eauto.
Qed.

(** The canonical name of an existing entry resolves to it. *)
Lemma resolve_canon fs cwd p :
  fs_wf fs → is_Some (fs !! p) → (zlen (path_str p) < PATH_MAX)%Z →
  resolve fs cwd (path_str p) = Some p.
Proof.
  intros Hwf Hp Hlen. unfold resolve.
  destruct (Z.leb_spec PATH_MAX (zlen (path_str p))); [lia|].
  assert (Forall valid_name p) as Hv.
  { destruct Hwf as [_ Hwf]. clear Hlen H.
    induction p as [|n p IH]; constructor; destruct Hp as [m Hp];
      destruct (Hwf _ _ Hp) as [Hd ?]; [done|]. apply IH. rewrite Hd. eauto. }
  destruct p as [|n p].
  - simpl. destruct Hwf as [Hr ?]. by rewrite !Hr.
  - destruct (path_append_nil_nonroot n p) as (c & s & E & ->).
    unfold path_str. rewrite E at 1. rewrite Z.eqb_refl.
    apply walk_canon; [done| |done].
    destruct Hwf as [_ Hwf], Hp as [m Hp]. by destruct (Hwf _ _ Hp).
Qed.

Lemma path_append_app s r1 r2 :
  path_append s (r1 ++ r2) = path_append (path_append s r2) r1.
Proof. induction r1 as [|n r1 IH]; simpl; [done|]. by rewrite IH. Qed.

Lemma path_append_prefix s r : ∃ k, path_append s r = s ++ k.
Proof.
  induction r as [|n r [k Hk]]; simpl; [exists []; by rewrite app_nil_r|].
  exists (k ++ SLASH :: n). by rewrite Hk, (assoc_L (++)).
Qed.

(** ** Lemmas: directories *)

Lemma elem_of_children fs p n : n ∈ children fs p ↔ is_Some (fs !! (n :: p)).
Proof.
  unfold children. rewrite list_elem_of_omap. split.
  - intros ([q m] & Hin & Hq). apply elem_of_map_to_list in Hin.
    destruct q as [|n' d]; [done|]. case_decide; simplify_eq. eauto.
  - intros [m Hm]. exists (n :: p, m).
    rewrite elem_of_map_to_list. split; [done|]. simpl.
    by rewrite decide_True.
Qed.

Lemma NoDup_children fs p : NoDup (children fs p).
Proof.
  unfold children. pose proof (NoDup_fst_map_to_list fs) as Hnd.
  induction (map_to_list fs) as [|[q m] l IH]; simpl in *; [constructor|].
  inv Hnd. destruct q as [|n d]; [auto|].
  case_decide as Hd; simplify_eq; [|auto].
  constructor; [|auto]. rewrite list_elem_of_omap.
  intros ([q' m'] & Hin & Hq). destruct q' as [|n' d']; [done|].
  case_decide; simplify_eq. apply H1.
  apply list_elem_of_fmap. by exists (n :: p, m').
Qed.

Lemma fs_wf_valid fs n p : fs_wf fs → is_Some (fs !! (n :: p)) → valid_name n.
Proof. intros [_ Hwf] [m Hm]. by destruct (Hwf _ _ Hm). Qed.

Lemma fs_wf_parent fs n p :
  fs_wf fs → is_Some (fs !! (n :: p)) → fs !! p = Some NDir.
Proof. intros [_ Hwf] [m Hm]. by destruct (Hwf _ _ Hm). Qed.

Lemma fs_wf_root fs : fs_wf fs → fs !! ([] : path) = Some NDir.
Proof. by intros []. Qed.

(** Everything above an existing entry exists, and is a directory. *)
Lemma fs_wf_ancestor fs r p :
  fs_wf fs → r ≠ [] → is_Some (fs !! (r ++ p)) → fs !! p = Some NDir.
Proof.
  intros Hwf Hr. induction r as [|n r IH]; [done|]. simpl. intros Hn.
  pose proof (fs_wf_parent _ _ _ Hwf Hn) as Hp.
  destruct r; [done|]. apply IH; [done|]. by rewrite Hp.
Qed.

#[export] Hint Resolve fs_wf_valid fs_wf_parent fs_wf_root NoDup_children : prof.

(** Adding an entry with a valid name to a directory keeps the invariant, as
    does replacing a file. *)
Lemma fs_wf_insert fs n p m :
  fs_wf fs → valid_name n → fs !! p = Some NDir →
  fs !! (n :: p) = None ∨ (∃ d d', fs !! (n :: p) = Some (NFile d) ∧ m = NFile d') →
  fs_wf (<[n :: p := m]> fs).
Proof.
  intros [Hr Hwf] Hn Hp Hq. split; [by rewrite lookup_insert_ne|].
  assert (∀ d, fs !! d = Some NDir → <[n :: p := m]> fs !! d = Some NDir) as Hd.
  { intros d Hd. rewrite lookup_insert_ne; [done|]. intros <-.
    destruct Hq as [Hq|(?&?&Hq&_)]; by rewrite Hq in Hd. }
  intros q m' Hm'. destruct q as [|n' d]; [done|]. simpl.
  apply lookup_insert_Some in Hm' as [[? <-]|[? Hm']]; simplify_eq.
  - split; [|done]. by apply Hd.
  - destruct (Hwf _ _ Hm'). split; [|done]. by apply Hd.
Qed.

Lemma mkdir_fs_wf fs p :
  fs_wf fs → Forall valid_name p → fs_wf (mkdir_fs fs p).
Proof.
  intros Hwf Hv. destruct p as [|n d]; simpl; [done|]. inv Hv.
  repeat case_match; auto using fs_wf_insert.
Qed.

Lemma write_fs_wf fs p data fs' :
  fs_wf fs → Forall valid_name p → write_fs fs p data = Some fs' → fs_wf fs'.
Proof.
  intros Hwf Hv Hw. destruct p as [|n d]; simpl in *; [done|]. inv Hv.
  repeat case_match; simplify_eq; apply fs_wf_insert; eauto 10.
Qed.

Lemma rmdir_fs_wf fs p : fs_wf fs → fs_wf (rmdir_fs fs p).
Proof.
  intros Hwf. unfold rmdir_fs. destruct p as [|n p]; [done|].
  destruct (fs !! (n :: p)) as [[]|]; try done.
  destruct (children fs (n :: p)) eqn:Hc; [|done].
  destruct Hwf as [Hr Hwf]. split; [by rewrite lookup_delete_ne|].
  intros q m Hm. apply lookup_delete_Some in Hm as [Hne Hm].
  specialize (Hwf _ _ Hm). destruct q as [|n' d]; [done|].
  destruct Hwf as [Hd ?]. split; [|done].
  rewrite lookup_delete_ne; [done|]. intros <-.
  assert (n' ∈ children fs (n :: p)) as Hin by (apply elem_of_children; eauto).
  rewrite Hc in Hin. by apply not_elem_of_nil in Hin.
Qed.

Lemma fs_height_spec fs q : is_Some (fs !! q) → length q ≤ fs_height fs.
Proof.
  intros [m Hm]. unfold fs_height.
  revert Hm. apply (map_fold_weak_ind (λ h fs, fs !! q = Some m → length q ≤ h)).
  - by rewrite lookup_empty.
  - intros q' m' fs' h Hq' IH. rewrite lookup_insert_Some.
    intros [[<- <-]|[? ?]]; [lia|]. specialize (IH H0). lia.
Qed.

(** ** Lemmas: what the calls return on a name that resolves *)

Section runs.
Context (w : world) (s : bytes) (p : path).
Hypothesis Hs : resolve (w_fs w) (w_cwd w) s = Some p.

Lemma lookup_at_run m :
  w_fs w !! p = Some m → m ≠ NDangling → lookup_at w s = Some (p, m).
Proof.
  intros Hp Hm. unfold lookup_at. rewrite Hs. simpl. rewrite Hp. simpl.
  by destruct m.
Qed.

Lemma lookup_at_absent : w_fs w !! p = None → lookup_at w s = None.
Proof. intros Hp. unfold lookup_at. rewrite Hs. simpl. by rewrite Hp. Qed.

Lemma access_run m :
  w_fs w !! p = Some m → m ≠ NDangling → access s w = (Done true, w).
Proof. intros Hp Hm. unfold access. by rewrite (lookup_at_run m). Qed.

Lemma access_absent : w_fs w !! p = None → access s w = (Done false, w).
Proof. intros Hp. unfold access. by rewrite lookup_at_absent. Qed.

Lemma stat_run m st :
  w_fs w !! p = Some m → m ≠ NDangling →
  stat s st w = (Done (Some (node_mode m)), w).
Proof. intros Hp Hm. unfold stat. by rewrite (lookup_at_run m). Qed.

Lemma fopen_read_run data :
  w_fs w !! p = Some (NFile data) → fopen_read s w = (Done (Some data), w).
Proof. intros Hp. unfold fopen_read. by rewrite (lookup_at_run (NFile data)). Qed.

Lemma read_all_run data :
  w_fs w !! p = Some (NFile data) → read_all s w = (Done data, w).
Proof. intros Hp. unfold read_all. by rewrite (lookup_at_run (NFile data)). Qed.

Lemma mkdir_run :
  mkdir s w = (Done tt, with_fs w (mkdir_fs (w_fs w) p)).
Proof. unfold mkdir. by rewrite Hs. Qed.

Lemma rmdir_run :
  rmdir s w = (Done tt, with_fs w (rmdir_fs (w_fs w) p)).
Proof. unfold rmdir. by rewrite Hs. Qed.

Lemma write_file_run data n d :
  p = n :: d → w_fs w !! d = Some NDir →
  (w_fs w !! p = None ∨ ∃ old, w_fs w !! p = Some (NFile old)) →
  write_file s data w = (Done true, with_fs w (<[p := NFile data]> (w_fs w))).
Proof.
  intros -> Hd Hp. unfold write_file. rewrite Hs. simpl.
  rewrite Hd. by destruct Hp as [->|[old ->]].
Qed.

(** [scandir] gives the entries that pass the filter, in strictly increasing
    order. *)
Lemma scandir_run filter :
  w_fs w !! p = Some NDir → fs_wf (w_fs w) →
  filter DOT = false → filter DOTDOT = false →
  ∃ l, scandir s filter w = (Done (Some l), w) ∧ ssorted l ∧
    ∀ n, n ∈ l ↔ is_Some (w_fs w !! (n :: p)) ∧ filter n = true.
Proof.
  intros Hp Hwf Hd Hdd. eexists. split.
  { unfold scandir. by rewrite (lookup_at_run NDir). }
  cbn [List.filter]. rewrite Hd, Hdd. split.
  - apply merge_sort_ssorted, NoDup_ListNoDup.
    apply List.NoDup_filter, NoDup_ListNoDup, NoDup_children.
  - intros n. rewrite (merge_sort_Permutation bytes_le).
    by rewrite list_elem_of_In, filter_In, <- list_elem_of_In, elem_of_children.
Qed.
End runs.

Lemma store_run size s w : (zlen s < size)%Z → store size s w = (Done s, w).
Proof. intros Hl. unfold store. by rewrite (proj2 (Z.ltb_lt _ _)). Qed.

Lemma store_overflow size s w :
  (size ≤ zlen s)%Z → store size s w = (Stopped (Undef "buffer overflow"), w).
Proof. intros Hl. unfold store. by rewrite (proj2 (Z.ltb_ge _ _)). Qed.

Lemma S_ISDIR_run m w :
  S_ISDIR (Some (node_mode m)) w = (Done (bool_decide (m = NDir)), w).
Proof. by destruct m. Qed.

(** ** Lemmas: character arrays *)

Lemma read_buf_full size data k :
  length data = size → read_buf size (data ++ k) = Some <$> data.
Proof.
  intros <-. unfold read_buf. rewrite take_app_length, length_app.
  replace (length data - (length data + length k)) with 0 by lia.
  apply app_nil_r.
Qed.

Lemma buf_string_run s rest w :
  is_cstr s → buf_string ((Some <$> s) ++ Some NUL :: rest) w = (Done s, w).
Proof.
  intros Hs. induction Hs as [|x s [_ Hx] Hs IH]; [done|]. cbn.
  rewrite (proj2 (Z.eqb_neq _ _) Hx). by erewrite C_bind_step.
Qed.

Lemma buf_streq_run a b ra rb w :
  is_cstr a → is_cstr b →
  buf_streq ((Some <$> a) ++ Some NUL :: ra) ((Some <$> b) ++ Some NUL :: rb) w =
    (Done (bool_decide (a = b)), w).
Proof.
  intros Ha. revert b. induction Ha as [|x a [_ Hx] Ha IH]; intros b Hb.
  - destruct Hb as [|y b [_ Hy] Hb]; [done|]. cbn [fmap list_fmap app buf_streq].
    destruct (Z.eqb_spec NUL y); [by subst|]. done.
  - destruct Hb as [|y b [_ Hy] Hb]; cbn [fmap list_fmap app buf_streq].
    + by rewrite (proj2 (Z.eqb_neq _ _) Hx).
    + rewrite (proj2 (Z.eqb_neq x NUL) Hx). destruct (Z.eqb_spec x y) as [->|Hne].
      * rewrite IH by done. do 2 f_equal. apply bool_decide_ext. naive_solver.
      * rewrite bool_decide_eq_false_2 by naive_solver. done.
Qed.

(** Run the first call of a computation by its lemma. *)
Ltac crun lem :=
  first [ rewrite (C_bind_step _ _ _ _ _ lem)
        | erewrite C_bind_step by (eapply lem; eauto) ].

(** ** Deciding statements about the entries below a directory *)

Lemma below_check (fs : fsmap) (fp : path) (P : path → node → Prop) :
  map_Forall (λ q m, P (take (length q - length fp) q) m) fs →
  ∀ rel m, fs !! (rel ++ fp) = Some m → P rel m.
Proof.
  intros HP rel m Hm. specialize (HP _ _ Hm). simpl in HP.
  rewrite length_app in HP.
  replace (length rel + length fp - length fp) with (length rel) in HP by lia.
  by rewrite take_app_length in HP.
Qed.

Lemma empty_check (fs : fsmap) (sp : path) :
  map_Forall (λ q _, drop (length q - length sp) q = sp → length q ≤ length sp) fs →
  ∀ rel, rel ≠ [] → fs !! (rel ++ sp) = None.
Proof.
  intros HP rel Hne. apply eq_None_not_Some. intros [m Hm].
  specialize (HP _ _ Hm). simpl in HP. rewrite length_app in HP.
  replace (length rel + length sp - length sp) with (length rel) in HP by lia.
  rewrite drop_app_length in HP. specialize (HP eq_refl).
  destruct rel; simpl in *; [done|lia].
Qed.

(** ** Canonical names *)

Lemma walk_canon_inv fs p p' :
  Forall valid_name p →
  walk fs [] (split_byte SLASH (path_append [] p)) = Some p' → p' = p.
Proof.
  revert p'; induction p as [|n p IH]; intros p' Hv; simpl.
  - repeat case_match; naive_solver.
  - apply Forall_cons in Hv as [Hn Hv].
    rewrite split_byte_app, walk_app, (split_byte_notin _ n) by apply Hn.
    intros (q & Hq%IH & Hw)%bind_Some; [|done]. subst q. simpl in Hw.
    destruct (valid_name_walk n Hn) as [E1 E2]. rewrite E1, E2 in Hw.
    repeat case_match; naive_solver.
Qed.

(** What a canonical name leads to is decided by the map alone. *)
Lemma lookup_at_canon w p :
  fs_wf (w_fs w) → Forall valid_name p → (zlen (path_str p) < PATH_MAX)%Z →
  lookup_at w (path_str p) =
    match w_fs w !! p with
    | None | Some NDangling => None
    | Some m => Some (p, m)
    end.
Proof.
  intros Hwf Hv Hl. destruct (w_fs w !! p) as [m|] eqn:Hp.
  - assert (resolve (w_fs w) (w_cwd w) (path_str p) = Some p) as Hr
      by (apply resolve_canon; eauto).
    unfold lookup_at. rewrite Hr. simpl. rewrite Hp. by destruct m.
  - unfold lookup_at. destruct (resolve _ _ _) as [p'|] eqn:Hr; [|done].
    assert (p' = p) as ->; [|simpl; by rewrite Hp].
    unfold resolve in Hr. case_match; [done|]. destruct p as [|n p].
    { pose proof (fs_wf_root _ Hwf). congruence. }
    destruct (path_append_nil_nonroot n p) as (c & s & E & ->).
    unfold path_str in Hr. rewrite E, Z.eqb_refl, <- E in Hr.
    by eapply walk_canon_inv.
Qed.

Lemma fs_wf_valid_path fs p : fs_wf fs → is_Some (fs !! p) → Forall valid_name p.
Proof.
  intros Hwf. induction p as [|n p IH]; intros Hp; constructor.
  - by eapply fs_wf_valid.
  - apply IH. rewrite (fs_wf_parent _ _ _ Hwf Hp). eauto.
Qed.

(** The canonical name of a new entry of a directory resolves to it. *)
Lemma resolve_canon_new fs cwd n d :
  fs_wf fs → fs !! d = Some NDir → valid_name n →
  (zlen (path_str (n :: d)) < PATH_MAX)%Z →
  resolve fs cwd (path_str (n :: d)) = Some (n :: d).
Proof.
  intros Hwf Hd Hn Hlen. unfold resolve.
  destruct (Z.leb_spec PATH_MAX (zlen (path_str (n :: d)))); [lia|].
  destruct (path_append_nil_nonroot n d) as (c & s & E & ->).
  unfold path_str. rewrite E at 1. rewrite Z.eqb_refl.
  apply walk_canon; [done..|]. constructor; [done|].
  apply (fs_wf_valid_path fs); eauto.
Qed.

Lemma path_str_cons n p : p ≠ [] → path_str (n :: p) = path_str p ++ SLASH :: n.
Proof. by destruct p. Qed.

Lemma path_append_path_str rel p :
  p ≠ [] → path_append (path_str p) rel = path_str (rel ++ p).
Proof.
  intros Hp. destruct p as [|n p]; [done|].
  induction rel as [|m rel IH]; [done|]. cbn [path_append app].
  rewrite IH, path_str_cons; [done|]. by destruct rel.
Qed.

(** A name is always longer than the name of a directory it lies in. *)
Lemma path_str_mono rel p : p ≠ [] → (zlen (path_str p) ≤ zlen (path_str (rel ++ p)))%Z.
Proof.
  intros Hp. rewrite <- path_append_path_str by done.
  destruct (path_append_prefix (path_str p) rel) as [k ->]. zlen_lia.
Qed.

(** The path a canonical absolute name stands for. *)
Definition parse_abs (s : bytes) : path :=
  rev (List.filter (λ c, bool_decide (c ≠ [])) (split_byte SLASH s)).

Lemma parse_abs_append p :
  Forall valid_name p → parse_abs (path_append [] p) = p.
Proof.
  unfold parse_abs. induction p as [|n p IH]; cbn [path_append]; [done|].
  intros [Hn Hv]%Forall_cons. rewrite split_byte_app, List.filter_app, rev_app_distr.
  rewrite IH by done. rewrite split_byte_notin by apply Hn. cbn [List.filter].
  rewrite bool_decide_eq_true_2 by apply Hn. done.
Qed.

Lemma parse_abs_path_str p : Forall valid_name p → parse_abs (path_str p) = p.
Proof. destruct p; [done|]. apply parse_abs_append. Qed.
