(* ===== verification/Tools.v ===== *)
(** * What the tools of [comp_kernel] have in common

    [skin.c], [molt.c], [ssu_diff.c] and [ssu_diff2.c] repeat the same pieces:
    the size of their path arrays, the [scandir] filter, the way an argument
    becomes an absolute name, and the way one directory name is derived from
    another.  This file models them once, with the facts about them and about
    trees of names that the programs share. *)
From stdpp Require Import base sorting strings numbers gmap list.
From S2P Require Import Prelude Posix.

Definition BUFMAX : Z := 4096.
Definition HASHLEN : nat := 33.

(** The [scandir] filter: "." and ".." and ".git" are left out. *)
Definition scandir_filter (d_name : name) : bool :=
  if bool_decide (d_name = B ".") || bool_decide (d_name = B "..") ||
     bool_decide (d_name = B ".git")
  then false else true.

(** [if (argv[i][0] != '/') realpath(argv[i], buf); else strcpy(buf, argv[i])] *)
Definition abspath (arg : bytes) : C bytes :=
  match arg with
  | 47%Z :: _ => store BUFMAX arg
  | _ =>
      r ← realpath arg;
      match r with
      | Some p => mret p
      | None => undef "unspecified realpath buffer"
      end
  end.

(** [ptr = strrchr(s, '_'); *(ptr - 1) = 0; sprintf(s, "%s<ending>", s)]: the
    name cut one byte before its last underscore, with a new ending.  The
    [sprintf] reads the array it writes; the model is what the C library does
    with it. *)
Definition cut_suffix (s ending : bytes) : C bytes :=
  match rfind_byte UNDERSCORE s with
  | None => undef "null pointer arithmetic"
  | Some 0 => undef "store before the array"
  | Some (S i) => store BUFMAX (take i s ++ ending)
  end.

(** Run a [store] that fits. *)
Ltac crun_store :=
  erewrite C_bind_step by (apply store_run; unfold BUFMAX in *; lia).

(** The digest array after [read] and [hash[HASHLEN-1] = 0]. *)
Lemma hash_buf r : 33 ≤ length r →
  <[HASHLEN - 1 := Some NUL]> (read_buf HASHLEN r) = (Some <$> take 32 r) ++ [Some NUL].
Proof.
  intros Hl. unfold read_buf, HASHLEN. replace (33 - length r) with 0 by lia.
  rewrite app_nil_r. replace 33 with (32 + 1) at 2 by lia. rewrite <- take_take_drop.
  destruct (drop 32 r) as [|x k] eqn:E.
  { apply (f_equal length) in E. rewrite length_drop in E. simpl in E. lia. }
  rewrite fmap_app. simpl (33 - 1).
  replace 32 with (length (Some <$> take 32 r) + 0) at 1
    by (rewrite length_fmap, length_take; lia).
  by rewrite insert_app_r.
Qed.

(** ** Trees *)

(** The entries [skin] and [molt] look at. *)
Definition visible (rel : path) : Prop := Forall (λ n, scandir_filter n = true) rel.

(** The two subtrees have no entry in common. *)
Definition apart (fp sp : path) : Prop := ∀ r r', r ++ fp ≠ r' ++ sp.

Lemma apart_child fp sp n : apart fp sp → apart (n :: fp) (n :: sp).
Proof.
  intros Ha r r' E. apply (Ha (r ++ [n]) (r' ++ [n])).
  by rewrite <- !(assoc_L (++)).
Qed.

Lemma apart_siblings (x y : name) p : x ≠ y → apart (x :: p) (y :: p).
Proof.
  intros Hxy r r' E. change (x :: p) with ([x] ++ p) in E.
  change (y :: p) with ([y] ++ p) in E. rewrite !(assoc_L (++)) in E.
  apply (inj (λ l, l ++ p)), app_inj_tail in E as [_ E]. done.
Qed.

(** The places at and below [r], and those below it. *)
Definition under (r rel : path) : Prop := ∃ k, rel = k ++ r.
Definition strictly_under (r rel : path) : Prop := ∃ k, k ≠ [] ∧ rel = k ++ r.

Lemma under_inj n n' r rel : under (n :: r) rel → under (n' :: r) rel → n = n'.
Proof.
  intros [k ->] [k' E]. change (n :: r) with ([n] ++ r) in E.
  change (n' :: r) with ([n'] ++ r) in E. rewrite !(assoc_L (++)) in E.
  apply (inj (λ l, l ++ r)), app_inj_tail in E as [_ E]. done.
Qed.


(** The same as tests on the paths of a concrete tree. *)
Definition under_path (mp q : path) : Prop := drop (length q - length mp) q = mp.

#[export] Instance under_path_dec mp q : Decision (under_path mp q).
Proof. unfold under_path. apply _. Defined.

(** The part of [q] below [p], when [q] lies there. *)
Definition rel_to (p q : path) : path := take (length q - length p) q.

Lemma under_path_app r p : under_path p (r ++ p).
Proof.
  unfold under_path. rewrite length_app.
  replace (length r + length p - length p) with (length r) by lia.
  apply drop_app_length.
Qed.

Lemma rel_to_app r p : rel_to p (r ++ p) = r.
Proof.
  unfold rel_to. rewrite length_app.
  replace (length r + length p - length p) with (length r) by lia.
  apply take_app_length.
Qed.

(** ** Names *)

(** The name of an entry of a directory of a tree. *)
Lemma name_child (p : path) (r : path) n :
  p ≠ [] → path_str (r ++ p) ++ SLASH :: n = path_str ((n :: r) ++ p).
Proof. intros Hp. cbn [app]. rewrite path_str_cons; [done|]. by destruct r. Qed.

Lemma path_str_slash p : ∃ s, path_str p = SLASH :: s.
Proof.
  destruct p as [|n p]; [by exists []|].
  destruct (path_append_nil_nonroot n p) as (c & s & E & ->). by exists s.
Qed.

Lemma abspath_canon p w :
  (zlen (path_str p) < BUFMAX)%Z → abspath (path_str p) w = (Done (path_str p), w).
Proof.
  intros Hl. destruct (path_str_slash p) as [s E]. rewrite E in *.
  by apply store_run.
Qed.

(** The endings the tools put after a directory name. *)
Definition ending (e : bytes) : Prop := e = B "__skin" ∨ e = B "__molt".

Lemma valid_name_app n e : ending e → valid_name n → valid_name (n ++ e).
Proof.
  intros He (? & Hc & Hs & ? & ?). unfold valid_name, is_cstr in *.
  assert (Forall (λ b, is_byte b ∧ b ≠ NUL) e ∧ (SLASH ∉ e) ∧ length e = 6) as (?&?&Hl).
  { destruct He as [->| ->]; vm_decide. }
  split_and!.
  - by destruct n.
  - by apply Forall_app.
  - by rewrite not_elem_of_app.
  - intros E. apply (f_equal length) in E. rewrite length_app in E. simpl in E. lia.
  - intros E. apply (f_equal length) in E. rewrite length_app in E. simpl in E. lia.
Qed.

Lemma valid_name_ending n : valid_name n → valid_name (n ++ B "__skin").
Proof. apply valid_name_app. by left. Qed.

Lemma valid_name_molt n : valid_name n → valid_name (n ++ B "__molt").
Proof. apply valid_name_app. by right. Qed.

(** [<name>__skin] becomes [<name>__molt], and the other way round. *)
Lemma cut_suffix_canon n d e e' w :
  ending e → ending e' → (zlen (path_str ((n ++ e') :: d)) < BUFMAX)%Z →
  cut_suffix (path_str ((n ++ e) :: d)) e' w = (Done (path_str ((n ++ e') :: d)), w).
Proof.
  intros He He' Hl. unfold cut_suffix. cbn [path_str path_append].
  assert (∃ x, e = UNDERSCORE :: UNDERSCORE :: x ∧ UNDERSCORE ∉ x) as (x & -> & Hx).
  { destruct He as [->| ->]; eexists; (split; [reflexivity|]); vm_decide. }
  set (p := path_append [] d ++ SLASH :: n).
  replace (path_append [] d ++ SLASH :: n ++ UNDERSCORE :: UNDERSCORE :: x)
    with ((p ++ [UNDERSCORE]) ++ UNDERSCORE :: x)
    by (unfold p; by rewrite <- !(assoc_L (++))).
  rewrite rfind_byte_app by done. rewrite length_app. cbn [length].
  rewrite Nat.add_1_r. rewrite <- !(assoc_L (++)), take_app_length.
  unfold p. rewrite <- (assoc_L (++)). by apply store_run.
Qed.
