(* ===== verification/Md5Api.v ===== *)
(** * The MD5 interface of [skin]

    [skin.c] computes its digests with OpenSSL, which is not part of the
    repository.  The class [MD5] states what it relies on; [KMd5] shows that
    the kernel's own [crypto/md5.c] has these properties. *)
From stdpp Require Import base numbers list.
From S2P Require Import Prelude.

(** The digest of a message does not depend on how it is cut into the
    arguments of the [MD5_Update] calls, and has 16 bytes. *)
Class MD5 := {
  MD5_CTX : Type;
  MD5_Init : MD5_CTX;
  MD5_Update : MD5_CTX → bytes → MD5_CTX;
  MD5_Final : MD5_CTX → bytes;
  md5_digest : bytes → bytes;
  md5_chunks chunks :
    Forall (λ c, (zlen c < 2 ^ 32)%Z) chunks →
    MD5_Final (foldl MD5_Update MD5_Init chunks) = md5_digest (concat chunks);
  md5_length m : length (md5_digest m) = 16;
  md5_bytes m : Forall is_byte (md5_digest m);
}.

