(* ===== verification/KMd5.v ===== *)
(** * The kernel's MD5, [crypto/md5.c]

    The message digest as the kernel of the managed versions computes it: the
    block transform, and the streaming interface ([md5_init], [md5_update],
    [md5_final]) that buffers an incomplete block between the calls.  The main
    result is that the streaming interface computes the digest of RFC 1321,
    however the message is cut; this discharges the interface [MD5] that [skin]
    uses.  The reference [rfc1321_md5] is written from the text of the RFC and
    uses nothing of the code: its functions and round schedules, its table of
    sines (computed from the series), its padding and initial values.

    Words are [Z] in [0, 2^32).  The block is kept as its 64 bytes: the model
    is that of a little-endian machine, on which [le32_to_cpu_array] and
    [cpu_to_le32_array] do nothing, such as the BMC.  The initial values
    [MD5_H0] to [MD5_H3] come from a header outside the repository and are the
    parameter [iv] of [md5_init]. *)
From stdpp Require Import base numbers list strings.
From S2P Require Import Prelude Md5Api.

Module KMd5.
Local Open Scope Z_scope.

Definition MD5_MESSAGE_BYTES : nat := 64.

Definition md5_zero_message_hash : bytes :=
  [0xd4; 0x1d; 0x8c; 0xd9; 0x8f; 0x00; 0xb2; 0x04;
   0xe9; 0x80; 0x09; 0x98; 0xec; 0xf8; 0x42; 0x7e].

(** ** The transform *)

Definition not32 (x : Z) : Z := Z.lxor x 0xffffffff.

Definition F1 (x y z : Z) : Z := Z.lxor z (Z.land x (Z.lxor y z)).
Definition F2 (x y z : Z) : Z := F1 z x y.
Definition F3 (x y z : Z) : Z := Z.lxor (Z.lxor x y) z.
Definition F4 (x y z : Z) : Z := Z.lxor y (Z.lor x (not32 z)).

Definition MD5STEP (f : Z → Z → Z → Z) (w x y z inp s : Z) : Z :=
  let w := w32 (w + (f x y z + inp)) in
  w32 (Z.lor (w32 (Z.shiftl w s)) (Z.shiftr w (32 - s)) + x).

(** The registers [a], [b], [c], [d] of the function. *)
Definition registers : Type := Z * Z * Z * Z.

(** The 64 statements, 16 for each of the four functions. *)
Definition md5_transform_1 (inp : list Z) (regs : registers) : registers :=
  let inw (i : Z) := nth (Z.to_nat i) inp 0 in
  let '(a, b, c, d) := regs in
  let a := MD5STEP F1 a b c d (inw 0 + 0xd76aa478) 7 in
  let d := MD5STEP F1 d a b c (inw 1 + 0xe8c7b756) 12 in
  let c := MD5STEP F1 c d a b (inw 2 + 0x242070db) 17 in
  let b := MD5STEP F1 b c d a (inw 3 + 0xc1bdceee) 22 in
  let a := MD5STEP F1 a b c d (inw 4 + 0xf57c0faf) 7 in
  let d := MD5STEP F1 d a b c (inw 5 + 0x4787c62a) 12 in
  let c := MD5STEP F1 c d a b (inw 6 + 0xa8304613) 17 in
  let b := MD5STEP F1 b c d a (inw 7 + 0xfd469501) 22 in
  let a := MD5STEP F1 a b c d (inw 8 + 0x698098d8) 7 in
  let d := MD5STEP F1 d a b c (inw 9 + 0x8b44f7af) 12 in
  let c := MD5STEP F1 c d a b (inw 10 + 0xffff5bb1) 17 in
  let b := MD5STEP F1 b c d a (inw 11 + 0x895cd7be) 22 in
  let a := MD5STEP F1 a b c d (inw 12 + 0x6b901122) 7 in
  let d := MD5STEP F1 d a b c (inw 13 + 0xfd987193) 12 in
  let c := MD5STEP F1 c d a b (inw 14 + 0xa679438e) 17 in
  let b := MD5STEP F1 b c d a (inw 15 + 0x49b40821) 22 in
  (a, b, c, d).

Definition md5_transform_2 (inp : list Z) (regs : registers) : registers :=
  let inw (i : Z) := nth (Z.to_nat i) inp 0 in
  let '(a, b, c, d) := regs in
  let a := MD5STEP F2 a b c d (inw 1 + 0xf61e2562) 5 in
  let d := MD5STEP F2 d a b c (inw 6 + 0xc040b340) 9 in
  let c := MD5STEP F2 c d a b (inw 11 + 0x265e5a51) 14 in
  let b := MD5STEP F2 b c d a (inw 0 + 0xe9b6c7aa) 20 in
  let a := MD5STEP F2 a b c d (inw 5 + 0xd62f105d) 5 in
  let d := MD5STEP F2 d a b c (inw 10 + 0x02441453) 9 in
  let c := MD5STEP F2 c d a b (inw 15 + 0xd8a1e681) 14 in
  let b := MD5STEP F2 b c d a (inw 4 + 0xe7d3fbc8) 20 in
  let a := MD5STEP F2 a b c d (inw 9 + 0x21e1cde6) 5 in
  let d := MD5STEP F2 d a b c (inw 14 + 0xc33707d6) 9 in
  let c := MD5STEP F2 c d a b (inw 3 + 0xf4d50d87) 14 in
  let b := MD5STEP F2 b c d a (inw 8 + 0x455a14ed) 20 in
  let a := MD5STEP F2 a b c d (inw 13 + 0xa9e3e905) 5 in
  let d := MD5STEP F2 d a b c (inw 2 + 0xfcefa3f8) 9 in
  let c := MD5STEP F2 c d a b (inw 7 + 0x676f02d9) 14 in
  let b := MD5STEP F2 b c d a (inw 12 + 0x8d2a4c8a) 20 in
  (a, b, c, d).

Definition md5_transform_3 (inp : list Z) (regs : registers) : registers :=
  let inw (i : Z) := nth (Z.to_nat i) inp 0 in
  let '(a, b, c, d) := regs in
  let a := MD5STEP F3 a b c d (inw 5 + 0xfffa3942) 4 in
  let d := MD5STEP F3 d a b c (inw 8 + 0x8771f681) 11 in
  let c := MD5STEP F3 c d a b (inw 11 + 0x6d9d6122) 16 in
  let b := MD5STEP F3 b c d a (inw 14 + 0xfde5380c) 23 in
  let a := MD5STEP F3 a b c d (inw 1 + 0xa4beea44) 4 in
  let d := MD5STEP F3 d a b c (inw 4 + 0x4bdecfa9) 11 in
  let c := MD5STEP F3 c d a b (inw 7 + 0xf6bb4b60) 16 in
  let b := MD5STEP F3 b c d a (inw 10 + 0xbebfbc70) 23 in
  let a := MD5STEP F3 a b c d (inw 13 + 0x289b7ec6) 4 in
  let d := MD5STEP F3 d a b c (inw 0 + 0xeaa127fa) 11 in
  let c := MD5STEP F3 c d a b (inw 3 + 0xd4ef3085) 16 in
  let b := MD5STEP F3 b c d a (inw 6 + 0x04881d05) 23 in
  let a := MD5STEP F3 a b c d (inw 9 + 0xd9d4d039) 4 in
  let d := MD5STEP F3 d a b c (inw 12 + 0xe6db99e5) 11 in
  let c := MD5STEP F3 c d a b (inw 15 + 0x1fa27cf8) 16 in
  let b := MD5STEP F3 b c d a (inw 2 + 0xc4ac5665) 23 in
  (a, b, c, d).

Definition md5_transform_4 (inp : list Z) (regs : registers) : registers :=
  let inw (i : Z) := nth (Z.to_nat i) inp 0 in
  let '(a, b, c, d) := regs in
  let a := MD5STEP F4 a b c d (inw 0 + 0xf4292244) 6 in
  let d := MD5STEP F4 d a b c (inw 7 + 0x432aff97) 10 in
  let c := MD5STEP F4 c d a b (inw 14 + 0xab9423a7) 15 in
  let b := MD5STEP F4 b c d a (inw 5 + 0xfc93a039) 21 in
  let a := MD5STEP F4 a b c d (inw 12 + 0x655b59c3) 6 in
  let d := MD5STEP F4 d a b c (inw 3 + 0x8f0ccc92) 10 in
  let c := MD5STEP F4 c d a b (inw 10 + 0xffeff47d) 15 in
  let b := MD5STEP F4 b c d a (inw 1 + 0x85845dd1) 21 in
  let a := MD5STEP F4 a b c d (inw 8 + 0x6fa87e4f) 6 in
  let d := MD5STEP F4 d a b c (inw 15 + 0xfe2ce6e0) 10 in
  let c := MD5STEP F4 c d a b (inw 6 + 0xa3014314) 15 in
  let b := MD5STEP F4 b c d a (inw 13 + 0x4e0811a1) 21 in
  let a := MD5STEP F4 a b c d (inw 4 + 0xf7537e82) 6 in
  let d := MD5STEP F4 d a b c (inw 11 + 0xbd3af235) 10 in
  let c := MD5STEP F4 c d a b (inw 2 + 0x2ad7d2bb) 15 in
  let b := MD5STEP F4 b c d a (inw 9 + 0xeb86d391) 21 in
  (a, b, c, d).

Definition md5_transform (hash inp : list Z) : list Z :=
  let regs := (nth 0 hash 0, nth 1 hash 0, nth 2 hash 0, nth 3 hash 0) in
  let regs := md5_transform_1 inp regs in
  let regs := md5_transform_2 inp regs in
  let regs := md5_transform_3 inp regs in
  let '(a, b, c, d) := md5_transform_4 inp regs in
  [w32 (nth 0 hash 0 + a); w32 (nth 1 hash 0 + b);
   w32 (nth 2 hash 0 + c); w32 (nth 3 hash 0 + d)].

(** ** Little-endian words *)

Definition le_word (b0 b1 b2 b3 : Z) : Z :=
  b0 + 256 * b1 + 65536 * b2 + 16777216 * b3.

Fixpoint le_words (l : bytes) : list Z :=
  match l with
  | b0 :: b1 :: b2 :: b3 :: l => le_word b0 b1 b2 b3 :: le_words l
  | _ => []
  end.

Definition le_bytes (w : Z) : bytes :=
  [w mod 256; w / 256 mod 256; w / 65536 mod 256; w / 16777216 mod 256].

(** ** The streaming interface *)

Record md5_state := Md5State {
  hash : list Z;
  block : bytes;
  byte_count : Z;
}.

(** [memcpy((char * )block + off, data, length data)] *)
Definition memcpy_at (blk : bytes) (off : nat) (data : bytes) : bytes :=
  take off blk ++ data ++ drop (off + length data) blk.

Definition md5_transform_helper (ctx : md5_state) : md5_state :=
  Md5State (md5_transform (hash ctx) (le_words (block ctx))) (block ctx)
    (byte_count ctx).

Definition md5_init (iv : list Z) (mctx : md5_state) : md5_state :=
  Md5State iv (block mctx) 0.

(** [while (len >= sizeof(mctx->block)) ...], with the bytes left. *)
Fixpoint md5_update_blocks (fuel : nat) (mctx : md5_state) (data : bytes)
    : md5_state * bytes :=
  match fuel with
  | O => (mctx, data)
  | S fuel =>
      if (64 <=? zlen data) then
        let mctx := Md5State (hash mctx) (memcpy_at (block mctx) 0 (take 64 data))
                      (byte_count mctx) in
        md5_update_blocks fuel (md5_transform_helper mctx) (drop 64 data)
      else (mctx, data)
  end.

Definition md5_update (mctx : md5_state) (data : bytes) : md5_state :=
  let avail := Z.to_nat (64 - Z.land (byte_count mctx) 0x3f) in
  let mctx := Md5State (hash mctx) (block mctx)
                (w64 (byte_count mctx + zlen data)) in
  if (zlen data <? Z.of_nat avail) then
    Md5State (hash mctx) (memcpy_at (block mctx) (64 - avail) data)
      (byte_count mctx)
  else
    let mctx := Md5State (hash mctx)
                  (memcpy_at (block mctx) (64 - avail) (take avail data))
                  (byte_count mctx) in
    let mctx := md5_transform_helper mctx in
    let data := drop avail data in
    let '(mctx, data) := md5_update_blocks (length data) mctx data in
    Md5State (hash mctx) (memcpy_at (block mctx) 0 data) (byte_count mctx).

(** The result is the digest and the cleared state. *)
Definition md5_final (mctx : md5_state) : bytes * md5_state :=
  let offset := Z.to_nat (Z.land (byte_count mctx) 0x3f) in
  let padding := 56 - (Z.of_nat offset + 1) in
  let mctx := Md5State (hash mctx) (memcpy_at (block mctx) offset [0x80])
                (byte_count mctx) in
  let '(mctx, p, padding) :=
    if (padding <? 0) then
      let blk := memcpy_at (block mctx) (offset + 1)
                   (replicate (Z.to_nat (padding + 8)) 0) in
      (md5_transform_helper (Md5State (hash mctx) blk (byte_count mctx)), O, 56)
    else (mctx, (offset + 1)%nat, padding) in
  let blk := memcpy_at (block mctx) p (replicate (Z.to_nat padding) 0) in
  let words := le_words (take 56 blk) ++
    [w32 (Z.shiftl (byte_count mctx) 3); w32 (Z.shiftr (byte_count mctx) 29)] in
  let h := md5_transform (hash mctx) words in
  (concat (le_bytes <$> h),
   Md5State [0; 0; 0; 0] (replicate 64 0) 0).

Definition md5_export (ctx : md5_state) : md5_state := ctx.
Definition md5_import (ctx inp : md5_state) : md5_state := inp.

(** ** RFC 1321 *)

(** The transform folded over the first [k] blocks of [m]. *)
Fixpoint compress (k : nat) (h : list Z) (m : bytes) : list Z :=
  match k with
  | O => h
  | S k => compress k (md5_transform h (le_words (take 64 m))) (drop 64 m)
  end.

(** A one bit, zeros up to 56 bytes modulo 64, and the number of bits of the
    message, modulo 2^64, as 8 bytes. *)
Definition pad_zeros (n : nat) : nat := ((119 - n mod 64) mod 64)%nat.

Definition rfc1321_pad (m : bytes) : bytes :=
  let bits := (8 * zlen m) mod 2 ^ 64 in
  m ++ 0x80 :: replicate (pad_zeros (length m)) 0 ++
  le_bytes (bits mod 2 ^ 32) ++ le_bytes (bits / 2 ^ 32).

(** The transform of the code over the padded message. *)
Definition blockwise_md5 (iv : list Z) (m : bytes) : bytes :=
  let p := rfc1321_pad m in
  concat (le_bytes <$> compress (length p / 64) iv p).

(** Section 3.3: the initial values of A, B, C, D, low-order bytes first. *)
Definition rfc1321_iv : list Z :=
  [0x67452301; 0xefcdab89; 0x98badcfe; 0x10325476].

(** Section 3.4: the four auxiliary functions. *)
Definition rfc_F (x y z : Z) : Z := Z.lor (Z.land x y) (Z.land (not32 x) z).
Definition rfc_G (x y z : Z) : Z := Z.lor (Z.land x z) (Z.land y (not32 z)).
Definition rfc_H (x y z : Z) : Z := Z.lxor x (Z.lxor y z).
Definition rfc_I (x y z : Z) : Z := Z.lxor y (Z.lor x (not32 z)).

(** [T[i]] is the integer part of 4294967296 times abs(sin(i)), [i] in radians: the sine
    as the sum of its Taylor series, 180 terms, with 256 bits behind the point. *)
Fixpoint sine_sum (terms : nat) (k x term acc : Z) : Z :=
  match terms with
  | O => acc
  | S terms =>
      sine_sum terms (k + 2) x (- (term * x * x) / ((k + 1) * (k + 2))) (acc + term)
  end.
Definition rfc_T (i : Z) : Z :=
  Z.abs (sine_sum 180 1 i (i * 2 ^ 256) 0) / 2 ^ 224.

(** The rounds: the function, the word of the block, the shift, for step [i] from 0 on. *)
Definition rfc_round (i : nat) : Z → Z → Z → Z :=
  nth (i / 16) [rfc_F; rfc_G; rfc_H; rfc_I] rfc_F.
Definition rfc_k (i : nat) : nat :=
  nth (i / 16) [i; 5 * i + 1; 3 * i + 5; 7 * i]%nat O mod 16.
Definition rfc_s (i : nat) : Z :=
  nth (i mod 4)
    (nth (i / 16) [[7; 12; 17; 22]; [5; 9; 14; 20]; [4; 11; 16; 23]; [6; 10; 15; 21]] []) 0.

(** [X <<< s] *)
Definition rotl32 (x s : Z) : Z := (x * 2 ^ s) mod 2 ^ 32 + x / 2 ^ (32 - s).

(** [a = b + ((a + f(b,c,d) + X[k] + T[i]) <<< s)], and the registers change places. *)
Definition rfc_step (x : list Z) (st : Z * Z * Z * Z) (i : nat) : Z * Z * Z * Z :=
  let '(a, b, c, d) := st in
  let sum := (a + rfc_round i b c d + nth (rfc_k i) x 0 + rfc_T (Z.of_nat i + 1)) mod 2 ^ 32 in
  (d, (b + rotl32 sum (rfc_s i)) mod 2 ^ 32, b, c).

Definition rfc_block (h x : list Z) : list Z :=
  match h with
  | [a; b; c; d] =>
      let '(a', b', c', d') := foldl (rfc_step x) (a, b, c, d) (seq 0 64) in
      [(a + a') mod 2 ^ 32; (b + b') mod 2 ^ 32; (c + c') mod 2 ^ 32; (d + d') mod 2 ^ 32]
  | _ => h
  end.

(** The words of one 64-byte block after the other are taken from the padded message. *)
Fixpoint rfc_blocks (k : nat) (h : list Z) (m : bytes) : list Z :=
  match k with
  | O => h
  | S k => rfc_blocks k (rfc_block h (le_words (take 64 m))) (drop 64 m)
  end.

Definition rfc1321_md5 (m : bytes) : bytes :=
  let p := rfc1321_pad m in
  concat (le_bytes <$> rfc_blocks (length p / 64) rfc1321_iv p).

(** ** Lemmas *)

#[local] Arguments md5_transform : simpl never.
#[local] Opaque md5_transform.
Local Open Scope nat_scope.

Lemma memcpy_at_length blk off data :
  off + length data ≤ length blk → length (memcpy_at blk off data) = length blk.
Proof.
  intros. unfold memcpy_at. rewrite !length_app, length_take, length_drop. lia.
Qed.

Lemma memcpy_at_take blk off data :
  off ≤ length blk →
  take (off + length data) (memcpy_at blk off data) = take off blk ++ data.
Proof.
  intros. unfold memcpy_at. rewrite (assoc_L (++)), take_app_le.
  - rewrite take_ge; [done|]. rewrite length_app, length_take. lia.
  - rewrite length_app, length_take. lia.
Qed.

Lemma compress_app k h m x :
  64 * k ≤ length m → compress k h (m ++ x) = compress k h m.
Proof.
  revert h m; induction k as [|k IH]; intros h m Hl; [done|].
  cbn [compress]. rewrite take_app_le, drop_app_le by lia.
  apply IH. rewrite length_drop. lia.
Qed.

Lemma compress_add a b h m :
  compress (a + b) h m = compress b (compress a h m) (drop (64 * a) m).
Proof.
  revert h m; induction a as [|a IH]; intros h m; [done|].
  cbn [compress Nat.add]. rewrite IH, drop_drop. do 2 f_equal. lia.
Qed.

Lemma md5_update_blocks_spec fuel st data :
  length data ≤ fuel → length (block st) = 64 →
  let '(st', rest) := md5_update_blocks fuel st data in
  hash st' = compress (length data / 64) (hash st) data ∧
  rest = drop (64 * (length data / 64)) data ∧
  length (block st') = 64 ∧ byte_count st' = byte_count st.
Proof.
  revert st data; induction fuel as [|fuel IH]; intros st data Hf Hb.
  - destruct data; simpl in *; [done|lia].
  - cbn [md5_update_blocks]. destruct (Z.leb_spec 64 (zlen data)) as [Hl|Hl];
      unfold zlen in Hl.
    + set (st1 := md5_transform_helper _).
      assert (length (take 64 data) = 64) as Ht by (rewrite length_take; lia).
      assert (memcpy_at (block st) 0 (take 64 data) = take 64 data) as Hm.
      { unfold memcpy_at. rewrite Ht, take_0, drop_ge, app_nil_r; [done|lia]. }
      specialize (IH st1 (drop 64 data)).
      destruct (md5_update_blocks fuel st1 (drop 64 data)) as [st' rest].
      destruct IH as (H1 & H2 & H3 & H4).
      { rewrite length_drop. lia. }
      { simpl. by rewrite Hm. }
      rewrite length_drop in H1, H2.
      assert (length data / 64 = S ((length data - 64) / 64)) as ->.
      { replace (length data) with ((length data - 64) + 1 * 64) at 1 by lia.
        rewrite Nat.div_add by lia. lia. }
      split; [|split; [rewrite H2, drop_drop; f_equal; lia|done]].
      rewrite H1. cbn [compress]. subst st1. simpl. by rewrite Hm.
    + by rewrite Nat.div_small by lia.
Qed.

(** The state after the message [m]: the complete blocks are compressed, the
    incomplete one is at the front of the buffer. *)
Record md5_inv (iv : list Z) (m : bytes) (st : md5_state) : Prop := {
  inv_hash : hash st = compress (length m / 64) iv m;
  inv_block : length (block st) = 64;
  inv_pend : take (length m mod 64) (block st) = drop (64 * (length m / 64)) m;
  inv_count : byte_count st = (zlen m mod 2 ^ 64)%Z;
}.

Lemma count_offset (m : bytes) :
  Z.land (zlen m mod 2 ^ 64) 0x3f = Z.of_nat (length m mod 64).
Proof.
  change 0x3f%Z with (Z.ones 6). rewrite Z.land_ones by lia.
  rewrite Z.mod_mod_divide by (by exists (2 ^ 58)%Z).
  unfold zlen. by rewrite Nat2Z.inj_mod.
Qed.

Lemma div_mod_split n k :
  (n + k) / 64 = n / 64 + (n mod 64 + k) / 64 ∧
  (n + k) mod 64 = (n mod 64 + k) mod 64.
Proof.
  pose proof (Nat.div_mod_eq n 64) as E.
  replace (n + k) with ((n mod 64 + k) + (n / 64) * 64) by lia.
  rewrite Nat.div_add, Nat.Div0.mod_add by lia. lia.
Qed.

Lemma md5_inv_init iv st :
  length (block st) = 64 → md5_inv iv [] (md5_init iv st).
Proof. intros Hb. by constructor. Qed.

(** One step of the invariant, in terms of the bytes waiting in the buffer. *)
Lemma md5_inv_extend iv m st data st' :
  md5_inv iv m st →
  let whole := take (length m mod 64) (block st) ++ data in
  hash st' = compress (length whole / 64) (hash st) whole →
  length (block st') = 64 →
  take (length whole mod 64) (block st') = drop (64 * (length whole / 64)) whole →
  byte_count st' = w64 (byte_count st + zlen data) →
  md5_inv iv (m ++ data) st'.
Proof.
  intros [Hh Hb Hp Hc] whole Hh' Hb' Hp' Hc'. subst whole.
  rewrite Hp in Hh', Hp'. set (whole := drop _ m ++ data) in *.
  assert (length whole = length m mod 64 + length data) as Hw.
  { unfold whole. rewrite length_app, length_drop.
    pose proof (Nat.div_mod_eq (length m) 64). lia. }
  destruct (div_mod_split (length m) (length data)) as [Hdiv Hmod].
  assert (drop (64 * (length m / 64)) (m ++ data) = whole) as Hd.
  { rewrite drop_app_le; [done|]. pose proof (Nat.div_mod_eq (length m) 64). lia. }
  constructor.
  - rewrite length_app, Hdiv, compress_add, Hd, <- Hw, Hh', Hh.
    rewrite compress_app; [done|]. pose proof (Nat.div_mod_eq (length m) 64). lia.
  - done.
  - rewrite length_app, Hmod, <- Hw, Hp', Hdiv, <- Hw.
    rewrite Nat.mul_add_distr_l, <- drop_drop, Hd. done.
  - rewrite Hc', Hc. unfold w64, wrap. rewrite Zplus_mod_idemp_l.
    by rewrite zlen_app.
Qed.

(** The two branches of [md5_update]: the data does not fill the buffer, or
    it does. *)
Lemma md5_update_short st data r :
  Z.land (byte_count st) 0x3f = Z.of_nat r → r + length data < 64 →
  md5_update st data =
    Md5State (hash st) (memcpy_at (block st) r data)
      (w64 (byte_count st + zlen data)).
Proof.
  intros Hr Hl. unfold md5_update. rewrite Hr.
  replace (Z.to_nat (64 - Z.of_nat r)) with (64 - r) by lia.
  rewrite (proj2 (Z.ltb_lt _ _)) by (unfold zlen; lia).
  by replace (64 - (64 - r)) with r by lia.
Qed.

Lemma md5_update_long st data r :
  Z.land (byte_count st) 0x3f = Z.of_nat r → r < 64 → 64 ≤ r + length data →
  length (block st) = 64 →
  let whole := take r (block st) ++ data in
  let st' := md5_update st data in
  hash st' = compress (length whole / 64) (hash st) whole ∧
  length (block st') = 64 ∧
  take (length whole mod 64) (block st') = drop (64 * (length whole / 64)) whole ∧
  byte_count st' = w64 (byte_count st + zlen data).
Proof.
  intros Hr Hr64 Hl Hb whole st'. unfold st', md5_update. rewrite Hr.
  replace (Z.to_nat (64 - Z.of_nat r)) with (64 - r) by lia.
  rewrite (proj2 (Z.ltb_ge _ _)) by (unfold zlen; lia).
  replace (64 - (64 - r)) with r by lia.
  assert (length (take r (block st)) = r) as Htr by (rewrite length_take; lia).
  assert (take 64 whole = memcpy_at (block st) r (take (64 - r) data)) as Hm.
  { unfold whole, memcpy_at. rewrite take_app, Htr, (take_ge (take r _)) by lia.
    rewrite (drop_ge (block st)), app_nil_r; [done|]. rewrite length_take. lia. }
  assert (drop 64 whole = drop (64 - r) data) as Hd.
  { unfold whole. rewrite drop_app, Htr, drop_ge by lia. done. }
  assert (length whole = r + length data) as Hw
    by (unfold whole; rewrite length_app; lia).
  set (st1 := md5_transform_helper _).
  assert (length (block st1) = 64) as Hb1.
  { unfold st1. simpl. rewrite memcpy_at_length; rewrite ?length_take; lia. }
  pose proof (md5_update_blocks_spec (length (drop (64 - r) data)) st1
    (drop (64 - r) data) ltac:(lia) Hb1) as Hspec.
  destruct (md5_update_blocks _ _ _) as [st2 rest].
  destruct Hspec as (H1 & H2 & H3 & H4). cbn [hash block byte_count].
  rewrite <- Hd in H1, H2. rewrite length_drop in H1, H2.
  assert (length whole / 64 = 1 + (length whole - 64) / 64 ∧
    length whole mod 64 = length rest) as [Hq Hm'].
  { destruct (div_mod_split 64 (length whole - 64)) as [E1 E2].
    replace (64 + (length whole - 64)) with (length whole) in E1, E2 by lia.
    rewrite E1, E2. split; [done|]. rewrite H2, !length_drop.
    pose proof (Nat.div_mod_eq (length whole - 64) 64). simpl (64 mod 64 + _). lia. }
  split_and!.
  - rewrite H1, Hq. cbn [compress Nat.add]. rewrite Hm. done.
  - rewrite memcpy_at_length; [done|]. rewrite <- Hm', H3.
    pose proof (Nat.mod_upper_bound (length whole) 64). lia.
  - rewrite Hm'. pose proof (memcpy_at_take (block st2) 0 rest) as E.
    simpl in E. rewrite E by lia. rewrite H2, Hq, drop_drop. f_equal. lia.
  - rewrite H4. done.
Qed.

Lemma md5_inv_update iv m st data :
  md5_inv iv m st → md5_inv iv (m ++ data) (md5_update st data).
Proof.
  intros Hinv. pose proof Hinv as [Hh Hb Hp Hc].
  assert (length m mod 64 < 64) as Hr by (apply Nat.mod_upper_bound; lia).
  assert (Z.land (byte_count st) 0x3f = Z.of_nat (length m mod 64)) as Hoff
    by (rewrite Hc; apply count_offset).
  assert (length (take (length m mod 64) (block st)) = length m mod 64) as Ht
    by (rewrite length_take; lia).
  destruct (decide (length m mod 64 + length data < 64)) as [Hl|Hl].
  - rewrite (md5_update_short st data _ Hoff Hl).
    apply (md5_inv_extend iv m st); [done|..]; cbn [hash block byte_count];
      rewrite ?length_app, ?Ht.
    + by rewrite Nat.div_small by lia.
    + rewrite memcpy_at_length; lia.
    + rewrite Nat.mod_small, Nat.div_small, memcpy_at_take by lia. done.
    + done.
  - destruct (md5_update_long st data _ Hoff Hr ltac:(lia) Hb) as (?&?&?&?).
    by apply (md5_inv_extend iv m st).
Qed.

Lemma md5_inv_chunks iv st chunks m :
  md5_inv iv m st → md5_inv iv (m ++ concat chunks) (foldl md5_update st chunks).
Proof.
  revert st m; induction chunks as [|c chunks IH]; intros st m Hinv; simpl.
  - by rewrite app_nil_r.
  - rewrite (assoc_L (++)). by apply IH, md5_inv_update.
Qed.

(** ** Words and the length field *)

Lemma le_words_app k a b :
  length a = 4 * k → le_words (a ++ b) = le_words a ++ le_words b.
Proof.
  revert a; induction k as [|k IH]; intros a Hl.
  - by destruct a.
  - destruct a as [|x0 [|x1 [|x2 [|x3 a]]]]; simpl in Hl; try lia.
    simpl. rewrite IH by lia. done.
Qed.

Lemma le_words_le_bytes x l :
  (0 ≤ x < 2 ^ 32)%Z → le_words (le_bytes x ++ l) = x :: le_words l.
Proof.
  intros Hx. simpl. f_equal. unfold le_word.
  Z.div_mod_to_equations. lia.
Qed.

Lemma length_lo L :
  ((8 * L) mod 2 ^ 64 mod 2 ^ 32 = w32 (Z.shiftl (L mod 2 ^ 64) 3))%Z.
Proof.
  unfold w32, wrap. rewrite Z.shiftl_mul_pow2 by lia.
  rewrite Z.mod_mod_divide by (by exists (2 ^ 32)%Z).
  rewrite <- (Zmult_mod_idemp_l (L mod 2 ^ 64)).
  rewrite Z.mod_mod_divide by (by exists (2 ^ 32)%Z).
  rewrite Zmult_mod_idemp_l. f_equal. lia.
Qed.

Lemma length_hi L :
  ((8 * L) mod 2 ^ 64 / 2 ^ 32 = w32 (Z.shiftr (L mod 2 ^ 64) 29))%Z.
Proof.
  unfold w32, wrap. rewrite Z.shiftr_div_pow2 by lia.
  change (2 ^ 64)%Z with (8 * 2 ^ 61)%Z at 1. rewrite Z.mul_mod_distr_l by lia.
  change (2 ^ 32)%Z with (8 * 2 ^ 29)%Z at 1. rewrite Z.div_mul_cancel_l by lia.
  rewrite <- (Z.mod_mod_divide L (2 ^ 64) (2 ^ 61)) by (by exists 8%Z).
  change (2 ^ 61)%Z with (2 ^ 29 * 2 ^ 32)%Z. rewrite Z.rem_mul_r by lia.
  rewrite Z.add_comm, (Z.mul_comm (2 ^ 29)), Z.div_add_l by lia.
  rewrite (Z.div_small (_ mod 2 ^ 29)); [lia|]. by apply Z.mod_pos_bound.
Qed.

Lemma le_words_length_field (m : bytes) :
  let bits := ((8 * zlen m) mod 2 ^ 64)%Z in
  le_words (le_bytes (bits mod 2 ^ 32) ++ le_bytes (bits / 2 ^ 32)) =
  [w32 (Z.shiftl (zlen m mod 2 ^ 64) 3); w32 (Z.shiftr (zlen m mod 2 ^ 64) 29)].
Proof.
  intros bits. assert (0 ≤ bits < 2 ^ 64)%Z as Hb by by apply Z.mod_pos_bound.
  rewrite le_words_le_bytes by by apply Z.mod_pos_bound.
  rewrite <- (app_nil_r (le_bytes (bits / _))), le_words_le_bytes.
  - unfold bits. by rewrite length_lo, length_hi.
  - split; [apply Z.div_pos; lia|]. apply Z.div_lt_upper_bound; lia.
Qed.

(** ** The last blocks *)

(** What the padding leaves after the complete blocks of the message. *)
Definition last_bytes (m : bytes) : bytes :=
  drop (64 * (length m / 64)) m ++
  0x80%Z :: replicate (pad_zeros (length m)) 0%Z ++
  le_bytes ((8 * zlen m) mod 2 ^ 64 mod 2 ^ 32) ++
  le_bytes ((8 * zlen m) mod 2 ^ 64 / 2 ^ 32).

Lemma last_bytes_length m :
  length (last_bytes m) = if decide (length m mod 64 ≤ 55) then 64 else 128.
Proof.
  unfold last_bytes. rewrite length_app, length_cons, length_app, length_replicate.
  rewrite length_app, length_drop. cbn [le_bytes length]. unfold pad_zeros.
  pose proof (Nat.div_mod_eq (length m) 64).
  pose proof (Nat.mod_upper_bound (length m) 64 ltac:(lia)).
  case_decide.
  - replace (119 - length m mod 64) with ((55 - length m mod 64) + 1 * 64) by lia.
    rewrite Nat.Div0.mod_add, Nat.mod_small; lia.
  - rewrite (Nat.mod_small (119 - _)); lia.
Qed.

Lemma blockwise_last iv m :
  blockwise_md5 iv m = concat (le_bytes <$>
    compress (length (last_bytes m) / 64) (compress (length m / 64) iv m)
      (last_bytes m)).
Proof.
  unfold blockwise_md5.
  pose proof (Nat.div_mod_eq (length m) 64).
  assert (rfc1321_pad m = take (64 * (length m / 64)) m ++ last_bytes m) as E.
  { unfold rfc1321_pad, last_bytes. by rewrite (assoc_L (++) (take _ _)), take_drop. }
  assert (length (take (64 * (length m / 64)) m) = 64 * (length m / 64)) as Ht
    by (rewrite length_take; lia).
  set (q := length m / 64) in *.
  assert ((64 * q + length (last_bytes m)) / 64 = q + length (last_bytes m) / 64)
    as Hq by (rewrite Nat.add_comm, (Nat.mul_comm 64), Nat.div_add; lia).
  rewrite E, length_app, Ht, Hq, compress_add, drop_app.
  rewrite (drop_ge (take _ _)) by lia.
  rewrite Ht, Nat.sub_diag, drop_0, (compress_app q) by lia.
  by rewrite <- (compress_app q iv _ (drop (64 * q) m)), take_drop by lia.
Qed.

Lemma padded_block blk r k :
  r + 1 + k ≤ length blk →
  let blk' := memcpy_at (memcpy_at blk r [0x80%Z]) (r + 1) (replicate k 0%Z) in
  take (r + 1 + k) blk' = take r blk ++ 0x80%Z :: replicate k 0%Z ∧
  length blk' = length blk.
Proof.
  intros Hk blk'. assert (length (memcpy_at blk r [0x80%Z]) = length blk) as Hl
    by (apply memcpy_at_length; simpl; lia).
  split.
  - pose proof (memcpy_at_take (memcpy_at blk r [0x80%Z]) (r + 1)
      (replicate k 0%Z) ltac:(lia)) as E.
    rewrite length_replicate in E. unfold blk'. rewrite E.
    pose proof (memcpy_at_take blk r [0x80%Z] ltac:(lia)) as E'. simpl in E'.
    by rewrite E', <- (assoc_L (++)).
  - unfold blk'. rewrite memcpy_at_length; rewrite ?length_replicate; lia.
Qed.

(** The length field completes a block of which 56 bytes are known. *)
Lemma le_words_last (m l : bytes) :
  length l = 56 →
  le_words (l ++ le_bytes ((8 * zlen m) mod 2 ^ 64 mod 2 ^ 32) ++
            le_bytes ((8 * zlen m) mod 2 ^ 64 / 2 ^ 32)) =
  le_words l ++ [w32 (Z.shiftl (zlen m mod 2 ^ 64) 3);
                 w32 (Z.shiftr (zlen m mod 2 ^ 64) 29)].
Proof.
  intros Hl. rewrite (le_words_app 14) by lia. f_equal.
  apply le_words_length_field.
Qed.

Lemma md5_final_spec iv m st :
  md5_inv iv m st → fst (md5_final st) = blockwise_md5 iv m.
Proof.
  intros [Hh Hb Hp Hc]. rewrite blockwise_last, last_bytes_length, <- Hh.
  unfold md5_final. rewrite Hc, count_offset, Nat2Z.id.
  unfold last_bytes. rewrite <- Hp. unfold pad_zeros.
  set (r := length m mod 64) in *.
  assert (r < 64) as Hr by (apply Nat.mod_upper_bound; lia).
  assert (length (take r (block st)) = r) as Ht by (rewrite length_take; lia).
  cbn [hash block byte_count].
  destruct (decide (r ≤ 55)) as [Hs|Hs].
  - rewrite (proj2 (Z.ltb_ge _ _)) by lia. cbn [fst hash block byte_count].
    do 2 f_equal. change (64 / 64) with 1. cbn [compress]. f_equal.
    replace ((119 - r) mod 64) with (55 - r); last first.
    { replace (119 - r) with ((55 - r) + 1 * 64) by lia.
      rewrite Nat.Div0.mod_add, Nat.mod_small; lia. }
    replace (Z.to_nat (56 - (Z.of_nat r + 1))) with (55 - r) by lia.
    destruct (padded_block (block st) r (55 - r)) as [E _]; [lia|].
    replace (r + 1 + (55 - r)) with 56 in E by lia. rewrite E.
    rewrite <- le_words_last;
      [|rewrite length_app, length_cons, length_replicate; lia].
    rewrite (take_ge (take r _ ++ _)); [by rewrite <- (assoc_L (++))|].
    rewrite length_app, length_cons, !length_app, length_replicate. simpl. lia.
  - rewrite (proj2 (Z.ltb_lt _ _)) by lia. cbn [fst hash block byte_count].
    change (128 / 64) with 2. cbn [compress].
    apply (f_equal (λ h, concat (le_bytes <$> h))).
    rewrite (Nat.mod_small (119 - r)) by lia.
    replace (Z.to_nat (56 - (Z.of_nat r + 1) + 8)) with (63 - r) by lia.
    destruct (padded_block (block st) r (63 - r)) as [E El]; [lia|].
    replace (r + 1 + (63 - r)) with 64 in E by lia. rewrite take_ge in E by lia.
    unfold md5_transform_helper. cbn [hash block byte_count]. rewrite E.
    replace (119 - r) with ((63 - r) + 56) by lia. rewrite replicate_add.
    pose proof (memcpy_at_take (take r (block st) ++ 0x80%Z :: replicate (63 - r) 0%Z)
      0 (replicate 56 0%Z) ltac:(lia)) as E2.
    rewrite length_replicate in E2. change (0 + 56) with 56 in E2.
    change (Z.to_nat 56) with 56. rewrite E2.
    rewrite take_0, app_nil_l, <- le_words_last by (rewrite length_replicate; lia).
    set (t := le_bytes _ ++ le_bytes _).
    replace (take r (block st) ++
             0x80%Z :: (replicate (63 - r) 0%Z ++ replicate 56 0%Z) ++ t) with
      ((take r (block st) ++ 0x80%Z :: replicate (63 - r) 0%Z) ++ replicate 56 0%Z ++ t)
      by (by rewrite <- !(assoc_L (++))).
    assert (length (take r (block st) ++ 0x80%Z :: replicate (63 - r) 0%Z) = 64) as Hl
      by (rewrite length_app, length_cons, length_replicate; lia).
    rewrite take_app_le, drop_app_le by lia.
    rewrite (take_ge (take r (block st) ++ _)), (drop_ge (take r (block st) ++ _)) by lia.
    rewrite app_nil_l, (take_ge (replicate 56 _ ++ _)); [done|]. simpl. lia.
Qed.

(** ** The transform of the code is the one of RFC 1321

    The 64 steps of the code, as a table of function, word, constant and shift. *)

Transparent md5_transform.
Local Open Scope Z_scope.

Definition code_fun (n : Z) : Z → Z → Z → Z := nth (Z.to_nat n) [F1; F2; F3; F4] F1.

Definition code_steps : list (Z * Z * Z * Z) :=
  [(0, 0, 0xd76aa478, 7); (0, 1, 0xe8c7b756, 12); (0, 2, 0x242070db, 17); (0, 3, 0xc1bdceee, 22);
   (0, 4, 0xf57c0faf, 7); (0, 5, 0x4787c62a, 12); (0, 6, 0xa8304613, 17); (0, 7, 0xfd469501, 22);
   (0, 8, 0x698098d8, 7); (0, 9, 0x8b44f7af, 12); (0, 10, 0xffff5bb1, 17); (0, 11, 0x895cd7be, 22);
   (0, 12, 0x6b901122, 7); (0, 13, 0xfd987193, 12); (0, 14, 0xa679438e, 17); (0, 15, 0x49b40821, 22);
   (1, 1, 0xf61e2562, 5); (1, 6, 0xc040b340, 9); (1, 11, 0x265e5a51, 14); (1, 0, 0xe9b6c7aa, 20);
   (1, 5, 0xd62f105d, 5); (1, 10, 0x02441453, 9); (1, 15, 0xd8a1e681, 14); (1, 4, 0xe7d3fbc8, 20);
   (1, 9, 0x21e1cde6, 5); (1, 14, 0xc33707d6, 9); (1, 3, 0xf4d50d87, 14); (1, 8, 0x455a14ed, 20);
   (1, 13, 0xa9e3e905, 5); (1, 2, 0xfcefa3f8, 9); (1, 7, 0x676f02d9, 14); (1, 12, 0x8d2a4c8a, 20);
   (2, 5, 0xfffa3942, 4); (2, 8, 0x8771f681, 11); (2, 11, 0x6d9d6122, 16); (2, 14, 0xfde5380c, 23);
   (2, 1, 0xa4beea44, 4); (2, 4, 0x4bdecfa9, 11); (2, 7, 0xf6bb4b60, 16); (2, 10, 0xbebfbc70, 23);
   (2, 13, 0x289b7ec6, 4); (2, 0, 0xeaa127fa, 11); (2, 3, 0xd4ef3085, 16); (2, 6, 0x04881d05, 23);
   (2, 9, 0xd9d4d039, 4); (2, 12, 0xe6db99e5, 11); (2, 15, 0x1fa27cf8, 16); (2, 2, 0xc4ac5665, 23);
   (3, 0, 0xf4292244, 6); (3, 7, 0x432aff97, 10); (3, 14, 0xab9423a7, 15); (3, 5, 0xfc93a039, 21);
   (3, 12, 0x655b59c3, 6); (3, 3, 0x8f0ccc92, 10); (3, 10, 0xffeff47d, 15); (3, 1, 0x85845dd1, 21);
   (3, 8, 0x6fa87e4f, 6); (3, 15, 0xfe2ce6e0, 10); (3, 6, 0xa3014314, 15); (3, 13, 0x4e0811a1, 21);
   (3, 4, 0xf7537e82, 6); (3, 11, 0xbd3af235, 10); (3, 2, 0x2ad7d2bb, 15); (3, 9, 0xeb86d391, 21)].

Definition rfc_steps : list (Z * Z * Z * Z) :=
  (λ i, (Z.of_nat (i / 16), Z.of_nat (rfc_k i), rfc_T (Z.of_nat i + 1), rfc_s i)) <$> seq 0 64.

Lemma code_steps_rfc : code_steps = rfc_steps.
Proof. vm_compute. reflexivity. Qed.

Definition code_step (inp : list Z) (st : Z * Z * Z * Z) (o : Z * Z * Z * Z) : Z * Z * Z * Z :=
  let '(a, b, c, d) := st in
  let '(f, k, t, s) := o in
  (d, MD5STEP (code_fun f) a b c d (nth (Z.to_nat k) inp 0 + t) s, b, c).

Definition add_registers (h : list Z) (st : Z * Z * Z * Z) : list Z :=
  let '(a, b, c, d) := st in
  [w32 (nth 0 h 0 + a); w32 (nth 1 h 0 + b); w32 (nth 2 h 0 + c); w32 (nth 3 h 0 + d)].

Section steps.
#[local] Opaque MD5STEP.

Lemma md5_transform_round inp regs :
  md5_transform_1 inp regs = foldl (code_step inp) regs (take 16 code_steps) ∧
  md5_transform_2 inp regs = foldl (code_step inp) regs (take 16 (drop 16 code_steps)) ∧
  md5_transform_3 inp regs = foldl (code_step inp) regs (take 16 (drop 32 code_steps)) ∧
  md5_transform_4 inp regs = foldl (code_step inp) regs (drop 48 code_steps).
Proof. destruct regs as [[[a b] c] d]. split_and!; reflexivity. Qed.

End steps.

Lemma md5_transform_steps h inp :
  md5_transform h inp =
    add_registers h (foldl (code_step inp) (nth 0 h 0, nth 1 h 0, nth 2 h 0, nth 3 h 0) code_steps).
Proof.
  change code_steps with (take 16 code_steps ++ take 16 (drop 16 code_steps) ++
    take 16 (drop 32 code_steps) ++ drop 48 code_steps).
  rewrite !foldl_app. unfold md5_transform. cbv zeta.
  set (regs := (nth 0 h 0, _, _, _)).
  destruct (md5_transform_round inp regs) as (-> & _).
  set (r1 := foldl _ regs _). destruct (md5_transform_round inp r1) as (_ & -> & _).
  set (r2 := foldl _ r1 _). destruct (md5_transform_round inp r2) as (_ & _ & -> & _).
  set (r3 := foldl _ r2 _). destruct (md5_transform_round inp r3) as (_ & _ & _ & ->).
  generalize (foldl (code_step inp) r3 (drop 48 code_steps)). clear.
  intros [[[a b] c] d]. done.
Qed.

Definition is_word (x : Z) : Prop := 0 ≤ x < 2 ^ 32.
Definition words_ok (st : Z * Z * Z * Z) : Prop :=
  let '(a, b, c, d) := st in is_word a ∧ is_word b ∧ is_word c ∧ is_word d.

Lemma word_bits x i : is_word x → 32 ≤ i → Z.testbit x i = false.
Proof. intros Hx Hi. rewrite <-(Z.mod_small x (2 ^ 32)) by done. apply Z.mod_pow2_bits_high. lia. Qed.

Lemma not32_bits x i : 0 ≤ i →
  Z.testbit (not32 x) i = if i <? 32 then negb (Z.testbit x i) else Z.testbit x i.
Proof.
  intros Hi. unfold not32. rewrite Z.lxor_spec. change 0xffffffff with (Z.ones 32).
  rewrite Z.testbit_ones_nonneg by lia. destruct (i <? 32), (Z.testbit x i); done.
Qed.

(** The functions of the code are those of RFC 1321, on words. *)
Lemma code_fun_rfc n x y z : is_word x → is_word y → is_word z →
  code_fun (Z.of_nat n) x y z = nth n [rfc_F; rfc_G; rfc_H; rfc_I] rfc_F x y z.
Proof.
  intros Hx Hy Hz. unfold code_fun. rewrite Nat2Z.id.
  assert (HF : ∀ x y z, is_word x → is_word y → is_word z → F1 x y z = rfc_F x y z).
  { clear. intros x y z Hx Hy Hz. apply Z.bits_inj'. intros i Hi. unfold F1, rfc_F.
    rewrite Z.lxor_spec, Z.land_spec, Z.lxor_spec, Z.lor_spec, !Z.land_spec, not32_bits by done.
    destruct (Z.ltb_spec i 32); [|by rewrite !(word_bits _ i) by done].
    by destruct (Z.testbit x i), (Z.testbit y i), (Z.testbit z i). }
  destruct n as [|[|[|[|[|n]]]]]; cbn [nth]; try by apply HF.
  - unfold F2. rewrite HF by done. unfold rfc_F, rfc_G.
    by rewrite Z.land_comm, (Z.land_comm (not32 z)).
  - unfold F3, rfc_H. apply Z.lxor_assoc.
  - done.
Qed.

Lemma rotl_code w s : is_word w → 0 ≤ s ≤ 32 →
  Z.lor (w32 (Z.shiftl w s)) (Z.shiftr w (32 - s)) = rotl32 w s.
Proof.
  intros Hw Hs. unfold rotl32, w32, wrap.
  rewrite Z.shiftl_mul_pow2, Z.shiftr_div_pow2 by lia.
  assert (E : 2 ^ 32 = 2 ^ (32 - s) * 2 ^ s) by (rewrite <-Z.pow_add_r by lia; f_equal; lia).
  assert (0 < 2 ^ s) by (apply Z.pow_pos_nonneg; lia).
  assert (0 < 2 ^ (32 - s)) by (apply Z.pow_pos_nonneg; lia).
  rewrite E, Z.mul_mod_distr_r by lia. apply lor_disjoint; [lia|].
  split; [apply Z.div_pos; unfold is_word in Hw; lia|].
  apply Z.div_lt_upper_bound; [lia|]. rewrite <-E. apply Hw.
Qed.

Lemma rfc_s_range i : 0 ≤ rfc_s i ≤ 32.
Proof.
  unfold rfc_s. destruct (i / 16)%nat as [|[|[|[|n]]]]; cbn [nth];
    [..|destruct n; by destruct (i mod 4)%nat];
    destruct (i mod 4)%nat as [|[|[|[|m]]]]; simpl; try lia; by destruct m.
Qed.

Lemma code_step_rfc x st i : words_ok st →
  code_step x st (Z.of_nat (i / 16), Z.of_nat (rfc_k i), rfc_T (Z.of_nat i + 1), rfc_s i) =
  rfc_step x st i.
Proof.
  destruct st as [[[a b] c] d]. intros (Ha & Hb & Hc & Hd).
  unfold code_step, rfc_step, MD5STEP. rewrite code_fun_rfc by done. fold (rfc_round i).
  rewrite Nat2Z.id. cbv zeta. rewrite rotl_code; [|by apply Z.mod_pos_bound|apply rfc_s_range].
  unfold w32, wrap. do 3 f_equal. rewrite Z.add_comm. do 4 f_equal. lia.
Qed.

Lemma rfc_step_ok x st i : words_ok st → words_ok (rfc_step x st i).
Proof.
  destruct st as [[[a b] c] d]. intros (Ha & Hb & Hc & Hd). simpl.
  split_and!; try done; by apply Z.mod_pos_bound.
Qed.

Lemma md5_transform_rfc h x : length h = 4%nat → Forall is_word h →
  md5_transform h x = rfc_block h x.
Proof.
  destruct h as [|a [|b [|c [|d [|]]]]]; try done. intros _ Hh.
  rewrite md5_transform_steps, code_steps_rfc. unfold rfc_steps, rfc_block. cbn [nth].
  assert (Hok : words_ok (a, b, c, d)) by (rewrite !Forall_cons in Hh; naive_solver).
  assert (E : ∀ l st, words_ok st →
    foldl (code_step x) st ((λ i, (Z.of_nat (i / 16), Z.of_nat (rfc_k i),
      rfc_T (Z.of_nat i + 1), rfc_s i)) <$> l) = foldl (rfc_step x) st l).
  { clear. induction l as [|i l IH]; intros st Hst; [done|]. cbn [fmap list_fmap foldl].
    rewrite code_step_rfc by done. apply IH. by apply rfc_step_ok. }
  rewrite E by done. by destruct (foldl (rfc_step x) _ _) as [[[? ?] ?] ?].
Qed.

Lemma rfc_block_ok h x : length h = 4%nat →
  length (rfc_block h x) = 4%nat ∧ Forall is_word (rfc_block h x).
Proof.
  destruct h as [|a [|b [|c [|d [|]]]]]; try done. intros _. unfold rfc_block.
  destruct (foldl (rfc_step x) _ _) as [[[? ?] ?] ?]. split; [done|].
  repeat (apply Forall_cons; split; [by apply Z.mod_pos_bound|]). constructor.
Qed.

Lemma compress_rfc k h m : length h = 4%nat → Forall is_word h →
  compress k h m = rfc_blocks k h m.
Proof.
  revert h m. induction k as [|k IH]; intros h m Hl Hh; [done|]. cbn [compress rfc_blocks].
  rewrite md5_transform_rfc by done. by apply IH; apply rfc_block_ok.
Qed.

Lemma blockwise_rfc m : blockwise_md5 rfc1321_iv m = rfc1321_md5 m.
Proof.
  unfold blockwise_md5, rfc1321_md5. rewrite compress_rfc; [done|done|].
  repeat (apply Forall_cons; split; [done|]). constructor.
Qed.

#[local] Opaque md5_transform rfc_block.
Local Open Scope nat_scope.

(** ** Properties *)

(** C12: the streaming MD5 of the kernel computes the digest of RFC 1321.  However a
    message is cut into the arguments of [md5_update], and whatever the buffer held
    before [md5_init], [md5_final] returns the digest of the whole message and leaves
    the state cleared.  The digest is defined from the text of the RFC: its padding, its
    auxiliary functions, its table of sines, its order of words and shifts.  The header
    with the initial values is not in the repository; they are those of the RFC here. *)
Theorem md5_stream_rfc1321 st chunks :
  length (block st) = 64 →
  md5_final (foldl md5_update (md5_init rfc1321_iv st) chunks) =
    (rfc1321_md5 (concat chunks), Md5State [0; 0; 0; 0]%Z (replicate 64 0%Z) 0).
Proof.
  intros Hb. rewrite <-blockwise_rfc.
  pose proof (md5_inv_chunks rfc1321_iv (md5_init rfc1321_iv st) chunks []
    (md5_inv_init rfc1321_iv st Hb)).
  rewrite <- (md5_final_spec rfc1321_iv (concat chunks)
    (foldl md5_update (md5_init rfc1321_iv st) chunks)) by done.
  unfold md5_final. repeat case_match; simplify_eq/=; done.
Qed.

Lemma md5_stream_rfc1321_witness :
  md5_final (foldl md5_update
    (md5_init rfc1321_iv (Md5State [] (replicate 64 0xff%Z) 5)) [B "a"; B "bc"]) =
  (rfc1321_md5 (B "abc"), Md5State [0; 0; 0; 0]%Z (replicate 64 0%Z) 0).
Proof.
  apply (md5_stream_rfc1321 (Md5State [] (replicate 64 0xff%Z) 5)
    [B "a"; B "bc"]). reflexivity.
Defined.

(** With the initial values of RFC 1321 the digest of the empty message is
    the constant [md5_zero_message_hash] of the source, and the code computes
    the digests of the test suite of RFC 1321 (appendix A.5). *)
Theorem md5_test_suite :
  let md5 (m : bytes) := fst (md5_final (md5_update
    (md5_init rfc1321_iv (Md5State [] (replicate 64 0%Z) 0)) m)) in
  fst (md5_final (md5_init rfc1321_iv (Md5State [] (replicate 64 0%Z) 0))) =
    md5_zero_message_hash ∧
  md5 (B "a") = [0x0c; 0xc1; 0x75; 0xb9; 0xc0; 0xf1; 0xb6; 0xa8;
                 0x31; 0xc3; 0x99; 0xe2; 0x69; 0x77; 0x26; 0x61]%Z ∧
  md5 (B "abc") = [0x90; 0x01; 0x50; 0x98; 0x3c; 0xd2; 0x4f; 0xb0;
                   0xd6; 0x96; 0x3f; 0x7d; 0x28; 0xe1; 0x7f; 0x72]%Z ∧
  md5 (B "message digest") =
    [0xf9; 0x6b; 0x69; 0x7d; 0x7c; 0xb7; 0x93; 0x8d;
     0x52; 0x5a; 0x2f; 0x31; 0xaa; 0xf1; 0x61; 0xd0]%Z ∧
  md5 (B "ABCDEFGHIJKLMNOPQRSTUVWXYZabcdefghijklmnopqrstuvwxyz0123456789") =
    [0xd1; 0x74; 0xab; 0x98; 0xd2; 0x77; 0xd9; 0xf5;
     0xa5; 0x61; 0x1c; 0x2c; 0x9f; 0x41; 0x9d; 0x9f]%Z ∧
  md5 (B "12345678901234567890123456789012345678901234567890123456789012345678901234567890") =
    [0x57; 0xed; 0xf4; 0xa2; 0x2b; 0xe3; 0xc9; 0x55;
     0xac; 0x49; 0xda; 0x2e; 0x21; 0x07; 0xb6; 0x7a]%Z.
Proof. vm_compute. repeat split. Qed.

(** ** The interface [MD5] *)

Transparent md5_transform rfc_block.

Lemma rfc_blocks_length k h m : length h = 4 → length (rfc_blocks k h m) = 4.
Proof. revert h m; induction k as [|k IH]; intros h m Hh; [done|]. by apply IH, rfc_block_ok. Qed.

Lemma rfc1321_md5_length m : length (rfc1321_md5 m) = 16.
Proof.
  unfold rfc1321_md5.
  assert (length (rfc_blocks (length (rfc1321_pad m) / 64) rfc1321_iv (rfc1321_pad m)) = 4)
    as Hl by (by apply rfc_blocks_length).
  destruct (rfc_blocks _ _ _) as [|? [|? [|? [|? [|]]]]]; done.
Qed.

Lemma rfc1321_md5_bytes m : Forall is_byte (rfc1321_md5 m).
Proof.
  unfold rfc1321_md5. apply Forall_concat, Forall_fmap, Forall_true.
  intros x. simpl. unfold le_bytes.
  repeat (apply Forall_cons; split; [by apply Z.mod_pos_bound|]). constructor.
Qed.

Definition zero_state : md5_state := Md5State [0; 0; 0; 0]%Z (replicate 64 0%Z) 0.

(** The kernel's MD5 is a model of what [skin] uses of OpenSSL. *)
#[export] Program Instance kernel_md5 : MD5 := {|
  MD5_CTX := md5_state;
  MD5_Init := md5_init rfc1321_iv zero_state;
  MD5_Update := md5_update;
  MD5_Final st := fst (md5_final st);
  md5_digest := rfc1321_md5;
  md5_length := rfc1321_md5_length;
  md5_bytes := rfc1321_md5_bytes;
|}.
Next Obligation.
  intros chunks _. rewrite <-blockwise_rfc.
  apply md5_final_spec. by apply (md5_inv_chunks _ _ _ []), md5_inv_init.
Qed.

End KMd5.
