(* ===== verification/Skin.v ===== *)
(** * [skin]: a tree of content hashes

    Model of [3-3/src/comp_kernel/skin.c].  [skin <dir> <skin dir>] mirrors
    the directory tree [<dir>] under [<skin dir>/<dir>__skin]; in the place of
    every file it writes the MD5 digest of the file and its path.

    [MD5_Init], [MD5_Update] and [MD5_Final] are OpenSSL's and not part of the
    repository: the class [MD5] says what the code relies on. *)
From stdpp Require Import base sorting strings numbers gmap list.
From S2P Require Import Prelude Posix Tools Md5Api KMd5.

Module Skin.

Section skin.
Context `{MD5}.

(** ** [md5] *)

(** The digits of ["%02x"]. *)
Definition hex_digit (d : Z) : Z := if (d <? 10)%Z then (48 + d)%Z else (87 + d)%Z.
Definition hex_byte (b : Z) : bytes := [hex_digit (b / 16); hex_digit (b mod 16)].

(** [while ((bytes = fread(buffer, 1, 1024, fp)) != 0) MD5_Update(...)] *)
Fixpoint md5_loop (fuel : nat) (ctx : MD5_CTX) (rest : bytes) : MD5_CTX :=
  match fuel with
  | 0 => ctx
  | S fuel =>
      match take 1024 rest with
      | [] => ctx
      | buffer => md5_loop fuel (MD5_Update ctx buffer) (drop 1024 rest)
      end
  end.

(** [None]: [fopen] failed and [hash_result] was left as it was. *)
Definition md5 (target_path : bytes) : C (option bytes) :=
  fp ← fopen_read target_path;
  match fp with
  | None =>
      printf (B "ERROR: fopen error for " ++ target_path ++ [NEWLINE]);;
      mret None
  | Some data =>
      let hash := MD5_Final (md5_loop (S (length data)) MD5_Init data) in
      mret (Some (concat (hex_byte <$> take 16 hash)))
  end.

(** ** [skinning_file] *)
Definition skinning_file (fpath spath : bytes) : C unit :=
  hash ← md5 fpath;
  fd ← write_file spath [];
  if negb fd then
    eprintf (B "open error for " ++ spath ++ [NEWLINE]);;
    exit 1
  else
    match hash with
    | None => undef "indeterminate hash"
    | Some hash =>
        buf ← store BUFMAX (hash ++ PIPE :: fpath);
        write_file spath (buf ++ [NUL]);;
        mret tt
    end.

(** ** [skinning_dir] *)

(** The [for] loop over the directory entries; [st] is [statbuf], which lives
    across the iterations. *)
Fixpoint skinning_entries (rec : bytes → bytes → C unit) (fpath spath : bytes)
    (st : option mode) (filelist : list name) : C unit :=
  match filelist with
  | [] => mret tt
  | d_name :: filelist =>
      tmp_fpath ← store BUFMAX (fpath ++ SLASH :: d_name);
      tmp_spath ← store BUFMAX (spath ++ SLASH :: d_name);
      st ← stat tmp_fpath st;
      isdir ← S_ISDIR st;
      (if (isdir : bool) then
         mkdir tmp_spath;;
         rec tmp_fpath tmp_spath
       else skinning_file tmp_fpath tmp_spath);;
      skinning_entries rec fpath spath st filelist
  end.

Fixpoint skinning_dir (fuel : nat) (fpath spath : bytes) : C unit :=
  match fuel with
  | 0 => halt OutOfFuel
  | S fuel =>
      filelist ← scandir fpath scandir_filter;
      match filelist with
      | None => eprintf (B "in function skinning_dir: scandir error" ++ [NEWLINE])
      | Some filelist =>
          skinning_entries (skinning_dir fuel) fpath spath None filelist
      end
  end.

(** ** [main] *)

(** From the [printf] of the two names on.  The last [sprintf] reads [spath]
    while it writes it; the model is what the C library does with it, the text
    appended to [spath]. *)
Definition main_checked (fuel : nat) (fpath spath : bytes) : C unit :=
  printf (fpath ++ B " | " ++ spath ++ [NEWLINE]);;
  match find_sub fpath spath with
  | Some _ =>
      eprintf (B "<skin directory path> cannot be sub directroy of <directory path>"
               ++ [NEWLINE]);;
      exit 1
  | None =>
      match rfind_byte SLASH fpath with
      | None => undef "null pointer arithmetic"
      | Some i =>
          let filename := drop (S i) fpath in
          spath ← store BUFMAX (spath ++ SLASH :: filename ++ B "__skin");
          printf (spath ++ [NEWLINE]);;
          a ← access spath;
          (if (a : bool) then rmdir spath else mret tt);;
          mkdir spath;;
          skinning_dir fuel fpath spath;;
          exit 0
      end
  end.

Definition main (fuel : nat) (argv : list bytes) : C unit :=
  let argv0 := default (B "(null)") (head argv) in
  match argv with
  | _ :: argv1 :: argv2 :: _ =>
      a1 ← access argv1;
      a2 ← (if (a1 : bool) then access argv2 else mret true);
      if negb a1 || negb a2 then
        eprintf (B "usage : " ++ argv0 ++
                 B " <directory path> <skin directory path" ++ [NEWLINE]);;
        exit 1
      else
      st1 ← stat argv1 None;
      st2 ← stat argv2 None;
      d1 ← S_ISDIR st1;
      d2 ← (if (d1 : bool) then S_ISDIR st2 else mret true);
      if negb d1 || negb d2 then
        eprintf (argv1 ++ B " or " ++ argv2 ++ B " is not directory" ++ [NEWLINE]);;
        exit 1
      else
      fpath ← abspath argv1;
      spath ← abspath argv2;
      main_checked fuel fpath spath
  | _ =>
      eprintf (B "usage : " ++ argv0 ++
               B " <directory path> <skin directory path>" ++ [NEWLINE]);;
      exit 1
  end.

(** ** The digest *)

Definition hex (digest : bytes) : bytes := concat (hex_byte <$> digest).

Lemma hex_length d : length (hex d) = 2 * length d.
Proof. unfold hex. induction d as [|x d IH]; csimpl; [done|]. rewrite IH. lia. Qed.

Lemma hex_digest_zlen m : zlen (hex (md5_digest m)) = 32%Z.
Proof. unfold zlen. by rewrite hex_length, md5_length. Qed.

Lemma md5_loop_chunks fuel ctx rest :
  length rest < fuel →
  ∃ chunks, md5_loop fuel ctx rest = foldl MD5_Update ctx chunks ∧
    concat chunks = rest ∧ Forall (λ c, (zlen c < 2 ^ 32)%Z) chunks.
Proof.
  revert ctx rest; induction fuel as [|fuel IH]; intros ctx rest Hf; [lia|].
  cbn [md5_loop]. destruct (take 1024 rest) as [|x chunk] eqn:E.
  - exists []. split_and!; [done| |constructor].
    by destruct rest.
  - destruct (IH (MD5_Update ctx (x :: chunk)) (drop 1024 rest)) as
      (chunks & -> & Hc & Hl).
    { rewrite length_drop. apply (f_equal length) in E.
      rewrite length_take, length_cons in E. lia. }
    exists ((x :: chunk) :: chunks). split_and!; [done| |].
    + simpl. rewrite Hc, app_comm_cons, <- E. apply take_drop.
    + constructor; [|done]. rewrite <- E. unfold zlen. rewrite length_take. lia.
Qed.

(** Reading in pieces of 1024 bytes computes the digest of the whole file. *)
Lemma md5_loop_digest data :
  MD5_Final (md5_loop (S (length data)) MD5_Init data) = md5_digest data.
Proof.
  destruct (md5_loop_chunks (S (length data)) MD5_Init data) as
    (chunks & -> & Hc & Hl); [lia|].
  by rewrite md5_chunks, Hc.
Qed.

Lemma md5_run s w p data :
  resolve (w_fs w) (w_cwd w) s = Some p → w_fs w !! p = Some (NFile data) →
  md5 s w = (Done (Some (hex (md5_digest data))), w).
Proof.
  intros Hs Hp. unfold md5. crun (fopen_read_run w s p Hs data Hp).
  rewrite md5_loop_digest, take_ge; [done|]. by rewrite md5_length.
Qed.

(** ** The effect of [skin] on the file system *)

(** What stands for a node in the mirror; [f] is the name of the original. *)
Definition skin_record (f data : bytes) : bytes :=
  hex (md5_digest data) ++ PIPE :: f ++ [NUL].

Definition skin_node (f : bytes) (m : node) : node :=
  match m with
  | NFile data => NFile (skin_record f data)
  | m => m
  end.

(** The entries [rel] that satisfy [P] are mirrored from [fp] (named [f]) to
    [sp], and nothing else changes. *)
Definition skinned_on (P : path → Prop) (fs fs' : fsmap) (f : bytes)
    (fp sp : path) : Prop :=
  (∀ rel, P rel →
    fs' !! (rel ++ sp) = skin_node (path_append f rel) <$> fs !! (rel ++ fp)) ∧
  (∀ q, (∀ rel, P rel → is_Some (fs !! (rel ++ fp)) → q ≠ rel ++ sp) →
    fs' !! q = fs !! q).

Lemma skinned_on_src P fs fs' f fp sp r :
  apart fp sp → skinned_on P fs fs' f fp sp →
  fs' !! (r ++ fp) = fs !! (r ++ fp).
Proof. intros Ha [_ Hk]. apply Hk. intros rel _ _. apply Ha. Qed.

Lemma skinned_on_ext (P Q : path → Prop) fs fs' f fp sp :
  (∀ rel, P rel ↔ Q rel) →
  skinned_on P fs fs' f fp sp → skinned_on Q fs fs' f fp sp.
Proof.
  intros HPQ [H1 H2]. split.
  - intros rel HQ. by apply H1, HPQ.
  - intros q Hq. apply H2. intros rel HP. by apply Hq, HPQ.
Qed.

Lemma skinned_on_compose (P Q : path → Prop) fs fs1 fs2 f fp sp :
  apart fp sp → (∀ rel, P rel → Q rel → False) →
  skinned_on P fs fs1 f fp sp → skinned_on Q fs1 fs2 f fp sp →
  skinned_on (λ rel, P rel ∨ Q rel) fs fs2 f fp sp.
Proof.
  intros Ha Hd HP HQ. pose proof HP as [HP1 HP2]. pose proof HQ as [HQ1 HQ2].
  split.
  - intros rel [Hrel|Hrel].
    + rewrite HQ2; [by apply HP1|]. intros rel' HQ' _ E.
      apply (inj (λ r, r ++ sp)) in E as ->. eauto.
    + rewrite HQ1 by done. by rewrite (skinned_on_src P fs fs1 f fp sp).
  - intros q Hq. rewrite HQ2.
    + apply HP2. intros; apply Hq; auto.
    + intros rel HQ'. rewrite (skinned_on_src P fs fs1 f fp sp) by done.
      intros; apply Hq; auto.
Qed.

(** A mirrored subdirectory is part of the mirror of its parent. *)
Lemma skinned_on_child (P : path → Prop) fs fs' f fp sp n :
  skinned_on P fs fs' (f ++ SLASH :: n) (n :: fp) (n :: sp) →
  skinned_on (λ rel, ∃ r, rel = r ++ [n] ∧ P r) fs fs' f fp sp.
Proof.
  intros [H1 H2]. split.
  - intros rel (r & -> & Hr). rewrite <- !(assoc_L (++)). simpl.
    rewrite path_append_app. simpl. by apply H1.
  - intros q Hq. apply H2. intros rel Hrel. specialize (Hq (rel ++ [n])).
    rewrite <- !(assoc_L (++)) in Hq. simpl in Hq. eauto.
Qed.

(** ** One file *)

Lemma skinning_file_run w f s fp n sp data :
  resolve (w_fs w) (w_cwd w) f = Some fp →
  w_fs w !! fp = Some (NFile data) →
  resolve (w_fs w) (w_cwd w) s = Some (n :: sp) →
  w_fs w !! sp = Some NDir → w_fs w !! (n :: sp) = None →
  (33 + zlen f < BUFMAX)%Z →
  skinning_file f s w =
    (Done tt, with_fs w (<[n :: sp := NFile (skin_record f data)]> (w_fs w))).
Proof.
  intros Hf Hfp Hs Hsp Hn Hlen. unfold skinning_file.
  crun (md5_run _ _ _ _ Hf Hfp). crun write_file_run. cbn [negb].
  assert (zlen (hex (md5_digest data) ++ PIPE :: f) < BUFMAX)%Z as Hbuf.
  { rewrite zlen_app, zlen_cons, hex_digest_zlen. lia. }
  crun (store_run _ _ (with_fs w (<[n :: sp := NFile []]> (w_fs w))) Hbuf).
  erewrite C_bind_step; last first.
  { eapply (write_file_run _ _ (n :: sp)).
    - eapply resolve_mono; [exact Hs|]. intros q Hq. simpl.
      rewrite lookup_insert_ne; [done|]. intros <-. congruence.
    - done.
    - simpl. rewrite lookup_insert_ne; [done|].
      intros E. apply (f_equal length) in E. simpl in E. lia.
    - right. exists []. simpl. apply lookup_insert_eq. }
  unfold mret, C_ret, with_fs, skin_record. simpl.
  by rewrite insert_insert_eq, <- (assoc_L (++)).
Qed.

(** ** Directories *)

(** The precondition of mirroring the entries that satisfy [P]: the two
    directories are named by [f] and [s], the places to fill are free, no
    dangling link is met, every name fits its buffer and every directory lies
    less than [fuel] levels deep. *)
Record skin_pre (P : path → Prop) (fuel : nat) (w : world) (f s : bytes)
    (fp sp : path) : Prop := {
  sk_wf : fs_wf (w_fs w);
  sk_apart : apart fp sp;
  sk_f : resolve (w_fs w) (w_cwd w) f = Some fp;
  sk_s : resolve (w_fs w) (w_cwd w) s = Some sp;
  sk_fdir : w_fs w !! fp = Some NDir;
  sk_sdir : w_fs w !! sp = Some NDir;
  sk_free rel : P rel → w_fs w !! (rel ++ sp) = None;
  sk_link rel : P rel → w_fs w !! (rel ++ fp) ≠ Some NDangling;
  sk_len rel : P rel → is_Some (w_fs w !! (rel ++ fp)) →
    (33 + zlen (path_append f rel) < BUFMAX)%Z ∧
    (zlen (path_append s rel) < BUFMAX)%Z;
  sk_depth rel : P rel → w_fs w !! (rel ++ fp) = Some NDir → length rel < fuel;
}.

Definition below (rel : path) : Prop := rel ≠ [] ∧ visible rel.
Definition below_names (l : list name) (rel : path) : Prop :=
  ∃ r n, rel = r ++ [n] ∧ n ∈ l ∧ visible r.

Lemma skinned_on_keep P fs fs' f fp sp q m :
  skinned_on P fs fs' f fp sp → (∀ rel, P rel → fs !! (rel ++ sp) = None) →
  fs !! q = Some m → fs' !! q = Some m.
Proof.
  intros [_ H2] Hfree Hq. rewrite H2; [done|].
  intros rel HP _ ->. by rewrite Hfree in Hq.
Qed.

Lemma skin_pre_sub (P Q : path → Prop) fuel w f s fp sp :
  (∀ rel, Q rel → P rel) →
  skin_pre P fuel w f s fp sp → skin_pre Q fuel w f s fp sp.
Proof. intros HPQ []. constructor; eauto. Qed.

(** Mirroring some entries leaves the precondition for the others. *)
Lemma skin_pre_step (P Q : path → Prop) fuel w f s fp sp fs' :
  (∀ rel, P rel → Q rel → False) →
  skin_pre P fuel w f s fp sp → skin_pre Q fuel w f s fp sp →
  skinned_on P (w_fs w) fs' f fp sp → fs_wf fs' →
  skin_pre Q fuel (with_fs w fs') f s fp sp.
Proof.
  intros Hd HP HQ Hsk Hwf.
  assert (∀ q m, w_fs w !! q = Some m → fs' !! q = Some m) as Hkeep
    by eauto using skinned_on_keep, sk_free.
  assert (∀ r, fs' !! (r ++ fp) = w_fs w !! (r ++ fp)) as Hsrc
    by (intros; eapply skinned_on_src; eauto using sk_apart).
  destruct HQ. constructor; simpl; eauto using resolve_mono;
    try (intros rel; rewrite Hsrc; eauto).
  intros rel HQ'. destruct Hsk as [_ ->]; [eauto|].
  intros rel' HP' _ E. apply (inj (λ r, r ++ sp)) in E as ->. eauto.
Qed.

Lemma skin_pre_child fuel w f s fp sp n :
  skin_pre (below_names [n]) (S fuel) w f s fp sp →
  w_fs w !! (n :: fp) = Some NDir →
  0 < fuel ∧
  skin_pre below fuel (with_fs w (<[n :: sp := NDir]> (w_fs w)))
    (f ++ SLASH :: n) (s ++ SLASH :: n) (n :: fp) (n :: sp).
Proof.
  intros Hpre Hn. pose proof Hpre as [Hwf Ha Hf Hs Hfd Hsd Hfree Hlink Hlen Hdep].
  assert (∀ r, visible r → below_names [n] (r ++ [n])) as Hin
    by (intros r Hr; exists r, n; set_solver).
  assert (w_fs w !! (n :: sp) = None) as Hfn
    by apply (Hfree [n]), (Hin []), Forall_nil_2.
  assert (valid_name n) as Hv by eauto with prof.
  assert (∀ q m, w_fs w !! q = Some m → <[n :: sp := NDir]> (w_fs w) !! q = Some m)
    as Hkeep.
  { intros q m Hq. rewrite lookup_insert_ne; [done|]. congruence. }
  assert (∀ r, <[n :: sp := NDir]> (w_fs w) !! (r ++ n :: fp) =
               w_fs w !! (r ++ n :: fp)) as Hsrc.
  { intros r. rewrite lookup_insert_ne; [done|]. intros E.
    apply (Ha (r ++ [n]) [n]). by rewrite <- (assoc_L (++)). }
  destruct (Hlen [n]) as [Hl1 Hl2]; [by apply (Hin []), Forall_nil_2|by eauto|].
  cbn [path_append] in Hl1, Hl2. unfold BUFMAX in *.
  split.
  { apply Nat.succ_lt_mono. apply (Hdep [n]); [|done].
    by apply (Hin []), Forall_nil_2. }
  constructor; simpl.
  - apply fs_wf_insert; auto.
  - by apply apart_child.
  - eapply (resolve_mono (w_fs w)); [|by eauto].
    apply resolve_child; auto; unfold PATH_MAX; lia.
  - eapply (resolve_mono (w_fs w)); [|by eauto].
    apply resolve_child; auto; unfold PATH_MAX; lia.
  - by apply Hkeep.
  - apply lookup_insert_eq.
  - intros rel [Hne Hvis]. rewrite lookup_insert_ne.
    + specialize (Hfree (rel ++ [n]) (Hin _ Hvis)).
      by rewrite <- (assoc_L (++)) in Hfree.
    + intros E. apply Hne, length_zero_iff_nil.
      apply (f_equal length) in E. rewrite length_app in E. simpl in E. lia.
  - intros rel [_ Hvis]. rewrite Hsrc. specialize (Hlink (rel ++ [n]) (Hin _ Hvis)).
    by rewrite <- (assoc_L (++)) in Hlink.
  - intros rel [_ Hvis]. rewrite Hsrc. specialize (Hlen (rel ++ [n]) (Hin _ Hvis)).
    rewrite <- (assoc_L (++)), !path_append_app in Hlen. exact Hlen.
  - intros rel [_ Hvis]. rewrite Hsrc. specialize (Hdep (rel ++ [n]) (Hin _ Hvis)).
    rewrite <- (assoc_L (++)), length_app in Hdep. simpl in Hdep.
    intros Hd. specialize (Hdep Hd). lia.
Qed.

(** What a call on a directory does. *)
Definition skin_post (P : path → Prop) (w : world) (f : bytes) (fp sp : path)
    (r : outcome unit * world) : Prop :=
  ∃ fs', r = (Done tt, with_fs w fs') ∧
    skinned_on P (w_fs w) fs' f fp sp ∧ fs_wf fs'.

Lemma below_names_single n rel :
  below_names [n] rel ↔ rel = [n] ∨ ∃ r, rel = r ++ [n] ∧ below r.
Proof.
  unfold below_names, below. split.
  - intros (r & n' & -> & ->%list_elem_of_singleton & Hr).
    destruct (decide (r = [])) as [->|]; [by left|right]. eauto.
  - intros [->|(r & -> & _ & Hr)].
    + exists [], n. split_and!; [done|set_solver|constructor].
    + exists r, n. set_solver.
Qed.

(** One new entry. *)
Lemma skinned_on_insert fs f fp sp n m :
  fs !! (n :: fp) = Some m →
  skinned_on (λ rel, rel = [n]) fs
    (<[n :: sp := skin_node (f ++ SLASH :: n) m]> fs) f fp sp.
Proof.
  intros Hn. split.
  - intros rel ->. simpl. by rewrite lookup_insert_eq, Hn.
  - intros q Hq. apply lookup_insert_ne. intros <-.
    by apply (Hq [n]); [|simpl; eauto|].
Qed.

(** The mirror of a file is one new file. *)
Lemma skinned_file fs f fp sp n data :
  fs_wf fs → fs !! (n :: fp) = Some (NFile data) →
  (∀ rel, below_names [n] rel → fs !! (rel ++ sp) = None) →
  skinned_on (below_names [n]) fs
    (<[n :: sp := NFile (skin_record (f ++ SLASH :: n) data)]> fs) f fp sp.
Proof.
  intros Hwf Hn Hfree.
  destruct (skinned_on_insert fs f fp sp n _ Hn) as [H1 H2]. split.
  - intros rel Hrel. pose proof Hrel as [->|(r & -> & Hr & Hv)]%below_names_single;
      [by apply H1|].
    assert (fs !! ((r ++ [n]) ++ fp) = None) as Hnone.
    { rewrite <- (assoc_L (++)). apply eq_None_not_Some. intros Hs.
      apply fs_wf_ancestor in Hs; simpl in *; congruence. }
    rewrite Hnone. simpl. specialize (H2 ((r ++ [n]) ++ sp)). simpl in H2.
    rewrite H2; [by apply Hfree|]. intros rel -> _ E.
    rewrite <- (assoc_L (++)) in E. apply (f_equal length) in E.
    rewrite length_app in E. simpl in E. destruct r; simpl in *; [done|lia].
  - intros q Hq. apply H2. intros rel -> ?. apply Hq; [|done].
    apply below_names_single; auto.
Qed.

(** That of a directory is a new directory and the mirror of what is below. *)
Lemma skinned_dir fs fs' f fp sp n :
  apart fp sp → fs !! (n :: fp) = Some NDir →
  skinned_on below (<[n :: sp := NDir]> fs) fs' (f ++ SLASH :: n)
    (n :: fp) (n :: sp) →
  skinned_on (below_names [n]) fs fs' f fp sp.
Proof.
  intros Ha Hn Hsk.
  eapply skinned_on_ext; [intros; symmetry; apply below_names_single|].
  apply (skinned_on_compose _ _ fs (<[n :: sp := NDir]> fs)); [done| | |].
  - intros rel -> (r & E & Hr & _). apply (f_equal length) in E.
    rewrite length_app in E. simpl in E. destruct r; simpl in *; [done|lia].
  - apply (skinned_on_insert fs f fp sp n NDir Hn).
  - by apply skinned_on_child.
Qed.

(** A single entry: the body of the loop. *)
Lemma skinning_entry_run (rec : bytes → bytes → C unit) fuel w f s fp sp n st :
  (∀ w f s fp sp, 0 < fuel → skin_pre below fuel w f s fp sp →
    skin_post below w f fp sp (rec f s w)) →
  is_Some (w_fs w !! (n :: fp)) →
  skin_pre (below_names [n]) (S fuel) w f s fp sp →
  ∃ fs' st', (∀ l, skinning_entries rec f s st (n :: l) w =
      skinning_entries rec f s st' l (with_fs w fs')) ∧
    skinned_on (below_names [n]) (w_fs w) fs' f fp sp ∧ fs_wf fs'.
Proof.
  intros Hrec [m Hm] Hpre.
  pose proof Hpre as [Hwf Ha Hf Hs Hfd Hsd Hfree Hlink Hlen _].
  assert (below_names [n] [n]) as Hin by (apply below_names_single; auto).
  assert (valid_name n) as Hv by eauto with prof.
  destruct (Hlen [n] Hin ltac:(eauto)) as [Hl1 Hl2].
  cbn [path_append app] in Hl1, Hl2. unfold BUFMAX in *.
  assert (m ≠ NDangling) as Hml by (intros ->; by apply (Hlink [n])).
  assert (resolve (w_fs w) (w_cwd w) (f ++ SLASH :: n) = Some (n :: fp)) as Hf'
    by (apply resolve_child; auto; unfold PATH_MAX; lia).
  assert (resolve (w_fs w) (w_cwd w) (s ++ SLASH :: n) = Some (n :: sp)) as Hs'
    by (apply resolve_child; auto; unfold PATH_MAX; lia).
  pose proof (Hfree [n] Hin) as Hfn. cbn [app] in Hfn.
  assert (∃ fs', (if bool_decide (m = NDir)
     then mkdir (s ++ SLASH :: n);; rec (f ++ SLASH :: n) (s ++ SLASH :: n)
     else skinning_file (f ++ SLASH :: n) (s ++ SLASH :: n)) w =
       (Done tt, with_fs w fs') ∧
     skinned_on (below_names [n]) (w_fs w) fs' f fp sp ∧ fs_wf fs')
    as (fs' & Hrun & Hsk & Hwf').
  { destruct m as [data| |]; [| |done].
    - eexists. split; [by eapply skinning_file_run; eauto; unfold BUFMAX; lia|].
      split; [by apply skinned_file|]. apply fs_wf_insert; auto.
    - destruct (skin_pre_child _ _ _ _ _ _ _ Hpre Hm) as [Hfuel Hpre'].
      destruct (Hrec _ _ _ _ _ Hfuel Hpre') as (fs' & Hr & Hsk & Hwf').
      exists fs'. rewrite bool_decide_true by done. split; [|split; [|done]].
      + crun mkdir_run. unfold mkdir_fs. rewrite Hsd, Hfn, Hr. done.
      + by apply skinned_dir. }
  exists fs', (Some (node_mode m)). split; [|done]. intros l.
  cbn [skinning_entries].
  do 2 crun_store. crun stat_run.
  rewrite (C_bind_step _ _ _ _ _ (S_ISDIR_run m w)).
  by rewrite (C_bind_step _ _ _ _ _ Hrun).
Qed.

Lemma below_names_cons n l rel :
  below_names (n :: l) rel ↔ below_names [n] rel ∨ below_names l rel.
Proof. unfold below_names. set_solver. Qed.

Lemma below_names_disjoint n l rel :
  n ∉ l → below_names [n] rel → below_names l rel → False.
Proof.
  intros Hn (r & n' & -> & ->%list_elem_of_singleton & _) (r' & n'' & E & Hin & _).
  apply app_inj_2 in E as [_ E]; [|done]. by simplify_eq.
Qed.

Lemma skinning_entries_run (rec : bytes → bytes → C unit) fuel f s fp sp l :
  (∀ w f s fp sp, 0 < fuel → skin_pre below fuel w f s fp sp →
    skin_post below w f fp sp (rec f s w)) →
  ∀ w st, NoDup l → (∀ n, n ∈ l → is_Some (w_fs w !! (n :: fp))) →
  skin_pre (below_names l) (S fuel) w f s fp sp →
  skin_post (below_names l) w f fp sp (skinning_entries rec f s st l w).
Proof.
  intros Hrec. induction l as [|n l IH]; intros w st Hnd Hl Hpre.
  { exists (w_fs w). rewrite with_fs_id. split; [done|split; [|apply Hpre]].
    split; [|done]. by intros rel (? & ? & _ & ?%not_elem_of_nil & _). }
  apply NoDup_cons in Hnd as [Hn Hnd].
  assert (skin_pre (below_names [n]) (S fuel) w f s fp sp) as Hpre1.
  { eapply skin_pre_sub; [|exact Hpre]. intros. apply below_names_cons; auto. }
  assert (skin_pre (below_names l) (S fuel) w f s fp sp) as Hpre2.
  { eapply skin_pre_sub; [|exact Hpre]. intros. apply below_names_cons; auto. }
  destruct (skinning_entry_run rec fuel w f s fp sp n st) as
    (fs1 & st' & Hrun & Hsk1 & Hwf1); [done|apply Hl; set_solver|done|].
  assert (∀ rel, below_names [n] rel → below_names l rel → False) as Hd
    by eauto using below_names_disjoint.
  destruct (IH (with_fs w fs1) st') as (fs2 & Hrun2 & Hsk2 & Hwf2).
  { done. }
  { intros n' Hn'.
    pose proof (skinned_on_src _ _ _ _ _ _ [n'] (sk_apart _ _ _ _ _ _ _ Hpre) Hsk1)
      as E. simpl in *. rewrite E. apply Hl. set_solver. }
  { by eapply skin_pre_step. }
  exists fs2. rewrite Hrun, Hrun2. split; [done|split; [|done]].
  eapply skinned_on_ext; [intros; symmetry; apply below_names_cons|].
  eapply skinned_on_compose; eauto using sk_apart.
Qed.

Lemma skinning_dir_post fuel w f s fp sp :
  0 < fuel → skin_pre below fuel w f s fp sp →
  skin_post below w f fp sp (skinning_dir fuel f s w).
Proof.
  revert w f s fp sp; induction fuel as [|fuel IH]; intros w f s fp sp Hfuel Hpre;
    [lia|].
  destruct (scandir_run w f fp (sk_f _ _ _ _ _ _ _ Hpre) scandir_filter)
    as (l & Hscan & Hsorted & Hl); [apply Hpre|apply Hpre|done|done|].
  assert (∀ rel, below_names l rel → below rel) as Hsub.
  { intros rel (r & n & -> & [_ Hn]%Hl & Hr). split; [by destruct r|].
    apply Forall_app. split; [done|]. by repeat constructor. }
  cbn [skinning_dir]. rewrite (C_bind_step _ _ _ _ _ Hscan).
  destruct (skinning_entries_run (skinning_dir fuel) fuel f s fp sp l IH w None)
    as (fs' & Hrun & [Hsk1 Hsk2] & Hwf').
  { clear -Hsorted. induction Hsorted as [|n l _ IH Hn]; constructor; [|done].
    intros Hin. rewrite Forall_forall in Hn. by apply (bytes_lt_irrefl n), Hn. }
  { naive_solver. }
  { eapply skin_pre_sub; [exact Hsub|]. done. }
  exists fs'. split; [done|split; [|done]].
  assert (∀ rel, below rel → is_Some (w_fs w !! (rel ++ fp)) → below_names l rel)
    as Hall.
  { intros rel [Hne Hv] Hs. destruct rel as [|n r _] using rev_ind; [done|].
    apply Forall_app in Hv as [Hr [Hn _]%Forall_cons].
    exists r, n. split_and!; [done|apply Hl; split; [|done]|done].
    rewrite <- (assoc_L (++)) in Hs. simpl in Hs.
    destruct r as [|m r]; [done|].
    rewrite (fs_wf_ancestor _ (m :: r) (n :: fp) (sk_wf _ _ _ _ _ _ _ Hpre)); eauto. }
  split.
  - intros rel Hrel. destruct (w_fs w !! (rel ++ fp)) eqn:E.
    + rewrite Hsk1, E; [done|]. apply Hall; eauto.
    + simpl. rewrite Hsk2; [by eapply sk_free|]. intros rel' Hrel' Hs E'.
      apply (inj (λ r, r ++ sp)) in E' as ->. rewrite E in Hs. by destruct Hs.
  - intros q Hq. apply Hsk2. eauto.
Qed.

(** ** [main] *)

(** The [strstr] test finds every skin directory inside the source tree. *)
Lemma strstr_nested n d r :
  is_Some (find_sub (path_str (n :: d)) (path_str (r ++ n :: d))).
Proof.
  destruct (find_sub _ _) as [i|] eqn:E; [eauto|].
  destruct (path_append_prefix (path_append [] (n :: d)) r) as [k Hk].
  exfalso. eapply (find_sub_None _ _ E [] k). simpl app.
  destruct r as [|m r]; [exact Hk|].
  unfold path_str at 1. cbn [app]. change (m :: r ++ n :: d) with ((m :: r) ++ n :: d).
  by rewrite path_append_app.
Qed.

(** The mirror directory, next to the source or not, has no entry in common
    with it unless the source lies in it. *)
Lemma apart_target fs n d sp :
  fs_wf fs → is_Some (fs !! (n :: d)) →
  fs !! ((n ++ B "__skin") :: sp) = None →
  (∀ r, sp ≠ r ++ n :: d) → apart (n :: d) ((n ++ B "__skin") :: sp).
Proof.
  intros Hwf Hfp Hnone Hnest r r' E.
  assert (n ≠ n ++ B "__skin") as Hn.
  { intros Hn. apply (f_equal length) in Hn. rewrite length_app in Hn.
    simpl in Hn. lia. }
  apply app_eq_inv in E as [(k & -> & E)|(k & -> & E)].
  - destruct k as [|x k]; simplify_eq/=. by apply (Hnest k).
  - destruct k as [|x k]; [simplify_eq/=; done|].
    rewrite E in Hfp. apply fs_wf_ancestor in Hfp; [congruence|done|done].
Qed.

Lemma filename_canon n d :
  valid_name n →
  ∃ i, rfind_byte SLASH (path_str (n :: d)) = Some i ∧
       drop (S i) (path_str (n :: d)) = n.
Proof.
  intros Hn. exists (length (path_append [] d)). cbn [path_str path_append].
  split; [apply rfind_byte_app, Hn|].
  rewrite drop_app_ge by lia.
  by replace (S _ - _) with 1 by lia.
Qed.

(** The precondition of mirroring into the new directory [main] makes. *)
Lemma skin_pre_main w n d sp out :
  let s := path_str sp ++ SLASH :: n ++ B "__skin" in
  let tp := (n ++ B "__skin") :: sp in
  fs_wf (w_fs w) → w_fs w !! (n :: d) = Some NDir → w_fs w !! sp = Some NDir →
  w_fs w !! tp = None → (∀ r, sp ≠ r ++ n :: d) →
  (∀ rel, visible rel → w_fs w !! (rel ++ n :: d) ≠ Some NDangling) →
  (∀ rel, visible rel → is_Some (w_fs w !! (rel ++ n :: d)) →
    (33 + zlen (path_append (path_str (n :: d)) rel) < BUFMAX)%Z ∧
    (zlen (path_append s rel) < BUFMAX)%Z) →
  skin_pre below (S (fs_height (w_fs w)))
    (World (<[tp := NDir]> (w_fs w)) (w_cwd w) out (w_err w))
    (path_str (n :: d)) s (n :: d) tp.
Proof.
  intros s tp Hwf Hfp Hsp Htp Hnest Hlink Hlen.
  assert (valid_name n) as Hn by eauto with prof.
  assert (apart (n :: d) tp) as Ha by (eapply apart_target; eauto).
  assert (∀ r, <[tp := NDir]> (w_fs w) !! (r ++ n :: d) = w_fs w !! (r ++ n :: d))
    as Hsrc.
  { intros r. apply lookup_insert_ne. intros E. by apply (Ha r []). }
  assert (∀ q, w_fs w !! q = Some NDir → <[tp := NDir]> (w_fs w) !! q = Some NDir)
    as Hmono.
  { intros q Hq. rewrite lookup_insert_ne; [done|]. congruence. }
  destruct (Hlen [] (Forall_nil_2 _) ltac:(eauto)) as [Hl1 Hl2].
  cbn [path_append] in Hl1, Hl2.
  assert (zlen (path_str sp) < PATH_MAX)%Z as Hl3.
  { unfold s in Hl2. unfold BUFMAX, PATH_MAX in *. zlen_lia. }
  constructor; cbn [w_fs w_cwd]; auto.
  - apply fs_wf_insert; auto using valid_name_ending.
  - eapply resolve_mono; [|exact Hmono]. apply resolve_canon; eauto.
    unfold PATH_MAX, BUFMAX in *. lia.
  - eapply resolve_mono; [|exact Hmono]. apply resolve_child; auto.
    + apply resolve_canon; eauto.
    + by apply valid_name_ending.
  - apply lookup_insert_eq.
  - intros rel [Hne _]. rewrite lookup_insert_ne.
    + apply eq_None_not_Some. intros Hs. apply fs_wf_ancestor in Hs; try done.
      congruence.
    + intros E. apply Hne, length_zero_iff_nil.
      apply (f_equal length) in E. rewrite length_app in E. lia.
  - intros rel [_ Hv]. rewrite Hsrc. by apply Hlink.
  - intros rel [_ Hv]. rewrite Hsrc. by apply Hlen.
  - intros rel [_ _]. rewrite Hsrc. intros Hd.
    pose proof (fs_height_spec (w_fs w) (rel ++ n :: d) ltac:(eauto)) as Hh.
    rewrite length_app in Hh. simpl in Hh. lia.
Qed.

Lemma skin_main_canon fuel argv0 rest w fp sp :
  fs_wf (w_fs w) → w_fs w !! fp = Some NDir → w_fs w !! sp = Some NDir →
  (zlen (path_str fp) < BUFMAX)%Z → (zlen (path_str sp) < BUFMAX)%Z →
  main fuel (argv0 :: path_str fp :: path_str sp :: rest) w =
  main_checked fuel (path_str fp) (path_str sp) w.
Proof.
  intros Hwf Hfp Hsp Hlf Hls.
  assert (resolve (w_fs w) (w_cwd w) (path_str fp) = Some fp) as Hf
    by (apply resolve_canon; eauto).
  assert (resolve (w_fs w) (w_cwd w) (path_str sp) = Some sp) as Hs
    by (apply resolve_canon; eauto).
  unfold main. crun access_run. crun access_run. cbn [negb orb].
  crun stat_run. crun stat_run.
  do 2 rewrite (C_bind_step _ _ _ _ _ (S_ISDIR_run NDir w)).
  rewrite bool_decide_true by done. cbn [negb orb].
  by crun abspath_canon; crun abspath_canon.
Qed.

(** [main_checked] up to its call of [skinning_dir]. *)
Lemma skin_main_checked_run fuel w n d sp fs' :
  let s := path_str sp ++ SLASH :: n ++ B "__skin" in
  let tp := (n ++ B "__skin") :: sp in
  let out := (w_out w ++ path_str (n :: d) ++ B " | " ++ path_str sp ++ [NEWLINE])
    ++ s ++ [NEWLINE] in
  fs_wf (w_fs w) → valid_name n → w_fs w !! sp = Some NDir → w_fs w !! tp = None →
  find_sub (path_str (n :: d)) (path_str sp) = None → (zlen s < BUFMAX)%Z →
  skinning_dir fuel (path_str (n :: d)) s
    (World (<[tp := NDir]> (w_fs w)) (w_cwd w) out (w_err w)) =
    (Done tt, World fs' (w_cwd w) out (w_err w)) →
  main_checked fuel (path_str (n :: d)) (path_str sp) w =
    (Stopped (Exit 0), World fs' (w_cwd w) out (w_err w)).
Proof.
  intros s tp out Hwf Hn Hsp Htp Hstr Hl Hrun.
  destruct (filename_canon n d Hn) as (i & Hi & Hdrop).
  assert (resolve (w_fs w) (w_cwd w) s = Some tp) as Hres.
  { apply resolve_child; auto using valid_name_ending.
    apply resolve_canon; [done|eauto|]. unfold s in Hl.
    unfold PATH_MAX, BUFMAX in *. zlen_lia. }
  unfold main_checked. erewrite C_bind_step by done.
  rewrite Hstr, Hi, Hdrop. erewrite C_bind_step by (apply store_run, Hl).
  erewrite C_bind_step by done.
  erewrite C_bind_step by (by apply (access_absent _ _ tp)).
  erewrite C_bind_step by done.
  erewrite C_bind_step by (by apply (mkdir_run _ _ tp)).
  cbn [w_fs with_fs w_cwd w_out w_err mkdir_fs]. unfold tp at 1.
  cbn [mkdir_fs]. rewrite Hsp. fold tp. rewrite Htp.
  by erewrite C_bind_step by exact Hrun.
Qed.

(** ** The whole program *)

Lemma main_skins_run w argv0 n d sp :
  let s := path_str sp ++ SLASH :: n ++ B "__skin" in
  let tp := (n ++ B "__skin") :: sp in
  fs_wf (w_fs w) → w_fs w !! (n :: d) = Some NDir → w_fs w !! sp = Some NDir →
  w_fs w !! tp = None →
  find_sub (path_str (n :: d)) (path_str sp) = None →
  (∀ rel, visible rel → w_fs w !! (rel ++ n :: d) ≠ Some NDangling) →
  (∀ rel, visible rel → is_Some (w_fs w !! (rel ++ n :: d)) →
    (33 + zlen (path_append (path_str (n :: d)) rel) < BUFMAX)%Z ∧
    (zlen (path_append s rel) < BUFMAX)%Z) →
  ∃ w', main (S (fs_height (w_fs w))) [argv0; path_str (n :: d); path_str sp] w =
      (Stopped (Exit 0), w') ∧
    fs_wf (w_fs w') ∧ w_err w' = w_err w ∧
    w_out w' = w_out w ++ path_str (n :: d) ++ B " | " ++ path_str sp ++
      NEWLINE :: s ++ [NEWLINE] ∧
    w_fs w' !! tp = Some NDir ∧
    (∀ rel, rel ≠ [] → visible rel → w_fs w' !! (rel ++ tp) =
      skin_node (path_append (path_str (n :: d)) rel) <$> w_fs w !! (rel ++ n :: d)) ∧
    (∀ q, (∀ rel, visible rel → q ≠ rel ++ tp) → w_fs w' !! q = w_fs w !! q).
Proof.
  intros s tp Hwf Hfp Hsp Htp Hstr Hlink Hlen.
  assert (∀ r, sp ≠ r ++ n :: d) as Hnest.
  { intros r ->. destruct (strstr_nested n d r) as [i Hi]. congruence. }
  assert (valid_name n) as Hn by eauto with prof.
  destruct (Hlen [] (Forall_nil_2 _) ltac:(eauto)) as [Hl1 Hl2].
  cbn [path_append] in Hl1, Hl2.
  set (out := (w_out w ++ path_str (n :: d) ++ B " | " ++ path_str sp ++ [NEWLINE])
    ++ s ++ [NEWLINE]).
  destruct (skinning_dir_post (S (fs_height (w_fs w)))
    (World (<[tp := NDir]> (w_fs w)) (w_cwd w) out (w_err w))
    (path_str (n :: d)) s (n :: d) tp) as (fs' & Hrun & [H1 H2] & Hwf');
    [lia|by apply skin_pre_main|].
  assert (zlen (path_str sp) < BUFMAX)%Z as Hl3 by (unfold s in Hl2; zlen_lia).
  assert (main (S (fs_height (w_fs w))) [argv0; path_str (n :: d); path_str sp] w =
    (Stopped (Exit 0), World fs' (w_cwd w) out (w_err w))) as Hmain.
  { rewrite skin_main_canon; auto; [|unfold BUFMAX in *; lia].
    by apply skin_main_checked_run. }
  eexists. split; [exact Hmain|]. cbn [w_fs w_err w_out] in *.
  assert (apart (n :: d) tp) as Ha by (apply (apart_target (w_fs w)); eauto).
  split_and!; [done|done| | | |].
  - unfold out. by rewrite <- !(assoc_L (++)).
  - rewrite H2; [apply lookup_insert_eq|]. intros rel [Hne _] _ E.
    apply Hne, length_zero_iff_nil. apply (f_equal length) in E.
    rewrite length_app in E. lia.
  - intros rel Hne Hv. rewrite H1 by done.
    rewrite lookup_insert_ne; [done|]. intros E. by apply (Ha rel []).
  - intros q Hq. rewrite H2.
    + apply lookup_insert_ne. intros <-. by apply (Hq []); [constructor|].
    + intros rel [_ Hv] _. by apply Hq.
Qed.

(** ** Properties *)

(** C3: [skinning_dir] mirrors the source tree.  If the source directory and
    an empty skin directory have no entry in common, no dangling link is
    reachable and all names fit the buffers of the code, the call returns, and
    afterwards the entry of the skin tree at every visible relative path [rel]
    is the mirror of the entry of the source tree at [rel] (directories for
    directories, and for a file with content [data] the file holding
    [md5(data)|path NUL]), and no other entry of the file system has changed.
    The recursion depth is bounded by the height of the file system. *)
Theorem skinning_dir_mirrors w f s fp sp :
  fs_wf (w_fs w) → apart fp sp →
  resolve (w_fs w) (w_cwd w) f = Some fp →
  resolve (w_fs w) (w_cwd w) s = Some sp →
  w_fs w !! fp = Some NDir → w_fs w !! sp = Some NDir →
  (∀ rel, rel ≠ [] → w_fs w !! (rel ++ sp) = None) →
  (∀ rel, visible rel → w_fs w !! (rel ++ fp) ≠ Some NDangling) →
  (∀ rel, visible rel → is_Some (w_fs w !! (rel ++ fp)) →
    (33 + zlen (path_append f rel) < BUFMAX)%Z ∧
    (zlen (path_append s rel) < BUFMAX)%Z) →
  ∃ fs', skinning_dir (S (fs_height (w_fs w))) f s w = (Done tt, with_fs w fs') ∧
    fs_wf fs' ∧
    (∀ rel, rel ≠ [] → visible rel →
      fs' !! (rel ++ sp) = skin_node (path_append f rel) <$> w_fs w !! (rel ++ fp)) ∧
    (∀ q, (∀ rel, rel ≠ [] → visible rel → q ≠ rel ++ sp) →
      fs' !! q = w_fs w !! q).
Proof.
  intros Hwf Ha Hf Hs Hfd Hsd Hfree Hlink Hlen.
  destruct (skinning_dir_post (S (fs_height (w_fs w))) w f s fp sp)
    as (fs' & Hrun & [H1 H2] & Hwf'); [lia| |].
  { constructor; auto.
    - intros rel [Hne _]. by apply Hfree.
    - intros rel [_ Hv]. by apply Hlink.
    - intros rel [_ Hv]. by apply Hlen.
    - intros rel _ Hd.
      pose proof (fs_height_spec (w_fs w) (rel ++ fp) ltac:(eauto)) as Hh.
      rewrite length_app in Hh. lia. }
  exists fs'. split_and!; [done..| |].
  - intros rel Hne Hv. by apply H1.
  - intros q Hq. apply H2. intros rel [Hne Hv] _. by apply Hq.
Qed.

(** C2: the whole program.  Run on the canonical names of two directories,
    the second not inside the first and without an entry [<name>__skin], [skin]
    ends with status 0; [<skin dir>/<name>__skin] is then a directory that
    mirrors the source tree, every other entry is as before, and standard
    output has the two lines the code prints. *)
Theorem main_skins w argv0 n d sp :
  let s := path_str sp ++ SLASH :: n ++ B "__skin" in
  let tp := (n ++ B "__skin") :: sp in
  fs_wf (w_fs w) → w_fs w !! (n :: d) = Some NDir → w_fs w !! sp = Some NDir →
  w_fs w !! tp = None →
  find_sub (path_str (n :: d)) (path_str sp) = None →
  (∀ rel, visible rel → w_fs w !! (rel ++ n :: d) ≠ Some NDangling) →
  (∀ rel, visible rel → is_Some (w_fs w !! (rel ++ n :: d)) →
    (33 + zlen (path_append (path_str (n :: d)) rel) < BUFMAX)%Z ∧
    (zlen (path_append s rel) < BUFMAX)%Z) →
  ∃ w', main (S (fs_height (w_fs w))) [argv0; path_str (n :: d); path_str sp] w =
      (Stopped (Exit 0), w') ∧
    fs_wf (w_fs w') ∧ w_err w' = w_err w ∧
    w_out w' = w_out w ++ path_str (n :: d) ++ B " | " ++ path_str sp ++
      NEWLINE :: s ++ [NEWLINE] ∧
    w_fs w' !! tp = Some NDir ∧
    (∀ rel, rel ≠ [] → visible rel → w_fs w' !! (rel ++ tp) =
      skin_node (path_append (path_str (n :: d)) rel) <$> w_fs w !! (rel ++ n :: d)) ∧
    (∀ q, (∀ rel, visible rel → q ≠ rel ++ tp) → w_fs w' !! q = w_fs w !! q).
Proof. apply main_skins_run. Qed.

(** An argument whose name becomes the canonical one: relative to the current directory,
    which [realpath] makes canonical, or absolute and canonical as it is written. *)
Definition plain_arg (w : world) (arg : bytes) (p : path) : Prop :=
  resolve (w_fs w) (w_cwd w) arg = Some p ∧ w_fs w !! p = Some NDir ∧
  (zlen (path_str p) < BUFMAX)%Z ∧ (head arg = Some SLASH → arg = path_str p).

Lemma abspath_plain w arg p : plain_arg w arg p → abspath arg w = (Done (path_str p), w).
Proof.
  intros (Hr & Hp & Hl & Habs). destruct arg as [|c arg]; [done|].
  destruct (decide (c = SLASH)) as [->|Hc].
  - rewrite Habs by done. by apply abspath_canon.
  - assert (abspath (c :: arg) = (r ← realpath (c :: arg);
      match r with Some p => mret p | None => undef "unspecified realpath buffer" end)) as ->.
    { unfold abspath. repeat case_match; done. }
    erewrite C_bind_step; last first.
    { unfold realpath. rewrite (lookup_at_run _ _ _ Hr NDir) by done.
      rewrite (proj2 (Z.ltb_lt _ _)) by (unfold BUFMAX, PATH_MAX in *; lia). done. }
    done.
Qed.

Lemma skin_main_plain fuel argv0 rest w arg1 arg2 fp sp :
  plain_arg w arg1 fp → plain_arg w arg2 sp →
  main fuel (argv0 :: arg1 :: arg2 :: rest) w =
  main_checked fuel (path_str fp) (path_str sp) w.
Proof.
  intros H1 H2. pose proof H1 as (Hf & Hfp & _). pose proof H2 as (Hs & Hsp & _).
  unfold main. crun access_run. crun access_run. cbn [negb orb].
  crun stat_run. crun stat_run.
  do 2 rewrite (C_bind_step _ _ _ _ _ (S_ISDIR_run NDir w)).
  rewrite bool_decide_true by done. cbn [negb orb].
  rewrite (C_bind_step _ _ _ _ _ (abspath_plain _ _ _ H1)).
  by rewrite (C_bind_step _ _ _ _ _ (abspath_plain _ _ _ H2)).
Qed.

(** C9: a skin directory inside the source tree is refused, when each argument is a name
    relative to the current directory or an absolute name in canonical form: the program
    prints its message on standard error and ends with status 1 before it changes any
    file, so the recursion never walks into its own output.  An absolute argument is not
    made canonical, and for one with a dot or a doubled slash the test of the texts can
    miss ([skin_misses_dot]). *)
Theorem main_rejects_nested w fuel argv0 rest arg1 arg2 n d r :
  plain_arg w arg1 (n :: d) → plain_arg w arg2 (r ++ n :: d) →
  main fuel (argv0 :: arg1 :: arg2 :: rest) w =
    (Stopped (Exit 1),
     World (w_fs w) (w_cwd w)
       (w_out w ++ path_str (n :: d) ++ B " | " ++ path_str (r ++ n :: d) ++ [NEWLINE])
       (w_err w ++
        B "<skin directory path> cannot be sub directroy of <directory path>"
        ++ [NEWLINE])).
Proof.
  intros H1 H2. rewrite (skin_main_plain _ _ _ _ _ _ _ _ H1 H2).
  unfold main_checked. erewrite C_bind_step by done.
  destruct (strstr_nested n d r) as [i ->]. by erewrite C_bind_step by done.
Qed.

(** A dangling symbolic link as the first entry [skinning_dir] visits makes
    the program use an indeterminate [struct stat]: [stat] fails, its return
    value is ignored, and [S_ISDIR] reads what nothing has written. *)
Theorem skinning_dir_dangling_first w fuel f s fp n l :
  fs_wf (w_fs w) → resolve (w_fs w) (w_cwd w) f = Some fp →
  w_fs w !! fp = Some NDir → w_fs w !! (n :: fp) = Some NDangling →
  scandir f scandir_filter w = (Done (Some (n :: l)), w) →
  (zlen (f ++ SLASH :: n) < BUFMAX)%Z → (zlen (s ++ SLASH :: n) < BUFMAX)%Z →
  skinning_dir (S fuel) f s w =
    (Stopped (Undef "indeterminate struct stat"), w).
Proof.
  intros Hwf Hf Hfd Hn Hscan Hl1 Hl2. cbn [skinning_dir].
  rewrite (C_bind_step _ _ _ _ _ Hscan). cbn [skinning_entries].
  do 2 crun_store.
  assert (resolve (w_fs w) (w_cwd w) (f ++ SLASH :: n) = Some (n :: fp)) as Hr
    by (apply resolve_child; eauto with prof).
  erewrite C_bind_step; last first.
  { unfold stat, lookup_at. rewrite Hr. simpl. by rewrite Hn. }
  done.
Qed.

End skin.

(** ** A concrete run, with the kernel's MD5 *)

#[local] Existing Instance KMd5.kernel_md5.

Definition ex_fs : fsmap := list_to_map [
  ([], NDir);
  ([B "src"], NDir);
  ([B "Makefile"; B "src"], NFile (B "all:"));
  ([B ".git"; B "src"], NDir);
  ([B "lib"; B "src"], NDir);
  ([B "a.c"; B "lib"; B "src"], NFile (B "int a;"));
  ([B "out"], NDir)].

Definition ex_world (fs : fsmap) : world := World fs [] [] [].

Lemma ex_links (rel : path) : visible rel → ex_fs !! (rel ++ [B "src"]) ≠ Some NDangling.
Proof.
  intros _. destruct (ex_fs !! _) eqn:E; [|done].
  revert E. apply (below_check ex_fs [B "src"] (λ _ m, Some m ≠ Some NDangling)).
  vm_decide.
Qed.

Lemma ex_lengths (s : bytes) :
  map_Forall (λ q (_ : node),
    (33 + zlen (path_append (B "/src") (take (length q - 1) q)) < BUFMAX)%Z ∧
    (zlen (path_append s (take (length q - 1) q)) < BUFMAX)%Z) ex_fs →
  ∀ rel : path, visible rel → is_Some (ex_fs !! (rel ++ [B "src"])) →
    (33 + zlen (path_append (B "/src") rel) < BUFMAX)%Z ∧
    (zlen (path_append s rel) < BUFMAX)%Z.
Proof.
  intros Hc rel _ [m Hm]. revert Hm.
  apply (below_check ex_fs [B "src"] (λ rel _,
    (33 + zlen (path_append (B "/src") rel) < BUFMAX)%Z ∧
    (zlen (path_append s rel) < BUFMAX)%Z)). exact Hc.
Qed.

Lemma skinning_dir_mirrors_witness :
  ∃ fs', skinning_dir (S (fs_height ex_fs)) (B "/src") (B "/out") (ex_world ex_fs) =
      (Done tt, with_fs (ex_world ex_fs) fs') ∧
    fs_wf fs' ∧
    (∀ rel : path, rel ≠ [] → visible rel →
      fs' !! (rel ++ [B "out"]) =
      skin_node (path_append (B "/src") rel) <$> ex_fs !! (rel ++ [B "src"])) ∧
    (∀ q : path, (∀ rel, rel ≠ [] → visible rel → q ≠ rel ++ [B "out"]) →
      fs' !! q = ex_fs !! q).
Proof.
  apply (skinning_dir_mirrors (ex_world ex_fs) (B "/src") (B "/out") [B "src"] [B "out"]).
  - vm_decide.
  - apply apart_siblings. vm_decide.
  - vm_refl.
  - vm_refl.
  - vm_refl.
  - vm_refl.
  - apply empty_check. vm_decide.
  - apply ex_links.
  - apply ex_lengths. vm_decide.
Defined.

Lemma main_skins_witness :
  ∃ w', main (S (fs_height ex_fs)) [B "skin"; B "/src"; B "/out"] (ex_world ex_fs) =
      (Stopped (Exit 0), w') ∧
    w_fs w' !! [B "a.c"; B "lib"; B "src__skin"; B "out"] =
      Some (NFile (skin_record (B "/src/lib/a.c") (B "int a;"))) ∧
    w_fs w' !! [B ".git"; B "src__skin"; B "out"] = None.
Proof.
  destruct (main_skins (ex_world ex_fs) (B "skin") (B "src") [] [B "out"])
    as (w' & Hrun & _ & _ & _ & _ & Hmirror & Hrest).
  - vm_decide.
  - vm_refl.
  - vm_refl.
  - vm_refl.
  - vm_refl.
  - apply ex_links.
  - apply ex_lengths. vm_decide.
  - exists w'. split; [exact Hrun|]. split.
    + etransitivity; [apply (Hmirror [B "a.c"; B "lib"])|vm_refl]; [done|].
      by repeat constructor.
    + rewrite Hrest; [vm_refl|]. intros rel Hv E.
      destruct rel as [|x rel]; [by vm_compute in E|].
      apply Forall_cons in Hv as [Hx _]. cbn [app] in E.
      assert (x = B ".git") as -> by congruence. done.
Defined.

Lemma main_rejects_nested_witness :
  ∃ w', main 5 [B "skin"; B "src/./"; B "/src/lib"] (ex_world ex_fs) =
    (Stopped (Exit 1), w') ∧ w_fs w' = ex_fs.
Proof.
  eexists. split.
  - apply (main_rejects_nested (ex_world ex_fs) 5 (B "skin") [] (B "src/./") (B "/src/lib")
      (B "src") [] [B "lib"]); (split_and!; [vm_refl|vm_refl|vm_refl|]; done).
  - vm_refl.
Defined.

(** The source written as [/./src] is not recognised in [/src/lib]: the skin goes into the
    source tree, and the walk descends into its own output without an end. *)
Example skin_misses_dot :
  (λ r, (r.1, w_fs r.2 !! [B "src__skin"; B "lib"; B "src"]))
    (main 40 [B "skin"; B "/./src"; B "/src/lib"] (ex_world ex_fs)) =
  (Stopped OutOfFuel, Some NDir).
Proof. vm_compute. reflexivity. Qed.

Lemma skinning_dir_dangling_first_witness :
  let fs := <[[B "0link"; B "src"] := NDangling]> ex_fs in
  skinning_dir 3 (B "/src") (B "/out") (ex_world fs) =
    (Stopped (Undef "indeterminate struct stat"), ex_world fs).
Proof.
  apply (skinning_dir_dangling_first
    (ex_world (<[[B "0link"; B "src"] := NDangling]> ex_fs)) 2 (B "/src") (B "/out")
    [B "src"] (B "0link") [B "Makefile"; B "lib"]);
    [vm_decide|vm_refl..].
Defined.

End Skin.
