(* ===== verification/Shell.v ===== *)
(** * The shell interface of [molt] and [ssu_diff]

    [molt.c] creates directories and copies files by handing command lines to
    [system], and [ssu_diff.c] reads the output of [diff] through [popen].  The
    shell and the utilities are not part of the repository: the class [Shell]
    states what the code relies on for the two command lines of [molt], for
    names the shell leaves as they are, and [sh] is an executable shell that
    has these properties. *)
From stdpp Require Import base sorting strings numbers gmap list.
From S2P Require Import Prelude Posix.

(** ** Command-line words *)

(** The bytes that stand for themselves in an unquoted shell word: letters,
    digits and [+ , - . / : @ _]. *)
Definition sh_plain (b : Z) : bool :=
  ((97 <=? b) && (b <=? 122) || (65 <=? b) && (b <=? 90) ||
   (43 <=? b) && (b <=? 58) || (b =? 64) || (b =? 95))%Z.

Definition sh_word (s : bytes) : Prop := Forall (λ b, sh_plain b = true) s.

#[export] Instance sh_word_dec s : Decision (sh_word s).
Proof. unfold sh_word. apply _. Defined.

(** ** What [mkdir -p] does *)
Fixpoint mkdir_p (fs : fsmap) (d : path) : fsmap :=
  match d with
  | [] => fs
  | _ :: d' =>
      match mkdir_p fs d' !! d with
      | None => <[d := NDir]> (mkdir_p fs d')
      | Some _ => mkdir_p fs d'
      end
  end.

(** Every directory on the way to [d], [d] included, exists or can be made. *)
Definition free_way (fs : fsmap) (d : path) : Prop :=
  ∀ q, q `suffix_of` d → fs !! q = None ∨ fs !! q = Some NDir.

Class Shell := {
  (** [system(cmd)], its status ignored. *)
  system_world : bytes → world → world;
  (** What [popen(cmd, "r")] gives to read, in a file system and a working
      directory; [None] when it fails. *)
  popen_output : bytes → fsmap → path → option bytes;
  (** [mkdir -p $(dirname t)] makes the directories above [t]. *)
  system_mkdir_p w n d :
    fs_wf (w_fs w) → Forall valid_name (n :: d) → sh_word (path_str (n :: d)) →
    free_way (w_fs w) d →
    system_world (B "mkdir -p $(dirname " ++ path_str (n :: d) ++ B ")") w =
      with_fs w (mkdir_p (w_fs w) d);
  (** [cp a b] of a file to another name in an existing directory. *)
  system_cp w a data n d :
    fs_wf (w_fs w) → w_fs w !! a = Some (NFile data) → a ≠ n :: d →
    Forall valid_name (n :: d) → sh_word (path_str a) → sh_word (path_str (n :: d)) →
    w_fs w !! d = Some NDir →
    w_fs w !! (n :: d) = None ∨ (∃ old, w_fs w !! (n :: d) = Some (NFile old)) →
    system_world (B "cp " ++ path_str a ++ B " " ++ path_str (n :: d)) w =
      with_fs w (<[n :: d := NFile data]> (w_fs w));
}.

Definition system `{Shell} (cmd : bytes) : C unit := λ w,
  (Done tt, system_world cmd w).

Definition popen `{Shell} (cmd : bytes) : C (option bytes) := λ w,
  (Done (popen_output cmd (w_fs w) (w_cwd w)), w).

(** ** Facts about [mkdir_p] *)

Lemma path_suffix_cons (q d : path) n :
  q `suffix_of` n :: d ↔ q = n :: d ∨ q `suffix_of` d.
Proof.
  split.
  - intros [[|m k] E]; simplify_eq/=; [by left|]. right. by exists k.
  - intros [->|?]; [done|]. by apply suffix_cons_r.
Qed.

Lemma suffix_length_lt (q d : path) n : q `suffix_of` d → q ≠ n :: d.
Proof. intros Hq%suffix_length ->. simpl in Hq. lia. Qed.

Lemma free_way_cons fs n d :
  free_way fs (n :: d) ↔
  (fs !! (n :: d) = None ∨ fs !! (n :: d) = Some NDir) ∧ free_way fs d.
Proof.
  unfold free_way. setoid_rewrite path_suffix_cons. naive_solver.
Qed.

Lemma mkdir_p_other fs d q : ¬ q `suffix_of` d → mkdir_p fs d !! q = fs !! q.
Proof.
  induction d as [|n d IH]; simpl; intros Hq; [done|].
  rewrite path_suffix_cons in Hq. apply Decidable.not_or in Hq as [Hne Hq].
  case_match; [by apply IH|]. rewrite lookup_insert_ne by done. by apply IH.
Qed.

Lemma mkdir_p_head fs n d : mkdir_p fs d !! (n :: d) = fs !! (n :: d).
Proof. apply mkdir_p_other. intros Hs. by eapply suffix_length_lt. Qed.

Lemma mkdir_p_way fs d q :
  fs !! ([] : path) = Some NDir → free_way fs d → q `suffix_of` d →
  mkdir_p fs d !! q = Some NDir.
Proof.
  intros Hroot. induction d as [|n d IH]; intros Hw Hq.
  - by apply suffix_nil_inv in Hq as ->.
  - apply free_way_cons in Hw as [Hh Hw]. cbn [mkdir_p].
    rewrite mkdir_p_head. apply path_suffix_cons in Hq as [->|Hq].
    + destruct Hh as [Hh|Hh]; rewrite Hh.
      * by rewrite lookup_insert_eq.
      * by rewrite mkdir_p_head.
    + case_match; [by apply IH|].
      rewrite lookup_insert_ne; [by apply IH|].
      symmetry. by apply suffix_length_lt.
Qed.

Lemma mkdir_p_wf fs d :
  fs_wf fs → Forall valid_name d → free_way fs d → fs_wf (mkdir_p fs d).
Proof.
  intros Hwf. induction d as [|n d IH]; intros Hv Hw; [done|].
  apply Forall_cons in Hv as [Hn Hv]. apply free_way_cons in Hw as [Hh Hw].
  cbn [mkdir_p]. destruct (mkdir_p fs d !! (n :: d)) eqn:E; [by apply IH|].
  apply fs_wf_insert; [by apply IH|done| |by left].
  apply mkdir_p_way; eauto with prof.
Qed.

(** Making directories changes no entry that exists. *)
Lemma mkdir_p_keep fs d q m : fs !! q = Some m → mkdir_p fs d !! q = Some m.
Proof.
  intros Hq. induction d as [|n d IH]; cbn [mkdir_p]; [done|].
  rewrite mkdir_p_head. destruct (fs !! (n :: d)) eqn:E; [done|].
  rewrite lookup_insert_ne; [done|]. congruence.
Qed.

(** ** An executable shell *)

Module Sh.

Definition after (pre s : bytes) : option bytes :=
  if starts_with pre s then Some (drop (length pre) s) else None.

Lemma after_app pre s : after pre (pre ++ s) = Some s.
Proof.
  unfold after. rewrite (proj2 (starts_with_spec _ _)) by eauto.
  by rewrite drop_app_length.
Qed.

Definition cp_fs (fs : fsmap) (a b : path) : fsmap :=
  match fs !! a, b with
  | Some (NFile data), _ :: d =>
      if bool_decide (a = b) then fs
      else match fs !! d, fs !! b with
           | Some NDir, (None | Some (NFile _)) => <[b := NFile data]> fs
           | _, _ => fs
           end
  | _, _ => fs
  end.

Definition run (cmd : bytes) (w : world) : world :=
  match after (B "mkdir -p $(dirname ") cmd with
  | Some arg => with_fs w (mkdir_p (w_fs w) (tail (parse_abs (removelast arg))))
  | None =>
      match after (B "cp ") cmd with
      | Some args =>
          match split_byte SPACE args with
          | [a; b] => with_fs w (cp_fs (w_fs w) (parse_abs a) (parse_abs b))
          | _ => w
          end
      | None => w
      end
  end.

Lemma sh_word_space s : sh_word s → SPACE ∉ s.
Proof. intros Hw Hin. eapply Forall_forall in Hw; [|exact Hin]. done. Qed.

Lemma run_mkdir_p w n d :
  Forall valid_name (n :: d) →
  run (B "mkdir -p $(dirname " ++ path_str (n :: d) ++ B ")") w =
    with_fs w (mkdir_p (w_fs w) d).
Proof.
  intros Hv. unfold run. rewrite after_app.
  change (B ")") with [41%Z]. rewrite removelast_last.
  by rewrite parse_abs_path_str by done.
Qed.

Lemma run_cp w a data n d :
  fs_wf (w_fs w) → w_fs w !! a = Some (NFile data) → a ≠ n :: d →
  Forall valid_name (n :: d) → sh_word (path_str a) → sh_word (path_str (n :: d)) →
  w_fs w !! d = Some NDir →
  w_fs w !! (n :: d) = None ∨ (∃ old, w_fs w !! (n :: d) = Some (NFile old)) →
  run (B "cp " ++ path_str a ++ B " " ++ path_str (n :: d)) w =
    with_fs w (<[n :: d := NFile data]> (w_fs w)).
Proof.
  intros Hwf Ha Hne Hv Hsa Hsb Hd Hb. unfold run.
  assert (after (B "mkdir -p $(dirname ")
    (B "cp " ++ path_str a ++ B " " ++ path_str (n :: d)) = None) as -> by done.
  rewrite after_app. change (B " " ++ path_str (n :: d)) with (SPACE :: path_str (n :: d)).
  rewrite split_byte_app, !split_byte_notin by auto using sh_word_space.
  cbn [app]. rewrite !parse_abs_path_str by eauto using fs_wf_valid_path.
  unfold cp_fs. rewrite Ha, bool_decide_eq_false_2 by done.
  rewrite Hd. by destruct Hb as [->|[old ->]].
Qed.

Definition sh (output : bytes → fsmap → path → option bytes) : Shell := {|
  system_world := run;
  popen_output := output;
  system_mkdir_p w n d _ Hv _ _ := run_mkdir_p w n d Hv;
  system_cp := run_cp;
|}.

(** A shell whose [popen] gives an empty output. *)
Definition plain_sh : Shell := sh (λ _ _ _, Some []).

End Sh.
