(* ===== verification/Molt.v ===== *)
(** * [molt]: the changed files of a version

    Model of [3-3/src/comp_kernel/molt.c].  [molt <org__skin> <cmp__skin>]
    walks two trees written by [skin] side by side; where a file is in both
    and its digest differs, it copies the file the record of the second tree
    names to the same place under [<cmp>__molt].  The copy is made by [system]
    (see [Shell]). *)
From stdpp Require Import base sorting strings numbers gmap list.
From S2P Require Import Prelude Posix Tools Shell.

Module Molt.

Section molt.
Context `{Shell}.

(** ** [molting_file] *)

(** The two [read] calls on a record: the digest array and the path array. *)
Definition molting_file (o_path c_path m_path : bytes) : C unit :=
  o ← read_all o_path;
  c ← read_all c_path;
  let o_hash := <[HASHLEN - 1 := Some NUL]> (read_buf HASHLEN o) in
  let o_buf := read_buf (Z.to_nat BUFMAX) (drop HASHLEN o) in
  let c_hash := <[HASHLEN - 1 := Some NUL]> (read_buf HASHLEN c) in
  let c_buf := read_buf (Z.to_nat BUFMAX) (drop HASHLEN c) in
  _ ← buf_string o_buf;
  _ ← buf_string c_buf;
  same ← buf_streq o_hash c_hash;
  if (same : bool) then mret tt
  else
    a ← access m_path;
    (if (a : bool) then mret tt
     else
       cmdline ← store BUFMAX (B "mkdir -p $(dirname " ++ m_path ++ B ")");
       system cmdline);;
    c_str ← buf_string c_buf;
    cmdline ← store BUFMAX (B "cp " ++ c_str ++ B " " ++ m_path);
    system cmdline.

(** ** [molting_dir] *)

(** The branch for a name that is in both directories. *)
Definition molting_entry (rec : bytes → bytes → bytes → C unit)
    (o_st c_st : option mode) (tmp_o_path tmp_c_path tmp_m_path : bytes) : C unit :=
  o_dir ← S_ISDIR o_st;
  both_dir ← (if (o_dir : bool) then S_ISDIR c_st else mret false);
  if (both_dir : bool) then rec tmp_o_path tmp_c_path tmp_m_path
  else
    neither ← (if negb o_dir then c_dir ← S_ISDIR c_st; mret (negb c_dir)
               else mret false);
    if (neither : bool) then molting_file tmp_o_path tmp_c_path tmp_m_path
    else mret tt.

(** The [while] loop over the two sorted lists; [o_st] and [c_st] are
    [o_stat] and [c_stat], which live across the iterations. *)
Fixpoint molting_loop (fuel : nat) (rec : bytes → bytes → bytes → C unit)
    (o_path c_path m_path : bytes) (o_st c_st : option mode)
    (o_filelist c_filelist : list name) : C unit :=
  match fuel with
  | 0 => halt OutOfFuel
  | S fuel =>
    match o_filelist, c_filelist with
    | o_name :: o_rest, c_name :: c_rest =>
        tmp_o_path ← store BUFMAX (o_path ++ SLASH :: o_name);
        tmp_c_path ← store BUFMAX (c_path ++ SLASH :: c_name);
        o_st ← stat tmp_o_path o_st;
        c_st ← stat tmp_c_path c_st;
        match bytes_compare o_name c_name with
        | Eq =>
            tmp_m_path ← store BUFMAX (m_path ++ SLASH :: o_name);
            molting_entry rec o_st c_st tmp_o_path tmp_c_path tmp_m_path;;
            molting_loop fuel rec o_path c_path m_path o_st c_st o_rest c_rest
        | Lt => molting_loop fuel rec o_path c_path m_path o_st c_st o_rest c_filelist
        | Gt => molting_loop fuel rec o_path c_path m_path o_st c_st o_filelist c_rest
        end
    | _, _ => mret tt
    end
  end.

Fixpoint molting_dir (fuel : nat) (o_path c_path m_path : bytes) : C unit :=
  match fuel with
  | 0 => halt OutOfFuel
  | S fuel =>
      o_filelist ← scandir o_path scandir_filter;
      match o_filelist with
      | None => eprintf (B "in function molting_dir: scandir error" ++ [NEWLINE])
      | Some o_filelist =>
          c_filelist ← scandir c_path scandir_filter;
          match c_filelist with
          | None => eprintf (B "in function molting_dir: scandir error" ++ [NEWLINE])
          | Some c_filelist =>
              molting_loop (S (length o_filelist + length c_filelist))
                (molting_dir fuel) o_path c_path m_path None None
                o_filelist c_filelist
          end
      end
  end.

(** ** [main] *)

Definition main_checked (fuel : nat) (o_path c_path : bytes) : C unit :=
  m_path ← cut_suffix c_path (B "__molt");
  a ← access m_path;
  (if (a : bool) then rmdir m_path else mret tt);;
  mkdir m_path;;
  molting_dir fuel o_path c_path m_path.

Definition main (fuel : nat) (argv : list bytes) : C unit :=
  match argv with
  | [_; argv1; argv2] =>
      a1 ← access argv1;
      a2 ← (if (a1 : bool) then access argv2 else mret true);
      if negb a1 || negb a2 then
        eprintf (B "argv[1] or argv[2] don't exist.." ++ [NEWLINE]);; exit 1
      else
      st1 ← stat argv1 None;
      st2 ← stat argv2 None;
      d1 ← S_ISDIR st1;
      d2 ← (if (d1 : bool) then S_ISDIR st2 else mret true);
      if negb d1 || negb d2 then
        eprintf (B "argv[1] or argv[2] are not dir" ++ [NEWLINE]);; exit 1
      else
      o_path ← abspath argv1;
      c_path ← abspath argv2;
      main_checked fuel o_path c_path
  | _ =>
      eprintf (B "usage : <org_path__skin> <cmp_path__skin>" ++ [NEWLINE]);;
      exit 1
  end.

(** ** What [molt] is to do *)

(** The digest and the path of a record of [skin]. *)
Definition record_hash (r : bytes) : bytes := take 32 r.
Definition record_path (r : bytes) : bytes := removelast (drop 33 r).

(** The new content of the file at [rel], when it changed: both trees have a
    record for it and the digests differ. *)
Definition changed_file (fs : fsmap) (op cp rel : path) : option bytes :=
  match fs !! (rel ++ op), fs !! (rel ++ cp) with
  | Some (NFile o), Some (NFile c) =>
      if bool_decide (visible rel ∧ record_hash o ≠ record_hash c) then
        match fs !! parse_abs (record_path c) with
        | Some (NFile data) => Some data
        | _ => None
        end
      else None
  | _, _ => None
  end.

(** A record: 32 digits, a bar, a path and a NUL. *)
Definition is_record (r h p : bytes) : Prop :=
  r = h ++ PIPE :: p ++ [NUL] ∧ length h = 32 ∧ is_cstr h ∧ is_cstr p ∧
  (zlen p < BUFMAX)%Z.

Lemma record_hash_eq r h p : is_record r h p → record_hash r = h.
Proof.
  intros (-> & Hh & _). unfold record_hash. rewrite <- Hh. apply take_app_length.
Qed.

Lemma record_drop r h p : is_record r h p → drop 33 r = p ++ [NUL].
Proof.
  intros (-> & Hh & _). rewrite drop_app_ge by lia. by rewrite Hh.
Qed.

Lemma record_path_eq r h p : is_record r h p → record_path r = p.
Proof.
  intros Hr. unfold record_path. rewrite (record_drop _ _ _ Hr).
  apply removelast_last.
Qed.

(** What [molting_file] reads from a record. *)
Lemma record_hash_buf r h p : is_record r h p →
  <[HASHLEN - 1 := Some NUL]> (read_buf HASHLEN r) = (Some <$> h) ++ [Some NUL].
Proof.
  intros Hr. rewrite hash_buf.
  - by rewrite (record_hash_eq _ _ _ Hr : take 32 r = h).
  - destruct Hr as (-> & Hh & _). rewrite length_app. simpl. lia.
Qed.

Lemma record_path_buf r h p : is_record r h p →
  ∃ k, read_buf (Z.to_nat BUFMAX) (drop HASHLEN r) = (Some <$> p) ++ Some NUL :: k.
Proof.
  intros Hr. unfold HASHLEN. rewrite (record_drop _ _ _ Hr).
  destruct Hr as (_ & _ & _ & _ & Hl). unfold read_buf.
  rewrite take_ge, fmap_app, <- (assoc_L (++)) by
    (rewrite length_app; unfold zlen, BUFMAX in *; simpl; lia).
  simpl. eauto.
Qed.

(** ** The invariant of the walk *)

Section walk.
Context (fs0 : fsmap) (op cp mp : path).

Abbreviation changed := (changed_file fs0 op cp).

(** The precondition: two trees of records and an empty directory apart from
    them; what the records of the second tree name exists outside that
    directory; names fit the arrays and need no quoting. *)
Record molt_pre : Prop := {
  mo_wf : fs_wf fs0;
  mo_nonroot : op ≠ [] ∧ cp ≠ [] ∧ mp ≠ [];
  mo_apart_o : apart op mp;
  mo_apart_c : apart cp mp;
  mo_odir : fs0 !! op = Some NDir;
  mo_cdir : fs0 !! cp = Some NDir;
  mo_mdir : fs0 !! mp = Some NDir;
  mo_fresh rel : rel ≠ [] → fs0 !! (rel ++ mp) = None;
  mo_link_o rel : visible rel → fs0 !! (rel ++ op) ≠ Some NDangling;
  mo_link_c rel : visible rel → fs0 !! (rel ++ cp) ≠ Some NDangling;
  mo_rec_o rel r : visible rel → fs0 !! (rel ++ op) = Some (NFile r) →
    ∃ h p, is_record r h p;
  mo_rec_c rel r : visible rel → fs0 !! (rel ++ cp) = Some (NFile r) →
    ∃ h src data, is_record r h (path_str src) ∧
      fs0 !! src = Some (NFile data) ∧ (∀ k, src ≠ k ++ mp) ∧
      sh_word (path_str src) ∧
      (4 + zlen (path_str src) + zlen (path_str (rel ++ mp)) < BUFMAX)%Z;
  mo_len_o rel : visible rel → is_Some (fs0 !! (rel ++ op)) →
    (zlen (path_str (rel ++ op)) < BUFMAX)%Z;
  mo_len_c rel : visible rel → is_Some (fs0 !! (rel ++ cp)) →
    (zlen (path_str (rel ++ cp)) < BUFMAX)%Z ∧
    (20 + zlen (path_str (rel ++ mp)) < BUFMAX)%Z ∧ sh_word (path_str (rel ++ mp));
}.

(** The state when the places that satisfy [P] have been dealt with. *)
Record molted (P : path → Prop) (fs : fsmap) : Prop := {
  md_wf : fs_wf fs;
  md_frame q : (∀ r, r ≠ [] → q ≠ r ++ mp) → fs !! q = fs0 !! q;
  md_done rel data : P rel → changed rel = Some data →
    fs !! (rel ++ mp) = Some (NFile data);
  md_only rel m : rel ≠ [] → fs !! (rel ++ mp) = Some m →
    (∃ data, P rel ∧ changed rel = Some data ∧ m = NFile data) ∨
    (m = NDir ∧ ∃ r, r ≠ [] ∧ P (r ++ rel) ∧ is_Some (changed (r ++ rel)));
}.

Lemma changed_Some rel data :
  changed rel = Some data →
  visible rel ∧ ∃ o c, fs0 !! (rel ++ op) = Some (NFile o) ∧
    fs0 !! (rel ++ cp) = Some (NFile c) ∧ record_hash o ≠ record_hash c ∧
    fs0 !! parse_abs (record_path c) = Some (NFile data).
Proof.
  unfold changed_file. repeat (case_match; try done). bool_to_prop.
  intros; simplify_eq. destruct_and!. split; [done|]. eauto 10.
Qed.

Context (Hpre : molt_pre).

Lemma changed_above r rel :
  r ≠ [] → is_Some (changed (r ++ rel)) → fs0 !! (rel ++ op) = Some NDir.
Proof.
  intros Hr [data (_ & o & c & Ho & _)%changed_Some].
  rewrite <- (assoc_L (++)) in Ho. eapply fs_wf_ancestor; eauto using mo_wf.
Qed.

Lemma changed_nonroot rel data : changed rel = Some data → rel ≠ [].
Proof.
  intros (_ & o & c & Ho & _)%changed_Some ->. simpl in Ho.
  pose proof (mo_odir Hpre). congruence.
Qed.

Section inv.
Context (P : path → Prop) (fs : fsmap) (Hm : molted P fs).

Lemma molted_o r : fs !! (r ++ op) = fs0 !! (r ++ op).
Proof. apply (md_frame _ _ Hm). intros k _. apply (mo_apart_o Hpre). Qed.

Lemma molted_c r : fs !! (r ++ cp) = fs0 !! (r ++ cp).
Proof. apply (md_frame _ _ Hm). intros k _. apply (mo_apart_c Hpre). Qed.

Lemma molted_above q : q `suffix_of` mp → fs !! q = Some NDir.
Proof.
  intros [k E]. rewrite (md_frame _ _ Hm).
  - pose proof (mo_mdir Hpre) as Hd. destruct k as [|x k].
    + by simpl in E; subst q.
    + apply (fs_wf_ancestor _ (x :: k) q (mo_wf Hpre)); [done|]. rewrite <- E. eauto.
  - intros r Hr ->. apply (f_equal length) in E. rewrite !length_app in E.
    destruct r; [done|]. simpl in E. lia.
Qed.

Lemma molted_none rel o :
  rel ≠ [] → ¬ P rel → fs0 !! (rel ++ op) = Some (NFile o) → fs !! (rel ++ mp) = None.
Proof.
  intros Hne HP Ho. apply eq_None_not_Some. intros [m Hl].
  apply (md_only _ _ Hm) in Hl as [(data & ? & _)|(_ & r & Hr & _ & Hc)]; [done| |done].
  apply changed_above in Hc; [congruence|done].
Qed.

Lemma molted_way n r :
  is_Some (fs0 !! ((n :: r) ++ op)) → free_way fs (r ++ mp).
Proof.
  intros Hn q [k E]. apply app_eq_inv in E as [(l & -> & ->)|(l & -> & E)].
  - destruct l as [|x l]; [right; by apply molted_above|].
    destruct (fs !! ((x :: l) ++ mp)) as [m|] eqn:Hq; [|by left].
    apply (md_only _ _ Hm) in Hq as [(data & _ & Hc & _)|[-> _]]; [|by right|done].
    exfalso. apply changed_Some in Hc as (_ & o & c & Ho & _).
    assert (fs0 !! ((x :: l) ++ op) = Some NDir); [|congruence].
    apply (fs_wf_ancestor _ (n :: k) _ (mo_wf Hpre)); [done|].
    cbn [app] in *. by rewrite <- !(assoc_L (++)) in Hn.
  - right. apply molted_above. by exists l.
Qed.

Lemma molted_ext (Q : path → Prop) :
  (∀ rel, is_Some (changed rel) → P rel ↔ Q rel) → molted Q fs.
Proof.
  intros HPQ. destruct Hm as [Hwf Hframe Hdone Honly]. constructor; [done..| |].
  - intros rel data HQ Hc. apply Hdone; [|done]. apply HPQ; eauto.
  - intros rel m Hne [(data & HP & Hc & ->)|(-> & r & Hr & HP & Hc)]%Honly; [| |done].
    + left. exists data. split; [apply HPQ; eauto|done].
    + right. split; [done|]. exists r. split; [done|]. split; [by apply HPQ|done].
Qed.

(** Copying one changed file. *)
Lemma molted_step n r data :
  changed (n :: r) = Some data → ¬ P (n :: r) →
  molted (λ rel, P rel ∨ rel = n :: r)
    (<[(n :: r) ++ mp := NFile data]> (mkdir_p fs (r ++ mp))).
Proof.
  intros Hc HP. pose proof (changed_Some _ _ Hc) as (_ & o & c & Ho & _).
  pose proof (molted_way n r ltac:(eauto)) as Hway.
  assert (Forall valid_name ((n :: r) ++ mp)) as Hv.
  { apply Forall_app. split.
    - pose proof (fs_wf_valid_path _ _ (mo_wf Hpre) (mk_is_Some _ _ Ho)) as Hv.
      by apply Forall_app in Hv as [? _].
    - eapply fs_wf_valid_path; [exact (mo_wf Hpre)|]. rewrite (mo_mdir Hpre). eauto. }
  cbn [app] in *. apply Forall_cons in Hv as [Hn Hv].
  pose proof (md_wf _ _ Hm) as Hwf.
  constructor.
  - apply fs_wf_insert; auto using mkdir_p_wf.
    + apply mkdir_p_way; eauto with prof.
    + left. rewrite mkdir_p_head. by eapply (molted_none (n :: r)).
  - intros q Hq. rewrite lookup_insert_ne by (intros <-; by apply (Hq (n :: r))).
    destruct (decide (q `suffix_of` r ++ mp)) as [Hs|Hs].
    + rewrite mkdir_p_way by eauto with prof. symmetry.
      rewrite <- (md_frame _ _ Hm) by done. apply molted_above.
      destruct Hs as [k E]. apply app_eq_inv in E as [(l & -> & ->)|(l & -> & E)].
      * destruct l as [|x l]; [done|]. by destruct (Hq (x :: l)).
      * by exists l.
    + rewrite mkdir_p_other by done. by apply (md_frame _ _ Hm).
  - intros rel data' HP' Hc'. destruct (decide (rel = n :: r)) as [->|Hne].
    { rewrite Hc in Hc'. simplify_eq. apply lookup_insert_eq. }
    destruct HP' as [HP'|?]; [|done].
    rewrite lookup_insert_ne.
    + apply mkdir_p_keep. by apply (md_done _ _ Hm).
    + intros E. apply Hne. by apply (inj (λ l, l ++ mp)).
  - intros rel m Hne Hl. apply lookup_insert_Some in Hl as [[E <-]|[Hne' Hl]].
    { left. exists data. change (n :: r ++ mp) with ((n :: r) ++ mp) in E.
      apply (inj (λ l, l ++ mp)) in E as <-. auto. }
    destruct (decide (rel ++ mp `suffix_of` r ++ mp)) as [[k E]|Hs].
    + rewrite mkdir_p_way in Hl by (eauto with prof; by exists k).
      simplify_eq. right. split; [done|].
      rewrite (assoc_L (++)) in E. apply (inj (λ l, l ++ mp)) in E as ->.
      exists (n :: k). cbn [app]. eauto.
    + rewrite mkdir_p_other in Hl by done.
      apply (md_only _ _ Hm) in Hl as [(d & ? & ? & ->)|(-> & k & ? & ? & ?)]; [| |done].
      * left. eauto.
      * right. split; [done|]. exists k. auto.
Qed.

End inv.

(** ** The walk keeps the invariant *)

(** A call at work on the places [Q] ends normally with these dealt with. *)
Definition deals_with (P Q : path → Prop) (w : world)
    (res : outcome unit * world) : Prop :=
  ∃ fs', res = (Done tt, with_fs w fs') ∧ molted (λ rel, P rel ∨ Q rel) fs'.

Lemma deals_with_nothing (P Q : path → Prop) w :
  molted P (w_fs w) → (∀ rel, is_Some (changed rel) → ¬ Q rel) →
  deals_with P Q w (Done tt, w).
Proof.
  intros Hm HQ. exists (w_fs w). rewrite with_fs_id. split; [done|].
  eapply molted_ext; [exact Hm|]. intros rel Hc.
  specialize (HQ rel Hc). naive_solver.
Qed.

(** Names in the two trees. *)
Lemma resolve_o P w r :
  molted P (w_fs w) → visible r → is_Some (fs0 !! (r ++ op)) →
  resolve (w_fs w) (w_cwd w) (path_str (r ++ op)) = Some (r ++ op).
Proof.
  intros Hm Hv Hs. apply resolve_canon; [apply Hm| |by apply (mo_len_o Hpre)].
  by rewrite (molted_o P).
Qed.

Lemma resolve_c P w r :
  molted P (w_fs w) → visible r → is_Some (fs0 !! (r ++ cp)) →
  resolve (w_fs w) (w_cwd w) (path_str (r ++ cp)) = Some (r ++ cp).
Proof.
  intros Hm Hv Hs. apply resolve_canon; [apply Hm| |by apply (mo_len_c Hpre)].
  by rewrite (molted_c P).
Qed.

(** A changed record and what it makes [molting_file] copy. *)
Lemma changed_record rel o c ho po hc src data :
  visible rel → fs0 !! (rel ++ op) = Some (NFile o) →
  fs0 !! (rel ++ cp) = Some (NFile c) →
  is_record o ho po → is_record c hc (path_str src) → fs0 !! src = Some (NFile data) →
  changed rel = if bool_decide (ho = hc) then None else Some data.
Proof.
  intros Hv Ho Hc Hro Hrc Hsrc. unfold changed_file. rewrite Ho, Hc.
  rewrite (record_hash_eq _ _ _ Hro), (record_hash_eq _ _ _ Hrc).
  rewrite (record_path_eq _ _ _ Hrc), parse_abs_path_str
    by (eapply fs_wf_valid_path; eauto using mo_wf).
  rewrite Hsrc. case_bool_decide; case_bool_decide; naive_solver.
Qed.

(** The two commands that copy a changed file. *)
Lemma copy_run P w n r src data :
  molted P (w_fs w) → visible (n :: r) → is_Some (fs0 !! ((n :: r) ++ op)) →
  is_Some (fs0 !! ((n :: r) ++ cp)) →
  w_fs w !! ((n :: r) ++ mp) = None →
  fs0 !! src = Some (NFile data) → (∀ k, src ≠ k ++ mp) → sh_word (path_str src) →
  system_world (B "cp " ++ path_str src ++ B " " ++ path_str ((n :: r) ++ mp))
    (system_world (B "mkdir -p $(dirname " ++ path_str ((n :: r) ++ mp) ++ B ")") w) =
  with_fs w (<[(n :: r) ++ mp := NFile data]> (mkdir_p (w_fs w) (r ++ mp))).
Proof.
  intros Hm Hv Ho Hc Hnone Hsrc Hk Hw.
  destruct (mo_len_c Hpre (n :: r)) as (_ & _ & Hsw); [done..|].
  pose proof (molted_way P _ Hm n r Ho) as Hway.
  assert (Forall valid_name ((n :: r) ++ mp)) as Hvp.
  { apply Forall_app. split.
    - pose proof (fs_wf_valid_path _ _ (mo_wf Hpre) Ho) as Hvo.
      by apply Forall_app in Hvo as [? _].
    - eapply fs_wf_valid_path; [exact (mo_wf Hpre)|]. rewrite (mo_mdir Hpre). eauto. }
  pose proof (md_wf _ _ Hm) as Hwf. cbn [app] in *.
  rewrite system_mkdir_p by done.
  assert (Forall valid_name (r ++ mp)) as Hvd by (by apply Forall_cons in Hvp as []).
  erewrite (system_cp _ src data); [done|..]; cbn [w_fs with_fs]; try done.
  - by apply mkdir_p_wf.
  - apply mkdir_p_keep. rewrite (md_frame _ _ Hm); [done|]. intros k' _. apply Hk.
  - apply (Hk (n :: r)).
  - apply mkdir_p_way; eauto with prof.
  - left. by rewrite mkdir_p_head.
Qed.

(** The command lines fit their array. *)
Lemma mkdir_line_fits (m : bytes) : (20 + zlen m < BUFMAX)%Z →
  (zlen (B "mkdir -p $(dirname " ++ m ++ B ")") < BUFMAX)%Z.
Proof.
  rewrite !zlen_app. change (zlen (B "mkdir -p $(dirname ")) with 19%Z.
  change (zlen (B ")")) with 1%Z. lia.
Qed.

Lemma cp_line_fits (c m : bytes) : (4 + zlen c + zlen m < BUFMAX)%Z →
  (zlen (B "cp " ++ c ++ B " " ++ m) < BUFMAX)%Z.
Proof.
  rewrite !zlen_app. change (zlen (B "cp ")) with 3%Z.
  change (zlen (B " ")) with 1%Z. lia.
Qed.

Lemma molting_file_deals P w n r o c :
  molted P (w_fs w) → visible (n :: r) → ¬ P (n :: r) →
  fs0 !! ((n :: r) ++ op) = Some (NFile o) →
  fs0 !! ((n :: r) ++ cp) = Some (NFile c) →
  deals_with P (λ rel, rel = n :: r) w
    (molting_file (path_str ((n :: r) ++ op)) (path_str ((n :: r) ++ cp))
       (path_str ((n :: r) ++ mp)) w).
Proof.
  intros Hm Hv HP Ho Hc.
  destruct (mo_rec_o Hpre _ _ Hv Ho) as (ho & po & Hro).
  destruct (mo_rec_c Hpre _ _ Hv Hc) as (hc & src & data & Hrc & Hsrc & Hk & Hsw & Hl).
  destruct (mo_len_c Hpre (n :: r)) as (_ & Hlm & _); [done|eauto|].
  pose proof (changed_record _ _ _ _ _ _ _ _ Hv Ho Hc Hro Hrc Hsrc) as Hch.
  unfold molting_file.
  rewrite (C_bind_step _ _ _ _ _ (read_all_run _ _ _
    (resolve_o P w _ Hm Hv ltac:(eauto)) o ltac:(by rewrite (molted_o P)))).
  rewrite (C_bind_step _ _ _ _ _ (read_all_run _ _ _
    (resolve_c P w _ Hm Hv ltac:(eauto)) c ltac:(by rewrite (molted_c P)))).
  cbv zeta. rewrite (record_hash_buf _ _ _ Hro), (record_hash_buf _ _ _ Hrc).
  destruct (record_path_buf _ _ _ Hro) as [ko ->], (record_path_buf _ _ _ Hrc) as [kc ->].
  destruct Hro as (_ & _ & Hho & Hpo & _), Hrc as (_ & _ & Hhc & Hpc & _).
  crun (buf_string_run po ko w Hpo). crun (buf_string_run (path_str src) kc w Hpc).
  crun (buf_streq_run ho hc [] [] w Hho Hhc).
  case_bool_decide as Hh.
  { apply deals_with_nothing; [done|]. intros rel Hs ->. rewrite Hch in Hs. by destruct Hs. }
  assert (w_fs w !! ((n :: r) ++ mp) = None) as Hnone
    by (by eapply molted_none).
  rewrite (C_bind_step _ _ w false w).
  2: { unfold access. rewrite lookup_at_canon, Hnone; [done|apply Hm| |].
       - rewrite Forall_app. split.
         + pose proof (fs_wf_valid_path _ _ (mo_wf Hpre) (mk_is_Some _ _ Ho)) as Hvo.
           by apply Forall_app in Hvo as [? _].
         + eapply fs_wf_valid_path; [exact (mo_wf Hpre)|]. rewrite (mo_mdir Hpre). eauto.
       - unfold PATH_MAX, BUFMAX in *. lia. }
  rewrite (C_bind_step _ _ w tt (system_world
    (B "mkdir -p $(dirname " ++ path_str ((n :: r) ++ mp) ++ B ")") w)).
  2: { by rewrite (C_bind_step _ _ _ _ _ (store_run _ _ _ (mkdir_line_fits _ Hlm))). }
  rewrite (C_bind_step _ _ _ _ _ (buf_string_run (path_str src) kc _ Hpc)).
  rewrite (C_bind_step _ _ _ _ _ (store_run _ _ _ (cp_line_fits _ _ Hl))).
  unfold system. rewrite (copy_run P w n r src data) by eauto.
  eexists. split; [done|]. eapply molted_step; eauto.
Qed.

(** What a recursive call does, for a directory in both trees. *)
Definition rec_deals (rec : bytes → bytes → bytes → C unit) (r : path) : Prop :=
  ∀ P w, molted P (w_fs w) → visible r →
    fs0 !! (r ++ op) = Some NDir → fs0 !! (r ++ cp) = Some NDir →
    (∀ rel, strictly_under r rel → ¬ P rel) →
    deals_with P (strictly_under r) w
      (rec (path_str (r ++ op)) (path_str (r ++ cp)) (path_str (r ++ mp)) w).

(** Nothing below a place changed unless it is a directory in both trees. *)
Lemma changed_under r rel :
  is_Some (changed rel) → under r rel →
  rel = r ∨ (strictly_under r rel ∧ fs0 !! (r ++ op) = Some NDir ∧
             fs0 !! (r ++ cp) = Some NDir).
Proof.
  intros [d (_ & o & c & Ho & Hc & _)%changed_Some] [k ->].
  destruct k as [|x k]; [by left|]. right. rewrite <- !(assoc_L (++)) in Ho, Hc.
  split; [by exists (x :: k)|].
  split; eapply (fs_wf_ancestor _ (x :: k)); eauto using mo_wf.
Qed.

Lemma molted_under P Q fs r :
  molted (λ rel, P rel ∨ Q rel) fs → (∀ rel, Q rel → under r rel) →
  (∀ rel, is_Some (changed rel) → under r rel → Q rel) →
  molted (λ rel, P rel ∨ under r rel) fs.
Proof.
  intros Hm HQ1 HQ2. eapply molted_ext; [exact Hm|]. intros rel Hc.
  specialize (HQ1 rel). specialize (HQ2 rel Hc). naive_solver.
Qed.

Lemma molting_entry_deals rec P w n r mo mc :
  rec_deals rec (n :: r) → molted P (w_fs w) → visible (n :: r) →
  fs0 !! ((n :: r) ++ op) = Some mo → fs0 !! ((n :: r) ++ cp) = Some mc →
  (∀ rel, under (n :: r) rel → ¬ P rel) →
  deals_with P (under (n :: r)) w
    (molting_entry rec (Some (node_mode mo)) (Some (node_mode mc))
       (path_str ((n :: r) ++ op)) (path_str ((n :: r) ++ cp))
       (path_str ((n :: r) ++ mp)) w).
Proof.
  intros Hrec Hm Hv Ho Hc HP.
  assert (mo ≠ NDangling) as Hdo by (intros ->; by apply (mo_link_o Hpre) in Ho).
  assert (mc ≠ NDangling) as Hdc by (intros ->; by apply (mo_link_c Hpre) in Hc).
  assert (¬ (mo = NDir ∧ mc = NDir) → ¬ (∃ o c, mo = NFile o ∧ mc = NFile c) →
    deals_with P (under (n :: r)) w (Done tt, w)) as Hskip.
  { intros Hn1 Hn2. apply deals_with_nothing; [done|]. intros rel Hs Hu.
    apply changed_under in Hu as [->|(_ & ? & ?)]; [|naive_solver|done].
    destruct Hs as [d (_ & o & c & ? & ? & _)%changed_Some]. naive_solver. }
  unfold molting_entry. rewrite (C_bind_step _ _ _ _ _ (S_ISDIR_run mo w)).
  destruct mo as [o| |]; [| |done]; destruct mc as [c| |]; try done; simpl.
  - rewrite (C_bind_step _ _ w false w) by done.
    rewrite (C_bind_step _ _ w true w) by done.
    destruct (molting_file_deals P w n r o c) as (fs' & Hrun & Hm'); auto.
    { apply HP. by exists []. }
    exists fs'. split; [exact Hrun|]. eapply molted_under; [exact Hm'|..].
    + intros rel ->. by exists [].
    + intros rel Hs [?|(_ & ? & _)]%changed_under; [done| |done]. simpl in *. congruence.
  - rewrite (C_bind_step _ _ w false w) by done.
    rewrite (C_bind_step _ _ w false w) by done. apply Hskip; naive_solver.
  - rewrite (C_bind_step _ _ w false w) by done.
    rewrite (C_bind_step _ _ w false w) by done. apply Hskip; naive_solver.
  - rewrite (C_bind_step _ _ w true w) by done.
    destruct (Hrec P w) as (fs' & Hrun & Hm'); auto.
    { intros rel (k & _ & ->). apply HP. by exists k. }
    exists fs'. split; [exact Hrun|]. eapply molted_under; [exact Hm'|..].
    + intros rel (k & _ & ->). by exists k.
    + intros rel Hs Hu. apply changed_under in Hu as [->|(? & _)]; [|done|done].
      destruct Hs as [d (_ & o & c & ? & _)%changed_Some]. naive_solver.
Qed.

(** The names of a list that both directories hold, and what is below them. *)
Definition common_under (r : path) (lo lc : list name) (rel : path) : Prop :=
  ∃ n, n ∈ lo ∧ n ∈ lc ∧ under (n :: r) rel.

Lemma common_under_nil r lo lc rel :
  lo = [] ∨ lc = [] → ¬ common_under r lo lc rel.
Proof. intros [->| ->] (n & Hn1 & Hn2 & _); set_solver. Qed.

Lemma common_under_eq r n lo lc rel :
  common_under r (n :: lo) (n :: lc) rel →
  under (n :: r) rel ∨ common_under r lo lc rel.
Proof.
  intros (n' & Hn1 & Hn2 & Hu). destruct (decide (n' = n)) as [->|]; [by left|].
  right. exists n'. set_solver.
Qed.

Lemma common_under_mono r lo lc lo' lc' rel :
  lo ⊆ lo' → lc ⊆ lc' → common_under r lo lc rel → common_under r lo' lc' rel.
Proof. intros Ho Hc (n & ? & ? & ?). exists n. set_solver. Qed.

(** A name smaller than every name of the other list is not common. *)
Lemma common_under_lt r no lo nc lc rel :
  ssorted (nc :: lc) → bytes_lt no nc →
  common_under r (no :: lo) (nc :: lc) rel → common_under r lo (nc :: lc) rel.
Proof.
  intros Hs Hlt (n & Hn1 & Hn2 & Hu). exists n.
  pose proof (ssorted_below no nc lc Hs Hlt). set_solver.
Qed.

Lemma common_under_gt r no lo nc lc rel :
  ssorted (no :: lo) → bytes_lt nc no →
  common_under r (no :: lo) (nc :: lc) rel → common_under r (no :: lo) lc rel.
Proof.
  intros Hs Hlt (n & Hn1 & Hn2 & Hu). exists n.
  pose proof (ssorted_below nc no lo Hs Hlt). set_solver.
Qed.

(** The entries a list names exist and are visible. *)
Definition listed (p r : path) (l : list name) : Prop :=
  ∀ n, n ∈ l → is_Some (fs0 !! ((n :: r) ++ p)) ∧ scandir_filter n = true.

Lemma listed_tail p r n l : listed p r (n :: l) → listed p r l.
Proof. intros Hl n' Hn'. apply Hl. set_solver. Qed.

(** The head of an iteration: both names are formed and looked up. *)
Lemma molting_loop_step rec r fuel no lo nc lc P w o_st c_st mo mc :
  molted P (w_fs w) → visible (no :: r) → visible (nc :: r) →
  fs0 !! ((no :: r) ++ op) = Some mo → fs0 !! ((nc :: r) ++ cp) = Some mc →
  molting_loop (S fuel) rec (path_str (r ++ op)) (path_str (r ++ cp))
    (path_str (r ++ mp)) o_st c_st (no :: lo) (nc :: lc) w =
  let loop := molting_loop fuel rec (path_str (r ++ op)) (path_str (r ++ cp))
    (path_str (r ++ mp)) (Some (node_mode mo)) (Some (node_mode mc)) in
  match bytes_compare no nc with
  | Eq =>
      (tmp_m_path ← store BUFMAX (path_str ((no :: r) ++ mp));
       molting_entry rec (Some (node_mode mo)) (Some (node_mode mc))
         (path_str ((no :: r) ++ op)) (path_str ((nc :: r) ++ cp)) tmp_m_path;;
       loop lo lc) w
  | Lt => loop lo (nc :: lc) w
  | Gt => loop (no :: lo) lc w
  end.
Proof.
  intros Hm Hvo Hvc Ho Hc. destruct (mo_nonroot Hpre) as (Hop & Hcp & Hmp).
  cbn [molting_loop]. rewrite (name_child op r no), (name_child cp r nc),
    (name_child mp r no) by done.
  rewrite (C_bind_step _ _ _ _ _ (store_run _ _ _ (mo_len_o Hpre _ Hvo ltac:(eauto)))).
  destruct (mo_len_c Hpre (nc :: r)) as (Hl1 & _); [done|eauto|].
  rewrite (C_bind_step _ _ _ _ _ (store_run _ _ _ Hl1)).
  rewrite (C_bind_step _ _ _ _ _ (stat_run _ _ _ (resolve_o P w _ Hm Hvo ltac:(eauto))
    mo o_st ltac:(by rewrite (molted_o P)) ltac:(intros ->; by apply (mo_link_o Hpre) in Ho))).
  rewrite (C_bind_step _ _ _ _ _ (stat_run _ _ _ (resolve_c P w _ Hm Hvc ltac:(eauto))
    mc c_st ltac:(by rewrite (molted_c P)) ltac:(intros ->; by apply (mo_link_c Hpre) in Hc))).
  by destruct (bytes_compare no nc).
Qed.

Lemma deals_with_sub (P Q Q' : path → Prop) w res :
  deals_with P Q' w res → (∀ rel, Q' rel → Q rel) → (∀ rel, Q rel → Q' rel) →
  deals_with P Q w res.
Proof.
  intros (fs' & Hrun & Hm) H1 H2. exists fs'. split; [done|].
  eapply molted_ext; [exact Hm|]. naive_solver.
Qed.

Lemma molting_loop_deals rec r fuel lo lc P w o_st c_st :
  length lo + length lc < fuel → ssorted lo → ssorted lc →
  (∀ n, rec_deals rec (n :: r)) → visible r → listed op r lo → listed cp r lc →
  molted P (w_fs w) → (∀ rel, common_under r lo lc rel → ¬ P rel) →
  deals_with P (common_under r lo lc) w
    (molting_loop fuel rec (path_str (r ++ op)) (path_str (r ++ cp))
       (path_str (r ++ mp)) o_st c_st lo lc w).
Proof.
  intros Hf Hso Hsc Hrec Hv. revert lo lc P w o_st c_st Hf Hso Hsc.
  induction fuel as [|fuel IH]; intros lo lc P w o_st c_st Hf Hso Hsc Hlo Hlc Hm HP;
    [lia|].
  destruct lo as [|no lo]; [|destruct lc as [|nc lc]];
    [apply deals_with_nothing; eauto using common_under_nil..|].
  destruct (Hlo no) as [[mo Ho] Hvo]; [set_solver|].
  destruct (Hlc nc) as [[mc Hc] Hvc]; [set_solver|].
  rewrite (molting_loop_step rec r fuel no lo nc lc P w o_st c_st mo mc)
    by (done || by constructor). cbv zeta.
  simpl in Hf. destruct (bytes_compare no nc) eqn:Hcmp.
  - apply bytes_compare_eq in Hcmp as <-.
    destruct (mo_len_c Hpre (no :: r)) as (_ & Hl & _); [by constructor|eauto|].
    assert (zlen (path_str ((no :: r) ++ mp)) < BUFMAX)%Z as Hl' by lia.
    rewrite (C_bind_step _ _ _ _ _ (store_run _ _ w Hl')).
    destruct (molting_entry_deals rec P w no r mo mc) as (fs1 & Hrun1 & Hm1); auto.
    { by constructor. }
    { intros rel Hu. apply HP. exists no. set_solver. }
    rewrite (C_bind_step _ _ _ _ _ Hrun1).
    destruct (IH lo lc (λ rel, P rel ∨ under (no :: r) rel) (with_fs w fs1)
      (Some (node_mode mo)) (Some (node_mode mc))) as (fs2 & Hrun2 & Hm2);
      eauto using listed_tail with prof; [lia| |].
    { intros rel Hcu [HP'|Hu'].
      - eapply HP, HP'. eapply common_under_mono, Hcu; set_solver.
      - destruct Hcu as (n & Hn1 & _ & Hu).
        pose proof (under_inj _ _ _ _ Hu Hu') as ->.
        eapply ssorted_head in Hso; [|exact Hn1]. by eapply bytes_lt_irrefl. }
    exists fs2. split; [exact Hrun2|]. eapply molted_ext; [exact Hm2|]. intros rel _. split.
    + intros [[?|?]|?]; [by left|right; exists no; set_solver|].
      right. eapply common_under_mono; [..|done]; set_solver.
    + intros [?|?%common_under_eq]; naive_solver.
  - eapply deals_with_sub; [apply (IH lo (nc :: lc) P w); eauto using listed_tail with prof|..].
    + simpl; lia.
    + intros rel Hcu. apply HP. eapply common_under_mono, Hcu; set_solver.
    + intros rel Hcu. eapply common_under_mono, Hcu; set_solver.
    + intros rel. by apply common_under_lt.
  - assert (bytes_lt nc no) as Hlt.
    { unfold bytes_lt. by rewrite (bytes_compare_antisym no nc), Hcmp. }
    eapply deals_with_sub; [apply (IH (no :: lo) lc P w); eauto using listed_tail with prof|..].
    + simpl; lia.
    + intros rel Hcu. apply HP. eapply common_under_mono, Hcu; set_solver.
    + intros rel Hcu. eapply common_under_mono, Hcu; set_solver.
    + intros rel. by apply common_under_gt.
Qed.

Lemma molting_dir_deals fuel r :
  fs_height fs0 < fuel + length (r ++ op) → rec_deals (molting_dir fuel) r.
Proof.
  revert r; induction fuel as [|fuel IH]; intros r Hf P w Hm Hv Ho Hc HP.
  { pose proof (fs_height_spec fs0 (r ++ op) ltac:(eauto)). lia. }
  cbn [molting_dir].
  destruct (scandir_run w _ _ (resolve_o P w r Hm Hv ltac:(eauto)) scandir_filter)
    as (lo & Hscan & Hso & Hlo); [by rewrite (molted_o P)|apply Hm|done|done|].
  rewrite (C_bind_step _ _ _ _ _ Hscan).
  destruct (scandir_run w _ _ (resolve_c P w r Hm Hv ltac:(eauto)) scandir_filter)
    as (lc & Hscanc & Hsc & Hlc); [by rewrite (molted_c P)|apply Hm|done|done|].
  rewrite (C_bind_step _ _ _ _ _ Hscanc).
  assert (listed op r lo) as Hlo'.
  { intros n Hn. rewrite <- (molted_o P _ Hm). by apply Hlo. }
  assert (listed cp r lc) as Hlc'.
  { intros n Hn. rewrite <- (molted_c P _ Hm). by apply Hlc. }
  assert (∀ rel, common_under r lo lc rel → strictly_under r rel) as Hsub.
  { intros rel (n & _ & _ & k & ->). exists (k ++ [n]).
    split; [by destruct k|]. by rewrite <- (assoc_L (++)). }
  destruct (molting_loop_deals (molting_dir fuel) r (S (length lo + length lc))
    lo lc P w None None) as (fs' & Hrun & Hm'); auto.
  { intros n. apply IH. cbn [app length]. lia. }
  exists fs'. split; [exact Hrun|]. eapply molted_ext; [exact Hm'|].
  intros rel Hs. split; [naive_solver|]. intros [?|(k & Hk & ->)]; [by left|]. right.
  destruct k as [|n k _] using rev_ind; [done|]. exists n.
  rewrite <- (assoc_L (++)) in *. cbn [app] in *.
  destruct Hs as [d (Hvis & o & c & Ho' & Hc' & _)%changed_Some].
  apply Forall_app in Hvis as [_ [Hn _]%Forall_cons].
  rewrite <- (assoc_L (++)) in Ho', Hc'.
  assert (∀ p m, fs0 !! (k ++ (n :: r) ++ p) = Some m → is_Some (fs0 !! ((n :: r) ++ p)))
    as Hanc.
  { intros p m Hp. destruct k as [|x k]; [by eauto|].
    assert (fs0 !! ((n :: r) ++ p) = Some NDir) as ->; [|eauto].
    eapply (fs_wf_ancestor fs0 (x :: k)); eauto using mo_wf. }
  split_and!; [apply Hlo|apply Hlc|by exists k]; (split; [|done]).
  - change (n :: r ++ op) with ((n :: r) ++ op). rewrite (molted_o P _ Hm). eauto.
  - change (n :: r ++ cp) with ((n :: r) ++ cp). rewrite (molted_c P _ Hm). eauto.
Qed.

(** Before the walk nothing has been dealt with. *)
Lemma molted_start : molted (λ _, False) fs0.
Proof.
  constructor; [apply Hpre|done|done|]. intros rel m Hne Hl.
  by rewrite (mo_fresh Hpre) in Hl.
Qed.

End walk.

(** ** [main] *)

Lemma molt_main_canon fuel argv0 w op cp :
  fs_wf (w_fs w) → w_fs w !! op = Some NDir → w_fs w !! cp = Some NDir →
  (zlen (path_str op) < BUFMAX)%Z → (zlen (path_str cp) < BUFMAX)%Z →
  main fuel [argv0; path_str op; path_str cp] w =
  main_checked fuel (path_str op) (path_str cp) w.
Proof.
  intros Hwf Hop Hcp Hlo Hlc.
  assert (resolve (w_fs w) (w_cwd w) (path_str op) = Some op) as Ho
    by (apply resolve_canon; eauto).
  assert (resolve (w_fs w) (w_cwd w) (path_str cp) = Some cp) as Hc
    by (apply resolve_canon; eauto).
  unfold main. crun access_run. crun access_run. cbn [negb orb].
  crun stat_run. crun stat_run.
  do 2 rewrite (C_bind_step _ _ _ _ _ (S_ISDIR_run NDir w)).
  rewrite bool_decide_true by done. cbn [negb orb].
  by crun abspath_canon; crun abspath_canon.
Qed.

(** The new directory changes nothing the walk looks at. *)
Lemma changed_file_insert fs op cp mp rel :
  apart op mp → apart cp mp → fs !! mp = None →
  changed_file (<[mp := NDir]> fs) op cp rel = changed_file fs op cp rel.
Proof.
  intros Ha Hb Hmp. unfold changed_file.
  assert (∀ p, apart p mp → <[mp := NDir]> fs !! (rel ++ p) = fs !! (rel ++ p)) as Hi.
  { intros p Hp. apply lookup_insert_ne. intros E. by apply (Hp rel []). }
  rewrite !Hi by done.
  destruct (fs !! (rel ++ op)) as [[o| |]|]; try done.
  destruct (fs !! (rel ++ cp)) as [[c| |]|]; try done.
  case_bool_decide; [|done].
  destruct (decide (parse_abs (record_path c) = mp)) as [->|Hne].
  - by rewrite lookup_insert_eq, Hmp.
  - by rewrite lookup_insert_ne.
Qed.

(** [main_checked] up to its call of [molting_dir]. *)
Lemma molt_main_checked_run fuel w n d o_path :
  let cp := (n ++ B "__skin") :: d in
  let mp := (n ++ B "__molt") :: d in
  fs_wf (w_fs w) → w_fs w !! cp = Some NDir → w_fs w !! mp = None → valid_name n →
  (zlen (path_str mp) < BUFMAX)%Z →
  main_checked fuel o_path (path_str cp) w =
  molting_dir fuel o_path (path_str cp) (path_str mp)
    (with_fs w (<[mp := NDir]> (w_fs w))).
Proof.
  intros cp mp Hwf Hcp Hmp Hn Hl. unfold main_checked.
  assert (w_fs w !! d = Some NDir) as Hd by (eapply (fs_wf_parent _ _ _ Hwf); eauto).
  assert (resolve (w_fs w) (w_cwd w) (path_str mp) = Some mp) as Hres.
  { apply resolve_canon_new; auto using valid_name_molt. }
  rewrite (C_bind_step _ _ _ _ _
    (cut_suffix_canon n d _ _ w (or_introl eq_refl) (or_intror eq_refl) Hl)).
  fold mp. rewrite (C_bind_step _ _ _ _ _ (access_absent _ _ _ Hres Hmp)).
  rewrite (C_bind_step _ _ w tt w) by done.
  rewrite (C_bind_step _ _ _ _ _ (mkdir_run _ _ _ Hres)).
  unfold mp at 2. cbn [mkdir_fs]. fold mp. by rewrite Hd, Hmp.
Qed.

(** ** The whole walk and the whole program *)

Lemma molting_dir_run w op cp mp fuel :
  molt_pre (w_fs w) op cp mp → fs_height (w_fs w) < fuel →
  ∃ fs', molting_dir fuel (path_str op) (path_str cp) (path_str mp) w =
      (Done tt, with_fs w fs') ∧
    fs_wf fs' ∧
    (∀ rel data, changed_file (w_fs w) op cp rel = Some data →
      fs' !! (rel ++ mp) = Some (NFile data)) ∧
    (∀ rel m, rel ≠ [] → fs' !! (rel ++ mp) = Some m →
      (∃ data, changed_file (w_fs w) op cp rel = Some data ∧ m = NFile data) ∨
      (m = NDir ∧ ∃ r, r ≠ [] ∧ is_Some (changed_file (w_fs w) op cp (r ++ rel)))) ∧
    (∀ q, (∀ r, r ≠ [] → q ≠ r ++ mp) → fs' !! q = w_fs w !! q).
Proof.
  intros Hpre Hf.
  destruct (molting_dir_deals (w_fs w) op cp mp Hpre fuel [] ltac:(lia)
    (λ _, False) w) as (fs' & Hrun & Hm).
  - by apply molted_start.
  - constructor.
  - apply Hpre.
  - apply Hpre.
  - auto.
  - exists fs'. split; [exact Hrun|]. destruct Hm as [Hwf Hframe Hdone Honly].
    split_and!; [done| | |done].
    + intros rel data Hc. apply Hdone; [|done]. right.
      exists rel. rewrite app_nil_r. split; [by eapply changed_nonroot|done].
    + intros rel m Hne Hl. apply Honly in Hl; naive_solver.
Qed.

Lemma main_molts_run w argv0 op n d fuel :
  let cp := (n ++ B "__skin") :: d in
  let mp := (n ++ B "__molt") :: d in
  fs_wf (w_fs w) → valid_name n → w_fs w !! mp = None →
  (zlen (path_str mp) < BUFMAX)%Z →
  molt_pre (<[mp := NDir]> (w_fs w)) op cp mp →
  fs_height (<[mp := NDir]> (w_fs w)) < fuel →
  ∃ fs', main fuel [argv0; path_str op; path_str cp] w = (Done tt, with_fs w fs') ∧
    fs_wf fs' ∧ fs' !! mp = Some NDir ∧
    (∀ rel data, changed_file (w_fs w) op cp rel = Some data →
      fs' !! (rel ++ mp) = Some (NFile data)) ∧
    (∀ rel m, rel ≠ [] → fs' !! (rel ++ mp) = Some m →
      (∃ data, changed_file (w_fs w) op cp rel = Some data ∧ m = NFile data) ∨
      (m = NDir ∧ ∃ r, r ≠ [] ∧ is_Some (changed_file (w_fs w) op cp (r ++ rel)))) ∧
    (∀ q, (∀ r, q ≠ r ++ mp) → fs' !! q = w_fs w !! q).
Proof.
  intros cp mp Hwf Hn Hmp Hl Hpre Hf.
  assert (∀ p, apart p mp → p ≠ mp) as Hne by (intros p Ha ->; by apply (Ha [] [])).
  assert (w_fs w !! op = Some NDir ∧ w_fs w !! cp = Some NDir) as [Hod Hcd].
  { split.
    - rewrite <- (mo_odir _ _ _ _ Hpre), lookup_insert_ne; [done|].
      intros <-. by destruct (Hne mp (mo_apart_o _ _ _ _ Hpre)).
    - rewrite <- (mo_cdir _ _ _ _ Hpre), lookup_insert_ne; [done|].
      intros E. destruct (Hne cp (mo_apart_c _ _ _ _ Hpre)). done. }
  destruct (mo_len_c _ _ _ _ Hpre []) as (Hlc & _); [constructor|..].
  { simpl. rewrite (mo_cdir _ _ _ _ Hpre). eauto. }
  assert (zlen (path_str op) < BUFMAX)%Z as Hlo.
  { apply (mo_len_o _ _ _ _ Hpre []); [constructor|]. simpl.
    rewrite (mo_odir _ _ _ _ Hpre). eauto. }
  rewrite molt_main_canon by done. unfold cp at 1. rewrite molt_main_checked_run by done.
  destruct (molting_dir_run (with_fs w (<[mp := NDir]> (w_fs w))) op cp mp fuel)
    as (fs' & Hrun & Hwf' & Hdone & Honly & Hframe); [done..|].
  exists fs'. split; [exact Hrun|].
  cbn [w_fs with_fs] in Hdone, Honly, Hframe.
  assert (∀ rel, changed_file (<[mp := NDir]> (w_fs w)) op cp rel =
    changed_file (w_fs w) op cp rel) as Hch.
  { intros rel. apply changed_file_insert; auto; apply Hpre. }
  split_and!; [done| | | |].
  - rewrite Hframe; [apply lookup_insert_eq|]. intros r Hr E. apply Hr.
    apply (f_equal length) in E. rewrite length_app in E. destruct r; [done|simpl in E; lia].
  - intros rel data. rewrite <- Hch. apply Hdone.
  - intros rel m. rewrite <- Hch. setoid_rewrite <- Hch. apply Honly.
  - intros q Hq. rewrite Hframe by auto. apply lookup_insert_ne.
    intros <-. by apply (Hq []).
Qed.

(** ** Properties *)

(** C5: [molting_dir] copies exactly the changed files.  Over two trees of
    records and an empty target directory, the call returns; afterwards the
    target holds, at every relative path whose digests differ, the content of
    the file the second tree's record names, the directories above such files,
    and nothing else; and no other entry of the file system has changed. *)
Theorem molting_dir_copies w op cp mp fuel :
  molt_pre (w_fs w) op cp mp → fs_height (w_fs w) < fuel →
  ∃ fs', molting_dir fuel (path_str op) (path_str cp) (path_str mp) w =
      (Done tt, with_fs w fs') ∧
    fs_wf fs' ∧
    (∀ rel data, changed_file (w_fs w) op cp rel = Some data →
      fs' !! (rel ++ mp) = Some (NFile data)) ∧
    (∀ rel m, rel ≠ [] → fs' !! (rel ++ mp) = Some m →
      (∃ data, changed_file (w_fs w) op cp rel = Some data ∧ m = NFile data) ∨
      (m = NDir ∧ ∃ r, r ≠ [] ∧ is_Some (changed_file (w_fs w) op cp (r ++ rel)))) ∧
    (∀ q, (∀ r, r ≠ [] → q ≠ r ++ mp) → fs' !! q = w_fs w !! q).
Proof. apply molting_dir_run. Qed.

(** C4: the whole program.  Run on the canonical names of two trees of records,
    the second called [<name>__skin], when [<name>__molt] does not exist yet,
    [molt] returns, makes [<name>__molt] next to the second tree and fills it
    with exactly the changed files; it prints nothing and changes nothing
    else. *)
Theorem main_molts w argv0 op n d fuel :
  let cp := (n ++ B "__skin") :: d in
  let mp := (n ++ B "__molt") :: d in
  fs_wf (w_fs w) → valid_name n → w_fs w !! mp = None →
  (zlen (path_str mp) < BUFMAX)%Z →
  molt_pre (<[mp := NDir]> (w_fs w)) op cp mp →
  fs_height (<[mp := NDir]> (w_fs w)) < fuel →
  ∃ fs', main fuel [argv0; path_str op; path_str cp] w = (Done tt, with_fs w fs') ∧
    fs_wf fs' ∧ fs' !! mp = Some NDir ∧
    (∀ rel data, changed_file (w_fs w) op cp rel = Some data →
      fs' !! (rel ++ mp) = Some (NFile data)) ∧
    (∀ rel m, rel ≠ [] → fs' !! (rel ++ mp) = Some m →
      (∃ data, changed_file (w_fs w) op cp rel = Some data ∧ m = NFile data) ∨
      (m = NDir ∧ ∃ r, r ≠ [] ∧ is_Some (changed_file (w_fs w) op cp (r ++ rel)))) ∧
    (∀ q, (∀ r, q ≠ r ++ mp) → fs' !! q = w_fs w !! q).
Proof. apply main_molts_run. Qed.

(** Where [<cmp>] has no underscore in its name the program computes with a
    null pointer: [strrchr] finds nothing, and the result is not tested. *)
Theorem main_no_underscore w fuel o_path c_path :
  UNDERSCORE ∉ c_path →
  main_checked fuel o_path c_path w =
    (Stopped (Undef "null pointer arithmetic"), w).
Proof.
  intros Hc. unfold main_checked, cut_suffix.
  by rewrite (proj2 (rfind_byte_None _ _) Hc).
Qed.

End molt.

(** ** A concrete run *)

(** The precondition, decided entry by entry. *)
Definition rec_o_check (m : node) : Prop :=
  match m with
  | NFile r => is_record r (record_hash r) (record_path r)
  | NDir => True
  | NDangling => False
  end.

Definition rec_c_check (fs : fsmap) (mp rel : path) (m : node) : Prop :=
  match m with
  | NFile r =>
      match fs !! parse_abs (record_path r) with
      | Some (NFile _) =>
          is_record r (record_hash r) (path_str (parse_abs (record_path r))) ∧
          ¬ under_path mp (parse_abs (record_path r)) ∧
          sh_word (path_str (parse_abs (record_path r))) ∧
          (4 + zlen (path_str (parse_abs (record_path r))) +
             zlen (path_str (rel ++ mp)) < BUFMAX)%Z
      | _ => False
      end
  | NDir => True
  | NDangling => False
  end.

#[export] Instance is_record_dec r h p : Decision (is_record r h p).
Proof. unfold is_record. apply _. Defined.
#[export] Instance rec_o_check_dec m : Decision (rec_o_check m).
Proof. destruct m; simpl; apply _. Defined.
#[export] Instance rec_c_check_dec fs mp rel m : Decision (rec_c_check fs mp rel m).
Proof.
  destruct m; simpl; try apply _. destruct (fs !! _) as [[]|]; apply _.
Defined.

Definition molt_check (fs : fsmap) (op cp mp : path) : Prop :=
  fs_wf fs ∧ (fs !! op = Some NDir ∧ fs !! cp = Some NDir ∧ fs !! mp = Some NDir) ∧
  map_Forall (λ q _, under_path mp q → length q ≤ length mp) fs ∧
  map_Forall (λ q m, under_path op q → visible (rel_to op q) → rec_o_check m ∧
    (zlen (path_str (rel_to op q ++ op)) < BUFMAX)%Z) fs ∧
  map_Forall (λ q m, under_path cp q → visible (rel_to cp q) →
    rec_c_check fs mp (rel_to cp q) m ∧
    (zlen (path_str (rel_to cp q ++ cp)) < BUFMAX)%Z ∧
    (20 + zlen (path_str (rel_to cp q ++ mp)) < BUFMAX)%Z ∧
    sh_word (path_str (rel_to cp q ++ mp))) fs.

#[export] Instance molt_check_dec fs op cp mp : Decision (molt_check fs op cp mp).
Proof. unfold molt_check. apply _. Defined.

Lemma molt_check_pre fs op cp mp :
  molt_check fs op cp mp → op ≠ [] ∧ cp ≠ [] ∧ mp ≠ [] →
  apart op mp → apart cp mp → molt_pre fs op cp mp.
Proof.
  intros (Hwf & (Ho & Hc & Hm) & Hfresh & Hco & Hcc) Hne Ha Hb.
  assert (∀ rel m, visible rel → fs !! (rel ++ op) = Some m →
    rec_o_check m ∧ (zlen (path_str (rel ++ op)) < BUFMAX)%Z) as Hco'.
  { intros rel m Hv Hl. specialize (Hco _ _ Hl (under_path_app _ _)).
    rewrite rel_to_app in Hco. by apply Hco. }
  assert (∀ rel m, visible rel → fs !! (rel ++ cp) = Some m →
    rec_c_check fs mp rel m ∧ (zlen (path_str (rel ++ cp)) < BUFMAX)%Z ∧
    (20 + zlen (path_str (rel ++ mp)) < BUFMAX)%Z ∧ sh_word (path_str (rel ++ mp))) as Hcc'.
  { intros rel m Hv Hl. specialize (Hcc _ _ Hl (under_path_app _ _)).
    rewrite rel_to_app in Hcc. by apply Hcc. }
  constructor; auto.
  - intros rel Hr. apply eq_None_not_Some. intros [m Hl].
    specialize (Hfresh _ _ Hl (under_path_app _ _)). simpl in Hfresh.
    rewrite length_app in Hfresh. destruct rel; [done|]. simpl in Hfresh. lia.
  - intros rel Hv Hl. by destruct (Hco' _ _ Hv Hl) as [[] _].
  - intros rel Hv Hl. by destruct (Hcc' _ _ Hv Hl) as [[] _].
  - intros rel r Hv Hl. destruct (Hco' _ _ Hv Hl) as [? _]. eauto.
  - intros rel r Hv Hl. destruct (Hcc' _ _ Hv Hl) as [Hr _]. simpl in Hr.
    destruct (fs !! parse_abs (record_path r)) as [[data| |]|] eqn:E; try done.
    destruct Hr as (Hr & Hu & Hw & Hlen).
    exists (record_hash r), (parse_abs (record_path r)), data. split_and!; try done.
    intros k Ek. apply Hu. rewrite Ek. apply under_path_app.
  - intros rel Hv [m Hl]. by apply (Hco' _ _ Hv Hl).
  - intros rel Hv [m Hl]. by apply (Hcc' _ _ Hv Hl).
Qed.

(** Two versions of a tree with their skins: [a.c] differs, [b.c] does not,
    [c.c] is only in the second. *)
Definition digits (c : Z) : bytes := replicate 32 c.
Definition rec_of (c : Z) (p : string) : bytes := digits c ++ PIPE :: B p ++ [NUL].

Definition ex_skins : fsmap := list_to_map [
  ([], NDir);
  ([B "org"], NDir);
  ([B "new"], NDir);
  ([B "lib"; B "org"], NDir);
  ([B "lib"; B "new"], NDir);
  ([B "a.c"; B "lib"; B "org"], NFile (B "int a;"));
  ([B "a.c"; B "lib"; B "new"], NFile (B "long a;"));
  ([B "b.c"; B "org"], NFile (B "int b;"));
  ([B "b.c"; B "new"], NFile (B "int b;"));
  ([B "c.c"; B "new"], NFile (B "int c;"));
  ([B "org__skin"], NDir);
  ([B "new__skin"], NDir);
  ([B "lib"; B "org__skin"], NDir);
  ([B "lib"; B "new__skin"], NDir);
  ([B "a.c"; B "lib"; B "org__skin"], NFile (rec_of 48 "/org/lib/a.c"));
  ([B "a.c"; B "lib"; B "new__skin"], NFile (rec_of 49 "/new/lib/a.c"));
  ([B "b.c"; B "org__skin"], NFile (rec_of 50 "/org/b.c"));
  ([B "b.c"; B "new__skin"], NFile (rec_of 50 "/new/b.c"));
  ([B "c.c"; B "new__skin"], NFile (rec_of 51 "/new/c.c"))].

Definition ex_molt : fsmap := <[[B "new__molt"] := NDir]> ex_skins.

Definition ex_world (fs : fsmap) : world := World fs [] [] [].

#[local] Existing Instance Sh.plain_sh.

Lemma ex_molt_pre : molt_pre ex_molt [B "org__skin"] [B "new__skin"] [B "new__molt"].
Proof.
  apply molt_check_pre; [vm_decide|done|apply apart_siblings; vm_decide..].
Qed.

Lemma molting_dir_copies_witness :
  ∃ fs', molting_dir 5 (B "/org__skin") (B "/new__skin") (B "/new__molt")
      (ex_world ex_molt) = (Done tt, with_fs (ex_world ex_molt) fs') ∧
    fs' !! [B "a.c"; B "lib"; B "new__molt"] = Some (NFile (B "long a;")) ∧
    fs' !! [B "b.c"; B "new__molt"] = None.
Proof.
  destruct (molting_dir_copies (ex_world ex_molt) [B "org__skin"] [B "new__skin"]
    [B "new__molt"] 5) as (fs' & Hrun & Hwf & Hdone & Honly & _).
  - exact ex_molt_pre.
  - vm_decide.
  - exists fs'. split; [exact Hrun|]. split.
    + apply (Hdone [B "a.c"; B "lib"]). vm_refl.
    + destruct (fs' !! _) as [m|] eqn:E; [|done].
      apply (Honly [B "b.c"]) in E as [(data & Hc & _)|(-> & r & Hr & Hc)].
      * by vm_compute in Hc.
      * apply (changed_above _ _ _ _ ex_molt_pre) in Hc; [|done]. by vm_compute in Hc.
      * done.
Defined.

Lemma main_molts_witness :
  ∃ fs', main 5 [B "molt"; B "/org__skin"; B "/new__skin"] (ex_world ex_skins) =
      (Done tt, with_fs (ex_world ex_skins) fs') ∧
    fs' !! [B "a.c"; B "lib"; B "new__molt"] = Some (NFile (B "long a;")) ∧
    fs' !! [B "b.c"; B "new"] = Some (NFile (B "int b;")).
Proof.
  destruct (main_molts (ex_world ex_skins) (B "molt") [B "org__skin"] (B "new") [] 5)
    as (fs' & Hrun & Hwf & Hd & Hdone & Honly & Hframe).
  - vm_decide.
  - vm_decide.
  - vm_refl.
  - vm_refl.
  - exact ex_molt_pre.
  - vm_decide.
  - exists fs'. split; [exact Hrun|]. split.
    + apply (Hdone [B "a.c"; B "lib"]). vm_refl.
    + rewrite Hframe; [vm_refl|]. intros r E. apply (f_equal (λ l, default [] (last l))) in E.
      rewrite last_app in E. simpl in E. by vm_compute in E.
Defined.

Lemma main_no_underscore_witness :
  main_checked 5 (B "/org__skin") (B "/new") (ex_world ex_skins) =
    (Stopped (Undef "null pointer arithmetic"), ex_world ex_skins).
Proof. apply main_no_underscore. vm_decide. Defined.

End Molt.
