(* ===== verification/SsuDiff.v ===== *)
(** * [ssu_diff] and [ssu_diff2]: what differs between two versions

    Model of [3-3/src/comp_kernel/ssu_diff.c] and [ssu_diff2.c].  The program
    walks the [__molt] trees of two versions side by side and reports the files
    that differ: a file in both trees when its digests in the two [__skin]
    trees differ, a file in one tree only against the original.  The two
    programs are the same text except for the report: [ssu_diff] prints a
    header and copies the output of [diff], [ssu_diff2] prints the two names. *)
From stdpp Require Import base sorting strings numbers gmap list.
From S2P Require Import Prelude Posix Tools Shell.

(** ** The report of one pair of files *)

(** What the walk relies on: on pairs that are [rp_ok], [rp_run] writes
    [rp_text] to standard output and does nothing else. *)
Definition say (w : world) (s : bytes) : world :=
  World (w_fs w) (w_cwd w) (w_out w ++ s) (w_err w).

Class Reporter := {
  rp_run : bytes → bytes → C unit;
  rp_text : fsmap → path → bytes → bytes → bytes;
  rp_ok : fsmap → path → bytes → bytes → Prop;
  rp_law w p1 p2 : rp_ok (w_fs w) (w_cwd w) p1 p2 →
    rp_run p1 p2 w = (Done tt, say w (rp_text (w_fs w) (w_cwd w) p1 p2));
}.

Module SsuDiff.

Section report.
Context `{Shell}.

(** [while (fgets(buf, BUFMAX, fp)) printf("%s", buf);] on the bytes still to
    read: a line, or 4095 bytes of it, at a time; ["%s"] stops at a NUL. *)
Definition fgets_line (rest : bytes) : bytes :=
  match find_byte NEWLINE (take (Z.to_nat (BUFMAX - 1)) rest) with
  | Some i => take (S i) rest
  | None => take (Z.to_nat (BUFMAX - 1)) rest
  end.

Definition cstring (buf : bytes) : bytes :=
  match find_byte NUL buf with
  | Some i => take i buf
  | None => buf
  end.

Fixpoint copy_lines (fuel : nat) (rest : bytes) : C unit :=
  match fuel with
  | 0 => halt OutOfFuel
  | S fuel =>
      match fgets_line rest with
      | [] => mret tt
      | buf => printf (cstring buf);; copy_lines fuel (drop (length buf) rest)
      end
  end.

(** The end of [diff_file] and the body of [diff_file_org] in [ssu_diff.c]. *)
Definition report (path1 path2 : bytes) : C unit :=
  cmdline ← store BUFMAX (B "diff " ++ path1 ++ B " " ++ path2);
  printf (B "diff " ++ path2 ++ [NEWLINE]);;
  fp ← popen cmdline;
  match fp with
  | None => undef "fgets from a null stream"
  | Some out => copy_lines (S (length out)) out
  end.

(** The same in [ssu_diff2.c]. *)
Definition report2 (path1 path2 : bytes) : C unit :=
  cmdline ← store BUFMAX (B "diff " ++ path1 ++ B " " ++ path2);
  printf (B "diff|" ++ path1 ++ B "|" ++ path2 ++ [NEWLINE]).

(** Copying the output line by line prints it as it is, when it has no NUL. *)
Lemma fgets_line_prefix rest : ∃ k, rest = fgets_line rest ++ k.
Proof.
  unfold fgets_line. case_match; eexists; symmetry; apply take_drop.
Qed.

Lemma fgets_line_nil rest : fgets_line rest = [] → rest = [].
Proof.
  unfold fgets_line. destruct rest as [|x rest]; [done|].
  case_match; simpl; [done|]. change (Z.to_nat (BUFMAX - 1)) with (S 4094). done.
Qed.

Lemma copy_lines_run fuel out w :
  length out < fuel → NUL ∉ out → copy_lines fuel out w = (Done tt, say w out).
Proof.
  revert out w; induction fuel as [|fuel IH]; intros out w Hf Hn; [lia|].
  cbn [copy_lines]. destruct (fgets_line out) as [|x l] eqn:E.
  - apply fgets_line_nil in E as ->. unfold say. rewrite app_nil_r. by destruct w.
  - destruct (fgets_line_prefix out) as [k Hk]. rewrite E in Hk. subst out.
    assert (cstring (x :: l) = x :: l) as ->.
    { unfold cstring. rewrite (proj2 (find_byte_None _ _)); [done|].
      intros Hin. apply Hn. set_solver. }
    rewrite (C_bind_step _ _ w tt (say w (x :: l))) by done.
    rewrite drop_app_length. rewrite IH.
    + unfold say. simpl. by rewrite <- (assoc_L (++)).
    + rewrite length_app in Hf. simpl in Hf. lia.
    + set_solver.
Qed.

Lemma report_law w p1 p2 out :
  (zlen (B "diff " ++ p1 ++ B " " ++ p2) < BUFMAX)%Z →
  popen_output (B "diff " ++ p1 ++ B " " ++ p2) (w_fs w) (w_cwd w) = Some out →
  NUL ∉ out →
  report p1 p2 w = (Done tt, say w (B "diff " ++ p2 ++ NEWLINE :: out)).
Proof.
  intros Hl Hp Hn. unfold report. crun (store_run _ _ w Hl).
  rewrite (C_bind_step _ _ w tt (say w (B "diff " ++ p2 ++ [NEWLINE]))) by done.
  rewrite (C_bind_step _ _ _ (Some out) (say w (B "diff " ++ p2 ++ [NEWLINE])))
    by (unfold popen, say; cbn [w_fs w_cwd]; by rewrite Hp).
  rewrite copy_lines_run by (done || lia). unfold say. cbn [w_fs w_cwd w_out w_err].
  by rewrite <- !(assoc_L (++)).
Qed.

Definition popen_text (fs : fsmap) (cwd : path) (p1 p2 : bytes) : bytes :=
  default [] (popen_output (B "diff " ++ p1 ++ B " " ++ p2) fs cwd).

(** The command line fits, [popen] works, and [diff] prints text. *)
Definition report2_ok (_ : fsmap) (_ : path) (p1 p2 : bytes) : Prop :=
  (zlen (B "diff " ++ p1 ++ B " " ++ p2) < BUFMAX)%Z.

Definition report_ok (fs : fsmap) (cwd : path) (p1 p2 : bytes) : Prop :=
  report2_ok fs cwd p1 p2 ∧
  is_Some (popen_output (B "diff " ++ p1 ++ B " " ++ p2) fs cwd) ∧
  (NUL ∉ popen_text fs cwd p1 p2).

Lemma reporter_law w p1 p2 :
  report_ok (w_fs w) (w_cwd w) p1 p2 →
  report p1 p2 w = (Done tt, say w
    (B "diff " ++ p2 ++ NEWLINE :: popen_text (w_fs w) (w_cwd w) p1 p2)).
Proof.
  unfold report_ok, popen_text. intros (Hl & [out Hp] & Hn). rewrite Hp in *. by apply report_law.
Qed.

Lemma reporter2_law w p1 p2 :
  report2_ok (w_fs w) (w_cwd w) p1 p2 →
  report2 p1 p2 w = (Done tt, say w (B "diff|" ++ p1 ++ B "|" ++ p2 ++ [NEWLINE])).
Proof. intros Hl. unfold report2. by crun (store_run _ _ w Hl). Qed.

Definition ssu_diff_reporter : Reporter := {|
  rp_run := report;
  rp_ok := report_ok;
  rp_text fs cwd p1 p2 := B "diff " ++ p2 ++ NEWLINE :: popen_text fs cwd p1 p2;
  rp_law := reporter_law;
|}.

Definition ssu_diff2_reporter : Reporter := {|
  rp_run := report2;
  rp_ok := report2_ok;
  rp_text _ _ p1 p2 := B "diff|" ++ p1 ++ B "|" ++ p2 ++ [NEWLINE];
  rp_law := reporter2_law;
|}.
End report.

(** ** The walk *)

Section walk.
Context `{Reporter}.

Definition diff_file (m_path1 m_path2 s_path1 s_path2 : bytes) : C unit :=
  d1 ← read_all s_path1;
  d2 ← read_all s_path2;
  let hash1 := <[HASHLEN - 1 := Some NUL]> (read_buf HASHLEN d1) in
  let hash2 := <[HASHLEN - 1 := Some NUL]> (read_buf HASHLEN d2) in
  same ← buf_streq hash1 hash2;
  if (same : bool) then mret tt else rp_run m_path1 m_path2.

Definition diff_file_org (path1 path2 : bytes) : C unit := rp_run path1 path2.

(** The [for] loop of [diff_dir] over the first [count] entries. *)
Fixpoint diff_entries (rec : bytes → bytes → C unit) (o_path m_path : bytes)
    (flag : bool) (st : option mode) (filelist : list name) : C unit :=
  match filelist with
  | [] => mret tt
  | d_name :: filelist =>
      tmp_m_path ← store BUFMAX (m_path ++ SLASH :: d_name);
      tmp_o_path ← store BUFMAX (o_path ++ SLASH :: d_name);
      st ← stat tmp_m_path st;
      isdir ← S_ISDIR st;
      (if (isdir : bool) then
         if negb flag then rec tmp_m_path tmp_o_path else rec tmp_o_path tmp_m_path
       else
         if negb flag then diff_file_org tmp_m_path tmp_o_path
         else diff_file_org tmp_o_path tmp_m_path);;
      diff_entries rec o_path m_path flag st filelist
  end.

(** [count = scandir(...) < 0] gives [count] the value of the comparison. *)
Fixpoint diff_dir (fuel : nat) (path1 path2 : bytes) (flag : bool) : C unit :=
  match fuel with
  | 0 => halt OutOfFuel
  | S fuel =>
      o_path ← store BUFMAX (if negb flag then path2 else path1);
      m_path ← store BUFMAX (if negb flag then path1 else path2);
      filelist ← scandir m_path scandir_filter;
      let count := match filelist with None => 1 | Some _ => 0 end in
      if bool_decide (count ≠ 0) then
        eprintf (B "in diff_dir, scandir error..." ++ [NEWLINE])
      else
        diff_entries (λ p1 p2, diff_dir fuel p1 p2 flag) o_path m_path flag None
          (take count (default [] filelist))
  end.

(** [if (S_ISDIR(a) && S_ISDIR(b)) x; else if (!S_ISDIR(a) && !S_ISDIR(b)) y;] *)
Definition if_both_dir (a b : option mode) (x y : C unit) : C unit :=
  d1 ← S_ISDIR a;
  both_dir ← (if (d1 : bool) then S_ISDIR b else mret false);
  if (both_dir : bool) then x
  else
    neither ← (if negb d1 then d2 ← S_ISDIR b; mret (negb d2) else mret false);
    if (neither : bool) then y else mret tt.

(** The [while] loop of [comp_dir]; [o_stat] is a variable of the two inner
    blocks, [m_stat1] and [m_stat2] live across the iterations. *)
Fixpoint comp_loop (fuel : nat)
    (rec : bytes → bytes → bytes → bytes → bytes → C unit)
    (diff_dir : bytes → bytes → bool → C unit)
    (o_path m_path1 m_path2 s_path1 s_path2 : bytes) (m_st1 m_st2 : option mode)
    (m_filelist1 m_filelist2 : list name) : C unit :=
  match fuel with
  | 0 => halt OutOfFuel
  | S fuel =>
    match m_filelist1, m_filelist2 with
    | name1 :: rest1, name2 :: rest2 =>
        tmp_m_path1 ← store BUFMAX (m_path1 ++ SLASH :: name1);
        tmp_m_path2 ← store BUFMAX (m_path2 ++ SLASH :: name2);
        tmp_s_path1 ← store BUFMAX (s_path1 ++ SLASH :: name1);
        tmp_s_path2 ← store BUFMAX (s_path2 ++ SLASH :: name2);
        m_st1 ← stat tmp_m_path1 m_st1;
        m_st2 ← stat tmp_m_path2 m_st2;
        let loop := comp_loop fuel rec diff_dir o_path m_path1 m_path2 s_path1 s_path2
                      m_st1 m_st2 in
        match bytes_compare name1 name2 with
        | Eq =>
            if_both_dir m_st1 m_st2
              (tmp_o_path ← store BUFMAX (o_path ++ SLASH :: name1);
               rec tmp_o_path tmp_m_path1 tmp_m_path2 tmp_s_path1 tmp_s_path2)
              (diff_file tmp_m_path1 tmp_m_path2 tmp_s_path1 tmp_s_path2);;
            loop rest1 rest2
        | Lt =>
            tmp_o_path ← store BUFMAX (o_path ++ SLASH :: name1);
            o_st ← stat tmp_o_path None;
            if_both_dir m_st1 o_st
              (diff_dir tmp_m_path1 tmp_o_path false)
              (diff_file_org tmp_m_path1 tmp_o_path);;
            loop rest1 m_filelist2
        | Gt =>
            tmp_o_path ← store BUFMAX (o_path ++ SLASH :: name2);
            o_st ← stat tmp_o_path None;
            if_both_dir o_st m_st2
              (diff_dir tmp_o_path tmp_m_path2 true)
              (diff_file_org tmp_o_path tmp_m_path2);;
            loop m_filelist1 rest2
        end
    | _, _ => mret tt
    end
  end.

Fixpoint comp_dir (fuel : nat) (o_path m_path1 m_path2 s_path1 s_path2 : bytes)
    : C unit :=
  match fuel with
  | 0 => halt OutOfFuel
  | S fuel =>
      m_filelist1 ← scandir m_path1 scandir_filter;
      match m_filelist1 with
      | None => eprintf (B "in function diff_dir: scandir error.." ++ [NEWLINE])
      | Some m_filelist1 =>
          m_filelist2 ← scandir m_path2 scandir_filter;
          match m_filelist2 with
          | None => eprintf (B "in function diff_dir: scandir error.." ++ [NEWLINE])
          | Some m_filelist2 =>
              comp_loop (S (length m_filelist1 + length m_filelist2))
                (comp_dir fuel) (diff_dir (S fuel)) o_path m_path1 m_path2
                s_path1 s_path2 None None m_filelist1 m_filelist2
          end
      end
  end.

(** ** [main] *)

(** From the derivation of the skin names on; [skin_path_org] is printed but
    nothing ever fills it. *)
Definition main_checked (fuel : nat) (org_path molt_path1 molt_path2 : bytes) : C unit :=
  skin_path1 ← cut_suffix molt_path1 (B "__skin");
  skin_path2 ← cut_suffix molt_path2 (B "__skin");
  printf (B "skin_path : " ++ skin_path1 ++ B " | " ++ skin_path2 ++ [NEWLINE]);;
  printf (B "molt_path : " ++ molt_path1 ++ B " | " ++ molt_path2 ++ [NEWLINE]);;
  a1 ← access skin_path1;
  a2 ← (if (a1 : bool) then access skin_path2 else mret true);
  if negb a1 || negb a2 then
    eprintf (B "skin paths are not exist.." ++ [NEWLINE]);; exit 1
  else
  st1 ← stat skin_path1 (Some IFDIR);
  st2 ← stat skin_path2 (Some IFDIR);
  d1 ← S_ISDIR st1;
  d2 ← (if (d1 : bool) then S_ISDIR st2 else mret true);
  if negb d1 || negb d2 then
    eprintf (B "skin path are not dir" ++ [NEWLINE]);; exit 1
  else
  printf (B " " ++ skin_path1 ++ B " " ++ skin_path2 ++ [NEWLINE]);;
  comp_dir fuel org_path molt_path1 molt_path2 skin_path1 skin_path2.

Definition main (fuel : nat) (argv : list bytes) : C unit :=
  let argv0 := default (B "(null)") (head argv) in
  match argv with
  | [_; argv1; argv2; argv3] =>
      a1 ← access argv1;
      a2 ← (if (a1 : bool) then access argv2 else mret true);
      a3 ← (if (a1 : bool) && (a2 : bool) then access argv3 else mret true);
      if negb a1 || negb a2 || negb a3 then
        eprintf (B "argv[1] or argv[2] don't exist.." ++ [NEWLINE]);; exit 1
      else
      st1 ← stat argv1 None;
      st2 ← stat argv2 None;
      st3 ← stat argv3 None;
      d1 ← S_ISDIR st1;
      d2 ← (if (d1 : bool) then S_ISDIR st2 else mret true);
      d3 ← (if (d1 : bool) && (d2 : bool) then S_ISDIR st3 else mret true);
      if negb d1 || negb d2 || negb d3 then
        eprintf (B "argv[1] or argv[2] or argv[3] are not dir" ++ [NEWLINE]);; exit 1
      else
      org_path ← abspath argv1;
      molt_path1 ← abspath argv2;
      molt_path2 ← abspath argv3;
      main_checked fuel org_path molt_path1 molt_path2
  | _ =>
      eprintf (B "usage : " ++ argv0 ++
               B " <molt path org> <molt path 1> <molt path 2>" ++ [NEWLINE]);;
      exit 1
  end.

(** ** [diff_dir] *)

Lemma diff_dir_run w fuel path1 path2 flag p :
  let m_path := if negb flag then path1 else path2 in
  resolve (w_fs w) (w_cwd w) m_path = Some p → w_fs w !! p = Some NDir →
  (zlen path1 < BUFMAX)%Z → (zlen path2 < BUFMAX)%Z →
  diff_dir (S fuel) path1 path2 flag w = (Done tt, w).
Proof.
  intros m_path Hr Hp Hl1 Hl2. cbn [diff_dir].
  rewrite (C_bind_step _ _ _ _ _ (store_run BUFMAX (if negb flag then path2 else path1)
    w ltac:(by destruct flag))).
  rewrite (C_bind_step _ _ _ _ _ (store_run BUFMAX m_path w ltac:(by destruct flag))).
  unfold scandir. rewrite C_bind_unfold.
  by rewrite (lookup_at_run w m_path p Hr NDir).
Qed.

(** ** What the walk reports *)

Section trees.
Context (fs : fsmap) (cwd : path) (op mp1 mp2 sp1 sp2 : path).

(** A name of one directory is met by the walk only if the other directory
    has a greater one: the loop ends with the shorter list. *)
Definition before_some (n : name) (p : path) : Prop :=
  Exists (λ n', scandir_filter n' = true ∧ bytes_lt n n') (children fs p).

Abbreviation file_at p := (match fs !! p with Some (NFile _) => true | _ => false end).

(** The table in the comment above [comp_dir]: a file of both versions is compared when
    the skins differ; a file that one version changed, directly or in a directory that
    only this version has, is compared with the original. *)
Definition table_at (rel : path) : option (path * path) :=
  if bool_decide (visible rel) then
    match fs !! (rel ++ mp1), fs !! (rel ++ mp2) with
    | Some (NFile _), Some (NFile _) =>
        match fs !! (rel ++ sp1), fs !! (rel ++ sp2) with
        | Some (NFile r1), Some (NFile r2) =>
            if bool_decide (take 32 r1 = take 32 r2) then None
            else Some (rel ++ mp1, rel ++ mp2)
        | _, _ => None
        end
    | Some (NFile _), None => if file_at (rel ++ op) then Some (rel ++ mp1, rel ++ op) else None
    | None, Some (NFile _) => if file_at (rel ++ op) then Some (rel ++ op, rel ++ mp2) else None
    | _, _ => None
    end
  else None.

(** Where the program departs from the table: a file of one version is passed over when it
    is in a directory that the other version lacks, because [diff_dir] compares nothing,
    and when the other version's directory has no greater name, because the loop ends
    with the shorter list. *)
Definition passed_over (rel : path) : Prop :=
  match rel with
  | [] => False
  | n :: r =>
      (fs !! (rel ++ mp2) = None ∧ ¬ (fs !! (r ++ mp2) = Some NDir ∧ before_some n (r ++ mp2))) ∨
      (fs !! (rel ++ mp1) = None ∧ ¬ (fs !! (r ++ mp1) = Some NDir ∧ before_some n (r ++ mp1)))
  end.

#[export] Instance before_some_dec n p : Decision (before_some n p).
Proof. unfold before_some. apply _. Defined.
#[export] Instance passed_over_dec rel : Decision (passed_over rel).
Proof. unfold passed_over. destruct rel; apply _. Defined.

(** The pair of files the walk reports for the place [rel]: the table without what is
    passed over, as the proofs use it ([report_at_table]). *)
Definition report_at (rel : path) : option (path * path) :=
  if bool_decide (visible rel) then
    match fs !! (rel ++ mp1), fs !! (rel ++ mp2), rel with
    | Some (NFile _), Some (NFile _), _ =>
        match fs !! (rel ++ sp1), fs !! (rel ++ sp2) with
        | Some (NFile r1), Some (NFile r2) =>
            if bool_decide (take 32 r1 = take 32 r2) then None
            else Some (rel ++ mp1, rel ++ mp2)
        | _, _ => None
        end
    | Some (NFile _), None, n :: r =>
        if bool_decide (fs !! (r ++ mp2) = Some NDir ∧ before_some n (r ++ mp2)) &&
           file_at (rel ++ op)
        then Some (rel ++ mp1, rel ++ op) else None
    | None, Some (NFile _), n :: r =>
        if bool_decide (fs !! (r ++ mp1) = Some NDir ∧ before_some n (r ++ mp1)) &&
           file_at (rel ++ op)
        then Some (rel ++ op, rel ++ mp2) else None
    | _, _, _ => None
    end
  else None.

(** A digest stands at the start of a record of [skin]. *)
Definition has_hash (r : bytes) : Prop := 33 ≤ length r ∧ is_cstr (take 32 r).

Record diff_pre : Prop := {
  df_wf : fs_wf fs;
  df_nonroot : op ≠ [] ∧ mp1 ≠ [] ∧ mp2 ≠ [] ∧ sp1 ≠ [] ∧ sp2 ≠ [];
  df_dir1 : fs !! mp1 = Some NDir;
  df_dir2 : fs !! mp2 = Some NDir;
  df_link1 rel : visible rel → fs !! (rel ++ mp1) ≠ Some NDangling;
  df_link2 rel : visible rel → fs !! (rel ++ mp2) ≠ Some NDangling;
  (** Every file of both trees has a record in both skins. *)
  df_hash rel p : visible rel → p ∈ [sp1; sp2] →
    file_at (rel ++ mp1) = true → file_at (rel ++ mp2) = true →
    ∃ r, fs !! (rel ++ p) = Some (NFile r) ∧ has_hash r;
  (** What the trees hold is in the original. *)
  df_org rel : visible rel →
    is_Some (fs !! (rel ++ mp1)) ∨ is_Some (fs !! (rel ++ mp2)) →
    ∃ m, fs !! (rel ++ op) = Some m ∧ m ≠ NDangling;
  (** Names fit their arrays. *)
  df_len rel p : visible rel → p ∈ [op; mp1; mp2; sp1; sp2] →
    is_Some (fs !! (rel ++ mp1)) ∨ is_Some (fs !! (rel ++ mp2)) →
    (zlen (path_str (rel ++ p)) < BUFMAX)%Z;
  df_ok rel p1 p2 : table_at rel = Some (p1, p2) → ¬ passed_over rel →
    rp_ok fs cwd (path_str p1) (path_str p2);
}.

Lemma report_at_table rel pq : fs !! mp1 = Some NDir → fs !! mp2 = Some NDir →
  report_at rel = Some pq ↔ table_at rel = Some pq ∧ ¬ passed_over rel.
Proof.
  intros Hd1 Hd2. unfold report_at, table_at, passed_over. case_bool_decide; [|naive_solver].
  destruct rel as [|n r]; [by cbn [app]; rewrite Hd1; naive_solver|].
  destruct (fs !! ((n :: r) ++ mp1)) as [[d1| |]|] eqn:E1;
    destruct (fs !! ((n :: r) ++ mp2)) as [[d2| |]|] eqn:E2; try naive_solver;
    repeat case_bool_decide; cbn [andb]; repeat case_match; naive_solver.
Qed.

Lemma df_report rel p1 p2 : diff_pre → report_at rel = Some (p1, p2) →
  rp_ok fs cwd (path_str p1) (path_str p2).
Proof. intros Hpre [??]%report_at_table; [by eapply df_ok|apply Hpre..]. Qed.

(** The text for a list of places. *)
Definition texts (l : list path) : bytes :=
  concat (omap (λ rel, (λ pq, rp_text fs cwd (path_str pq.1) (path_str pq.2)) <$>
                         report_at rel) l).

(** The same from the table. *)
Definition table_texts (l : list path) : bytes :=
  concat (omap (λ rel, (λ pq, rp_text fs cwd (path_str pq.1) (path_str pq.2)) <$>
                         table_at rel) l).

(** The walk in terms of the table. *)
Lemma texts_table l : diff_pre → (∀ rel, rel ∈ l ↔ is_Some (report_at rel)) →
  texts l = table_texts l ∧ ∀ rel, rel ∈ l ↔ is_Some (table_at rel) ∧ ¬ passed_over rel.
Proof.
  intros Hpre Hl. pose proof (df_dir1 Hpre) as H1. pose proof (df_dir2 Hpre) as H2. split.
  - unfold texts, table_texts. f_equal.
    assert (∀ rel, rel ∈ l → report_at rel = table_at rel) as E.
    { intros rel [pq Hpq]%Hl. rewrite Hpq. by apply report_at_table in Hpq as [-> _]. }
    clear Hl. induction l as [|rel l IH]; [done|]. cbn [omap list_omap].
    rewrite (E rel) by set_solver. rewrite IH by set_solver. done.
  - intros rel. rewrite Hl. unfold is_Some. setoid_rewrite report_at_table; [|done..]. naive_solver.
Qed.

(** A call at work on the places [Q] reports the pairs there, each once, and
    has no other effect. *)
Definition reports (Q : path → Prop) (w : world) (res : outcome unit * world) : Prop :=
  ∃ l, res = (Done tt, say w (texts l)) ∧ NoDup l ∧
    ∀ rel, rel ∈ l ↔ Q rel ∧ is_Some (report_at rel).

Definition here (w : world) : Prop := w_fs w = fs ∧ w_cwd w = cwd.

Lemma say_nil w : say w [] = w.
Proof. unfold say. rewrite app_nil_r. by destruct w. Qed.

Lemma say_say w s t : say (say w s) t = say w (s ++ t).
Proof. unfold say. simpl. by rewrite (assoc_L (++)). Qed.

Lemma reports_nothing (Q : path → Prop) w :
  (∀ rel, Q rel → report_at rel = None) → reports Q w (Done tt, w).
Proof.
  intros HQ. exists []. unfold texts. simpl. rewrite say_nil.
  split; [done|]. split; [constructor|]. intros rel.
  split; [by intros ?%not_elem_of_nil|]. intros [Hq%HQ Hs]. rewrite Hq in Hs.
  by destruct Hs.
Qed.

Lemma reports_ext (Q Q' : path → Prop) w res :
  reports Q w res → (∀ rel, is_Some (report_at rel) → Q rel ↔ Q' rel) →
  reports Q' w res.
Proof.
  intros (l & ? & ? & Hl) HQ. exists l. split_and!; [done..|].
  intros rel. rewrite Hl. specialize (HQ rel). naive_solver.
Qed.

Lemma reports_seq (Q1 Q2 : path → Prop) w (m k : C unit) :
  here w → reports Q1 w (m w) →
  (∀ w', here w' → reports Q2 w' (k w')) →
  (∀ rel, Q1 rel → Q2 rel → False) →
  reports (λ rel, Q1 rel ∨ Q2 rel) w ((m;; k) w).
Proof.
  intros Hw (l1 & Hm & Hn1 & Hl1) Hk Hd.
  destruct (Hk (say w (texts l1)) Hw) as (l2 & Hk2 & Hn2 & Hl2).
  exists (l1 ++ l2). split; [|split].
  - rewrite (C_bind_step _ _ _ _ _ Hm), Hk2, say_say. unfold texts.
    by rewrite omap_app, concat_app.
  - apply NoDup_app. split_and!; [done| |done].
    intros rel [? _]%Hl1 [? _]%Hl2. eauto.
  - intros rel. rewrite elem_of_app, Hl1, Hl2. naive_solver.
Qed.

Lemma reports_one rel p1 p2 w :
  here w → rp_ok fs cwd (path_str p1) (path_str p2) →
  report_at rel = Some (p1, p2) →
  reports (λ rel', rel' = rel) w (rp_run (path_str p1) (path_str p2) w).
Proof.
  intros [Hf Hc] Hok Hr. exists [rel]. split; [|split].
  - rewrite rp_law by (by rewrite Hf, Hc). rewrite Hf, Hc. unfold texts. simpl.
    rewrite Hr. simpl. by rewrite app_nil_r.
  - repeat constructor. set_solver.
  - intros rel'. rewrite list_elem_of_singleton. naive_solver.
Qed.

(** ** The walk *)

Context (Hpre : diff_pre).

Definition in_tree (rel : path) : Prop :=
  is_Some (fs !! (rel ++ mp1)) ∨ is_Some (fs !! (rel ++ mp2)).

Lemma resolve_at w rel p m :
  here w → visible rel → in_tree rel → p ∈ [op; mp1; mp2; sp1; sp2] →
  fs !! (rel ++ p) = Some m →
  resolve (w_fs w) (w_cwd w) (path_str (rel ++ p)) = Some (rel ++ p).
Proof.
  intros [Hf _] Hv Ht Hin Hm. rewrite Hf. apply resolve_canon; eauto using df_wf.
  by apply (df_len Hpre).
Qed.

Lemma stat_at w rel p m st :
  here w → visible rel → in_tree rel → p ∈ [op; mp1; mp2; sp1; sp2] →
  fs !! (rel ++ p) = Some m → m ≠ NDangling →
  stat (path_str (rel ++ p)) st w = (Done (Some (node_mode m)), w).
Proof.
  intros Hw Hv Ht Hin Hm Hd. eapply stat_run; eauto using resolve_at.
  by destruct Hw as [-> _].
Qed.

Lemma store_at w rel p :
  visible rel → in_tree rel → p ∈ [op; mp1; mp2; sp1; sp2] →
  store BUFMAX (path_str (rel ++ p)) w = (Done (path_str (rel ++ p)), w).
Proof. intros. apply store_run. by apply (df_len Hpre). Qed.

Lemma if_both_dir_run a b x y w :
  a ≠ NDangling → b ≠ NDangling →
  if_both_dir (Some (node_mode a)) (Some (node_mode b)) x y w =
  match a, b with
  | NDir, NDir => x w
  | NFile _, NFile _ => y w
  | _, _ => (Done tt, w)
  end.
Proof. by destruct a, b. Qed.

(** Something is reported below a place only if it is a directory of both
    trees. *)
Lemma report_at_below k q :
  k ≠ [] → is_Some (report_at (k ++ q)) →
  fs !! (q ++ mp1) = Some NDir ∧ fs !! (q ++ mp2) = Some NDir.
Proof.
  intros Hk [pq Hr]. unfold report_at in Hr. case_bool_decide; [|done].
  assert (∀ p m k', k' ≠ [] → fs !! ((k' ++ q) ++ p) = Some m → fs !! (q ++ p) = Some NDir)
    as Hanc.
  { intros p m k' Hk' Hm. rewrite <- (assoc_L (++)) in Hm.
    eapply fs_wf_ancestor; eauto using df_wf. }
  assert (∀ p k', fs !! ((k' ++ q) ++ p) = Some NDir → fs !! (q ++ p) = Some NDir) as Hanc'.
  { intros p [|x k'] Hm; [done|]. exact (Hanc _ _ (x :: k') ltac:(done) Hm). }
  destruct k as [|n k]; [done|]. cbn [app] in Hr.
  destruct (fs !! (n :: (k ++ q) ++ mp1)) as [[d1| |]|] eqn:E1; try done;
  destruct (fs !! (n :: (k ++ q) ++ mp2)) as [[d2| |]|] eqn:E2; try done.
  - split; [by apply (Hanc _ _ (n :: k)) in E1|by apply (Hanc _ _ (n :: k)) in E2].
  - destruct (bool_decide _) eqn:Hb; [|done]. bool_to_prop. destruct Hb as [Hb _].
    split; [by apply (Hanc _ _ (n :: k)) in E1|exact (Hanc' _ _ Hb)].
  - destruct (bool_decide _) eqn:Hb; [|done]. bool_to_prop. destruct Hb as [Hb _].
    split; [exact (Hanc' _ _ Hb)|by apply (Hanc _ _ (n :: k)) in E2].
Qed.

Lemma before_some_spec n p :
  before_some n p ↔
  ∃ n', scandir_filter n' = true ∧ is_Some (fs !! (n' :: p)) ∧ bytes_lt n n'.
Proof.
  unfold before_some. rewrite Exists_exists. setoid_rewrite elem_of_children.
  naive_solver.
Qed.

(** A file of both trees. *)
Lemma diff_file_reports w rel d1 d2 :
  here w → visible rel → fs !! (rel ++ mp1) = Some (NFile d1) →
  fs !! (rel ++ mp2) = Some (NFile d2) →
  reports (λ rel', rel' = rel) w
    (diff_file (path_str (rel ++ mp1)) (path_str (rel ++ mp2))
       (path_str (rel ++ sp1)) (path_str (rel ++ sp2)) w).
Proof.
  intros Hw Hv H1 H2. assert (in_tree rel) as Ht by (left; eauto).
  destruct (df_hash Hpre rel sp1) as (r1 & Hr1 & Hl1 & Hc1);
    [done|set_solver|by rewrite H1|by rewrite H2|].
  destruct (df_hash Hpre rel sp2) as (r2 & Hr2 & Hl2 & Hc2);
    [done|set_solver|by rewrite H1|by rewrite H2|].
  assert (resolve (w_fs w) (w_cwd w) (path_str (rel ++ sp1)) = Some (rel ++ sp1)) as Hs1
    by (eapply resolve_at; eauto; set_solver).
  assert (resolve (w_fs w) (w_cwd w) (path_str (rel ++ sp2)) = Some (rel ++ sp2)) as Hs2
    by (eapply resolve_at; eauto; set_solver).
  unfold diff_file. rewrite <- (proj1 Hw) in Hr1, Hr2.
  rewrite (C_bind_step _ _ _ _ _ (read_all_run _ _ _ Hs1 r1 Hr1)).
  rewrite (C_bind_step _ _ _ _ _ (read_all_run _ _ _ Hs2 r2 Hr2)).
  cbv zeta. rewrite !hash_buf by done.
  rewrite (C_bind_step _ _ _ _ _ (buf_streq_run _ _ [] [] w Hc1 Hc2)).
  rewrite (proj1 Hw) in Hr1, Hr2.
  assert (report_at rel = if bool_decide (take 32 r1 = take 32 r2) then None
    else Some (rel ++ mp1, rel ++ mp2)) as Hrep.
  { unfold report_at. by rewrite bool_decide_eq_true_2, H1, H2, Hr1, Hr2. }
  case_bool_decide.
  - apply reports_nothing. by intros ? ->.
  - by eapply reports_one; eauto using df_report.
Qed.

Lemma reports_under w n r m :
  reports (λ rel, rel = n :: r) w m →
  fs !! ((n :: r) ++ mp1) ≠ Some NDir ∨ fs !! ((n :: r) ++ mp2) ≠ Some NDir →
  reports (under (n :: r)) w m.
Proof.
  intros Hr Hd. eapply reports_ext; [exact Hr|]. intros rel Hs.
  split; [intros ->; by exists []|]. intros [k ->].
  destruct k as [|x k]; [done|]. exfalso.
  apply report_at_below in Hs; [|done]. naive_solver.
Qed.

(** What the recursive call does. *)
Definition rec_reports (rec : bytes → bytes → bytes → bytes → bytes → C unit)
    (r : path) : Prop :=
  ∀ w, here w → visible r →
    fs !! (r ++ mp1) = Some NDir → fs !! (r ++ mp2) = Some NDir →
    reports (strictly_under r) w
      (rec (path_str (r ++ op)) (path_str (r ++ mp1)) (path_str (r ++ mp2))
         (path_str (r ++ sp1)) (path_str (r ++ sp2)) w).

Lemma report_at_dir rel :
  fs !! (rel ++ mp1) = Some NDir ∨ fs !! (rel ++ mp2) = Some NDir → report_at rel = None.
Proof.
  intros Hd. unfold report_at. case_bool_decide; [|done].
  destruct Hd as [->| ->]; repeat case_match; done.
Qed.

(** A name in both directories. *)
Lemma both_reports rec w n r m1 m2 :
  rec_reports rec (n :: r) → here w → visible (n :: r) →
  fs !! ((n :: r) ++ mp1) = Some m1 → fs !! ((n :: r) ++ mp2) = Some m2 →
  reports (under (n :: r)) w
    (if_both_dir (Some (node_mode m1)) (Some (node_mode m2))
      (tmp_o_path ← store BUFMAX (path_str ((n :: r) ++ op));
       rec tmp_o_path (path_str ((n :: r) ++ mp1)) (path_str ((n :: r) ++ mp2))
         (path_str ((n :: r) ++ sp1)) (path_str ((n :: r) ++ sp2)))
      (diff_file (path_str ((n :: r) ++ mp1)) (path_str ((n :: r) ++ mp2))
         (path_str ((n :: r) ++ sp1)) (path_str ((n :: r) ++ sp2))) w).
Proof.
  intros Hrec Hw Hv H1 H2. assert (in_tree (n :: r)) as Ht by (left; eauto).
  assert (m1 ≠ NDangling) as Hm1 by (intros ->; by apply (df_link1 Hpre) in H1).
  assert (m2 ≠ NDangling) as Hm2 by (intros ->; by apply (df_link2 Hpre) in H2).
  rewrite if_both_dir_run by done.
  assert (report_at (n :: r) = None → fs !! ((n :: r) ++ mp1) ≠ Some NDir ∨
    fs !! ((n :: r) ++ mp2) ≠ Some NDir → reports (under (n :: r)) w (Done tt, w)) as Hskip.
  { intros Hn Hd. apply reports_under; [|done]. apply reports_nothing. by intros ? ->. }
  destruct m1 as [d1| |], m2 as [d2| |]; try done.
  - apply reports_under; [|left; congruence]. by eapply diff_file_reports.
  - apply Hskip; [apply report_at_dir; by right|left; congruence].
  - apply Hskip; [apply report_at_dir; by left|right; congruence].
  - rewrite (C_bind_step _ _ _ _ _ (store_at w (n :: r) op Hv Ht ltac:(set_solver))).
    eapply reports_ext; [by apply Hrec|]. intros rel Hs. split.
    + intros (k & _ & ->). by exists k.
    + intros [k ->]. exists k. split; [|done]. intros ->.
      rewrite report_at_dir in Hs; [by destruct Hs|by left].
Qed.

(** A name in the first directory only, and in the second only. *)
Lemma only1_reports fuel w n r m1 mo :
  here w → visible (n :: r) → fs !! (r ++ mp2) = Some NDir →
  fs !! ((n :: r) ++ mp1) = Some m1 → fs !! ((n :: r) ++ mp2) = None →
  before_some n (r ++ mp2) → fs !! ((n :: r) ++ op) = Some mo → mo ≠ NDangling →
  reports (under (n :: r)) w
    (if_both_dir (Some (node_mode m1)) (Some (node_mode mo))
      (diff_dir (S fuel) (path_str ((n :: r) ++ mp1)) (path_str ((n :: r) ++ op)) false)
      (diff_file_org (path_str ((n :: r) ++ mp1)) (path_str ((n :: r) ++ op))) w).
Proof.
  intros Hw Hv Hd H1 H2 Hb Ho Hmo. assert (in_tree (n :: r)) as Ht by (left; eauto).
  assert (m1 ≠ NDangling) as Hm1 by (intros ->; by apply (df_link1 Hpre) in H1).
  rewrite if_both_dir_run by done. apply reports_under; [|right; congruence].
  assert (report_at (n :: r) =
    match m1, mo with
    | NFile _, NFile _ => Some ((n :: r) ++ mp1, (n :: r) ++ op)
    | _, _ => None
    end) as Hrep.
  { unfold report_at. rewrite bool_decide_eq_true_2, H1, H2, Ho by done.
    rewrite bool_decide_eq_true_2 by done. by destruct m1, mo. }
  destruct m1, mo; try done; try (apply reports_nothing; by intros ? ->).
  - by eapply reports_one; eauto using df_report.
  - assert (resolve (w_fs w) (w_cwd w) (path_str ((n :: r) ++ mp1)) =
      Some ((n :: r) ++ mp1)) as Hr by (eapply resolve_at; eauto; set_solver).
    rewrite (diff_dir_run w fuel _ _ false _ Hr); [|by rewrite (proj1 Hw)|
      apply (df_len Hpre); [done|set_solver|done]..].
    apply reports_nothing. by intros ? ->.
Qed.

Lemma only2_reports fuel w n r m2 mo :
  here w → visible (n :: r) → fs !! (r ++ mp1) = Some NDir →
  fs !! ((n :: r) ++ mp2) = Some m2 → fs !! ((n :: r) ++ mp1) = None →
  before_some n (r ++ mp1) → fs !! ((n :: r) ++ op) = Some mo → mo ≠ NDangling →
  reports (under (n :: r)) w
    (if_both_dir (Some (node_mode mo)) (Some (node_mode m2))
      (diff_dir (S fuel) (path_str ((n :: r) ++ op)) (path_str ((n :: r) ++ mp2)) true)
      (diff_file_org (path_str ((n :: r) ++ op)) (path_str ((n :: r) ++ mp2))) w).
Proof.
  intros Hw Hv Hd H2 H1 Hb Ho Hmo. assert (in_tree (n :: r)) as Ht by (right; eauto).
  assert (m2 ≠ NDangling) as Hm2 by (intros ->; by apply (df_link2 Hpre) in H2).
  rewrite if_both_dir_run by done. apply reports_under; [|left; congruence].
  assert (report_at (n :: r) =
    match mo, m2 with
    | NFile _, NFile _ => Some ((n :: r) ++ op, (n :: r) ++ mp2)
    | _, _ => None
    end) as Hrep.
  { unfold report_at. rewrite bool_decide_eq_true_2, H1, H2, Ho by done.
    rewrite bool_decide_eq_true_2 by done. by destruct m2, mo. }
  destruct mo, m2; try done; try (apply reports_nothing; by intros ? ->).
  - by eapply reports_one; eauto using df_report.
  - assert (resolve (w_fs w) (w_cwd w) (path_str ((n :: r) ++ mp2)) =
      Some ((n :: r) ++ mp2)) as Hr by (eapply resolve_at; eauto; set_solver).
    rewrite (diff_dir_run w fuel _ _ true _ Hr); [|by rewrite (proj1 Hw)|
      apply (df_len Hpre); [done|set_solver|done]..].
    apply reports_nothing. by intros ? ->.
Qed.

(** The names of a list are visible entries of [r] in the tree [p]. *)
Definition listed (p r : path) (l : list name) : Prop :=
  ∀ n, n ∈ l → is_Some (fs !! ((n :: r) ++ p)) ∧ scandir_filter n = true.

(** Every visible entry of [r] in the tree [p] is still in [l'], or smaller
    than all of [l]. *)
Definition past (p r : path) (l' l : list name) : Prop :=
  ∀ n n', n ∈ l → scandir_filter n' = true → is_Some (fs !! ((n' :: r) ++ p)) →
    n' ∈ l' ∨ bytes_lt n' n.

Definition some_under (r : path) (l1 l2 : list name) (rel : path) : Prop :=
  ∃ n, (n ∈ l1 ∨ n ∈ l2) ∧ under (n :: r) rel.

Lemma listed_tail_at p r n l : listed p r (n :: l) → listed p r l.
Proof. intros Hl n' Hn'. apply Hl. set_solver. Qed.

(** Taking a name off the lists. *)
Lemma past_drop p r n l' x l : ssorted (x :: l) → bytes_le n x →
  past p r (n :: l') (x :: l) → past p r l' l.
Proof.
  intros Hs Hle Hp m n' Hm Hf Hn'. destruct (Hp m n') as [Hin|?]; [set_solver|done..| |by right].
  apply elem_of_cons in Hin as [->|?]; [|by left]. right.
  pose proof (ssorted_head _ _ _ Hs Hm).
  apply bytes_le_lt_eq in Hle as [?| ->]; eauto using bytes_lt_trans.
Qed.

Lemma past_drop_keep p r n l' x l : ssorted (x :: l) → bytes_lt n x →
  past p r (n :: l') (x :: l) → past p r l' (x :: l).
Proof.
  intros Hs Hlt Hp m n' Hm Hf Hn'. destruct (Hp m n') as [Hin|?]; [done..| |by right].
  apply elem_of_cons in Hin as [->|?]; [|by left]. right.
  apply elem_of_cons in Hm as [->|Hm]; [done|].
  eauto using bytes_lt_trans, ssorted_head.
Qed.

Lemma past_tail p r l' x l : past p r l' (x :: l) → past p r l' l.
Proof. intros Hp m n' Hm. apply Hp. set_solver. Qed.

(** A name that comes before the whole other list is not in the other tree. *)
Lemma past_absent p r n l' x l :
  past p r (x :: l') (n :: l) → ssorted (x :: l') → bytes_lt n x →
  scandir_filter n = true → fs !! ((n :: r) ++ p) = None.
Proof.
  intros Hp Hs Hlt Hf. apply eq_None_not_Some. intros Hn.
  destruct (Hp n n) as [Hin|Hlt']; [set_solver|done..| |].
  - by apply (ssorted_below n x l').
  - by apply bytes_lt_irrefl in Hlt'.
Qed.

(** When one list is used up nothing more is to be reported. *)
Lemma past_end_absent p r n l :
  past p r [] l → n ∈ l → scandir_filter n = true → fs !! ((n :: r) ++ p) = None.
Proof.
  intros Hp Hn Hf. apply eq_None_not_Some. intros Hs.
  destruct (Hp n n) as [?|Hlt]; auto; [set_solver|by apply bytes_lt_irrefl in Hlt].
Qed.

Lemma past_end_before p r n l : past p r [] l → n ∈ l → ¬ before_some n (r ++ p).
Proof.
  intros Hp Hn (n' & Hf' & Hn' & Hlt)%before_some_spec.
  destruct (Hp n n') as [?|Hlt']; auto; [set_solver|].
  by apply (bytes_lt_irrefl n); eauto using bytes_lt_trans.
Qed.

Lemma report_at_visible rel : is_Some (report_at rel) → visible rel.
Proof. unfold report_at. case_bool_decide; [done|]. by intros []. Qed.

Lemma report_at_absent n r :
  (fs !! ((n :: r) ++ mp1) = None ∧ ¬ before_some n (r ++ mp1)) ∨
  (fs !! ((n :: r) ++ mp2) = None ∧ ¬ before_some n (r ++ mp2)) →
  report_at (n :: r) = None.
Proof.
  intros Hc. unfold report_at. case_bool_decide; [|done].
  destruct Hc as [[-> Hb]|[-> Hb]].
  - destruct (fs !! ((n :: r) ++ mp2)) as [[]|]; try done.
    by rewrite bool_decide_eq_false_2 by (by intros []).
  - destruct (fs !! ((n :: r) ++ mp1)) as [[]|]; try done.
    by rewrite bool_decide_eq_false_2 by (by intros []).
Qed.

Lemma past_end r n l rel :
  past mp1 r [] l ∨ past mp2 r [] l → n ∈ l → under (n :: r) rel → report_at rel = None.
Proof.
  intros Hp Hn [k ->]. apply eq_None_not_Some. intros Hs.
  pose proof (report_at_visible _ Hs) as Hvis.
  apply Forall_app in Hvis as [_ [Hf _]%Forall_cons].
  assert (fs !! ((n :: r) ++ mp1) = None ∧ ¬ before_some n (r ++ mp1) ∨
          fs !! ((n :: r) ++ mp2) = None ∧ ¬ before_some n (r ++ mp2)) as Habs.
  { destruct Hp; [left|right]; eauto using past_end_absent, past_end_before. }
  destruct k as [|x k].
  - simpl in Hs. rewrite report_at_absent in Hs by done. by destruct Hs.
  - destruct (report_at_below (x :: k) (n :: r)) as [? ?]; [done|done|].
    destruct Habs as [[? _]|[? _]]; congruence.
Qed.

(** The head of an iteration: the names are formed and looked up. *)
Lemma comp_loop_step rec dd r fuel n1 l1 n2 l2 w st1 st2 m1 m2 :
  here w → visible (n1 :: r) → visible (n2 :: r) →
  fs !! ((n1 :: r) ++ mp1) = Some m1 → fs !! ((n2 :: r) ++ mp2) = Some m2 →
  comp_loop (S fuel) rec dd (path_str (r ++ op)) (path_str (r ++ mp1))
    (path_str (r ++ mp2)) (path_str (r ++ sp1)) (path_str (r ++ sp2)) st1 st2
    (n1 :: l1) (n2 :: l2) w =
  let loop := comp_loop fuel rec dd (path_str (r ++ op)) (path_str (r ++ mp1))
    (path_str (r ++ mp2)) (path_str (r ++ sp1)) (path_str (r ++ sp2))
    (Some (node_mode m1)) (Some (node_mode m2)) in
  match bytes_compare n1 n2 with
  | Eq =>
      (if_both_dir (Some (node_mode m1)) (Some (node_mode m2))
        (tmp_o_path ← store BUFMAX (path_str ((n1 :: r) ++ op));
         rec tmp_o_path (path_str ((n1 :: r) ++ mp1)) (path_str ((n2 :: r) ++ mp2))
           (path_str ((n1 :: r) ++ sp1)) (path_str ((n2 :: r) ++ sp2)))
        (diff_file (path_str ((n1 :: r) ++ mp1)) (path_str ((n2 :: r) ++ mp2))
           (path_str ((n1 :: r) ++ sp1)) (path_str ((n2 :: r) ++ sp2)));;
       loop l1 l2) w
  | Lt =>
      (tmp_o_path ← store BUFMAX (path_str ((n1 :: r) ++ op));
       o_st ← stat tmp_o_path None;
       if_both_dir (Some (node_mode m1)) o_st
         (dd (path_str ((n1 :: r) ++ mp1)) tmp_o_path false)
         (diff_file_org (path_str ((n1 :: r) ++ mp1)) tmp_o_path);;
       loop l1 (n2 :: l2)) w
  | Gt =>
      (tmp_o_path ← store BUFMAX (path_str ((n2 :: r) ++ op));
       o_st ← stat tmp_o_path None;
       if_both_dir o_st (Some (node_mode m2))
         (dd tmp_o_path (path_str ((n2 :: r) ++ mp2)) true)
         (diff_file_org tmp_o_path (path_str ((n2 :: r) ++ mp2)));;
       loop (n1 :: l1) l2) w
  end.
Proof.
  intros Hw Hv1 Hv2 H1 H2. destruct (df_nonroot Hpre) as (? & ? & ? & ? & ?).
  assert (in_tree (n1 :: r)) as Ht1 by (left; eauto).
  assert (in_tree (n2 :: r)) as Ht2 by (right; eauto).
  cbn [comp_loop]. rewrite !name_child by done.
  rewrite (C_bind_step _ _ _ _ _ (store_at w (n1 :: r) mp1 Hv1 Ht1 ltac:(set_solver))).
  rewrite (C_bind_step _ _ _ _ _ (store_at w (n2 :: r) mp2 Hv2 Ht2 ltac:(set_solver))).
  rewrite (C_bind_step _ _ _ _ _ (store_at w (n1 :: r) sp1 Hv1 Ht1 ltac:(set_solver))).
  rewrite (C_bind_step _ _ _ _ _ (store_at w (n2 :: r) sp2 Hv2 Ht2 ltac:(set_solver))).
  rewrite (C_bind_step _ _ _ _ _ (stat_at w (n1 :: r) mp1 m1 st1 Hw Hv1 Ht1
    ltac:(set_solver) H1 ltac:(intros ->; by apply (df_link1 Hpre) in H1))).
  rewrite (C_bind_step _ _ _ _ _ (stat_at w (n2 :: r) mp2 m2 st2 Hw Hv2 Ht2
    ltac:(set_solver) H2 ltac:(intros ->; by apply (df_link2 Hpre) in H2))).
  by destruct (bytes_compare n1 n2).
Qed.

(** What is done for one name, then for the rest. *)
Lemma reports_then r n l1 l2 l1' l2' w (m k : C unit) :
  here w → reports (under (n :: r)) w (m w) →
  (∀ w', here w' → reports (some_under r l1' l2') w' (k w')) →
  n ∉ l1' → n ∉ l2' →
  (∀ x, x ∈ l1 ∨ x ∈ l2 ↔ x = n ∨ x ∈ l1' ∨ x ∈ l2') →
  reports (some_under r l1 l2) w ((m;; k) w).
Proof.
  intros Hw Hm Hk Hn1 Hn2 Hset. eapply reports_ext.
  - apply reports_seq; [exact Hw|exact Hm|exact Hk|].
    intros rel Hu (x & Hx & Hu'). pose proof (under_inj _ _ _ _ Hu Hu') as ->.
    naive_solver.
  - intros rel _. unfold some_under. setoid_rewrite Hset. naive_solver.
Qed.

Record loop_pre (r : path) (l1 l2 : list name) : Prop := {
  lp_sort1 : ssorted l1;
  lp_sort2 : ssorted l2;
  lp_list1 : listed mp1 r l1;
  lp_list2 : listed mp2 r l2;
  lp_past1 : past mp1 r l1 l2;
  lp_past2 : past mp2 r l2 l1;
}.

Lemma loop_pre_eq r n l1 l2 : loop_pre r (n :: l1) (n :: l2) → loop_pre r l1 l2.
Proof.
  intros []. constructor; eauto using listed_tail_at with prof.
  - eapply past_drop; eauto. by apply bytes_le_lt_eq; right.
  - eapply past_drop; eauto. by apply bytes_le_lt_eq; right.
Qed.

Lemma loop_pre_lt r n1 l1 n2 l2 :
  bytes_lt n1 n2 → loop_pre r (n1 :: l1) (n2 :: l2) → loop_pre r l1 (n2 :: l2).
Proof.
  intros Hlt []. constructor; eauto using listed_tail_at, past_tail with prof.
  eapply past_drop_keep; eauto.
Qed.

Lemma loop_pre_gt r n1 l1 n2 l2 :
  bytes_lt n2 n1 → loop_pre r (n1 :: l1) (n2 :: l2) → loop_pre r (n1 :: l1) l2.
Proof.
  intros Hlt []. constructor; eauto using listed_tail_at, past_tail with prof.
  eapply past_drop_keep; eauto.
Qed.

Lemma ssorted_notin x l : ssorted (x :: l) → x ∉ l.
Proof. intros Hs Hin. by apply (bytes_lt_irrefl x); eapply ssorted_head. Qed.

Lemma before_some_intro p r n n' :
  is_Some (fs !! ((n' :: r) ++ p)) → scandir_filter n' = true → bytes_lt n n' →
  before_some n (r ++ p).
Proof. intros. apply before_some_spec. eauto. Qed.

Lemma comp_loop_reports rec dfuel r fuel l1 l2 w st1 st2 :
  length l1 + length l2 < fuel → (∀ n, rec_reports rec (n :: r)) → visible r →
  fs !! (r ++ mp1) = Some NDir → fs !! (r ++ mp2) = Some NDir →
  loop_pre r l1 l2 → here w →
  reports (some_under r l1 l2) w
    (comp_loop fuel rec (diff_dir (S dfuel)) (path_str (r ++ op)) (path_str (r ++ mp1))
       (path_str (r ++ mp2)) (path_str (r ++ sp1)) (path_str (r ++ sp2)) st1 st2 l1 l2 w).
Proof.
  intros Hf Hrec Hv Hd1 Hd2. revert l1 l2 w st1 st2 Hf.
  induction fuel as [|fuel IH]; intros l1 l2 w st1 st2 Hf Hlp Hw; [lia|].
  destruct l1 as [|n1 l1]; [|destruct l2 as [|n2 l2]].
  { apply reports_nothing. intros rel (n & [Hn|Hn] & Hu); [set_solver|].
    eapply past_end; [left; apply Hlp|done|done]. }
  { apply reports_nothing. intros rel (n & [Hn|Hn] & Hu); [|set_solver].
    eapply past_end; [right; apply Hlp|done|done]. }
  destruct (lp_list1 _ _ _ Hlp n1) as [[m1 H1] Hf1]; [set_solver|].
  destruct (lp_list2 _ _ _ Hlp n2) as [[m2 H2] Hf2]; [set_solver|].
  assert (visible (n1 :: r) ∧ visible (n2 :: r)) as [Hv1 Hv2] by (by split; constructor).
  rewrite (comp_loop_step rec _ r fuel n1 l1 n2 l2 w st1 st2 m1 m2) by done.
  cbv zeta. simpl in Hf.
  pose proof (ssorted_notin _ _ (lp_sort1 _ _ _ Hlp)) as Hni1.
  pose proof (ssorted_notin _ _ (lp_sort2 _ _ _ Hlp)) as Hni2.
  destruct (bytes_compare n1 n2) eqn:Hcmp.
  - apply bytes_compare_eq in Hcmp as <-.
    apply (reports_then r n1 _ _ l1 l2); [done|by apply both_reports| |done|done|set_solver].
    intros w' Hw'. apply IH; [lia|by eapply loop_pre_eq|done].
  - destruct (df_org Hpre (n1 :: r)) as (mo & Ho & Hmo); [done|left; eauto|].
    rewrite (C_bind_step _ _ _ _ _ (store_at w (n1 :: r) op Hv1 ltac:(left; eauto)
      ltac:(set_solver))).
    rewrite (C_bind_step _ _ _ _ _ (stat_at w (n1 :: r) op mo None Hw Hv1
      ltac:(left; eauto) ltac:(set_solver) Ho Hmo)).
    pose proof (ssorted_below _ _ _ (lp_sort2 _ _ _ Hlp) Hcmp) as Hni.
    apply (reports_then r n1 _ _ l1 (n2 :: l2)); [done| | |done|done|set_solver].
    + apply only1_reports; auto.
      * by eapply past_absent; [apply Hlp|apply Hlp|..].
      * by eapply before_some_intro.
    + intros w' Hw'. apply IH; [simpl; lia|by eapply loop_pre_lt|done].
  - assert (bytes_lt n2 n1) as Hlt.
    { unfold bytes_lt. by rewrite (bytes_compare_antisym n1 n2), Hcmp. }
    destruct (df_org Hpre (n2 :: r)) as (mo & Ho & Hmo); [done|right; eauto|].
    rewrite (C_bind_step _ _ _ _ _ (store_at w (n2 :: r) op Hv2 ltac:(right; eauto)
      ltac:(set_solver))).
    rewrite (C_bind_step _ _ _ _ _ (stat_at w (n2 :: r) op mo None Hw Hv2
      ltac:(right; eauto) ltac:(set_solver) Ho Hmo)).
    pose proof (ssorted_below _ _ _ (lp_sort1 _ _ _ Hlp) Hlt) as Hni.
    apply (reports_then r n2 _ _ (n1 :: l1) l2); [done| | |done|done|set_solver].
    + apply only2_reports; auto.
      * by eapply past_absent; [apply Hlp|apply Hlp|..].
      * by eapply before_some_intro.
    + intros w' Hw'. apply IH; [simpl; lia|by eapply loop_pre_gt|done].
Qed.

Lemma comp_dir_reports fuel r :
  fs_height fs < fuel + length (r ++ mp1) → rec_reports (comp_dir fuel) r.
Proof.
  revert r; induction fuel as [|fuel IH]; intros r Hf w Hw Hv H1 H2.
  { pose proof (fs_height_spec fs (r ++ mp1) ltac:(eauto)). lia. }
  assert (in_tree r) as Ht by (left; eauto). pose proof (df_wf Hpre) as Hwf.
  destruct (scandir_run w _ _ (resolve_at w r mp1 _ Hw Hv Ht ltac:(set_solver) H1)
    scandir_filter) as (l1 & Hscan1 & Hs1 & Hl1); [by rewrite (proj1 Hw)..|done|done|].
  destruct (scandir_run w _ _ (resolve_at w r mp2 _ Hw Hv Ht ltac:(set_solver) H2)
    scandir_filter) as (l2 & Hscan2 & Hs2 & Hl2); [by rewrite (proj1 Hw)..|done|done|].
  rewrite (proj1 Hw) in Hl1, Hl2. cbn [comp_dir].
  rewrite (C_bind_step _ _ _ _ _ Hscan1), (C_bind_step _ _ _ _ _ Hscan2).
  eapply reports_ext; [apply comp_loop_reports; auto|].
  - intros n. apply IH. cbn [app length]. lia.
  - constructor; auto.
    + intros n. apply Hl1.
    + intros n. apply Hl2.
    + intros n n' _ Hf' Hn'. left. by apply Hl1.
    + intros n n' _ Hf' Hn'. left. by apply Hl2.
  - intros rel Hs. split.
    + intros (n & _ & k & ->). exists (k ++ [n]). split; [by destruct k|].
      by rewrite <- (assoc_L (++)).
    + intros (k & Hk & ->). destruct k as [|n k _] using rev_ind; [done|].
      exists n. rewrite <- (assoc_L (++)) in *. cbn [app] in *.
      split; [|by exists k].
      pose proof (report_at_visible _ Hs) as Hvis.
      apply Forall_app in Hvis as [_ [Hfn _]%Forall_cons].
      rewrite Hl1, Hl2. destruct k as [|x k].
      * destruct Hs as [pq Hs]. unfold report_at in Hs. case_bool_decide; [|done].
        cbn [app] in Hs. destruct (fs !! (n :: r ++ mp1)) eqn:E; [eauto|].
        destruct (fs !! (n :: r ++ mp2)) eqn:E2; [eauto|done].
      * destruct (report_at_below (x :: k) (n :: r)) as [Hd _]; [done|done|].
        left. cbn [app] in Hd. rewrite Hd. eauto.
Qed.

End trees.
(** ** [main] *)

Lemma diff_main_canon fuel argv0 w op mp1 mp2 :
  fs_wf (w_fs w) → w_fs w !! op = Some NDir → w_fs w !! mp1 = Some NDir →
  w_fs w !! mp2 = Some NDir → (zlen (path_str op) < BUFMAX)%Z →
  (zlen (path_str mp1) < BUFMAX)%Z → (zlen (path_str mp2) < BUFMAX)%Z →
  main fuel [argv0; path_str op; path_str mp1; path_str mp2] w =
  main_checked fuel (path_str op) (path_str mp1) (path_str mp2) w.
Proof.
  intros Hwf Ho H1 H2 Hlo Hl1 Hl2.
  assert (∀ p, w_fs w !! p = Some NDir → (zlen (path_str p) < BUFMAX)%Z →
    resolve (w_fs w) (w_cwd w) (path_str p) = Some p) as Hr
    by (intros; apply resolve_canon; eauto).
  pose proof (Hr _ Ho Hlo). pose proof (Hr _ H1 Hl1). pose proof (Hr _ H2 Hl2).
  unfold main. crun access_run. crun access_run. cbn [andb]. crun access_run.
  cbn [negb orb]. crun stat_run. crun stat_run. crun stat_run.
  do 3 rewrite (C_bind_step _ _ _ _ _ (S_ISDIR_run NDir w)).
  rewrite bool_decide_true by done. cbn [negb orb andb].
  by crun abspath_canon; crun abspath_canon; crun abspath_canon.
Qed.

Lemma comp_dir_run w op mp1 mp2 sp1 sp2 fuel :
  diff_pre (w_fs w) (w_cwd w) op mp1 mp2 sp1 sp2 → fs_height (w_fs w) < fuel →
  ∃ l, comp_dir fuel (path_str op) (path_str mp1) (path_str mp2)
        (path_str sp1) (path_str sp2) w =
      (Done tt, say w (texts (w_fs w) (w_cwd w) op mp1 mp2 sp1 sp2 l)) ∧
    NoDup l ∧
    ∀ rel, rel ∈ l ↔ is_Some (report_at (w_fs w) op mp1 mp2 sp1 sp2 rel).
Proof.
  intros Hpre Hf.
  destruct (comp_dir_reports (w_fs w) (w_cwd w) op mp1 mp2 sp1 sp2 Hpre fuel []
    ltac:(lia) w) as (l & Hrun & Hn & Hl); [done|constructor|apply Hpre|apply Hpre|].
  exists l. split; [exact Hrun|]. split; [done|]. intros rel. rewrite Hl.
  split; [by intros []|]. intros Hs. split; [|done]. exists rel. rewrite app_nil_r.
  split; [|done]. intros ->. rewrite report_at_dir in Hs; [by destruct Hs|].
  left. apply Hpre.
Qed.

(** The lines [main] prints before the walk. *)
Definition banner (s1 s2 m1 m2 : bytes) : bytes :=
  B "skin_path : " ++ s1 ++ B " | " ++ s2 ++ NEWLINE ::
  B "molt_path : " ++ m1 ++ B " | " ++ m2 ++ NEWLINE ::
  B " " ++ s1 ++ B " " ++ s2 ++ [NEWLINE].

Lemma diff_main_checked_run fuel w o n1 d1 n2 d2 :
  let mp1 := (n1 ++ B "__molt") :: d1 in let sp1 := (n1 ++ B "__skin") :: d1 in
  let mp2 := (n2 ++ B "__molt") :: d2 in let sp2 := (n2 ++ B "__skin") :: d2 in
  fs_wf (w_fs w) → w_fs w !! sp1 = Some NDir → w_fs w !! sp2 = Some NDir →
  (zlen (path_str sp1) < BUFMAX)%Z → (zlen (path_str sp2) < BUFMAX)%Z →
  main_checked fuel o (path_str mp1) (path_str mp2) w =
  comp_dir fuel o (path_str mp1) (path_str mp2) (path_str sp1) (path_str sp2)
    (say w (banner (path_str sp1) (path_str sp2) (path_str mp1) (path_str mp2))).
Proof.
  intros mp1 sp1 mp2 sp2 Hwf H1 H2 Hl1 Hl2. unfold main_checked.
  rewrite (C_bind_step _ _ _ _ _
    (cut_suffix_canon n1 d1 _ _ w (or_intror eq_refl) (or_introl eq_refl) Hl1)).
  rewrite (C_bind_step _ _ _ _ _
    (cut_suffix_canon n2 d2 _ _ w (or_intror eq_refl) (or_introl eq_refl) Hl2)).
  fold sp1 sp2.
  set (a := B "skin_path : " ++ path_str sp1 ++ B " | " ++ path_str sp2 ++ [NEWLINE]).
  rewrite (C_bind_step _ _ w tt (say w a)) by done.
  set (b := B "molt_path : " ++ path_str mp1 ++ B " | " ++ path_str mp2 ++ [NEWLINE]).
  rewrite (C_bind_step _ _ (say w a) tt (say (say w a) b)) by done.
  assert (∀ p, w_fs w !! p = Some NDir → (zlen (path_str p) < BUFMAX)%Z →
    resolve (w_fs (say (say w a) b)) (w_cwd (say (say w a) b)) (path_str p) = Some p) as Hr
    by (intros; apply resolve_canon; eauto).
  pose proof (Hr _ H1 Hl1). pose proof (Hr _ H2 Hl2).
  crun access_run. crun access_run. cbn [negb orb]. crun stat_run. crun stat_run.
  do 2 rewrite (C_bind_step _ _ _ _ _ (S_ISDIR_run NDir (say (say w a) b))).
  rewrite bool_decide_true by done. cbn [negb orb].
  set (c := B " " ++ path_str sp1 ++ B " " ++ path_str sp2 ++ [NEWLINE]).
  rewrite (C_bind_step _ _ (say (say w a) b) tt (say (say (say w a) b) c)) by done.
  rewrite !say_say. f_equal. f_equal. unfold a, b, c, banner.
  by rewrite <- !(assoc_L (++)).
Qed.

Lemma main_run w argv0 op n1 d1 n2 d2 fuel :
  let mp1 := (n1 ++ B "__molt") :: d1 in let sp1 := (n1 ++ B "__skin") :: d1 in
  let mp2 := (n2 ++ B "__molt") :: d2 in let sp2 := (n2 ++ B "__skin") :: d2 in
  diff_pre (w_fs w) (w_cwd w) op mp1 mp2 sp1 sp2 → fs_height (w_fs w) < fuel →
  w_fs w !! op = Some NDir → w_fs w !! sp1 = Some NDir → w_fs w !! sp2 = Some NDir →
  ∃ l, main fuel [argv0; path_str op; path_str mp1; path_str mp2] w =
      (Done tt, say w
        (banner (path_str sp1) (path_str sp2) (path_str mp1) (path_str mp2) ++
         texts (w_fs w) (w_cwd w) op mp1 mp2 sp1 sp2 l)) ∧
    NoDup l ∧
    ∀ rel, rel ∈ l ↔ is_Some (report_at (w_fs w) op mp1 mp2 sp1 sp2 rel).
Proof.
  intros mp1 sp1 mp2 sp2 Hpre Hf Ho H1 H2.
  assert (∀ p, p ∈ [op; mp1; mp2; sp1; sp2] → (zlen (path_str p) < BUFMAX)%Z) as Hl.
  { intros p Hp. apply (df_len _ _ _ _ _ _ _ Hpre []); [constructor|done|].
    left. simpl. rewrite (df_dir1 _ _ _ _ _ _ _ Hpre). eauto. }
  rewrite diff_main_canon; [|apply Hpre|done|apply Hpre|apply Hpre|apply Hl; set_solver..].
  unfold mp1 at 1, mp2 at 1.
  rewrite diff_main_checked_run; [|apply Hpre|done|done|apply Hl; set_solver..].
  fold mp1 mp2 sp1 sp2. set (ban := banner _ _ _ _).
  destruct (comp_dir_run (say w ban) op mp1 mp2 sp1 sp2 fuel Hpre Hf)
    as (l & -> & Hn & Hl').
  exists l. by rewrite say_say.
Qed.

(** ** Properties *)

(** C8: [diff_dir] compares nothing.  The precedence of [<] over [=] in
    [count = scandir(...) < 0] makes [count] zero whenever the scan succeeds,
    so the loop over the entries never runs: for every directory, whatever it
    holds, the call returns without a report and without any other effect.  The
    comments ask for the files of a directory that is in one version only to be
    compared with the original. *)
Theorem diff_dir_silent w fuel path1 path2 flag p :
  let m_path := if negb flag then path1 else path2 in
  resolve (w_fs w) (w_cwd w) m_path = Some p → w_fs w !! p = Some NDir →
  (zlen path1 < BUFMAX)%Z → (zlen path2 < BUFMAX)%Z →
  diff_dir (S fuel) path1 path2 flag w = (Done tt, w).
Proof. apply diff_dir_run. Qed.

(** C7: [comp_dir] against the table of the comment above it.  Over two [__molt] trees
    with their skins and the original, the call returns, leaves the file system as it is,
    and writes to standard output, each once, the reports that the table asks for, less
    those of [passed_over].  There the code does not do what the table says: a file of
    one version is not reported when no name of the other version's directory is greater,
    because the loop stops with the shorter list, nor when it is in a directory that only
    one version has, because [diff_dir] compares nothing.  This is so for the reports of
    [ssu_diff] and of [ssu_diff2]. *)
Theorem comp_dir_reports_differences w op mp1 mp2 sp1 sp2 fuel :
  diff_pre (w_fs w) (w_cwd w) op mp1 mp2 sp1 sp2 → fs_height (w_fs w) < fuel →
  ∃ l, comp_dir fuel (path_str op) (path_str mp1) (path_str mp2)
        (path_str sp1) (path_str sp2) w =
      (Done tt, say w (table_texts (w_fs w) (w_cwd w) op mp1 mp2 sp1 sp2 l)) ∧
    NoDup l ∧
    ∀ rel, rel ∈ l ↔ is_Some (table_at (w_fs w) op mp1 mp2 sp1 sp2 rel) ∧
                     ¬ passed_over (w_fs w) mp1 mp2 rel.
Proof.
  intros Hpre Hf. destruct (comp_dir_run w op mp1 mp2 sp1 sp2 fuel Hpre Hf) as (l & E & Hn & Hl).
  destruct (texts_table _ _ _ _ _ _ _ l Hpre Hl) as [Et Hl']. exists l. by rewrite <- Et.
Qed.

(** C6: the whole program, run on the canonical names of the original and of
    two [<name>__molt] directories with their [<name>__skin] directories: it
    returns, changes no file, and prints its three lines and the reports that the table
    above [comp_dir] asks for, each once, less those of [passed_over]: as in C7, files of
    one version in a directory of that version only, or behind the last name of the other
    version's directory, are not reported although the table asks for them. *)
Theorem main_reports_differences w argv0 op n1 d1 n2 d2 fuel :
  let mp1 := (n1 ++ B "__molt") :: d1 in let sp1 := (n1 ++ B "__skin") :: d1 in
  let mp2 := (n2 ++ B "__molt") :: d2 in let sp2 := (n2 ++ B "__skin") :: d2 in
  diff_pre (w_fs w) (w_cwd w) op mp1 mp2 sp1 sp2 → fs_height (w_fs w) < fuel →
  w_fs w !! op = Some NDir → w_fs w !! sp1 = Some NDir → w_fs w !! sp2 = Some NDir →
  ∃ l, main fuel [argv0; path_str op; path_str mp1; path_str mp2] w =
      (Done tt, say w
        (banner (path_str sp1) (path_str sp2) (path_str mp1) (path_str mp2) ++
         table_texts (w_fs w) (w_cwd w) op mp1 mp2 sp1 sp2 l)) ∧
    NoDup l ∧
    ∀ rel, rel ∈ l ↔ is_Some (table_at (w_fs w) op mp1 mp2 sp1 sp2 rel) ∧
                     ¬ passed_over (w_fs w) mp1 mp2 rel.
Proof.
  intros mp1 sp1 mp2 sp2 Hpre Hf Ho H1 H2.
  destruct (main_run w argv0 op n1 d1 n2 d2 fuel Hpre Hf Ho H1 H2) as (l & E & Hn & Hl).
  destruct (texts_table _ _ _ _ _ _ _ l Hpre Hl) as [Et Hl']. exists l. by rewrite <- Et.
Qed.

(** Where the first version's directory has no visible entry, nothing is
    reported whatever the second holds: the loop ends with the shorter list, and
    the entries left in the other are dropped.  The table above [comp_dir] asks
    for them to be compared with the original. *)
Theorem comp_dir_first_empty w fuel o_path m1 m2 s1 s2 p1 p2 :
  fs_wf (w_fs w) →
  resolve (w_fs w) (w_cwd w) m1 = Some p1 → w_fs w !! p1 = Some NDir →
  resolve (w_fs w) (w_cwd w) m2 = Some p2 → w_fs w !! p2 = Some NDir →
  (∀ n, is_Some (w_fs w !! (n :: p1)) → scandir_filter n = false) →
  comp_dir (S fuel) o_path m1 m2 s1 s2 w = (Done tt, w).
Proof.
  intros Hwf Hr1 Hp1 Hr2 Hp2 Hempty. cbn [comp_dir].
  destruct (scandir_run w m1 p1 Hr1 scandir_filter) as (l1 & Hscan1 & _ & Hl1); [done..|].
  rewrite (C_bind_step _ _ _ _ _ Hscan1).
  destruct (scandir_run w m2 p2 Hr2 scandir_filter) as (l2 & Hscan & _ & _); [done..|].
  destruct l1 as [|n l1].
  - by rewrite (C_bind_step _ _ _ _ _ Hscan).
  - destruct (Hl1 n) as [Hn _]. destruct Hn as [Hs Hf]; [set_solver|].
    by rewrite Hempty in Hf.
Qed.

(** ** Concrete runs *)

(** The precondition, decided entry by entry. *)
Section check.
Context (fs : fsmap) (cwd : path) (op mp1 mp2 sp1 sp2 : path).

Definition org_check (rel : path) : Prop :=
  match fs !! (rel ++ op) with None | Some NDangling => False | _ => True end.

Definition hash_check (rel p : path) : Prop :=
  match fs !! (rel ++ p) with Some (NFile r) => has_hash r | _ => False end.

Definition hashes_check (rel : path) : Prop :=
  match fs !! (rel ++ mp1), fs !! (rel ++ mp2) with
  | Some (NFile _), Some (NFile _) => hash_check rel sp1 ∧ hash_check rel sp2
  | Some NDangling, _ | _, Some NDangling => False
  | _, _ => True
  end.

Definition ok_check (rel : path) : Prop :=
  match report_at fs op mp1 mp2 sp1 sp2 rel with
  | Some pq => rp_ok fs cwd (path_str pq.1) (path_str pq.2)
  | None => True
  end.

Definition place_check (rel : path) : Prop :=
  org_check rel ∧ hashes_check rel ∧ ok_check rel ∧
  Forall (λ p, (zlen (path_str (rel ++ p)) < BUFMAX)%Z) [op; mp1; mp2; sp1; sp2].

Lemma diff_check_pre :
  fs_wf fs → fs !! mp1 = Some NDir → fs !! mp2 = Some NDir →
  Forall (λ p, p ≠ []) [op; mp1; mp2; sp1; sp2] →
  Forall (λ mp, map_Forall (λ q _, under_path mp q → visible (rel_to mp q) →
    place_check (rel_to mp q)) fs) [mp1; mp2] →
  diff_pre fs cwd op mp1 mp2 sp1 sp2.
Proof.
  intros Hwf H1 H2 Hne [Hc1 [Hc2 _]%Forall_cons]%Forall_cons.
  assert (∀ rel, visible rel →
    is_Some (fs !! (rel ++ mp1)) ∨ is_Some (fs !! (rel ++ mp2)) → place_check rel) as Hc.
  { intros rel Hv [[m Hm]|[m Hm]].
    - specialize (Hc1 _ _ Hm (under_path_app _ _)). rewrite rel_to_app in Hc1. auto.
    - specialize (Hc2 _ _ Hm (under_path_app _ _)). rewrite rel_to_app in Hc2. auto. }
  constructor; auto.
  - repeat (apply Forall_cons in Hne as [? Hne]). done.
  - intros rel Hv E. destruct (Hc rel Hv ltac:(eauto)) as (_ & Hh & _).
    unfold hashes_check in Hh. by rewrite E in Hh.
  - intros rel Hv E. destruct (Hc rel Hv ltac:(eauto)) as (_ & Hh & _).
    unfold hashes_check in Hh. rewrite E in Hh. by repeat case_match.
  - intros rel p Hv Hp E1 E2.
    destruct (fs !! (rel ++ mp1)) as [[]|] eqn:Em1; try done.
    destruct (fs !! (rel ++ mp2)) as [[]|] eqn:Em2; try done.
    destruct (Hc rel Hv) as (_ & Hh & _); [rewrite Em1; eauto|].
    unfold hashes_check in Hh. rewrite Em1, Em2 in Hh.
    assert (hash_check rel p) as Hp' by (destruct Hh; set_solver).
    unfold hash_check in Hp'. destruct (fs !! (rel ++ p)) as [[]|]; try done. eauto.
  - intros rel Hv Ht. destruct (Hc rel Hv Ht) as (Ho & _). unfold org_check in Ho.
    destruct (fs !! (rel ++ op)) as [[]|]; try done; eauto.
  - intros rel p Hv Hp Ht. destruct (Hc rel Hv Ht) as (_ & _ & _ & Hl).
    rewrite Forall_forall in Hl. by apply Hl.
  - intros rel p1 p2 Ht Hp. assert (report_at fs op mp1 mp2 sp1 sp2 rel = Some (p1, p2)) as Hr
      by (by apply report_at_table).
    destruct (Hc rel) as (_ & _ & Hok & _).
    + unfold report_at in Hr. by case_bool_decide.
    + unfold report_at in Hr. case_bool_decide; [|done].
      destruct (fs !! (rel ++ mp1)); [eauto|]. destruct (fs !! (rel ++ mp2)); [eauto|done].
    + unfold ok_check in Hok. by rewrite Hr in Hok.
Qed.
End check.
End walk.

(** ** The second program, [ssu_diff2.c]: the same functions with its report *)

Definition diff_file2 := @diff_file ssu_diff2_reporter.
Definition diff_file_org2 := @diff_file_org ssu_diff2_reporter.
Definition diff_dir2 := @diff_dir ssu_diff2_reporter.
Definition comp_dir2 := @comp_dir ssu_diff2_reporter.
Definition main2 := @main ssu_diff2_reporter.

#[export] Instance org_check_dec fs op rel : Decision (org_check fs op rel).
Proof. unfold org_check. destruct (fs !! _) as [[]|]; apply _. Defined.
#[export] Instance has_hash_dec r : Decision (has_hash r).
Proof. unfold has_hash. apply _. Defined.
#[export] Instance hash_check_dec fs rel p : Decision (hash_check fs rel p).
Proof. unfold hash_check. destruct (fs !! _) as [[]|]; apply _. Defined.
#[export] Instance hashes_check_dec fs mp1 mp2 sp1 sp2 rel :
  Decision (hashes_check fs mp1 mp2 sp1 sp2 rel).
Proof.
  unfold hashes_check. destruct (fs !! (rel ++ mp1)) as [[]|];
    destruct (fs !! (rel ++ mp2)) as [[]|]; apply _.
Defined.

Section decide.
Context `{Reporter} (fs : fsmap) (cwd : path).
Context `{!∀ p1 p2, Decision (rp_ok fs cwd p1 p2)}.

#[export] Instance ok_check_dec op mp1 mp2 sp1 sp2 rel :
  Decision (ok_check fs cwd op mp1 mp2 sp1 sp2 rel).
Proof. unfold ok_check. destruct (report_at _ _ _ _ _ _ _); apply _. Defined.
#[export] Instance place_check_dec op mp1 mp2 sp1 sp2 rel :
  Decision (place_check fs cwd op mp1 mp2 sp1 sp2 rel).
Proof. unfold place_check. apply _. Defined.
End decide.

(** Two versions against the original: [a.c] differs between them, [b.c] is the
    same in both, [c.c] changed in the first only, [z.c] in the second only. *)
Definition digits (c : Z) : bytes := replicate 32 c ++ B "|/f".

Definition ex_fs : fsmap := list_to_map [
  ([], NDir); ([B "org"], NDir);
  ([B "v1__molt"], NDir); ([B "v2__molt"], NDir);
  ([B "v1__skin"], NDir); ([B "v2__skin"], NDir);
  ([B "a.c"; B "org"], NFile (B "a")); ([B "b.c"; B "org"], NFile (B "b"));
  ([B "c.c"; B "org"], NFile (B "c")); ([B "d.c"; B "org"], NFile (B "d"));
  ([B "z.c"; B "org"], NFile (B "z"));
  ([B "a.c"; B "v1__molt"], NFile (B "a1")); ([B "a.c"; B "v2__molt"], NFile (B "a2"));
  ([B "b.c"; B "v1__molt"], NFile (B "b1")); ([B "b.c"; B "v2__molt"], NFile (B "b1"));
  ([B "c.c"; B "v1__molt"], NFile (B "c1")); ([B "z.c"; B "v1__molt"], NFile (B "z1"));
  ([B "d.c"; B "v2__molt"], NFile (B "d2"));
  ([B "a.c"; B "v1__skin"], NFile (digits 48)); ([B "a.c"; B "v2__skin"], NFile (digits 49));
  ([B "b.c"; B "v1__skin"], NFile (digits 50)); ([B "b.c"; B "v2__skin"], NFile (digits 50))].

Definition ex_world (fs : fsmap) : world := World fs [] [] [].

(** The output of [ssu_diff2] on a run is, after its three lines, one line
    [diff|<first>|<second>] for each reported pair. *)
Theorem main2_prints_pairs w argv0 op n1 d1 n2 d2 fuel :
  let mp1 := (n1 ++ B "__molt") :: d1 in let sp1 := (n1 ++ B "__skin") :: d1 in
  let mp2 := (n2 ++ B "__molt") :: d2 in let sp2 := (n2 ++ B "__skin") :: d2 in
  @diff_pre ssu_diff2_reporter (w_fs w) (w_cwd w) op mp1 mp2 sp1 sp2 →
  fs_height (w_fs w) < fuel →
  w_fs w !! op = Some NDir → w_fs w !! sp1 = Some NDir → w_fs w !! sp2 = Some NDir →
  ∃ pairs, main2 fuel [argv0; path_str op; path_str mp1; path_str mp2] w =
      (Done tt, say w
        (banner (path_str sp1) (path_str sp2) (path_str mp1) (path_str mp2) ++
         concat ((λ pq, B "diff|" ++ path_str pq.1 ++ B "|" ++ path_str pq.2 ++ [NEWLINE])
           <$> pairs))) ∧
    ∀ p1 p2, (p1, p2) ∈ pairs ↔
      ∃ rel, report_at (w_fs w) op mp1 mp2 sp1 sp2 rel = Some (p1, p2).
Proof.
  intros mp1 sp1 mp2 sp2 Hpre Hf Ho H1 H2.
  destruct (main_run (H := ssu_diff2_reporter) w argv0 op n1 d1 n2 d2 fuel Hpre Hf Ho H1 H2)
    as (l & Hrun & _ & Hl).
  exists (omap (report_at (w_fs w) op mp1 mp2 sp1 sp2) l). split.
  - etransitivity; [exact Hrun|]. do 3 f_equal. unfold texts.
    clear Hrun Hl. f_equal. induction l as [|rel l IH]; [done|].
    cbn [omap list_omap]. destruct (report_at _ _ _ _ _ _ rel); cbn [fmap option_fmap option_map].
    + cbn [fmap list_fmap]. by f_equal.
    + exact IH.
  - intros p1 p2. rewrite list_elem_of_omap. split; [naive_solver|].
    intros [rel Hr]. exists rel. split; [|done]. apply Hl. eauto.
Qed.

Section ex2.
#[local] Existing Instance ssu_diff2_reporter.
#[local] Instance report2_ok_dec fs cwd p1 p2 : Decision (rp_ok fs cwd p1 p2).
Proof. simpl. unfold report2_ok. apply _. Defined.

Lemma ex_diff_pre : diff_pre ex_fs [] [B "org"] [B "v1__molt"] [B "v2__molt"]
  [B "v1__skin"] [B "v2__skin"].
Proof. apply diff_check_pre; [vm_decide|vm_refl|vm_refl|vm_decide|vm_decide]. Qed.

Lemma comp_dir_reports_differences_witness :
  ∃ l, comp_dir 5 (B "/org") (B "/v1__molt") (B "/v2__molt") (B "/v1__skin")
        (B "/v2__skin") (ex_world ex_fs) =
      (Done tt, say (ex_world ex_fs) (table_texts ex_fs [] [B "org"] [B "v1__molt"]
        [B "v2__molt"] [B "v1__skin"] [B "v2__skin"] l)) ∧
    [B "a.c"] ∈ l ∧ [B "c.c"] ∈ l ∧ ([B "b.c"] ∉ l) ∧ ([B "z.c"] ∉ l).
Proof.
  destruct (comp_dir_reports_differences (ex_world ex_fs) [B "org"] [B "v1__molt"]
    [B "v2__molt"] [B "v1__skin"] [B "v2__skin"] 5) as (l & Hrun & _ & Hl).
  - exact ex_diff_pre.
  - vm_decide.
  - exists l. split; [exact Hrun|]. rewrite !Hl. split; [|split; [|split]]; vm_decide.
Defined.

Lemma main_reports_differences_witness :
  ∃ l, main 5 [B "ssu_diff2"; B "/org"; B "/v1__molt"; B "/v2__molt"] (ex_world ex_fs) =
      (Done tt, say (ex_world ex_fs)
        (banner (B "/v1__skin") (B "/v2__skin") (B "/v1__molt") (B "/v2__molt") ++
         table_texts ex_fs [] [B "org"] [B "v1__molt"] [B "v2__molt"] [B "v1__skin"]
           [B "v2__skin"] l)) ∧ [B "a.c"] ∈ l.
Proof.
  destruct (main_reports_differences (ex_world ex_fs) (B "ssu_diff2") [B "org"]
    (B "v1") [] (B "v2") [] 5) as (l & Hrun & _ & Hl).
  - exact ex_diff_pre.
  - vm_decide.
  - vm_refl.
  - vm_refl.
  - vm_refl.
  - exists l. split; [exact Hrun|]. rewrite Hl. vm_decide.
Defined.

Lemma main2_prints_pairs_witness :
  ∃ pairs, main2 5 [B "ssu_diff2"; B "/org"; B "/v1__molt"; B "/v2__molt"]
      (ex_world ex_fs) =
      (Done tt, say (ex_world ex_fs)
        (banner (B "/v1__skin") (B "/v2__skin") (B "/v1__molt") (B "/v2__molt") ++
         concat ((λ pq, B "diff|" ++ path_str pq.1 ++ B "|" ++ path_str pq.2 ++ [NEWLINE])
           <$> pairs))) ∧
    ([B "c.c"; B "v1__molt"], [B "c.c"; B "org"]) ∈ pairs.
Proof.
  destruct (main2_prints_pairs (ex_world ex_fs) (B "ssu_diff2") [B "org"]
    (B "v1") [] (B "v2") [] 5) as (pairs & Hrun & Hp).
  - exact ex_diff_pre.
  - vm_decide.
  - vm_refl.
  - vm_refl.
  - vm_refl.
  - exists pairs. split; [exact Hrun|]. apply Hp. exists [B "c.c"]. vm_refl.
Defined.

Lemma diff_dir_silent_witness :
  diff_dir 3 (B "/v1__molt") (B "/org") false (ex_world ex_fs) =
    (Done tt, ex_world ex_fs).
Proof.
  apply (diff_dir_silent (ex_world ex_fs) 2 _ _ false [B "v1__molt"]); vm_refl.
Defined.

Lemma comp_dir_first_empty_witness :
  let fs := <[[B "e"] := NDir]> ex_fs in
  comp_dir 3 (B "/org") (B "/e") (B "/v2__molt") (B "/v1__skin") (B "/v2__skin")
    (ex_world fs) = (Done tt, ex_world fs).
Proof.
  apply (comp_dir_first_empty _ 2 _ _ _ _ _ [B "e"] [B "v2__molt"]).
  - vm_decide.
  - vm_refl.
  - vm_refl.
  - vm_refl.
  - vm_refl.
  - intros n Hn. exfalso. revert Hn. apply eq_None_not_Some.
    apply (empty_check (<[[B "e"] := NDir]> ex_fs) [B "e"]) with (rel := [n]);
      [vm_decide|done].
Defined.
End ex2.
End SsuDiff.
