(* ===== verification/Prompt.v ===== *)
(** * [prompt]: the command loop of the tools

    Model of [3-3/src/comp_kernel/prompt.c]: a loop that reads a line, checks
    its first word against a list of commands, splits it at spaces with
    [strtok] and runs the command in a child process.

    The line buffer [buf] is a global that keeps its content between the
    iterations; it is modelled as the C string it holds. *)
From stdpp Require Import base sorting strings numbers gmap list.
From S2P Require Import Prelude Posix.

Module Prompt.

Definition BUFFERSIZE : Z := 4048.

Definition inst_list : list bytes := [B "skin"; B "molt"; B "ls"; B "vi"].

(** The state of the loop: [buf], the input still to read, what was printed,
    the [execv] calls made in child processes, and what was printed on
    [stderr]. *)
Record pstate := PState {
  buf : bytes;
  stdin : bytes;
  out : bytes;
  execs : list (bytes * list bytes);
  errs : bytes;
}.

Fixpoint countArgNum (ptr : bytes) : nat :=
  match ptr with
  | [] => 0
  | c :: ptr => if (c =? SPACE)%Z then S (countArgNum ptr) else countArgNum ptr
  end.

(** [for (i = 0; inst_list[i] != NULL; i++) if (strcmp(...) == 0) return 1;] *)
Fixpoint inst_checking_from (l : list bytes) (inst : bytes) : bool :=
  match l with
  | [] => false
  | x :: l =>
      match bytes_compare x inst with
      | Eq => true
      | _ => inst_checking_from l inst
      end
  end.

Definition inst_checking (inst : bytes) : bool := inst_checking_from inst_list inst.

(** [strtok(s, " ")]: [skip] is the [strspn], [word] the [strcspn].  The result
    is the token, the place where the next call starts, and whether a NUL was
    written over a space. *)
Fixpoint skip (s : bytes) : bytes :=
  match s with
  | [] => []
  | c :: s' => if (c =? SPACE)%Z then skip s' else s
  end.

Fixpoint word (s : bytes) : bytes * bytes :=
  match s with
  | [] => ([], [])
  | c :: s' =>
      if (c =? SPACE)%Z then ([], s')
      else let '(w, rest) := word s' in (c :: w, rest)
  end.

Definition strtok (s : bytes) : option (bytes * bytes) :=
  match skip s with
  | [] => None
  | s => Some (word s)
  end.

(** The string [buf] holds after [strtok(buf, " ")] cut it. *)
Definition strtok_buf (s : bytes) : bytes :=
  take (length s - length (skip s)) s ++ (word (skip s)).1.

(** The [for] loop that collects the arguments; [None]: [strtok] gave [NULL]
    and [strlen(NULL)] was called. *)
Fixpoint collect (n : nat) (rest : bytes) : option (list bytes) :=
  match n with
  | 0 => Some []
  | S n =>
      match strtok rest with
      | None => None
      | Some (arg, rest) => args ← collect n rest; Some (arg :: args)
      end
  end.

(** [fgets(buf, BUFFERSIZE, stdin)]: a line with its newline, or 4047 bytes of
    it; at the end of the input the array is left as it is. *)
Definition fgets_buf (st : pstate) : pstate :=
  match stdin st with
  | [] => st
  | input =>
      let n := Z.to_nat (BUFFERSIZE - 1) in
      let line := match find_byte NEWLINE (take n input) with
                  | Some i => take (S i) input
                  | None => take n input
                  end in
      let str := match find_byte NUL line with
                 | Some i => take i line
                 | None => line
                 end in
      PState str (drop (length line) input) (out st) (execs st) (errs st)
  end.

(** [fork_ok] is whether [fork] gives a child. *)
Definition prompting (fork_ok : bool) (st : pstate) : outcome bool * pstate :=
  let say s st := PState (buf st) (stdin st) (out st ++ s) (execs st) (errs st) in
  let set_buf b st := PState b (stdin st) (out st) (execs st) (errs st) in
  let st := fgets_buf (say (B "> ") st) in
  match buf st with
  | [] => (Stopped (Undef "store before the array"), st)
  | _ =>
    let st := set_buf (removelast (buf st)) st in
    if bool_decide (buf st = B "exit") then (Done false, st)
    else if bool_decide (buf st = []) then (Done true, st)
    else
      let argCnt := countArgNum (buf st) in
      match strtok (buf st) with
      | None => (Stopped (Undef "strcmp of a null pointer"), st)
      | Some (inst, rest) =>
        let st := set_buf (strtok_buf (buf st)) st in
        if negb (inst_checking inst) then
          (Done true, say (B "unknown instruction for " ++ inst ++ [NEWLINE]) st)
        else if (8 * (zlen inst - 1) <? zlen inst + 1)%Z then
          (Stopped (Undef "heap overflow"), st)
        else
          match collect argCnt rest with
          | None => (Stopped (Undef "strlen of a null pointer"), st)
          | Some args =>
            if fork_ok then
              (Done true, PState (buf st) (stdin st) (out st)
                            (execs st ++ [(inst, inst :: args)]) (errs st))
            else (Stopped (Exit 1), PState (buf st) (stdin st) (out st) (execs st)
                                      (errs st ++ B "fork error" ++ [NEWLINE]))
          end
      end
  end.

(** [while (prompting());] *)
Fixpoint main (fuel : nat) (fork_ok : bool) (st : pstate) : outcome unit * pstate :=
  match fuel with
  | 0 => (Stopped OutOfFuel, st)
  | S fuel =>
      match prompting fork_ok st with
      | (Done true, st) => main fuel fork_ok st
      | (Done false, st) => (Done tt, st)
      | (Stopped s, st) => (Stopped s, st)
      end
  end.

(** ** Splitting *)

(** The words between the spaces. *)
Definition words (s : bytes) : list bytes :=
  List.filter (λ w, bool_decide (w ≠ [])) (split_byte SPACE s).

Lemma words_skip s : words (skip s) = words s.
Proof.
  unfold words. induction s as [|c s IH]; cbn [skip split_byte]; [done|].
  destruct (Z.eqb_spec c SPACE); [by rewrite IH|].
  cbn [split_byte]. by rewrite (proj2 (Z.eqb_neq _ _)).
Qed.

Lemma split_word c s :
  c ≠ SPACE → ∃ w rest, word (c :: s) = (c :: w, rest) ∧
    words (c :: s) = (c :: w) :: words rest.
Proof.
  unfold words. revert c; induction s as [|d s IH]; intros c Hc; cbn [word split_byte].
  - rewrite (proj2 (Z.eqb_neq _ _) Hc). by exists [], [].
  - rewrite (proj2 (Z.eqb_neq c _) Hc). destruct (Z.eqb_spec d SPACE) as [->|Hd].
    + exists [], s. by cbn.
    + destruct (IH d Hd) as (w & rest & Hw & Hs). cbn [word split_byte] in Hw, Hs.
      rewrite (proj2 (Z.eqb_neq d _) Hd) in Hw, Hs.
      destruct (word s) as [w' rest'] eqn:E. simplify_eq.
      exists (d :: w), rest. split; [done|].
      destruct (split_byte SPACE s) as [|x xs]; cbn in Hs |- *; injection Hs as <- Hs; by rewrite <- Hs.
Qed.

(** [strtok] gives the words one after the other. *)
Lemma strtok_words s :
  match words s with
  | [] => strtok s = None
  | w :: ws => ∃ rest, strtok s = Some (w, rest) ∧ words rest = ws
  end.
Proof.
  unfold strtok. rewrite <- words_skip.
  destruct (skip s) as [|c t] eqn:E; [done|].
  assert (c ≠ SPACE) as Hc.
  { clear -E. induction s as [|d s IH]; cbn [skip] in E; [done|].
    destruct (Z.eqb_spec d SPACE); [by apply IH|]. by simplify_eq. }
  destruct (split_word c t Hc) as (w & rest & Hw & Hs). rewrite Hs.
  exists rest. by rewrite Hw.
Qed.

Lemma collect_words n s :
  collect n s = if bool_decide (n ≤ length (words s)) then Some (take n (words s)) else None.
Proof.
  revert s; induction n as [|n IH]; intros s; cbn [collect]; [done|].
  pose proof (strtok_words s) as Hs. destruct (words s) as [|w ws].
  - rewrite Hs. by rewrite bool_decide_eq_false_2 by (simpl; lia).
  - destruct Hs as (rest & -> & Hr). rewrite IH, Hr. simpl.
    destruct (decide (n ≤ length ws)).
    + by rewrite !bool_decide_eq_true_2 by lia.
    + by rewrite !bool_decide_eq_false_2 by lia.
Qed.

Lemma countArgNum_split s : length (split_byte SPACE s) = S (countArgNum s).
Proof.
  induction s as [|c s IH]; cbn [countArgNum split_byte]; [done|].
  destruct (c =? SPACE)%Z; [by cbn; rewrite IH|].
  by destruct (split_byte SPACE s).
Qed.

Lemma words_length s : length (words s) ≤ S (countArgNum s).
Proof. rewrite <- countArgNum_split. apply List.filter_length_le. Qed.

(** No empty piece, no missing word. *)
Lemma words_full s :
  [] ∉ split_byte SPACE s ↔ length (words s) = S (countArgNum s).
Proof.
  rewrite <- countArgNum_split. unfold words.
  induction (split_byte SPACE s) as [|w ws IH]; cbn [List.filter length].
  { split; [done|]. set_solver. }
  pose proof (List.filter_length_le (λ w, bool_decide (w ≠ [])) ws) as Hle.
  case_bool_decide; cbn [length].
  - rewrite not_elem_of_cons, IH. split; [lia|]. intros ?. split; [done|]. lia.
  - split; [set_solver|]. lia.
Qed.

Lemma inst_checking_spec inst : inst_checking inst = true ↔ inst ∈ inst_list.
Proof.
  unfold inst_checking. induction inst_list as [|x l IH]; cbn [inst_checking_from].
  - split; [done|]. by intros ?%not_elem_of_nil.
  - rewrite elem_of_cons, <- IH. pose proof (bytes_compare_eq x inst).
    destruct (bytes_compare x inst); naive_solver.
Qed.

(** The allocation of [args[0]] is large enough for every command. *)
Lemma inst_alloc inst :
  inst_checking inst = true → (8 * (zlen inst - 1) <? zlen inst + 1)%Z = false.
Proof.
  intros Hi%inst_checking_spec. unfold inst_list in Hi.
  repeat (apply elem_of_cons in Hi as [->|Hi]; [done|]). by apply not_elem_of_nil in Hi.
Qed.

(** ** Reading a line *)

Lemma fgets_line st line rest :
  stdin st = line ++ NEWLINE :: rest → NEWLINE ∉ line → NUL ∉ line →
  (zlen line < BUFFERSIZE - 1)%Z →
  fgets_buf st = PState (line ++ [NEWLINE]) rest (out st) (execs st) (errs st).
Proof.
  intros Hin Hn Hz Hl. unfold fgets_buf.
  assert (∃ c input, line ++ NEWLINE :: rest = c :: input) as (c & input & E)
    by (destruct line; simpl; eauto).
  rewrite Hin, E. rewrite <- E. cbv zeta.
  assert (take (Z.to_nat (BUFFERSIZE - 1)) (line ++ NEWLINE :: rest) =
    line ++ NEWLINE :: take (Z.to_nat (BUFFERSIZE - 1) - S (length line)) rest) as ->.
  { unfold zlen in Hl. rewrite take_app_ge by lia.
    replace (Z.to_nat (BUFFERSIZE - 1) - length line)
      with (S (Z.to_nat (BUFFERSIZE - 1) - S (length line))) by lia. done. }
  rewrite find_byte_app by done.
  replace (S (length line)) with (length (line ++ [NEWLINE])) by (rewrite length_app; simpl; lia).
  replace (line ++ NEWLINE :: rest) with ((line ++ [NEWLINE]) ++ rest)
    by (by rewrite <- (assoc_L (++))).
  rewrite take_app_length, drop_app_length.
  rewrite (proj2 (find_byte_None NUL _)); [done|]. set_solver.
Qed.

(** The answer to a line, in terms of its words. *)
Definition answer (fork_ok : bool) (line : bytes) (st : pstate) : outcome bool * pstate :=
  let st' b := PState b (stdin st) (out st) (execs st) (errs st) in
  if bool_decide (line = B "exit") then (Done false, st' line)
  else if bool_decide (line = []) then (Done true, st' line)
  else match words line with
       | [] => (Stopped (Undef "strcmp of a null pointer"), st' line)
       | inst :: args =>
           let b := strtok_buf line in
           if bool_decide (inst ∉ inst_list) then
             (Done true, PState b (stdin st)
               (out st ++ B "unknown instruction for " ++ inst ++ [NEWLINE]) (execs st) (errs st))
           else if bool_decide ([] ∈ split_byte SPACE line) then
             (Stopped (Undef "strlen of a null pointer"), st' b)
           else if fork_ok then
             (Done true, PState b (stdin st) (out st) (execs st ++ [(inst, inst :: args)]) (errs st))
           else (Stopped (Exit 1),
             PState b (stdin st) (out st) (execs st) (errs st ++ B "fork error" ++ [NEWLINE]))
       end.

Lemma prompting_answer fork_ok st line rest :
  stdin st = line ++ NEWLINE :: rest → NEWLINE ∉ line → NUL ∉ line →
  (zlen line < BUFFERSIZE - 1)%Z →
  prompting fork_ok st =
    answer fork_ok line (PState line rest (out st ++ B "> ") (execs st) (errs st)).
Proof.
  intros Hin Hn Hz Hl. unfold prompting. cbv zeta.
  rewrite (fgets_line _ line rest) by done. cbn [buf stdin out execs errs].
  destruct (line ++ [NEWLINE]) as [|c l] eqn:E; [by destruct line|]. rewrite <- E.
  rewrite removelast_last. unfold answer. cbn [stdin out execs errs].
  case_bool_decide; [done|]. case_bool_decide; [done|].
  pose proof (strtok_words line) as Hw. pose proof (words_full line) as Hfull.
  pose proof (words_length line) as Hlen.
  destruct (words line) as [|inst args]; [by rewrite Hw|].
  destruct Hw as (rest' & -> & Hr). rewrite collect_words, Hr.
  destruct (inst_checking inst) eqn:Hi; cbn [negb].
  - rewrite (inst_alloc _ Hi). apply inst_checking_spec in Hi.
    rewrite (bool_decide_eq_false_2 (inst ∉ inst_list)) by (by intros ?).
    simpl in Hlen, Hfull.
    destruct (decide ([] ∈ split_byte SPACE line)) as [He|He].
    + rewrite bool_decide_eq_false_2; [by rewrite bool_decide_eq_true_2|].
      intros ?. apply Hfull; [lia|done].
    + apply Hfull in He as He'. rewrite bool_decide_eq_true_2 by lia.
      rewrite (bool_decide_eq_false_2 _ He), take_ge by lia. by destruct fork_ok.
  - rewrite bool_decide_eq_true_2; [done|]. intros Hin'%inst_checking_spec. congruence.
Qed.
(** ** The end of the input *)

Lemma skip_length s : length (skip s) ≤ length s.
Proof. induction s as [|c s IH]; simpl; [done|]. case_match; simpl; lia. Qed.

Lemma word_length s : length (word s).1 ≤ length s.
Proof.
  induction s as [|c s IH]; simpl; [done|]. case_match; simpl; [lia|].
  destruct (word s); simpl in *. lia.
Qed.

Lemma strtok_buf_length s : length (strtok_buf s) ≤ length s.
Proof.
  unfold strtok_buf. rewrite length_app, length_take.
  pose proof (skip_length s). pose proof (word_length (skip s)). lia.
Qed.

Lemma removelast_length {A} (x : A) l : S (length (removelast (x :: l))) = length (x :: l).
Proof.
  revert x; induction l as [|y l IH]; intros x; [done|].
  change (removelast (x :: y :: l)) with (x :: removelast (y :: l)).
  cbn [length]. specialize (IH y). cbn [length] in IH. lia.
Qed.

(** One iteration at the end of the input. *)
Lemma prompting_at_end st :
  stdin st = [] →
  match prompting true st with
  | (Done true, st') => stdin st' = [] ∧ length (buf st') < length (buf st)
  | (Done false, st') => buf st' = B "exit"
  | (Stopped s, _) => ∃ why, s = Undef why
  end.
Proof.
  intros Hin. destruct st as [b i o e]. cbn in Hin. subst i.
  unfold prompting, fgets_buf. cbn [buf stdin out execs errs].
  destruct b as [|c b]; [eauto|]. pose proof (removelast_length c b) as Hl.
  pose proof (strtok_buf_length (removelast (c :: b))) as Hs.
  set (b' := removelast (c :: b)) in *. cbn [buf stdin out execs errs].
  case_bool_decide; [done|]. case_bool_decide; [split; [done|cbn [buf]; lia]|].
  destruct (strtok b') as [[inst rest]|]; [|eauto].
  destruct (inst_checking inst) eqn:Hi; cbn [negb].
  - rewrite (inst_alloc _ Hi).
    destruct (collect _ rest); cbn [buf stdin]; [split; [done|lia]|eauto].
  - cbn [buf stdin]. split; [done|lia].
Qed.

(** More fuel does not change a result. *)
Lemma main_more f f' fork_ok st r st' :
  main f fork_ok st = (r, st') → r ≠ Stopped OutOfFuel → f ≤ f' →
  main f' fork_ok st = (r, st').
Proof.
  revert f' st; induction f as [|f IH]; intros f' st Hr Hne Hle; cbn in Hr; [by simplify_eq|].
  destruct f' as [|f']; [lia|]. cbn.
  destruct (prompting fork_ok st) as [[[|]|s] st1]; [|done..]. apply IH; [done|done|lia].
Qed.

(** ** Properties *)

(** C10: a line is answered by its words.  For every line of the input that
    fits the buffer, one iteration is [answer]: "exit" ends the loop, an empty
    line is skipped, an unknown first word is reported, and a known one is run
    with the words of the line as its argument vector, provided the words are
    separated by single spaces.  In particular [strtok] and the count of the
    spaces give exactly the words, and [args[0]] is large enough. *)
Theorem prompting_answers fork_ok st line rest :
  stdin st = line ++ NEWLINE :: rest → NEWLINE ∉ line → NUL ∉ line →
  (zlen line < BUFFERSIZE - 1)%Z →
  prompting fork_ok st =
    answer fork_ok line (PState line rest (out st ++ B "> ") (execs st) (errs st)).
Proof. apply prompting_answer. Qed.

(** Two spaces in a row, a space at the end or one at the start crash the
    program: the count of the spaces is larger than the number of arguments, so
    [strtok] gives a null pointer that [strlen] is called with. *)
Theorem prompting_extra_space fork_ok st line rest inst args :
  stdin st = line ++ NEWLINE :: rest → NEWLINE ∉ line → NUL ∉ line →
  (zlen line < BUFFERSIZE - 1)%Z →
  words line = inst :: args → inst ∈ inst_list → [] ∈ split_byte SPACE line →
  prompting fork_ok st =
    (Stopped (Undef "strlen of a null pointer"),
     PState (strtok_buf line) rest (out st ++ B "> ") (execs st) (errs st)).
Proof.
  intros Hin Hn Hz Hl Hw Hi He. rewrite (prompting_answer _ _ line rest) by done.
  unfold answer. cbn [stdin out execs errs]. rewrite bool_decide_eq_false_2.
  2: { intros ->. vm_compute in He. repeat (apply elem_of_cons in He as [?|He]; [done|]).
       by apply not_elem_of_nil in He. }
  rewrite bool_decide_eq_false_2 by (by intros ->). rewrite Hw. cbv zeta.
  rewrite (bool_decide_eq_false_2 (inst ∉ inst_list)) by (by intros ?).
  by rewrite bool_decide_eq_true_2.
Qed.

(** C11: the end of the input is not noticed.  [fgets] gives [NULL] and leaves
    the buffer; every further iteration takes at least one byte off it and may
    run what is left as a command.  Whatever the buffer holds, the loop ends
    within one iteration per byte, and then either in undefined behaviour (a
    store before the array at the latest) or on a stale "exit". *)
Theorem main_end_of_input st :
  stdin st = [] →
  ∃ r st', main (S (length (buf st))) true st = (r, st') ∧
    ((∃ why, r = Stopped (Undef why)) ∨ (r = Done tt ∧ buf st' = B "exit")).
Proof.
  remember (length (buf st)) as n eqn:Hn. revert st Hn.
  induction (lt_wf n) as [n _ IH]. intros st -> Hin. cbn [main].
  pose proof (prompting_at_end st Hin) as Hp.
  destruct (prompting true st) as [[[|]|s] st'].
  - destruct Hp as [Hin' Hlt].
    destruct (IH _ Hlt st' eq_refl Hin') as (r & st'' & Hr & Hcase).
    exists r, st''. split; [|done]. apply (main_more (S (length (buf st')))); [done| |lia]. naive_solver.
  - eauto 10.
  - destruct Hp as [why ->]. eauto 10.
Qed.

(** ** Concrete runs *)

Definition ex_st (s : string) : pstate := PState [] (B s ++ [NEWLINE]) [] [] [].

Lemma prompting_answers_witness :
  prompting true (ex_st "skin a b") =
    (Done true, PState (B "skin") [] (B "> ") [(B "skin", [B "skin"; B "a"; B "b"])] []).
Proof.
  rewrite (prompting_answers true (ex_st "skin a b") (B "skin a b") []);
    [vm_refl|done|vm_decide|vm_decide|vm_refl].
Defined.

Lemma prompting_extra_space_witness :
  prompting true (ex_st "ls  a") =
    (Stopped (Undef "strlen of a null pointer"), PState (B "ls") [] (B "> ") [] []).
Proof.
  apply (prompting_extra_space true (ex_st "ls  a") (B "ls  a") [] (B "ls") [B "a"]);
    [done|vm_decide|vm_decide|vm_refl|vm_refl|vm_decide|vm_decide].
Defined.

Lemma main_end_of_input_witness :
  ∃ r st', main 3 true (PState (B "ls") [] [] [] []) = (r, st') ∧
    ((∃ why, r = Stopped (Undef why)) ∨ (r = Done tt ∧ buf st' = B "exit")).
Proof. by apply (main_end_of_input (PState (B "ls") [] [] [] [])). Defined.

End Prompt.
