(* ===== verification/Pipeline.v ===== *)
(** * [skin], [skin], [molt]: from two versions to the changed files

    The server runs the tools one after the other: [skin] on the original and
    on a new version of the tree, then [molt] on the two skins.  This file
    composes the programs as processes that share the file system, and shows
    what comes out of the three runs in terms of the two source trees alone:
    the MD5 interface, the shell interface and the two programs meet here. *)
From stdpp Require Import base sorting strings numbers gmap list.
From S2P Require Import Prelude Posix Tools Md5Api KMd5 Shell Skin Molt.

Module Pipeline.

Section pipeline.
Context `{MD5} `{Shell}.

(** The original [n1] in [d1], the new version [n2] in [d2], and the directory
    [sp] for the results. *)
Context (n1 n2 : name) (d1 d2 sp : path).

Abbreviation org := (n1 :: d1).
Abbreviation new := (n2 :: d2).
Abbreviation skin1 := ((n1 ++ B "__skin") :: sp).
Abbreviation skin2 := ((n2 ++ B "__skin") :: sp).
Abbreviation molt := ((n2 ++ B "__molt") :: sp).

Record pipe_pre (fs : fsmap) : Prop := {
  pp_wf : fs_wf fs;
  pp_names : n1 ≠ n2;
  pp_nonroot : sp ≠ [];
  pp_org : fs !! org = Some NDir;
  pp_new : fs !! new = Some NDir;
  pp_sp : fs !! sp = Some NDir;
  pp_fresh : fs !! skin1 = None ∧ fs !! skin2 = None ∧ fs !! molt = None;
  pp_nest1 : find_sub (path_str org) (path_str sp) = None;
  pp_nest2 : find_sub (path_str new) (path_str sp) = None;
  pp_link1 rel : visible rel → fs !! (rel ++ org) ≠ Some NDangling;
  pp_link2 rel : visible rel → fs !! (rel ++ new) ≠ Some NDangling;
  pp_len1 rel : visible rel → is_Some (fs !! (rel ++ org)) →
    (33 + zlen (path_str (rel ++ org)) < BUFMAX)%Z ∧
    (zlen (path_str (rel ++ skin1)) < BUFMAX)%Z;
  pp_len2 rel : visible rel → is_Some (fs !! (rel ++ new)) →
    (33 + zlen (path_str (rel ++ new)) < BUFMAX)%Z ∧
    (zlen (path_str (rel ++ skin2)) < BUFMAX)%Z ∧
    (20 + zlen (path_str (rel ++ molt)) < BUFMAX)%Z ∧
    (4 + zlen (path_str (rel ++ new)) + zlen (path_str (rel ++ molt)) < BUFMAX)%Z;
  pp_word rel : visible rel → is_Some (fs !! (rel ++ new)) →
    sh_word (path_str (rel ++ new)) ∧ sh_word (path_str (rel ++ molt));
}.

(** ** Places that do not exist *)

(** Nothing exists below a free place, so it has nothing in common with the
    tree of an existing entry that it does not lie in. *)
Lemma free_below fs q r : fs_wf fs → fs !! q = None → fs !! (r ++ q) = None.
Proof.
  intros Hwf Hq. apply eq_None_not_Some. intros Hs. destruct r as [|x r].
  - simpl in Hs. rewrite Hq in Hs. by destruct Hs.
  - apply fs_wf_ancestor in Hs; [congruence|done|done].
Qed.

Lemma apart_free fs p n q :
  fs_wf fs → is_Some (fs !! p) → fs !! (n :: q) = None →
  (∀ r, q ≠ r ++ p) → apart p (n :: q).
Proof.
  intros Hwf Hp Hq Hnest r r' E.
  apply app_eq_inv in E as [(k & -> & E)|(k & -> & E)].
  - destruct k as [|x k]; simplify_eq/=.
    + rewrite Hq in Hp. by destruct Hp.
    + by apply (Hnest k).
  - rewrite E, (free_below fs) in Hp by done. by destruct Hp.
Qed.

Lemma not_nested fs n d p r :
  fs_wf fs → find_sub (path_str (n :: d)) (path_str p) = None → p ≠ r ++ n :: d.
Proof. intros _ Hf ->. destruct (Skin.strstr_nested n d r) as [i Hi]. congruence. Qed.

Lemma apart_tails (x y : name) (p : path) r r' : x ≠ y → r ++ x :: p ≠ r' ++ y :: p.
Proof. intros Hxy. by apply (apart_siblings x y p Hxy). Qed.

Lemma ending_ne (a b : bytes) : a ++ B "__skin" ≠ b ++ B "__molt".
Proof. intros E. apply app_inj_2 in E as [_ E]; [done|done]. Qed.

Lemma path_append_len (p rel : path) :
  p ≠ [] → path_append (path_str p) rel = path_str (rel ++ p).
Proof. apply path_append_path_str. Qed.

(** A path is a C string. *)
Lemma is_cstr_path (p : path) : Forall valid_name p → is_cstr (path_str p).
Proof.
  intros Hv. assert (is_cstr (path_append [] p)) as Hp.
  { induction Hv as [|n p (_ & Hn & _) Hv IH]; cbn [path_append]; [constructor|].
    apply Forall_app. split; [done|]. constructor; [vm_decide|done]. }
  destruct p; [vm_decide|done].
Qed.

Lemma is_cstr_hex (d : bytes) : Forall is_byte d → is_cstr (Skin.hex d).
Proof.
  unfold Skin.hex. induction 1 as [|b d Hb _ IH]; csimpl; [constructor|].
  unfold is_byte in Hb.
  assert (∀ x, (0 ≤ x < 16)%Z → is_byte (Skin.hex_digit x) ∧ Skin.hex_digit x ≠ NUL) as Hd.
  { intros x Hx. unfold Skin.hex_digit, is_byte, NUL. case_match; bool_to_prop; lia. }
  constructor; [|constructor; [|done]]; apply Hd.
  - split; [apply Z.div_pos; lia|]. apply Z.div_lt_upper_bound; lia.
  - apply Z.mod_pos_bound. lia.
Qed.

Lemma hex_inj a b : Forall is_byte a → Forall is_byte b →
  Skin.hex a = Skin.hex b → a = b.
Proof.
  unfold Skin.hex. intros Ha. revert b.
  induction Ha as [|x a Hx _ IH]; intros b Hb E; destruct Hb as [|y b Hy Hb];
    csimpl in *; [done..|]. unfold Skin.hex_byte in E. simpl in E.
  injection E as E1 E2 E3. f_equal; [|by apply IH].
  unfold is_byte in *.
  assert (∀ u v, (0 ≤ u < 16)%Z → (0 ≤ v < 16)%Z →
    Skin.hex_digit u = Skin.hex_digit v → u = v) as Hd.
  { intros u v Hu Hv. unfold Skin.hex_digit. repeat case_match; bool_to_prop; lia. }
  apply Hd in E1; [|split; [apply Z.div_pos; lia|apply Z.div_lt_upper_bound; lia]..].
  apply Hd in E2; [|apply Z.mod_pos_bound; lia..].
  rewrite (Z.div_mod x 16), (Z.div_mod y 16) by lia. lia.
Qed.

Lemma skin_record_is_record (p : path) data :
  Forall valid_name p → (33 + zlen (path_str p) < BUFMAX)%Z →
  Molt.is_record (Skin.skin_record (path_str p) data)
    (Skin.hex (md5_digest data)) (path_str p).
Proof.
  intros Hv Hl. split; [done|]. split.
  { by rewrite Skin.hex_length, md5_length. }
  split; [apply is_cstr_hex, md5_bytes|]. split; [by apply is_cstr_path|lia].
Qed.

(** ** The state after the two runs of [skin] *)

Record skinned (fs fs' : fsmap) : Prop := {
  sn_wf : fs_wf fs';
  sn_dir1 : fs' !! skin1 = Some NDir;
  sn_dir2 : fs' !! skin2 = Some NDir;
  sn_mirror1 rel : rel ≠ [] → visible rel →
    fs' !! (rel ++ skin1) = Skin.skin_node (path_str (rel ++ org)) <$> fs !! (rel ++ org);
  sn_mirror2 rel : rel ≠ [] → visible rel →
    fs' !! (rel ++ skin2) = Skin.skin_node (path_str (rel ++ new)) <$> fs !! (rel ++ new);
  sn_frame q : (∀ rel, visible rel → q ≠ rel ++ skin1 ∧ q ≠ rel ++ skin2) →
    fs' !! q = fs !! q;
}.

Section state.
Context (fs : fsmap) (Hpre : pipe_pre fs).

Lemma apart_pre p n :
  is_Some (fs !! p) → fs !! (n :: sp) = None → (∀ r, sp ≠ r ++ p) → apart p (n :: sp).
Proof. apply apart_free, (pp_wf _ Hpre). Qed.

Lemma org_apart n : fs !! (n :: sp) = None → apart org (n :: sp).
Proof.
  intros Hn. apply apart_pre; [rewrite (pp_org _ Hpre); eauto|done|].
  intros r. by eapply not_nested; apply Hpre.
Qed.

Lemma new_apart n : fs !! (n :: sp) = None → apart new (n :: sp).
Proof.
  intros Hn. apply apart_pre; [rewrite (pp_new _ Hpre); eauto|done|].
  intros r. by eapply not_nested; apply Hpre.
Qed.

Lemma skins_ne : n1 ++ B "__skin" ≠ n2 ++ B "__skin".
Proof. intros E. apply app_inv_tail in E. by apply (pp_names _ Hpre). Qed.

(** The entries that existed are as they were. *)
Lemma skinned_keep fs' q m : skinned fs fs' → fs !! q = Some m → fs' !! q = Some m.
Proof.
  intros Hs Hq. destruct (pp_fresh _ Hpre) as (H1 & H2 & _).
  rewrite (sn_frame _ _ Hs); [done|]. intros rel _.
  split; intros ->; by rewrite (free_below fs) in Hq by (done || apply Hpre).
Qed.

Lemma skinned_new fs' rel : skinned fs fs' → fs' !! (rel ++ new) = fs !! (rel ++ new).
Proof.
  intros Hs. destruct (pp_fresh _ Hpre) as (H1 & H2 & _).
  apply (sn_frame _ _ Hs). intros r _. split; by apply new_apart.
Qed.

Lemma skinned_fresh fs' r : skinned fs fs' → fs' !! (r ++ molt) = None.
Proof.
  intros Hs. destruct (pp_fresh _ Hpre) as (H1 & H2 & H3).
  rewrite (sn_frame _ _ Hs); [by apply (free_below fs); [apply Hpre|]|].
  intros rel _. split; apply apart_tails; intros E; symmetry in E; by apply ending_ne in E.
Qed.

(** Files of a skin are the records of the files of its source. *)
Lemma skinned_file1 fs' rel r : skinned fs fs' → visible rel →
  fs' !! (rel ++ skin1) = Some (NFile r) →
  ∃ data, fs !! (rel ++ org) = Some (NFile data) ∧
    r = Skin.skin_record (path_str (rel ++ org)) data.
Proof.
  intros Hs Hv Hr. destruct (decide (rel = [])) as [->|Hne].
  { cbn [app] in Hr. pose proof (sn_dir1 _ _ Hs). congruence. }
  rewrite (sn_mirror1 _ _ Hs) in Hr by done.
  destruct (fs !! (rel ++ org)) as [[]|]; simplify_eq/=. eauto.
Qed.

Lemma skinned_file2 fs' rel r : skinned fs fs' → visible rel →
  fs' !! (rel ++ skin2) = Some (NFile r) →
  ∃ data, fs !! (rel ++ new) = Some (NFile data) ∧
    r = Skin.skin_record (path_str (rel ++ new)) data.
Proof.
  intros Hs Hv Hr. destruct (decide (rel = [])) as [->|Hne].
  { cbn [app] in Hr. pose proof (sn_dir2 _ _ Hs). congruence. }
  rewrite (sn_mirror2 _ _ Hs) in Hr by done.
  destruct (fs !! (rel ++ new)) as [[]|]; simplify_eq/=. eauto.
Qed.

Lemma skinned_some1 fs' rel : skinned fs fs' → visible rel →
  is_Some (fs' !! (rel ++ skin1)) → is_Some (fs !! (rel ++ org)).
Proof.
  intros Hs Hv Hr. destruct (decide (rel = [])) as [->|Hne].
  { simpl. rewrite (pp_org _ Hpre). eauto. }
  rewrite (sn_mirror1 _ _ Hs) in Hr by done. by apply fmap_is_Some in Hr.
Qed.

Lemma skinned_some2 fs' rel : skinned fs fs' → visible rel →
  is_Some (fs' !! (rel ++ skin2)) → is_Some (fs !! (rel ++ new)).
Proof.
  intros Hs Hv Hr. destruct (decide (rel = [])) as [->|Hne].
  { simpl. rewrite (pp_new _ Hpre). eauto. }
  rewrite (sn_mirror2 _ _ Hs) in Hr by done. by apply fmap_is_Some in Hr.
Qed.

Lemma skinned_nolink1 fs' rel : skinned fs fs' → visible rel →
  fs' !! (rel ++ skin1) ≠ Some NDangling.
Proof.
  intros Hs Hv Hr. destruct (decide (rel = [])) as [->|Hne].
  { cbn [app] in Hr. pose proof (sn_dir1 _ _ Hs). congruence. }
  rewrite (sn_mirror1 _ _ Hs) in Hr by done.
  destruct (fs !! (rel ++ org)) as [[]|] eqn:E; simplify_eq/=. by apply (pp_link1 _ Hpre) in E.
Qed.

Lemma skinned_nolink2 fs' rel : skinned fs fs' → visible rel →
  fs' !! (rel ++ skin2) ≠ Some NDangling.
Proof.
  intros Hs Hv Hr. destruct (decide (rel = [])) as [->|Hne].
  { cbn [app] in Hr. pose proof (sn_dir2 _ _ Hs). congruence. }
  rewrite (sn_mirror2 _ _ Hs) in Hr by done.
  destruct (fs !! (rel ++ new)) as [[]|] eqn:E; simplify_eq/=. by apply (pp_link2 _ Hpre) in E.
Qed.

(** What [molt] needs. *)
Lemma skinned_molt_pre fs' :
  skinned fs fs' → Molt.molt_pre (<[molt := NDir]> fs') skin1 skin2 molt.
Proof.
  intros Hs. pose proof (sn_wf _ _ Hs) as Hwf'.
  assert (∀ n r, n ≠ n2 ++ B "__molt" →
    <[molt := NDir]> fs' !! (r ++ n :: sp) = fs' !! (r ++ n :: sp)) as Hins.
  { intros n r Hn. apply lookup_insert_ne. apply (apart_tails _ _ _ [] r). done. }
  assert (fs' !! sp = Some NDir) as Hsp by (eapply skinned_keep; eauto; apply Hpre).
  assert (valid_name n2) as Hn2 by (eapply fs_wf_valid; [apply Hpre|]; rewrite (pp_new _ Hpre); eauto).
  pose proof (ending_ne n1 n2) as Hm1. pose proof (ending_ne n2 n2) as Hm2.
  constructor; try done.
  - apply fs_wf_insert; auto using valid_name_molt. left. by apply (skinned_fresh _ []).
  - by apply apart_siblings.
  - by apply apart_siblings.
  - transitivity (fs' !! skin1); [by apply (Hins _ [])|apply Hs].
  - transitivity (fs' !! skin2); [by apply (Hins _ [])|apply Hs].
  - apply lookup_insert_eq.
  - intros rel Hne. rewrite lookup_insert_ne; [by apply skinned_fresh|].
    intros E. apply Hne, length_zero_iff_nil. apply (f_equal length) in E.
    rewrite length_app in E. lia.
  - intros rel Hv. rewrite Hins by done. by apply skinned_nolink1.
  - intros rel Hv. rewrite Hins by done. by apply skinned_nolink2.
  - intros rel r Hv. rewrite Hins by done. intros (data & Hd & ->)%skinned_file1; [|done..].
    eexists _, _. apply skin_record_is_record.
    + eapply fs_wf_valid_path; [apply Hpre|eauto].
    + apply (pp_len1 _ Hpre); eauto.
  - intros rel r Hv. rewrite Hins by done. intros (data & Hd & ->)%skinned_file2; [|done..].
    destruct (pp_len2 _ Hpre rel) as (Hl1 & Hl2 & Hl3 & Hl4); [done|eauto|].
    eexists _, (rel ++ new), data. split; [|split; [|split; [|split]]].
    + apply skin_record_is_record; [|done]. eapply fs_wf_valid_path; [apply Hpre|eauto].
    + rewrite lookup_insert_ne; [by rewrite skinned_new|].
      intros E. apply (new_apart (n2 ++ B "__molt")) with (r := rel) (r' := []);
        [apply Hpre|done].
    + intros k. apply new_apart, Hpre.
    + by apply (pp_word _ Hpre); eauto.
    + done.
  - intros rel Hv. rewrite Hins by done. intros Ho%skinned_some1; [|done..].
    by apply (pp_len1 _ Hpre).
  - intros rel Hv. rewrite Hins by done. intros Ho%skinned_some2; [|done..].
    destruct (pp_len2 _ Hpre rel) as (Hl1 & Hl2 & Hl3 & Hl4); [done..|].
    split; [done|]. split; [done|]. by apply (pp_word _ Hpre).
Qed.

(** The files [molt] finds changed are those whose digests differ. *)
Lemma skinned_changed fs' rel data :
  skinned fs fs' →
  Molt.changed_file fs' skin1 skin2 rel = Some data ↔
  visible rel ∧ fs !! (rel ++ new) = Some (NFile data) ∧
  ∃ old, fs !! (rel ++ org) = Some (NFile old) ∧ md5_digest old ≠ md5_digest data.
Proof.
  intros Hs.
  assert (∀ old new', visible rel → fs !! (rel ++ org) = Some (NFile old) →
    fs !! (rel ++ new) = Some (NFile new') → rel ≠ [] →
    Molt.changed_file fs' skin1 skin2 rel =
    if decide (md5_digest old = md5_digest new') then None else Some new') as Hch.
  { intros old new' Hv Ho Hn Hne.
    assert (Forall valid_name (rel ++ org)) as Hv1 by (eapply fs_wf_valid_path; [apply Hpre|eauto]).
    assert (Forall valid_name (rel ++ new)) as Hv2 by (eapply fs_wf_valid_path; [apply Hpre|eauto]).
    destruct (pp_len1 _ Hpre rel Hv ltac:(eauto)) as [Hl1 _].
    destruct (pp_len2 _ Hpre rel Hv ltac:(eauto)) as [Hl2 _].
    unfold Molt.changed_file.
    rewrite (sn_mirror1 _ _ Hs), (sn_mirror2 _ _ Hs), Ho, Hn by done. simpl.
    rewrite (Molt.record_hash_eq _ _ _ (skin_record_is_record _ old Hv1 Hl1)).
    rewrite (Molt.record_hash_eq _ _ _ (skin_record_is_record _ new' Hv2 Hl2)).
    rewrite (Molt.record_path_eq _ _ _ (skin_record_is_record _ new' Hv2 Hl2)).
    rewrite parse_abs_path_str, skinned_new, Hn by done.
    case_decide as Hd; case_bool_decide as Hb; try done; exfalso.
    - destruct Hb as [_ Hb]. by rewrite Hd in Hb.
    - apply Hb. split; [done|]. intros E. apply Hd, hex_inj; auto using md5_bytes. }
  split.
  - intros Hc. pose proof (Molt.changed_Some _ _ _ _ _ Hc) as (Hv & o & c & Ho & Hcc & _).
    assert (rel ≠ []) as Hne.
    { intros ->. cbn [app] in Ho. pose proof (sn_dir1 _ _ Hs). congruence. }
    apply skinned_file1 in Ho as (old & Ho & _); [|done..].
    apply skinned_file2 in Hcc as (new' & Hn & _); [|done..].
    rewrite (Hch old new') in Hc by done. case_decide; simplify_eq. eauto 10.
  - intros (Hv & Hn & old & Ho & Hd).
    assert (rel ≠ []) as Hne.
    { intros ->. cbn [app] in Ho. pose proof (pp_org _ Hpre). congruence. }
    rewrite (Hch old data) by done. by rewrite decide_False.
Qed.

End state.

(** ** The three runs *)

(** One run of [skin], with all names canonical. *)
Lemma skin_once w n d :
  fs_wf (w_fs w) → sp ≠ [] → w_fs w !! (n :: d) = Some NDir → w_fs w !! sp = Some NDir →
  w_fs w !! ((n ++ B "__skin") :: sp) = None →
  find_sub (path_str (n :: d)) (path_str sp) = None →
  (∀ rel, visible rel → w_fs w !! (rel ++ n :: d) ≠ Some NDangling) →
  (∀ rel, visible rel → is_Some (w_fs w !! (rel ++ n :: d)) →
    (33 + zlen (path_str (rel ++ n :: d)) < BUFMAX)%Z ∧
    (zlen (path_str (rel ++ (n ++ B "__skin") :: sp)) < BUFMAX)%Z) →
  ∃ w', Skin.main (S (fs_height (w_fs w))) [B "skin"; path_str (n :: d); path_str sp] w =
      (Stopped (Exit 0), w') ∧
    fs_wf (w_fs w') ∧ w_fs w' !! ((n ++ B "__skin") :: sp) = Some NDir ∧
    (∀ rel, rel ≠ [] → visible rel → w_fs w' !! (rel ++ (n ++ B "__skin") :: sp) =
      Skin.skin_node (path_str (rel ++ n :: d)) <$> w_fs w !! (rel ++ n :: d)) ∧
    (∀ q, (∀ rel, visible rel → q ≠ rel ++ (n ++ B "__skin") :: sp) →
      w_fs w' !! q = w_fs w !! q).
Proof.
  intros Hwf Hsp Hd Hs Hfree Hnest Hlink Hlen.
  assert (path_str sp ++ SLASH :: n ++ B "__skin" = path_str ((n ++ B "__skin") :: sp))
    as Estr by (by rewrite path_str_cons).
  destruct (Skin.main_skins_run w (B "skin") n d sp) as
    (w' & Hrun & Hwf' & _ & _ & Hdir & Hmirror & Hframe); auto.
  - intros rel Hv Hr. rewrite Estr, !path_append_path_str by done. by apply Hlen.
  - exists w'. split_and!; auto. intros rel Hne Hv.
    by rewrite Hmirror, path_append_path_str.
Qed.

Lemma skin_twice w :
  pipe_pre (w_fs w) →
  ∃ w1 w2,
    Skin.main (S (fs_height (w_fs w))) [B "skin"; path_str org; path_str sp] w =
      (Stopped (Exit 0), w1) ∧
    Skin.main (S (fs_height (w_fs w1))) [B "skin"; path_str new; path_str sp] w1 =
      (Stopped (Exit 0), w2) ∧
    skinned (w_fs w) (w_fs w2).
Proof.
  intros Hpre. destruct (pp_fresh _ Hpre) as (Hf1 & Hf2 & _).
  destruct (skin_once w n1 d1) as (w1 & Hrun1 & Hwf1 & Hdir1 & Hmir1 & Hfr1);
    try done; try apply Hpre.
  assert (∀ q m, w_fs w !! q = Some m → w_fs w1 !! q = Some m) as Hkeep.
  { intros q m Hq. rewrite Hfr1; [done|]. intros rel _ ->.
    by rewrite (free_below (w_fs w)) in Hq by (done || apply Hpre). }
  assert (∀ rel, w_fs w1 !! (rel ++ new) = w_fs w !! (rel ++ new)) as Hnew.
  { intros rel. apply Hfr1. intros r _. by apply (new_apart _ Hpre). }
  pose proof (skins_ne _ Hpre) as Hne.
  assert (∀ rel, w_fs w1 !! (rel ++ skin2) = w_fs w !! (rel ++ skin2)) as Hs2.
  { intros rel. apply Hfr1. intros r _. by apply apart_tails. }
  destruct (skin_once w1 n2 d2) as (w2 & Hrun2 & Hwf2 & Hdir2 & Hmir2 & Hfr2); auto.
  { apply Hpre. } { apply Hkeep, Hpre. } { apply Hkeep, Hpre. }
  { by etransitivity; [apply (Hs2 [])|]. } { apply Hpre. }
  { intros rel Hv. rewrite Hnew. by apply Hpre. }
  { intros rel Hv. rewrite Hnew. intros Hr.
    destruct (pp_len2 _ Hpre rel Hv Hr) as (? & ? & _). done. }
  assert (∀ rel, w_fs w2 !! (rel ++ skin1) = w_fs w1 !! (rel ++ skin1)) as Hs1.
  { intros rel. apply Hfr2. intros r _. by apply apart_tails. }
  exists w1, w2. split; [done|]. split; [done|]. constructor; auto.
  - by etransitivity; [apply (Hs1 [])|].
  - intros rel Hr Hv. rewrite Hs1. by apply Hmir1.
  - intros rel Hr Hv. rewrite Hmir2, Hnew by done. done.
  - intros q Hq. rewrite Hfr2, Hfr1; [done|..]; intros rel Hv; by apply Hq.
Qed.

Lemma fs_height_insert (fs : fsmap) q m :
  fs !! q = None → fs_height (<[q := m]> fs) = max (length q) (fs_height fs).
Proof.
  intros Hq. unfold fs_height. rewrite map_fold_insert_L; [done| |done].
  intros. lia.
Qed.

(** C1: from two versions to the changed files.  Run [skin] on the original
    tree and on the new tree, then [molt] on the two skins.  All three runs end
    normally, and afterwards the [__molt] directory holds, at a relative path,
    exactly the files of the new tree whose original has another MD5 digest,
    with their new content; the new tree and the original are unchanged. *)
Theorem pipeline_molts_changed w :
  pipe_pre (w_fs w) →
  ∃ w1 w2 w3,
    Skin.main (S (fs_height (w_fs w))) [B "skin"; path_str org; path_str sp] w =
      (Stopped (Exit 0), w1) ∧
    Skin.main (S (fs_height (w_fs w1))) [B "skin"; path_str new; path_str sp] w1 =
      (Stopped (Exit 0), w2) ∧
    Molt.main (S (S (fs_height (w_fs w2)))) [B "molt"; path_str skin1; path_str skin2] w2 =
      (Done tt, w3) ∧
    (∀ rel data, w_fs w3 !! (rel ++ molt) = Some (NFile data) ↔
      visible rel ∧ w_fs w !! (rel ++ new) = Some (NFile data) ∧
      ∃ old, w_fs w !! (rel ++ org) = Some (NFile old) ∧
        md5_digest old ≠ md5_digest data) ∧
    (∀ q m, w_fs w !! q = Some m → w_fs w3 !! q = Some m).
Proof.
  intros Hpre. destruct (skin_twice w Hpre) as (w1 & w2 & Hrun1 & Hrun2 & Hs).
  assert (w_fs w2 !! sp = Some NDir) as Hsp
    by (eapply skinned_keep; eauto; apply Hpre).
  assert (w_fs w2 !! molt = None) as Hm by (by apply (skinned_fresh _ Hpre _ [])).
  destruct (Molt.main_molts_run w2 (B "molt") skin1 n2 sp (S (S (fs_height (w_fs w2)))))
    as (fs3 & Hrun3 & Hwf3 & Hdir & Hdone & Honly & Hframe).
  - apply Hs.
  - eapply fs_wf_valid; [apply Hpre|]. rewrite (pp_new _ Hpre). eauto.
  - done.
  - destruct (pp_len2 _ Hpre []) as (_ & _ & Hl & _); [constructor| |].
    + cbn [app]. rewrite (pp_new _ Hpre). eauto.
    + cbn [app] in Hl. lia.
  - by apply (skinned_molt_pre _ Hpre).
  - rewrite fs_height_insert by done.
    pose proof (fs_height_spec (w_fs w2) sp ltac:(eauto)). cbn [length]. lia.
  - exists w1, w2, (with_fs w2 fs3). split_and!; [done..| |].
    + intros rel data. rewrite <- (skinned_changed _ Hpre (w_fs w2)) by done.
      split; [|apply Hdone]. cbn [w_fs with_fs]. intros Hl.
      destruct (decide (rel = [])) as [->|Hne].
      { cbn [app] in Hl. congruence. }
      apply Honly in Hl as [(data' & Hc & E)|[? _]]; naive_solver.
    + intros q m Hq. cbn [w_fs with_fs]. rewrite Hframe.
      * eapply skinned_keep; eauto.
      * intros r ->. destruct (pp_fresh _ Hpre) as (_ & _ & Hf).
        by rewrite (free_below (w_fs w)) in Hq by (done || apply Hpre).
Qed.

End pipeline.

(** ** A concrete run *)

#[local] Existing Instance KMd5.kernel_md5.
#[local] Existing Instance Sh.plain_sh.

Definition ex_fs : fsmap := list_to_map [
  ([], NDir); ([B "v0"], NDir); ([B "v1"], NDir); ([B "out"], NDir);
  ([B "lib"; B "v0"], NDir); ([B "lib"; B "v1"], NDir);
  ([B "a.c"; B "lib"; B "v0"], NFile (B "int a;"));
  ([B "a.c"; B "lib"; B "v1"], NFile (B "long a;"));
  ([B "b.c"; B "v0"], NFile (B "int b;"));
  ([B "b.c"; B "v1"], NFile (B "int b;"))].

Definition ex_world : world := World ex_fs [] [] [].

(** The conditions on one tree, decided entry by entry. *)
Definition tree_check (fs : fsmap) (p : path) (P : path → Prop) : Prop :=
  map_Forall (λ q m, under_path p q → m ≠ NDangling ∧ P (rel_to p q)) fs.

Lemma tree_check_spec fs p P rel m :
  tree_check fs p P → fs !! (rel ++ p) = Some m → m ≠ NDangling ∧ P rel.
Proof.
  intros Hc Hm. specialize (Hc _ _ Hm (under_path_app _ _)). by rewrite rel_to_app in Hc.
Qed.

Lemma ex_pipe_pre : pipe_pre (B "v0") (B "v1") [] [] [B "out"] ex_fs.
Proof.
  assert (tree_check ex_fs [B "v0"] (λ rel,
    (33 + zlen (path_str (rel ++ [B "v0"])) < BUFMAX)%Z ∧
    (zlen (path_str (rel ++ [B "v0__skin"; B "out"])) < BUFMAX)%Z)) as H0 by vm_decide.
  assert (tree_check ex_fs [B "v1"] (λ rel,
    (33 + zlen (path_str (rel ++ [B "v1"])) < BUFMAX)%Z ∧
    (zlen (path_str (rel ++ [B "v1__skin"; B "out"])) < BUFMAX)%Z ∧
    (20 + zlen (path_str (rel ++ [B "v1__molt"; B "out"])) < BUFMAX)%Z ∧
    (4 + zlen (path_str (rel ++ [B "v1"])) +
       zlen (path_str (rel ++ [B "v1__molt"; B "out"])) < BUFMAX)%Z ∧
    sh_word (path_str (rel ++ [B "v1"])) ∧
    sh_word (path_str (rel ++ [B "v1__molt"; B "out"])))) as H1 by vm_decide.
  constructor.
  - vm_decide.
  - vm_decide.
  - done.
  - vm_refl.
  - vm_refl.
  - vm_refl.
  - vm_decide.
  - vm_refl.
  - vm_refl.
  - intros rel _ E. by apply (tree_check_spec _ _ _ _ _ H0) in E as [? _].
  - intros rel _ E. by apply (tree_check_spec _ _ _ _ _ H1) in E as [? _].
  - intros rel _ [m E]. by apply (tree_check_spec _ _ _ _ _ H0) in E as [_ ?].
  - intros rel _ [m E]. apply (tree_check_spec _ _ _ _ _ H1) in E as [_ (?&?&?&?&_)]. done.
  - intros rel _ [m E]. apply (tree_check_spec _ _ _ _ _ H1) in E as [_ (_&_&_&_&?)]. done.
Qed.

Lemma pipeline_molts_changed_witness :
  ∃ w1 w2 w3,
    Skin.main (S (fs_height ex_fs)) [B "skin"; B "/v0"; B "/out"] ex_world =
      (Stopped (Exit 0), w1) ∧
    Skin.main (S (fs_height (w_fs w1))) [B "skin"; B "/v1"; B "/out"] w1 =
      (Stopped (Exit 0), w2) ∧
    Molt.main (S (S (fs_height (w_fs w2))))
      [B "molt"; B "/out/v0__skin"; B "/out/v1__skin"] w2 = (Done tt, w3) ∧
    w_fs w3 !! [B "a.c"; B "lib"; B "v1__molt"; B "out"] = Some (NFile (B "long a;")).
Proof.
  destruct (pipeline_molts_changed (B "v0") (B "v1") [] [] [B "out"] ex_world ex_pipe_pre)
    as (w1 & w2 & w3 & H1 & H2 & H3 & Hm & _).
  exists w1, w2, w3. split; [exact H1|]. split; [exact H2|]. split; [exact H3|].
  apply (Hm [B "a.c"; B "lib"]). split; [vm_decide|]. split; [vm_refl|].
  exists (B "int a;"). split; [vm_refl|]. vm_decide.
Defined.

End Pipeline.
