(* ===== verification/Ctype.v ===== *)
(** * Character classes, [lib/ctype.c]

    The routines of the kernel library classify characters with macros of
    [linux/ctype.h], whose text is not in the repository.  The class [Ctype]
    states what the routines rely on; [kernel_ctype] is the instance that reads
    the table [_ctype] of [lib/ctype.c]. *)
From stdpp Require Import base numbers list strings.
From S2P Require Import Prelude.

Class Ctype := {
  isspace : Z → bool;
  isdigit : Z → bool;
  isxdigit : Z → bool;
  isalpha : Z → bool;
  tolower : Z → Z;
  _tolower : Z → Z;
  isspace_nul : isspace NUL = false;
  isspace_graph c : (33 ≤ c ≤ 126)%Z → isspace c = false;
  isdigit_spec c : is_byte c → isdigit c = true ↔ (48 ≤ c ≤ 57)%Z;
  isxdigit_spec c : is_byte c →
    isxdigit c = true ↔ (48 ≤ c ≤ 57 ∨ 65 ≤ c ≤ 70 ∨ 97 ≤ c ≤ 102)%Z;
  tolower_nul : tolower NUL = NUL;
  tolower_id c : (97 ≤ c ≤ 122 ∨ 48 ≤ c ≤ 57)%Z → tolower c = c;
  tolower_upper c : (65 ≤ c ≤ 90)%Z → tolower c = (c + 32)%Z;
  _tolower_x c : is_byte c → _tolower c = 120%Z ↔ (c = 88 ∨ c = 120)%Z;
}.

(** ** The table *)

Inductive cflag := _U | _L | _D | _C | _P | _S | _X | _SP.

#[export] Instance cflag_eq_dec : EqDecision cflag.
Proof. solve_decision. Defined.

Definition _ctype : list (list cflag) :=
  [[_C]; [_C]; [_C]; [_C]; [_C]; [_C]; [_C]; [_C];
   [_C]; [_C; _S]; [_C; _S]; [_C; _S]; [_C; _S]; [_C; _S]; [_C]; [_C];
   [_C]; [_C]; [_C]; [_C]; [_C]; [_C]; [_C]; [_C];
   [_C]; [_C]; [_C]; [_C]; [_C]; [_C]; [_C]; [_C];
   [_S; _SP]; [_P]; [_P]; [_P]; [_P]; [_P]; [_P]; [_P];
   [_P]; [_P]; [_P]; [_P]; [_P]; [_P]; [_P]; [_P];
   [_D]; [_D]; [_D]; [_D]; [_D]; [_D]; [_D]; [_D];
   [_D]; [_D]; [_P]; [_P]; [_P]; [_P]; [_P]; [_P];
   [_P]; [_U; _X]; [_U; _X]; [_U; _X]; [_U; _X]; [_U; _X]; [_U; _X]; [_U];
   [_U]; [_U]; [_U]; [_U]; [_U]; [_U]; [_U]; [_U];
   [_U]; [_U]; [_U]; [_U]; [_U]; [_U]; [_U]; [_U];
   [_U]; [_U]; [_U]; [_P]; [_P]; [_P]; [_P]; [_P];
   [_P]; [_L; _X]; [_L; _X]; [_L; _X]; [_L; _X]; [_L; _X]; [_L; _X]; [_L];
   [_L]; [_L]; [_L]; [_L]; [_L]; [_L]; [_L]; [_L];
   [_L]; [_L]; [_L]; [_L]; [_L]; [_L]; [_L]; [_L];
   [_L]; [_L]; [_L]; [_P]; [_P]; [_P]; [_P]; [_C]] ++
  replicate 32 [] ++
  [[_S; _SP]; [_P]; [_P]; [_P]; [_P]; [_P]; [_P]; [_P]; [_P]; [_P]; [_P]; [_P]; [_P]; [_P]; [_P]; [_P];
   [_P]; [_P]; [_P]; [_P]; [_P]; [_P]; [_P]; [_P]; [_P]; [_P]; [_P]; [_P]; [_P]; [_P]; [_P]; [_P];
   [_U]; [_U]; [_U]; [_U]; [_U]; [_U]; [_U]; [_U]; [_U]; [_U]; [_U]; [_U]; [_U]; [_U]; [_U]; [_U];
   [_U]; [_U]; [_U]; [_U]; [_U]; [_U]; [_U]; [_P]; [_U]; [_U]; [_U]; [_U]; [_U]; [_U]; [_U]; [_L];
   [_L]; [_L]; [_L]; [_L]; [_L]; [_L]; [_L]; [_L]; [_L]; [_L]; [_L]; [_L]; [_L]; [_L]; [_L]; [_L];
   [_L]; [_L]; [_L]; [_L]; [_L]; [_L]; [_L]; [_P]; [_L]; [_L]; [_L]; [_L]; [_L]; [_L]; [_L]; [_L]].

Definition ismask (fl : list cflag) (c : Z) : bool :=
  match _ctype !! Z.to_nat c with
  | Some l => existsb (λ f, bool_decide (f ∈ l)) fl
  | None => false
  end.

(** A statement about every byte, by going through them. *)
Lemma forall_bytes (P : Z → bool) :
  forallb P (Z.of_nat <$> seq 0 256) = true → ∀ c, is_byte c → P c = true.
Proof.
  intros Hall c Hc. rewrite forallb_forall in Hall. apply Hall.
  apply list_elem_of_In, list_elem_of_fmap. exists (Z.to_nat c).
  unfold is_byte in Hc. split; [lia|]. apply elem_of_seq. lia.
Qed.

Lemma ismask_digit c : is_byte c → ismask [_D] c = true ↔ (48 ≤ c ≤ 57)%Z.
Proof.
  intros Hc.
  assert (eqb (ismask [_D] c) ((48 <=? c) && (c <=? 57))%Z = true) as He.
  { revert c Hc. apply (forall_bytes (λ c, eqb (ismask [_D] c) ((48 <=? c) && (c <=? 57))%Z)).
    vm_refl. }
  apply eqb_prop in He as ->. rewrite andb_true_iff, !Z.leb_le. done.
Qed.

Lemma ismask_xdigit c : is_byte c →
  ismask [_D; _X] c = true ↔ (48 ≤ c ≤ 57 ∨ 65 ≤ c ≤ 70 ∨ 97 ≤ c ≤ 102)%Z.
Proof.
  intros Hc. set (q := λ c, ((48 <=? c) && (c <=? 57) || (65 <=? c) && (c <=? 70) ||
    (97 <=? c) && (c <=? 102))%Z).
  assert (eqb (ismask [_D; _X] c) (q c) = true) as He.
  { revert c Hc. apply (forall_bytes (λ c, eqb (ismask [_D; _X] c) (q c))). vm_refl. }
  apply eqb_prop in He as ->. unfold q.
  rewrite !orb_true_iff, !andb_true_iff, !Z.leb_le. lia.
Qed.

Definition tolower_c (c : Z) : Z := if ismask [_U] c then (c + 32)%Z else c.

Lemma tolower_c_spec c : is_byte c →
  (65 ≤ c ≤ 90)%Z ∧ tolower_c c = (c + 32)%Z ∨
  ¬ (65 ≤ c ≤ 90)%Z ∧ ((c < 128)%Z → tolower_c c = c).
Proof.
  intros Hc. unfold tolower_c.
  assert (eqb (ismask [_U] c && (c <? 128)%Z) ((65 <=? c) && (c <=? 90))%Z = true) as He.
  { revert c Hc. apply (forall_bytes (λ c, eqb (ismask [_U] c && (c <? 128)%Z)
      ((65 <=? c) && (c <=? 90))%Z)). vm_refl. }
  apply eqb_prop in He. destruct (ismask [_U] c), (Z.ltb_spec c 128),
    (Z.leb_spec 65 c), (Z.leb_spec c 90); simpl in He; try done; lia.
Qed.

#[export] Program Instance kernel_ctype : Ctype := {
  isspace := ismask [_S];
  isdigit := ismask [_D];
  isxdigit := ismask [_D; _X];
  isalpha := ismask [_U; _L];
  tolower := tolower_c;
  _tolower := λ c, Z.lor c 32;
  isdigit_spec := ismask_digit;
  isxdigit_spec := ismask_xdigit;
}.
Next Obligation. vm_refl. Qed.
Next Obligation.
  intros c Hc. assert (((33 <=? c) && (c <=? 126))%Z && ismask [_S] c = false) as He.
  { apply negb_true_iff. assert (is_byte c) as Hb by (unfold is_byte; lia). revert c Hb Hc.
    intros c Hb _. revert c Hb.
    apply (forall_bytes (λ c, negb (((33 <=? c) && (c <=? 126))%Z && ismask [_S] c))). vm_refl. }
  rewrite (proj2 (Z.leb_le _ _)), (proj2 (Z.leb_le _ _)) in He by lia. done.
Qed.
Next Obligation. vm_refl. Qed.
Next Obligation.
  intros c Hc. destruct (tolower_c_spec c) as [[? _]|[_ ->]]; unfold is_byte; lia.
Qed.
Next Obligation.
  intros c Hc. destruct (tolower_c_spec c) as [[_ ->]|[? _]]; unfold is_byte; lia.
Qed.
Next Obligation.
  intros c Hc.
  assert (eqb (Z.lor c 32 =? 120)%Z ((c =? 88) || (c =? 120))%Z = true) as He.
  { revert c Hc. apply (forall_bytes (λ c, eqb (Z.lor c 32 =? 120)%Z ((c =? 88) || (c =? 120))%Z)).
    vm_refl. }
  apply eqb_prop in He. rewrite <-Z.eqb_eq, He, orb_true_iff, !Z.eqb_eq. done.
Qed.
