(* ===== verification/KString.v ===== *)
(** * The kernel's string routines, [lib/string.c]

    The routines the managed kernel versions use where the architecture has no
    routine of its own.  A pointer that is read is the list of the bytes from it
    to the end of its object; an object that is written is passed and returned
    as such a list.  The result is an [option]: [None] is an access outside the
    object (or a [BUG()]), so that every [Some] of a theorem is also a statement
    about memory safety.  A returned pointer is its offset from the argument,
    with [None] for [NULL].  Sizes are [nat].

    The word-at-a-time helpers of [strscpy] come from a header of the
    architecture that is not in the repository: the class [WordAtATime] states
    their contract. *)
From stdpp Require Import base numbers sets strings list.
From S2P Require Import Prelude Ctype.

(** ** Words of eight bytes *)

(** The little-endian word of a list of bytes, and its bytes. *)
Fixpoint le_word (l : bytes) : Z :=
  match l with
  | [] => 0%Z
  | b :: l => (b + 256 * le_word l)%Z
  end.

Fixpoint le_bytes (n : nat) (w : Z) : bytes :=
  match n with
  | O => []
  | S n => (w mod 256)%Z :: le_bytes n (w / 256)%Z
  end.

Lemma le_bytes_word l : Forall is_byte l → le_bytes (length l) (le_word l) = l.
Proof.
  induction 1 as [|b l Hb _ IH]; cbn [length le_bytes le_word]; [done|].
  unfold is_byte in Hb.
  rewrite (Z.mul_comm 256), Z_mod_plus_full, Z.div_add, Z.mod_small, Z.div_small by lia.
  by rewrite Z.add_0_l, IH.
Qed.

(** The helpers of [word-at-a-time.h] on a little-endian machine: [has_zero]
    finds a zero byte in a word; from what it gives the others compute the mask
    of the bytes before the first one and its index. *)
Class WordAtATime := {
  has_zero : Z → option Z;
  prep_zero_mask : Z → Z → Z;
  create_zero_mask : Z → Z;
  zero_bytemask : Z → Z;
  find_zero : Z → nat;
  has_zero_spec l : length l = 8 → Forall is_byte l →
    match has_zero (le_word l) with
    | None => NUL ∉ l
    | Some data =>
        let data := create_zero_mask (prep_zero_mask (le_word l) data) in
        let i := find_zero data in
        find_byte NUL l = Some i ∧
        Z.land (le_word l) (zero_bytemask data) = le_word (take i l ++ replicate (8 - i) NUL)
    end;
}.

Module KString.

Section kstring.
Context `{Ctype}.
Local Open Scope Z_scope.

(** A returned pointer seen from [k] bytes before. *)
Definition shift (k : nat) (r : option (option nat)) : option (option nat) :=
  match r with
  | Some (Some i) => Some (Some (k + i)%nat)
  | r => r
  end.

(** ** Lengths *)

Fixpoint strlen (s : bytes) : option nat :=
  match s with
  | [] => None
  | c :: s => if c =? NUL then Some 0%nat else S <$> strlen s
  end.

Fixpoint strnlen (s : bytes) (count : nat) {struct count} : option nat :=
  match count with
  | O => Some 0%nat
  | S count =>
      match s with
      | [] => None
      | c :: s => if c =? NUL then Some 0%nat else S <$> strnlen s count
      end
  end.

(** ** Comparison *)

Fixpoint strncasecmp (s1 s2 : bytes) (len : nat) {struct len} : option Z :=
  match len with
  | O => Some 0
  | S len =>
      match s1, s2 with
      | c1 :: s1, c2 :: s2 =>
          if (c1 =? NUL) || (c2 =? NUL) then Some (c1 - c2)
          else if c1 =? c2 then strncasecmp s1 s2 len
          else
            let c1 := tolower c1 in
            let c2 := tolower c2 in
            if negb (c1 =? c2) then Some (c1 - c2) else strncasecmp s1 s2 len
      | _, _ => None
      end
  end.

Fixpoint strcasecmp (s1 s2 : bytes) : option Z :=
  match s1, s2 with
  | x :: s1, y :: s2 =>
      let c1 := tolower x in
      let c2 := tolower y in
      if (c1 =? c2) && negb (c1 =? 0) then strcasecmp s1 s2 else Some (c1 - c2)
  | _, _ => None
  end.

Fixpoint strcmp (cs ct : bytes) : option Z :=
  match cs, ct with
  | c1 :: cs, c2 :: ct =>
      if negb (c1 =? c2) then Some (if c1 <? c2 then -1 else 1)
      else if c1 =? NUL then Some 0
      else strcmp cs ct
  | _, _ => None
  end.

Fixpoint strncmp (cs ct : bytes) (count : nat) {struct count} : option Z :=
  match count with
  | O => Some 0
  | S count =>
      match cs, ct with
      | c1 :: cs, c2 :: ct =>
          if negb (c1 =? c2) then Some (if c1 <? c2 then -1 else 1)
          else if c1 =? NUL then Some 0
          else strncmp cs ct count
      | _, _ => None
      end
  end.

Fixpoint memcmp (cs ct : bytes) (count : nat) {struct count} : option Z :=
  match count with
  | O => Some 0
  | S count =>
      match cs, ct with
      | c1 :: cs, c2 :: ct =>
          if negb (c1 - c2 =? 0) then Some (c1 - c2) else memcmp cs ct count
      | _, _ => None
      end
  end.

Definition bcmp (a b : bytes) (len : nat) : option Z := memcmp a b len.

(** ** Copying *)

Fixpoint strcpy (dest src : bytes) : option bytes :=
  match dest, src with
  | _ :: dest, c :: src =>
      if c =? NUL then Some (c :: dest) else cons c <$> strcpy dest src
  | _, _ => None
  end.

Fixpoint strncpy (dest src : bytes) (count : nat) {struct count} : option bytes :=
  match count with
  | O => Some dest
  | S count =>
      match dest, src with
      | _ :: dest, c :: src' =>
          cons c <$> strncpy dest (if negb (c =? NUL) then src' else src) count
      | _, _ => None
      end
  end.

Fixpoint memcpy (dest src : bytes) (count : nat) {struct count} : option bytes :=
  match count with
  | O => Some dest
  | S count =>
      match dest, src with
      | _ :: dest, c :: src => cons c <$> memcpy dest src count
      | _, _ => None
      end
  end.

(** [s[i] = c] *)
Definition store_at (s : bytes) (i : nat) (c : Z) : option bytes :=
  match s !! i with Some _ => Some (<[i := c]> s) | None => None end.

Definition strlcpy (dest src : bytes) (size : nat) : option (nat * bytes) :=
  ret ← strlen src;
  match size with
  | O => Some (ret, dest)
  | S _ =>
      let len := if (size <=? ret)%nat then (size - 1)%nat else ret in
      dest ← memcpy dest src len;
      dest ← store_at dest len NUL;
      Some (ret, dest)
  end.

Fixpoint memset (s : bytes) (c : Z) (count : nat) {struct count} : option bytes :=
  match count with
  | O => Some s
  | S count =>
      match s with
      | [] => None
      | _ :: s => cons (w8 c) <$> memset s c count
      end
  end.

(** ** [strscpy] *)

Definition E2BIG : Z := 7.
Definition INT_MAX : Z := 2 ^ 31 - 1.
Definition PAGE_SIZE : Z := 4096.

Section strscpy.
Context `{WordAtATime}.

(** The loops give the number of bytes copied before a NUL, [None] if [count]
    ran out, and the new content. *)
Definition copied (pre : bytes) (r : option (option nat * bytes))
    : option (option nat * bytes) :=
  match r with
  | Some (n, d) => Some ((λ i, (length pre + i)%nat) <$> n, pre ++ d)
  | None => None
  end.

Fixpoint strscpy_bytes (dest src : bytes) (count : nat) {struct count}
    : option (option nat * bytes) :=
  match count with
  | O => Some (None, dest)
  | S count =>
      match dest, src with
      | _ :: dest, c :: src =>
          if c =? NUL then Some (Some 0%nat, c :: dest)
          else copied [c] (strscpy_bytes dest src count)
      | _, _ => None
      end
  end.

(** [words] is [max / sizeof(unsigned long)]. *)
Fixpoint strscpy_words (words : nat) (dest src : bytes) (count : nat)
    : option (option nat * bytes) :=
  match words with
  | O => strscpy_bytes dest src count
  | S words =>
      if (length src <? 8)%nat || (length dest <? 8)%nat then None
      else
        let c := le_word (take 8 src) in
        match has_zero c with
        | Some data =>
            let data := prep_zero_mask c data in
            let data := create_zero_mask data in
            Some (Some (find_zero data),
                  le_bytes 8 (Z.land c (zero_bytemask data)) ++ drop 8 dest)
        | None =>
            copied (le_bytes 8 c)
              (strscpy_words words (drop 8 dest) (drop 8 src) (count - 8)%nat)
        end
  end.

(** [dest_addr] and [src_addr] are the addresses; [efficient] is whether
    [CONFIG_HAVE_EFFICIENT_UNALIGNED_ACCESS] is set. *)
Definition strscpy_max (efficient : bool) (dest_addr src_addr : Z) (count : nat) : nat :=
  if efficient then
    if negb (Z.land src_addr 7 =? 0) then
      Nat.min count (Z.to_nat (PAGE_SIZE - Z.land src_addr (PAGE_SIZE - 1)))
    else count
  else
    if negb (Z.land (Z.lor dest_addr src_addr) 7 =? 0) then 0%nat else count.

Definition strscpy (efficient : bool) (dest_addr src_addr : Z)
    (dest src : bytes) (count : nat) : option (Z * bytes) :=
  if (count =? 0)%nat || (INT_MAX <? Z.of_nat count) then Some (- E2BIG, dest)
  else
    let max := strscpy_max efficient dest_addr src_addr count in
    r ← strscpy_words (max / 8) dest src count;
    match r with
    | (Some res, dest) => Some (Z.of_nat res, dest)
    | (None, dest) => dest ← store_at dest (count - 1) NUL; Some (- E2BIG, dest)
    end.

Definition strscpy_pad (efficient : bool) (dest_addr src_addr : Z)
    (dest src : bytes) (count : nat) : option (Z * bytes) :=
  r ← strscpy efficient dest_addr src_addr dest src count;
  let '(written, dest) := (r : Z * bytes) in
  if (written <? 0) || (written =? Z.of_nat count - 1) then Some (written, dest)
  else
    let n := Z.to_nat (written + 1) in
    tail ← memset (drop n dest) 0 (count - n)%nat;
    Some (written, take n dest ++ tail).

End strscpy.

(** [while ( *dest) dest++;] and the copy loop after it. *)
Fixpoint strcat (dest src : bytes) : option bytes :=
  match dest with
  | [] => None
  | d :: dest' => if d =? NUL then strcpy dest src else cons d <$> strcat dest' src
  end.

(** [while (( *dest++ = *src++) != 0) if (--count == 0) { *dest = 0; break; }] *)
Fixpoint strncat_loop (dest src : bytes) (count : nat) {struct count} : option bytes :=
  match count with
  | O => store_at dest 0 NUL
  | S count =>
      match dest, src with
      | _ :: dest, c :: src =>
          if c =? NUL then Some (c :: dest) else cons c <$> strncat_loop dest src count
      | _, _ => None
      end
  end.

Fixpoint strncat_end (dest src : bytes) (count : nat) : option bytes :=
  match dest with
  | [] => None
  | d :: dest' =>
      if d =? NUL then strncat_loop dest src count
      else cons d <$> strncat_end dest' src count
  end.

Definition strncat (dest src : bytes) (count : nat) : option bytes :=
  match count with
  | O => Some dest
  | _ => strncat_end dest src count
  end.

Definition strlcat (dest src : bytes) (count : nat) : option (nat * bytes) :=
  dsize ← strlen dest;
  len ← strlen src;
  if (count <=? dsize)%nat then None
  else
    let left := (count - dsize)%nat in
    let n := if (left <=? len)%nat then (left - 1)%nat else len in
    tail ← memcpy (drop dsize dest) src n;
    tail ← store_at tail n NUL;
    Some ((dsize + len)%nat, take dsize dest ++ tail).

(** The areas of [memset16], [memset32] and [memset64] are lists of words. *)
Fixpoint memset16 (s : list Z) (v : Z) (count : nat) {struct count} : option (list Z) :=
  match count, s with
  | O, _ => Some s
  | S _, [] => None
  | S count, _ :: s => cons v <$> memset16 s v count
  end.

Fixpoint memset32 (s : list Z) (v : Z) (count : nat) {struct count} : option (list Z) :=
  match count, s with
  | O, _ => Some s
  | S _, [] => None
  | S count, _ :: s => cons v <$> memset32 s v count
  end.

Fixpoint memset64 (s : list Z) (v : Z) (count : nat) {struct count} : option (list Z) :=
  match count, s with
  | O, _ => Some s
  | S _, [] => None
  | S count, _ :: s => cons v <$> memset64 s v count
  end.

(** [memmove] within one object [m], from offset [src] to offset [dest]. *)
Fixpoint memmove_up (m : bytes) (dest src count : nat) {struct count} : option bytes :=
  match count with
  | O => Some m
  | S count =>
      c ← m !! src;
      m ← store_at m dest c;
      memmove_up m (S dest) (S src) count
  end.

Fixpoint memmove_down (m : bytes) (dest src count : nat) {struct count} : option bytes :=
  match count with
  | O => Some m
  | S count =>
      c ← m !! (src + count)%nat;
      m ← store_at m (dest + count)%nat c;
      memmove_down m dest src count
  end.

Definition memmove (m : bytes) (dest src count : nat) : option bytes :=
  if (dest <=? src)%nat then memmove_up m dest src count
  else memmove_down m dest src count.

(** ** Searching *)

Fixpoint strchr (s : bytes) (c : Z) : option (option nat) :=
  match s with
  | [] => None
  | x :: s =>
      if x =? w8 c then Some (Some 0%nat)
      else if x =? NUL then Some None
      else shift 1 (strchr s c)
  end.

Fixpoint strchrnul (s : bytes) (c : Z) : option nat :=
  match s with
  | [] => None
  | x :: s => if negb (x =? NUL) && negb (x =? w8 c) then S <$> strchrnul s c
              else Some 0%nat
  end.

Fixpoint strrchr_loop (i : nat) (last : option nat) (s : bytes) (c : Z)
    : option (option nat) :=
  match s with
  | [] => None
  | x :: s =>
      let last := if x =? w8 c then Some i else last in
      if x =? NUL then Some last else strrchr_loop (S i) last s c
  end.

Definition strrchr (s : bytes) (c : Z) : option (option nat) :=
  strrchr_loop 0 None s c.

Fixpoint strnchr (s : bytes) (count : nat) (c : Z) {struct count} : option (option nat) :=
  match count with
  | O => Some None
  | S count =>
      match s with
      | [] => None
      | x :: s =>
          if x =? w8 c then Some (Some 0%nat)
          else if x =? NUL then Some None
          else shift 1 (strnchr s count c)
      end
  end.

Fixpoint skip_spaces (str : bytes) : option nat :=
  match str with
  | [] => None
  | c :: str => if isspace c then S <$> skip_spaces str else Some 0%nat
  end.

(** [end = s + size - 1; while (end >= s && isspace( *end)) end--;]: the number
    of bytes before [end + 1]. *)
Fixpoint strim_end (s : bytes) (size : nat) {struct size} : option nat :=
  match size with
  | O => Some 0%nat
  | S n => c ← s !! n; if isspace c then strim_end s n else Some (S n)
  end.

Definition strim (s : bytes) : option (nat * bytes) :=
  size ← strlen s;
  match size with
  | O => Some (0%nat, s)
  | _ =>
      n ← strim_end s size;
      s ← store_at s n NUL;
      i ← skip_spaces s;
      Some (i, s)
  end.

(** The inner loops of the set routines: is the byte in the string? *)
Fixpoint in_set (c : Z) (set : bytes) : option bool :=
  match set with
  | [] => None
  | a :: set => if a =? NUL then Some false
                else if c =? a then Some true else in_set c set
  end.

Fixpoint strspn (s accept : bytes) : option nat :=
  match s with
  | [] => None
  | c :: s =>
      if c =? NUL then Some 0%nat
      else b ← in_set c accept;
           if (b : bool) then S <$> strspn s accept else Some 0%nat
  end.

Fixpoint strcspn (s reject : bytes) : option nat :=
  match s with
  | [] => None
  | c :: s =>
      if c =? NUL then Some 0%nat
      else b ← in_set c reject;
           if (b : bool) then Some 0%nat else S <$> strcspn s reject
  end.

Fixpoint strpbrk (cs ct : bytes) : option (option nat) :=
  match cs with
  | [] => None
  | c :: cs =>
      if c =? NUL then Some None
      else b ← in_set c ct;
           if (b : bool) then Some (Some 0%nat) else shift 1 (strpbrk cs ct)
  end.

(** The string at [*s] after the call, the token, and the new [*s]. *)
Definition strsep (s : option bytes) (ct : bytes)
    : option (option (bytes * option bytes)) :=
  match s with
  | None => Some None
  | Some sbegin =>
      e ← strpbrk sbegin ct;
      match e with
      | Some i => s' ← store_at sbegin i NUL; Some (Some (s', Some (drop (S i) s')))
      | None => Some (Some (sbegin, None))
      end
  end.

(** [while ( *s1 && *s1 == *s2) s1++, s2++;], then the three tests. *)
Fixpoint sysfs_streq (s1 s2 : bytes) : option bool :=
  match s1, s2 with
  | c1 :: t1, c2 :: t2 =>
      if negb (c1 =? NUL) && (c1 =? c2) then sysfs_streq t1 t2
      else if c1 =? c2 then Some true
      else
        let nul_after t := match t with x :: _ => Some (x =? NUL) | [] => None end in
        if (c1 =? NUL) && (c2 =? NEWLINE) then nul_after t2
        else if (c1 =? NEWLINE) then
          b ← nul_after t1; Some (b && (c2 =? NUL))
        else Some false
  | _, _ => None
  end.

Definition EINVAL : Z := 22.

(** The arrays hold pointers, [None] for [NULL]. *)
Fixpoint match_string_from (index : Z) (array : list (option bytes)) (n : nat)
    (string : bytes) {struct n} : option Z :=
  match n with
  | O => Some (- EINVAL)
  | S n =>
      match array with
      | [] => None
      | None :: _ => Some (- EINVAL)
      | Some item :: array =>
          r ← strcmp item string;
          if r =? 0 then Some index else match_string_from (index + 1) array n string
      end
  end.

Definition match_string (array : list (option bytes)) (n : nat) (string : bytes)
    : option Z := match_string_from 0 array n string.

Fixpoint sysfs_match_string_from (index : Z) (array : list (option bytes)) (n : nat)
    (str : bytes) {struct n} : option Z :=
  match n with
  | O => Some (- EINVAL)
  | S n =>
      match array with
      | [] => None
      | None :: _ => Some (- EINVAL)
      | Some item :: array =>
          r ← sysfs_streq item str;
          if (r : bool) then Some index
          else sysfs_match_string_from (index + 1) array n str
      end
  end.

Definition sysfs_match_string (array : list (option bytes)) (n : nat) (str : bytes)
    : option Z := sysfs_match_string_from 0 array n str.

Fixpoint memscan (addr : bytes) (c : Z) (size : nat) {struct size} : option nat :=
  match size with
  | O => Some 0%nat
  | S size =>
      match addr with
      | [] => None
      | x :: addr => if x =? c then Some 0%nat else S <$> memscan addr c size
      end
  end.

Fixpoint memchr (s : bytes) (c : Z) (n : nat) {struct n} : option (option nat) :=
  match n with
  | O => Some None
  | S n =>
      match s with
      | [] => None
      | x :: s => if w8 c =? x then Some (Some 0%nat) else shift 1 (memchr s c n)
      end
  end.

(** [while (len >= l2) { len--; if (!memcmp(s1, s2, l2)) return s1; s1++; }] *)
Fixpoint strstr_loop (fuel : nat) (s1 s2 : bytes) (len l2 : nat)
    : option (option nat) :=
  if (l2 <=? len)%nat then
    r ← memcmp s1 s2 l2;
    if r =? 0 then Some (Some 0%nat)
    else match fuel, s1 with
         | S fuel, _ :: s1 => shift 1 (strstr_loop fuel s1 s2 (len - 1)%nat l2)
         | _, _ => None
         end
  else Some None.

Definition strstr (s1 s2 : bytes) : option (option nat) :=
  l2 ← strlen s2;
  if (l2 =? 0)%nat then Some (Some 0%nat)
  else l1 ← strlen s1; strstr_loop l1 s1 s2 l1 l2.

Definition strnstr (s1 s2 : bytes) (len : nat) : option (option nat) :=
  l2 ← strlen s2;
  if (l2 =? 0)%nat then Some (Some 0%nat) else strstr_loop len s1 s2 len l2.

(** ** [memchr_inv] *)

Fixpoint check_bytes8 (start : bytes) (value : Z) (n : nat) {struct n} : option (option nat) :=
  match n with
  | O => Some None
  | S n =>
      match start with
      | [] => None
      | x :: start => if negb (x =? value) then Some (Some 0%nat)
                      else shift 1 (check_bytes8 start value n)
      end
  end.

(** [value64 |= value64 << 8; ...] *)
Definition spread (value : Z) : Z :=
  let v := value in
  let v := w64 (Z.lor v (Z.shiftl v 8)) in
  let v := w64 (Z.lor v (Z.shiftl v 16)) in
  w64 (Z.lor v (Z.shiftl v 32)).

(** [while (words) ...] and the bytes after the words. *)
Fixpoint memchr_inv_words (start : bytes) (value value64 : Z) (words tail : nat)
    : option (option nat) :=
  match words with
  | O => check_bytes8 start value tail
  | S words =>
      if (length start <? 8)%nat then None
      else if negb (le_word (take 8 start) =? value64) then check_bytes8 start value 8
      else shift 8 (memchr_inv_words (drop 8 start) value value64 words tail)
  end.

(** [addr] is the address of [start]. *)
Definition memchr_inv (addr : Z) (start : bytes) (c : Z) (n : nat)
    : option (option nat) :=
  let value := w8 c in
  if (n <=? 16)%nat then check_bytes8 start value n
  else
    let value64 := spread value in
    let prefix := Z.to_nat (addr mod 8) in
    if (prefix =? 0)%nat then
      memchr_inv_words start value value64 (n / 8) (n mod 8)
    else
      let prefix := (8 - prefix)%nat in
      r ← check_bytes8 start value prefix;
      match r with
      | Some i => Some (Some i)
      | None =>
          let start := drop prefix start in
          let n := (n - prefix)%nat in
          shift prefix (memchr_inv_words start value value64 (n / 8) (n mod 8))
      end.

(** The string with its bytes replaced, and the offset of its end. *)
Fixpoint strreplace (s : bytes) (old new : Z) : option (nat * bytes) :=
  match s with
  | [] => None
  | c :: s =>
      if c =? NUL then Some (0%nat, c :: s)
      else
        r ← strreplace s old new;
        let '(n, s) := (r : nat * bytes) in
        Some (S n, (if c =? old then new else c) :: s)
  end.

(** ** Facts about the routines *)

Lemma cstr_ne_nul x s : is_cstr (x :: s) → x ≠ NUL ∧ is_cstr s.
Proof. intros [[_ ?] ?]%Forall_cons. done. Qed.

Ltac nul_case Hs :=
  apply cstr_ne_nul in Hs as [? Hs]; cbn [app];
  try rewrite (proj2 (Z.eqb_neq _ NUL)) by done.

Lemma strlen_cstr a k : is_cstr a → strlen (a ++ NUL :: k) = Some (length a).
Proof.
  induction a as [|x a IH]; intros Ha; [done|]. cbn [strlen app].
  nul_case Ha. by rewrite IH.
Qed.

Definition sign (c : comparison) : Z :=
  match c with Eq => 0 | Lt => -1 | Gt => 1 end.

Lemma strcmp_cstr a b ra rb :
  is_cstr a → is_cstr b →
  strcmp (a ++ NUL :: ra) (b ++ NUL :: rb) = Some (sign (bytes_compare a b)).
Proof.
  revert b; induction a as [|x a IH]; intros b Ha Hb; destruct b as [|y b];
    cbn [strcmp app bytes_compare].
  - done.
  - apply Forall_cons in Hb as [[Hy Hy0] _]. unfold is_byte, NUL in *.
    rewrite (proj2 (Z.eqb_neq 0 y)) by lia. by rewrite (proj2 (Z.ltb_lt 0 y)) by lia.
  - apply Forall_cons in Ha as [[Hx Hx0] _]. unfold is_byte, NUL in *.
    rewrite (proj2 (Z.eqb_neq x 0)) by lia. by rewrite (proj2 (Z.ltb_ge x 0)) by lia.
  - nul_case Ha. apply cstr_ne_nul in Hb as [_ Hb].
    destruct (Z.compare_spec x y) as [->|Hlt|Hlt]; cbn [negb].
    + rewrite Z.eqb_refl. by apply IH.
    + rewrite (proj2 (Z.eqb_neq x y)), (proj2 (Z.ltb_lt x y)) by lia. done.
    + rewrite (proj2 (Z.eqb_neq x y)), (proj2 (Z.ltb_ge x y)) by lia. done.
Qed.

Lemma memcpy_spec dest src n :
  (n ≤ length dest)%nat → (n ≤ length src)%nat →
  memcpy dest src n = Some (take n src ++ drop n dest).
Proof.
  revert dest src; induction n as [|n IH]; intros dest src Hd Hs; [done|].
  destruct dest as [|d dest], src as [|c src]; simpl in *; try lia.
  by rewrite IH by lia.
Qed.

Lemma store_at_spec s i c :
  (i < length s)%nat → store_at s i c = Some (take i s ++ c :: drop (S i) s).
Proof.
  intros Hi. unfold store_at. destruct (lookup_lt_is_Some_2 s i Hi) as [x ->].
  by rewrite insert_take_drop.
Qed.

(** A copy of [n] bytes and a NUL after them. *)
Lemma copy_nul dest src n :
  (n < length dest)%nat → (n ≤ length src)%nat →
  (dest ← memcpy dest src n; store_at dest n NUL) =
    Some (take n src ++ NUL :: drop (S n) dest).
Proof.
  intros Hd Hs. rewrite memcpy_spec by lia. cbn [mbind option_bind].
  rewrite store_at_spec by (rewrite length_app, length_take, length_drop; lia).
  f_equal. rewrite take_app_le, take_take, Nat.min_id by (rewrite length_take; lia).
  f_equal. f_equal. rewrite drop_app_ge by (rewrite length_take; lia).
  rewrite drop_drop, length_take. f_equal. lia.
Qed.

(** ** [memmove] *)

Lemma memmove_up_lookup m dest src count :
  (dest ≤ src)%nat → (src + count ≤ length m)%nat →
  ∃ m', memmove_up m dest src count = Some m' ∧
    ∀ i, m' !! i = if decide (dest ≤ i < dest + count)%nat
                   then m !! (src + (i - dest))%nat else m !! i.
Proof.
  revert m dest src; induction count as [|count IH]; intros m dest src Hle Hlen;
    cbn [memmove_up].
  - exists m. split; [done|]. intros i. by rewrite decide_False by lia.
  - destruct (lookup_lt_is_Some_2 m src) as [c Hc]; [lia|]. rewrite Hc.
    cbn [mbind option_bind]. unfold store_at.
    destruct (lookup_lt_is_Some_2 m dest) as [d Hd]; [lia|]. rewrite Hd.
    cbn [mbind option_bind].
    destruct (IH (<[dest := c]> m) (S dest) (S src)) as (m' & -> & Hm');
      [lia|rewrite length_insert; lia|].
    exists m'. split; [done|]. intros i. rewrite Hm'.
    destruct (decide (i = dest)) as [->|Hne].
    + rewrite decide_False, decide_True by lia.
      rewrite list_lookup_insert_eq by lia. by replace (src + (dest - dest))%nat with src by lia.
    + repeat case_decide; try lia.
      * rewrite list_lookup_insert_ne by lia. f_equal. lia.
      * by rewrite list_lookup_insert_ne by lia.
Qed.

Lemma memmove_down_lookup m dest src count :
  (src ≤ dest)%nat → (dest + count ≤ length m)%nat →
  ∃ m', memmove_down m dest src count = Some m' ∧
    ∀ i, m' !! i = if decide (dest ≤ i < dest + count)%nat
                   then m !! (src + (i - dest))%nat else m !! i.
Proof.
  revert m; induction count as [|count IH]; intros m Hle Hlen; cbn [memmove_down].
  - exists m. split; [done|]. intros i. by rewrite decide_False by lia.
  - destruct (lookup_lt_is_Some_2 m (src + count)%nat) as [c Hc]; [lia|]. rewrite Hc.
    cbn [mbind option_bind]. unfold store_at.
    destruct (lookup_lt_is_Some_2 m (dest + count)%nat) as [d Hd]; [lia|]. rewrite Hd.
    cbn [mbind option_bind].
    destruct (IH (<[(dest + count)%nat := c]> m)) as (m' & -> & Hm');
      [lia|rewrite length_insert; lia|].
    exists m'. split; [done|]. intros i. rewrite Hm'.
    destruct (decide (i = dest + count)%nat) as [->|Hne].
    + rewrite decide_False, decide_True by lia.
      rewrite list_lookup_insert_eq by lia.
      by replace (src + (dest + count - dest))%nat with (src + count)%nat by lia.
    + repeat case_decide; try lia.
      * rewrite list_lookup_insert_ne by lia. done.
      * by rewrite list_lookup_insert_ne by lia.
Qed.

(** ** [strscpy] *)

(** What a copy loop leaves of a string [a] in an area [dest]. *)
Definition scpy (a : bytes) (count : nat) (dest : bytes)
    (r : option (option nat * bytes)) : Prop :=
  ∃ o d, r = Some (o, d) ∧ length d = length dest ∧ drop count d = drop count dest ∧
    if decide (length a < count)%nat
    then o = Some (length a) ∧ take (S (length a)) d = a ++ [NUL]
    else o = None ∧ take count d = take count a.

Lemma scpy_copied pre a count dest r :
  (length pre ≤ count ≤ length dest)%nat →
  scpy a (count - length pre) (drop (length pre) dest) r →
  scpy (pre ++ a) count dest (copied pre r).
Proof.
  intros Hn (o & d & -> & Hl & Hd & Ho). rewrite length_drop in Hl.
  eexists _, _. split; [reflexivity|]. split; [rewrite length_app; lia|]. split.
  { rewrite drop_app_ge by lia. rewrite Hd, drop_drop. f_equal. lia. }
  rewrite length_app. repeat case_decide; try lia; destruct Ho as [-> Ho]; split; try done.
  - replace (S (length pre + length a)) with (length pre + S (length a))%nat by lia.
    rewrite take_app_add, Ho. by rewrite (assoc_L (++)).
  - rewrite !take_app_ge by lia. by rewrite Ho.
Qed.

Lemma strscpy_bytes_scpy a k dest count :
  is_cstr a → (count ≤ length dest)%nat →
  scpy a count dest (strscpy_bytes dest (a ++ NUL :: k) count).
Proof.
  revert a dest; induction count as [|count IH]; intros a dest Ha Hc; cbn [strscpy_bytes].
  { exists None, dest. rewrite decide_False by lia. done. }
  destruct dest as [|d dest]; [simpl in Hc; lia|]. destruct a as [|x a]; cbn [app].
  - exists (Some 0%nat), (NUL :: dest). rewrite decide_True by (simpl; lia). done.
  - nul_case Ha. apply (scpy_copied [x]); [simpl in *; lia|].
    replace (S count - length [x])%nat with count by (simpl; lia).
    apply IH; [done|simpl in *; lia].
Qed.

Section strscpy_proof.
Context `{WordAtATime}.

(** The words that are read, of a string of [n] bytes, are in the first [size] bytes. *)
Definition words_mapped (words n size : nat) : Prop :=
  ∀ j, (j < words)%nat → (8 * j ≤ n)%nat → (8 * j + 8 ≤ size)%nat.

Lemma strscpy_words_scpy words a k dest count :
  is_cstr a → Forall is_byte k → (8 * words ≤ count ≤ length dest)%nat →
  words_mapped words (length a) (length (a ++ NUL :: k)) →
  scpy a count dest (strscpy_words words dest (a ++ NUL :: k) count).
Proof.
  revert a dest count; induction words as [|words IH]; intros a dest count Ha Hk Hc Hr;
    cbn [strscpy_words]; [apply strscpy_bytes_scpy; [done|lia]|].
  set (src := a ++ NUL :: k) in *.
  assert (Forall is_byte src) as Hb.
  { apply Forall_app. split; [by eapply Forall_impl; [exact Ha|intros ? []]|].
    constructor; [vm_decide|done]. }
  assert (8 ≤ length src)%nat by (apply (Hr 0%nat); lia).
  rewrite (proj2 (Nat.ltb_ge (length src) 8)) by lia.
  rewrite (proj2 (Nat.ltb_ge (length dest) 8)) by lia. cbn [orb].
  assert (length (take 8 src) = 8%nat) as H8 by (rewrite length_take; lia).
  pose proof (has_zero_spec (take 8 src) H8 (Forall_take _ _ _ Hb)) as Hz.
  destruct (has_zero _) as [data|].
  - destruct Hz as [Hi Hm]. cbv zeta. set (i := find_zero _) in *. rewrite Hm.
    assert (i = length a ∧ (i < 8)%nat) as [Hia Hi8].
    { destruct (decide (length a < 8)%nat) as [Hlt|Hge].
      - unfold src in Hi. rewrite take_app_ge in Hi by lia.
        replace (8 - length a)%nat with (S (7 - length a)) in Hi by lia.
        cbn [take] in Hi. rewrite find_byte_app in Hi; [split; [congruence|]|].
        + simplify_eq. lia.
        + intros Hn. eapply Forall_forall in Ha; [|exact Hn]. by destruct Ha.
      - unfold src in Hi. rewrite take_app_le in Hi by lia.
        assert (find_byte NUL (take 8 a) = None) as E; [|congruence].
        apply find_byte_None. intros Hn%elem_of_take.
        destruct Hn as (j & Hj & _). apply list_elem_of_lookup_2 in Hj.
        eapply Forall_forall in Ha; [|exact Hj]. by destruct Ha. }
    assert (take i (take 8 src) = a) as ->.
    { rewrite take_take, Nat.min_l by lia. unfold src. rewrite Hia. apply take_app_length. }
    set (wd := a ++ replicate (8 - i) NUL).
    assert (length wd = 8%nat) as Hw by (unfold wd; rewrite length_app, length_replicate; lia).
    rewrite <- Hw at 1. rewrite le_bytes_word.
    2: { unfold wd. apply Forall_app. split; [by eapply Forall_impl; [exact Ha|intros ? []]|].
         apply Forall_replicate. vm_decide. }
    eexists _, _. split; [reflexivity|]. split; [rewrite length_app, length_drop; lia|]. split.
    { rewrite drop_app_ge, drop_drop by lia. f_equal. lia. }
    rewrite decide_True by lia. split; [by rewrite Hia|].
    unfold wd. rewrite <- (assoc_L (++)). replace (8 - i)%nat with (S (7 - i)) by lia.
    cbn [replicate app]. replace (S (length a)) with (length a + 1)%nat by lia.
    rewrite take_app_add. done.
  - assert (8 ≤ length a)%nat as Hla.
    { destruct (decide (length a < 8)%nat) as [Hlt|]; [|lia]. exfalso. apply Hz.
      unfold src. rewrite take_app_ge by lia.
      replace (8 - length a)%nat with (S (7 - length a)) by lia. cbn [take]. set_solver. }
    assert (le_bytes 8 (le_word (take 8 src)) = take 8 src) as ->.
    { rewrite <- H8 at 1. apply le_bytes_word. by apply Forall_take. }
    assert (take 8 src = take 8 a) as E8 by (unfold src; by rewrite take_app_le).
    assert (drop 8 src = drop 8 a ++ NUL :: k) as Ed8 by (unfold src; by rewrite drop_app_le).
    rewrite E8, Ed8. rewrite <- (take_drop 8 a) at 1.
    assert (length (take 8 a) = 8%nat) as Hl8 by (rewrite length_take; lia).
    apply scpy_copied; rewrite Hl8; [lia|]. apply IH; [by apply Forall_drop|done| |].
    + rewrite length_drop. lia.
    + intros j Hj Hja. unfold src in Hr. rewrite !length_app, length_drop in *.
      cbn [length] in *. specialize (Hr (S j)). lia.
Qed.

(** The memory of the source is mapped up to the end, at least, of the page that holds the
    byte [n] of it. *)
Definition page_mapped (addr : Z) (n size : nat) : Prop :=
  (addr + Z.of_nat n) / PAGE_SIZE * PAGE_SIZE + PAGE_SIZE ≤ addr + Z.of_nat size.

(** The page and alignment tests let no word be read behind that page. *)
Lemma strscpy_max_mapped efficient da sa count n size : page_mapped sa n size →
  words_mapped (strscpy_max efficient da sa count / 8) n size.
Proof.
  intros Hp j Hj Hn. pose proof (Nat.Div0.mul_div_le (strscpy_max efficient da sa count) 8) as Hm.
  unfold page_mapped in Hp. assert (8 * j + 8 ≤ strscpy_max efficient da sa count)%nat as Hw by lia.
  clear Hj Hm. unfold strscpy_max in Hw.
  assert (sa mod 8 = 0 → (8 * j + 8 ≤ size)%nat) as Haligned.
  { intros Ha. unfold PAGE_SIZE in Hp. Z.div_mod_to_equations. lia. }
  change (PAGE_SIZE - 1) with (Z.ones 12) in Hw. change 7 with (Z.ones 3) in Hw.
  rewrite !Z.land_ones in Hw by lia. change (2 ^ 3) with 8 in Hw. change (2 ^ 12) with PAGE_SIZE in Hw.
  destruct efficient.
  - destruct (Z.eqb_spec (sa mod 8) 0) as [Ha|_]; [by apply Haligned|]. cbn [negb] in Hw.
    unfold PAGE_SIZE in *. Z.div_mod_to_equations. lia.
  - destruct (Z.eqb_spec (Z.lor da sa mod 8) 0) as [Ha|_]; cbn [negb] in Hw; [|lia].
    apply Haligned. change 8 with (2 ^ 3) in Ha |- *. rewrite <-Z.land_ones in * by lia.
    rewrite Z.land_comm, Z.land_lor_distr_r in Ha. apply Z.lor_eq_0_iff in Ha as [_ Ha].
    by rewrite Z.land_comm.
Qed.

Lemma strscpy_max_le efficient da sa count :
  (strscpy_max efficient da sa count ≤ count)%nat.
Proof. unfold strscpy_max. repeat case_match; lia. Qed.

Lemma strscpy_scpy efficient da sa a k dest count :
  is_cstr a → Forall is_byte k → page_mapped sa (length a) (length (a ++ NUL :: k)) →
  (count ≤ length dest)%nat →
  ∃ ret d, strscpy efficient da sa dest (a ++ NUL :: k) count = Some (ret, d) ∧
    length d = length dest ∧ drop count d = drop count dest ∧
    if decide (count = 0%nat ∨ INT_MAX < Z.of_nat count)
    then ret = - E2BIG ∧ d = dest
    else if decide (length a < count)%nat
    then ret = Z.of_nat (length a) ∧ take (S (length a)) d = a ++ [NUL]
    else ret = - E2BIG ∧ take count d = take (count - 1) a ++ [NUL].
Proof.
  intros Ha Hk Hr%(strscpy_max_mapped efficient da sa count) Hc. unfold strscpy.
  case_decide as Hbad.
  { exists (- E2BIG), dest. split_and!; try done.
    destruct Hbad as [->|Hbad]; [done|]. by rewrite (proj2 (Z.ltb_lt _ _) Hbad), orb_true_r. }
  apply Decidable.not_or in Hbad as [Hc0 Hmax%Z.nlt_ge].
  rewrite (proj2 (Nat.eqb_neq _ _) Hc0), (proj2 (Z.ltb_ge _ _) Hmax). cbn [orb].
  pose proof (strscpy_max_le efficient da sa count) as Hle.
  set (max := strscpy_max _ _ _ _) in *.
  pose proof (Nat.Div0.mul_div_le max 8) as Hdiv.
  destruct (strscpy_words_scpy (max / 8) a k dest count) as (o & d & -> & Hl & Hd & Ho);
    [done|done|lia|done|].
  cbn [mbind option_bind]. case_decide; destruct Ho as [-> Ho].
  - eauto 10.
  - rewrite store_at_spec by lia. cbn [mbind option_bind].
    replace (S (count - 1)) with count by lia.
    eexists _, _. split; [reflexivity|].
    assert (length (take (count - 1) d) = (count - 1)%nat) as Hlt by (rewrite length_take; lia).
    split; [rewrite length_app; cbn [length]; rewrite length_drop; lia|]. split; [|split; [done|]].
    + rewrite drop_app_ge by lia. rewrite Hlt.
      replace (count - (count - 1))%nat with 1%nat by lia. by cbn [drop].
    + rewrite take_app_ge by lia. rewrite Hlt.
      replace (count - (count - 1))%nat with 1%nat by lia. cbn [take]. f_equal.
      transitivity (take (count - 1) (take count d)); [by rewrite take_take, Nat.min_l by lia|].
      by rewrite Ho, take_take, Nat.min_l by lia.
Qed.

End strscpy_proof.

(** ** [strstr] *)

Lemma memcmp_prefix a b s :
  (length b ≤ length a)%nat →
  ∃ r, memcmp (a ++ s) b (length b) = Some r ∧ ((r =? 0) = starts_with b a).
Proof.
  revert a; induction b as [|y b IH]; intros a Hl; cbn [length memcmp starts_with].
  - by exists 0.
  - destruct a as [|x a]; [simpl in Hl; lia|]. cbn [app]. simpl in Hl.
    rewrite (Z.eqb_sym y x). destruct (Z.eqb_spec (x - y) 0); cbn [negb].
    + rewrite (proj2 (Z.eqb_eq x y)) by lia. apply IH. lia.
    + rewrite (proj2 (Z.eqb_neq x y)) by lia. exists (x - y).
      by rewrite (proj2 (Z.eqb_neq _ _)).
Qed.

Lemma memcmp_ext cs ct k count :
  (count ≤ length ct)%nat → memcmp cs (ct ++ k) count = memcmp cs ct count.
Proof.
  revert cs ct; induction count as [|n IH]; intros cs ct Hl; [done|].
  destruct ct as [|c ct]; [simpl in Hl; lia|]. destruct cs as [|d cs]; [done|].
  simpl in *. case_match; [done|]. apply IH. lia.
Qed.

Lemma find_sub_short b a : (length a < length b)%nat → find_sub b a = None.
Proof.
  intros Hl. destruct (find_sub b a) as [i|] eqn:E; [|done].
  apply find_sub_Some in E as [k E]. apply (f_equal length) in E.
  rewrite !length_app in E. lia.
Qed.

Lemma strstr_loop_spec fuel a ka b kb :
  (length a ≤ fuel)%nat → b ≠ [] →
  strstr_loop fuel (a ++ NUL :: ka) (b ++ kb) (length a) (length b) =
    Some (find_sub b a).
Proof.
  intros Hf Hb. revert a Hf; induction fuel as [|fuel IH]; intros a Hf;
    unfold strstr_loop; fold strstr_loop;
    (destruct (Nat.leb_spec (length b) (length a)) as [Hle|Hlt];
      [|by rewrite find_sub_short]).
  { destruct b; [done|]. simpl in Hle. lia. }
  rewrite memcmp_ext by lia. destruct (memcmp_prefix a b (NUL :: ka) Hle) as (r & -> & Hr).
  cbn [mbind option_bind]. rewrite Hr. destruct a as [|x a].
  { destruct b; [done|]. simpl in Hle. lia. }
  cbn [find_sub]. destruct (starts_with b (x :: a)); [done|].
  cbn [app length]. replace (S (length a) - 1)%nat with (length a) by lia.
  rewrite IH by (simpl in Hf; lia). by destruct (find_sub b a).
Qed.

(** ** [memchr_inv] *)

(** The first byte other than [c]. *)
Fixpoint find_other (c : Z) (l : bytes) : option nat :=
  match l with
  | [] => None
  | x :: l => if x =? c then S <$> find_other c l else Some 0%nat
  end.

Lemma shift_fmap k o : shift k (Some o) = Some ((λ i, (k + i)%nat) <$> o).
Proof. by destruct o. Qed.

Lemma check_bytes8_spec s v n :
  (n ≤ length s)%nat → check_bytes8 s v n = Some (find_other v (take n s)).
Proof.
  revert s; induction n as [|n IH]; intros s Hn; [done|].
  destruct s as [|x s]; [simpl in Hn; lia|]. cbn [check_bytes8 take find_other].
  destruct (x =? v); cbn [negb]; [|done].
  rewrite IH by (simpl in Hn; lia). by rewrite shift_fmap.
Qed.

Lemma le_word_inj a b : Forall is_byte a → Forall is_byte b → length a = length b →
  le_word a = le_word b → a = b.
Proof.
  intros Ha. revert b; induction Ha as [|x a Hx _ IH]; intros b Hb Hl E;
    destruct Hb as [|y b Hy Hb]; try done. cbn [le_word] in E. unfold is_byte in *.
  assert (x = y ∧ le_word a = le_word b) as [-> E'] by lia.
  f_equal. apply IH; auto.
Qed.

Lemma spread_spec v : is_byte v → spread v = le_word (replicate 8 v).
Proof.
  intros Hv. apply Z.eqb_eq.
  revert v Hv. apply (forall_bytes (λ v, spread v =? le_word (replicate 8 v))). vm_refl.
Qed.

Lemma find_other_app c a b :
  find_other c (a ++ b) =
  match find_other c a with
  | Some i => Some i
  | None => (λ i, (length a + i)%nat) <$> find_other c b
  end.
Proof.
  induction a as [|x a IH]; cbn [app find_other length].
  - by destruct (find_other c b).
  - destruct (x =? c); [|done]. rewrite IH.
    by destruct (find_other c a), (find_other c b).
Qed.

Lemma find_other_None c l : find_other c l = None ↔ l = replicate (length l) c.
Proof.
  induction l as [|x l IH]; cbn [find_other length replicate]; [done|].
  destruct (Z.eqb_spec x c) as [->|Hne].
  - rewrite fmap_None, IH. split; [congruence|]. intros E. by injection E.
  - split; [done|]. intros E. by injection E as ? _.
Qed.

Lemma memchr_inv_words_spec s v words tail :
  is_byte v → Forall is_byte s → (8 * words + tail ≤ length s)%nat →
  memchr_inv_words s v (spread v) words tail =
    Some (find_other v (take (8 * words + tail) s)).
Proof.
  intros Hv. revert s; induction words as [|words IH]; intros s Hs Hl; cbn [memchr_inv_words].
  { by apply check_bytes8_spec. }
  rewrite (proj2 (Nat.ltb_ge _ _)) by lia.
  assert (length (take 8 s) = 8%nat) as H8 by (rewrite length_take; lia).
  replace (8 * S words + tail)%nat with (8 + (8 * words + tail))%nat by lia.
  rewrite <- take_take_drop, find_other_app.
  assert (le_word (take 8 s) = spread v ↔ find_other v (take 8 s) = None) as Hw.
  { rewrite find_other_None, H8, spread_spec by done. split; [|by intros ->].
    intros E. apply le_word_inj; [by apply Forall_take|by apply Forall_replicate|done|done]. }
  destruct (Z.eqb_spec (le_word (take 8 s)) (spread v)) as [E|E]; cbn [negb].
  - apply Hw in E as ->. rewrite IH by (try apply Forall_drop; try rewrite length_drop; auto; lia).
    rewrite shift_fmap, H8. done.
  - rewrite check_bytes8_spec by lia.
    destruct (find_other v (take 8 s)); [done|]. by destruct E; apply Hw.
Qed.

(** ** Tokens *)

Lemma in_set_spec c set k :
  is_cstr set → in_set c (set ++ NUL :: k) = Some (bool_decide (c ∈ set)).
Proof.
  induction set as [|x set IH]; intros Hs; cbn [in_set app]; [done|].
  nul_case Hs. destruct (Z.eqb_spec c x) as [->|Hne].
  - by rewrite bool_decide_eq_true_2 by set_solver.
  - rewrite IH by done. f_equal. apply bool_decide_ext. set_solver.
Qed.

(** The fields of a string between the bytes of a set. *)
Fixpoint split_set (set s : bytes) : list bytes :=
  match s with
  | [] => [[]]
  | x :: s =>
      if bool_decide (x ∈ set) then [] :: split_set set s
      else match split_set set s with
           | [] => [[x]]
           | w :: ws => (x :: w) :: ws
           end
  end.

Lemma split_set_nonempty set s : ∃ w ws, split_set set s = w :: ws.
Proof.
  destruct s as [|x s]; cbn [split_set]; [eauto|]. case_bool_decide; [eauto|].
  destruct (split_set set s); eauto.
Qed.

(** [strpbrk] ends the first field. *)
Lemma strpbrk_split s k ct kt :
  is_cstr s → is_cstr ct →
  ∃ w ws, split_set ct s = w :: ws ∧
    match strpbrk (s ++ NUL :: k) (ct ++ NUL :: kt) with
    | Some None => w = s ∧ ws = []
    | Some (Some i) =>
        ∃ x rest, s = w ++ x :: rest ∧ i = length w ∧ split_set ct rest = ws
    | None => False
    end.
Proof.
  intros Hs Hct. induction s as [|x s IH]; cbn [strpbrk app split_set].
  { by exists [], []. }
  nul_case Hs. rewrite in_set_spec by done. cbn [mbind option_bind].
  destruct (IH Hs) as (w & ws & Hsplit & Hp). case_bool_decide.
  - exists [], (split_set ct s). split; [done|]. by exists x, s.
  - rewrite Hsplit. exists (x :: w), ws. split; [done|].
    destruct (strpbrk _ _) as [[i|]|]; cbn [shift]; [| |done].
    + destruct Hp as (y & rest & -> & -> & Hr). by exists y, rest.
    + destruct Hp as [-> ->]. done.
Qed.

(** [while ((tok = strsep(&s, ct)) != NULL) ...]: the tokens a caller sees. *)
Fixpoint cstring (s : bytes) : option bytes :=
  match s with
  | [] => None
  | c :: s => if c =? NUL then Some [] else cons c <$> cstring s
  end.

Fixpoint strsep_all (fuel : nat) (s : option bytes) (ct : bytes) : option (list bytes) :=
  match fuel with
  | O => None
  | S fuel =>
      r ← strsep s ct;
      match r with
      | None => Some []
      | Some (tok, s) =>
          w ← cstring tok;
          ws ← strsep_all fuel s ct;
          Some (w :: ws)
      end
  end.

Lemma cstring_cstr s k : is_cstr s → cstring (s ++ NUL :: k) = Some s.
Proof.
  induction s as [|x s IH]; intros Hs; cbn [cstring app]; [done|].
  nul_case Hs. by rewrite IH.
Qed.

Lemma strsep_all_spec fuel s k ct kt :
  is_cstr s → is_cstr ct → (S (length s) < fuel)%nat →
  strsep_all fuel (Some (s ++ NUL :: k)) (ct ++ NUL :: kt) = Some (split_set ct s).
Proof.
  intros Hs Hct. revert s Hs; induction fuel as [|fuel IH]; intros s Hs Hf; [lia|].
  cbn [strsep_all strsep]. destruct (strpbrk_split s k ct kt Hs Hct) as (w & ws & -> & Hp).
  destruct (strpbrk _ _) as [[i|]|]; cbn [mbind option_bind]; [| |done].
  - destruct Hp as (x & rest & -> & -> & Hr). apply Forall_app in Hs as [Hw Hrest].
    apply cstr_ne_nul in Hrest as [_ Hrest].
    rewrite length_app in Hf. cbn [length] in Hf.
    rewrite store_at_spec by (rewrite !length_app; cbn [length]; lia).
    cbn [mbind option_bind]. rewrite <- (assoc_L (++)), take_app_length. cbn [app].
    rewrite !drop_app_S, cstring_cstr by done. cbn [mbind option_bind].
    rewrite IH by (done || lia). cbn [mbind option_bind]. by rewrite Hr.
  - destruct Hp as [-> ->]. rewrite cstring_cstr by done. cbn [mbind option_bind].
    destruct fuel as [|fuel]; [simpl in Hf; lia|]. done.
Qed.

(** ** Trimming *)

Fixpoint lstrip (s : bytes) : bytes :=
  match s with
  | [] => []
  | c :: s' => if isspace c then lstrip s' else s
  end.

Definition rstrip (s : bytes) : bytes := rev (lstrip (rev s)).

Lemma strim_end_spec s k n :
  (n ≤ length s)%nat → strim_end (s ++ k) n = Some (length (rstrip (take n s))).
Proof.
  unfold rstrip. induction n as [|n IH]; intros Hn; cbn [strim_end]; [done|].
  destruct (lookup_lt_is_Some_2 s n) as [c Hc]; [lia|].
  rewrite lookup_app_l, Hc by lia. cbn [mbind option_bind].
  rewrite (take_S_r _ _ _ Hc), rev_app_distr. cbn [rev app lstrip].
  destruct (isspace c); [apply IH; lia|].
  rewrite length_rev, length_cons, length_rev, length_take. f_equal. lia.
Qed.

Lemma lstrip_suffix s : ∃ k, s = k ++ lstrip s.
Proof.
  induction s as [|c s [k IH]]; cbn [lstrip]; [by exists []|].
  destruct (isspace c); [exists (c :: k); by rewrite IH at 1|by exists []].
Qed.

Lemma rstrip_prefix s : ∃ k, s = rstrip s ++ k.
Proof.
  destruct (lstrip_suffix (rev s)) as [k Hk]. exists (rev k). unfold rstrip.
  by rewrite <- rev_app_distr, <- Hk, rev_involutive.
Qed.

Lemma skip_spaces_spec s k :
  is_cstr s → ∃ i, skip_spaces (s ++ NUL :: k) = Some i ∧
    drop i (s ++ NUL :: k) = lstrip s ++ NUL :: k.
Proof.
  induction s as [|c s IH]; intros Hs; cbn [skip_spaces app lstrip].
  - rewrite isspace_nul. by exists 0%nat.
  - apply cstr_ne_nul in Hs as [_ Hs]. destruct (isspace c); [|by exists 0%nat].
    destruct (IH Hs) as (i & -> & Hi). by exists (S i).
Qed.

Lemma strim_cstr s k :
  is_cstr s → ∃ i s' k', strim (s ++ NUL :: k) = Some (i, s') ∧
    length s' = length (s ++ NUL :: k) ∧ drop i s' = lstrip (rstrip s) ++ NUL :: k'.
Proof.
  intros Hs. unfold strim. rewrite strlen_cstr by done. cbn [mbind option_bind].
  destruct s as [|c s0] eqn:E; [by exists 0%nat, (NUL :: k), k|].
  rewrite <- E in *. replace (length (c :: s0)) with (length s) by (by rewrite E).
  assert (length s ≠ 0%nat) as Hne by (by rewrite E). clear E c s0.
  destruct (length s) as [|n] eqn:Hl; [done|]. rewrite <- Hl.
  rewrite strim_end_spec by done. cbn [mbind option_bind].
  rewrite take_ge by done. destruct (rstrip_prefix s) as [t Ht].
  set (r := rstrip s) in *.
  assert (is_cstr r) as Hr by (rewrite Ht in Hs; by apply Forall_app in Hs as [? _]).
  rewrite store_at_spec by (rewrite Ht, !length_app; cbn [length]; lia).
  assert (take (length r) (s ++ NUL :: k) = r) as ->.
  { rewrite Ht, <- (assoc_L (++)). apply take_app_length. }
  cbn [mbind option_bind]. set (k' := drop _ _).
  destruct (skip_spaces_spec r k' Hr) as (i & -> & Hi). cbn [mbind option_bind].
  exists i, (r ++ NUL :: k'), k'. split; [done|]. split; [|done].
  unfold k'. rewrite !length_app. cbn [length]. rewrite length_drop, length_app.
  rewrite Ht, length_app. cbn [length]. lia.
Qed.

(** ** Properties *)

(** [strcmp] orders strings as the sequences of their unsigned bytes. *)
Theorem strcmp_orders a b ra rb :
  is_cstr a → is_cstr b →
  strcmp (a ++ NUL :: ra) (b ++ NUL :: rb) = Some (sign (bytes_compare a b)).
Proof. apply strcmp_cstr. Qed.

(** [strlcpy] never writes past [size] bytes, always ends the copy with a
    NUL, keeps as much of the string as fits, leaves the rest of the area as it
    was and returns the length of the source. *)
Theorem strlcpy_bounded dest a k size :
  is_cstr a → size ≠ 0%nat → (size ≤ length dest)%nat →
  strlcpy dest (a ++ NUL :: k) size =
    Some (length a,
          let n := Nat.min (length a) (size - 1) in
          take n a ++ NUL :: drop (S n) dest).
Proof.
  intros Ha Hs Hd. unfold strlcpy. rewrite strlen_cstr by done. cbn [mbind option_bind].
  destruct size as [|size]; [done|]. cbv zeta.
  set (n := if (S size <=? length a)%nat then (S size - 1)%nat else length a).
  assert (n = Nat.min (length a) (S size - 1)) as Hn.
  { unfold n. destruct (Nat.leb_spec (S size) (length a)); lia. }
  rewrite <- Hn. pose proof (copy_nul dest (a ++ NUL :: k) n) as Hc.
  specialize (Hc ltac:(lia) ltac:(rewrite length_app; lia)).
  destruct (memcpy dest (a ++ NUL :: k) n) as [d|]; cbn [mbind option_bind] in *; [|done].
  rewrite Hc. cbn [mbind option_bind].
  by rewrite take_app_le by lia.
Qed.

(** C34: [strscpy], with its copy of a word at a time, behaves as the plain copy: for
    every alignment and configuration it stays inside [count] bytes, always leaves a
    NUL-terminated string, returns the length when the string fits and [-E2BIG] when it
    was cut; for a [count] of 0 or above [INT_MAX] it returns [-E2BIG] and writes nothing.
    Of the source nothing is mapped, perhaps, behind the page that holds its NUL, and [k] is
    what lies behind the NUL: the page and alignment tests keep the words that are read
    inside, also where the string ends at the end of the page. *)
Theorem strscpy_bounded `{WordAtATime} efficient da sa a k dest count :
  is_cstr a → Forall is_byte k → page_mapped sa (length a) (length (a ++ NUL :: k)) →
  (count ≤ length dest)%nat →
  ∃ ret d, strscpy efficient da sa dest (a ++ NUL :: k) count = Some (ret, d) ∧
    length d = length dest ∧ drop count d = drop count dest ∧
    if decide (count = 0%nat ∨ INT_MAX < Z.of_nat count)
    then ret = - E2BIG ∧ d = dest
    else if decide (length a < count)%nat
    then ret = Z.of_nat (length a) ∧ take (S (length a)) d = a ++ [NUL]
    else ret = - E2BIG ∧ take count d = take (count - 1) a ++ [NUL].
Proof. apply strscpy_scpy. Qed.

(** [strstr] finds the first occurrence, and never reads past the ends of
    the two strings. *)
Theorem strstr_finds a ka b kb :
  is_cstr a → is_cstr b →
  strstr (a ++ NUL :: ka) (b ++ NUL :: kb) = Some (find_sub b a).
Proof.
  intros Ha Hb. unfold strstr. rewrite !strlen_cstr by done. cbn [mbind option_bind].
  destruct b as [|y b]; [by destruct a|]. cbn [length Nat.eqb].
  by apply (strstr_loop_spec (length a) a ka (y :: b) (NUL :: kb)).
Qed.

(** [memmove] copies also when the areas overlap: the result has at the
    destination what the source area held before, whichever way the areas lie,
    and is unchanged elsewhere. *)
Theorem memmove_copies m dest src count :
  (dest + count ≤ length m)%nat → (src + count ≤ length m)%nat →
  memmove m dest src count =
    Some (take dest m ++ take count (drop src m) ++ drop (dest + count) m).
Proof.
  intros Hd Hs. unfold memmove.
  assert (∃ m', (if (dest <=? src)%nat then memmove_up m dest src count
    else memmove_down m dest src count) = Some m' ∧
    ∀ i, m' !! i = if decide (dest ≤ i < dest + count)%nat
                   then m !! (src + (i - dest))%nat else m !! i) as (m' & -> & Hm').
  { destruct (Nat.leb_spec dest src);
      [apply memmove_up_lookup|apply memmove_down_lookup]; lia. }
  f_equal. apply list_eq. intros i. rewrite Hm'.
  assert (length (take dest m) = dest) as Hl1 by (rewrite length_take; lia).
  assert (length (take count (drop src m)) = count) as Hl2
    by (rewrite length_take, length_drop; lia).
  case_decide.
  - rewrite lookup_app_r, lookup_app_l by lia.
    rewrite lookup_take_lt, lookup_drop by lia. f_equal. lia.
  - destruct (decide (i < dest)%nat).
    + by rewrite lookup_app_l, lookup_take_lt by lia.
    + rewrite !lookup_app_r, lookup_drop by lia. f_equal. lia.
Qed.

(** [memchr_inv], which compares eight bytes at a time after an unaligned
    start, finds the first byte that differs, for every address, value and
    size. *)
Theorem memchr_inv_finds addr s c n :
  Forall is_byte s → (n ≤ length s)%nat →
  memchr_inv addr s c n = Some (find_other (w8 c) (take n s)).
Proof.
  intros Hs Hn. assert (is_byte (w8 c)) as Hc by (apply (wrap_range 8); lia).
  unfold memchr_inv. destruct (Nat.leb_spec n 16); [by apply check_bytes8_spec|].
  assert (0 ≤ addr mod 8 < 8) as Hm by (apply Z.mod_pos_bound; lia).
  assert (∀ l, Forall is_byte l → ∀ n, (n ≤ length l)%nat →
    memchr_inv_words l (w8 c) (spread (w8 c)) (n / 8) (n mod 8) =
    Some (find_other (w8 c) (take n l))) as Hw.
  { intros l Hl j Hj. pose proof (Nat.div_mod_eq j 8) as Hdm.
    rewrite memchr_inv_words_spec by (done || lia). by rewrite <- Hdm. }
  cbv zeta. destruct (Nat.eqb_spec (Z.to_nat (addr mod 8)) 0); [by apply Hw|].
  set (q := (8 - Z.to_nat (addr mod 8))%nat).
  rewrite check_bytes8_spec by lia. cbn [mbind option_bind].
  replace (take n s) with (take q s ++ take (n - q) (drop q s))
    by (rewrite take_take_drop; f_equal; lia).
  rewrite find_other_app. destruct (find_other (w8 c) (take q s)); [done|].
  rewrite Hw by (try apply Forall_drop; try rewrite length_drop; done || lia).
  rewrite shift_fmap, length_take, Nat.min_l by lia. done.
Qed.

(** the tokens a [strsep] loop sees are the fields between the separators,
    empty ones included, in order. *)
Theorem strsep_splits s k ct kt :
  is_cstr s → is_cstr ct →
  strsep_all (S (S (S (length s)))) (Some (s ++ NUL :: k)) (ct ++ NUL :: kt) =
    Some (split_set ct s).
Proof. intros Hs Hct. apply strsep_all_spec; [done|done|lia]. Qed.

(** [strim] returns the string without the white space at its two ends,
    and changes no byte outside the string. *)
Theorem strim_trims s k :
  is_cstr s → ∃ i s' k', strim (s ++ NUL :: k) = Some (i, s') ∧
    length s' = length (s ++ NUL :: k) ∧ drop i s' = lstrip (rstrip s) ++ NUL :: k'.
Proof. apply strim_cstr. Qed.

End kstring.

(** ** Concrete runs *)

(** Helpers that look at the bytes of the word. *)
Lemma le_word_low l i :
  Forall is_byte l → (i ≤ length l)%nat →
  (le_word l mod 2 ^ (8 * Z.of_nat i))%Z =
    le_word (take i l ++ replicate (length l - i) NUL).
Proof.
  intros Hl. revert i; induction Hl as [|b l Hb Hl IH]; intros i Hi; cbn [le_word length] in *.
  { by destruct i. }
  destruct i as [|i].
  - cbn [take app]. rewrite Z.mod_1_r.
    change (S (length l) - 0)%nat with (S (length l)). clear.
    induction (S (length l)) as [|n IHn]; [done|]. cbn [replicate le_word].
    rewrite <- IHn. done.
  - cbn [take app le_word]. replace (S (length l) - S i)%nat with (length l - i)%nat by lia.
    rewrite <- IH by lia. replace (8 * Z.of_nat (S i))%Z with (8 + 8 * Z.of_nat i)%Z by lia.
    rewrite Z.pow_add_r by lia. change (2 ^ 8)%Z with 256%Z. unfold is_byte in Hb.
    rewrite Z.rem_mul_r by lia. rewrite (Z.mul_comm 256 (le_word l)).
    rewrite Z_mod_plus_full, Z.mod_small, Z.div_add, Z.div_small by lia.
    by rewrite Z.add_0_l.
Qed.

#[export] Program Instance byte_words : WordAtATime := {
  has_zero c := if bool_decide (NUL ∈ le_bytes 8 c) then Some c else None;
  prep_zero_mask c data := data;
  create_zero_mask data := data;
  find_zero data := default 0 (find_byte NUL (le_bytes 8 data));
  zero_bytemask data := Z.ones (8 * Z.of_nat (default 0 (find_byte NUL (le_bytes 8 data))));
}.
Next Obligation.
  intros l Hl Hb. cbv zeta beta. rewrite <- Hl, le_bytes_word by done.
  case_bool_decide as Hn; [|done].
  destruct (find_byte NUL l) as [i|] eqn:E; [|by apply find_byte_None in E].
  rewrite !le_bytes_word, E by done. cbn [default from_option id]. split; [done|].
  assert (i ≤ length l) as Hi.
  { clear -E. revert i E; induction l as [|x l IH]; intros i E; cbn [find_byte] in E; [done|].
    destruct (x =? NUL)%Z; simplify_eq; [simpl; lia|].
    destruct (find_byte NUL l) as [j|]; simplify_eq/=. specialize (IH j eq_refl). lia. }
  rewrite Z.land_ones by lia. by apply le_word_low.
Qed.

Lemma strcmp_orders_witness :
  strcmp (B "skin" ++ [NUL]) (B "skim" ++ [NUL]) = Some 1%Z.
Proof. apply (strcmp_orders (B "skin") (B "skim") [] []); vm_decide. Defined.

Lemma strlcpy_bounded_witness :
  strlcpy (B "xxxxxx") (B "molting" ++ [NUL]) 5 = Some (7, B "molt" ++ NUL :: B "x").
Proof. apply (strlcpy_bounded (B "xxxxxx") (B "molting") [] 5); [vm_decide|done|vm_decide]. Defined.

(** Three bytes before the end of a page, and nothing mapped behind it. *)
Lemma strscpy_bounded_witness :
  ∃ ret d, strscpy true 8 4093 (B "0123456789abcdefghij") (B "ab" ++ [NUL]) 12 = Some (ret, d) ∧
    ret = 2%Z ∧ take 3 d = B "ab" ++ [NUL] ∧ drop 12 d = B "cdefghij".
Proof.
  destruct (strscpy_bounded true 8 4093 (B "ab") [] (B "0123456789abcdefghij") 12)
    as (ret & d & Hrun & _ & Hd & Hr).
  - vm_decide.
  - constructor.
  - vm_compute. discriminate.
  - vm_decide.
  - vm_compute in Hr. destruct Hr as [Hr Ht]. exists ret, d. split; [exact Hrun|].
    split; [exact Hr|]. split; [exact Ht|exact Hd].
Defined.

Lemma strstr_finds_witness :
  strstr (B "/src/lib/a.c" ++ [NUL]) (B "lib" ++ [NUL]) = Some (Some 5).
Proof. apply (strstr_finds (B "/src/lib/a.c") [] (B "lib") []); vm_decide. Defined.

Lemma memmove_copies_witness : memmove (B "abcdef") 1 0 4 = Some (B "aabcdf").
Proof. apply (memmove_copies (B "abcdef") 1 0 4); vm_decide. Defined.

Lemma memchr_inv_finds_witness :
  memchr_inv 5 (replicate 20 0%Z ++ [1%Z] ++ replicate 10 0%Z) 0 31 = Some (Some 20).
Proof.
  apply (memchr_inv_finds 5 (replicate 20 0%Z ++ [1%Z] ++ replicate 10 0%Z) 0 31); vm_decide.
Defined.

Lemma strsep_splits_witness :
  strsep_all 7 (Some (B "a,;b" ++ [NUL])) (B ",;" ++ [NUL]) = Some [B "a"; []; B "b"].
Proof. apply (strsep_splits (B "a,;b") [] (B ",;") []); vm_decide. Defined.

Lemma strim_trims_witness :
  ∃ i s' k', strim (B " ab " ++ [NUL]) = Some (i, s') ∧
    length s' = 5 ∧ drop i s' = B "ab" ++ NUL :: k'.
Proof.
  destruct (strim_trims (B " ab ") []) as (i & s' & k' & Hrun & Hl & Hd); [vm_decide|].
  exists i, s', k'. split; [exact Hrun|]. split; [exact Hl|].
  etransitivity; [exact Hd|]. vm_refl.
Defined.

End KString.
