(* ===== verification/KStrtox.v ===== *)
(** * Strings to integers, [lib/kstrtox.c]

    The conversions behind the kernel's [kstrto*] functions: digits in a base up
    to 16 with an exact test for overflow, the prefix that chooses the base, the
    signs, the final newline, and the narrowing to the smaller types.

    A string is the list of its bytes with the NUL; [None] is a read outside it.
    The result of a conversion is a value or a negative error code.  [unsigned
    long] has [BITS_PER_LONG] bits. *)
From stdpp Require Import base numbers sets strings list.
From S2P Require Import Prelude Ctype.

Module KStrtox.
Local Open Scope Z_scope.

Definition EINVAL : Z := 22.
Definition ERANGE : Z := 34.
Definition EFAULT : Z := 14.
Definition KSTRTOX_OVERFLOW : Z := 2 ^ 31.
Definition ULLONG_MAX : Z := 2 ^ 64 - 1.

(** The return code and, on success, the value stored. *)
Inductive kres := KOk (v : Z) | KErr (e : Z).

(** The value of a bit pattern as a signed integer of [n] bits. *)
Definition signed (n x : Z) : Z :=
  if wrap n x <? 2 ^ (n - 1) then wrap n x else wrap n x - 2 ^ n.

Section kstrtox.
Context `{Ctype}.

Definition _parse_integer_fixup_radix (s : bytes) (base : Z) : option (bytes * Z) :=
  base ← (if base =? 0 then
            s0 ← s !! 0%nat;
            if s0 =? 48 then
              s1 ← s !! 1%nat;
              if _tolower s1 =? 120 then
                s2 ← s !! 2%nat;
                Some (if isxdigit s2 then 16 else 8)
              else Some 8
            else Some 10
          else Some base);
  if base =? 16 then
    s0 ← s !! 0%nat;
    if s0 =? 48 then
      s1 ← s !! 1%nat;
      Some (if _tolower s1 =? 120 then drop 2 s else s, base)
    else Some (s, base)
  else Some (s, base).

(** The value of a digit: [if ('0' <= c && c <= '9') ... else if ('a' <= lc ...]
    and the test against the base. *)
Definition digit_val (base c : Z) : option Z :=
  let lc := Z.lor c 0x20 in
  val ← (if (48 <=? c) && (c <=? 57) then Some (c - 48)
         else if (97 <=? lc) && (lc <=? 102) then Some (lc - 97 + 10)
         else None);
  if base <=? val then None else Some val.

Fixpoint parse_integer_loop (s : bytes) (base res rv : Z) : option (Z * Z) :=
  match s with
  | [] => None
  | c :: s =>
      match digit_val base c with
      | None => Some (rv, res)
      | Some val =>
          let rv :=
            if negb (Z.land res (w64 (Z.shiftl ULLONG_MAX 60)) =? 0) &&
               ((ULLONG_MAX - val) / base <? res)
            then Z.lor rv KSTRTOX_OVERFLOW else rv in
          parse_integer_loop s base (w64 (res * base + val)) (w32 (rv + 1))
      end
  end.

Definition _parse_integer (s : bytes) (base : Z) : option (Z * Z) :=
  parse_integer_loop s base 0 0.

Definition _kstrtoull (s : bytes) (base : Z) : option kres :=
  fx ← _parse_integer_fixup_radix s base;
  let '(s, base) := (fx : bytes * Z) in
  r ← _parse_integer s base;
  let '(rv, _res) := (r : Z * Z) in
  if negb (Z.land rv KSTRTOX_OVERFLOW =? 0) then Some (KErr (- ERANGE))
  else if rv =? 0 then Some (KErr (- EINVAL))
  else
    let s := drop (Z.to_nat rv) s in
    c ← s !! 0%nat;
    let s := if c =? NEWLINE then drop 1 s else s in
    c ← s !! 0%nat;
    if negb (c =? NUL) then Some (KErr (- EINVAL)) else Some (KOk _res).

Definition kstrtoull (s : bytes) (base : Z) : option kres :=
  c ← s !! 0%nat;
  _kstrtoull (if c =? 43 then drop 1 s else s) base.

Definition kstrtoll (s : bytes) (base : Z) : option kres :=
  c ← s !! 0%nat;
  if c =? 45 then
    r ← _kstrtoull (drop 1 s) base;
    match r with
    | KErr e => Some (KErr e)
    | KOk tmp =>
        if 0 <? signed 64 (- tmp) then Some (KErr (- ERANGE))
        else Some (KOk (signed 64 (- tmp)))
    end
  else
    r ← kstrtoull s base;
    match r with
    | KErr e => Some (KErr e)
    | KOk tmp =>
        if signed 64 tmp <? 0 then Some (KErr (- ERANGE)) else Some (KOk (signed 64 tmp))
    end.

(** [if (tmp != (type)tmp) return -ERANGE;] after a conversion. *)
Definition _kstrtoul (BITS_PER_LONG : Z) (s : bytes) (base : Z) : option kres :=
  r ← kstrtoull s base;
  match r with
  | KErr e => Some (KErr e)
  | KOk tmp => if negb (tmp =? wrap BITS_PER_LONG tmp) then Some (KErr (- ERANGE))
               else Some (KOk tmp)
  end.

Definition _kstrtol (BITS_PER_LONG : Z) (s : bytes) (base : Z) : option kres :=
  r ← kstrtoll s base;
  match r with
  | KErr e => Some (KErr e)
  | KOk tmp => if negb (tmp =? signed BITS_PER_LONG tmp) then Some (KErr (- ERANGE))
               else Some (KOk tmp)
  end.

Definition kstrtouint (s : bytes) (base : Z) : option kres :=
  r ← kstrtoull s base;
  match r with
  | KErr e => Some (KErr e)
  | KOk tmp => if negb (tmp =? wrap 32 tmp) then Some (KErr (- ERANGE)) else Some (KOk tmp)
  end.

Definition kstrtoint (s : bytes) (base : Z) : option kres :=
  r ← kstrtoll s base;
  match r with
  | KErr e => Some (KErr e)
  | KOk tmp => if negb (tmp =? signed 32 tmp) then Some (KErr (- ERANGE)) else Some (KOk tmp)
  end.

Definition kstrtou16 (s : bytes) (base : Z) : option kres :=
  r ← kstrtoull s base;
  match r with
  | KErr e => Some (KErr e)
  | KOk tmp => if negb (tmp =? wrap 16 tmp) then Some (KErr (- ERANGE)) else Some (KOk tmp)
  end.

Definition kstrtos16 (s : bytes) (base : Z) : option kres :=
  r ← kstrtoll s base;
  match r with
  | KErr e => Some (KErr e)
  | KOk tmp => if negb (tmp =? signed 16 tmp) then Some (KErr (- ERANGE)) else Some (KOk tmp)
  end.

Definition kstrtou8 (s : bytes) (base : Z) : option kres :=
  r ← kstrtoull s base;
  match r with
  | KErr e => Some (KErr e)
  | KOk tmp => if negb (tmp =? wrap 8 tmp) then Some (KErr (- ERANGE)) else Some (KOk tmp)
  end.

Definition kstrtos8 (s : bytes) (base : Z) : option kres :=
  r ← kstrtoll s base;
  match r with
  | KErr e => Some (KErr e)
  | KOk tmp => if negb (tmp =? signed 8 tmp) then Some (KErr (- ERANGE)) else Some (KOk tmp)
  end.

(** [None] as the argument is a null pointer; the value is 0 or 1. *)
Definition kstrtobool (s : option bytes) : option kres :=
  match s with
  | None => Some (KErr (- EINVAL))
  | Some s =>
      c ← s !! 0%nat;
      if bool_decide (c ∈ B "yY1") then Some (KOk 1)
      else if bool_decide (c ∈ B "nN0") then Some (KOk 0)
      else if bool_decide (c ∈ B "oO") then
        c1 ← s !! 1%nat;
        if bool_decide (c1 ∈ B "nN") then Some (KOk 1)
        else if bool_decide (c1 ∈ B "fF") then Some (KOk 0)
        else Some (KErr (- EINVAL))
      else Some (KErr (- EINVAL))
  end.

(** [user] holds the bytes that can be read from the user's address on;
    [copy_from_user] fails when they are fewer than asked for. *)
Definition kstrtobool_from_user (user : bytes) (count : nat) : option kres :=
  let count := Nat.min count 3 in
  if (length user <? count)%nat then Some (KErr (- EFAULT))
  else kstrtobool (Some (take count user ++ [NUL])).

(** The macro [kstrto_from_user]; [size] is [sizeof(type)]. *)
Definition kstrto_from_user (g : bytes → Z → option kres) (size : nat)
    (user : bytes) (count : nat) (base : Z) : option kres :=
  let count := Nat.min count (1 + size * 8 + 1) in
  if (length user <? count)%nat then Some (KErr (- EFAULT))
  else g (take count user ++ [NUL]) base.

(** ** The value of a numeral *)

(** The longest prefix of digits, as their values, and what follows. *)
Fixpoint numeral (base : Z) (s : bytes) : list Z * bytes :=
  match s with
  | [] => ([], [])
  | c :: s' =>
      match digit_val base c with
      | None => ([], s)
      | Some val => let '(ds, rest) := numeral base s' in (val :: ds, rest)
      end
  end.

Definition eval_from (base acc : Z) (ds : list Z) : Z :=
  foldl (λ acc d, acc * base + d) acc ds.

Lemma digit_val_range base c v : digit_val base c = Some v → 0 ≤ v < base.
Proof.
  unfold digit_val. intros (x & Hx & Hv)%bind_Some.
  destruct (base <=? x) eqn:Hbx; simplify_eq.
  repeat case_match; simplify_eq; bool_to_prop; lia.
Qed.

Lemma eval_from_ge base acc ds :
  1 ≤ base → 0 ≤ acc → Forall (λ d, 0 ≤ d) ds → acc ≤ eval_from base acc ds.
Proof.
  intros Hb Ha Hds. revert acc Ha.
  induction Hds as [|d ds Hd _ IH]; intros acc Ha; cbn [eval_from foldl]; [lia|].
  specialize (IH (acc * base + d)). unfold eval_from in IH. nia.
Qed.

Lemma numeral_digits base s : Forall (λ d, 0 ≤ d) (numeral base s).1.
Proof.
  induction s as [|c s IH]; cbn [numeral]; [constructor|].
  destruct (digit_val base c) as [v|] eqn:E; [|constructor].
  destruct (numeral base s). cbn in *. constructor; [|done].
  apply digit_val_range in E. lia.
Qed.

Lemma numeral_length base s : (length (numeral base s).1 ≤ length s)%nat.
Proof.
  induction s as [|c s IH]; cbn [numeral]; [done|].
  destruct (digit_val base c); [|simpl; lia]. destruct (numeral base s). cbn in *. lia.
Qed.

Lemma numeral_rest base s : drop (length (numeral base s).1) s = (numeral base s).2.
Proof.
  induction s as [|c s IH]; cbn [numeral]; [done|].
  destruct (digit_val base c); [|done]. by destruct (numeral base s).
Qed.

(** The test for overflow is exact, although it is made only when the value is
    at least [2 ^ 60]. *)
Lemma overflow_test base res val :
  2 ≤ base ≤ 16 → 0 ≤ res < 2 ^ 64 → 0 ≤ val < base →
  negb (Z.land res (w64 (Z.shiftl ULLONG_MAX 60)) =? 0) &&
    ((ULLONG_MAX - val) / base <? res) = (ULLONG_MAX <? res * base + val).
Proof.
  intros Hb Hr Hv.
  assert (Z.land res (w64 (Z.shiftl ULLONG_MAX 60)) = 0 ↔ res < 2 ^ 60) as Hmask.
  { change (w64 (Z.shiftl ULLONG_MAX 60)) with (Z.shiftl (Z.ones 4) 60).
    assert (Z.land res (Z.shiftl (Z.ones 4) 60) = Z.shiftl (Z.land (Z.shiftr res 60) (Z.ones 4)) 60)
      as ->.
    { apply Z.bits_inj'. intros i Hi. rewrite Z.land_spec.
      destruct (Z.le_gt_cases 60 i).
      - rewrite !Z.shiftl_spec, Z.land_spec, Z.shiftr_spec by lia.
        by replace (i - 60 + 60) with i by lia.
      - rewrite !Z.shiftl_spec_low by lia. apply andb_false_r. }
    rewrite Z.land_ones, Z.shiftl_mul_pow2, Z.shiftr_div_pow2 by lia.
    pose proof (Z.div_lt_upper_bound res (2 ^ 60) (2 ^ 4)) as Hd.
    rewrite Z.mod_small by (split; [apply Z.div_pos; lia|apply Hd; lia]).
    pose proof (Z.div_str_pos res (2 ^ 60)) as Hp. split.
    - intros E. destruct (Z.le_gt_cases (2 ^ 60) res); [|lia].
      specialize (Hp ltac:(lia)). lia.
    - intros ?. rewrite Z.div_small by lia. lia. }
  assert ((ULLONG_MAX - val) / base < res ↔ ULLONG_MAX < res * base + val) as Hdiv.
  { split.
    - intros Hlt. pose proof (Z.mul_succ_div_gt (ULLONG_MAX - val) base). nia.
    - intros Hlt. apply Z.div_lt_upper_bound; lia. }
  apply eq_true_iff_eq. rewrite andb_true_iff, negb_true_iff, Z.eqb_neq, !Z.ltb_lt, Hmask, Hdiv.
  unfold ULLONG_MAX. split; [lia|]. intros ?. split; [|done]. nia.
Qed.

(** The overflow bit of a value. *)
Definition flag (v : Z) : Z := if ULLONG_MAX <? v then KSTRTOX_OVERFLOW else 0.

Lemma set_overflow rv : 0 ≤ rv < 2 ^ 31 →
  Z.lor rv KSTRTOX_OVERFLOW = rv + KSTRTOX_OVERFLOW ∧
  Z.lor (rv + KSTRTOX_OVERFLOW) KSTRTOX_OVERFLOW = rv + KSTRTOX_OVERFLOW ∧
  Z.land rv KSTRTOX_OVERFLOW = 0 ∧
  Z.land (rv + KSTRTOX_OVERFLOW) KSTRTOX_OVERFLOW = KSTRTOX_OVERFLOW.
Proof.
  intros Hrv. assert (Z.land rv KSTRTOX_OVERFLOW = 0) as Hl.
  { apply Z.bits_inj'. intros i Hi. rewrite Z.land_spec, Z.bits_0. unfold KSTRTOX_OVERFLOW.
    rewrite Z.pow2_bits_eqb by lia. destruct (Z.eqb_spec 31 i) as [<-|]; [|apply andb_false_r].
    rewrite andb_true_r. destruct (Z.eq_dec rv 0) as [->|]; [apply Z.bits_0|].
    apply Z.bits_above_log2; [lia|]. apply Z.log2_lt_pow2; lia. }
  pose proof (Z.add_lor_land rv KSTRTOX_OVERFLOW) as Ha.
  assert (Z.lor rv KSTRTOX_OVERFLOW = rv + KSTRTOX_OVERFLOW) as Ho by lia.
  split_and!; [done| |done|].
  - by rewrite <-Ho, <-Z.lor_assoc, Z.lor_diag.
  - by rewrite <-Ho, Z.land_lor_distr_l, Hl, Z.land_diag, Z.lor_0_l.
Qed.

(** One digit: the bit is set exactly when the value no longer fits. *)
Lemma flag_step base acc d rv :
  2 ≤ base ≤ 16 → 0 ≤ acc → 0 ≤ d < base → 0 ≤ rv → rv + 1 < 2 ^ 31 →
  w32 ((if negb (Z.land (w64 acc) (w64 (Z.shiftl ULLONG_MAX 60)) =? 0) &&
           ((ULLONG_MAX - d) / base <? w64 acc)
        then Z.lor (rv + flag acc) KSTRTOX_OVERFLOW else rv + flag acc) + 1) =
  rv + 1 + flag (acc * base + d).
Proof.
  intros Hb Ha Hd Hrv Hrv'. destruct (set_overflow rv) as (Hset & Hkeep & _); [lia|].
  unfold flag at 1 2. destruct (ULLONG_MAX <? acc) eqn:Hacc; bool_to_prop.
  - rewrite Hkeep. unfold flag. rewrite (proj2 (Z.ltb_lt ULLONG_MAX (acc * base + d))) by nia.
    case_match; unfold w32; rewrite wrap_small by (unfold KSTRTOX_OVERFLOW; lia); lia.
  - unfold w64 at 1 3. rewrite (wrap_small 64 acc) by (unfold ULLONG_MAX in Hacc; lia).
    rewrite overflow_test by (unfold ULLONG_MAX in Hacc; lia). rewrite Z.add_0_r, Hset. unfold flag.
    case_match; unfold w32; rewrite wrap_small by (unfold KSTRTOX_OVERFLOW; lia); lia.
Qed.

(** The return value of [_parse_integer] is the number of digits, with the
    overflow bit when their value does not fit, and the value stored is that of
    the digits modulo [2 ^ 64]. *)
Lemma parse_integer_loop_spec base s acc rv :
  2 ≤ base ≤ 16 → 0 ≤ acc → 0 ≤ rv →
  (numeral base s).2 ≠ [] → rv + zlen (numeral base s).1 < 2 ^ 31 →
  parse_integer_loop s base (w64 acc) (rv + flag acc) =
  Some (rv + zlen (numeral base s).1 + flag (eval_from base acc (numeral base s).1),
        w64 (eval_from base acc (numeral base s).1)).
Proof.
  intros Hb. revert acc rv. induction s as [|c s IH]; intros acc rv Ha Hrv Hrest Hlen; [done|].
  cbn [numeral parse_integer_loop] in *.
  destruct (digit_val base c) as [d|] eqn:Hd; cbn [fst snd eval_from foldl] in *.
  2: { rewrite zlen_nil, Z.add_0_r. done. }
  apply digit_val_range in Hd. destruct (numeral base s) as [ds rest] eqn:Hn. cbn [fst snd] in *.
  pose proof (zlen_nonneg ds) as Hds. rewrite zlen_cons in Hlen |- *.
  rewrite flag_step by lia.
  assert (w64 (w64 acc * base + d) = w64 (acc * base + d)) as ->.
  { unfold w64, wrap. rewrite <-Zplus_mod_idemp_l, Zmult_mod_idemp_l, Zplus_mod_idemp_l. done. }
  rewrite IH; [|nia|lia|done|lia]. by rewrite Z.add_assoc.
Qed.

Lemma parse_integer_spec base s :
  2 ≤ base ≤ 16 → (numeral base s).2 ≠ [] → zlen (numeral base s).1 < 2 ^ 31 →
  _parse_integer s base =
  Some (zlen (numeral base s).1 + flag (eval_from base 0 (numeral base s).1),
        w64 (eval_from base 0 (numeral base s).1)).
Proof. intros Hb Hr Hl. by apply (parse_integer_loop_spec base s 0 0). Qed.

(** ** The conversions on strings *)

Lemma digit_val_nul base : digit_val base NUL = None.
Proof. done. Qed.

Lemma numeral_app_nul base s :
  numeral base (s ++ [NUL]) = ((numeral base s).1, (numeral base s).2 ++ [NUL]).
Proof.
  induction s as [|c s IH]; cbn [app numeral]; [by rewrite digit_val_nul|].
  destruct (digit_val base c); [|done]. rewrite IH. by destruct (numeral base s).
Qed.

Lemma numeral_suffix base s : (numeral base s).2 `suffix_of` s.
Proof. rewrite <-numeral_rest. apply suffix_drop. Qed.

(** What a string of digits converts to. *)
Definition parse_result (base : Z) (s : bytes) : kres :=
  let '(ds, rest) := numeral base s in
  if ULLONG_MAX <? eval_from base 0 ds then KErr (- ERANGE)
  else if bool_decide (ds = []) then KErr (- EINVAL)
  else if bool_decide (rest = [] ∨ rest = [NEWLINE]) then KOk (eval_from base 0 ds)
  else KErr (- EINVAL).

(** The base of a string and the string without its prefix. *)
Definition prefix_radix (base : Z) (s : bytes) : bytes * Z :=
  match s with
  | [] => (s, if base =? 0 then 10 else base)
  | c0 :: s' =>
      if c0 =? 48 then
        match s' with
        | c1 :: r =>
            if ((c1 =? 88) || (c1 =? 120)) &&
               ((base =? 16) || (base =? 0) && from_option isxdigit false (r !! 0%nat))
            then (r, 16) else (s, if base =? 0 then 8 else base)
        | [] => (s, if base =? 0 then 8 else base)
        end
      else (s, if base =? 0 then 10 else base)
  end.

Definition strip_plus (s : bytes) : bytes :=
  if bool_decide (s !! 0%nat = Some 43) then drop 1 s else s.

Lemma is_cstr_drop n s : is_cstr s → is_cstr (drop n s).
Proof. apply Forall_drop. Qed.

Lemma lookup_nul s i : s !! i = None → i = length s → (s ++ [NUL]) !! i = Some NUL.
Proof. intros _ ->. by rewrite list_lookup_middle. Qed.

Lemma isxdigit_nul : isxdigit NUL = false.
Proof.
  destruct (isxdigit NUL) eqn:E; [|done]. apply isxdigit_spec in E; [unfold NUL in E; lia|done].
Qed.

Lemma tolower_x_eqb c : is_byte c → (_tolower c =? 120) = (c =? 88) || (c =? 120).
Proof.
  intros Hc. apply eq_true_iff_eq. rewrite orb_true_iff, !Z.eqb_eq. by apply _tolower_x.
Qed.

(** The three bytes the prefix is read from, with the NUL where the string has
    ended. *)
Lemma fixup_radix_spec base s : is_cstr s →
  _parse_integer_fixup_radix (s ++ [NUL]) base =
  Some ((prefix_radix base s).1 ++ [NUL], (prefix_radix base s).2).
Proof.
  intros Hs. unfold _parse_integer_fixup_radix, prefix_radix.
  pose proof isxdigit_nul as Hx. assert (is_byte NUL) as Hnul by done.
  assert ((_tolower NUL =? 120) = false) as Hxn by (by rewrite tolower_x_eqb).
  destruct s as [|c0 s]; cbn [app lookup list_lookup mbind option_bind].
  { by destruct (base =? 0); cbn; rewrite ?Hxn; [|destruct (base =? 16)]. }
  destruct (c0 =? 48) eqn:H0.
  2: { by destruct (base =? 0); cbn; rewrite ?Hxn; [|destruct (base =? 16)]. }
  destruct s as [|c1 s]; cbn [app].
  { by destruct (base =? 0); cbn; rewrite ?Hxn; [|destruct (base =? 16)]. }
  assert (is_byte c1) as Hc1 by (unfold is_cstr in Hs; rewrite !Forall_cons in Hs; naive_solver).
  pose proof (tolower_x_eqb c1 Hc1) as Ht. destruct ((c1 =? 88) || (c1 =? 120)).
  2: { by destruct (base =? 0); cbn; rewrite ?Ht; [|destruct (base =? 16)]. }
  destruct (base =? 0) eqn:Hb0; [apply Z.eqb_eq in Hb0 as ->|]; cbn; rewrite Ht.
  - destruct s as [|c2 s]; cbn; [by rewrite Hx|]. destruct (isxdigit c2); cbn; by rewrite ?Ht.
  - destruct (Z.eqb_spec base 16) as [->|]; done.
Qed.

Lemma prefix_radix_suffix base s : (prefix_radix base s).1 `suffix_of` s.
Proof.
  unfold prefix_radix. destruct s as [|c0 [|c1 s]]; repeat case_match; try reflexivity.
  by exists [c0; c1].
Qed.

Lemma prefix_radix_base base s :
  base = 0 ∨ 2 ≤ base ≤ 16 → 2 ≤ (prefix_radix base s).2 ≤ 16.
Proof.
  intros Hb. unfold prefix_radix. repeat case_match; cbn; bool_to_prop; lia.
Qed.

Lemma is_cstr_suffix s t : s `suffix_of` t → is_cstr t → is_cstr s.
Proof. intros [k ->]. unfold is_cstr. rewrite Forall_app. tauto. Qed.

(** The end of the string: nothing, or a newline. *)
Lemma tail_check rest (bad ok : kres) : is_cstr rest →
  (c ← (rest ++ [NUL]) !! 0%nat;
   c' ← (if c =? NEWLINE then drop 1 (rest ++ [NUL]) else rest ++ [NUL]) !! 0%nat;
   if negb (c' =? NUL) then Some bad else Some ok) =
  Some (if bool_decide (rest = [] ∨ rest = [NEWLINE]) then ok else bad).
Proof.
  intros Hr. destruct rest as [|c rest]; [done|]. unfold is_cstr in Hr. rewrite Forall_cons in Hr.
  destruct Hr as [[_ Hc] Hr]. cbn [app lookup list_lookup mbind option_bind].
  destruct (Z.eqb_spec c NEWLINE) as [->|Hn]; cbn.
  - destruct rest as [|c' rest]; cbn; [done|]. rewrite Forall_cons in Hr.
    rewrite (proj2 (Z.eqb_neq c' NUL)), bool_decide_false by naive_solver. done.
  - rewrite (proj2 (Z.eqb_neq c NUL)), bool_decide_false by naive_solver. done.
Qed.

Lemma kstrtoull_digits_spec base s : is_cstr s → zlen s < 2 ^ 31 →
  base = 0 ∨ 2 ≤ base ≤ 16 →
  _kstrtoull (s ++ [NUL]) base =
  Some (parse_result (prefix_radix base s).2 (prefix_radix base s).1).
Proof.
  intros Hs Hl Hb. unfold _kstrtoull. rewrite fixup_radix_spec by done. cbn [mbind option_bind].
  pose proof (prefix_radix_suffix base s) as Hsuf. pose proof (prefix_radix_base base s Hb) as Hb'.
  pose proof (suffix_length _ _ Hsuf) as Hsl. apply is_cstr_suffix in Hsuf; [|done].
  destruct (prefix_radix base s) as [t b]. cbn [fst snd] in *. clear Hs Hb.
  pose proof (numeral_length b t) as Hnl. pose proof (numeral_rest b t) as Hnr.
  pose proof (is_cstr_suffix _ _ (numeral_suffix b t) Hsuf) as Hrest.
  assert (zlen (numeral b t).1 < 2 ^ 31) as Hlt by (unfold zlen in *; lia).
  rewrite parse_integer_spec; rewrite ?numeral_app_nul; cbn [fst snd]; [|done| |done].
  2: { intros Hnil%(f_equal length). rewrite length_app in Hnil. simpl in Hnil. lia. }
  cbn [mbind option_bind]. unfold parse_result.
  destruct (numeral b t) as [ds rest] eqn:Hn. cbn [fst snd] in *.
  pose proof (zlen_nonneg ds) as Hds. unfold flag.
  destruct (set_overflow (zlen ds)) as (_ & _ & Hno & Hyes); [lia|].
  destruct (ULLONG_MAX <? eval_from b 0 ds) eqn:Hov; bool_to_prop.
  { by rewrite Hyes. }
  rewrite Z.add_0_r, Hno. cbn [Z.eqb negb].
  destruct ds as [|d ds]; [by rewrite bool_decide_true by done|].
  rewrite bool_decide_false by done. rewrite zlen_cons in Hds |- *.
  pose proof (zlen_nonneg ds). rewrite (proj2 (Z.eqb_neq (1 + zlen ds) 0)) by lia.
  rewrite <-(zlen_cons d ds).
  assert (drop (Z.to_nat (zlen (d :: ds))) (t ++ [NUL]) = rest ++ [NUL]) as ->.
  { unfold zlen. by rewrite Nat2Z.id, drop_app_le, Hnr by done. }
  etrans; [by apply tail_check|]. unfold w64. rewrite wrap_small; [done|].
  unfold ULLONG_MAX in Hov. split; [|lia]. apply eval_from_ge; [lia|done|].
  change (d :: ds) with (d :: ds, rest).1. rewrite <-Hn. apply numeral_digits.
Qed.

Lemma strip_plus_nul s :
  (c ← (s ++ [NUL]) !! 0%nat; Some (if c =? 43 then drop 1 (s ++ [NUL]) else s ++ [NUL])) =
  Some (strip_plus s ++ [NUL]).
Proof.
  unfold strip_plus. destruct s as [|c s]; [done|]. cbn.
  destruct (Z.eqb_spec c 43) as [->|]; [done|]. by rewrite bool_decide_false by naive_solver.
Qed.

(** What [kstrtoull] makes of a string without its NUL. *)
Definition ull_result (base : Z) (s : bytes) : kres :=
  let '(t, b) := prefix_radix base s in parse_result b t.

Lemma kstrtoull_spec base s : is_cstr s → zlen s < 2 ^ 31 → base = 0 ∨ 2 ≤ base ≤ 16 →
  kstrtoull (s ++ [NUL]) base = Some (ull_result base (strip_plus s)).
Proof.
  intros Hs Hl Hb. unfold kstrtoull, ull_result.
  assert (strip_plus s `suffix_of` s) as Hsuf.
  { unfold strip_plus. case_match; [apply suffix_drop|done]. }
  pose proof (suffix_length _ _ Hsuf). apply is_cstr_suffix in Hsuf; [|done].
  pose proof (kstrtoull_digits_spec base (strip_plus s)) as Hspec.
  destruct (prefix_radix base (strip_plus s)). cbn [fst snd] in Hspec. rewrite <-Hspec; [|done|unfold zlen in *; lia|done].
  pose proof (strip_plus_nul s) as Hp. destruct ((s ++ [NUL]) !! 0%nat); simplify_eq/=. by f_equal.
Qed.

(** ** Printed numerals *)

Fixpoint digits (fuel : nat) (base n : Z) : list Z :=
  match fuel with
  | O => []
  | S fuel => if n <? base then [n] else digits fuel base (n / base) ++ [n mod base]
  end.

Definition digit_char (d : Z) : Z := if d <? 10 then 48 + d else 87 + d.

(** The digits of a natural number; it has at most as many as it has bits. *)
Definition print_nat (base n : Z) : bytes :=
  digit_char <$> digits (S (Z.to_nat (Z.log2 n))) base n.

Definition print_int (base z : Z) : bytes :=
  if z <? 0 then 45 :: print_nat base (- z) else print_nat base z.

Lemma digits_spec fuel base n : 2 ≤ base → 0 ≤ n < 2 ^ Z.of_nat fuel →
  eval_from base 0 (digits fuel base n) = n ∧
  Forall (λ d, 0 ≤ d < base) (digits fuel base n) ∧
  (length (digits fuel base n) ≤ fuel)%nat ∧ ((0 < fuel)%nat → digits fuel base n ≠ []).
Proof.
  intros Hb. revert n. induction fuel as [|fuel IH]; intros n Hn; cbn [digits].
  { split_and!; [cbn; lia|constructor|done|lia]. }
  rewrite Nat2Z.inj_succ, Z.pow_succ_r in Hn by lia. case_match; bool_to_prop.
  { split_and!; [cbn; lia|by repeat constructor; lia|simpl; lia|done]. }
  destruct (IH (n / base)) as (He & Hf & Hl & _).
  { split; [apply Z.div_pos; lia|]. apply Z.div_lt_upper_bound; nia. }
  split_and!.
  - unfold eval_from in *. rewrite foldl_app, He. cbn. rewrite Z.mul_comm. symmetry.
    apply Z.div_mod. lia.
  - apply Forall_app. split; [done|]. constructor; [|done]. apply Z.mod_pos_bound. lia.
  - rewrite length_app. simpl. lia.
  - intros _ ?%app_nil. naive_solver.
Qed.

Lemma log2_fuel n : 0 ≤ n → n < 2 ^ Z.of_nat (S (Z.to_nat (Z.log2 n))).
Proof.
  intros Hn. destruct (Z.eq_dec n 0) as [->|]; [done|].
  pose proof (Z.log2_nonneg n). pose proof (Z.log2_spec n). 
  rewrite Nat2Z.inj_succ, Z2Nat.id by lia. lia.
Qed.

Lemma digit_val_char base d : base ≤ 16 → 0 ≤ d < base → digit_val base (digit_char d) = Some d.
Proof.
  intros Hb Hd. assert (d ∈ seqZ 0 16) as Hin by (apply elem_of_seqZ; lia).
  assert (digit_val 16 (digit_char d) = Some d) as H16.
  { revert Hin. assert (Forall (λ d, digit_val 16 (digit_char d) = Some d) (seqZ 0 16)) as Hall
      by vm_decide. rewrite Forall_forall in Hall. apply Hall. }
  unfold digit_val in *. apply bind_Some in H16 as (x & Hx & Hv). apply bind_Some.
  exists x. split; [done|]. destruct (16 <=? x); simplify_eq.
  by rewrite (proj2 (Z.leb_gt _ _)) by lia.
Qed.

Lemma numeral_print base ds rest : base ≤ 16 → Forall (λ d, 0 ≤ d < base) ds →
  rest = [] ∨ rest = [NEWLINE] → numeral base ((digit_char <$> ds) ++ rest) = (ds, rest).
Proof.
  intros Hb Hds Hr. induction Hds as [|d ds Hd _ IH]; cbn.
  - by destruct Hr as [->| ->].
  - rewrite digit_val_char by done. by rewrite IH.
Qed.

(** A digit is no sign, no ['x'] and no NUL. *)
Lemma digit_char_plain d : 0 ≤ d < 16 →
  48 ≤ digit_char d ≤ 57 ∨ 97 ≤ digit_char d ≤ 102.
Proof. intros ?. unfold digit_char. case_match; bool_to_prop; lia. Qed.

Lemma print_nat_digits base n : 2 ≤ base ≤ 16 → 0 ≤ n → ∃ d ds,
  print_nat base n = digit_char <$> d :: ds ∧ eval_from base 0 (d :: ds) = n ∧
  Forall (λ d, 0 ≤ d < base) (d :: ds) ∧ (length (d :: ds) ≤ S (Z.to_nat (Z.log2 n)))%nat.
Proof.
  intros Hb Hn. unfold print_nat.
  destruct (digits_spec (S (Z.to_nat (Z.log2 n))) base n) as (He & Hf & Hl & Hne);
    [lia|split; [lia|by apply log2_fuel]|].
  destruct (digits _ base n) as [|d ds]; [by destruct Hne; [lia|]|]. by exists d, ds.
Qed.

Lemma digit_chars_cstr base ds : base ≤ 16 →
  Forall (λ d, 0 ≤ d < base) ds → is_cstr (digit_char <$> ds).
Proof.
  intros Hb Hds. apply Forall_fmap. eapply Forall_impl; [exact Hds|]. intros d Hd. cbn in Hd |- *.
  pose proof (digit_char_plain d). unfold is_byte, NUL. lia.
Qed.

(** The end of the text: nothing or a newline. *)
Definition line_end (nl : bytes) : Prop := nl = [] ∨ nl = [NEWLINE].

Lemma print_int_cstr base z nl : 2 ≤ base ≤ 16 → line_end nl → is_cstr (print_int base z ++ nl).
Proof.
  intros Hb Hnl. apply Forall_app. split; [|destruct Hnl as [->| ->]; vm_decide].
  unfold print_int. case_match; bool_to_prop;
    [constructor; [vm_decide|]|]; (destruct (print_nat_digits base (Z.abs z)) as (d & ds & E & _ & Hds & _);
    [lia|lia|]; rewrite ?Z.abs_neq, ?Z.abs_eq in E by lia; rewrite E; eapply digit_chars_cstr; [|done]; lia).
Qed.

Lemma print_nat_parse base n nl : 2 ≤ base ≤ 16 → 0 ≤ n → line_end nl →
  let t := print_nat base n ++ nl in
  strip_plus t = t ∧ ull_result base t = (if ULLONG_MAX <? n then KErr (- ERANGE) else KOk n).
Proof.
  intros Hb Hn Hnl. destruct (print_nat_digits base n) as (d & ds & -> & He & Hds & _); [done..|].
  intros t. pose proof Hds as [Hd Hds']%Forall_cons. pose proof (digit_char_plain d) as Hc.
  unfold t, strip_plus. split.
  { cbn. rewrite bool_decide_false; [done|]. intros [=]. lia. }
  assert (prefix_radix base t = (t, base)) as Hpr.
  { unfold t, prefix_radix. cbn [fmap list_fmap app].
    rewrite (proj2 (Z.eqb_neq base 0)) by lia.
    destruct (digit_char d =? 48); [|done]. destruct ds as [|d1 ds]; cbn.
    - by destruct Hnl as [->| ->].
    - apply Forall_cons in Hds' as [Hd1 _]. pose proof (digit_char_plain d1).
      rewrite !(proj2 (Z.eqb_neq (digit_char d1) _)) by lia. done. }
  unfold ull_result. fold t. rewrite Hpr. unfold parse_result, t.
  rewrite numeral_print; [|lia|done|done]. rewrite He, bool_decide_false by done.
  by rewrite bool_decide_true.
Qed.

Lemma print_negative_parse base s : ull_result base (strip_plus (45 :: s)) = KErr (- EINVAL).
Proof. done. Qed.

Lemma kstrtoull_print base z nl : 2 ≤ base ≤ 16 → line_end nl →
  zlen (print_int base z ++ nl) < 2 ^ 31 →
  kstrtoull ((print_int base z ++ nl) ++ [NUL]) base =
  Some (if z <? 0 then KErr (- EINVAL)
        else if ULLONG_MAX <? z then KErr (- ERANGE) else KOk z).
Proof.
  intros Hb Hnl Hl. rewrite kstrtoull_spec; [|by apply print_int_cstr|done|lia].
  unfold print_int. destruct (z <? 0) eqn:Hz; bool_to_prop; [done|].
  by destruct (print_nat_parse base z nl) as [-> ->].
Qed.

Lemma wrap_neg n v : 0 ≤ n → - 2 ^ n ≤ v < 0 → wrap n v = v + 2 ^ n.
Proof.
  intros Hn Hv. rewrite <-(wrap_small n (v + 2 ^ n)) by lia. unfold wrap.
  by rewrite <-Z.add_mod_idemp_r, Z.mod_same, Z.add_0_r by lia.
Qed.

Lemma signed_fits n v : 1 ≤ n → (v =? signed n v) = (- 2 ^ (n - 1) <=? v) && (v <? 2 ^ (n - 1)).
Proof.
  intros Hn. unfold signed. pose proof (wrap_range n v ltac:(lia)) as Hw.
  assert (2 ^ n = 2 * 2 ^ (n - 1)) as Hp by (rewrite <-Z.pow_succ_r by lia; f_equal; lia).
  apply eq_true_iff_eq. rewrite andb_true_iff, Z.eqb_eq, Z.leb_le, Z.ltb_lt.
  split; [case_match; bool_to_prop; lia|]. intros Hv. destruct (Z.le_gt_cases 0 v).
  - rewrite wrap_small by lia. by rewrite (proj2 (Z.ltb_lt _ _)) by lia.
  - rewrite wrap_neg by lia. rewrite (proj2 (Z.ltb_ge _ _)) by lia. lia.
Qed.

(** A long long from 64 bits, for the values that [-tmp] and [tmp] can take. *)
Lemma signed_64 z : - 2 ^ 64 < z < 2 ^ 64 →
  signed 64 z = if z <? - 2 ^ 63 then z + 2 ^ 64 else if z <? 2 ^ 63 then z else z - 2 ^ 64.
Proof.
  intros Hz. unfold signed. destruct (Z.le_gt_cases 0 z).
  - rewrite wrap_small by lia. rewrite (proj2 (Z.ltb_ge z (- 2 ^ 63))) by lia. done.
  - rewrite wrap_neg by lia. repeat case_match; bool_to_prop; lia.
Qed.

Lemma kstrtoll_print base z nl : 2 ≤ base ≤ 16 → line_end nl →
  zlen (print_int base z ++ nl) < 2 ^ 31 →
  kstrtoll ((print_int base z ++ nl) ++ [NUL]) base =
  Some (if (- 2 ^ 63 <=? z) && (z <? 2 ^ 63) then KOk z else KErr (- ERANGE)).
Proof.
  intros Hb Hnl Hl. pose proof (kstrtoull_print base z nl Hb Hnl Hl) as Hull.
  pose proof (print_int_cstr base z nl Hb Hnl) as Hc. unfold kstrtoll.
  destruct (z <? 0) eqn:Hz; bool_to_prop.
  - unfold print_int in *. rewrite (proj2 (Z.ltb_lt z 0)) in * by done.
    cbn [app lookup list_lookup mbind option_bind Z.eqb Pos.eqb drop] in *.
    apply Forall_cons in Hc as [_ Hc]. rewrite zlen_cons in Hl.
    rewrite drop_0, kstrtoull_digits_spec; [|done|lia|lia].
    destruct (print_nat_parse base (- z) nl) as [_ Hp]; [done|lia|done|].
    unfold ull_result in Hp. destruct (prefix_radix _ _). cbn [fst snd mbind option_bind]. unfold ULLONG_MAX in Hp. rewrite Hp.
    destruct (_ <? - z) eqn:Ho; bool_to_prop.
    + by rewrite (proj2 (Z.leb_gt _ _)) by lia.
    + rewrite Z.opp_involutive, signed_64 by lia.
      repeat case_match; bool_to_prop; try done; lia.
  - rewrite Hull. cbn [mbind option_bind].
    destruct (print_nat_digits base z) as (d & ds & E & _ & [Hd _]%Forall_cons & _); [lia..|].
    assert (∃ s, (print_int base z ++ nl) ++ [NUL] = digit_char d :: s) as [s ->].
    { unfold print_int. rewrite (proj2 (Z.ltb_ge z 0)), E by done. cbn. eauto. }
    pose proof (digit_char_plain d) as Hp. cbn [lookup list_lookup mbind option_bind].
    rewrite (proj2 (Z.eqb_neq (digit_char d) 45)) by lia.
    destruct (ULLONG_MAX <? z) eqn:Ho; bool_to_prop; unfold ULLONG_MAX in Ho.
    + by rewrite (proj2 (Z.ltb_ge z _)), andb_false_r by lia.
    + rewrite signed_64 by lia. repeat case_match; bool_to_prop; try done; lia.
Qed.

(** ** The family of conversions *)

(** A conversion and the width of its type; [unsigned long] has 32 or 64 bits. *)
Definition signed_conversions : list ((bytes → Z → option kres) * Z) :=
  [(kstrtoll, 64); (_kstrtol 64, 64); (_kstrtol 32, 32); (kstrtoint, 32);
   (kstrtos16, 16); (kstrtos8, 8)].

Definition unsigned_conversions : list ((bytes → Z → option kres) * Z) :=
  [(kstrtoull, 64); (_kstrtoul 64, 64); (_kstrtoul 32, 32); (kstrtouint, 32);
   (kstrtou16, 16); (kstrtou8, 8)].

Lemma narrow_signed bits z : 1 ≤ bits ≤ 64 →
  (r ← Some (if (- 2 ^ 63 <=? z) && (z <? 2 ^ 63) then KOk z else KErr (- ERANGE));
   match r with
   | KErr e => Some (KErr e)
   | KOk tmp => if negb (tmp =? signed bits tmp) then Some (KErr (- ERANGE)) else Some (KOk tmp)
   end) =
  Some (if (- 2 ^ (bits - 1) <=? z) && (z <? 2 ^ (bits - 1)) then KOk z else KErr (- ERANGE)).
Proof.
  intros Hb. pose proof (Z.pow_le_mono_r 2 (bits - 1) 63) as Hm.
  destruct ((- 2 ^ 63 <=? z) && (z <? 2 ^ 63)) eqn:E; cbn [mbind option_bind].
  - rewrite signed_fits by lia. by destruct ((- 2 ^ (bits - 1) <=? z) && (z <? 2 ^ (bits - 1))).
  - destruct ((- 2 ^ (bits - 1) <=? z) && _) eqn:E'; [|done]. bool_to_prop; lia.
Qed.

Lemma narrow_unsigned bits z : 0 ≤ bits ≤ 64 →
  (r ← Some (if z <? 0 then KErr (- EINVAL)
             else if ULLONG_MAX <? z then KErr (- ERANGE) else KOk z);
   match r with
   | KErr e => Some (KErr e)
   | KOk tmp => if negb (tmp =? wrap bits tmp) then Some (KErr (- ERANGE)) else Some (KOk tmp)
   end) =
  Some (if z <? 0 then KErr (- EINVAL)
        else if z <? 2 ^ bits then KOk z else KErr (- ERANGE)).
Proof.
  intros Hb. pose proof (Z.pow_le_mono_r 2 bits 64) as Hm. unfold ULLONG_MAX.
  destruct (z <? 0) eqn:E0; [done|]. bool_to_prop.
  destruct (_ <? z) eqn:E; cbn [mbind option_bind]; bool_to_prop.
  - by rewrite (proj2 (Z.ltb_ge z _)) by lia.
  - pose proof (wrap_range bits z ltac:(lia)). destruct (z <? 2 ^ bits) eqn:E'; bool_to_prop.
    + by rewrite wrap_small, Z.eqb_refl by lia.
    + by rewrite (proj2 (Z.eqb_neq z _)) by lia.
Qed.

Lemma signed_conversion_print g bits base z nl :
  (g, bits) ∈ signed_conversions → 2 ≤ base ≤ 16 → line_end nl →
  zlen (print_int base z ++ nl) < 2 ^ 31 →
  g ((print_int base z ++ nl) ++ [NUL]) base =
  Some (if (- 2 ^ (bits - 1) <=? z) && (z <? 2 ^ (bits - 1)) then KOk z else KErr (- ERANGE)).
Proof.
  intros Hg Hb Hnl Hl. pose proof (kstrtoll_print base z nl Hb Hnl Hl) as Hll.
  repeat (apply elem_of_cons in Hg as [[= -> ->]|Hg]); [done|..|by apply elem_of_nil in Hg];
    unfold _kstrtol, kstrtoint, kstrtos16, kstrtos8; rewrite Hll; by apply narrow_signed.
Qed.

Lemma unsigned_conversion_print g bits base z nl :
  (g, bits) ∈ unsigned_conversions → 2 ≤ base ≤ 16 → line_end nl →
  zlen (print_int base z ++ nl) < 2 ^ 31 →
  g ((print_int base z ++ nl) ++ [NUL]) base =
  Some (if z <? 0 then KErr (- EINVAL)
        else if z <? 2 ^ bits then KOk z else KErr (- ERANGE)).
Proof.
  intros Hg Hb Hnl Hl. pose proof (kstrtoull_print base z nl Hb Hnl Hl) as Hull.
  apply elem_of_cons in Hg as [[= -> ->]|Hg].
  { rewrite Hull. destruct (z <? 0); [done|]. unfold ULLONG_MAX.
    destruct (Z.ltb_spec (2 ^ 64 - 1) z), (Z.ltb_spec z (2 ^ 64)); done || lia. }
  repeat (apply elem_of_cons in Hg as [[= -> ->]|Hg]); [..|by apply elem_of_nil in Hg];
    unfold _kstrtoul, kstrtouint, kstrtou16, kstrtou8; rewrite Hull; by apply narrow_unsigned.
Qed.

(** ** What is accepted *)

(** The text of a list of digits. *)
Definition digit_text (base : Z) : bytes → list Z → Prop :=
  Forall2 (λ c d, digit_val base c = Some d).

(** An unsigned numeral in an explicit base: an optional sign, an optional prefix
    in base 16, one digit or more, an optional newline. *)
Definition is_numeral (base : Z) (s : bytes) (v : Z) : Prop :=
  ∃ plus pre text ds nl,
    s = plus ++ pre ++ text ++ nl ∧ (plus = [] ∨ plus = B "+") ∧
    (pre = [] ∨ base = 16 ∧ (pre = B "0x" ∨ pre = B "0X")) ∧
    digit_text base text ds ∧ ds ≠ [] ∧ line_end nl ∧ v = eval_from base 0 ds.

Lemma numeral_sound base s : ∃ text,
  s = text ++ (numeral base s).2 ∧ digit_text base text (numeral base s).1.
Proof.
  induction s as [|c s (text & Hs & Ht)]; cbn [numeral]; [exists []; by split; [|constructor]|].
  destruct (digit_val base c) as [d|] eqn:Hd; [|exists []; by split; [|constructor]].
  destruct (numeral base s). cbn in *. exists (c :: text). rewrite Hs at 1. by split; [|constructor].
Qed.

Lemma numeral_complete base text ds nl :
  digit_text base text ds → line_end nl → numeral base (text ++ nl) = (ds, nl).
Proof.
  intros Ht Hnl. induction Ht as [|c d text ds Hd _ IH]; cbn.
  - by destruct Hnl as [->| ->].
  - by rewrite Hd, IH.
Qed.

Lemma digit_text_x base text ds nl c : digit_text base text ds → line_end nl →
  c ∈ text ++ nl → c ≠ 88 ∧ c ≠ 120 ∧ c ≠ 43.
Proof.
  intros Ht Hnl [Hc|Hc]%elem_of_app.
  - apply list_elem_of_lookup_1 in Hc as [i Hi].
    destruct (Forall2_lookup_l _ _ _ _ _ Ht Hi) as (d & _ & Hd). cbn in Hd.
    split_and!; intros ->; by destruct base.
  - destruct Hnl as [->| ->]; [by apply elem_of_nil in Hc|].
    by apply list_elem_of_singleton in Hc as ->.
Qed.

Lemma parse_result_ok base t v : parse_result base t = KOk v ↔
  v ≤ ULLONG_MAX ∧ ∃ text ds nl,
    t = text ++ nl ∧ digit_text base text ds ∧ ds ≠ [] ∧ line_end nl ∧ v = eval_from base 0 ds.
Proof.
  unfold parse_result. destruct (numeral_sound base t) as (text & Ht & Hd). split.
  - destruct (numeral base t) as [ds rest]. cbn [fst snd] in *. intros Hr.
    repeat case_match; simplify_eq; bool_to_prop. split; [done|]. eauto 10.
  - intros (Hv & text' & ds & nl & -> & Hdt & Hne & Hnl & ->).
    rewrite (numeral_complete _ _ ds nl), (proj2 (Z.ltb_ge _ _)) by done.
    by rewrite bool_decide_false, bool_decide_true.
Qed.

Lemma prefix_radix_text base text ds nl : 2 ≤ base ≤ 16 →
  digit_text base text ds → ds ≠ [] → line_end nl →
  prefix_radix base (text ++ nl) = (text ++ nl, base).
Proof.
  intros Hb Ht Hne Hnl. pose proof (digit_text_x base text ds nl) as Hx. unfold prefix_radix.
  rewrite (proj2 (Z.eqb_neq base 0)) by lia.
  destruct (text ++ nl) as [|c0 [|c1 r]]; [done|by case_match|].
  destruct (Hx c1) as (? & ? & _); [done|done|set_solver|].
  rewrite (proj2 (Z.eqb_neq c1 88)), (proj2 (Z.eqb_neq c1 120)) by done. by case_match.
Qed.

Lemma strip_plus_split s : ∃ plus, s = plus ++ strip_plus s ∧ (plus = [] ∨ plus = B "+").
Proof.
  unfold strip_plus. destruct s as [|c s]; [by exists []; auto|]. case_match; bool_to_prop.
  - simplify_eq/=. exists (B "+"). auto.
  - exists []. auto.
Qed.

Lemma prefix_radix_split base s : base ≠ 0 → ∃ pre,
  s = pre ++ (prefix_radix base s).1 ∧ (prefix_radix base s).2 = base ∧
  (pre = [] ∨ base = 16 ∧ (pre = B "0x" ∨ pre = B "0X")).
Proof.
  intros Hb. unfold prefix_radix. rewrite (proj2 (Z.eqb_neq base 0)) by done.
  destruct s as [|c0 s]; [by exists []; auto|].
  destruct (Z.eqb_spec c0 48) as [->|]; [|by exists []; auto].
  destruct s as [|c1 r]; [by exists []; auto|]. rewrite andb_false_l, orb_false_r.
  destruct ((c1 =? 88) || (c1 =? 120)) eqn:Hc, (Z.eqb_spec base 16) as [->|]; cbn;
    [|by exists []; auto..].
  exists [48; c1]. split; [done|]. split; [done|]. right. split; [done|]. bool_to_prop.
  destruct Hc as [->%Z.eqb_eq| ->%Z.eqb_eq]; auto.
Qed.

(** The parts of an accepted string are found again. *)
Lemma ull_result_text base plus pre text ds nl : 2 ≤ base ≤ 16 →
  plus = [] ∨ plus = B "+" → pre = [] ∨ base = 16 ∧ (pre = B "0x" ∨ pre = B "0X") →
  digit_text base text ds → ds ≠ [] → line_end nl →
  ull_result base (strip_plus (plus ++ pre ++ text ++ nl)) = parse_result base (text ++ nl).
Proof.
  intros Hb Hplus Hpre Ht Hne Hnl.
  assert (strip_plus (plus ++ pre ++ text ++ nl) = pre ++ text ++ nl) as ->.
  { unfold strip_plus. destruct Hplus as [->| ->]; [|done].
    destruct Hpre as [->|[_ [->| ->]]]; [|done..]. cbn [app].
    rewrite bool_decide_false; [done|]. intros Hc%list_elem_of_lookup_2.
    by destruct (digit_text_x base text ds nl _ Ht Hnl Hc) as (_ & _ & ?). }
  unfold ull_result. destruct Hpre as [->|[-> Hpre]]; [cbn [app]; by erewrite prefix_radix_text|].
  by destruct Hpre as [->| ->].
Qed.

(** [kstrtoull] stores a value exactly for the numerals whose value fits in 64
    bits, and it stores that value; every other string gives [-ERANGE] or
    [-EINVAL]. *)
Theorem kstrtoull_accepts base s : is_cstr s → zlen s < 2 ^ 31 → 2 ≤ base ≤ 16 →
  (∀ v, kstrtoull (s ++ [NUL]) base = Some (KOk v) ↔ is_numeral base s v ∧ v ≤ ULLONG_MAX) ∧
  ((∃ v, kstrtoull (s ++ [NUL]) base = Some (KOk v)) ∨
   kstrtoull (s ++ [NUL]) base = Some (KErr (- ERANGE)) ∨
   kstrtoull (s ++ [NUL]) base = Some (KErr (- EINVAL))).
Proof.
  intros Hs Hl Hb. rewrite !kstrtoull_spec by lia || done. split.
  2: { unfold ull_result, parse_result. repeat case_match; eauto. }
  intros v. rewrite (inj_iff Some). split.
  - destruct (strip_plus_split s) as (plus & Hs' & Hplus).
    destruct (prefix_radix_split base (strip_plus s)) as (pre & Hp & Hbase & Hpre); [lia|].
    unfold ull_result. destruct (prefix_radix base (strip_plus s)) as [t b]. cbn in Hp, Hbase. subst b.
    intros (Hv & text & ds & nl & -> & Ht & Hne & Hnl & E)%parse_result_ok. split; [|done].
    exists plus, pre, text, ds, nl. split_and!; try done. by rewrite Hs', Hp.
  - intros [(plus & pre & text & ds & nl & -> & Hplus & Hpre & Ht & Hne & Hnl & E) Hv].
    rewrite (ull_result_text base plus pre text ds nl) by done. apply parse_result_ok. eauto 10.
Qed.

(** C37: A printed integer converts back in every base, with or without a final
    newline: each conversion to a signed type of [bits] bits returns the value if
    the type holds it and [-ERANGE] otherwise; the conversions to unsigned types
    refuse a minus sign with [-EINVAL]. *)
Theorem kstrto_print_roundtrip base z nl : 2 ≤ base ≤ 16 → line_end nl →
  zlen (print_int base z ++ nl) < 2 ^ 31 →
  (∀ g bits, (g, bits) ∈ signed_conversions →
     g ((print_int base z ++ nl) ++ [NUL]) base =
     Some (if (- 2 ^ (bits - 1) <=? z) && (z <? 2 ^ (bits - 1)) then KOk z
           else KErr (- ERANGE))) ∧
  (∀ g bits, (g, bits) ∈ unsigned_conversions →
     g ((print_int base z ++ nl) ++ [NUL]) base =
     Some (if z <? 0 then KErr (- EINVAL)
           else if z <? 2 ^ bits then KOk z else KErr (- ERANGE))).
Proof.
  intros Hb Hnl Hl. split; intros g bits Hg.
  - by apply signed_conversion_print.
  - by apply unsigned_conversion_print.
Qed.

Lemma print_nat_length base n bits : 2 ≤ base ≤ 16 → 0 ≤ n < 2 ^ bits → 1 ≤ bits →
  zlen (print_nat base n) ≤ bits.
Proof.
  intros Hb Hn Hbits. destruct (print_nat_digits base n) as (d & ds & -> & _ & _ & Hl); [lia..|].
  unfold zlen. rewrite length_fmap.
  destruct (Z.eq_dec n 0) as [->|]; [change (Z.log2 0) with 0 in Hl; lia|].
  pose proof (Z.log2_lt_pow2 n bits). pose proof (Z.log2_nonneg n). lia.
Qed.

Lemma print_int_length base z bits : 2 ≤ base ≤ 16 → 2 ≤ bits →
  - 2 ^ (bits - 1) ≤ z < 2 ^ (bits - 1) → zlen (print_int base z) ≤ 1 + bits.
Proof.
  intros Hb Hbits Hz. assert (2 ^ bits = 2 * 2 ^ (bits - 1)) as Hp.
  { rewrite <-Z.pow_succ_r by lia. f_equal. lia. }
  unfold print_int. case_match; bool_to_prop.
  - rewrite zlen_cons. pose proof (print_nat_length base (- z) bits). lia.
  - pose proof (print_nat_length base z bits). lia.
Qed.

(** The buffer of the [_from_user] variants is large enough: every value of a
    signed type, in every base, with a final newline or not, is read from user
    space whole and converted, and a fault gives [-EFAULT]. *)
Theorem kstrto_from_user_fits g bits base z nl more :
  (g, bits) ∈ signed_conversions → 2 ≤ base ≤ 16 → line_end nl →
  - 2 ^ (bits - 1) ≤ z < 2 ^ (bits - 1) →
  let text := print_int base z ++ nl in
  kstrto_from_user g (Z.to_nat (bits / 8)) (text ++ more) (length text) base = Some (KOk z) ∧
  ∀ n, (n < length text)%nat →
    kstrto_from_user g (Z.to_nat (bits / 8)) (take n text) (length text) base =
    Some (KErr (- EFAULT)).
Proof.
  intros Hg Hb Hnl Hz text.
  assert (8 ≤ bits ≤ 64 ∧ bits = 8 * (bits / 8)) as [Hbits H8].
  { repeat (apply elem_of_cons in Hg as [[= -> ->]|Hg]); [done..|by apply elem_of_nil in Hg]. }
  pose proof (print_int_length base z bits) as Hlen.
  assert (length text ≤ 1 + Z.to_nat (bits / 8) * 8 + 1)%nat as Hfit.
  { unfold text. rewrite length_app. unfold zlen in Hlen.
    assert (length nl ≤ 1)%nat by (by destruct Hnl as [->| ->]; simpl; lia). lia. }
  unfold kstrto_from_user. rewrite Nat.min_l by done. split.
  - rewrite length_app, (proj2 (Nat.ltb_ge _ _)), take_app_length by lia. unfold text.
    rewrite (signed_conversion_print g bits base z nl Hg Hb Hnl);
      [|fold text; unfold zlen; lia].
    by rewrite (proj2 (Z.leb_le _ _)), (proj2 (Z.ltb_lt _ _)) by lia.
  - intros n Hn. rewrite length_take, (proj2 (Nat.ltb_lt _ _)) by lia. done.
Qed.

End kstrtox.

Lemma kstrtoull_accepts_witness :
  kstrtoull (B "+0xfFfFfFfFfFfFfFfF" ++ [NUL]) 16 = Some (KOk (2 ^ 64 - 1)) ∧
  is_numeral 16 (B "+0xfFfFfFfFfFfFfFfF") (2 ^ 64 - 1).
Proof.
  assert (kstrtoull (B "+0xfFfFfFfFfFfFfFfF" ++ [NUL]) 16 = Some (KOk (2 ^ 64 - 1))) as E by vm_refl.
  split; [done|].
  apply (proj1 (kstrtoull_accepts 16 (B "+0xfFfFfFfFfFfFfFfF") ltac:(vm_decide) ltac:(vm_decide)
    ltac:(vm_decide)) (2 ^ 64 - 1)). exact E.
Defined.

Lemma kstrto_print_roundtrip_witness :
  kstrtos8 ((print_int 2 (-128) ++ [NEWLINE]) ++ [NUL]) 2 = Some (KOk (-128)) ∧
  kstrtos8 ((print_int 10 128 ++ []) ++ [NUL]) 10 = Some (KErr (- ERANGE)).
Proof.
  split.
  - apply (proj1 (kstrto_print_roundtrip 2 (-128) [NEWLINE] ltac:(vm_decide) ltac:(by right)
      ltac:(vm_decide)) kstrtos8 8).
    unfold signed_conversions. set_solver.
  - apply (proj1 (kstrto_print_roundtrip 10 128 [] ltac:(vm_decide) ltac:(by left)
      ltac:(vm_decide)) kstrtos8 8).
    unfold signed_conversions. set_solver.
Defined.

Lemma kstrto_from_user_fits_witness :
  kstrto_from_user kstrtoll 8 ((print_int 2 (- 2 ^ 63) ++ [NEWLINE]) ++ B "rest") 66 2 =
  Some (KOk (- 2 ^ 63)).
Proof.
  apply (proj1 (kstrto_from_user_fits kstrtoll 64 2 (- 2 ^ 63) [NEWLINE] (B "rest")
    ltac:(unfold signed_conversions; set_solver) ltac:(vm_decide) ltac:(by right)
    ltac:(vm_decide))).
Defined.

End KStrtox.
