(* ===== verification/KHex.v ===== *)
(** * Hexadecimal text, [lib/hexdump.c]

    The conversions between bytes and hexadecimal digits, and the dump of a line
    of bytes into a buffer of limited size.

    The helpers of the headers ([hex_asc_hi], [hex_asc_lo], [is_power_of_2],
    [get_unaligned], [isascii], [isprint]) are the class [HexHeaders].  A buffer
    is the list of its bytes; a write outside it is [None]. *)
From stdpp Require Import base numbers sets strings list.
From S2P Require Import Prelude Ctype KString KStrtox.

Definition hex_asc : bytes := B "0123456789abcdef".

Class HexHeaders := {
  hex_asc_hi : Z → Z;
  hex_asc_lo : Z → Z;
  is_power_of_2 : Z → bool;
  get_unaligned : bytes → Z;
  isascii : Z → bool;
  isprint : Z → bool;
  hex_asc_hi_spec b : is_byte b → hex_asc !! Z.to_nat (b / 16) = Some (hex_asc_hi b);
  hex_asc_lo_spec b : is_byte b → hex_asc !! Z.to_nat (b mod 16) = Some (hex_asc_lo b);
  is_power_of_2_spec n : (0 ≤ n)%Z → is_power_of_2 n = true ↔ ∃ k, (0 ≤ k)%Z ∧ n = (2 ^ k)%Z;
  get_unaligned_range l : (0 ≤ get_unaligned l < 256 ^ zlen l)%Z;
  isprint_nul : isprint NUL = false;
}.

Module KHex.
Local Open Scope Z_scope.
Import KStrtox.

Section hex.
Context `{Ctype, HexHeaders}.

(** A store into a buffer. *)
Definition store (l : bytes) (i : nat) (c : Z) : option bytes :=
  if decide (i < length l)%nat then Some (<[i := c]> l) else None.

(** ** Digits and bytes *)

Definition hex_to_bin (ch : Z) : Z :=
  if (48 <=? ch) && (ch <=? 57) then ch - 48
  else
    let ch := tolower ch in
    if (97 <=? ch) && (ch <=? 102) then ch - 97 + 10 else -1.

(** The bytes from [dst + i] on; the return code and the object [dst]. *)
Fixpoint hex2bin (dst : bytes) (i : nat) (src : bytes) (count : nat) {struct count} :
    option (Z * bytes) :=
  match count with
  | O => Some (0, dst)
  | S count =>
      match src with
      | c1 :: c2 :: src =>
          let hi := hex_to_bin c1 in
          let lo := hex_to_bin c2 in
          if (hi <? 0) || (lo <? 0) then Some (- EINVAL, dst)
          else
            dst ← store dst i (w8 (Z.lor (Z.shiftl hi 4) lo));
            hex2bin dst (S i) src count
      | _ => None
      end
  end.

(** [hex_byte_pack] of the header writes the two digits of a byte. *)
Definition hex_byte_pack (dst : bytes) (i : nat) (b : Z) : option (bytes * nat) :=
  dst ← store dst i (hex_asc_hi b);
  dst ← store dst (S i) (hex_asc_lo b);
  Some (dst, S (S i)).

(** The object [dst] and the offset of the returned pointer. *)
Fixpoint bin2hex (dst : bytes) (i : nat) (src : bytes) (count : nat) {struct count} :
    option (bytes * nat) :=
  match count with
  | O => Some (dst, i)
  | S count =>
      match src with
      | b :: src =>
          r ← hex_byte_pack dst i b;
          let '(dst, i) := (r : bytes * nat) in
          bin2hex dst i src count
      | [] => None
      end
  end.

(** ** A line of a dump *)

(** The state of [hex_dump_to_buffer]: running with [lx] and the buffer, or on
    the way to one of its labels. *)
Inductive dump :=
  | Run (lx : nat) (linebuf : bytes)
  | Overflow1 (linebuf : bytes)
  | Overflow2 (lx : nat) (linebuf : bytes).

Definition dbind (r : option dump) (f : nat → bytes → option dump) : option dump :=
  match r with
  | Some (Run lx l) => f lx l
  | r => r
  end.

(** [snprintf(linebuf + lx, size, ...)] of a text: it is cut to [size - 1] bytes
    and ended with a NUL. *)
Fixpoint store_all (l : bytes) (i : nat) (t : bytes) : option bytes :=
  match t with
  | [] => Some l
  | c :: t => l ← store l i c; store_all l (S i) t
  end.

Definition snprintf (l : bytes) (lx size : nat) (t : bytes) : option (bytes * nat) :=
  match size with
  | O => Some (l, length t)
  | S m => l ← store_all l lx (take m t ++ [NUL]); Some (l, length t)
  end.

(** [%<2n>.<2n>x] of a value of [n] bytes. *)
Fixpoint hex_digits (n : nat) (v : Z) : bytes :=
  match n with
  | O => []
  | S n => hex_digits n (v / 16) ++ [digit_char (v mod 16)]
  end.

(** The loops for groups of 8, 4 and 2 bytes, which differ in the size of the
    group only; [j] counts the groups done. *)
Fixpoint dump_groups (groupsize linebuflen : nat) (n j : nat) (data : bytes)
    (lx : nat) (l : bytes) {struct n} : option dump :=
  match n with
  | O => Some (Run lx l)
  | S n =>
      let text := (if decide (j = 0)%nat then [] else [SPACE]) ++
        hex_digits (2 * groupsize) (get_unaligned (take groupsize data)) in
      r ← snprintf l lx (linebuflen - lx) text;
      let '(l, ret) := (r : bytes * nat) in
      if (linebuflen - lx <=? ret)%nat then Some (Overflow1 l)
      else dump_groups groupsize linebuflen n (S j) (drop groupsize data) (lx + ret) l
  end.

(** [if (linebuflen < lx + 2) goto overflow2; linebuf[lx++] = c;] *)
Definition emit (linebuflen : nat) (c : Z) (lx : nat) (l : bytes) : option dump :=
  if (linebuflen <? lx + 2)%nat then Some (Overflow2 lx l)
  else l ← store l lx c; Some (Run (S lx) l).

Fixpoint dump_bytes (linebuflen : nat) (data : bytes) (lx : nat) (l : bytes) : option dump :=
  match data with
  | [] => Some (Run lx l)
  | ch :: data =>
      dbind (emit linebuflen (hex_asc_hi ch) lx l) (λ lx l,
      dbind (emit linebuflen (hex_asc_lo ch) lx l) (λ lx l,
      dbind (emit linebuflen SPACE lx l) (λ lx l,
      dump_bytes linebuflen data lx l)))
  end.

(** [while (lx < ascii_column)]; [n] is at least [ascii_column - lx]. *)
Fixpoint dump_pad (linebuflen ascii_column n : nat) (lx : nat) (l : bytes) {struct n} :
    option dump :=
  match n with
  | O => Some (Run lx l)
  | S n =>
      if (lx <? ascii_column)%nat then
        dbind (emit linebuflen SPACE lx l) (dump_pad linebuflen ascii_column n)
      else Some (Run lx l)
  end.

Definition ascii_char (ch : Z) : Z := if isascii ch && isprint ch then ch else 46.

Fixpoint dump_ascii (linebuflen : nat) (data : bytes) (lx : nat) (l : bytes) : option dump :=
  match data with
  | [] => Some (Run lx l)
  | ch :: data =>
      dbind (emit linebuflen (ascii_char ch) lx l) (dump_ascii linebuflen data)
  end.

(** The first lines of the function: the row, the length and the group that are
    used. *)
Definition dump_rowsize (rowsize : Z) : Z :=
  if negb (rowsize =? 16) && negb (rowsize =? 32) then 16 else rowsize.

Definition dump_groupsize (groupsize len : Z) : Z :=
  let groupsize :=
    if negb (is_power_of_2 (w64 groupsize)) || (8 <? groupsize) then 1 else groupsize in
  if negb (len mod groupsize =? 0) then 1 else groupsize.

(** The return value and the buffer.  [buf] holds at least [len] bytes. *)
Definition hex_dump_to_buffer (buf : bytes) (len rowsize groupsize : Z)
    (linebuf : bytes) (linebuflen : nat) (ascii : bool) : option (Z * bytes) :=
  let rowsize := dump_rowsize rowsize in
  let len := if rowsize <? len then rowsize else len in
  let groupsize := dump_groupsize groupsize len in
  let ngroups := len / groupsize in
  let ascii_column := rowsize * 2 + rowsize / groupsize + 1 in
  let data := take (Z.to_nat len) buf in
  let overflow := if ascii then ascii_column + len else (groupsize * 2 + 1) * ngroups - 1 in
  if decide (zlen data < len) then None
  else if decide (linebuflen = 0)%nat then Some (overflow, linebuf)
  else
    let r :=
      if len =? 0 then Some (Run 0 linebuf)
      else
        dbind
          (if (groupsize =? 8) || (groupsize =? 4) || (groupsize =? 2) then
             dump_groups (Z.to_nat groupsize) linebuflen (Z.to_nat ngroups) 0 data 0 linebuf
           else dbind (dump_bytes linebuflen data 0 linebuf) (λ lx l, Some (Run (lx - 1) l)))
          (λ lx l,
            if negb ascii then Some (Run lx l)
            else
              dbind (dump_pad linebuflen (Z.to_nat ascii_column) (Z.to_nat ascii_column) lx l)
                (dump_ascii linebuflen data)) in
    match r with
    | None => None
    | Some (Run lx l) => l ← store l lx NUL; Some (Z.of_nat lx, l)
    | Some (Overflow2 lx l) => l ← store l lx NUL; Some (overflow, l)
    | Some (Overflow1 l) => Some (overflow, l)
    end.

(** ** The dump of a block *)

Inductive dump_prefix :=
  | DUMP_PREFIX_NONE
  | DUMP_PREFIX_ADDRESS
  | DUMP_PREFIX_OFFSET.

(** One call of [printk]: the prefix that is printed, as a distance from the
    start of the data, and the string in [linebuf]. *)
Inductive hex_line :=
  | LineAddress (i : nat) (text : bytes)
  | LineOffset (i : nat) (text : bytes)
  | LinePlain (text : bytes).

Definition print_line (prefix_type : dump_prefix) (i : nat) (text : bytes) : hex_line :=
  match prefix_type with
  | DUMP_PREFIX_ADDRESS => LineAddress i text
  | DUMP_PREFIX_OFFSET => LineOffset i text
  | DUMP_PREFIX_NONE => LinePlain text
  end.

Definition LINEBUF : nat := 32 * 3 + 2 + 32 + 1.

(** The loop over the rows; [fuel] is at least the number of bytes left. *)
Fixpoint print_rows (fuel : nat) (prefix_type : dump_prefix) (rowsize groupsize : Z)
    (buf : bytes) (len i : nat) (remaining : Z) (linebuf : bytes) (ascii : bool) :
    option (list hex_line) :=
  match fuel with
  | O => Some []
  | S fuel =>
      if (i <? len)%nat then
        let linelen := Z.min remaining rowsize in
        let remaining := remaining - rowsize in
        r ← hex_dump_to_buffer (drop i buf) linelen rowsize groupsize linebuf LINEBUF ascii;
        let '(_, linebuf) := (r : Z * bytes) in
        n ← KString.strlen linebuf;
        rest ← print_rows fuel prefix_type rowsize groupsize buf len (i + Z.to_nat rowsize)
          remaining linebuf ascii;
        Some (print_line prefix_type i (take n linebuf) :: rest)
      else Some []
  end.

Definition print_hex_dump (prefix_type : dump_prefix) (rowsize groupsize : Z)
    (buf : bytes) (len : nat) (linebuf : bytes) (ascii : bool) : option (list hex_line) :=
  let rowsize := if negb (rowsize =? 16) && negb (rowsize =? 32) then 16 else rowsize in
  print_rows len prefix_type rowsize groupsize buf len 0 (Z.of_nat len) linebuf ascii.

(** ** Stores *)

Lemma store_all_spec t l i : (i + length t ≤ length l)%nat →
  store_all l i t = Some (take i l ++ t ++ drop (i + length t) l).
Proof.
  revert l i. induction t as [|c t IH]; intros l i Hl; cbn [store_all].
  { cbn [length]. rewrite Nat.add_0_r. cbn [app]. by rewrite take_drop. }
  simpl in Hl. unfold store. rewrite decide_True by lia. cbn [mbind option_bind].
  rewrite IH by (rewrite length_insert; lia). f_equal.
  rewrite (take_S_r _ _ c) by (apply list_lookup_insert_eq; lia).
  rewrite take_insert_ge by done. rewrite drop_insert_lt by lia. rewrite <-(assoc (++)). simpl.
  by rewrite Nat.add_succ_r.
Qed.

(** [l] is [l0] with [t] written at its start, and untouched from [N] on. *)
Definition wrote (l0 : bytes) (N : nat) (t l : bytes) : Prop :=
  length l = length l0 ∧ drop N l = drop N l0 ∧ t `prefix_of` l.

Lemma wrote_prefix l0 N t u l : wrote l0 N (t ++ u) l → wrote l0 N t l.
Proof. intros (? & ? & k & ->). split_and!; [done..|]. exists (u ++ k). by rewrite <-(assoc (++)). Qed.

Lemma wrote_store l0 N t u l : wrote l0 N t l →
  (length t + length u ≤ N)%nat → (N ≤ length l0)%nat →
  ∃ l', store_all l (length t) u = Some l' ∧ wrote l0 N (t ++ u) l'.
Proof.
  intros (Hl & Hd & k & ->) Hu HN. rewrite store_all_spec by lia.
  eexists. split; [done|]. rewrite take_app_length. split_and!.
  - rewrite !length_app, length_drop. rewrite length_app in *. lia.
  - rewrite <-Hd. rewrite (assoc (++)), drop_app_ge by (rewrite length_app; lia).
    rewrite drop_drop, length_app. f_equal. lia.
  - eexists. by rewrite <-(assoc (++)).
Qed.

Lemma wrote_store1 l0 N t c l : wrote l0 N t l → (length t < N)%nat → (N ≤ length l0)%nat →
  ∃ l', store l (length t) c = Some l' ∧ wrote l0 N (t ++ [c]) l'.
Proof.
  intros Hw Ht HN. destruct (wrote_store l0 N t [c] l) as (l' & Hs & Hw'); [done|simpl; lia|done|].
  exists l'. split; [|done]. cbn in Hs. by destruct (store l (length t) c).
Qed.

(** ** The text of a line, written as far as it fits *)

(** The state after [t]: all of it written, or the first [N - 1] bytes and on the
    way to a label. *)
Definition reaches (slack : nat) (l0 : bytes) (N : nat) (t : bytes) (r : option dump) : Prop :=
  (∃ l, r = Some (Run (length t) l) ∧ (length t < N)%nat ∧ wrote l0 N t l) ∨
  (∃ l, r = Some (Overflow2 (N - 1) l) ∧ (N ≤ length t + slack)%nat ∧
    wrote l0 N (take (N - 1) t) l) ∨
  (∃ l, r = Some (Overflow1 l) ∧ (N ≤ length t + slack)%nat ∧
    wrote l0 N (take (N - 1) t ++ [NUL]) l).

Lemma reaches_bind k l0 N t u r f : (k ≤ 1)%nat → reaches k l0 N t r →
  (∀ l, (length t < N)%nat → wrote l0 N t l → reaches k l0 N (t ++ u) (f (length t) l)) →
  reaches k l0 N (t ++ u) (dbind r f).
Proof.
  intros Hk [(l & -> & Hlt & Hw)|[(l & -> & Hlt & Hw)|(l & -> & Hlt & Hw)]] Hf; [by apply Hf|..].
  - right; left. exists l. rewrite length_app, take_app_le by lia. split_and!; [done|lia|done].
  - right; right. exists l. rewrite length_app, take_app_le by lia. split_and!; [done|lia|done].
Qed.

Lemma reaches_run k l0 N t l : (length t < N)%nat → wrote l0 N t l →
  reaches k l0 N t (Some (Run (length t) l)).
Proof. intros ? ?. left. eauto. Qed.

Lemma reaches_emit k l0 N t c l : (N ≤ length l0)%nat → (length t < N)%nat → wrote l0 N t l →
  reaches k l0 N (t ++ [c]) (emit N c (length t) l).
Proof.
  intros HN Ht Hw. unfold emit. destruct (Nat.ltb_spec N (length t + 2)).
  - right; left. exists l. rewrite length_app. simpl.
    assert (N - 1 = length t)%nat as -> by lia. rewrite take_app_length. split_and!; [done|lia|done].
  - destruct (wrote_store1 l0 N t c l) as (l' & -> & Hw'); [done..|]. cbn.
    left. exists l'. rewrite length_app. simpl. rewrite Nat.add_1_r. split_and!; [done|lia|done].
Qed.

(** ** The reference text *)

(** Words with one space between them. *)
Fixpoint join_space (l : list bytes) : bytes :=
  match l with
  | [] => []
  | [w] => w
  | w :: l => w ++ SPACE :: join_space l
  end.

Fixpoint chunks (g n : nat) (data : bytes) : list bytes :=
  match n with
  | O => []
  | S n => take g data :: chunks g n (drop g data)
  end.

(** The digits of a group: two for a single byte, those of the number read from
    memory for a larger group. *)
Definition group_text (g : nat) (chunk : bytes) : bytes :=
  match g, chunk with
  | 1%nat, [ch] => [hex_asc_hi ch; hex_asc_lo ch]
  | _, _ => hex_digits (2 * g) (get_unaligned chunk)
  end.

Definition hex_text (g : nat) (data : bytes) : bytes :=
  join_space (group_text g <$> chunks g (length data / g) data).

(** The line for [data]: the groups, and in the column after them the
    characters. *)
Definition line_text (rowsize g : nat) (ascii : bool) (data : bytes) : bytes :=
  match data with
  | [] => []
  | _ =>
      if ascii then
        let h := hex_text g data in
        h ++ replicate (rowsize * 2 + rowsize / g + 1 - length h) SPACE ++ (ascii_char <$> data)
      else hex_text g data
  end.

Lemma line_text_eq row g ascii data : data ≠ [] →
  line_text row g ascii data =
  if ascii then
    hex_text g data ++
    replicate (row * 2 + row / g + 1 - length (hex_text g data)) SPACE ++ (ascii_char <$> data)
  else hex_text g data.
Proof. by destruct data. Qed.

Lemma hex_digits_length n v : length (hex_digits n v) = n.
Proof.
  revert v. induction n as [|n IH]; intros v; cbn [hex_digits]; [done|].
  rewrite length_app, IH. simpl. lia.
Qed.

Lemma group_text_length g chunk : length (group_text g chunk) = (2 * g)%nat.
Proof.
  unfold group_text. destruct g as [|[|g]]; [done| |apply hex_digits_length].
  destruct chunk as [|ch [|]]; apply hex_digits_length || done.
Qed.

Lemma group_text_big g chunk : g ≠ 1%nat →
  group_text g chunk = hex_digits (2 * g) (get_unaligned chunk).
Proof. by destruct g as [|[|]]. Qed.

Lemma join_space_cons w l : l ≠ [] → join_space (w :: l) = w ++ SPACE :: join_space l.
Proof. by destruct l. Qed.

Lemma join_space_length k l : Forall (λ w, length w = k) l →
  length (join_space l) = ((k + 1) * length l - 1)%nat.
Proof.
  induction 1 as [|w l Hw Hl IH]; [simpl; lia|]. destruct (decide (l = [])) as [->|Hne].
  { simpl. lia. }
  rewrite join_space_cons, length_app by done. cbn [length]. rewrite IH, Hw.
  destruct l; [done|]. cbn [length]. nia.
Qed.

Lemma chunks_length g n data : length (chunks g n data) = n.
Proof. revert data. induction n; intros data; cbn; auto. Qed.

Lemma hex_text_length g data :
  length (hex_text g data) = ((2 * g + 1) * (length data / g) - 1)%nat.
Proof.
  unfold hex_text. rewrite (join_space_length (2 * g)).
  - by rewrite length_fmap, chunks_length.
  - apply Forall_fmap, Forall_true. intros chunk. apply group_text_length.
Qed.

(** Words, each with a space before it. *)
Definition spaced (l : list bytes) : bytes := l ≫= cons SPACE.

Lemma join_space_spaced w l : join_space (w :: l) = w ++ spaced l.
Proof.
  revert w. induction l as [|w' l IH]; intros w; [cbn; by rewrite app_nil_r|].
  rewrite join_space_cons, IH by done. done.
Qed.

Lemma join_space_snoc l : l ≠ [] → join_space l ++ [SPACE] = l ≫= (λ w, w ++ [SPACE]).
Proof.
  induction l as [|w l IH]; [done|]. intros _. destruct (decide (l = [])) as [->|Hne].
  { cbn. by rewrite app_nil_r. }
  rewrite join_space_cons by done. cbn [list_bind mbind]. rewrite <-IH by done.
  by rewrite <-!(assoc (++)).
Qed.

(** ** The phases of the function *)

Section phases.
Variables (l0 : bytes) (N : nat).
Hypothesis HN : (N ≤ length l0)%nat.

Lemma reaches_emit_bind k t c u l f : (k ≤ 1)%nat → (length t < N)%nat → wrote l0 N t l →
  (∀ l', (length (t ++ [c]) < N)%nat → wrote l0 N (t ++ [c]) l' →
    reaches k l0 N ((t ++ [c]) ++ u) (f (length (t ++ [c])) l')) →
  reaches k l0 N (t ++ c :: u) (dbind (emit N c (length t) l) f).
Proof.
  intros Hk Ht Hw Hf. rewrite cons_middle, (assoc (++)).
  apply reaches_bind; [done|by apply reaches_emit|done].
Qed.

Lemma dump_bytes_reaches data t l : (length t < N)%nat → wrote l0 N t l →
  reaches 0 l0 N (t ++ (data ≫= λ ch, [hex_asc_hi ch; hex_asc_lo ch; SPACE]))
    (dump_bytes N data (length t) l).
Proof.
  revert t l. induction data as [|ch data IH]; intros t l Ht Hw; cbn [dump_bytes mbind list_bind app].
  { rewrite app_nil_r. by apply reaches_run. }
  do 3 (apply reaches_emit_bind; [lia|done|done|]; clear l Ht Hw; intros l Ht Hw).
  by apply IH.
Qed.

Lemma dump_ascii_reaches data t l : (length t < N)%nat → wrote l0 N t l →
  reaches 1 l0 N (t ++ (ascii_char <$> data)) (dump_ascii N data (length t) l).
Proof.
  revert t l. induction data as [|ch data IH]; intros t l Ht Hw; cbn [dump_ascii fmap list_fmap].
  { rewrite app_nil_r. by apply reaches_run. }
  apply reaches_emit_bind; [lia|done|done|]. intros l' Ht' Hw'. by apply IH.
Qed.

Lemma dump_pad_reaches col n t l : (length t < N)%nat → wrote l0 N t l →
  (col - length t ≤ n)%nat →
  reaches 1 l0 N (t ++ replicate (col - length t) SPACE) (dump_pad N col n (length t) l).
Proof.
  revert t l. induction n as [|n IH]; intros t l Ht Hw Hn; cbn [dump_pad].
  { assert (col - length t = 0)%nat as -> by lia. rewrite app_nil_r. by apply reaches_run. }
  destruct (Nat.ltb_spec (length t) col).
  - assert (col - length t = S (col - length (t ++ [SPACE])))%nat as ->
      by (rewrite length_app; simpl; lia).
    apply reaches_emit_bind; [lia|done|done|]. intros l' Ht' Hw'. apply IH; [done..|].
    rewrite length_app. simpl. lia.
  - assert (col - length t = 0)%nat as -> by lia. rewrite app_nil_r. by apply reaches_run.
Qed.

(** [snprintf] into what is left of the line. *)
Lemma snprintf_reaches t u l : (length t < N)%nat → wrote l0 N t l →
  ∃ l', snprintf l (length t) (N - length t) u = Some (l', length u) ∧
    ((length (t ++ u) < N)%nat → wrote l0 N (t ++ u) l') ∧
    ((N ≤ length (t ++ u))%nat → wrote l0 N (take (N - 1) (t ++ u) ++ [NUL]) l').
Proof.
  intros Ht Hw. unfold snprintf. destruct (N - length t)%nat as [|m] eqn:Hm; [lia|].
  destruct (wrote_store l0 N t (take m u ++ [NUL]) l) as (l' & -> & Hw'); [done| |done|].
  { rewrite length_app, length_take. simpl. lia. }
  exists l'. cbn. split; [done|]. rewrite length_app. split; intros Hlt.
  - rewrite take_ge, (assoc (++)) in Hw' by lia. by apply wrote_prefix in Hw'.
  - rewrite take_app_ge by lia. assert (N - 1 - length t = m)%nat as -> by lia.
    by rewrite <-(assoc (++)).
Qed.

Lemma dump_groups_reaches g n j data t l : (length t < N)%nat → wrote l0 N t l →
  let words := (λ chunk, hex_digits (2 * g) (get_unaligned chunk)) <$> chunks g n data in
  reaches 1 l0 N (t ++ if decide (j = 0)%nat then join_space words else spaced words)
    (dump_groups g N n j data (length t) l).
Proof.
  revert j data t l. induction n as [|n IH]; intros j data t l Ht Hw words.
  { cbn. unfold words. case_decide; cbn; rewrite app_nil_r; by apply reaches_run. }
  cbn [dump_groups]. set (w := hex_digits (2 * g) (get_unaligned (take g data))).
  set (u := (if decide (j = 0)%nat then [] else [SPACE]) ++ w).
  set (rest := (λ chunk, hex_digits (2 * g) (get_unaligned chunk)) <$> chunks g n (drop g data)).
  assert ((if decide (j = 0)%nat then join_space words else spaced words) = u ++ spaced rest) as ->.
  { unfold words, u. cbn [chunks fmap list_fmap]. fold w. case_decide; [apply join_space_spaced|done]. }
  destruct (snprintf_reaches t u l Ht Hw) as (l' & -> & Hfit & Hover). cbn [mbind option_bind].
  rewrite length_app in *. destruct (Nat.leb_spec (N - length t) (length u)).
  - right; right. exists l'. rewrite (assoc (++)), take_app_le, !length_app by (rewrite length_app; lia).
    split_and!; [done|lia|apply Hover; lia].
  - rewrite (assoc (++)), <-length_app. specialize (IH (S j) (drop g data) (t ++ u) l').
    cbn zeta in IH. rewrite decide_False in IH by done. apply IH; [rewrite length_app; lia|apply Hfit; lia].
Qed.

(** The spaces after the single bytes: the last one is taken back. *)
Lemma dump_bytes_trimmed data l : data ≠ [] → (0 < N)%nat → wrote l0 N [] l →
  reaches 1 l0 N (hex_text 1 data)
    (dbind (dump_bytes N data 0 l) (λ lx l, Some (Run (lx - 1) l))).
Proof.
  intros Hd Hpos Hw. pose proof (dump_bytes_reaches data [] l Hpos Hw) as Hr. cbn [app length] in Hr.
  assert (data ≫= (λ ch, [hex_asc_hi ch; hex_asc_lo ch; SPACE]) = hex_text 1 data ++ [SPACE]) as E.
  { unfold hex_text. rewrite Nat.div_1_r. rewrite join_space_snoc.
    - clear. induction data as [|ch data IH]; [done|]. cbn. by rewrite IH.
    - by destruct data. }
  rewrite E in Hr. destruct Hr as [(l' & -> & Hlt & Hw')|[(l' & -> & Hlt & Hw')|(l' & -> & Hlt & Hw')]];
    cbn [dbind]; rewrite length_app in *; cbn [length] in *.
  - left. exists l'. rewrite Nat.add_sub. apply wrote_prefix in Hw'. split_and!; [done|lia|done].
  - right; left. exists l'. split_and!; [done|lia|]. rewrite take_app_le in Hw' by lia. done.
  - right; right. exists l'. split_and!; [done|lia|]. rewrite take_app_le in Hw' by lia. done.
Qed.
End phases.

(** ** The function *)

Lemma dump_groupsize_cases g len : 0 ≤ len → - 2 ^ 31 ≤ g < 2 ^ 31 →
  dump_groupsize g len ∈ [1; 2; 4; 8] ∧ len mod dump_groupsize g len = 0.
Proof.
  intros Hlen Hg. unfold dump_groupsize.
  destruct (negb (is_power_of_2 (w64 g)) || (8 <? g)) eqn:E.
  { rewrite Z.mod_1_r. cbn. split; [set_solver|apply Z.mod_1_r]. }
  bool_to_prop. apply is_power_of_2_spec in H1 as (k & Hk & Hp); [|by apply wrap_range].
  assert (g ∈ [1; 2; 4; 8]) as Hin.
  { assert (0 < g).
    { destruct (Z.lt_ge_cases g 0) as [Hneg|]; [|destruct (Z.eq_dec g 0) as [->|]; [|lia]].
      - unfold w64 in Hp. rewrite wrap_neg in Hp by lia.
        assert (63 < k) by (apply (Z.pow_lt_mono_r_iff 2); lia).
        assert (k < 64) by (apply (Z.pow_lt_mono_r_iff 2); lia). lia.
      - pose proof (Z.pow_pos_nonneg 2 k). change (w64 0) with 0 in Hp. lia. }
    unfold w64 in Hp. rewrite wrap_small in Hp by lia.
    assert (k < 4) by (apply (Z.pow_lt_mono_r_iff 2); lia).
    assert (k = 0 ∨ k = 1 ∨ k = 2 ∨ k = 3) as [->|[->|[->| ->]]] by lia; subst g; vm_decide. }
  destruct (Z.eqb_spec (len mod g) 0); cbn; [done|]. split; [set_solver|apply Z.mod_1_r].
Qed.

(** The value returned on overflow is the length of the whole text. *)
Lemma line_text_length row g ascii data : (0 < g)%nat → data ≠ [] →
  (length data mod g = 0)%nat → (length data ≤ row)%nat →
  length (line_text row g ascii data) =
  if ascii then (row * 2 + row / g + 1 + length data)%nat
  else ((2 * g + 1) * (length data / g) - 1)%nat.
Proof.
  intros Hg Hne Hmod Hrow.
  rewrite line_text_eq by done. destruct ascii; [|by rewrite hex_text_length].
  rewrite !length_app, length_replicate, length_fmap, hex_text_length.
  pose proof (Nat.Div0.div_le_mono (length data) row g Hrow).
  pose proof (Nat.Div0.div_exact (length data) g) as [_ Hex]. specialize (Hex Hmod). nia.
Qed.

(** The text is written as far as it fits, whatever the group. *)
Lemma line_reaches l0 N row g ascii data :
  (0 < N ≤ length l0)%nat → data ≠ [] → g ∈ [1; 2; 4; 8] → zlen data mod g = 0 →
  reaches 1 l0 N (line_text row (Z.to_nat g) ascii data)
    (dbind
      (if (g =? 8) || (g =? 4) || (g =? 2) then
         dump_groups (Z.to_nat g) N (Z.to_nat (zlen data / g)) 0 data 0 l0
       else dbind (dump_bytes N data 0 l0) (λ lx l, Some (Run (lx - 1) l)))
      (λ lx l,
        if negb ascii then Some (Run lx l)
        else dbind (dump_pad N (row * 2 + row / Z.to_nat g + 1) (row * 2 + row / Z.to_nat g + 1) lx l)
               (dump_ascii N data))).
Proof.
  intros HN Hne Hg Hmod.
  assert (wrote l0 N [] l0) as Hw by (split_and!; [done..|apply prefix_nil]).
  assert (reaches 1 l0 N (hex_text (Z.to_nat g) data)
    (if (g =? 8) || (g =? 4) || (g =? 2) then
         dump_groups (Z.to_nat g) N (Z.to_nat (zlen data / g)) 0 data 0 l0
       else dbind (dump_bytes N data 0 l0) (λ lx l, Some (Run (lx - 1) l)))) as Hhex.
  { destruct (decide (g = 1)) as [->|Hg1]; [by apply dump_bytes_trimmed; [lia|done|lia|]|].
    assert ((g =? 8) || (g =? 4) || (g =? 2) = true) as -> by
      (repeat (apply elem_of_cons in Hg as [->|Hg]); [done..|by apply elem_of_nil in Hg]).
    pose proof (dump_groups_reaches l0 N ltac:(lia) (Z.to_nat g) (length data / Z.to_nat g) 0 data
      [] l0 ltac:(simpl; lia) Hw) as Hr.
    assert (0 < g) as Hpos by (repeat (apply elem_of_cons in Hg as [->|Hg]); [done..|by apply elem_of_nil in Hg]).
    cbn zeta in Hr. rewrite decide_True in Hr by done. cbn [app length] in Hr. unfold zlen.
    rewrite Z2Nat.inj_div, Nat2Z.id by lia. unfold hex_text.
    rewrite (list_fmap_ext (group_text (Z.to_nat g))
      (λ chunk, hex_digits (2 * Z.to_nat g) (get_unaligned chunk))); [exact Hr|].
    intros _ chunk _. apply group_text_big. lia. }
  rewrite line_text_eq by done. destruct ascii; cbn [negb].
  - apply reaches_bind; [done|exact Hhex|]. intros l Hl Hw1. rewrite (assoc (++)).
    apply reaches_bind; [done|apply dump_pad_reaches; [lia|done|done|lia]|].
    intros l' Hl' Hw2. apply dump_ascii_reaches; [lia|done..].
  - rewrite <-(app_nil_r (hex_text _ _)). apply reaches_bind; [done|exact Hhex|].
    intros l Hl Hw1. rewrite app_nil_r. by apply reaches_run.
Qed.

(** The labels at the end of the function. *)
Definition finish (overflow : Z) (r : option dump) : option (Z * bytes) :=
  match r with
  | None => None
  | Some (Run lx l) => l ← store l lx NUL; Some (Z.of_nat lx, l)
  | Some (Overflow2 lx l) => l ← store l lx NUL; Some (overflow, l)
  | Some (Overflow1 l) => Some (overflow, l)
  end.

Lemma finish_spec l0 N text r : (0 < N ≤ length l0)%nat → reaches 1 l0 N text r →
  ∃ l, finish (zlen text) r = Some (zlen text, l) ∧ wrote l0 N (take (N - 1) text ++ [NUL]) l.
Proof.
  intros HN [(l & -> & Hlt & Hw)|[(l & -> & Hlt & Hw)|(l & -> & Hlt & Hw)]]; cbn [finish].
  - destruct (wrote_store1 l0 N text NUL l) as (l' & -> & Hw'); [done|lia|lia|].
    exists l'. by rewrite take_ge by lia.
  - destruct (wrote_store1 l0 N (take (N - 1) text) NUL l) as (l' & Hs & Hw'); [done| |lia|].
    { rewrite length_take. lia. }
    rewrite length_take, Nat.min_l in Hs by lia. rewrite Hs. by exists l'.
  - by exists l.
Qed.

(** What a call leaves: the returned value is the length of the text, which is in
    the buffer as far as it fits, with a NUL after it. *)
Lemma hex_dump_spec buf len rowsize groupsize linebuf N ascii :
  0 ≤ len ≤ zlen buf → - 2 ^ 31 ≤ groupsize < 2 ^ 31 →
  (N ≤ length linebuf)%nat → 0 < len ∨ (0 < N)%nat →
  let row := dump_rowsize rowsize in
  let len' := Z.min len row in
  let text := line_text (Z.to_nat row) (Z.to_nat (dump_groupsize groupsize len')) ascii
    (take (Z.to_nat len') buf) in
  ∃ l, hex_dump_to_buffer buf len rowsize groupsize linebuf N ascii = Some (zlen text, l) ∧
    length l = length linebuf ∧ drop N l = drop N linebuf ∧
    ((0 < N)%nat → (take (N - 1) text ++ [NUL]) `prefix_of` l).
Proof.
  intros Hlen Hg HN Hpos row len' text. unfold hex_dump_to_buffer. fold row.
  assert (row = 16 ∨ row = 32) as Hrow.
  { unfold row, dump_rowsize. repeat case_match; bool_to_prop; naive_solver lia. }
  assert ((if row <? len then row else len) = len') as ->.
  { unfold len'. destruct (Z.ltb_spec row len); lia. }
  destruct (dump_groupsize_cases groupsize len') as [Hgs Hmod]; [lia|done|].
  set (g := dump_groupsize groupsize len') in *. set (data := take (Z.to_nat len') buf) in *.
  assert (zlen data = len') as Hdata by (unfold data, zlen in *; rewrite length_take; lia).
  assert (0 < g) as Hgpos by (repeat (apply elem_of_cons in Hgs as [->|Hgs]); [done..|by apply elem_of_nil in Hgs]).
  rewrite decide_False by lia.
  assert (zlen data = 0 → (0 < N)%nat) as HN0 by (rewrite Hdata; unfold len'; lia).
  assert (zlen data ≤ row) as Hle by (rewrite Hdata; unfold len'; lia).
  clearbody len' data. subst len'. clear Hlen Hpos. destruct (decide (data = [])) as [->|Hd].
  { rewrite decide_False by (specialize (HN0 eq_refl); lia).
    destruct (wrote_store1 linebuf N [] NUL linebuf) as (l & Hs & Hl & Hd & Hp);
      [split_and!; [done..|apply prefix_nil]|exact (HN0 eq_refl)|done|].
    change (zlen (@nil Z) =? 0) with true.
    cbn [length] in Hs. cbv iota. rewrite Hs. exists l. split_and!; [done..|]. intros _. unfold text. cbn [line_text].
    by rewrite take_nil. }
  assert ((if ascii then row * 2 + row / g + 1 + zlen data
    else (g * 2 + 1) * (zlen data / g) - 1) = zlen text) as Htext.
  { unfold text. unfold zlen at 3. rewrite line_text_length; [|lia|done| |].
    - destruct ascii.
      + rewrite !Nat2Z.inj_add, Nat2Z.inj_mul, Nat2Z.inj_div, !Z2Nat.id by lia. unfold zlen. lia.
      + unfold zlen in *. pose proof (Z.div_exact (Z.of_nat (length data)) g ltac:(lia)) as [_ Hq].
        specialize (Hq Hmod). destruct data; [done|]. cbn [length] in Hq |- *.
        rewrite Nat2Z.inj_sub, Nat2Z.inj_mul, Nat2Z.inj_div, Nat2Z.inj_add, Nat2Z.inj_mul, Z2Nat.id;
          [lia|lia|]. apply Nat2Z.inj_le.
        rewrite Nat2Z.inj_mul, Nat2Z.inj_div, Nat2Z.inj_add, Nat2Z.inj_mul, Z2Nat.id by lia. nia.
    - apply Nat2Z.inj. rewrite Nat2Z.inj_mod, Z2Nat.id by lia. exact Hmod.
    - unfold zlen in Hle. lia. }
  rewrite Htext. destruct (decide (N = 0)%nat) as [->|HN1].
  { exists linebuf. split_and!; [done..|lia]. }
  assert (zlen data ≠ 0) as Hz by (by destruct data).
  rewrite (proj2 (Z.eqb_neq (zlen data) 0)) by done.
  destruct (finish_spec linebuf N text _ ltac:(lia)
    (line_reaches linebuf N (Z.to_nat row) g ascii data ltac:(lia) Hd Hgs Hmod))
    as (l & Hf & Hl & Hdr & Hp).
  exists l. split_and!; [|done..]. rewrite <-Hf. unfold finish.
  pose proof (Z.div_pos row g ltac:(lia) Hgpos).
  assert (Z.to_nat (row * 2 + row / g + 1) =
    (Z.to_nat row * 2 + Z.to_nat row / Z.to_nat g + 1)%nat) as ->; [|done].
  rewrite !Z2Nat.inj_add, Z2Nat.inj_mul, Z2Nat.inj_div by lia. done.
Qed.

(** ** Bytes and their digits *)

Lemma hex_to_bin_asc k c : hex_asc !! k = Some c → hex_to_bin c = Z.of_nat k ∧ (k < 16)%nat.
Proof.
  intros Hk. pose proof (lookup_lt_Some _ _ _ Hk) as Hlt. change (length hex_asc) with 16%nat in Hlt.
  split; [|done]. unfold hex_to_bin. do 16 (destruct k as [|k];
    [injection Hk as <-; cbn; rewrite ?tolower_id by lia; done|]). lia.
Qed.

Definition byte_digits (b : Z) : bytes := [hex_asc_hi b; hex_asc_lo b].

Lemma byte_digits_back b : is_byte b →
  hex_to_bin (hex_asc_hi b) = b / 16 ∧ hex_to_bin (hex_asc_lo b) = b mod 16 ∧
  w8 (Z.lor (Z.shiftl (b / 16) 4) (b mod 16)) = b.
Proof.
  intros Hb. pose proof (hex_asc_hi_spec b Hb) as Hhi. pose proof (hex_asc_lo_spec b Hb) as Hlo.
  unfold is_byte in Hb. pose proof (Z.div_pos b 16) as H1. pose proof (Z.mod_pos_bound b 16) as H2.
  apply hex_to_bin_asc in Hhi as [-> _], Hlo as [-> _]. rewrite !Z2Nat.id by lia.
  split_and!; [done..|]. apply Z.eqb_eq. clear H1 H2. revert b Hb.
  apply (forall_bytes (λ b, w8 (Z.lor (Z.shiftl (b / 16) 4) (b mod 16)) =? b)). vm_refl.
Qed.

(** A list with a part replaced. *)
Lemma splice {A} (l t : list A) i n k : (i + length t ≤ length l)%nat → n = (i + length t)%nat →
  take n (take i l ++ t ++ drop n l) = take i l ++ t ∧
  drop (n + k) (take i l ++ t ++ drop n l) = drop (n + k) l.
Proof.
  intros Hl ->. rewrite (assoc (++)). assert (length (take i l ++ t) = i + length t)%nat as E.
  { rewrite length_app, length_take. lia. }
  rewrite take_app_length' by done. split; [done|].
  rewrite drop_app_ge, drop_drop by lia. f_equal. lia.
Qed.

Lemma bin2hex_spec data : ∀ dst i, (i + 2 * length data ≤ length dst)%nat →
  bin2hex dst i data (length data) =
  Some (take i dst ++ (data ≫= byte_digits) ++ drop (i + 2 * length data) dst,
        (i + 2 * length data)%nat).
Proof.
  induction data as [|b data IH]; intros dst i Hd; cbn [length bin2hex].
  { rewrite Nat.mul_0_r, Nat.add_0_r. cbn. by rewrite take_drop. }
  cbn [length] in Hd. pose proof (store_all_spec (byte_digits b) dst i ltac:(cbn; lia)) as Hs.
  unfold hex_byte_pack. cbn [store_all byte_digits] in Hs. cbn [length] in Hs.
  destruct (store dst i _) as [d1|]; [|done]. cbn [mbind option_bind] in *.
  destruct (store d1 (S i) _) as [d2|]; [|done]. cbn [mbind option_bind] in *. simplify_eq.
  rewrite IH.
  - destruct (splice dst (byte_digits b) i (S (S i)) (2 * length data)) as [Ht Hdr];
      [cbn; lia|cbn; lia|]. rewrite Nat.add_comm in Hdr. cbn [byte_digits] in *.
    assert (i + length (byte_digits b) = S (S i))%nat as -> by (cbn; lia). rewrite Ht.
    replace (S (S i) + 2 * length data)%nat with (2 * length data + S (S i))%nat by lia. rewrite Hdr.
    replace (i + 2 * S (length data))%nat with (2 * length data + S (S i))%nat by lia.
    by rewrite <-(assoc (++)).
  - rewrite !length_app, length_take, length_drop. simpl. lia.
Qed.

Lemma hex2bin_spec data rest : ∀ out i, Forall is_byte data → (i + length data ≤ length out)%nat →
  hex2bin out i ((data ≫= byte_digits) ++ rest) (length data) =
  Some (0, take i out ++ data ++ drop (i + length data) out).
Proof.
  induction data as [|b data IH]; intros out i Hb Ho; cbn [length hex2bin].
  { rewrite Nat.add_0_r. cbn. by rewrite take_drop. }
  apply Forall_cons in Hb as [Hb Hbs]. cbn [length] in Ho. cbn [byte_digits mbind list_bind app].
  destruct (byte_digits_back b Hb) as (-> & -> & E). unfold is_byte in Hb.
  pose proof (Z.div_pos b 16). pose proof (Z.mod_pos_bound b 16).
  rewrite !(proj2 (Z.ltb_ge _ 0)) by lia. cbn [orb]. rewrite E.
  pose proof (store_all_spec [b] out i ltac:(simpl; lia)) as Hs. cbn [store_all] in Hs.
  destruct (store out i b) as [d|]; [|done]. cbn [mbind option_bind] in *. simplify_eq.
  cbn [length app]. rewrite IH; [|done|].
  - destruct (splice out [b] i (S i) (length data)) as [Ht Hdr]; [simpl; lia|simpl; lia|].
    cbn [app] in *. assert (i + 1 = S i)%nat as -> by lia. rewrite Ht, Hdr.
    rewrite Nat.add_succ_r. by rewrite <-(assoc (++)).
  - rewrite length_app, length_take. simpl. rewrite length_drop. lia.
Qed.

(** [bin2hex] writes two digits per byte and nothing after them, and [hex2bin]
    of these digits gives the bytes back. *)
Theorem hex_roundtrip data dst out :
  Forall is_byte data → (2 * length data ≤ length dst)%nat → (length data ≤ length out)%nat →
  ∃ dst', bin2hex dst 0 data (length data) = Some (dst', (2 * length data)%nat) ∧
    drop (2 * length data) dst' = drop (2 * length data) dst ∧
    hex2bin out 0 dst' (length data) = Some (0, data ++ drop (length data) out).
Proof.
  intros Hb Hd Ho. rewrite bin2hex_spec by lia. rewrite take_0, Nat.add_0_l, app_nil_l.
  eexists. split; [done|]. split; [|by rewrite hex2bin_spec by (done || lia)].
  apply drop_app_length'. clear. induction data as [|b data IH]; [done|]. cbn. rewrite <-IH. lia.
Qed.

(** [hex_dump_to_buffer] returns the length of the line, leaves as much of it
    as fits in [linebuflen] bytes with a NUL after it, and never writes past
    [linebuflen], for every row, group and buffer size. *)
Theorem hex_dump_to_buffer_bounded buf len rowsize groupsize linebuf N ascii :
  0 ≤ len ≤ zlen buf → - 2 ^ 31 ≤ groupsize < 2 ^ 31 →
  (N ≤ length linebuf)%nat → 0 < len ∨ (0 < N)%nat →
  let row := dump_rowsize rowsize in
  let len' := Z.min len row in
  let text := line_text (Z.to_nat row) (Z.to_nat (dump_groupsize groupsize len')) ascii
    (take (Z.to_nat len') buf) in
  ∃ l, hex_dump_to_buffer buf len rowsize groupsize linebuf N ascii = Some (zlen text, l) ∧
    length l = length linebuf ∧ drop N l = drop N linebuf ∧
    ((0 < N)%nat → (take (N - 1) text ++ [NUL]) `prefix_of` l).
Proof. apply hex_dump_spec. Qed.

(** The value for no data and no buffer is not the length of the empty line. *)
Example hex_dump_nothing :
  hex_dump_to_buffer [] 0 16 1 [] 0 false = Some (-1, []) ∧
  hex_dump_to_buffer [] 0 16 1 [] 0 true = Some (49, []).
Proof.
  unfold hex_dump_to_buffer, dump_groupsize. rewrite !Z.mod_0_l by (by repeat case_match).
  assert (is_power_of_2 (w64 1) = true) as -> by (apply is_power_of_2_spec; [done|by exists 0]). done.
Qed.

(** ** The rows of a block *)

(** The lines expected for the data that is left, from offset [i] on. *)
Fixpoint block_lines (fuel : nat) (prefix_type : dump_prefix) (row : nat) (groupsize : Z)
    (ascii : bool) (i : nat) (data : bytes) : list hex_line :=
  match fuel with
  | O => []
  | S fuel =>
      match data with
      | [] => []
      | _ =>
          let chunk := take row data in
          print_line prefix_type i
            (line_text row (Z.to_nat (dump_groupsize groupsize (zlen chunk))) ascii chunk) ::
          block_lines fuel prefix_type row groupsize ascii (i + row) (drop row data)
      end
  end.

Lemma digit_char_nonzero d : 0 ≤ d < 16 → digit_char d ≠ NUL.
Proof. intros Hd. pose proof (digit_char_plain d Hd). unfold NUL. lia. Qed.

Lemma hex_digits_nonzero n v : NUL ∉ hex_digits n v.
Proof.
  revert v. induction n as [|n IH]; intros v; cbn [hex_digits]; [set_solver|].
  intros [?|Hin%list_elem_of_singleton]%elem_of_app; [by eapply IH|].
  by eapply (digit_char_nonzero (v mod 16)); [apply Z.mod_pos_bound|].
Qed.

Lemma hex_asc_nonzero k c : hex_asc !! k = Some c → c ≠ NUL.
Proof. intros Hk%list_elem_of_lookup_2 ->. revert Hk. vm_decide. Qed.

Lemma group_text_nonzero g chunk : Forall is_byte chunk → NUL ∉ group_text g chunk.
Proof.
  intros Hb. destruct (decide (g = 1%nat)) as [->|]; [|rewrite group_text_big by done; apply hex_digits_nonzero].
  unfold group_text. destruct chunk as [|b [|]]; [apply hex_digits_nonzero| |apply hex_digits_nonzero].
  apply Forall_cons in Hb as [Hb _].
  pose proof (hex_asc_nonzero _ _ (hex_asc_hi_spec b Hb)).
  pose proof (hex_asc_nonzero _ _ (hex_asc_lo_spec b Hb)). set_solver.
Qed.

Lemma join_space_nonzero l : Forall (λ w, NUL ∉ w) l → NUL ∉ join_space l.
Proof.
  induction 1 as [|w l Hw Hl IH]; [set_solver|].
  destruct (decide (l = [])) as [->|]; [done|]. rewrite join_space_cons by done.
  intros [?|[?|?]%elem_of_cons]%elem_of_app; done.
Qed.

Lemma chunks_bytes g n data : Forall is_byte data → Forall (Forall is_byte) (chunks g n data).
Proof.
  revert data. induction n as [|n IH]; intros data Hb; cbn; constructor.
  - by apply Forall_take.
  - by apply IH, Forall_drop.
Qed.

Lemma ascii_char_nonzero ch : ascii_char ch ≠ NUL.
Proof.
  unfold ascii_char. destruct (isascii ch && isprint ch) eqn:E; [|done]. intros ->.
  bool_to_prop. by rewrite isprint_nul in *.
Qed.

Lemma line_text_nonzero row g ascii data : Forall is_byte data → NUL ∉ line_text row g ascii data.
Proof.
  intros Hb. assert (NUL ∉ hex_text g data) as Hh.
  { apply join_space_nonzero, Forall_fmap. eapply Forall_impl; [by apply chunks_bytes|].
    intros chunk. apply group_text_nonzero. }
  destruct (decide (data = [])) as [->|Hne]; [set_solver|]. rewrite line_text_eq by done.
  destruct ascii; [|done]. intros [?|[[? _]%elem_of_replicate|(c & Hc & _)%list_elem_of_fmap]%elem_of_app]%elem_of_app;
    [done|done|]. by eapply ascii_char_nonzero.
Qed.

Lemma strlen_app t k : NUL ∉ t → KString.strlen (t ++ NUL :: k) = Some (length t).
Proof.
  induction t as [|c t IH]; intros Ht; [done|]. cbn.
  apply not_elem_of_cons in Ht as [Hc Ht]. rewrite (proj2 (Z.eqb_neq c NUL)) by done.
  by rewrite IH.
Qed.

(** A line is never cut by the buffer of [print_hex_dump]. *)
Lemma line_text_fits row g ascii data : row = 16%nat ∨ row = 32%nat → (0 < g)%nat →
  (length data mod g = 0)%nat → (length data ≤ row)%nat →
  (length (line_text row g ascii data) < LINEBUF)%nat.
Proof.
  intros Hrow Hg Hmod Hl. destruct (decide (data = [])) as [->|Hne]; [unfold LINEBUF; simpl; lia|].
  rewrite line_text_length by done. pose proof (Nat.Div0.div_exact (length data) g) as [_ Hq].
  specialize (Hq Hmod). pose proof (Nat.Div0.mul_div_le row g). unfold LINEBUF. destruct ascii; nia.
Qed.

(** One row: the string in the buffer is the whole line. *)
Lemma print_row row groupsize ascii data linebuf : row = 16%nat ∨ row = 32%nat →
  - 2 ^ 31 ≤ groupsize < 2 ^ 31 → Forall is_byte data → (LINEBUF ≤ length linebuf)%nat →
  let chunk := take row data in
  let text := line_text row (Z.to_nat (dump_groupsize groupsize (zlen chunk))) ascii chunk in
  ∃ r l, hex_dump_to_buffer data (zlen chunk) (Z.of_nat row) groupsize linebuf LINEBUF ascii =
    Some (r, l) ∧ KString.strlen l = Some (length text) ∧ take (length text) l = text ∧
    length l = length linebuf.
Proof.
  intros Hrow Hg Hb Hl chunk text. pose proof (zlen_nonneg chunk) as Hc0.
  assert (length chunk = Nat.min row (length data)) as Hcl by apply length_take.
  destruct (hex_dump_spec data (zlen chunk) (Z.of_nat row) groupsize linebuf LINEBUF ascii)
    as (l & Hd & Hll & _ & Hp); [unfold zlen; lia|done|done|unfold LINEBUF; lia|].
  assert (dump_rowsize (Z.of_nat row) = Z.of_nat row) as E by (by destruct Hrow as [->| ->]).
  rewrite E, Nat2Z.id, Z.min_l in Hp by (unfold zlen; lia).
  assert (take (Z.to_nat (zlen chunk)) data = chunk) as Et.
  { unfold zlen. rewrite Nat2Z.id, Hcl. unfold chunk. by rewrite <-take_take, firstn_all. }
  rewrite Et in Hp. fold text in Hp.
  destruct (dump_groupsize_cases groupsize (zlen chunk)) as [Hgs Hmod]; [lia|done|].
  assert (0 < dump_groupsize groupsize (zlen chunk)) as Hgpos.
  { repeat (apply elem_of_cons in Hgs as [->|Hgs]); [done..|by apply elem_of_nil in Hgs]. }
  assert (length text < LINEBUF)%nat as Hfit.
  { apply line_text_fits; [done|lia| |lia]. apply Nat2Z.inj. rewrite Nat2Z.inj_mod, Z2Nat.id by lia.
    exact Hmod. }
  destruct Hp as [k ->]; [unfold LINEBUF; lia|].
  rewrite (take_ge text) in Hd, Hll by lia. eexists _, _. split; [exact Hd|].
  rewrite <-(assoc (++)). cbn [app].
  split_and!; [|by rewrite take_app_length|by rewrite <-Hll, <-(assoc (++))].
  apply strlen_app, line_text_nonzero. by apply Forall_take.
Qed.

Lemma print_rows_spec pt row groupsize ascii : row = 16%nat ∨ row = 32%nat →
  - 2 ^ 31 ≤ groupsize < 2 ^ 31 →
  ∀ fuel buf i linebuf, (length buf - i ≤ fuel)%nat → Forall is_byte buf →
  (LINEBUF ≤ length linebuf)%nat →
  print_rows fuel pt (Z.of_nat row) groupsize buf (length buf) i
    (Z.of_nat (length buf) - Z.of_nat i) linebuf ascii =
  Some (block_lines fuel pt row groupsize ascii i (drop i buf)).
Proof.
  intros Hrow Hg. induction fuel as [|fuel IH]; intros buf i linebuf Hfuel Hb Hl; [done|].
  cbn [print_rows block_lines]. destruct (Nat.ltb_spec i (length buf)) as [Hi|].
  2: { by rewrite drop_ge by done. }
  assert (drop i buf ≠ []) as Hne by (intros E%(f_equal length); rewrite length_drop in E; simpl in E; lia).
  destruct (print_row row groupsize ascii (drop i buf) linebuf) as (r & l & Hd & Hs & Ht & Hll);
    [done|done|by apply Forall_drop|done|].
  assert (Z.min (Z.of_nat (length buf) - Z.of_nat i) (Z.of_nat row) = zlen (take row (drop i buf))) as ->.
  { unfold zlen. rewrite length_take, length_drop. lia. }
  rewrite Hd. cbn [mbind option_bind]. rewrite Hs. cbn [mbind option_bind].
  rewrite Nat2Z.id, Ht.
  replace (Z.of_nat (length buf) - Z.of_nat i - Z.of_nat row) with
    (Z.of_nat (length buf) - Z.of_nat (i + row)) by lia.
  rewrite IH by (done || lia). cbn [mbind option_bind]. rewrite drop_drop.
  by destruct (drop i buf).
Qed.

(** [print_hex_dump] prints the data in rows of 16 or 32 bytes, each line
    whole: its local buffer is large enough for every group size and for the
    characters. *)
Theorem print_hex_dump_lines pt rowsize groupsize buf linebuf ascii :
  - 2 ^ 31 ≤ groupsize < 2 ^ 31 → Forall is_byte buf → length linebuf = LINEBUF →
  print_hex_dump pt rowsize groupsize buf (length buf) linebuf ascii =
  Some (block_lines (length buf) pt (Z.to_nat (dump_rowsize rowsize)) groupsize ascii 0 buf).
Proof.
  intros Hg Hb Hl. unfold print_hex_dump. fold (dump_rowsize rowsize).
  assert (∃ row, dump_rowsize rowsize = Z.of_nat row ∧ (row = 16%nat ∨ row = 32%nat)) as (row & -> & Hrow).
  { unfold dump_rowsize. destruct (Z.eqb_spec rowsize 16), (Z.eqb_spec rowsize 32);
      [exists 16%nat|exists 16%nat|exists 32%nat|exists 16%nat]; cbn; auto. }
  rewrite Nat2Z.id. rewrite <-(Z.sub_0_r (Z.of_nat (length buf))).
  change 0 with (Z.of_nat 0). rewrite print_rows_spec by (done || lia). done.
Qed.

End hex.

(** The helpers as the headers have them, on a little-endian machine. *)
Definition pow2b (n : Z) : bool := (0 <? n) && (n =? 2 ^ Z.log2 n).

Lemma hex_asc_nth k : (k < 16)%nat → hex_asc !! k = Some (nth k hex_asc 0).
Proof.
  intros Hk. destruct (nth_lookup_or_length hex_asc k 0) as [|Hl]; [done|].
  change (length hex_asc) with 16%nat in Hl. lia.
Qed.

Lemma pow2b_spec n : 0 ≤ n → pow2b n = true ↔ ∃ k, 0 ≤ k ∧ n = 2 ^ k.
Proof.
  intros Hn. unfold pow2b. rewrite andb_true_iff, Z.ltb_lt, Z.eqb_eq. split.
  - intros [Hpos E]. exists (Z.log2 n). split; [apply Z.log2_nonneg|done].
  - intros (k & Hk & ->). rewrite Z.log2_pow2 by done. split; [|done]. by apply Z.pow_pos_nonneg.
Qed.

#[export] Program Instance hex_headers : HexHeaders := {
  hex_asc_hi b := nth (Z.to_nat (b / 16)) hex_asc 0;
  hex_asc_lo b := nth (Z.to_nat (b mod 16)) hex_asc 0;
  is_power_of_2 := pow2b;
  get_unaligned l := le_word l mod 256 ^ zlen l;
  isascii c := (c <? 128);
  isprint c := (32 <=? c) && (c <? 127);
  is_power_of_2_spec := pow2b_spec;
}.
Next Obligation.
  intros b Hb. unfold is_byte in Hb. apply hex_asc_nth.
  assert (b / 16 < 16) by (apply Z.div_lt_upper_bound; lia). lia.
Qed.
Next Obligation.
  intros b Hb. apply hex_asc_nth. pose proof (Z.mod_pos_bound b 16). lia.
Qed.
Next Obligation.
  intros l. apply Z.mod_pos_bound. apply Z.pow_pos_nonneg; [lia|apply zlen_nonneg].
Qed.
Next Obligation. done. Qed.

Lemma hex_roundtrip_witness :
  ∃ dst', bin2hex (replicate 6 0) 0 [0; 171; 255] 3 = Some (dst', 6%nat) ∧
    drop 6 dst' = drop 6 (replicate 6 0) ∧
    hex2bin (replicate 4 7) 0 dst' 3 = Some (0, [0; 171; 255] ++ [7]).
Proof.
  apply (hex_roundtrip [0; 171; 255] (replicate 6 0) (replicate 4 7)); [vm_decide|simpl; lia..].
Defined.

Lemma hex_dump_to_buffer_bounded_witness :
  ∃ l, hex_dump_to_buffer (B "@ABCDEFG") 8 16 4 (replicate 20 88) 12 true = Some (45, l) ∧
    length l = 20%nat ∧ drop 12 l = replicate 8 88 ∧
    ((0 < 12)%nat → (B "43424140 47" ++ [NUL]) `prefix_of` l).
Proof.
  destruct (hex_dump_to_buffer_bounded (B "@ABCDEFG") 8 16 4 (replicate 20 88) 12 true)
    as (l & Hd & Hl & Hdr & Hp); [vm_decide|vm_decide|vm_decide|by left|].
  exists l. split; [etransitivity; [exact Hd|]; apply (f_equal (λ n, Some (n, l))); vm_refl|].
  split; [exact Hl|]. split; [exact Hdr|]. intros Hlt. specialize (Hp Hlt).
  match type of Hp with ?t `prefix_of` _ => replace t with (B "43424140 47" ++ [NUL]) in Hp by vm_refl end.
  exact Hp.
Defined.

Lemma print_hex_dump_lines_witness :
  print_hex_dump DUMP_PREFIX_OFFSET 16 1 (B "0123456789abcdefg") 17 (replicate LINEBUF 0) true =
  Some [LineOffset 0 (B "30 31 32 33 34 35 36 37 38 39 61 62 63 64 65 66  0123456789abcdef");
        LineOffset 16 (B "67                                               g")].
Proof.
  etransitivity; [apply (print_hex_dump_lines DUMP_PREFIX_OFFSET 16 1 (B "0123456789abcdefg")
    (replicate LINEBUF 0) true); [vm_decide|vm_decide|by rewrite length_replicate]|vm_refl].
Defined.

End KHex.
