(* ===== verification/KMatch.v ===== *)
(** * Shell patterns, [lib/glob.c] and [match_wildcard] of [lib/parser.c]

    Both routines match a pattern with [*] by going back to the last star only.
    [gmatch] is the reference: a pattern is a list of tokens and a star stands for
    any string.  The first section proves, for tokens, what makes the single level
    of backtracking right; the routines are then related to it.

    Strings are lists of bytes with the NUL; a read outside is [OutOfBounds].  The
    loops run on fuel; the theorems show that the fuel given is enough. *)
From stdpp Require Import base numbers sets strings list.
From S2P Require Import Prelude.

Inductive matched := Ret (b : bool) | OutOfBounds | OutOfFuel.

#[export] Instance matched_eq_dec : EqDecision matched.
Proof. solve_decision. Defined.

(** ** The reference matcher *)

Inductive token := Star | One (p : Z → bool).

Fixpoint any_suffix (f : bytes → bool) (s : bytes) : bool :=
  f s || match s with [] => false | _ :: s => any_suffix f s end.

Fixpoint gmatch (ts : list token) (s : bytes) : bool :=
  match ts with
  | [] => match s with [] => true | _ => false end
  | Star :: ts => any_suffix (gmatch ts) s
  | One p :: ts =>
      match s with
      | [] => false
      | c :: s => p c && gmatch ts s
      end
  end.

(** A later start after the last star. *)
Definition later (bt : list token) (bs : bytes) : bool :=
  match bs with [] => false | _ :: bs => any_suffix (gmatch bt) bs end.

Lemma any_suffix_later ts s : any_suffix (gmatch ts) s = gmatch ts s || later ts s.
Proof. by destruct s. Qed.

Lemma any_suffix_spec f s : any_suffix f s = true ↔ ∃ t, t `suffix_of` s ∧ f t = true.
Proof.
  induction s as [|c s IH]; cbn [any_suffix].
  - rewrite orb_false_r. split; [intros Hf; exists []; by split|].
    intros (t & Ht & Hf). by apply suffix_nil_inv in Ht as ->.
  - rewrite orb_true_iff, IH. split.
    + intros [Hf|(t & Ht & Hf)]; [by exists (c :: s)|]. exists t. split; [by apply suffix_cons_r|done].
    + intros (t & [[|k0 k] Hk] & Hf); simplify_eq/=; [by left|]. right. exists t.
      split; [by exists k|done].
Qed.

Definition is_one (t : token) : Prop := match t with Star => False | One _ => True end.

(** What is matched so far after the last star: the tokens [ones] against as many
    characters. *)
Lemma gmatch_ones ones ts s : Forall is_one ones → gmatch (ones ++ ts) s = true →
  ∃ cs t, s = cs ++ t ∧ length cs = length ones ∧ gmatch ts t = true.
Proof.
  intros Ho. revert s. induction Ho as [|[|p] ones Hp _ IH]; intros s Hs; [by exists [], s|done|].
  cbn [app gmatch] in Hs. destruct s as [|c s]; [done|].
  apply andb_true_iff in Hs as [_ (cs & t & -> & Hl & Ht)%IH]. exists (c :: cs), t. simpl. auto.
Qed.

Lemma later_spec bt bs : later bt bs = true →
  ∃ t, t `suffix_of` bs ∧ (length t < length bs)%nat ∧ gmatch bt t = true.
Proof.
  destruct bs as [|b bs]; [done|]. intros (t & Ht & Hm)%any_suffix_spec.
  exists t. pose proof (suffix_length _ _ Ht). split_and!; [by apply suffix_cons_r|simpl; lia|done].
Qed.

Lemma later_rest ones ts cs s : Forall is_one ones → length ones = length cs →
  later (ones ++ ts) (cs ++ s) = true →
  ∃ t, t `suffix_of` s ∧ (length t < length s)%nat ∧ gmatch ts t = true.
Proof.
  intros Ho Hl (t & Ht & Hlt & (ds & u & -> & Hds & Hu)%gmatch_ones)%later_spec; [|done].
  rewrite !length_app in Hlt. exists u. split_and!; [|lia|done].
  destruct Ht as [k Hk]. exists (drop (length cs) (k ++ ds)).
  rewrite <-drop_app_le by (rewrite length_app; lia).
  by rewrite <-(assoc (++)), <-Hk, drop_app_length.
Qed.

(** The state of a matcher: the tokens and the string that are left, and where to
    go back to. *)
Inductive progress (want : bool) (ts : list token) (s : bytes) :
    option (list token * bytes) → Prop :=
  | progress_none : want = gmatch ts s → progress want ts s None
  | progress_some ones cs :
      Forall is_one ones → length ones = length cs →
      want = gmatch ts s || later (ones ++ ts) (cs ++ s) →
      progress want ts s (Some (ones ++ ts, cs ++ s)).

Lemma progress_start ts s : progress (gmatch ts s) ts s None.
Proof. by constructor. Qed.

(** A token matches a character. *)
Lemma progress_one want p ts c s back : p c = true →
  progress want (One p :: ts) (c :: s) back → progress want ts s back.
Proof.
  intros Hp [Hw|ones cs Ho Hl Hw]; cbn [gmatch] in Hw; rewrite Hp, andb_true_l in Hw.
  - by constructor.
  - rewrite cons_middle, (cons_middle c), !(assoc (++)) in *. constructor; [|by rewrite !length_app, Hl|done].
    apply Forall_app. by repeat constructor.
Qed.

(** A star: the earlier star is forgotten. *)
Lemma progress_star want ts s back :
  progress want (Star :: ts) s back → progress want ts s (Some (ts, s)).
Proof.
  intros Hpr. apply (progress_some _ _ _ [] []); [constructor|done|]. cbn [app].
  rewrite <-any_suffix_later. destruct Hpr as [Hw|ones cs Ho Hl Hw]; [done|].
  rewrite Hw. cbn [gmatch]. destruct (later _ _) eqn:Hlat; [|by rewrite orb_false_r].
  apply later_rest in Hlat as (t & Ht & _ & Hm); [|done..]. cbn [gmatch] in Hm.
  apply any_suffix_spec in Hm as (u & Hu & Hm). rewrite orb_true_r. symmetry.
  apply any_suffix_spec. exists u. split; [by etrans|done].
Qed.

(** A mismatch: one character later after the last star. *)
Lemma progress_back want ts c s bt bs : gmatch ts (c :: s) = false →
  progress want ts (c :: s) (Some (bt, bs)) →
  ∃ b bs', bs = b :: bs' ∧ progress want bt bs' (Some (bt, bs')).
Proof.
  intros Hf Hpr. inversion Hpr as [|ones cs Ho Hl Hw]; subst. rewrite Hf, orb_false_l in *.
  destruct (cs ++ c :: s) as [|b bs] eqn:E; [by destruct cs|]. exists b, bs. split; [done|].
  apply (progress_some _ _ _ [] []); [constructor|done|]. cbn [app later].
  by rewrite <-any_suffix_later.
Qed.

Lemma progress_last_star want s back : progress want [Star] s back → want = true.
Proof.
  assert (gmatch [Star] s = true) as Hs.
  { apply any_suffix_spec. exists []. split; [apply suffix_nil|done]. }
  by intros [->|ones cs _ _ ->]; rewrite Hs.
Qed.

(** No star, or no character left: the state decides. *)
Lemma progress_none_inv want ts s : progress want ts s None → want = gmatch ts s.
Proof. by inversion 1. Qed.

Lemma progress_end want ts back : progress want ts [] back → want = gmatch ts [].
Proof.
  intros [|ones cs Ho Hl ->]; [done|]. destruct (later _ _) eqn:Hlat; [|apply orb_false_r].
  apply later_rest in Hlat as (t & _ & Hlt & _); [simpl in Hlt; lia|done..].
Qed.

(** ** [match_wildcard] *)

Module Wildcard.
Local Open Scope Z_scope.

Definition STAR : Z := 42.
Definition QUEST : Z := 63.

(** [back] is [Some (pattern, str)] when [star] is set. *)
Fixpoint wildcard_loop (fuel : nat) (s p : bytes) (back : option (bytes * bytes)) : matched :=
  match fuel with
  | O => OutOfFuel
  | S fuel =>
      match s, p with
      | c :: s', d :: p' =>
          if c =? NUL then
            if d =? STAR then
              match p' with [] => OutOfBounds | e :: _ => Ret (e =? NUL) end
            else Ret (d =? NUL)
          else if d =? QUEST then wildcard_loop fuel s' p' back
          else if d =? STAR then
            match p' with
            | [] => OutOfBounds
            | e :: _ => if e =? NUL then Ret true else wildcard_loop fuel s p' (Some (p', s))
            end
          else if c =? d then wildcard_loop fuel s' p' back
          else
            match back with
            | None => Ret false
            | Some (pattern, str) =>
                match str with
                | [] => OutOfBounds
                | _ :: str => wildcard_loop fuel str pattern (Some (pattern, str))
                end
            end
      | _, _ => OutOfBounds
      end
  end.

Definition match_wildcard (pattern str : bytes) : matched :=
  wildcard_loop (S (length pattern) * S (length str)) str pattern None.

(** The tokens of a pattern. *)
Definition wild_token (c : Z) : token :=
  if c =? QUEST then One (λ _, true) else if c =? STAR then Star else One (Z.eqb c).

Definition wild_tokens (pat : bytes) : list token := wild_token <$> pat.

Definition ends_in_two_stars (pat : bytes) : Prop := ∃ a, pat = a ++ [STAR; STAR].

#[export] Instance ends_in_two_stars_dec pat : Decision (ends_in_two_stars pat).
Proof.
  refine (cast_if (decide (pat = take (length pat - 2) pat ++ [STAR; STAR]))).
  - by eexists.
  - intros [a ->]. rewrite length_app in *. cbn [length] in *. rewrite Nat.add_sub in *.
    by rewrite take_app_length in *.
Defined.

(** At the end of the string only stars match. *)
Lemma wild_tokens_end pat : gmatch (wild_tokens pat) [] = true ↔ Forall (λ c, c = STAR) pat.
Proof.
  induction pat as [|c pat IH]; cbn [wild_tokens fmap list_fmap gmatch]; [by split; [constructor|]|].
  fold (wild_tokens pat). rewrite Forall_cons. unfold wild_token.
  destruct (Z.eqb_spec c QUEST) as [->|]; [|destruct (Z.eqb_spec c STAR) as [->|]];
    cbn [gmatch any_suffix]; [naive_solver|rewrite orb_false_r; naive_solver|naive_solver].
Qed.

Lemma stars_replicate pat : Forall (λ c, c = STAR) pat → pat = replicate (length pat) STAR.
Proof. induction 1 as [|c pat -> _ IH]; [done|]. simpl. by f_equal. Qed.

(** The end of the loop, where the code looks at two characters of the pattern. *)
Lemma wildcard_exit q fuel t k back : ¬ ends_in_two_stars q → is_cstr q →
  wildcard_loop (S fuel) (NUL :: t) (q ++ NUL :: k) back = Ret (gmatch (wild_tokens q) []).
Proof.
  intros Hq Hc. destruct (gmatch (wild_tokens q) []) eqn:Hm.
  - apply wild_tokens_end in Hm. destruct q as [|d q]; [done|].
    apply Forall_cons in Hm as [-> Hm]. destruct q as [|e q]; [done|].
    destruct Hq. apply Forall_cons in Hm as [-> Hm]. apply stars_replicate in Hm as ->.
    exists (replicate (length q) STAR). clear. generalize (length q). intros n.
    induction n as [|n IH]; [done|]. cbn [replicate app]. by rewrite <-IH.
  - destruct q as [|d q]; [done|]. cbn. apply Forall_cons in Hc as [[_ Hd] Hc].
    destruct (Z.eqb_spec d STAR) as [->|].
    + destruct q as [|e q]; [done|]. apply Forall_cons in Hc as [[_ He] _]. cbn.
      by rewrite (proj2 (Z.eqb_neq e NUL)).
    + by rewrite (proj2 (Z.eqb_neq d NUL)).
Qed.

(** The steps left: every step shortens the pattern, moves the start after the
    last star, or finds a new star further on. *)
Definition steps (P N : nat) (q : bytes) (back : option (bytes * bytes)) : nat :=
  (match back with None => S N | Some (_, bs) => length bs end) * S P + length q.

Lemma steps_cons P N d q back : steps P N (d :: q) back = S (steps P N q back).
Proof. unfold steps. cbn [length]. lia. Qed.

Definition nul (s : bytes) : bytes := s ++ [NUL].

(** Where to go back to, in a pattern of at most [P] and a string of at most [N]
    characters. *)
Definition back_ok (P N : nat) (t : bytes) (back : option (bytes * bytes)) : Prop :=
  match back with
  | None => True
  | Some (bq, bs) => ¬ ends_in_two_stars bq ∧ is_cstr bq ∧ is_cstr bs ∧
      (length bq ≤ P)%nat ∧ (length t ≤ length bs ≤ N)%nat
  end.

Lemma back_ok_shorter P N t u back : (length u ≤ length t)%nat →
  back_ok P N t back → back_ok P N u back.
Proof. destruct back as [[]|]; [|done]. cbn. naive_solver lia. Qed.

Lemma ends_in_two_stars_tail d q : ¬ ends_in_two_stars (d :: q) → ¬ ends_in_two_stars q.
Proof. intros Hq [a ->]. apply Hq. by exists (d :: a). Qed.

Lemma wildcard_loop_matches want P N : ∀ fuel q t back,
  ¬ ends_in_two_stars q → is_cstr q → is_cstr t → back_ok P N t back →
  (length q ≤ P)%nat → (length t ≤ N)%nat → (steps P N q back < fuel)%nat →
  progress want (wild_tokens q) t ((λ b, (wild_tokens b.1, b.2)) <$> back) →
  wildcard_loop fuel (nul t) (nul q) ((λ b, (nul b.1, nul b.2)) <$> back) = Ret want.
Proof.
  induction fuel as [|fuel IH]; intros q t back Hq Hcq Hct Hback HP HN Hfuel Hpr; [lia|].
  destruct t as [|c t].
  { rewrite (progress_end _ _ _ Hpr). by apply wildcard_exit. }
  pose proof Hct as [[_ Hc] Hct']%Forall_cons. cbn [nul app wildcard_loop].
  rewrite (proj2 (Z.eqb_neq c NUL)) by done.
  assert (gmatch (wild_tokens q) (c :: t) = false →
    match (λ b, (nul b.1, nul b.2)) <$> back with
    | None => Ret false
    | Some (pattern, []) => OutOfBounds
    | Some (pattern, _ :: str) => wildcard_loop fuel str pattern (Some (pattern, str))
    end = Ret want) as Hmis.
  { intros Hf. destruct back as [[bq bs]|]; cbn [fmap option_fmap option_map fst snd] in *.
    2: { by rewrite (progress_none_inv _ _ _ Hpr), Hf. }
    destruct (progress_back _ _ _ _ _ _ Hf Hpr) as (b & bs' & -> & Hpr').
    destruct Hback as (Hbq & Hcb & Hcs & HbP & HbN). apply Forall_cons in Hcs as [_ Hcs].
    cbn [length] in HbN. cbn [nul app]. apply (IH bq bs' (Some (bq, bs'))); try done; [|lia|].
    { cbn. split_and!; done || lia. }
    unfold steps in *. cbn [length] in Hfuel. nia. }
  destruct q as [|d q]; cbn [nul app].
  { change (NUL =? QUEST) with false. change (NUL =? STAR) with false.
    rewrite (proj2 (Z.eqb_neq c NUL)) by done. by apply Hmis. }
  pose proof Hcq as [[_ Hd] Hcq']%Forall_cons. apply ends_in_two_stars_tail in Hq as Hq'.
  cbn [length] in HP, HN.
  assert (back_ok P N t back) as Hback' by (eapply back_ok_shorter; [|done]; simpl; lia).
  cbn [wild_tokens fmap list_fmap] in Hpr, Hmis. unfold wild_token in Hpr, Hmis.
  destruct (Z.eqb_spec d QUEST) as [->|]; [|destruct (Z.eqb_spec d STAR) as [->|]].
  - apply progress_one in Hpr; [|done]. apply IH; try done; try lia. rewrite steps_cons in Hfuel. lia.
  - destruct q as [|e q].
    { by rewrite (progress_last_star _ _ _ Hpr). }
    pose proof Hcq' as [[_ He] _]%Forall_cons. cbn [app]. rewrite (proj2 (Z.eqb_neq e NUL)) by done.
    apply progress_star in Hpr. cbn [length] in *.
    apply (IH (e :: q) (c :: t) (Some (e :: q, c :: t))); try done; try (cbn [length]; lia).
    { cbn. split_and!; done || lia. }
    rewrite steps_cons in Hfuel. unfold steps in *. cbn [length] in *.
    destruct back as [[bq bs]|]; [|nia].
    destruct Hback as (_ & _ & _ & _ & Hbs & _). cbn [length] in Hbs. nia.
  - destruct (Z.eqb_spec c d) as [->|].
    + apply progress_one in Hpr; [|apply Z.eqb_refl]. apply IH; try done; try lia.
      rewrite steps_cons in Hfuel. lia.
    + apply Hmis. cbn. by rewrite (proj2 (Z.eqb_neq d c)) by done.
Qed.

(** [match_wildcard] always returns, reads nothing outside its strings, and
    says whether the string matches the pattern, in which [*] stands for any
    string and [?] for any character, provided the pattern does not end in two
    stars. *)
Theorem match_wildcard_matches pattern str :
  is_cstr pattern → is_cstr str → ¬ ends_in_two_stars pattern →
  match_wildcard (pattern ++ [NUL]) (str ++ [NUL]) = Ret (gmatch (wild_tokens pattern) str).
Proof.
  intros Hp Hs Htwo. unfold match_wildcard. rewrite !length_app.
  apply (wildcard_loop_matches _ (length pattern) (length str) _ pattern str None);
    [done..| |apply progress_start]. unfold steps. cbn [length]. lia.
Qed.

(** The string before two final stars does not match. *)
Theorem match_wildcard_two_stars :
  match_wildcard (B "a**" ++ [NUL]) (B "a" ++ [NUL]) = Ret false ∧
  gmatch (wild_tokens (B "a**")) (B "a") = true.
Proof. by split. Qed.

Lemma match_wildcard_matches_witness :
  match_wildcard (B "*a?b*cc" ++ [NUL]) (B "aabaxbccxcc" ++ [NUL]) =
  Ret (gmatch (wild_tokens (B "*a?b*cc")) (B "aabaxbccxcc")) ∧
  gmatch (wild_tokens (B "*a?b*cc")) (B "aabaxbccxcc") = true.
Proof.
  split; [apply (match_wildcard_matches (B "*a?b*cc") (B "aabaxbccxcc")); [vm_decide..|]|done].
  apply (bool_decide_unpack _). vm_compute. exact I.
Defined.

End Wildcard.

(** ** [glob_match] *)

Module Glob.
Local Open Scope Z_scope.
Import Wildcard.

Definition LBRACKET : Z := 91.
Definition RBRACKET : Z := 93.
Definition BANG : Z := 33.
Definition DASH : Z := 45.
Definition BACKSLASH : Z := 92.

(** The result of the loop over the spans of a class: the label [literal], or the
    value of [match] and the pattern after the class. *)
Inductive class_end := ClassLiteral | ClassEnd (m : bool) (rest : bytes) | ClassOutOfBounds.

Definition in_span (a b c : Z) : bool := (a <=? c) && (c <=? b).

(** [do { ... } while ((a = *class++) != ']');] *)
Fixpoint class_loop (a : Z) (class : bytes) (c : Z) (m : bool) {struct class} : class_end :=
  if a =? NUL then ClassLiteral
  else
    match class with
    | [] => ClassOutOfBounds
    | x :: class1 =>
        if x =? DASH then
          match class1 with
          | [] => ClassOutOfBounds
          | y :: class2 =>
              if negb (y =? RBRACKET) then
                if y =? NUL then ClassLiteral
                else
                  let m := m || in_span a y c in
                  match class2 with
                  | [] => ClassOutOfBounds
                  | a :: class3 =>
                      if a =? RBRACKET then ClassEnd m class3 else class_loop a class3 c m
                  end
              else class_loop x class1 c (m || in_span a a c)
          end
        else if x =? RBRACKET then ClassEnd (m || in_span a a c) class1
        else class_loop x class1 c (m || in_span a a c)
    end.

(** The character class at [pat], the byte after the bracket. *)
Definition char_class (pat : bytes) (c : Z) : bool * class_end :=
  match pat with
  | [] => (false, ClassOutOfBounds)
  | x :: pat' =>
      let inverted := x =? BANG in
      (inverted,
       if inverted then
         match pat' with
         | [] => ClassOutOfBounds
         | a :: class => class_loop a class c false
         end
       else class_loop x pat' c false)
  end.

Fixpoint glob_loop (fuel : nat) (pat str : bytes) (back : option (bytes * bytes)) : matched :=
  match fuel with
  | O => OutOfFuel
  | S fuel =>
      match str, pat with
      | c :: str', d :: pat' =>
          let backtrack :=
            match back with
            | None => Ret false
            | Some (back_pat, back_str) =>
                if c =? NUL then Ret false
                else
                  match back_str with
                  | [] => OutOfBounds
                  | _ :: back_str => glob_loop fuel back_pat back_str (Some (back_pat, back_str))
                  end
            end in
          let literal d pat' :=
            if c =? d then
              if d =? NUL then Ret true else glob_loop fuel pat' str' back
            else backtrack in
          if d =? QUEST then
            if c =? NUL then Ret false else glob_loop fuel pat' str' back
          else if d =? STAR then
            match pat' with
            | [] => OutOfBounds
            | e :: _ =>
                if e =? NUL then Ret true else glob_loop fuel pat' str (Some (pat', str))
            end
          else if d =? LBRACKET then
            match char_class pat' c with
            | (inverted, ClassEnd m rest) =>
                if eqb m inverted then backtrack else glob_loop fuel rest str' back
            | (_, ClassLiteral) => literal d pat'
            | (_, ClassOutOfBounds) => OutOfBounds
            end
          else if d =? BACKSLASH then
            match pat' with
            | [] => OutOfBounds
            | d :: pat' => literal d pat'
            end
          else literal d pat'
      | _, _ => OutOfBounds
      end
  end.

Definition glob_match (pat str : bytes) : matched :=
  glob_loop (S (length pat) * S (length str)) pat str None.

(** ** The tokens of a pattern

    A pattern is here the list of its characters without the NUL. *)

(** The spans of a class that starts with [a], and the pattern after it; [None]
    if the class is not closed. *)
Fixpoint class_spans (a : Z) (q : bytes) {struct q} : option (list (Z * Z) * bytes) :=
  match q with
  | [] => None
  | x :: q1 =>
      if x =? DASH then
        match q1 with
        | [] => None
        | y :: q2 =>
            if y =? RBRACKET then
              r ← class_spans x q1; let '(l, rest) := (r : list (Z * Z) * bytes) in
              Some ((a, a) :: l, rest)
            else
              match q2 with
              | [] => None
              | e :: q3 =>
                  if e =? RBRACKET then Some ([(a, y)], q3)
                  else
                    r ← class_spans e q3; let '(l, rest) := (r : list (Z * Z) * bytes) in
                    Some ((a, y) :: l, rest)
              end
        end
      else if x =? RBRACKET then Some ([(a, a)], q1)
      else
        r ← class_spans x q1; let '(l, rest) := (r : list (Z * Z) * bytes) in
        Some ((a, a) :: l, rest)
  end.

Definition class_of (q : bytes) : option (bool * list (Z * Z) * bytes) :=
  match q with
  | [] => None
  | x :: q' =>
      if x =? BANG then
        match q' with
        | [] => None
        | a :: q' => r ← class_spans a q'; let '(l, rest) := (r : list (Z * Z) * bytes) in
            Some (true, l, rest)
        end
      else r ← class_spans x q'; let '(l, rest) := (r : list (Z * Z) * bytes) in Some (false, l, rest)
  end.

Definition in_spans (l : list (Z * Z)) (c : Z) : bool := existsb (λ ab, in_span ab.1 ab.2 c) l.

(** The first token of a pattern and what follows it. *)
Definition head_token (q : bytes) : option (token * bytes) :=
  match q with
  | [] => None
  | d :: q' =>
      if d =? QUEST then Some (One (λ c, negb (c =? NUL)), q')
      else if d =? STAR then Some (Star, q')
      else if d =? LBRACKET then
        match class_of q' with
        | Some (inverted, l, rest) => Some (One (λ c, xorb inverted (in_spans l c)), rest)
        | None => Some (One (Z.eqb d), q')
        end
      else if d =? BACKSLASH then
        match q' with
        | [] => None
        | e :: q' => Some (One (Z.eqb e), q')
        end
      else Some (One (Z.eqb d), q')
  end.

Fixpoint tokens (fuel : nat) (q : bytes) : list token :=
  match fuel with
  | O => []
  | S fuel =>
      match head_token q with
      | None => []
      | Some (tk, rest) => tk :: tokens fuel rest
      end
  end.

(** A token takes at least one character. *)
Definition glob_tokens (q : bytes) : list token := tokens (length q) q.

(** No token accepts the NUL: the pattern has no inverted class. *)
Definition no_inverted (q : bytes) : bool :=
  forallb (λ tk, match tk with Star => true | One p => negb (p NUL) end) (glob_tokens q).

(** Induction on the spans, which take one or three characters. *)
Lemma class_spans_ind (P : Z → bytes → Prop) :
  (∀ a, P a []) →
  (∀ a, P a [DASH]) →
  (∀ a q, P a (DASH :: RBRACKET :: q)) →
  (∀ a y, y ≠ RBRACKET → P a [DASH; y]) →
  (∀ a y q, y ≠ RBRACKET → P a (DASH :: y :: RBRACKET :: q)) →
  (∀ a y e q, y ≠ RBRACKET → e ≠ RBRACKET → P e q → P a (DASH :: y :: e :: q)) →
  (∀ a q, P a (RBRACKET :: q)) →
  (∀ a x q, x ≠ DASH → x ≠ RBRACKET → P x q → P a (x :: q)) →
  ∀ a q, P a q.
Proof.
  intros H1 H2 H3 H4 H5 H6 H7 H8 a q. remember (length q) as n eqn:Hn. revert a q Hn.
  induction (Nat.lt_wf_0 n) as [n _ IH]; intros a q ->.
  destruct q as [|x q]; [done|]. destruct (decide (x = DASH)) as [->|].
  - destruct q as [|y q]; [done|]. destruct (decide (y = RBRACKET)) as [->|].
    + apply H3.
    + destruct q as [|e q]; [by apply H4|]. destruct (decide (e = RBRACKET)) as [->|]; [by apply H5|].
      apply H6; [done..|]. eapply IH; [|done]. simpl. lia.
  - destruct (decide (x = RBRACKET)) as [->|]; [done|]. apply H8; [done..|].
    eapply IH; [|done]. simpl. lia.
Qed.

Ltac class_step :=
  cbn [class_spans class_loop nul app];
  repeat match goal with
  | H : ?x ≠ ?y |- context [?x =? ?y] => rewrite (proj2 (Z.eqb_neq x y) H)
  | |- context [?x =? ?x] => rewrite (Z.eqb_refl x)
  | |- context [DASH =? RBRACKET] => change (DASH =? RBRACKET) with false
  | |- context [RBRACKET =? DASH] => change (RBRACKET =? DASH) with false
  | |- context [NUL =? DASH] => change (NUL =? DASH) with false
  | |- context [NUL =? RBRACKET] => change (NUL =? RBRACKET) with false
  end; cbn [negb mbind option_bind].

Lemma class_spans_shorter a q l rest : class_spans a q = Some (l, rest) →
  (length rest < length q)%nat ∧ rest `suffix_of` q.
Proof.
  revert l rest. pattern a, q. apply class_spans_ind; clear a q; intros; revert select (class_spans _ _ = _);
    class_step; intros; simplify_eq; try done.
  all: try (split; [simpl; lia|]; by repeat apply suffix_cons_r).
  all: destruct (class_spans _ _) as [[l' rest']|]; simplify_eq/=.
  all: revert select (∀ l rest, _ → _); intros Hind; destruct (Hind _ _ eq_refl) as [Hl Hs];
    split; [simpl in *; lia|]; by repeat apply suffix_cons_r.
Qed.

Lemma class_loop_spans a q c m : a ≠ NUL → is_cstr q →
  class_loop a (nul q) c m =
  match class_spans a q with
  | None => ClassLiteral
  | Some (l, rest) => ClassEnd (m || in_spans l c) (nul rest)
  end.
Proof.
  revert m. pattern a, q. apply class_spans_ind; clear a q; intros;
    unfold is_cstr in *;
    repeat match goal with H : Forall _ (_ :: _) |- _ => apply Forall_cons in H as [[_ ?] ?] end;
    class_step; try done.
  all: try (revert select (∀ m, _ → _ → _); intros Hind; cbn [nul app] in Hind; rewrite Hind by done).
  all: try (destruct (class_spans _ _) as [[l rest]|]; [|done]); cbn;
    rewrite ?orb_false_r, ?orb_assoc; done.
Qed.

Lemma char_class_of q c : is_cstr q →
  char_class (nul q) c =
  match class_of q with
  | Some (inverted, l, rest) => (inverted, ClassEnd (in_spans l c) (nul rest))
  | None => (from_option (Z.eqb BANG) false (q !! 0%nat), ClassLiteral)
  end.
Proof.
  intros Hq. destruct q as [|x q]; [done|]. apply Forall_cons in Hq as [[_ Hx] Hq].
  cbn [nul app char_class class_of from_option lookup list_lookup].
  rewrite (Z.eqb_sym BANG x). destruct (Z.eqb_spec x BANG) as [->|].
  - destruct q as [|a q]; [done|]. apply Forall_cons in Hq as [[_ Ha] Hq]. cbn [app].
    fold (nul q). rewrite class_loop_spans by done. by destruct (class_spans a q) as [[]|].
  - fold (nul q). rewrite class_loop_spans by done. by destruct (class_spans x q) as [[]|].
Qed.

Lemma class_of_shorter q inverted l rest : class_of q = Some (inverted, l, rest) →
  (length rest < length q)%nat ∧ rest `suffix_of` q.
Proof.
  destruct q as [|x q]; [done|]. cbn [class_of]. intros Hc.
  assert (∃ a q' l' rest', class_spans a q' = Some (l', rest') ∧ rest = rest' ∧ q' `suffix_of` x :: q ∧
    (length q' < S (length q))%nat) as (a & q' & l' & rest' & Hs & -> & Hq & Hl).
  { destruct (x =? BANG); [destruct q as [|a q]; [done|]|];
      destruct (class_spans _ _) as [[l' rest']|] eqn:E; simplify_eq/=;
      eexists _, _, _, _; (split_and!; [exact E|done| |simpl; lia]); by repeat apply suffix_cons_r. }
  apply class_spans_shorter in Hs as [? ?]. split; [simpl; lia|]. by etrans.
Qed.

Lemma head_token_shorter q tk rest : head_token q = Some (tk, rest) →
  (length rest < length q)%nat ∧ rest `suffix_of` q.
Proof.
  destruct q as [|d q]; [done|]. cbn [head_token]. intros Hh.
  repeat case_match; simplify_eq/=; try (split; [lia|]; by repeat apply suffix_cons_r).
  revert select (class_of _ = _). intros [? ?]%class_of_shorter. split; [lia|]. by apply suffix_cons_r.
Qed.

Lemma tokens_fuel f f' q : (length q ≤ f)%nat → (length q ≤ f')%nat → tokens f q = tokens f' q.
Proof.
  revert f' q. induction f as [|f IH]; intros f' q Hf Hf'.
  - destruct q; [|simpl in Hf; lia]. by destruct f'.
  - destruct f' as [|f']; [destruct q; [done|simpl in Hf'; lia]|]. cbn [tokens].
    destruct (head_token q) as [[tk rest]|] eqn:E; [|done].
    apply head_token_shorter in E as [Hl _]. f_equal. apply IH; lia.
Qed.

Lemma glob_tokens_eq q : glob_tokens q =
  match head_token q with
  | None => []
  | Some (tk, rest) => tk :: glob_tokens rest
  end.
Proof.
  unfold glob_tokens. destruct q as [|d q]; [done|]. cbn [length]. cbn [tokens].
  destruct (head_token (d :: q)) as [[tk rest]|] eqn:E; [|done].
  apply head_token_shorter in E as [Hl _]. f_equal. apply tokens_fuel; simpl in *; lia.
Qed.

(** What the code does at the label [backtrack]. *)
Definition backtrack (fuel : nat) (c : Z) (back : option (bytes * bytes)) : matched :=
  match back with
  | None => Ret false
  | Some (back_pat, back_str) =>
      if c =? NUL then Ret false
      else
        match back_str with
        | [] => OutOfBounds
        | _ :: back_str => glob_loop fuel back_pat back_str (Some (back_pat, back_str))
        end
  end.

Lemma backtrack_nul fuel back : backtrack fuel NUL back = Ret false.
Proof. by destruct back as [[]|]. Qed.

(** One iteration follows the first token. *)
Lemma glob_loop_token fuel q c str back : is_cstr q →
  glob_loop (S fuel) (nul q) (c :: str) back =
  match head_token q with
  | None => if c =? NUL then Ret true else backtrack fuel c back
  | Some (Star, []) => Ret true
  | Some (Star, rest) => glob_loop fuel (nul rest) (c :: str) (Some (nul rest, c :: str))
  | Some (One p, rest) =>
      if p c then glob_loop fuel (nul rest) str back else backtrack fuel c back
  end.
Proof.
  intros Hq. destruct q as [|d q]; [done|]. apply Forall_cons in Hq as [[_ Hd] Hq].
  cbn [nul app head_token]. cbn [glob_loop]. fold (nul q). fold (backtrack fuel c back).
  destruct (d =? QUEST) eqn:Hquest.
  { destruct (Z.eqb_spec c NUL) as [->|]; cbn [negb]; [by rewrite backtrack_nul|done]. }
  destruct (d =? STAR) eqn:Hstar.
  { destruct q as [|e q]; [done|]. apply Forall_cons in Hq as [[_ He] _]. cbn [nul app].
    by rewrite (proj2 (Z.eqb_neq e NUL)). }
  assert (∀ e q', e ≠ NUL → (if c =? e then if e =? NUL then Ret true else glob_loop fuel (nul q') str back
    else backtrack fuel c back) =
    if e =? c then glob_loop fuel (nul q') str back else backtrack fuel c back) as Hlit.
  { intros e q' He. rewrite (Z.eqb_sym e c). by rewrite (proj2 (Z.eqb_neq e NUL) He). }
  destruct (d =? LBRACKET) eqn:Hbr.
  { rewrite char_class_of by done. destruct (class_of q) as [[[inverted l] rest]|]; [|by apply Hlit].
    by destruct inverted, (in_spans l c). }
  destruct (d =? BACKSLASH) eqn:Hbs; [|by apply Hlit].
  destruct q as [|e q]; [done|]. apply Forall_cons in Hq as [[_ He] _]. by apply Hlit.
Qed.

Lemma no_inverted_eq q : no_inverted q =
  match head_token q with
  | None => true
  | Some (Star, rest) => no_inverted rest
  | Some (One p, rest) => negb (p NUL) && no_inverted rest
  end.
Proof.
  unfold no_inverted at 1. rewrite glob_tokens_eq. by destruct (head_token q) as [[[|p] rest]|].
Qed.

(** The parts of a pattern that the loop can stand at. *)
Definition pat_ok (P : nat) (q : bytes) : Prop :=
  is_cstr q ∧ no_inverted q = true ∧ (length q ≤ P)%nat.

Definition back_ok (P N : nat) (t : bytes) (back : option (bytes * bytes)) : Prop :=
  match back with
  | None => True
  | Some (bq, bs) => pat_ok P bq ∧ is_cstr bs ∧ (length t ≤ length bs ≤ N)%nat
  end.

Lemma pat_ok_rest P q tk rest : pat_ok P q → head_token q = Some (tk, rest) →
  pat_ok P rest ∧ (length rest < length q)%nat.
Proof.
  intros (Hc & Hn & Hl) Hh. pose proof (head_token_shorter _ _ _ Hh) as [Hs [k ->]].
  unfold is_cstr in Hc. apply Forall_app in Hc as [_ Hc]. rewrite no_inverted_eq, Hh in Hn.
  split; [|done]. split_and!; [done| |lia]. destruct tk; bool_to_prop; done.
Qed.

(** A mismatch before the end of the string. *)
Lemma backtrack_matches want P N fuel q c t back :
  (∀ q t back, pat_ok P q → is_cstr t → back_ok P N t back → (length t ≤ N)%nat →
    (steps P N q back < fuel)%nat →
    progress want (glob_tokens q) t ((λ b, (glob_tokens b.1, b.2)) <$> back) →
    glob_loop fuel (nul q) (nul t) ((λ b, (nul b.1, nul b.2)) <$> back) = Ret want) →
  c ≠ NUL → back_ok P N (c :: t) back → (steps P N q back < S fuel)%nat →
  gmatch (glob_tokens q) (c :: t) = false →
  progress want (glob_tokens q) (c :: t) ((λ b, (glob_tokens b.1, b.2)) <$> back) →
  backtrack fuel c ((λ b, (nul b.1, nul b.2)) <$> back) = Ret want.
Proof.
  intros IH Hc Hback Hfuel Hf Hpr. destruct back as [[bq bs]|]; cbn in *.
  2: { by rewrite (progress_none_inv _ _ _ Hpr), Hf. }
  destruct (progress_back _ _ _ _ _ _ Hf Hpr) as (b & bs' & -> & Hpr').
  destruct Hback as (Hbq & Hcs & HbN). apply Forall_cons in Hcs as [_ Hcs]. cbn [length] in HbN.
  pose proof Hbq as (_ & _ & HbP). rewrite (proj2 (Z.eqb_neq c NUL)) by done. cbn [nul app].
  apply (IH bq bs' (Some (bq, bs'))); try done; [by split_and!; try lia|lia|].
  unfold steps in *. cbn [length] in Hfuel. nia.
Qed.

Lemma glob_loop_matches want P N : ∀ fuel q t back,
  pat_ok P q → is_cstr t → back_ok P N t back → (length t ≤ N)%nat →
  (steps P N q back < fuel)%nat →
  progress want (glob_tokens q) t ((λ b, (glob_tokens b.1, b.2)) <$> back) →
  glob_loop fuel (nul q) (nul t) ((λ b, (nul b.1, nul b.2)) <$> back) = Ret want.
Proof.
  induction fuel as [|fuel IH]; intros q t back Hq Hct Hback HN Hfuel Hpr; [lia|].
  pose proof Hq as (Hcq & Hno & HP).
  assert (∀ rest back', (length rest < length q)%nat →
    (match back' with None => back = None | Some (_, bs) =>
       match back with None => (length bs ≤ N)%nat | Some (_, bs0) => (length bs ≤ length bs0)%nat end end) →
    (steps P N rest back' < fuel)%nat) as Hsteps.
  { intros rest back' Hl Hb. unfold steps in *.
    destruct back' as [[? ?]|], back as [[? ?]|]; simplify_eq/=; nia. }
  pose proof (glob_tokens_eq q) as Htok. pose proof (no_inverted_eq q) as Hinv.
  destruct (head_token q) as [[tk rest]|] eqn:Hh.
  2: { destruct t as [|c t]; cbn [nul app]; rewrite (glob_loop_token _ _ _ _ _ Hcq), Hh.
    - by rewrite (progress_end _ _ _ Hpr), Htok.
    - apply Forall_cons in Hct as [[_ Hc] Hct]. rewrite (proj2 (Z.eqb_neq c NUL)) by done.
      eapply backtrack_matches; try done. by rewrite Htok. }
  destruct (pat_ok_rest _ _ _ _ Hq Hh) as [Hrest Hlr]. destruct tk as [|p].
  - assert (∃ c str, nul t = c :: str) as (c & str & E) by (destruct t; cbn; eauto).
    rewrite E, (glob_loop_token _ _ _ _ _ Hcq), Hh, <-E. rewrite Htok in Hpr.
    destruct rest as [|e rest]; [by rewrite (progress_last_star _ _ _ Hpr)|].
    apply progress_star in Hpr. apply (IH (e :: rest) t (Some (e :: rest, t))); try done.
    apply Hsteps; [done|]. destruct back as [[bq bs]|]; [apply Hback|done].
  - rewrite Hinv in Hno. apply andb_true_iff in Hno as [Hp _]. apply negb_true_iff in Hp.
    destruct t as [|c t]; cbn [nul app]; rewrite (glob_loop_token _ _ _ _ _ Hcq), Hh.
    { rewrite Hp, backtrack_nul, (progress_end _ _ _ Hpr), Htok. done. }
    pose proof Hct as [[_ Hc] Hct']%Forall_cons. destruct (p c) eqn:Hpc.
    + rewrite Htok in Hpr. apply progress_one in Hpr; [|done]. cbn [length] in HN.
      apply IH; try done; try lia.
      * destruct back as [[bq bs]|]; [|done]. destruct Hback as (? & ? & ?). cbn [length] in *.
        split_and!; done || lia.
      * apply Hsteps; [done|]. by destruct back as [[]|].
    + eapply backtrack_matches; try done. rewrite Htok. cbn. by rewrite Hpc.
Qed.

(** C36: For a pattern without an inverted class [glob_match] always returns, reads
    nothing outside its strings, and says whether the whole string matches the
    tokens of the pattern, although it only goes back to the last star. *)
Theorem glob_match_matches pat str :
  is_cstr pat → is_cstr str → no_inverted pat = true →
  glob_match (pat ++ [NUL]) (str ++ [NUL]) = Ret (gmatch (glob_tokens pat) str).
Proof.
  intros Hp Hs Hno. unfold glob_match. rewrite !length_app.
  apply (glob_loop_matches _ (length pat) (length str) _ pat str None);
    [done..| |apply progress_start]. unfold steps. cbn [length]. lia.
Qed.

(** An inverted class accepts the NUL at the end of the string: on the empty
    string a pattern that starts with one goes on after the NUL, outside the
    string. *)
Theorem glob_match_inverted_overread q l rest :
  is_cstr q → class_of q = Some (true, l, rest) → in_spans l NUL = false →
  glob_match ((LBRACKET :: q) ++ [NUL]) [NUL] = OutOfBounds.
Proof.
  intros Hq Hc Hl. unfold glob_match. change ((LBRACKET :: q) ++ [NUL]) with (nul (LBRACKET :: q)).
  assert (∃ n, (S (length (nul (LBRACKET :: q))) * S (length [NUL]) = S (S n))%nat) as [n ->].
  { cbn. eauto. }
  rewrite glob_loop_token by (constructor; [done|done]). cbn [head_token].
  change (LBRACKET =? QUEST) with false. change (LBRACKET =? STAR) with false.
  rewrite Z.eqb_refl, Hc, Hl. by destruct (nul rest).
Qed.

Lemma glob_match_matches_witness :
  glob_match (B "*[a-c-]?\*x*" ++ [NUL]) (B "zb--*xx" ++ [NUL]) =
  Ret (gmatch (glob_tokens (B "*[a-c-]?\*x*")) (B "zb--*xx")).
Proof. apply (glob_match_matches (B "*[a-c-]?\*x*") (B "zb--*xx")); [vm_decide|vm_decide|done]. Defined.

Lemma glob_match_inverted_overread_witness :
  glob_match (B "[!a-z]*" ++ [NUL]) [NUL] = OutOfBounds.
Proof.
  apply (glob_match_inverted_overread (B "!a-z]*") [(97, 122)] (B "*")); [vm_decide|done|done].
Defined.

End Glob.
