(* ===== verification/KSort.v ===== *)
(** * Sorting and searching arrays, [lib/sort.c] and [lib/bsearch.c]

    [sort] is a heapsort on an array of elements of any size, which works with
    byte offsets, sifts bottom-up and swaps elements by words when it can.

    Memory is the list of the bytes of the array; an access outside it is [None].
    Offsets are [size_t] values.  The first part is the code, on bytes; the second
    the same algorithm on a list of elements, which the code is shown to follow;
    the third part its correctness. *)
From stdpp Require Import base numbers sets strings relations sorting list.
From S2P Require Import Prelude KStrtox.

Module KSort.
Local Open Scope Z_scope.

(** ** The code *)

(** A load and a store of [w] bytes. *)
Definition load (mem : bytes) (a w : Z) : option bytes :=
  let x := take (Z.to_nat w) (drop (Z.to_nat a) mem) in
  if decide (zlen x = w) then Some x else None.

Definition store (mem : bytes) (a : Z) (x : bytes) : option bytes :=
  if decide (a + zlen x ≤ zlen mem) then
    Some (take (Z.to_nat a) mem ++ x ++ drop (Z.to_nat (a + zlen x)) mem)
  else None.

(** [t = *(a + (n -= w)); *(a + n) = *(b + n); *(b + n) = t;] with the new [n]. *)
Definition exchange (w : Z) (mem : bytes) (a b n : Z) : option (bytes * Z) :=
  let n := w64 (n - w) in
  t ← load mem (a + n) w;
  u ← load mem (b + n) w;
  mem ← store mem (a + n) u;
  mem ← store mem (b + n) t;
  Some (mem, n).

(** [do { ... } while (n);] *)
Fixpoint do_while (fuel : nat) (body : bytes → Z → option (bytes * Z)) (mem : bytes) (n : Z) :
    option bytes :=
  match fuel with
  | O => None
  | S fuel =>
      r ← body mem n;
      let '(mem, n) := (r : bytes * Z) in
      if n =? 0 then Some mem else do_while fuel body mem n
  end.

Definition swap_words_32 (mem : bytes) (a b n : Z) : option bytes :=
  do_while (Z.to_nat n) (λ mem n, exchange 4 mem a b n) mem n.

Definition swap_words_64 (config_64bit : bool) (mem : bytes) (a b n : Z) : option bytes :=
  do_while (Z.to_nat n)
    (λ mem n,
      if config_64bit then exchange 8 mem a b n
      else
        r ← exchange 4 mem a b n;
        let '(mem, n) := (r : bytes * Z) in
        exchange 4 mem a b n) mem n.

Definition swap_bytes (mem : bytes) (a b n : Z) : option bytes :=
  do_while (Z.to_nat n) (λ mem n, exchange 1 mem a b n) mem n.

(** The swap function: one of the three above, or one that the caller gives. *)
Inductive swap_func_t :=
  | SWAP_WORDS_64
  | SWAP_WORDS_32
  | SWAP_BYTES
  | SWAP_CALL (f : bytes → Z → Z → Z → option bytes).

(** The configuration and the address of the array. *)
Record sort_config := {
  CONFIG_64BIT : bool;
  CONFIG_HAVE_EFFICIENT_UNALIGNED_ACCESS : bool;
  base_addr : Z;
}.

(** The size is passed on as an [int]. *)
Definition do_swap (cfg : sort_config) (mem : bytes) (a b size : Z) (swap_func : swap_func_t) :
    option bytes :=
  match swap_func with
  | SWAP_WORDS_64 => swap_words_64 (CONFIG_64BIT cfg) mem a b size
  | SWAP_WORDS_32 => swap_words_32 mem a b size
  | SWAP_BYTES => swap_bytes mem a b size
  | SWAP_CALL f => f mem a b (KStrtox.signed 32 size)
  end.

Definition is_aligned (cfg : sort_config) (size align : Z) : bool :=
  let lsbits := w8 size in
  let lsbits :=
    if CONFIG_HAVE_EFFICIENT_UNALIGNED_ACCESS cfg then lsbits
    else Z.lor lsbits (w8 (base_addr cfg)) in
  Z.land lsbits (align - 1) =? 0.

(** The parent of the element at [i], in byte offsets. *)
Definition parent (i lsbit size : Z) : Z :=
  let i := w64 (i - size) in
  let i := w64 (i - Z.land size (w64 (- Z.land i lsbit))) in
  i / 2.

(** The comparison function with its private argument: [_CMP_WRAPPER] says that the
    private argument is the comparison itself. *)
Inductive cmp_r_func_t :=
  | _CMP_WRAPPER (priv : bytes → bytes → Z)
  | CMP_R (P : Type) (cmp : bytes → bytes → P → Z) (priv : P).

Definition call_cmp (f : cmp_r_func_t) (x y : bytes) : Z :=
  match f with
  | _CMP_WRAPPER priv => priv x y
  | CMP_R _ cmp priv => cmp x y priv
  end.

Section sort.
Variable cmp : bytes → bytes → Z.

(** The comparison of the elements at two offsets. *)
Definition do_cmp (mem : bytes) (a b size : Z) : option Z :=
  x ← load mem a size;
  y ← load mem b size;
  Some (cmp x y).

(** [for (b = a; c = 2*b + size, (d = c + size) < n;) b = ...; if (d == n) b = c;] *)
Fixpoint sift_down (fuel : nat) (mem : bytes) (b n size : Z) : option Z :=
  match fuel with
  | O => None
  | S fuel =>
      let c := w64 (w64 (2 * b) + size) in
      let d := w64 (c + size) in
      if d <? n then
        r ← do_cmp mem c d size;
        sift_down fuel mem (if 0 <=? r then c else d) n size
      else Some (if d =? n then c else b)
  end.

(** [while (b != a && do_cmp(base + a, base + b) >= 0) b = parent(b);] *)
Fixpoint backtrack (fuel : nat) (mem : bytes) (a b lsbit size : Z) : option Z :=
  match fuel with
  | O => None
  | S fuel =>
      if b =? a then Some b
      else
        r ← do_cmp mem a b size;
        if 0 <=? r then backtrack fuel mem a (parent b lsbit size) lsbit size else Some b
  end.

(** [while (b != a) { b = parent(b); do_swap(base + b, base + c); }] *)
Fixpoint shift_into (cfg : sort_config) (swap_func : swap_func_t) (fuel : nat)
    (mem : bytes) (a b c lsbit size : Z) : option bytes :=
  match fuel with
  | O => None
  | S fuel =>
      if b =? a then Some mem
      else
        let b := parent b lsbit size in
        mem ← do_swap cfg mem b c size swap_func;
        shift_into cfg swap_func fuel mem a b c lsbit size
  end.

(** One pass through the body of the loop after the choice of [a] and [n]. *)
Definition sift (cfg : sort_config) (swap_func : swap_func_t) (fuel : nat)
    (mem : bytes) (a n lsbit size : Z) : option bytes :=
  b ← sift_down fuel mem a n size;
  b ← backtrack fuel mem a b lsbit size;
  shift_into cfg swap_func fuel mem a b b lsbit size.

(** [fuel] bounds the loop; each pass has [num] steps at most in each of its
    loops. *)
Fixpoint sort_loop (cfg : sort_config) (swap_func : swap_func_t) (fuel num : nat)
    (mem : bytes) (a n lsbit size : Z) : option bytes :=
  match fuel with
  | O => None
  | S fuel =>
      if negb (a =? 0) then
        let a := a - size in
        mem ← sift cfg swap_func (S num) mem a n lsbit size;
        sort_loop cfg swap_func fuel num mem a n lsbit size
      else
        let n := n - size in
        if negb (n =? 0) then
          mem ← do_swap cfg mem 0 n size swap_func;
          mem ← sift cfg swap_func (S num) mem a n lsbit size;
          sort_loop cfg swap_func fuel num mem a n lsbit size
        else Some mem
  end.

End sort.

Definition sort_r (cmp_func : cmp_r_func_t) (cfg : sort_config) (base : bytes)
    (num : nat) (size : Z) (swap_func : option (bytes → Z → Z → Z → option bytes)) : option bytes :=
  let n := w64 (Z.of_nat num * size) in
  let a := w64 (Z.of_nat num / 2 * size) in
  let lsbit := w32 (Z.land size (w64 (- size))) in
  if a =? 0 then Some base
  else
    let swap_func :=
      match swap_func with
      | Some f => SWAP_CALL f
      | None =>
          if is_aligned cfg size 8 then SWAP_WORDS_64
          else if is_aligned cfg size 4 then SWAP_WORDS_32
          else SWAP_BYTES
      end in
    sort_loop (call_cmp cmp_func) cfg swap_func (S (num + num)) num base a n lsbit size.

Definition sort (cmp_func : bytes → bytes → Z) (cfg : sort_config) (base : bytes)
    (num : nat) (size : Z) (swap_func : option (bytes → Z → Z → Z → option bytes)) : option bytes :=
  sort_r (_CMP_WRAPPER cmp_func) cfg base num size swap_func.

(** ** Swaps *)

Lemma load_middle A x C a w : a = zlen A → w = zlen x → load (A ++ x ++ C) a w = Some x.
Proof.
  intros -> ->. unfold load, zlen. rewrite !Nat2Z.id, drop_app_length, take_app_length.
  by rewrite decide_True.
Qed.

Lemma store_middle A x y C a : a = zlen A → zlen x = zlen y →
  store (A ++ x ++ C) a y = Some (A ++ y ++ C).
Proof.
  intros -> Hl. unfold store. pose proof (zlen_nonneg C). rewrite decide_True by (rewrite !zlen_app; lia).
  rewrite <-Hl. unfold zlen in *. rewrite <-Nat2Z.inj_add, !Nat2Z.id, take_app_length.
  by rewrite <-length_app, (assoc (++) A x C), drop_app_length.
Qed.

(** One step of a swap moves the last [w] bytes of both blocks. *)
Lemma exchange_step w A x x2 R y y2 C :
  zlen x2 = w → zlen y2 = w → zlen x = zlen y → zlen x + w < 2 ^ 64 →
  exchange w (A ++ (x ++ x2) ++ R ++ (y ++ y2) ++ C) (zlen A) (zlen A + zlen x + w + zlen R)
    (zlen x + w) =
  Some (A ++ x ++ (y2 ++ R) ++ y ++ (x2 ++ C), zlen x).
Proof.
  intros Hx2 Hy2 Hxy Hlt. pose proof (zlen_nonneg x). pose proof (zlen_nonneg x2).
  unfold exchange. rewrite Z.add_simpl_r. unfold w64. rewrite wrap_small by lia.
  set (mem := A ++ (x ++ x2) ++ R ++ (y ++ y2) ++ C).
  assert (mem = (A ++ x) ++ x2 ++ (R ++ y ++ y2 ++ C)) as E1
    by (unfold mem; by rewrite <-!app_assoc).
  assert (mem = ((A ++ x) ++ x2 ++ R ++ y) ++ y2 ++ C) as E2
    by (unfold mem; by rewrite <-!app_assoc).
  assert (load mem (zlen A + zlen x) w = Some x2) as ->
    by (rewrite E1; apply load_middle; rewrite ?zlen_app; lia).
  assert (load mem (zlen A + zlen x + w + zlen R + zlen x) w = Some y2) as ->
    by (rewrite E2; apply load_middle; rewrite ?zlen_app; lia).
  cbn [mbind option_bind].
  assert (store mem (zlen A + zlen x) y2 = Some (((A ++ x) ++ y2 ++ R ++ y) ++ y2 ++ C)) as ->.
  { rewrite E1, store_middle by (rewrite ?zlen_app; lia). by rewrite <-!app_assoc. }
  cbn [mbind option_bind]. rewrite store_middle by (rewrite ?zlen_app; lia). cbn [mbind option_bind].
  by rewrite <-!app_assoc.
Qed.

(** A loop body that moves [w] bytes per step swaps two blocks whose size is a
    multiple of [w]. *)
Definition moves (w : Z) (body : bytes → Z → Z → Z → option (bytes * Z)) : Prop :=
  ∀ A x x2 R y y2 C, zlen x2 = w → zlen y2 = w → zlen x = zlen y → zlen x + w < 2 ^ 64 →
    body (A ++ (x ++ x2) ++ R ++ (y ++ y2) ++ C) (zlen A) (zlen A + zlen x + w + zlen R)
      (zlen x + w) =
    Some (A ++ x ++ (y2 ++ R) ++ y ++ (x2 ++ C), zlen x).

Lemma split_end (x : bytes) k w : zlen x = k + w → 0 ≤ k → 0 ≤ w →
  ∃ x1 x2, x = x1 ++ x2 ∧ zlen x1 = k ∧ zlen x2 = w.
Proof.
  intros Hx Hk Hw. exists (take (Z.to_nat k) x), (drop (Z.to_nat k) x).
  unfold zlen in *. rewrite take_drop, length_take, length_drop. split_and!; [done|lia|lia].
Qed.

Lemma do_while_swaps w body : 0 < w → moves w body →
  ∀ fuel q A x R y C, (0 < q)%nat → zlen x = Z.of_nat q * w → zlen y = zlen x → zlen x < 2 ^ 64 →
    (q ≤ fuel)%nat →
  do_while fuel (λ mem n, body mem (zlen A) (zlen A + zlen x + zlen R) n)
    (A ++ x ++ R ++ y ++ C) (zlen x) = Some (A ++ y ++ R ++ x ++ C).
Proof.
  intros Hw Hbody. induction fuel as [|fuel IH]; intros q A x R y C Hq Hx Hy Hlt Hf; [lia|].
  destruct q as [|q]; [lia|].
  destruct (split_end x (Z.of_nat q * w) w) as (x1 & x2 & -> & Hx1 & Hx2); [lia..|].
  destruct (split_end y (Z.of_nat q * w) w) as (y1 & y2 & -> & Hy1 & Hy2); [lia..|].
  cbn [do_while]. rewrite !zlen_app in *. rewrite Hx2.
  replace (zlen A + (zlen x1 + w) + zlen R) with (zlen A + zlen x1 + w + zlen R) by lia.
  rewrite Hbody by lia. cbn [mbind option_bind].
  destruct q as [|q].
  - assert (x1 = []) as -> by (apply nil_length_inv; unfold zlen in Hx1; lia).
    assert (y1 = []) as -> by (apply nil_length_inv; unfold zlen in Hy1; lia).
    cbn. by rewrite <-!app_assoc.
  - rewrite (proj2 (Z.eqb_neq (zlen x1) 0)) by lia.
    replace (zlen A + zlen x1 + w + zlen R) with (zlen A + zlen x1 + zlen (y2 ++ R))
      by (rewrite zlen_app; lia).
    rewrite (IH (S q)) by lia. by rewrite <-!app_assoc.
Qed.

Lemma moves_exchange w : moves w (exchange w).
Proof. intros A x x2 R y y2 C. apply exchange_step. Qed.

(** Two transfers of 32 bits move 64. *)
Lemma moves_pair : moves 8 (λ mem a b n,
  r ← exchange 4 mem a b n; let '(mem, n) := (r : bytes * Z) in exchange 4 mem a b n).
Proof.
  intros A x x2 R y y2 C Hx2 Hy2 Hxy Hlt. pose proof (zlen_nonneg x).
  destruct (split_end x2 4 4) as (u1 & u2 & -> & Hu1 & Hu2); [lia..|].
  destruct (split_end y2 4 4) as (v1 & v2 & -> & Hv1 & Hv2); [lia..|].
  rewrite !(app_assoc x), !(app_assoc y).
  replace (zlen A + zlen x + 8 + zlen R) with (zlen A + zlen (x ++ u1) + 4 + zlen R)
    by (rewrite zlen_app; lia).
  replace (zlen x + 8) with (zlen (x ++ u1) + 4) by (rewrite zlen_app; lia).
  rewrite exchange_step by (rewrite ?zlen_app; lia). cbn [mbind option_bind].
  replace (zlen A + zlen (x ++ u1) + 4 + zlen R) with (zlen A + zlen x + 4 + zlen (v2 ++ R))
    by (rewrite !zlen_app; lia).
  replace (zlen (x ++ u1)) with (zlen x + 4) by (rewrite zlen_app; lia).
  rewrite exchange_step by (rewrite ?zlen_app; lia). by rewrite <-!app_assoc.
Qed.

(** What a swap function does for elements of a size. *)
Definition swaps (size : Z) (f : bytes → Z → Z → Z → option bytes) : Prop :=
  ∀ A x R y C, zlen x = size → zlen y = size →
    f (A ++ x ++ R ++ y ++ C) (zlen A) (zlen A + size + zlen R) size = Some (A ++ y ++ R ++ x ++ C).

Lemma do_while_multiple w body size : 0 < w → moves w body →
  0 < size < 2 ^ 64 → size mod w = 0 →
  swaps size (λ mem a b n, do_while (Z.to_nat n) (λ mem n, body mem a b n) mem n).
Proof.
  intros Hw Hb Hsize Hmod A x R y C <- Hy. cbn.
  apply Z.div_exact in Hmod; [|lia].
  assert (0 < zlen x / w) by (destruct (Z.lt_ge_cases 0 (zlen x / w)); nia).
  apply (do_while_swaps w body Hw Hb _ (Z.to_nat (zlen x / w))); [lia| |done|lia|].
  - rewrite Z2Nat.id by lia. lia.
  - apply Z2Nat.inj_le; [lia|lia|]. nia.
Qed.

Definition swap_fits (size : Z) (f : swap_func_t) : Prop :=
  match f with
  | SWAP_WORDS_64 => size mod 8 = 0
  | SWAP_WORDS_32 => size mod 4 = 0
  | SWAP_BYTES => True
  | SWAP_CALL f => size < 2 ^ 31 ∧ swaps size f
  end.

Lemma do_swap_swaps cfg size f : 0 < size < 2 ^ 64 → swap_fits size f →
  swaps size (λ mem a b size, do_swap cfg mem a b size f).
Proof.
  intros Hs Hf. destruct f as [| | |f]; cbn [do_swap].
  - destruct (CONFIG_64BIT cfg) eqn:E; unfold swap_words_64.
    + by apply (do_while_multiple 8 (exchange 8)); [|apply moves_exchange|..].
    + by apply (do_while_multiple 8 _ size ltac:(done) moves_pair).
  - by apply (do_while_multiple 4 (exchange 4)); [|apply moves_exchange|..].
  - apply (do_while_multiple 1 (exchange 1)); [done|apply moves_exchange|done|apply Z.mod_1_r].
  - destruct Hf as [H31 Hf]. intros A x R y C Hx Hy. cbn beta.
    assert (size = KStrtox.signed 32 size) as <-; [|by apply Hf].
    apply Z.eqb_eq. rewrite KStrtox.signed_fits by lia. apply andb_true_iff.
    rewrite Z.leb_le, Z.ltb_lt. lia.
Qed.

(** The choice of the word size is right. *)
Lemma is_aligned_multiple cfg size k : 0 ≤ k ≤ 8 → is_aligned cfg size (2 ^ k) = true →
  size mod 2 ^ k = 0.
Proof.
  intros Hk. unfold is_aligned. rewrite Z.eqb_eq.
  replace (2 ^ k - 1) with (Z.ones k) by (rewrite Z.ones_equiv; lia). intros Hz.
  assert (Z.land (w8 size) (Z.ones k) = 0) as Hl.
  { destruct (CONFIG_HAVE_EFFICIENT_UNALIGNED_ACCESS cfg); [done|].
    rewrite Z.land_lor_distr_l in Hz. by apply Z.lor_eq_0_iff in Hz as [? _]. }
  rewrite Z.land_ones in Hl by lia. unfold w8, wrap in Hl.
  rewrite Z.mod_mod_divide in Hl; [done|]. exists (2 ^ (8 - k)). rewrite <-Z.pow_add_r by lia. f_equal. lia.
Qed.

(** ** The parent in byte offsets *)

Lemma land_w64 x y : 0 ≤ x < 2 ^ 64 → Z.land x (w64 y) = Z.land x y.
Proof. intros. by apply land_wrap. Qed.

(** The bit that the code uses is the lowest one of the size. *)
Lemma lsbit_value size k m : 0 < size < 2 ^ 32 → 0 ≤ k → 0 ≤ m →
  size = (2 * m + 1) * 2 ^ k →
  w32 (Z.land size (w64 (- size))) = 2 ^ k ∧ k < 32.
Proof.
  intros Hs Hk Hm E. rewrite land_w64 by lia.
  replace (- size) with (- (2 * m + 1) * 2 ^ k) by lia. rewrite E at 1.
  rewrite land_mul_pow2, land_odd_opp, Z.mul_1_l by done.
  pose proof (Z.pow_pos_nonneg 2 k ltac:(lia) Hk).
  assert (k < 32) by (apply (Z.pow_lt_mono_r_iff 2); nia).
  split; [|done]. unfold w32. apply wrap_small. nia.
Qed.

Lemma parent_index size j : 0 < size < 2 ^ 32 → (1 ≤ j)%nat → Z.of_nat j * size < 2 ^ 63 →
  parent (Z.of_nat j * size) (w32 (Z.land size (w64 (- size)))) size =
  Z.of_nat ((j - 1) / 2) * size.
Proof.
  intros Hs Hj Hlt. destruct (odd_part size) as (k & m & Hk & Hm & E); [lia|].
  destruct (lsbit_value size k m Hs Hk Hm E) as [-> Hk32].
  pose proof (Z.pow_pos_nonneg 2 k ltac:(lia) Hk). unfold parent.
  replace (Z.of_nat j * size - size) with (Z.of_nat (j - 1) * size)
    by (rewrite Nat2Z.inj_sub by done; ring).
  assert (Z.of_nat (j - 1) * size ≤ Z.of_nat j * size) by (apply Z.mul_le_mono_nonneg_r; lia).
  assert (0 ≤ Z.of_nat (j - 1) * size) by (apply Z.mul_nonneg_nonneg; lia).
  rewrite !(wrap_small 64 (Z.of_nat (j - 1) * size) : _ → w64 _ = _) by lia.
  assert (Z.land (Z.of_nat (j - 1) * size) (2 ^ k) = (Z.of_nat (j - 1) mod 2) * 2 ^ k) as ->.
  { rewrite E. replace (2 ^ k) with (1 * 2 ^ k) at 2 by lia. rewrite Z.mul_assoc, land_mul_pow2 by done.
    change 1 with (Z.ones 1). rewrite Z.land_ones by done. change (2 ^ 1) with 2.
    rewrite Z.mul_add_distr_l, Z.mul_1_r, Z.add_comm, (Z.mul_comm _ (2 * m)), <-Z.mul_assoc.
    by rewrite (Z.mul_comm 2), Z_mod_plus_full. }
  rewrite Nat2Z.inj_div. change (Z.of_nat 2) with 2.
  pose proof (Z.div_mod (Z.of_nat (j - 1)) 2 ltac:(done)) as Hdm.
  pose proof (Z.mod_pos_bound (Z.of_nat (j - 1)) 2 ltac:(done)) as Hmod.
  set (q := Z.of_nat (j - 1) / 2) in *. assert (0 ≤ q) by (apply Z.div_pos; lia).
  rewrite land_w64 by lia.
  assert (Z.of_nat (j - 1) mod 2 = 0 ∨ Z.of_nat (j - 1) mod 2 = 1) as [Hz|Ho] by lia.
  - rewrite Hz, Z.mul_0_l, Z.opp_0, Z.land_0_r, Z.sub_0_r. unfold w64. rewrite wrap_small by nia.
    replace (Z.of_nat (j - 1) * size) with (q * size * 2) by nia. by apply Z.div_mul.
  - rewrite Ho, Z.mul_1_l.
    assert (Z.land size (- 2 ^ k) = size) as ->.
    { replace (- 2 ^ k) with (-1 * 2 ^ k) by lia. rewrite E, land_mul_pow2 by done.
      by rewrite Z.land_m1_r. }
    replace (Z.of_nat (j - 1) * size - size) with (q * size * 2) by nia.
    unfold w64. rewrite wrap_small by nia. by apply Z.div_mul.
Qed.

(** ** The array as a list of elements *)

(** A comparison function that orders the elements. *)
Class Ordering (cmp : bytes → bytes → Z) : Prop := {
  cmp_total x y : 0 ≤ cmp x y ∨ 0 ≤ cmp y x;
  cmp_trans x y z : 0 ≤ cmp x y → 0 ≤ cmp y z → 0 ≤ cmp x z;
}.

(** The bytes of the elements. *)
Fixpoint enc (els : list bytes) : bytes :=
  match els with
  | [] => []
  | x :: els => x ++ enc els
  end.

Lemma enc_app k l : enc (k ++ l) = enc k ++ enc l.
Proof. induction k as [|x k IH]; [done|]. cbn. by rewrite IH, app_assoc. Qed.

Definition swapped (els : list bytes) (i j : nat) : list bytes :=
  <[i := els !!! j]> (<[j := els !!! i]> els).

Lemma swapped_middle T x M y D :
  swapped (T ++ x :: M ++ y :: D) (length T) (length T + S (length M)) = T ++ y :: M ++ x :: D.
Proof.
  unfold swapped.
  rewrite (list_lookup_total_correct (T ++ x :: M ++ y :: D) (length T) x) by (by apply list_lookup_middle).
  rewrite (list_lookup_total_correct (T ++ x :: M ++ y :: D) (length T + S (length M)) y).
  2: { rewrite lookup_app_r by lia. replace (length T + S (length M) - length T)%nat with (S (length M)) by lia.
    by apply list_lookup_middle. }
  assert (<[length M := x]> (M ++ y :: D) = M ++ x :: D) as EM.
  { rewrite insert_app_r_alt, Nat.sub_diag by done. done. }
  rewrite (insert_app_r_alt T _ (length T + S (length M))) by lia.
  replace (length T + S (length M) - length T)%nat with (S (length M)) by lia.
  change (<[S (length M) := x]> (x :: M ++ y :: D)) with (x :: <[length M := x]> (M ++ y :: D)).
  rewrite EM, insert_app_r_alt, Nat.sub_diag by done. done.
Qed.

Lemma two_split (els : list bytes) i j : (i < j < length els)%nat → ∃ T M D,
  els = T ++ els !!! i :: M ++ els !!! j :: D ∧ length T = i ∧ length M = (j - S i)%nat ∧
  T = take i els ∧ M = drop (S i) (take j els).
Proof.
  intros Hij.
  assert (els !! i = Some (els !!! i)) as Hi by (apply list_lookup_lookup_total_lt; lia).
  assert (els !! j = Some (els !!! j)) as Hj by (apply list_lookup_lookup_total_lt; lia).
  exists (take i els), (drop (S i) (take j els)), (drop (S j) els).
  split_and!; [|rewrite length_take; lia|rewrite length_drop, length_take; lia|done|done].
  rewrite <-(take_drop_middle els j _ Hj) at 1.
  rewrite <-(take_drop_middle (take j els) i (els !!! i)) at 1 by (by rewrite lookup_take_lt by lia).
  rewrite take_take, Nat.min_l by lia. by rewrite <-app_assoc.
Qed.

Lemma swapped_split els i j T M D x y : els = T ++ x :: M ++ y :: D →
  length T = i → length M = (j - S i)%nat → (i < j)%nat →
  swapped els i j = T ++ y :: M ++ x :: D.
Proof.
  intros -> <- HM Hij. replace j with (length T + S (length M))%nat by lia. apply swapped_middle.
Qed.

Lemma swapped_perm els i j : (i < j < length els)%nat → swapped els i j ≡ₚ els.
Proof.
  intros Hij. destruct (two_split els i j Hij) as (T & M & D & E & HT & HM & _).
  rewrite (swapped_split _ _ _ _ _ _ _ _ E HT HM) by lia. rewrite E at 3.
  apply Permutation_app_head. rewrite <-!Permutation_middle. constructor.
Qed.

Section elements.
Context (cmp : bytes → bytes → Z) `{!Ordering cmp}.
Variables (size : Z) (cfg : sort_config) (f : swap_func_t) (num : nat).
Hypothesis Hsize : 0 < size < 2 ^ 32.
Hypothesis Hfits : swap_fits size f.
Hypothesis Hnum : Z.of_nat num * size < 2 ^ 60.

Definition sized (els : list bytes) : Prop := Forall (λ x, zlen x = size) els ∧ length els = num.

Abbreviation off i := (Z.of_nat i * size).
Abbreviation lsb := (w32 (Z.land size (w64 (- size)))).

Lemma enc_length els : Forall (λ x, zlen x = size) els → zlen (enc els) = off (length els).
Proof.
  induction 1 as [|x els Hx _ IH]; [done|]. cbn [enc length]. rewrite zlen_app, IH, Hx. lia.
Qed.

Lemma enc_split els i x : sized els → els !! i = Some x →
  ∃ A C, enc els = A ++ x ++ C ∧ zlen A = off i ∧ A = enc (take i els) ∧ C = enc (drop (S i) els).
Proof.
  intros [Hs _] Hi. exists (enc (take i els)), (enc (drop (S i) els)).
  split_and!; [|by rewrite enc_length, length_take, Nat.min_l by
    (by apply Forall_take || (apply lookup_lt_Some in Hi; lia))|done|done].
  rewrite <-(take_drop_middle els i x Hi) at 1. by rewrite enc_app.
Qed.

Lemma load_element els i x : sized els → els !! i = Some x → load (enc els) (off i) size = Some x.
Proof.
  intros Hs Hi. destruct (enc_split els i x Hs Hi) as (A & C & -> & HA & _).
  apply load_middle; [done|]. destruct Hs as [Hs _]. rewrite Forall_lookup in Hs. symmetry. by eapply Hs.
Qed.

Lemma sized_swapped els i j : sized els → (i < num)%nat → (j < num)%nat → sized (swapped els i j).
Proof.
  intros [Hs Hl] Hi Hj. unfold swapped, sized. rewrite !length_insert. split; [|done].
  rewrite Forall_lookup in Hs.
  assert (∀ k, (k < num)%nat → zlen (els !!! k) = size) as Hk.
  { intros k Hk. apply (Hs k). apply list_lookup_lookup_total_lt. lia. }
  apply Forall_insert; [apply Forall_insert; [by apply Forall_lookup|by apply Hk]|by apply Hk].
Qed.

Lemma do_swap_elements els i j : sized els → (i < j < num)%nat →
  do_swap cfg (enc els) (off i) (off j) size f = Some (enc (swapped els i j)).
Proof.
  intros Hs Hij. pose proof Hs as [Hf Hl]. rewrite Forall_lookup in Hf.
  destruct (two_split els i j ltac:(lia)) as (T & M & D & E & HT & HM & ET & EM).
  rewrite (swapped_split _ _ _ _ _ _ _ _ E HT HM) by lia.
  assert (zlen (els !!! i) = size) as Hx by (apply (Hf i), list_lookup_lookup_total_lt; lia).
  assert (zlen (els !!! j) = size) as Hy by (apply (Hf j), list_lookup_lookup_total_lt; lia).
  set (x := els !!! i) in *. set (y := els !!! j) in *. rewrite E at 1. clear E.
  rewrite !enc_app. cbn [enc]. rewrite !enc_app. cbn [enc].
  assert (Forall (λ x, zlen x = size) T) as FT by (rewrite ET; apply Forall_take, Hs).
  assert (Forall (λ x, zlen x = size) M) as FM by (rewrite EM; apply Forall_drop, Forall_take, Hs).
  replace (off i) with (zlen (enc T)) by (rewrite enc_length, HT by done; done).
  replace (off j) with (zlen (enc T) + size + zlen (enc M)) by (rewrite !enc_length by done; nia).
  by apply (do_swap_swaps cfg size f); [lia|..].
Qed.

(** ** Heaps *)

Definition ge (x y : bytes) : Prop := 0 ≤ cmp x y.

Lemma ge_refl x : ge x x.
Proof. by destruct (cmp_total x x). Qed.

Lemma ge_trans x y z : ge x y → ge y z → ge x z.
Proof. apply cmp_trans. Qed.

Lemma not_ge x y : ¬ ge x y → ge y x.
Proof. intros Hn. by destruct (cmp_total x y). Qed.

Definition child (i j : nat) : Prop := j = (2 * i + 1)%nat ∨ j = (2 * i + 2)%nat.

Lemma child_parent i j : child i j → ((j - 1) / 2)%nat = i ∧ (i < j)%nat.
Proof.
  intros Hc. split; [|unfold child in Hc; lia]. symmetry.
  destruct Hc as [->| ->]; [apply (Nat.div_unique _ _ _ 0)|apply (Nat.div_unique _ _ _ 1)]; lia.
Qed.

Lemma child_inj i k j : child i j → child k j → i = k.
Proof. unfold child. lia. Qed.

(** The elements from [a] on are greater than their children below [n]. *)
Definition heap (a n : nat) (els : list bytes) : Prop :=
  ∀ i j, (a ≤ i)%nat → child i j → (j < n)%nat → ge (els !!! i) (els !!! j).

(** [j] is the greater child of [i]. *)
Definition lchild (els : list bytes) (n i j : nat) : Prop :=
  child i j ∧ (j < n)%nat ∧ ∀ k, child i k → (k < n)%nat → ge (els !!! j) (els !!! k).

Abbreviation path els n := (rtc (lchild els n)).

Lemma path_le els n i j : path els n i j → (i ≤ j)%nat.
Proof.
  induction 1 as [|i j k (Hc & _) _ IH]; [done|]. apply child_parent in Hc as [_ ?]. lia.
Qed.

Lemma path_lt els n i j : path els n i j → (i < n)%nat → (j < n)%nat.
Proof. induction 1 as [|i j k (_ & Hj & _) _ IH]; auto. Qed.

Lemma off_w64 k : (k ≤ 3 * num)%nat → w64 (off k) = off k.
Proof.
  intros Hk. apply wrap_small. split; [apply Z.mul_nonneg_nonneg; lia|].
  assert (off k ≤ 3 * (off num)) by nia. lia.
Qed.

Lemma off_ltb i j : (off i <? off j) = (i <? j)%nat.
Proof. destruct (Nat.ltb_spec i j), (Z.ltb_spec (off i) (off j)); nia || done. Qed.

Lemma off_eqb i j : (off i =? off j) = (i =? j)%nat.
Proof. destruct (Nat.eqb_spec i j), (Z.eqb_spec (off i) (off j)); nia || done. Qed.

Lemma do_cmp_elements els i j : sized els → (i < num)%nat → (j < num)%nat →
  do_cmp cmp (enc els) (off i) (off j) size = Some (cmp (els !!! i) (els !!! j)).
Proof.
  intros Hs Hi Hj. pose proof Hs as [_ Hl]. unfold do_cmp.
  rewrite (load_element els i (els !!! i)) by (done || apply list_lookup_lookup_total_lt; lia).
  by rewrite (load_element els j (els !!! j)) by (done || apply list_lookup_lookup_total_lt; lia).
Qed.

(** The way down: to a leaf, always by the greater child. *)
Lemma sift_down_path els n : sized els → (n ≤ num)%nat →
  ∀ fuel i, (i < n)%nat → (n - i < fuel)%nat →
  ∃ k, sift_down cmp fuel (enc els) (off i) (off n) size = Some (off k) ∧
    path els n i k ∧ (n ≤ 2 * k + 1)%nat.
Proof.
  intros Hs Hn. induction fuel as [|fuel IH]; intros i Hi Hf; [lia|]. cbn [sift_down].
  assert (w64 (w64 (2 * off i) + size) = off (2 * i + 1)) as ->.
  { replace (2 * off i) with (off (2 * i)) by lia. rewrite off_w64 by lia.
    replace (off (2 * i) + size) with (off (2 * i + 1)) by lia. apply off_w64. lia. }
  assert (w64 (off (2 * i + 1) + size) = off (2 * i + 2)) as ->.
  { replace (off (2 * i + 1) + size) with (off (2 * i + 2)) by lia. apply off_w64. lia. }
  rewrite off_ltb, off_eqb. destruct (Nat.ltb_spec (2 * i + 2) n).
  - rewrite do_cmp_elements by (done || lia). cbn [mbind option_bind].
    assert (∃ j, (if 0 <=? cmp (els !!! (2 * i + 1)%nat) (els !!! (2 * i + 2)%nat)
      then off (2 * i + 1) else off (2 * i + 2)) = off j ∧ lchild els n i j) as (j & -> & Hj).
    { unfold lchild, child. destruct (Z.leb_spec 0 (cmp (els !!! (2 * i + 1)%nat) (els !!! (2 * i + 2)%nat))).
      - exists (2 * i + 1)%nat. split; [done|]. split_and!; [auto|lia|].
        intros k [->| ->] _; [apply ge_refl|done].
      - exists (2 * i + 2)%nat. split; [done|]. split_and!; [auto|lia|].
        intros k [->| ->] _; [apply not_ge; unfold ge; lia|apply ge_refl]. }
    pose proof Hj as (Hc & Hjn & _). apply child_parent in Hc as [_ Hij].
    destruct (IH j) as (k & -> & Hp & Hk); [done|lia|]. exists k. split_and!; [done| |done].
    by eapply rtc_l.
  - destruct (Nat.eqb_spec (2 * i + 2) n).
    + exists (2 * i + 1)%nat. split_and!; [done| |lia]. apply rtc_once. unfold lchild, child.
      split_and!; [auto|lia|]. intros k [->| ->] Hk; [apply ge_refl|lia].
    + exists i. split_and!; [done|done|lia].
Qed.

(** The children of [k] are at most [v]. *)
Definition kids_le (els : list bytes) (n k : nat) (v : bytes) : Prop :=
  ∀ j, child k j → (j < n)%nat → ge v (els !!! j).

Lemma parent_child i j : child i j → (j < num)%nat → parent (off j) lsb size = off i.
Proof.
  intros Hc Hj. pose proof (child_parent _ _ Hc) as [E Hlt]. rewrite parent_index, E; [done|done|lia|].
  assert (off j ≤ off num) by nia. lia.
Qed.

(** The way back: to the place of the element at [a]. *)
Lemma backtrack_place els n a : sized els → (n ≤ num)%nat → (a < n)%nat →
  ∀ fuel b, path els n a b → kids_le els n b (els !!! a) → (b - a < fuel)%nat →
  ∃ k, backtrack cmp fuel (enc els) (off a) (off b) lsb size = Some (off k) ∧
    path els n a k ∧ kids_le els n k (els !!! a) ∧ (k = a ∨ ge (els !!! k) (els !!! a)).
Proof.
  intros Hs Hn Ha. induction fuel as [|fuel IH]; intros b Hp Hk Hf; [lia|].
  cbn [backtrack]. rewrite off_eqb. destruct (Nat.eqb_spec b a) as [->|Hne].
  { exists a. auto. }
  pose proof (path_lt _ _ _ _ Hp Ha) as Hb. pose proof (path_le _ _ _ _ Hp).
  rewrite do_cmp_elements by (done || lia). cbn [mbind option_bind].
  destruct (Z.leb_spec 0 (cmp (els !!! a) (els !!! b))) as [Hge|Hlt].
  - apply rtc_inv_r in Hp as [->|(p & Hp & Hc & Hbn & Hmax)]; [done|].
    rewrite (parent_child p) by (done || lia). pose proof (child_parent _ _ Hc) as [_ Hpb].
    apply IH; [done| |lia]. intros j Hj Hjn. eapply ge_trans; [exact Hge|]. by apply Hmax.
  - exists b. split_and!; [done..|]. right. apply not_ge. unfold ge. lia.
Qed.

(** ** Shifting into place *)

Lemma swapped_lookup els i j k : (i < length els)%nat → (j < length els)%nat →
  swapped els i j !!! k =
  if decide (k = i) then els !!! j else if decide (k = j) then els !!! i else els !!! k.
Proof.
  intros Hi Hj. unfold swapped. case_decide as Hki; [subst k; by rewrite list_lookup_total_insert_eq by (rewrite length_insert; lia)|].
  rewrite list_lookup_total_insert_ne by done. case_decide as Hkj; [subst k; by rewrite list_lookup_total_insert_eq by lia|].
  by rewrite list_lookup_total_insert_ne by done.
Qed.

Lemma insert_lookup (els : list bytes) c v k : (c < length els)%nat →
  <[c := v]> els !!! k = if decide (k = c) then v else els !!! k.
Proof.
  intros Hc. case_decide as E; [subst k; by rewrite list_lookup_total_insert_eq by lia|].
  by rewrite list_lookup_total_insert_ne by done.
Qed.

(** What the loop has done when it stands at [b]: the elements on the path from
    [b] to [c] have moved up, and [c] holds the old element of [b]. *)
Record shifting (els : list bytes) (n a c b : nat) (cur : list bytes) : Prop := {
  sh_sized : sized cur;
  sh_perm : cur ≡ₚ els;
  sh_path : path els n a b;
  sh_bc : (b ≤ c < n)%nat;
  sh_hole : cur !!! c = els !!! b;
  sh_above k : (k < b)%nat → cur !!! k = els !!! k;
  sh_outside k : (n ≤ k)%nat → cur !!! k = els !!! k;
  sh_all (P : bytes → Prop) :
    (∀ k, (k < n)%nat → P (els !!! k)) → ∀ k, (k < n)%nat → P (cur !!! k);
  sh_below k : (a < k < n)%nat → ge (els !!! k) (<[c := els !!! a]> cur !!! k);
  sh_heap : heap (if decide (b = a) then a else S a) n (<[c := els !!! a]> cur);
}.

Lemma shifting_start els n a k : sized els → (a < n ≤ num)%nat → heap (S a) n els →
  path els n a k → kids_le els n k (els !!! a) → k = a ∨ ge (els !!! k) (els !!! a) →
  shifting els n a k k els.
Proof.
  intros Hs Hn Hh Hp Hk Hv. pose proof (path_lt _ _ _ _ Hp ltac:(lia)) as Hkn.
  pose proof (path_le _ _ _ _ Hp) as Hak. pose proof Hs as [_ Hl].
  assert (∀ i, <[k := els !!! a]> els !!! i = if decide (i = k) then els !!! a else els !!! i) as Hins.
  { intros i. apply insert_lookup. lia. }
  split; try done.
  - intros i Hi. rewrite Hins. case_decide; [|apply ge_refl]. subst i. destruct Hv; [lia|done].
  - intros i j Hi Hc Hj. rewrite !Hins. pose proof (child_parent _ _ Hc) as [_ Hij].
    assert (a ≤ i)%nat by (case_decide; lia).
    destruct (decide (j = k)) as [->|Hjk]; rewrite ?decide_False by lia.
    + destruct Hv as [->|Hv]; [lia|]. rewrite decide_False in Hi by lia.
      eapply ge_trans; [|exact Hv]. by apply Hh.
    + destruct (decide (i = k)) as [->|Hik]; [by apply Hk|]. apply Hh; [|done..].
      destruct (decide (k = a)); lia.
Qed.

(** The parent takes the element of its greater child. *)
Lemma shifting_step els n a c b p cur : (a < n ≤ num)%nat → heap (S a) n els →
  path els n a p → lchild els n p b → shifting els n a c b cur →
  shifting els n a c p (swapped cur p c).
Proof.
  intros Hn Hh Hp (Hc & Hbn & Hmax) [Hs Hperm _ Hbc Hhole Habove Hout Hall Hbelow Hheap].
  pose proof (child_parent _ _ Hc) as [_ Hpb]. pose proof (path_le _ _ _ _ Hp) as Hap.
  pose proof Hs as [_ Hl].
  assert (∀ k, swapped cur p c !!! k = if decide (k = p) then els !!! b
    else if decide (k = c) then els !!! p else cur !!! k) as Hsw.
  { intros k. rewrite swapped_lookup, Hhole, (Habove p) by lia. done. }
  assert (length (swapped cur p c) = num) as Hl' by (unfold swapped; by rewrite !length_insert).
  assert (∀ k, <[c := els !!! a]> (swapped cur p c) !!! k =
    if decide (k = p) then els !!! b else <[c := els !!! a]> cur !!! k) as Hw.
  { intros k. rewrite !insert_lookup by lia. rewrite Hsw. repeat case_decide; done || lia. }
  split.
  - apply sized_swapped; [done|lia|lia].
  - rewrite <-Hperm. apply swapped_perm. lia.
  - done.
  - lia.
  - rewrite Hsw, decide_False, decide_True by lia. done.
  - intros k Hk. rewrite Hsw, !decide_False by lia. apply Habove. lia.
  - intros k Hk. rewrite Hsw, !decide_False by lia. by apply Hout.
  - intros P HP k Hk. rewrite Hsw.
    destruct (decide (k = p)), (decide (k = c)); [apply HP; lia..|by apply Hall].
  - intros k Hk. rewrite Hw. destruct (decide (k = p)) as [->|]; [|by apply Hbelow]. apply Hh; [lia|done|done].
  - intros i j Hi Hij Hj. rewrite !Hw. pose proof (child_parent _ _ Hij) as [_ Hlt].
    assert (a ≤ i)%nat by (case_decide; lia).
    destruct (decide (i = p)) as [->|Hip].
    + rewrite decide_False by lia. eapply ge_trans; [|apply Hbelow; lia]. by apply Hmax.
    + assert (S a ≤ i)%nat as Hai by (destruct (decide (p = a)); lia).
      destruct (decide (j = p)) as [->|Hjp].
      * rewrite insert_lookup, decide_False, (Habove i) by lia.
        eapply ge_trans; [by apply Hh|]. apply Hh; [lia|done|done].
      * apply Hheap; [|done|done]. rewrite decide_False by lia. done.
Qed.

Lemma shift_into_place els n a c : (a < n ≤ num)%nat → heap (S a) n els →
  ∀ fuel b cur, shifting els n a c b cur → (b - a < fuel)%nat →
  ∃ els', shift_into cfg f fuel (enc cur) (off a) (off b) (off c) lsb size = Some (enc els') ∧
    shifting els n a c a els'.
Proof.
  intros Hn Hh. induction fuel as [|fuel IH]; intros b cur Hsh Hf; [lia|].
  cbn [shift_into]. rewrite off_eqb. destruct (Nat.eqb_spec b a) as [->|Hne]; [by exists cur|].
  pose proof (sh_path _ _ _ _ _ _ Hsh) as Hp. pose proof (sh_bc _ _ _ _ _ _ Hsh) as Hbc.
  apply rtc_inv_r in Hp as [->|(p & Hp & Hlc)]; [done|]. pose proof Hlc as (Hc & Hbn & _).
  pose proof (child_parent _ _ Hc) as [_ Hpb].
  rewrite (parent_child p) by (done || lia).
  rewrite do_swap_elements by (apply (sh_sized _ _ _ _ _ _ Hsh) || lia). cbn [mbind option_bind].
  pose proof (path_le _ _ _ _ Hp). apply IH; [by eapply shifting_step|lia].
Qed.

(** One pass: a heap from [a + 1] on becomes a heap from [a] on. *)
Lemma sift_heap els n a : sized els → (a < n ≤ num)%nat → heap (S a) n els →
  ∃ els', sift cmp cfg f (S num) (enc els) (off a) (off n) lsb size = Some (enc els') ∧
    sized els' ∧ els' ≡ₚ els ∧ heap a n els' ∧ (∀ k, (n ≤ k)%nat → els' !!! k = els !!! k) ∧
    ∀ P : bytes → Prop, (∀ k, (k < n)%nat → P (els !!! k)) → ∀ k, (k < n)%nat → P (els' !!! k).
Proof.
  intros Hs Hn Hh. unfold sift.
  destruct (sift_down_path els n Hs ltac:(lia) (S num) a) as (b & -> & Hp & Hleaf); [lia|lia|].
  pose proof (path_lt _ _ _ _ Hp ltac:(lia)). cbn [mbind option_bind].
  destruct (backtrack_place els n a Hs ltac:(lia) ltac:(lia) (S num) b) as (k & -> & Hpk & Hk & Hv);
    [done|intros j Hj Hjn; unfold child in Hj; lia|lia|]. cbn [mbind option_bind].
  pose proof (path_lt _ _ _ _ Hpk ltac:(lia)).
  destruct (shift_into_place els n a k Hn Hh (S num) k els) as (els' & -> & Hsh);
    [by apply shifting_start|lia|].
  exists els'. destruct Hsh as [Hs' Hperm _ _ Hhole _ Hout Hall _ Hheap].
  split_and!; try done. rewrite decide_True in Hheap by done.
  rewrite list_insert_id in Hheap; [done|]. rewrite <-Hhole. destruct Hs' as [_ Hl].
  apply list_lookup_lookup_total_lt. lia.
Qed.

(** ** The loop *)

(** The first invariant of the code's comment, the second, and what links them. *)
Record sorting (els : list bytes) (a n : nat) (cur : list bytes) : Prop := {
  so_sized : sized cur;
  so_perm : cur ≡ₚ els;
  so_bounds : (a ≤ n ≤ num)%nat ∧ (0 < n)%nat;
  so_heap : heap a n cur;
  so_sorted i j : (n ≤ i < j)%nat → (j < num)%nat → ge (cur !!! j) (cur !!! i);
  so_split i j : (i < n ≤ j)%nat → (j < num)%nat → ge (cur !!! j) (cur !!! i);
}.

Lemma heap_root n els : heap 0 n els → ∀ i, (i < n)%nat → ge (els !!! 0%nat) (els !!! i).
Proof.
  intros Hh i. induction (Nat.lt_wf_0 i) as [i _ IH]. intros Hi.
  destruct (decide (i = 0)%nat) as [->|]; [apply ge_refl|].
  assert (child ((i - 1) / 2) i) as Hc.
  { unfold child. pose proof (Nat.div_mod (i - 1) 2 ltac:(lia)). pose proof (Nat.mod_upper_bound (i - 1) 2). lia. }
  pose proof (child_parent _ _ Hc) as [_ Hlt]. 
  apply (ge_trans _ (els !!! ((i - 1) / 2)%nat)); [apply IH; lia|]. apply Hh; [lia|done|done].
Qed.

(** Building the heap: the element before [a] is sifted. *)
Lemma sorting_build els a cur : sorting els (S a) num cur →
  ∃ cur', sift cmp cfg f (S num) (enc cur) (off a) (off num) lsb size = Some (enc cur') ∧
    sorting els a num cur'.
Proof.
  intros [Hs Hperm [Hb Hpos] Hheap _ _].
  destruct (sift_heap cur num a Hs ltac:(lia) Hheap) as (cur' & -> & Hs' & Hp' & Hh' & _ & _).
  exists cur'. split; [done|]. split; [done|by rewrite Hp'|lia|done|intros; lia|intros; lia].
Qed.

(** Sorting: the root goes to the end of the heap. *)
Lemma sorting_extract els n cur : sorting els 0 (S n) cur → (0 < n)%nat →
  ∃ mem cur', do_swap cfg (enc cur) 0 (off n) size f = Some mem ∧
    sift cmp cfg f (S num) mem 0 (off n) lsb size = Some (enc cur') ∧ sorting els 0 n cur'.
Proof.
  intros [Hs Hperm [Hb Hpos] Hheap Hsorted Hsplit] Hn. pose proof Hs as [_ Hl].
  pose proof (heap_root _ _ Hheap) as Hroot.
  exists (enc (swapped cur 0 n)).
  pose proof (do_swap_elements cur 0 n Hs ltac:(lia)) as Hsw. change (off 0) with 0 in Hsw.
  assert (∀ k, swapped cur 0 n !!! k = if decide (k = 0)%nat then cur !!! n
    else if decide (k = n) then cur !!! 0%nat else cur !!! k) as Hlk.
  { intros k. apply swapped_lookup; lia. }
  destruct (sift_heap (swapped cur 0 n) n 0) as (cur' & Hsift & Hs' & Hp' & Hh' & Hout & Hall).
  { apply sized_swapped; [done|lia|lia]. }
  { lia. }
  { intros i j Hi Hc Hj. pose proof (child_parent _ _ Hc) as [_ Hij].
    rewrite !Hlk, !decide_False by lia. apply Hheap; [lia|done|lia]. }
  exists cur'. split; [done|]. split; [exact Hsift|].
  assert (∀ j, (n ≤ j)%nat → cur' !!! j = if decide (j = n) then cur !!! 0%nat else cur !!! j) as Hend.
  { intros j Hj. rewrite Hout, Hlk, decide_False by lia. done. }
  split; [done|rewrite Hp', <-Hperm; apply swapped_perm; lia|lia|done| |].
  - intros i j Hij Hj. rewrite !Hend by lia. rewrite (decide_False (P := j = n)) by lia.
    destruct (decide (i = n)); [apply Hsplit; lia|apply Hsorted; lia].
  - intros i j Hij Hj. rewrite (Hend j) by lia.
    apply (Hall (λ x, ge (if decide (j = n) then cur !!! 0%nat else cur !!! j) x)); [|lia].
    intros k Hk. rewrite Hlk. rewrite (decide_False (P := k = n)) by lia.
    destruct (decide (j = n)) as [->|]; destruct (decide (k = 0)%nat); [apply Hroot; lia..| |];
      apply Hsplit; lia.
Qed.

Lemma sort_loop_sorts els : ∀ fuel a n cur, sorting els a n cur → a = 0%nat ∨ n = num →
  (a + n < fuel)%nat →
  ∃ cur', sort_loop cmp cfg f fuel num (enc cur) (off a) (off n) lsb size = Some (enc cur') ∧
    sorting els 0 1 cur'.
Proof.
  induction fuel as [|fuel IH]; intros a n cur Hso Han Hf; [lia|].
  cbn [sort_loop]. change 0 with (off 0) at 1. rewrite off_eqb.
  destruct a as [|a]; cbn [Nat.eqb negb].
  - destruct n as [|n]; [by destruct (so_bounds _ _ _ _ Hso); lia|].
    replace (off (S n) - size) with (off n) by lia. change 0 with (off 0) at 1. rewrite off_eqb.
    destruct (Nat.eqb_spec n 0) as [->|Hn]; cbn [negb]; [by exists cur|].
    destruct (sorting_extract els n cur Hso ltac:(lia)) as (mem & cur' & -> & Hsift & Hso').
    cbn [mbind option_bind]. change (off 0) with 0. rewrite Hsift. cbn [mbind option_bind].
    apply (IH 0%nat n cur'); [done|auto|lia].
  - destruct Han as [?| ->]; [done|].
    replace (off (S a) - size) with (off a) by lia.
    destruct (sorting_build els a cur Hso) as (cur' & -> & Hso'). cbn [mbind option_bind].
    apply IH; [done|auto|lia].
Qed.

End elements.

Lemma sorted_lookup (R : bytes → bytes → Prop) (els : list bytes) :
  (∀ i j, (i < j < length els)%nat → R (els !!! i) (els !!! j)) → StronglySorted R els.
Proof.
  induction els as [|x els IH]; intros HR; constructor.
  - apply IH. intros i j Hij. apply (HR (S i) (S j)). simpl. lia.
  - apply Forall_lookup. intros j y Hj. pose proof (lookup_lt_Some _ _ _ Hj).
    specialize (HR 0%nat (S j) ltac:(simpl; lia)).
    by rewrite (list_lookup_total_correct (x :: els) (S j) y Hj) in HR.
Qed.

(** The whole function. *)
Lemma sort_correct cmp `{!Ordering cmp} cfg els size swap_func :
  0 < size < 2 ^ 32 → Forall (λ x, zlen x = size) els →
  Z.of_nat (length els) * size < 2 ^ 60 →
  (∀ f, swap_func = Some f → size < 2 ^ 31 ∧ swaps size f) →
  ∃ els', sort cmp cfg (enc els) (length els) size swap_func = Some (enc els') ∧
    els' ≡ₚ els ∧ StronglySorted (λ x y, 0 ≤ cmp y x) els'.
Proof.
  intros Hsize Hels Hnum Hswap. set (num := length els) in *. unfold sort, sort_r.
  change (call_cmp (_CMP_WRAPPER cmp)) with cmp.
  assert (∀ k, (k ≤ num)%nat → w64 (Z.of_nat k * size) = Z.of_nat k * size) as Hw.
  { intros k Hk. apply (off_w64 size num Hsize Hnum). lia. }
  rewrite (Hw num) by done. change 2 with (Z.of_nat 2). rewrite <-Nat2Z.inj_div.
  rewrite Hw by (apply Nat.Div0.div_le_upper_bound; lia).
  destruct (Z.eqb_spec (Z.of_nat (num / 2) * size) 0) as [Hz|Hnz].
  { exists els. split_and!; [done|done|]. apply sorted_lookup. intros i j Hij.
    assert (num / 2 = 0)%nat by nia. pose proof (Nat.div_small_iff num 2). lia. }
  match goal with |- context [sort_loop cmp cfg ?g] => set (f := g) end.
  assert (swap_fits size f) as Hfits.
  { unfold f. destruct swap_func as [g|]; [by apply Hswap|].
    destruct (is_aligned cfg size 8) eqn:H8; [by apply (is_aligned_multiple cfg size 3)|].
    destruct (is_aligned cfg size 4) eqn:H4; [by apply (is_aligned_multiple cfg size 2)|done]. }
  clearbody f. assert (num / 2 ≤ num)%nat by (apply Nat.Div0.div_le_upper_bound; lia).
  assert (0 < num / 2)%nat by (destruct (num / 2)%nat; [done|lia]).
  destruct (sort_loop_sorts cmp size cfg f num Hsize Hfits Hnum els (S (num + num)) (num / 2) num els)
    as (els' & -> & Hso); [|by right|lia|].
  - split; [done|done|lia| |intros; lia|intros; lia].
    intros i j Hi Hc Hj. unfold child in Hc. pose proof (Nat.div_mod num 2 ltac:(lia)).
    pose proof (Nat.mod_upper_bound num 2). lia.
  - exists els'. split; [done|]. split; [apply (so_perm _ _ _ _ _ _ _ Hso)|].
    apply sorted_lookup. destruct Hso as [[_ Hl] _ _ _ Hsorted Hsplit]. intros i j Hij.
    destruct i as [|i]; [apply Hsplit; lia|apply Hsorted; lia].
Qed.

(** C35: [sort] returns, with an array that holds the same elements in the order of
    the comparison function, for every element size below 2^32 ([lsbit] has 32 bits),
    every alignment and configuration, and with the swap function of the caller if there
    is one, for which the size has to be an [int] as well.  The array has less than 2^60
    bytes. *)
Theorem sort_sorts cmp `{!Ordering cmp} cfg els size swap_func :
  0 < size < 2 ^ 32 → Forall (λ x, zlen x = size) els →
  Z.of_nat (length els) * size < 2 ^ 60 →
  (∀ f, swap_func = Some f → size < 2 ^ 31 ∧ swaps size f) →
  ∃ els', sort cmp cfg (enc els) (length els) size swap_func = Some (enc els') ∧
    els' ≡ₚ els ∧ StronglySorted (λ x y, 0 ≤ cmp y x) els'.
Proof. by apply sort_correct. Qed.

(** ** [bsearch] *)

(** [base] and the result are offsets in the array; [None] as a result is
    [NULL]. *)
Fixpoint bsearch_loop (cmp : bytes → Z) (fuel : nat) (mem : bytes) (base num size : Z) :
    option (option Z) :=
  match fuel with
  | O => None
  | S fuel =>
      if 0 <? num then
        let pivot := base + Z.shiftr num 1 * size in
        x ← load mem pivot size;
        let result := cmp x in
        if result =? 0 then Some (Some pivot)
        else
          let '(base, num) := if 0 <? result then (pivot + size, num - 1) else (base, num) in
          bsearch_loop cmp fuel mem base (Z.shiftr num 1) size
      else Some None
  end.

(** [cmp] compares the key with an element. *)
Definition bsearch (cmp : bytes → Z) (base : bytes) (num : nat) (size : Z) : option (option Z) :=
  bsearch_loop cmp (S num) base 0 (Z.of_nat num) size.

(** The array is in ascending order as seen from the key. *)
Definition ascending (cmp : bytes → Z) (els : list bytes) : Prop :=
  ∀ i j x y, (i < j)%nat → els !! i = Some x → els !! j = Some y →
    (0 < cmp y → 0 < cmp x) ∧ (cmp x < 0 → cmp y < 0).

Lemma shiftr_half n : Z.shiftr (Z.of_nat n) 1 = Z.of_nat (n / 2).
Proof. rewrite Z.shiftr_div_pow2 by done. by rewrite Nat2Z.inj_div. Qed.

Lemma bsearch_loop_finds cmp els size : 0 < size < 2 ^ 32 → Forall (λ x, zlen x = size) els →
  ascending cmp els →
  ∀ fuel lo n, (lo + n ≤ length els)%nat → (n < fuel)%nat →
  (∀ i x, els !! i = Some x → cmp x = 0 → (lo ≤ i < lo + n)%nat) →
  (∃ i x, bsearch_loop cmp fuel (enc els) (Z.of_nat lo * size) (Z.of_nat n) size =
      Some (Some (Z.of_nat i * size)) ∧ els !! i = Some x ∧ cmp x = 0) ∨
  (bsearch_loop cmp fuel (enc els) (Z.of_nat lo * size) (Z.of_nat n) size = Some None ∧
    ∀ i x, els !! i = Some x → cmp x ≠ 0).
Proof.
  intros Hsize Hels Hasc. induction fuel as [|fuel IH]; intros lo n Hn Hf Hin; [lia|].
  cbn [bsearch_loop]. destruct (Z.ltb_spec 0 (Z.of_nat n)) as [Hpos|].
  2: { right. split; [done|]. intros i x Hi Hx. specialize (Hin i x Hi Hx). lia. }
  assert (n / 2 < n)%nat as Hh by (apply Nat.div_lt; lia). set (h := (n / 2)%nat) in *.
  rewrite shiftr_half. fold h.
  replace (Z.of_nat lo * size + Z.of_nat h * size) with (Z.of_nat (lo + h) * size) by lia.
  destruct (lookup_lt_is_Some_2 els (lo + h)) as [x Hx]; [lia|].
  rewrite (load_element size (length els) els (lo + h) x) by done. cbn [mbind option_bind].
  destruct (Z.eqb_spec (cmp x) 0) as [Hc|Hc]; [left; by exists (lo + h)%nat, x|].
  destruct (Z.ltb_spec 0 (cmp x)) as [Hgt|Hle].
  - replace (Z.of_nat (lo + h) * size + size) with (Z.of_nat (lo + h + 1) * size) by lia.
    replace (Z.of_nat n - 1) with (Z.of_nat (n - 1)) by lia. rewrite shiftr_half.
    assert ((n - 1) / 2 = n - h - 1)%nat as ->.
    { unfold h. pose proof (Nat.div_mod n 2 ltac:(lia)). pose proof (Nat.mod_upper_bound n 2).
      symmetry. apply (Nat.div_unique _ _ _ (1 - n mod 2)); lia. }
    apply IH; [lia|lia|]. intros i y Hi Hy. specialize (Hin i y Hi Hy).
    destruct (decide (lo + h < i)%nat); [lia|].
    destruct (decide (i = lo + h)%nat) as [->|]; [simplify_eq; lia|].
    destruct (Hasc i (lo + h)%nat y x) as [Hup _]; [lia|done|done|]. specialize (Hup Hgt). lia.
  - rewrite shiftr_half. fold h. apply IH; [lia|lia|]. intros i y Hi Hy. specialize (Hin i y Hi Hy).
    destruct (decide (i < lo + h)%nat); [lia|].
    destruct (decide (i = lo + h)%nat) as [->|]; [simplify_eq; lia|].
    destruct (Hasc (lo + h)%nat i x y) as [_ Hdown]; [lia|done|done|].
    specialize (Hdown ltac:(lia)). lia.
Qed.

(** On an array in ascending order [bsearch] returns the address of an element
    equal to the key, or [NULL] exactly when there is none, and reads only whole
    elements of the array. *)
Theorem bsearch_finds cmp els size : 0 < size < 2 ^ 32 → Forall (λ x, zlen x = size) els →
  ascending cmp els →
  (∃ i x, bsearch cmp (enc els) (length els) size = Some (Some (Z.of_nat i * size)) ∧
    els !! i = Some x ∧ cmp x = 0) ∨
  (bsearch cmp (enc els) (length els) size = Some None ∧ ∀ i x, els !! i = Some x → cmp x ≠ 0).
Proof.
  intros Hsize Hels Hasc. apply (bsearch_loop_finds cmp els size Hsize Hels Hasc _ 0); [done|lia|].
  intros i x Hi _. apply lookup_lt_Some in Hi. lia.
Qed.

(** ** Witnesses *)

(** The order of the first bytes. *)
Definition cmp_first (x y : bytes) : Z := hd 0 x - hd 0 y.

#[export] Instance cmp_first_ordering : Ordering cmp_first.
Proof. unfold cmp_first. split; intros; lia. Qed.

Lemma sort_sorts_witness :
  ∃ els', sort cmp_first {| CONFIG_64BIT := false; CONFIG_HAVE_EFFICIENT_UNALIGNED_ACCESS := false;
      base_addr := 4096 |} (enc [[3; 0; 0; 1]; [1; 9; 9; 9]; [2; 0; 0; 0]; [1; 8; 8; 8]]) 4 4 None =
    Some (enc els') ∧ els' ≡ₚ [[3; 0; 0; 1]; [1; 9; 9; 9]; [2; 0; 0; 0]; [1; 8; 8; 8]] ∧
    StronglySorted (λ x y, 0 ≤ cmp_first y x) els'.
Proof.
  apply (sort_sorts cmp_first _ [[3; 0; 0; 1]; [1; 9; 9; 9]; [2; 0; 0; 0]; [1; 8; 8; 8]] 4 None);
    [vm_decide|vm_decide|vm_decide|intros f Hf; discriminate Hf].
Defined.

Lemma bsearch_finds_witness :
  (∃ i x, bsearch (cmp_first [5]) (enc [[1]; [3]; [5]; [7]]) 4 1 = Some (Some (Z.of_nat i * 1)) ∧
    [[1]; [3]; [5]; [7]] !! i = Some x ∧ cmp_first [5] x = 0) ∨
  (bsearch (cmp_first [5]) (enc [[1]; [3]; [5]; [7]]) 4 1 = Some None ∧
    ∀ i x, [[1]; [3]; [5]; [7]] !! i = Some x → cmp_first [5] x ≠ 0).
Proof.
  apply (bsearch_finds (cmp_first [5]) [[1]; [3]; [5]; [7]] 1); [vm_decide|vm_decide|].
  intros [|[|[|[|i]]]] [|[|[|[|j]]]] x y Hij Hx Hy; simplify_eq/=; try lia; unfold cmp_first; cbn [hd]; lia.
Defined.

End KSort.
