(* ===== verification/KRange.v ===== *)
(** * Sets of address ranges, [kernel/range.c]

    An array of ranges [start, end); a slot whose [end] is 0 is free.  The routines
    add a range, with or without merging, subtract one, and compact and sort the
    array with [sort] of [lib/sort.c].

    The array is a list; an access outside it is [None].  What an array means is
    the set of addresses that it covers.  [RangeSorter] is what the routines rely
    on in [sort]; the heapsort on the bytes of the array is its instance. *)
From stdpp Require Import base numbers sets strings sorting list.
From S2P Require Import Prelude KString KSort.

Module KRange.
Local Open Scope Z_scope.

Record range := Range { start : Z; end_ : Z }.

#[export] Instance range_eq_dec : EqDecision range.
Proof. solve_decision. Defined.
#[export] Instance range_inhabited : Inhabited range := populate (Range 0 0).

Definition put (l : list range) (i : nat) (r : range) : option (list range) :=
  if decide (i < length l)%nat then Some (<[i := r]> l) else None.

(** ** Adding *)

(** The array and the number of ranges. *)
Definition add_range (range : list range) (az nr_range : nat) (start end_ : Z) :
    option (list KRange.range * nat) :=
  if end_ <=? start then Some (range, nr_range)
  else if (az <=? nr_range)%nat then Some (range, nr_range)
  else
    range ← put range nr_range (Range start end_);
    Some (range, S nr_range).

(** [memmove(&range[i], &range[i + 1], (nr_range - (i + 1)) * sizeof(range[i]))] *)
Definition move_down (l : list range) (i nr_range : nat) : option (list range) :=
  if decide (nr_range ≤ length l)%nat then
    Some (take i l ++ drop (S i) (take nr_range l) ++ drop (nr_range - 1) l)
  else None.

(** The loop over the ranges; when one is merged the next one has moved to its
    place.  [fuel] is at least the number of ranges left. *)
Fixpoint merge_loop (fuel : nat) (l : list range) (nr_range i : nat) (s e : Z) :
    option (list range * nat * Z * Z) :=
  match fuel with
  | O => Some (l, nr_range, s, e)
  | S fuel =>
      if (i <? nr_range)%nat then
        r ← l !! i;
        if end_ r =? 0 then merge_loop fuel l nr_range (S i) s e
        else
          let common_start := Z.max (start r) s in
          let common_end := Z.min (end_ r) e in
          if common_end <? common_start then merge_loop fuel l nr_range (S i) s e
          else
            let s := Z.min (start r) s in
            let e := Z.max (end_ r) e in
            l ← move_down l i nr_range;
            l ← put l (nr_range - 1) (Range 0 0);
            merge_loop fuel l (nr_range - 1) i s e
      else Some (l, nr_range, s, e)
  end.

Definition add_range_with_merge (range : list range) (az nr_range : nat) (start end_ : Z) :
    option (list KRange.range * nat) :=
  if end_ <=? start then Some (range, nr_range)
  else
    r ← merge_loop nr_range range nr_range 0 start end_;
    let '(range, nr_range, start, end_) := (r : list KRange.range * nat * Z * Z) in
    add_range range az nr_range start end_.

(** ** Subtracting *)

Fixpoint find_spare (l : list range) (i n : nat) : option nat :=
  match n with
  | O => Some i
  | S n => r ← l !! i; if end_ r =? 0 then Some i else find_spare l (S i) n
  end.

(** One pass of the loop: the array and whether the message was printed. *)
Definition subtract_at (l : list range) (az j : nat) (s e : Z) : option (list range * bool) :=
  r ← l !! j;
  if end_ r =? 0 then Some (l, false)
  else if (s <=? start r) && (end_ r <=? e) then l ← put l j (Range 0 0); Some (l, false)
  else if (s <=? start r) && (e <? end_ r) && (start r <? e) then
    l ← put l j (Range e (end_ r)); Some (l, false)
  else if (start r <? s) && (end_ r <=? e) && (s <? end_ r) then
    l ← put l j (Range (start r) s); Some (l, false)
  else if (start r <? s) && (e <? end_ r) then
    i ← find_spare l 0 az;
    l' ← (if (i <? az)%nat then l ← put l i (Range e (end_ r)); Some (l, false)
          else Some (l, true));
    let '(l, msg) := (l' : list range * bool) in
    l ← put l j (Range (start r) s);
    Some (l, msg)
  else Some (l, false).

Fixpoint subtract_loop (n : nat) (l : list range) (az j : nat) (s e : Z) :
    option (list range * bool) :=
  match n with
  | O => Some (l, false)
  | S n =>
      r ← subtract_at l az j s e;
      let '(l, msg) := (r : list range * bool) in
      r ← subtract_loop n l az (S j) s e;
      let '(l, msg') := (r : list range * bool) in
      Some (l, msg || msg')
  end.

Definition subtract_range (range : list range) (az : nat) (start end_ : Z) :
    option (list KRange.range * bool) :=
  if end_ <=? start then Some (range, false) else subtract_loop az range az 0 start end_.

(** ** Compacting and sorting *)

Definition cmp_range (r1 r2 : range) : Z :=
  if start r1 <? start r2 then -1 else if start r2 <? start r1 then 1 else 0.

(** [for (j = k; j > i; j--) if (range[j].end) { k = j; break; }]; the [j] at the
    end; [n] is [k - i]. *)
Fixpoint last_used (l : list range) (j n : nat) : option nat :=
  match n with
  | O => Some j
  | S n => r ← l !! j; if negb (end_ r =? 0) then Some j else last_used l (j - 1) n
  end.

Fixpoint clean_loop (fuel : nat) (l : list range) (i k : nat) : option (list range) :=
  match fuel with
  | O => Some l
  | S fuel =>
      if (i <? k)%nat then
        r ← l !! i;
        if negb (end_ r =? 0) then clean_loop fuel l (S i) k
        else
          j ← last_used l k (k - i);
          if (j =? i)%nat then Some l
          else
            let k := j in
            r ← l !! k;
            l ← put l i r;
            l ← put l k (Range 0 0);
            clean_loop fuel l (S i) (k - 1)
      else Some l
  end.

(** [sort] on an array of ranges: what the routines of this file rely on. *)
Definition u64_range (r : range) : Prop := 0 ≤ start r < 2 ^ 64 ∧ 0 ≤ end_ r < 2 ^ 64.

Class RangeSorter := {
  sort_ranges : (range → range → Z) → list range → option (list range);
  sort_ranges_sorts l : Forall u64_range l → Z.of_nat (length l) < 2 ^ 31 →
    ∃ l', sort_ranges cmp_range l = Some l' ∧ l' ≡ₚ l ∧ StronglySorted (λ x y, start x ≤ start y) l';
}.

Section sorter.
Context `{RangeSorter}.

(** [sort(range, nr_range, sizeof(struct range), cmp_range, NULL)] sorts the first
    slots. *)
Definition sort_first (l : list range) (n : nat) : option (list range) :=
  s ← sort_ranges cmp_range (take n l);
  Some (s ++ drop n l).

(** The array and the number of ranges. *)
Definition clean_sort_range (range : list range) (az : nat) : option (list KRange.range * nat) :=
  range ← clean_loop az range 0 (az - 1);
  nr_range ← find_spare range 0 az;
  range ← sort_first range nr_range;
  Some (range, nr_range).

Definition sort_range (range : list range) (nr_range : nat) : option (list KRange.range) :=
  sort_first range nr_range.

End sorter.
(** ** What an array covers *)

Definition in_range (r : range) (x : Z) : Prop := end_ r ≠ 0 ∧ start r ≤ x < end_ r.

Definition covered (l : list range) (x : Z) : Prop := Exists (λ r, in_range r x) l.

Lemma covered_app k l x : covered (k ++ l) x ↔ covered k x ∨ covered l x.
Proof. apply Exists_app. Qed.

Lemma covered_cons r l x : covered (r :: l) x ↔ in_range r x ∨ covered l x.
Proof. apply Exists_cons. Qed.

Lemma covered_nil x : covered [] x ↔ False.
Proof. apply Exists_nil. Qed.

Lemma covered_lookup l x : covered l x ↔ ∃ i r, l !! i = Some r ∧ in_range r x.
Proof.
  unfold covered. rewrite Exists_exists. split.
  - intros (r & [i Hi]%list_elem_of_lookup_1 & Hr). eauto.
  - intros (i & r & Hi%list_elem_of_lookup_2 & Hr). eauto.
Qed.

(** A used slot holds a range that is not empty. *)
Definition proper (r : range) : Prop := 0 ≤ start r ∧ (end_ r = 0 ∨ start r < end_ r).

(** Two ranges that neither overlap nor touch. *)
Definition apart_from (r : range) (s e : Z) : Prop := end_ r = 0 ∨ end_ r < s ∨ e < start r.

Definition separated : list range → Prop :=
  ForallOrdPairs (λ r q, end_ q = 0 ∨ apart_from r (start q) (end_ q)).

Lemma separated_remove A r k :
  separated (A ++ r :: k) → separated (A ++ k) ∧
    (end_ r ≠ 0 → Forall (λ q, apart_from q (start r) (end_ r)) (A ++ k)).
Proof.
  unfold separated. induction A as [|q A IH]; cbn [app]; intros Hs; inversion Hs as [|? ? Hq Hs']; subst.
  - split; [done|]. intros Hr. eapply Forall_impl; [exact Hq|]. intros q. unfold apart_from. cbn. lia.
  - destruct (IH Hs') as [Hk Hr]. apply Forall_app in Hq as [HqA Hqr]. apply Forall_cons in Hqr as [Hqr Hqk].
    split; [constructor; [by apply Forall_app|done]|]. intros Hne. constructor; [|by apply Hr].
    destruct Hqr; done.
Qed.

Lemma separated_snoc l r : separated l → Forall (λ q, apart_from q (start r) (end_ r)) l →
  separated (l ++ [r]).
Proof.
  unfold separated. induction 1 as [|q l Hq Hl IH]; intros Hf; cbn [app].
  - repeat constructor.
  - apply Forall_cons in Hf as [Hqr Hf]. constructor; [|by apply IH].
    apply Forall_app. split; [done|]. constructor; [by right|constructor].
Qed.

(** Removing a slot from the used part of the array. *)
Lemma remove_slot l nr i r : (nr ≤ length l)%nat → (i < nr)%nat → l !! i = Some r →
  ∃ l', (l1 ← move_down l i nr; put l1 (nr - 1) (Range 0 0)) = Some l' ∧
    length l' = length l ∧ take nr l = take i l ++ r :: drop (S i) (take nr l) ∧
    take (nr - 1) l' = take i l ++ drop (S i) (take nr l) ∧ take i l' = take i l.
Proof.
  intros Hnr Hi Hr. unfold move_down. rewrite decide_True by done. cbn [mbind option_bind].
  set (rest := drop (S i) (take nr l)).
  assert (length (take i l ++ rest) = nr - 1)%nat as Hlen.
  { unfold rest. rewrite length_app, length_drop, !length_take. lia. }
  assert (take i (take i l ++ rest) = take i l) as Hti.
  { rewrite take_app_le by (rewrite length_take; lia). by rewrite take_take, Nat.min_id. }
  unfold put. rewrite decide_True by (rewrite app_assoc, length_app, Hlen, length_drop; lia).
  eexists. split; [done|]. rewrite app_assoc, insert_app_r_alt, Hlen, Nat.sub_diag by lia.
  split_and!.
  - rewrite length_app, Hlen, length_insert, length_drop. lia.
  - unfold rest. rewrite <-(take_drop_middle (take nr l) i r) at 1 by (by rewrite lookup_take_lt).
    by rewrite take_take, Nat.min_l by lia.
  - by rewrite take_app_length'.
  - rewrite take_app_le by lia. done.
Qed.

(** ** Merging *)

(** The loop keeps the union of the ranges and the new one; if the ranges were
    separated, they stay so, and what is left is apart from the new one. *)
Lemma merge_loop_union fuel : ∀ l nr i s e,
  (nr ≤ length l)%nat → (i ≤ nr)%nat → (nr - i ≤ fuel)%nat → 0 ≤ s < e →
  Forall proper (take nr l) →
  ∃ l' nr' s' e', merge_loop fuel l nr i s e = Some (l', nr', s', e') ∧
    length l' = length l ∧ (nr' ≤ nr)%nat ∧ 0 ≤ s' < e' ∧ Forall proper (take nr' l') ∧
    (∀ x, covered (take nr' l') x ∨ s' ≤ x < e' ↔ covered (take nr l) x ∨ s ≤ x < e) ∧
    (separated (take nr l) → Forall (λ r, apart_from r s e) (take i l) →
      separated (take nr' l') ∧ Forall (λ r, apart_from r s' e') (take nr' l')).
Proof.
  induction fuel as [|fuel IH]; intros l nr i s e Hnr Hi Hfuel Hse Hprop; cbn [merge_loop].
  { assert (i = nr) as -> by lia. exists l, nr, s, e. split_and!; done || lia. }
  destruct (Nat.ltb_spec i nr) as [Hlt|]; [|assert (i = nr) as -> by lia; exists l, nr, s, e; split_and!; done || lia].
  destruct (lookup_lt_is_Some_2 l i) as [r Hr]; [lia|]. rewrite Hr. cbn [mbind option_bind].
  assert (proper r) as Hpr.
  { rewrite Forall_lookup in Hprop. apply (Hprop i). by rewrite lookup_take_lt. }
  assert (apart_from r s e → ∃ l' nr' s' e', merge_loop fuel l nr (S i) s e = Some (l', nr', s', e') ∧
    length l' = length l ∧ (nr' ≤ nr)%nat ∧ 0 ≤ s' < e' ∧ Forall proper (take nr' l') ∧
    (∀ x, covered (take nr' l') x ∨ s' ≤ x < e' ↔ covered (take nr l) x ∨ s ≤ x < e) ∧
    (separated (take nr l) → Forall (λ r, apart_from r s e) (take i l) →
      separated (take nr' l') ∧ Forall (λ r, apart_from r s' e') (take nr' l'))) as Hnext.
  { intros Ha. destruct (IH l nr (S i) s e) as (l' & nr' & s' & e' & H1 & H2 & H3 & H4 & H5 & H6 & H7);
      [done|lia|lia|done|done|]. exists l', nr', s', e'. split_and!; try done || lia.
    intros Hsep Hap. apply H7; [done|]. rewrite (take_S_r _ _ r) by done.
    apply Forall_app. split; [done|]. by constructor. }
  destruct (Z.eqb_spec (end_ r) 0) as [He|He]; [apply Hnext; by left|].
  destruct (Z.ltb_spec (Z.min (end_ r) e) (Z.max (start r) s)) as [Hap|Htouch].
  { apply Hnext. unfold apart_from. destruct Hpr as [? [?|?]]; lia. }
  destruct (remove_slot l nr i r Hnr Hlt Hr) as (l1 & Hl1 & Hlen & Hsplit & Hrest & Hhead).
  set (k := drop (S i) (take nr l)) in *. clearbody k.
  destruct (move_down l i nr) as [l0|]; [|done]. cbn [mbind option_bind] in Hl1 |- *.
  rewrite Hl1. cbn [mbind option_bind]. rewrite Hsplit in Hprop.
  destruct Hpr as [Hs0 [?|Hpr]]; [done|].
  apply Forall_app in Hprop as [HpA Hpr']. apply Forall_cons in Hpr' as [_ Hpk].
  destruct (IH l1 (nr - 1)%nat i (Z.min (start r) s) (Z.max (end_ r) e))
    as (l' & nr' & s' & e' & H1 & H2 & H3 & H4 & H5 & H6 & H7);
    [lia|lia|lia|lia|rewrite Hrest; by apply Forall_app|].
  exists l', nr', s', e'. split_and!; [done|lia|lia|lia|lia|done| |].
  - intros x. rewrite H6, Hrest, Hsplit, !covered_app, covered_cons. unfold in_range.
    assert (Z.min (start r) s ≤ x < Z.max (end_ r) e ↔
      (end_ r ≠ 0 ∧ start r ≤ x < end_ r) ∨ s ≤ x < e) as -> by lia. tauto.
  - rewrite Hsplit. intros Hsep Hap. apply separated_remove in Hsep as [Hsep Hr'].
    apply H7; [by rewrite Hrest|]. rewrite Hhead. specialize (Hr' He).
    apply Forall_app in Hr' as [HrA _]. rewrite Forall_forall in Hap, HrA |- *.
    rewrite Forall_forall in HpA. intros q Hq. specialize (Hap q Hq). specialize (HrA q Hq).
    destruct (HpA q Hq) as [? Hq']. unfold apart_from in *. lia.
Qed.

(** Adding a range with merging makes the array cover exactly what it covered
    and the new range, provided a slot is free, and keeps the ranges separated:
    none overlaps or touches another. *)
Theorem add_range_with_merge_covers l az nr s e :
  (nr < az ≤ length l)%nat → 0 ≤ s → Forall proper (take nr l) →
  ∃ l' nr', add_range_with_merge l az nr s e = Some (l', nr') ∧
    length l' = length l ∧ (nr' ≤ az)%nat ∧ Forall proper (take nr' l') ∧
    (∀ x, covered (take nr' l') x ↔ covered (take nr l) x ∨ s ≤ x < e) ∧
    (separated (take nr l) → separated (take nr' l')).
Proof.
  intros Hnr Hs Hprop. unfold add_range_with_merge. destruct (Z.leb_spec e s).
  { exists l, nr. split_and!; [done..|lia|done| |done]. intros x.
    assert (¬ s ≤ x < e) by lia. tauto. }
  destruct (merge_loop_union nr l nr 0 s e) as (l1 & nr1 & s1 & e1 & -> & H1 & H2 & H3 & H4 & H5 & H6);
    [lia..|done|]. cbn [mbind option_bind]. unfold add_range.
  rewrite (proj2 (Z.leb_gt _ _)), (proj2 (Nat.leb_gt _ _)) by lia.
  unfold put. rewrite decide_True by lia. cbn [mbind option_bind].
  assert (take (S nr1) (<[nr1 := Range s1 e1]> l1) = take nr1 l1 ++ [Range s1 e1]) as Htake.
  { rewrite (take_S_r _ _ (Range s1 e1)) by (apply list_lookup_insert_eq; lia).
    by rewrite take_insert_ge by done. }
  eexists _, _. split; [done|]. rewrite length_insert, Htake. split_and!; [done|lia| | |].
  - apply Forall_app. split; [done|]. constructor; [|done]. split; [cbn; lia|right; cbn; lia].
  - intros x. rewrite <-H5, covered_app, covered_cons, covered_nil. unfold in_range. cbn.
    assert (e1 ≠ 0) by lia. tauto.
  - intros Hsep. destruct (H6 Hsep) as [Hsep' Hap]; [constructor|]. by apply separated_snoc.
Qed.

(** ** Subtracting *)

(** What the slots other than [j] cover. *)
Definition covered_else (l : list range) (j : nat) (x : Z) : Prop :=
  ∃ i r, i ≠ j ∧ l !! i = Some r ∧ in_range r x.

Lemma covered_at l j r x : l !! j = Some r → covered l x ↔ in_range r x ∨ covered_else l j x.
Proof.
  intros Hj. rewrite covered_lookup. split.
  - intros (i & q & Hi & Hq). destruct (decide (i = j)) as [->|]; [left; by simplify_eq|]. right. by exists i, q.
  - intros [Hr|(i & q & _ & Hi & Hq)]; eauto.
Qed.

Lemma covered_else_insert l j r x : covered_else (<[j := r]> l) j x ↔ covered_else l j x.
Proof.
  unfold covered_else. split; intros (i & q & Hij & Hi & Hq); exists i, q; split_and!; try done.
  - by rewrite list_lookup_insert_ne in Hi.
  - by rewrite list_lookup_insert_ne.
Qed.

Lemma covered_insert l j r x : (j < length l)%nat →
  covered (<[j := r]> l) x ↔ in_range r x ∨ covered_else l j x.
Proof.
  intros Hj. rewrite (covered_at _ j r) by (by apply list_lookup_insert_eq).
  by rewrite covered_else_insert.
Qed.

(** A free slot that is filled. *)
Lemma covered_else_fill l i j q r x : i ≠ j → l !! i = Some q → end_ q = 0 →
  covered_else (<[i := r]> l) j x ↔ in_range r x ∨ covered_else l j x.
Proof.
  intros Hij Hq Hz. pose proof (lookup_lt_Some _ _ _ Hq). unfold covered_else. split.
  - intros (k & p & Hk & Hp & Hx). destruct (decide (k = i)) as [->|].
    + rewrite list_lookup_insert_eq in Hp by done. simplify_eq. by left.
    + rewrite list_lookup_insert_ne in Hp by done. right. by exists k, p.
  - intros [Hx|(k & p & Hk & Hp & Hx)]; [exists i, r; split_and!; [done|by apply list_lookup_insert_eq|done]|].
    exists k, p. split_and!; try done. rewrite list_lookup_insert_ne; [done|]. intros <-.
    simplify_eq. by destruct Hx.
Qed.

Lemma find_spare_spec l n : ∀ i, (i + n ≤ length l)%nat → ∃ k, find_spare l i n = Some k ∧
  (i ≤ k ≤ i + n)%nat ∧ (∀ j r, (i ≤ j < k)%nat → l !! j = Some r → end_ r ≠ 0) ∧
  ((k < i + n)%nat → ∃ r, l !! k = Some r ∧ end_ r = 0).
Proof.
  induction n as [|n IH]; intros i Hl; cbn [find_spare].
  { exists i. split_and!; [done|lia|lia|intros; lia|lia]. }
  destruct (lookup_lt_is_Some_2 l i) as [r Hr]; [lia|]. rewrite Hr. cbn [mbind option_bind].
  destruct (Z.eqb_spec (end_ r) 0).
  { exists i. split_and!; [done|lia|lia|intros; lia|eauto]. }
  destruct (IH (S i)) as (k & -> & Hk & Hused & Hfree); [lia|]. exists k. split_and!; [done|lia|lia| |].
  - intros j q Hj Hq. destruct (decide (j = i)) as [->|]; [by simplify_eq|]. apply (Hused j); [lia|done].
  - intros Hlt. apply Hfree. lia.
Qed.

Section subtract.
Variables (s e : Z).
Hypothesis Hse : 0 ≤ s < e.

(** The slots before [j] are outside the range that is subtracted. *)
Definition clear_to (j : nat) (l : list range) : Prop :=
  ∀ i r x, (i < j)%nat → l !! i = Some r → in_range r x → ¬ s ≤ x < e.

(** What one pass does: slot [j] is cleared, the addresses outside the range stay
    as they are, but for what the message tells. *)
Definition subtracted (j : nat) (l l' : list range) (msg : bool) : Prop :=
  length l' = length l ∧ Forall (λ r, 0 ≤ start r) l' ∧ (clear_to j l → clear_to (S j) l') ∧
  ∀ x, ¬ s ≤ x < e → (covered l' x → covered l x) ∧ (msg = false → covered l x → covered l' x).

(** Slot [j] gets another range, which covers what was outside. *)
Lemma subtracted_put j l r q : l !! j = Some r → Forall (λ r, 0 ≤ start r) l → 0 ≤ start q →
  (∀ x, in_range q x ↔ in_range r x ∧ ¬ s ≤ x < e) →
  put l j q = Some (<[j := q]> l) ∧ subtracted j l (<[j := q]> l) false.
Proof.
  intros Hr Hf Hq Hin. pose proof (lookup_lt_Some _ _ _ Hr) as Hj.
  split; [unfold put; by rewrite decide_True|]. split_and!.
  - apply length_insert.
  - by apply Forall_insert.
  - intros Hc i p x Hi Hp Hx. destruct (decide (i = j)) as [->|].
    + rewrite list_lookup_insert_eq in Hp by done. simplify_eq. by apply Hin.
    + rewrite list_lookup_insert_ne in Hp by done. apply (Hc i p x); [lia|done|done].
  - intros x Hx. rewrite covered_insert, (covered_at l j r), Hin by done. tauto.
Qed.

Lemma subtracted_same j l r : l !! j = Some r → Forall (λ r, 0 ≤ start r) l →
  (∀ x, in_range r x → ¬ s ≤ x < e) → subtracted j l l false.
Proof.
  intros Hr Hf Hin. split_and!; [done|done| |done]. intros Hc i p x Hi Hp Hx.
  destruct (decide (i = j)) as [->|]; [simplify_eq; by apply Hin|]. apply (Hc i p x); [lia|done|done].
Qed.

(** Slot [j] is split; its upper part goes to the free slot [k], or is lost. *)
Lemma subtracted_split j k l r q : l !! j = Some r → l !! k = Some q → end_ q = 0 → end_ r ≠ 0 →
  Forall (λ r, 0 ≤ start r) l → start r < s → e < end_ r →
  subtracted j l (<[j := Range (start r) s]> (<[k := Range e (end_ r)]> l)) false.
Proof.
  intros Hr Hq Hz Hnz Hf Hs He. pose proof (lookup_lt_Some _ _ _ Hr). pose proof (lookup_lt_Some _ _ _ Hq).
  pose proof (proj1 (Forall_lookup _ _) Hf j r Hr) as Hr0. cbn in Hr0.
  assert (k ≠ j) as Hkj by (intros ->; by simplify_eq). split_and!.
  - by rewrite !length_insert.
  - by apply Forall_insert; [apply Forall_insert; [done|cbn; lia]|].
  - intros Hc i p x Hi Hp Hx. destruct (decide (i = j)) as [->|].
    + rewrite list_lookup_insert_eq in Hp by (by rewrite length_insert). simplify_eq.
      unfold in_range in Hx. cbn in Hx. lia.
    + rewrite list_lookup_insert_ne in Hp by done. destruct (decide (i = k)) as [->|].
      * rewrite list_lookup_insert_eq in Hp by done. simplify_eq. unfold in_range in Hx. cbn in Hx. lia.
      * rewrite list_lookup_insert_ne in Hp by done. apply (Hc i p x); [lia|done|done].
  - intros x Hx. rewrite covered_insert by (by rewrite length_insert).
    rewrite (covered_else_fill l k j q), (covered_at l j r) by done.
    assert (in_range r x ↔ in_range (Range (start r) s) x ∨ in_range (Range e (end_ r)) x) as ->; [|tauto].
    unfold in_range. cbn. lia.
Qed.

Lemma subtracted_lost j l r : l !! j = Some r → end_ r ≠ 0 →
  Forall (λ r, 0 ≤ start r) l → start r < s → e < end_ r →
  subtracted j l (<[j := Range (start r) s]> l) true.
Proof.
  intros Hr Hnz Hf Hs He. pose proof (lookup_lt_Some _ _ _ Hr).
  pose proof (proj1 (Forall_lookup _ _) Hf j r Hr) as Hr0. cbn in Hr0. split_and!.
  - apply length_insert.
  - by apply Forall_insert.
  - intros Hc i p x Hi Hp Hx. destruct (decide (i = j)) as [->|].
    + rewrite list_lookup_insert_eq in Hp by done. simplify_eq. unfold in_range in Hx. cbn in Hx. lia.
    + rewrite list_lookup_insert_ne in Hp by done. apply (Hc i p x); [lia|done|done].
  - intros x Hx. split; [|done]. rewrite covered_insert, (covered_at l j r) by done.
    intros [Hin|]; [left|by right]. unfold in_range in *. cbn in Hin. lia.
Qed.

Lemma subtract_at_subtracts l j r : l !! j = Some r → Forall (λ r, 0 ≤ start r) l →
  ∃ l' msg, subtract_at l (length l) j s e = Some (l', msg) ∧ subtracted j l l' msg ∧
    (msg = true → ∀ i q, l !! i = Some q → end_ q ≠ 0).
Proof.
  intros Hr Hf. unfold subtract_at. rewrite Hr. cbn [mbind option_bind].
  pose proof (proj1 (Forall_lookup _ _) Hf j r Hr) as Hr0. cbn in Hr0.
  destruct (Z.eqb_spec (end_ r) 0) as [Hz|Hnz].
  { exists l, false. split_and!; [done| |done]. eapply subtracted_same; [done|done|]. by intros x []. }
  assert (∀ q, 0 ≤ start q → (∀ x, in_range q x ↔ in_range r x ∧ ¬ s ≤ x < e) →
    ∃ l' msg, (l' ← put l j q; Some (l', false)) = Some (l', msg) ∧ subtracted j l l' msg ∧
      (msg = true → ∀ i q, l !! i = Some q → end_ q ≠ 0)) as Hput.
  { intros q Hq Hin. destruct (subtracted_put j l r q Hr Hf Hq Hin) as [-> Hsub]. cbn.
    eexists _, _. by split_and!. }
  destruct (s <=? start r) eqn:E1, (end_ r <=? e) eqn:E2, (e <? end_ r) eqn:E3,
    (start r <? e) eqn:E4, (start r <? s) eqn:E5, (s <? end_ r) eqn:E6;
    cbn [andb]; bool_to_prop; try (exfalso; lia);
    try (apply Hput; [cbn; lia|]; intros x; unfold in_range; cbn; lia);
    try (exists l, false; split_and!; [done| |done]; eapply subtracted_same; [done|done|]; unfold in_range; lia).
  pose proof (lookup_lt_Some _ _ _ Hr) as Hj.
  destruct (find_spare_spec l (length l) 0 ltac:(lia)) as (k & -> & Hk & Hused & Hfree).
  cbn [mbind option_bind]. destruct (Nat.ltb_spec k (length l)) as [Hlt|Hge].
  - destruct (Hfree Hlt) as (q & Hq & Hz). unfold put. rewrite decide_True by done.
    cbn [mbind option_bind]. rewrite decide_True by (by rewrite length_insert).
    cbn [mbind option_bind]. eexists _, _. split_and!; [done|by eapply subtracted_split|done].
  - cbn [mbind option_bind]. unfold put. rewrite decide_True by done. cbn [mbind option_bind].
    eexists _, _. split_and!; [done|by apply subtracted_lost|]. intros _ i q Hi.
    apply (Hused i); [|done]. apply lookup_lt_Some in Hi. lia.
Qed.

Lemma subtract_loop_subtracts n : ∀ l j, (j + n = length l)%nat → Forall (λ r, 0 ≤ start r) l →
  clear_to j l →
  ∃ l' msg, subtract_loop n l (length l) j s e = Some (l', msg) ∧ length l' = length l ∧
    clear_to (length l) l' ∧
    ∀ x, ¬ s ≤ x < e → (covered l' x → covered l x) ∧ (msg = false → covered l x → covered l' x).
Proof.
  induction n as [|n IH]; intros l j Hn Hf Hc; cbn [subtract_loop].
  { exists l, false. rewrite Nat.add_0_r in Hn. subst j. by split_and!. }
  destruct (lookup_lt_is_Some_2 l j) as [r Hr]; [lia|].
  destruct (subtract_at_subtracts l j r Hr Hf) as (l1 & msg & -> & (Hl & Hf1 & Hc1 & Hx1) & _).
  cbn [mbind option_bind]. rewrite <-Hl.
  destruct (IH l1 (S j)) as (l2 & msg' & -> & Hl2 & Hc2 & Hx2); [lia|done|by apply Hc1|].
  cbn [mbind option_bind]. exists l2, (msg || msg'). split_and!; [done|done|done|].
  intros x Hx. destruct (Hx1 x Hx) as [H1 H1']. destruct (Hx2 x Hx) as [H2 H2'].
  split; [tauto|]. intros [-> ->]%orb_false_elim ?. auto.
Qed.

End subtract.

(** Subtracting a range leaves nothing of it covered and covers nothing new;
    if no message about a missing slot is printed, everything outside it stays
    covered. *)
Theorem subtract_range_covers l s e : 0 ≤ s → Forall (λ r, 0 ≤ start r) l →
  ∃ l' msg, subtract_range l (length l) s e = Some (l', msg) ∧ length l' = length l ∧
    (∀ x, covered l' x → covered l x ∧ ¬ s ≤ x < e) ∧
    (msg = false → ∀ x, covered l x → ¬ s ≤ x < e → covered l' x).
Proof.
  intros Hs Hf. unfold subtract_range. destruct (Z.leb_spec e s).
  { exists l, false. split_and!; try done. intros x Hx. split; [done|lia]. }
  destruct (subtract_loop_subtracts s e ltac:(lia) (length l) l 0) as (l' & msg & -> & Hl & Hc & Hx);
    [done|done|intros i r x ?; lia|].
  exists l', msg. split_and!; [done|done| |].
  - intros x Hcx. assert (¬ s ≤ x < e) as Hn.
    { apply covered_lookup in Hcx as (i & r & Hi & Hr). apply (Hc i r x); [|done|done].
      apply lookup_lt_Some in Hi. lia. }
    split; [|done]. by apply (Hx x Hn).
  - intros -> x Hcx Hn. by apply (Hx x Hn).
Qed.

(** ** Compacting *)

Definition used (r : range) : Prop := end_ r ≠ 0.

#[export] Instance used_dec r : Decision (used r).
Proof. unfold used. apply _. Defined.

Definition used_at (l : list range) (P : nat → Prop) : Prop :=
  ∀ i r, P i → l !! i = Some r → used r.
Definition free_at (l : list range) (P : nat → Prop) : Prop :=
  ∀ i r, P i → l !! i = Some r → ¬ used r.

(** The used slots come first. *)
Definition compact (l : list range) : Prop :=
  ∃ n, (n ≤ length l)%nat ∧ used_at l (λ i, i < n)%nat ∧ free_at l (λ i, n ≤ i)%nat.

Lemma insert_perm (l : list range) i r : (i < length l)%nat → <[i := r]> l ≡ₚ r :: delete i l.
Proof.
  intros Hi. rewrite insert_take_drop, delete_take_drop by done. by rewrite Permutation_middle.
Qed.

(** A used range moves to a free slot. *)
Lemma move_used l i k r q : i ≠ k → l !! i = Some q → ¬ used q → l !! k = Some r → used r →
  filter used (<[k := Range 0 0]> (<[i := r]> l)) ≡ₚ filter used l.
Proof.
  intros Hik Hi Hq Hk Hr. pose proof (lookup_lt_Some _ _ _ Hi). pose proof (lookup_lt_Some _ _ _ Hk).
  set (l1 := <[i := r]> l).
  assert (filter used l1 ≡ₚ r :: filter used l) as H1.
  { unfold l1. rewrite insert_perm by done. rewrite (delete_Permutation l i q Hi) at 2.
    by rewrite filter_cons_True, filter_cons_False. }
  assert (l1 !! k = Some r) as Hk1 by (unfold l1; by rewrite list_lookup_insert_ne).
  assert (filter used (<[k := Range 0 0]> l1) ≡ₚ filter used (delete k l1)) as ->.
  { rewrite insert_perm by (unfold l1; by rewrite length_insert). rewrite filter_cons_False; [done|].
    unfold used. cbn. by intros []. }
  rewrite (delete_Permutation l1 k r Hk1), filter_cons_True in H1 by done.
  by apply Permutation_cons_inv in H1.
Qed.

Lemma last_used_spec l i : ∀ n, (i + n < length l)%nat → ∃ k, last_used l (i + n) n = Some k ∧
  (i ≤ k ≤ i + n)%nat ∧ free_at l (λ m, k < m ≤ i + n)%nat ∧
  (k ≠ i → ∃ r, l !! k = Some r ∧ used r).
Proof.
  induction n as [|n IH]; intros Hl; cbn [last_used].
  { exists (i + 0)%nat. split_and!; [done|lia|lia|intros m r Hm; lia|intros Hne; lia]. }
  destruct (lookup_lt_is_Some_2 l (i + S n)) as [r Hr]; [lia|]. rewrite Hr. cbn [mbind option_bind].
  destruct (Z.eqb_spec (end_ r) 0) as [Hz|Hnz]; cbn [negb].
  - replace (i + S n - 1)%nat with (i + n)%nat by lia.
    destruct (IH ltac:(lia)) as (k & -> & Hk & Hfree & Hused). exists k. split_and!; [done|lia|lia| |done].
    intros m q Hm Hq. destruct (decide (m = i + S n)%nat) as [->|]; [simplify_eq; unfold used; tauto|].
    apply (Hfree m); [lia|done].
  - exists (i + S n)%nat. split_and!; [done|lia|lia|intros m q Hm; lia|eauto].
Qed.

Lemma clean_loop_compacts fuel : ∀ l i k, (k - i ≤ fuel)%nat → (i ≤ S k)%nat → (k < length l)%nat →
  used_at l (λ m, m < i)%nat → free_at l (λ m, k < m)%nat →
  ∃ l', clean_loop fuel l i k = Some l' ∧ length l' = length l ∧
    filter used l' ≡ₚ filter used l ∧ compact l'.
Proof.
  assert (∀ l i k, (k ≤ i ≤ S k)%nat → (k < length l)%nat → used_at l (λ m, m < i)%nat →
    free_at l (λ m, k < m)%nat → compact l) as Hend.
  { intros l i k Hik Hk Hu Hf. destruct (lookup_lt_is_Some_2 l k Hk) as [r Hr].
    destruct (decide (i = k ∧ used r)) as [[-> Hused]|Hnot].
    - exists (S k). split_and!; [lia| |intros m q Hm; apply Hf; lia].
      intros m q Hm Hq. destruct (decide (m = k)) as [->|]; [by simplify_eq|]. apply (Hu m); [lia|done].
    - exists i. split_and!; [lia|done|]. intros m q Hm Hq.
      destruct (decide (m = k)) as [->|]; [|apply (Hf m); [lia|done]]. simplify_eq.
      intros Hused. apply Hnot. split; [lia|done]. }
  induction fuel as [|fuel IH]; intros l i k Hfuel Hik Hk Hu Hf; cbn [clean_loop].
  { exists l. split_and!; [done..|]. apply (Hend l i k); [lia|done..]. }
  destruct (Nat.ltb_spec i k) as [Hlt|]; [|exists l; split_and!; [done..|]; apply (Hend l i k); [lia|done..]].
  destruct (lookup_lt_is_Some_2 l i) as [r Hr]; [lia|]. rewrite Hr. cbn [mbind option_bind].
  destruct (Z.eqb_spec (end_ r) 0) as [Hz|Hnz]; cbn [negb].
  2: { apply IH; [lia|lia|done| |done]. intros m q Hm Hq.
    destruct (decide (m = i)) as [->|]; [by simplify_eq|]. apply (Hu m); [lia|done]. }
  destruct (last_used_spec l i (k - i)) as (j & Hj & Hji & Hfree & Hused); [lia|].
  replace (i + (k - i))%nat with k in * by lia. rewrite Hj. cbn [mbind option_bind].
  destruct (Nat.eqb_spec j i) as [->|Hne].
  { exists l. split_and!; [done..|]. exists i. split_and!; [lia|done|]. intros m q Hm Hq.
    destruct (decide (m = i)) as [->|]; [simplify_eq; unfold used; tauto|].
    destruct (decide (m ≤ k)%nat); [apply (Hfree m)|apply (Hf m)]; done || lia. }
  destruct (Hused Hne) as (p & Hp & Hpu). rewrite Hp. cbn [mbind option_bind]. unfold put.
  rewrite decide_True by lia. cbn [mbind option_bind]. rewrite decide_True by (rewrite length_insert; lia).
  cbn [mbind option_bind].
  set (l2 := <[j := Range 0 0]> (<[i := p]> l)).
  assert (length l2 = length l) as Hl2 by (unfold l2; by rewrite !length_insert).
  assert (∀ m, l2 !! m = if decide (m = j) then Some (Range 0 0) else if decide (m = i) then Some p
    else l !! m) as Hlk.
  { intros m. unfold l2. destruct (decide (m = j)) as [->|].
    { rewrite list_lookup_insert_eq; [done|rewrite length_insert; lia]. }
    rewrite list_lookup_insert_ne by done. destruct (decide (m = i)) as [->|].
    { rewrite list_lookup_insert_eq; [done|lia]. }
    by rewrite list_lookup_insert_ne. }
  destruct (IH l2 (S i) (j - 1)%nat) as (l' & -> & Hl' & Hperm & Hcomp); [lia|lia|lia| | |].
  - intros m q Hm. rewrite Hlk, decide_False by lia. destruct (decide (m = i)); [by intros [= <-]|].
    intros Hq. apply (Hu m); [lia|done].
  - intros m q Hm. rewrite Hlk. destruct (decide (m = j)); [intros [= <-]; by intros []|].
    rewrite decide_False by lia. intros Hq.
    destruct (decide (m ≤ k)%nat); [apply (Hfree m)|apply (Hf m)]; done || lia.
  - exists l'. split_and!; [done|lia| |done]. rewrite Hperm. unfold l2. apply (move_used l i j p r); try done.
    by intros [].
Qed.

Lemma compact_filter l : compact l → ∃ n, find_spare l 0 (length l) = Some n ∧ (n ≤ length l)%nat ∧
  filter used l = take n l ∧ Forall (λ r, ¬ used r) (drop n l).
Proof.
  intros (n & Hn & Hu & Hf). destruct (find_spare_spec l (length l) 0 ltac:(lia)) as (k & Hk & Hle & Hused & Hfree).
  assert (k = n) as ->.
  { destruct (Nat.lt_trichotomy k n) as [Hlt|[->|Hgt]]; [|done|].
    - destruct (Hfree ltac:(lia)) as (r & Hr & Hz). by destruct (Hu k r Hlt Hr).
    - destruct (lookup_lt_is_Some_2 l n) as [r Hr]; [lia|]. destruct (Hf n r (le_n n) Hr).
      apply (Hused n r); [lia|done]. }
  exists n. assert (Forall (λ r, ¬ used r) (drop n l)) as Hdrop.
  { apply Forall_lookup. intros i r Hi. rewrite lookup_drop in Hi. apply (Hf (n + i)%nat r); [lia|done]. }
  split_and!; [done|done| |done]. rewrite <-(take_drop n l) at 1. rewrite filter_app.
  assert (filter used (drop n l) = []) as ->.
  { clear -Hdrop. induction Hdrop as [|r k Hr _ IH]; [done|]. by rewrite filter_cons_False. }
  rewrite app_nil_r. assert (Forall used (take n l)) as Htake.
  { apply Forall_lookup. intros i r Hi. apply lookup_take_Some in Hi as [Hi ?]. by apply (Hu i r). }
  clear -Htake. induction Htake as [|r k Hr _ IH]; [done|]. by rewrite filter_cons_True, IH.
Qed.

(** [clean_sort_range] returns the number of used ranges, puts them first in
    the order of their starts, and leaves only free slots after them. *)
Theorem clean_sort_range_sorts `{RangeSorter} l :
  Forall u64_range l → Z.of_nat (length l) < 2 ^ 31 →
  ∃ l', clean_sort_range l (length l) = Some (l', length (filter used l)) ∧
    length l' = length l ∧ take (length (filter used l)) l' ≡ₚ filter used l ∧
    StronglySorted (λ x y, start x ≤ start y) (take (length (filter used l)) l') ∧
    Forall (λ r, ¬ used r) (drop (length (filter used l)) l').
Proof.
  intros Hu64 Hlen. unfold clean_sort_range.
  assert (∃ l1, clean_loop (length l) l 0 (length l - 1) = Some l1 ∧ length l1 = length l ∧
    filter used l1 ≡ₚ filter used l ∧ compact l1) as (l1 & -> & Hl1 & Hperm & Hcomp).
  { destruct l as [|r l]; [exists []; split_and!; try done; exists 0%nat; split_and!; [done| |]; by intros ? ?|].
    apply clean_loop_compacts; [lia|lia|simpl; lia|intros m q Hm; lia|].
    intros m q Hm Hq%lookup_lt_Some. simpl in Hm, Hq. lia. }
  cbn [mbind option_bind]. destruct (compact_filter l1 Hcomp) as (n & Hn & Hnl & Hfil & Hfree).
  rewrite Hl1 in Hn. rewrite Hn. cbn [mbind option_bind].
  assert (n = length (filter used l)) as En.
  { rewrite <-Hperm, Hfil, length_take. lia. }
  unfold sort_first. destruct (sort_ranges_sorts (take n l1)) as (s & -> & Hsp & Hss).
  { rewrite <-Hfil, Hperm. rewrite Forall_forall in Hu64 |- *.
    intros r [_ Hr]%list_elem_of_filter. by apply Hu64. }
  { rewrite length_take. lia. }
  cbn [mbind option_bind].
  assert (length s = n) as Hls by (rewrite Hsp, length_take; lia).
  exists (s ++ drop n l1). rewrite <-En. rewrite take_app_length', drop_app_length' by done.
  split_and!; [done| | |done|done].
  - rewrite length_app, Hls, length_drop. lia.
  - by rewrite Hsp, <-Hfil.
Qed.

(** ** The heapsort as the sorter *)

Lemma le_word_bytes n : ∀ w, 0 ≤ w < 256 ^ Z.of_nat n → le_word (le_bytes n w) = w.
Proof.
  induction n as [|n IH]; intros w Hw; cbn [le_bytes le_word]; [change (256 ^ Z.of_nat 0) with 1 in Hw; lia|].
  rewrite Nat2Z.inj_succ, Z.pow_succ_r in Hw by lia. rewrite IH.
  - pose proof (Z.div_mod w 256). lia.
  - split; [apply Z.div_pos; lia|]. apply Z.div_lt_upper_bound; lia.
Qed.

Lemma le_bytes_length n w : length (le_bytes n w) = n.
Proof. revert w. induction n; intros w; cbn; auto. Qed.

(** [struct range] in memory, on a little-endian machine. *)
Definition enc_range (r : range) : bytes := le_bytes 8 (start r) ++ le_bytes 8 (end_ r).
Definition dec_range (b : bytes) : range := Range (le_word (take 8 b)) (le_word (drop 8 b)).

Fixpoint dec_array (n : nat) (mem : bytes) : list range :=
  match n with
  | O => []
  | S n => dec_range (take 16 mem) :: dec_array n (drop 16 mem)
  end.

Lemma enc_range_length r : length (enc_range r) = 16%nat.
Proof. unfold enc_range. by rewrite length_app, !le_bytes_length. Qed.

Lemma dec_enc_range r : u64_range r → dec_range (enc_range r) = r.
Proof.
  intros [Hs He]. unfold dec_range, enc_range.
  rewrite take_app_length', drop_app_length' by (by rewrite le_bytes_length).
  rewrite !le_word_bytes by done. by destruct r.
Qed.

Lemma dec_array_enc l : Forall u64_range l →
  dec_array (length l) (KSort.enc (enc_range <$> l)) = l.
Proof.
  induction 1 as [|r l Hr _ IH]; [done|]. cbn [length dec_array fmap list_fmap KSort.enc].
  rewrite take_app_length', drop_app_length' by (by rewrite enc_range_length).
  by rewrite dec_enc_range, IH.
Qed.

Definition cmp_bytes (x y : bytes) : Z := cmp_range (dec_range x) (dec_range y).

Lemma cmp_range_ge r q : 0 ≤ cmp_range r q ↔ start q ≤ start r.
Proof. unfold cmp_range. repeat case_match; bool_to_prop; lia. Qed.

#[export] Instance cmp_bytes_ordering : KSort.Ordering cmp_bytes.
Proof. split; intros; unfold cmp_bytes in *; rewrite cmp_range_ge in *; [rewrite cmp_range_ge|]; lia. Qed.

Definition heapsort_ranges (cfg : KSort.sort_config) (cmp : range → range → Z) (l : list range) :
    option (list range) :=
  mem ← KSort.sort (λ x y, cmp (dec_range x) (dec_range y)) cfg
    (KSort.enc (enc_range <$> l)) (length l) 16 None;
  Some (dec_array (length l) mem).

Lemma heapsort_ranges_sorts cfg l : Forall u64_range l → Z.of_nat (length l) < 2 ^ 31 →
  ∃ l', heapsort_ranges cfg cmp_range l = Some l' ∧ l' ≡ₚ l ∧
    StronglySorted (λ x y, start x ≤ start y) l'.
Proof.
  intros Hu Hl. unfold heapsort_ranges.
  destruct (KSort.sort_correct cmp_bytes cfg (enc_range <$> l) 16 None) as (els & Hs & Hp & Hss).
  { done. }
  { apply Forall_fmap, Forall_true. intros r.
    change (zlen (enc_range r) = 16). unfold zlen. by rewrite enc_range_length. }
  { rewrite length_fmap. lia. }
  { done. }
  rewrite length_fmap in Hs. unfold cmp_bytes in Hs. rewrite Hs. cbn [mbind option_bind].
  apply Permutation_map_inv in Hp as (l' & -> & Hp). change (map enc_range l') with (enc_range <$> l') in *.
  assert (Forall u64_range l') as Hu' by (by rewrite <-Hp).
  exists l'. rewrite (Permutation_length Hp), dec_array_enc by done. split_and!; [done|done|].
  clear -Hss Hu'. induction l' as [|r l' IH]; [constructor|].
  cbn [fmap list_fmap] in Hss. inversion Hss as [|? ? Hss' Hr]; subst.
  apply Forall_cons in Hu' as [Hur Hul]. constructor; [by apply IH|].
  rewrite Forall_fmap in Hr. rewrite Forall_forall in Hr, Hul |- *. intros q Hq.
  specialize (Hr q Hq). change (0 ≤ cmp_bytes (enc_range q) (enc_range r)) in Hr.
  unfold cmp_bytes in Hr.
  rewrite cmp_range_ge, !dec_enc_range in Hr by (done || by apply Hul). done.
Qed.

(** A 64-bit kernel with the array at an aligned address. *)
#[export] Instance heapsort_sorter : RangeSorter := {
  sort_ranges := heapsort_ranges {| KSort.CONFIG_64BIT := true;
    KSort.CONFIG_HAVE_EFFICIENT_UNALIGNED_ACCESS := true; KSort.base_addr := 4096 |};
  sort_ranges_sorts l := heapsort_ranges_sorts _ l;
}.

(** ** Witnesses *)

Lemma add_range_with_merge_covers_witness :
  ∃ l' nr', add_range_with_merge [Range 0 10; Range 30 40; Range 50 60; Range 0 0] 4 3 10 35 =
      Some (l', nr') ∧ length l' = 4%nat ∧ (nr' ≤ 4)%nat ∧ Forall proper (take nr' l') ∧
    (∀ x, covered (take nr' l') x ↔
      covered [Range 0 10; Range 30 40; Range 50 60] x ∨ 10 ≤ x < 35) ∧
    (separated [Range 0 10; Range 30 40; Range 50 60] → separated (take nr' l')).
Proof.
  apply (add_range_with_merge_covers [Range 0 10; Range 30 40; Range 50 60; Range 0 0] 4 3 10 35);
    [simpl; lia|lia|].
  repeat constructor; unfold proper; simpl; lia.
Defined.

Lemma subtract_range_covers_witness :
  ∃ l' msg, subtract_range [Range 0 10; Range 20 40; Range 0 0] 3 25 30 = Some (l', msg) ∧
    length l' = 3%nat ∧
    (∀ x, covered l' x → covered [Range 0 10; Range 20 40; Range 0 0] x ∧ ¬ 25 ≤ x < 30) ∧
    (msg = false → ∀ x, covered [Range 0 10; Range 20 40; Range 0 0] x → ¬ 25 ≤ x < 30 → covered l' x).
Proof.
  apply (subtract_range_covers [Range 0 10; Range 20 40; Range 0 0] 25 30); [lia|].
  repeat constructor; simpl; lia.
Defined.

Lemma clean_sort_range_sorts_witness :
  ∃ l', clean_sort_range [Range 0 0; Range 50 60; Range 7 0; Range 10 20; Range 30 40] 5 =
      Some (l', 3%nat) ∧ length l' = 5%nat ∧
    take 3 l' ≡ₚ [Range 50 60; Range 10 20; Range 30 40] ∧
    StronglySorted (λ x y, start x ≤ start y) (take 3 l') ∧ Forall (λ r, ¬ used r) (drop 3 l').
Proof.
  apply (clean_sort_range_sorts [Range 0 0; Range 50 60; Range 7 0; Range 10 20; Range 30 40]);
    [repeat constructor; simpl; lia|vm_decide].
Defined.

End KRange.
