(* ===== verification/KCrc.v ===== *)
(** * Cyclic redundancy checks, [lib/crc16.c], [lib/crc-ccitt.c],
    [lib/crc-itu-t.c], [lib/crc7.c], [lib/crc8.c]

    The routines work a byte at a time with tables; the reference divides the
    polynomial bit by bit.  The functions that take one byte ([crc16_byte] and the
    others) are inline functions of headers that are not in the repository: the
    class [CrcBytes] states what they compute from the tables. *)
From stdpp Require Import base numbers sets strings list.
From S2P Require Import Prelude Ctype.

Module KCrc.
Local Open Scope Z_scope.

(** ** The tables *)

Definition crc16_table : list Z :=
  [0x0000; 0xc0c1; 0xc181; 0x0140; 0xc301; 0x03c0; 0x0280; 0xc241;
   0xc601; 0x06c0; 0x0780; 0xc741; 0x0500; 0xc5c1; 0xc481; 0x0440;
   0xcc01; 0x0cc0; 0x0d80; 0xcd41; 0x0f00; 0xcfc1; 0xce81; 0x0e40;
   0x0a00; 0xcac1; 0xcb81; 0x0b40; 0xc901; 0x09c0; 0x0880; 0xc841;
   0xd801; 0x18c0; 0x1980; 0xd941; 0x1b00; 0xdbc1; 0xda81; 0x1a40;
   0x1e00; 0xdec1; 0xdf81; 0x1f40; 0xdd01; 0x1dc0; 0x1c80; 0xdc41;
   0x1400; 0xd4c1; 0xd581; 0x1540; 0xd701; 0x17c0; 0x1680; 0xd641;
   0xd201; 0x12c0; 0x1380; 0xd341; 0x1100; 0xd1c1; 0xd081; 0x1040;
   0xf001; 0x30c0; 0x3180; 0xf141; 0x3300; 0xf3c1; 0xf281; 0x3240;
   0x3600; 0xf6c1; 0xf781; 0x3740; 0xf501; 0x35c0; 0x3480; 0xf441;
   0x3c00; 0xfcc1; 0xfd81; 0x3d40; 0xff01; 0x3fc0; 0x3e80; 0xfe41;
   0xfa01; 0x3ac0; 0x3b80; 0xfb41; 0x3900; 0xf9c1; 0xf881; 0x3840;
   0x2800; 0xe8c1; 0xe981; 0x2940; 0xeb01; 0x2bc0; 0x2a80; 0xea41;
   0xee01; 0x2ec0; 0x2f80; 0xef41; 0x2d00; 0xedc1; 0xec81; 0x2c40;
   0xe401; 0x24c0; 0x2580; 0xe541; 0x2700; 0xe7c1; 0xe681; 0x2640;
   0x2200; 0xe2c1; 0xe381; 0x2340; 0xe101; 0x21c0; 0x2080; 0xe041;
   0xa001; 0x60c0; 0x6180; 0xa141; 0x6300; 0xa3c1; 0xa281; 0x6240;
   0x6600; 0xa6c1; 0xa781; 0x6740; 0xa501; 0x65c0; 0x6480; 0xa441;
   0x6c00; 0xacc1; 0xad81; 0x6d40; 0xaf01; 0x6fc0; 0x6e80; 0xae41;
   0xaa01; 0x6ac0; 0x6b80; 0xab41; 0x6900; 0xa9c1; 0xa881; 0x6840;
   0x7800; 0xb8c1; 0xb981; 0x7940; 0xbb01; 0x7bc0; 0x7a80; 0xba41;
   0xbe01; 0x7ec0; 0x7f80; 0xbf41; 0x7d00; 0xbdc1; 0xbc81; 0x7c40;
   0xb401; 0x74c0; 0x7580; 0xb541; 0x7700; 0xb7c1; 0xb681; 0x7640;
   0x7200; 0xb2c1; 0xb381; 0x7340; 0xb101; 0x71c0; 0x7080; 0xb041;
   0x5000; 0x90c1; 0x9181; 0x5140; 0x9301; 0x53c0; 0x5280; 0x9241;
   0x9601; 0x56c0; 0x5780; 0x9741; 0x5500; 0x95c1; 0x9481; 0x5440;
   0x9c01; 0x5cc0; 0x5d80; 0x9d41; 0x5f00; 0x9fc1; 0x9e81; 0x5e40;
   0x5a00; 0x9ac1; 0x9b81; 0x5b40; 0x9901; 0x59c0; 0x5880; 0x9841;
   0x8801; 0x48c0; 0x4980; 0x8941; 0x4b00; 0x8bc1; 0x8a81; 0x4a40;
   0x4e00; 0x8ec1; 0x8f81; 0x4f40; 0x8d01; 0x4dc0; 0x4c80; 0x8c41;
   0x4400; 0x84c1; 0x8581; 0x4540; 0x8701; 0x47c0; 0x4680; 0x8641;
   0x8201; 0x42c0; 0x4380; 0x8341; 0x4100; 0x81c1; 0x8081; 0x4040].

Definition crc_ccitt_table : list Z :=
  [0x0000; 0x1189; 0x2312; 0x329b; 0x4624; 0x57ad; 0x6536; 0x74bf;
   0x8c48; 0x9dc1; 0xaf5a; 0xbed3; 0xca6c; 0xdbe5; 0xe97e; 0xf8f7;
   0x1081; 0x0108; 0x3393; 0x221a; 0x56a5; 0x472c; 0x75b7; 0x643e;
   0x9cc9; 0x8d40; 0xbfdb; 0xae52; 0xdaed; 0xcb64; 0xf9ff; 0xe876;
   0x2102; 0x308b; 0x0210; 0x1399; 0x6726; 0x76af; 0x4434; 0x55bd;
   0xad4a; 0xbcc3; 0x8e58; 0x9fd1; 0xeb6e; 0xfae7; 0xc87c; 0xd9f5;
   0x3183; 0x200a; 0x1291; 0x0318; 0x77a7; 0x662e; 0x54b5; 0x453c;
   0xbdcb; 0xac42; 0x9ed9; 0x8f50; 0xfbef; 0xea66; 0xd8fd; 0xc974;
   0x4204; 0x538d; 0x6116; 0x709f; 0x0420; 0x15a9; 0x2732; 0x36bb;
   0xce4c; 0xdfc5; 0xed5e; 0xfcd7; 0x8868; 0x99e1; 0xab7a; 0xbaf3;
   0x5285; 0x430c; 0x7197; 0x601e; 0x14a1; 0x0528; 0x37b3; 0x263a;
   0xdecd; 0xcf44; 0xfddf; 0xec56; 0x98e9; 0x8960; 0xbbfb; 0xaa72;
   0x6306; 0x728f; 0x4014; 0x519d; 0x2522; 0x34ab; 0x0630; 0x17b9;
   0xef4e; 0xfec7; 0xcc5c; 0xddd5; 0xa96a; 0xb8e3; 0x8a78; 0x9bf1;
   0x7387; 0x620e; 0x5095; 0x411c; 0x35a3; 0x242a; 0x16b1; 0x0738;
   0xffcf; 0xee46; 0xdcdd; 0xcd54; 0xb9eb; 0xa862; 0x9af9; 0x8b70;
   0x8408; 0x9581; 0xa71a; 0xb693; 0xc22c; 0xd3a5; 0xe13e; 0xf0b7;
   0x0840; 0x19c9; 0x2b52; 0x3adb; 0x4e64; 0x5fed; 0x6d76; 0x7cff;
   0x9489; 0x8500; 0xb79b; 0xa612; 0xd2ad; 0xc324; 0xf1bf; 0xe036;
   0x18c1; 0x0948; 0x3bd3; 0x2a5a; 0x5ee5; 0x4f6c; 0x7df7; 0x6c7e;
   0xa50a; 0xb483; 0x8618; 0x9791; 0xe32e; 0xf2a7; 0xc03c; 0xd1b5;
   0x2942; 0x38cb; 0x0a50; 0x1bd9; 0x6f66; 0x7eef; 0x4c74; 0x5dfd;
   0xb58b; 0xa402; 0x9699; 0x8710; 0xf3af; 0xe226; 0xd0bd; 0xc134;
   0x39c3; 0x284a; 0x1ad1; 0x0b58; 0x7fe7; 0x6e6e; 0x5cf5; 0x4d7c;
   0xc60c; 0xd785; 0xe51e; 0xf497; 0x8028; 0x91a1; 0xa33a; 0xb2b3;
   0x4a44; 0x5bcd; 0x6956; 0x78df; 0x0c60; 0x1de9; 0x2f72; 0x3efb;
   0xd68d; 0xc704; 0xf59f; 0xe416; 0x90a9; 0x8120; 0xb3bb; 0xa232;
   0x5ac5; 0x4b4c; 0x79d7; 0x685e; 0x1ce1; 0x0d68; 0x3ff3; 0x2e7a;
   0xe70e; 0xf687; 0xc41c; 0xd595; 0xa12a; 0xb0a3; 0x8238; 0x93b1;
   0x6b46; 0x7acf; 0x4854; 0x59dd; 0x2d62; 0x3ceb; 0x0e70; 0x1ff9;
   0xf78f; 0xe606; 0xd49d; 0xc514; 0xb1ab; 0xa022; 0x92b9; 0x8330;
   0x7bc7; 0x6a4e; 0x58d5; 0x495c; 0x3de3; 0x2c6a; 0x1ef1; 0x0f78].

Definition crc_ccitt_false_table : list Z :=
  [0x0000; 0x1021; 0x2042; 0x3063; 0x4084; 0x50a5; 0x60c6; 0x70e7;
   0x8108; 0x9129; 0xa14a; 0xb16b; 0xc18c; 0xd1ad; 0xe1ce; 0xf1ef;
   0x1231; 0x0210; 0x3273; 0x2252; 0x52b5; 0x4294; 0x72f7; 0x62d6;
   0x9339; 0x8318; 0xb37b; 0xa35a; 0xd3bd; 0xc39c; 0xf3ff; 0xe3de;
   0x2462; 0x3443; 0x0420; 0x1401; 0x64e6; 0x74c7; 0x44a4; 0x5485;
   0xa56a; 0xb54b; 0x8528; 0x9509; 0xe5ee; 0xf5cf; 0xc5ac; 0xd58d;
   0x3653; 0x2672; 0x1611; 0x0630; 0x76d7; 0x66f6; 0x5695; 0x46b4;
   0xb75b; 0xa77a; 0x9719; 0x8738; 0xf7df; 0xe7fe; 0xd79d; 0xc7bc;
   0x48c4; 0x58e5; 0x6886; 0x78a7; 0x0840; 0x1861; 0x2802; 0x3823;
   0xc9cc; 0xd9ed; 0xe98e; 0xf9af; 0x8948; 0x9969; 0xa90a; 0xb92b;
   0x5af5; 0x4ad4; 0x7ab7; 0x6a96; 0x1a71; 0x0a50; 0x3a33; 0x2a12;
   0xdbfd; 0xcbdc; 0xfbbf; 0xeb9e; 0x9b79; 0x8b58; 0xbb3b; 0xab1a;
   0x6ca6; 0x7c87; 0x4ce4; 0x5cc5; 0x2c22; 0x3c03; 0x0c60; 0x1c41;
   0xedae; 0xfd8f; 0xcdec; 0xddcd; 0xad2a; 0xbd0b; 0x8d68; 0x9d49;
   0x7e97; 0x6eb6; 0x5ed5; 0x4ef4; 0x3e13; 0x2e32; 0x1e51; 0x0e70;
   0xff9f; 0xefbe; 0xdfdd; 0xcffc; 0xbf1b; 0xaf3a; 0x9f59; 0x8f78;
   0x9188; 0x81a9; 0xb1ca; 0xa1eb; 0xd10c; 0xc12d; 0xf14e; 0xe16f;
   0x1080; 0x00a1; 0x30c2; 0x20e3; 0x5004; 0x4025; 0x7046; 0x6067;
   0x83b9; 0x9398; 0xa3fb; 0xb3da; 0xc33d; 0xd31c; 0xe37f; 0xf35e;
   0x02b1; 0x1290; 0x22f3; 0x32d2; 0x4235; 0x5214; 0x6277; 0x7256;
   0xb5ea; 0xa5cb; 0x95a8; 0x8589; 0xf56e; 0xe54f; 0xd52c; 0xc50d;
   0x34e2; 0x24c3; 0x14a0; 0x0481; 0x7466; 0x6447; 0x5424; 0x4405;
   0xa7db; 0xb7fa; 0x8799; 0x97b8; 0xe75f; 0xf77e; 0xc71d; 0xd73c;
   0x26d3; 0x36f2; 0x0691; 0x16b0; 0x6657; 0x7676; 0x4615; 0x5634;
   0xd94c; 0xc96d; 0xf90e; 0xe92f; 0x99c8; 0x89e9; 0xb98a; 0xa9ab;
   0x5844; 0x4865; 0x7806; 0x6827; 0x18c0; 0x08e1; 0x3882; 0x28a3;
   0xcb7d; 0xdb5c; 0xeb3f; 0xfb1e; 0x8bf9; 0x9bd8; 0xabbb; 0xbb9a;
   0x4a75; 0x5a54; 0x6a37; 0x7a16; 0x0af1; 0x1ad0; 0x2ab3; 0x3a92;
   0xfd2e; 0xed0f; 0xdd6c; 0xcd4d; 0xbdaa; 0xad8b; 0x9de8; 0x8dc9;
   0x7c26; 0x6c07; 0x5c64; 0x4c45; 0x3ca2; 0x2c83; 0x1ce0; 0x0cc1;
   0xef1f; 0xff3e; 0xcf5d; 0xdf7c; 0xaf9b; 0xbfba; 0x8fd9; 0x9ff8;
   0x6e17; 0x7e36; 0x4e55; 0x5e74; 0x2e93; 0x3eb2; 0x0ed1; 0x1ef0].

Definition crc_itu_t_table : list Z :=
  [0x0000; 0x1021; 0x2042; 0x3063; 0x4084; 0x50a5; 0x60c6; 0x70e7;
   0x8108; 0x9129; 0xa14a; 0xb16b; 0xc18c; 0xd1ad; 0xe1ce; 0xf1ef;
   0x1231; 0x0210; 0x3273; 0x2252; 0x52b5; 0x4294; 0x72f7; 0x62d6;
   0x9339; 0x8318; 0xb37b; 0xa35a; 0xd3bd; 0xc39c; 0xf3ff; 0xe3de;
   0x2462; 0x3443; 0x0420; 0x1401; 0x64e6; 0x74c7; 0x44a4; 0x5485;
   0xa56a; 0xb54b; 0x8528; 0x9509; 0xe5ee; 0xf5cf; 0xc5ac; 0xd58d;
   0x3653; 0x2672; 0x1611; 0x0630; 0x76d7; 0x66f6; 0x5695; 0x46b4;
   0xb75b; 0xa77a; 0x9719; 0x8738; 0xf7df; 0xe7fe; 0xd79d; 0xc7bc;
   0x48c4; 0x58e5; 0x6886; 0x78a7; 0x0840; 0x1861; 0x2802; 0x3823;
   0xc9cc; 0xd9ed; 0xe98e; 0xf9af; 0x8948; 0x9969; 0xa90a; 0xb92b;
   0x5af5; 0x4ad4; 0x7ab7; 0x6a96; 0x1a71; 0x0a50; 0x3a33; 0x2a12;
   0xdbfd; 0xcbdc; 0xfbbf; 0xeb9e; 0x9b79; 0x8b58; 0xbb3b; 0xab1a;
   0x6ca6; 0x7c87; 0x4ce4; 0x5cc5; 0x2c22; 0x3c03; 0x0c60; 0x1c41;
   0xedae; 0xfd8f; 0xcdec; 0xddcd; 0xad2a; 0xbd0b; 0x8d68; 0x9d49;
   0x7e97; 0x6eb6; 0x5ed5; 0x4ef4; 0x3e13; 0x2e32; 0x1e51; 0x0e70;
   0xff9f; 0xefbe; 0xdfdd; 0xcffc; 0xbf1b; 0xaf3a; 0x9f59; 0x8f78;
   0x9188; 0x81a9; 0xb1ca; 0xa1eb; 0xd10c; 0xc12d; 0xf14e; 0xe16f;
   0x1080; 0x00a1; 0x30c2; 0x20e3; 0x5004; 0x4025; 0x7046; 0x6067;
   0x83b9; 0x9398; 0xa3fb; 0xb3da; 0xc33d; 0xd31c; 0xe37f; 0xf35e;
   0x02b1; 0x1290; 0x22f3; 0x32d2; 0x4235; 0x5214; 0x6277; 0x7256;
   0xb5ea; 0xa5cb; 0x95a8; 0x8589; 0xf56e; 0xe54f; 0xd52c; 0xc50d;
   0x34e2; 0x24c3; 0x14a0; 0x0481; 0x7466; 0x6447; 0x5424; 0x4405;
   0xa7db; 0xb7fa; 0x8799; 0x97b8; 0xe75f; 0xf77e; 0xc71d; 0xd73c;
   0x26d3; 0x36f2; 0x0691; 0x16b0; 0x6657; 0x7676; 0x4615; 0x5634;
   0xd94c; 0xc96d; 0xf90e; 0xe92f; 0x99c8; 0x89e9; 0xb98a; 0xa9ab;
   0x5844; 0x4865; 0x7806; 0x6827; 0x18c0; 0x08e1; 0x3882; 0x28a3;
   0xcb7d; 0xdb5c; 0xeb3f; 0xfb1e; 0x8bf9; 0x9bd8; 0xabbb; 0xbb9a;
   0x4a75; 0x5a54; 0x6a37; 0x7a16; 0x0af1; 0x1ad0; 0x2ab3; 0x3a92;
   0xfd2e; 0xed0f; 0xdd6c; 0xcd4d; 0xbdaa; 0xad8b; 0x9de8; 0x8dc9;
   0x7c26; 0x6c07; 0x5c64; 0x4c45; 0x3ca2; 0x2c83; 0x1ce0; 0x0cc1;
   0xef1f; 0xff3e; 0xcf5d; 0xdf7c; 0xaf9b; 0xbfba; 0x8fd9; 0x9ff8;
   0x6e17; 0x7e36; 0x4e55; 0x5e74; 0x2e93; 0x3eb2; 0x0ed1; 0x1ef0].

Definition crc7_be_syndrome_table : list Z :=
  [0x00; 0x12; 0x24; 0x36; 0x48; 0x5a; 0x6c; 0x7e;
   0x90; 0x82; 0xb4; 0xa6; 0xd8; 0xca; 0xfc; 0xee;
   0x32; 0x20; 0x16; 0x04; 0x7a; 0x68; 0x5e; 0x4c;
   0xa2; 0xb0; 0x86; 0x94; 0xea; 0xf8; 0xce; 0xdc;
   0x64; 0x76; 0x40; 0x52; 0x2c; 0x3e; 0x08; 0x1a;
   0xf4; 0xe6; 0xd0; 0xc2; 0xbc; 0xae; 0x98; 0x8a;
   0x56; 0x44; 0x72; 0x60; 0x1e; 0x0c; 0x3a; 0x28;
   0xc6; 0xd4; 0xe2; 0xf0; 0x8e; 0x9c; 0xaa; 0xb8;
   0xc8; 0xda; 0xec; 0xfe; 0x80; 0x92; 0xa4; 0xb6;
   0x58; 0x4a; 0x7c; 0x6e; 0x10; 0x02; 0x34; 0x26;
   0xfa; 0xe8; 0xde; 0xcc; 0xb2; 0xa0; 0x96; 0x84;
   0x6a; 0x78; 0x4e; 0x5c; 0x22; 0x30; 0x06; 0x14;
   0xac; 0xbe; 0x88; 0x9a; 0xe4; 0xf6; 0xc0; 0xd2;
   0x3c; 0x2e; 0x18; 0x0a; 0x74; 0x66; 0x50; 0x42;
   0x9e; 0x8c; 0xba; 0xa8; 0xd6; 0xc4; 0xf2; 0xe0;
   0x0e; 0x1c; 0x2a; 0x38; 0x46; 0x54; 0x62; 0x70;
   0x82; 0x90; 0xa6; 0xb4; 0xca; 0xd8; 0xee; 0xfc;
   0x12; 0x00; 0x36; 0x24; 0x5a; 0x48; 0x7e; 0x6c;
   0xb0; 0xa2; 0x94; 0x86; 0xf8; 0xea; 0xdc; 0xce;
   0x20; 0x32; 0x04; 0x16; 0x68; 0x7a; 0x4c; 0x5e;
   0xe6; 0xf4; 0xc2; 0xd0; 0xae; 0xbc; 0x8a; 0x98;
   0x76; 0x64; 0x52; 0x40; 0x3e; 0x2c; 0x1a; 0x08;
   0xd4; 0xc6; 0xf0; 0xe2; 0x9c; 0x8e; 0xb8; 0xaa;
   0x44; 0x56; 0x60; 0x72; 0x0c; 0x1e; 0x28; 0x3a;
   0x4a; 0x58; 0x6e; 0x7c; 0x02; 0x10; 0x26; 0x34;
   0xda; 0xc8; 0xfe; 0xec; 0x92; 0x80; 0xb6; 0xa4;
   0x78; 0x6a; 0x5c; 0x4e; 0x30; 0x22; 0x14; 0x06;
   0xe8; 0xfa; 0xcc; 0xde; 0xa0; 0xb2; 0x84; 0x96;
   0x2e; 0x3c; 0x0a; 0x18; 0x66; 0x74; 0x42; 0x50;
   0xbe; 0xac; 0x9a; 0x88; 0xf6; 0xe4; 0xd2; 0xc0;
   0x1c; 0x0e; 0x38; 0x2a; 0x54; 0x46; 0x70; 0x62;
   0x8c; 0x9e; 0xa8; 0xba; 0xc4; 0xd6; 0xe0; 0xf2].

Definition entry (table : list Z) (i : Z) : Z := nth (Z.to_nat i) table 0.

Class CrcBytes := {
  crc16_byte : Z → Z → Z;
  crc_ccitt_byte : Z → Z → Z;
  crc_ccitt_false_byte : Z → Z → Z;
  crc_itu_t_byte : Z → Z → Z;
  crc7_be_byte : Z → Z → Z;
  crc16_byte_table crc c :
    crc16_byte crc c = Z.lxor (Z.shiftr crc 8) (entry crc16_table (Z.land (Z.lxor crc c) 0xff));
  crc_ccitt_byte_table crc c :
    crc_ccitt_byte crc c =
    Z.lxor (Z.shiftr crc 8) (entry crc_ccitt_table (Z.land (Z.lxor crc c) 0xff));
  crc_ccitt_false_byte_table crc c :
    crc_ccitt_false_byte crc c =
    Z.lxor (wrap 16 (Z.shiftl crc 8)) (entry crc_ccitt_false_table (Z.lxor (Z.shiftr crc 8) c));
  crc_itu_t_byte_table crc c :
    crc_itu_t_byte crc c =
    Z.lxor (wrap 16 (Z.shiftl crc 8)) (entry crc_itu_t_table (Z.land (Z.lxor (Z.shiftr crc 8) c) 0xff));
  crc7_be_byte_table crc c :
    crc7_be_byte crc c = entry crc7_be_syndrome_table (Z.lxor crc c);
}.

(** ** The code *)

Section crc.
Context `{CrcBytes}.

(** [while (len--) crc = crc16_byte(crc, *buffer++);] *)
Fixpoint crc16 (crc : Z) (buffer : bytes) (len : nat) {struct len} : option Z :=
  match len with
  | O => Some crc
  | S len =>
      match buffer with
      | [] => None
      | c :: buffer => crc16 (crc16_byte crc c) buffer len
      end
  end.

Fixpoint crc_ccitt (crc : Z) (buffer : bytes) (len : nat) {struct len} : option Z :=
  match len with
  | O => Some crc
  | S len =>
      match buffer with
      | [] => None
      | c :: buffer => crc_ccitt (crc_ccitt_byte crc c) buffer len
      end
  end.

Fixpoint crc_ccitt_false (crc : Z) (buffer : bytes) (len : nat) {struct len} : option Z :=
  match len with
  | O => Some crc
  | S len =>
      match buffer with
      | [] => None
      | c :: buffer => crc_ccitt_false (crc_ccitt_false_byte crc c) buffer len
      end
  end.

Fixpoint crc_itu_t (crc : Z) (buffer : bytes) (len : nat) {struct len} : option Z :=
  match len with
  | O => Some crc
  | S len =>
      match buffer with
      | [] => None
      | c :: buffer => crc_itu_t (crc_itu_t_byte crc c) buffer len
      end
  end.

Fixpoint crc7_be (crc : Z) (buffer : bytes) (len : nat) {struct len} : option Z :=
  match len with
  | O => Some crc
  | S len =>
      match buffer with
      | [] => None
      | c :: buffer => crc7_be (crc7_be_byte crc c) buffer len
      end
  end.

End crc.

(** ** [crc8]: the table is made for a polynomial *)

Definition CRC8_TABLE_SIZE : nat := 256.

Definition put (table : list Z) (i : nat) (v : Z) : option (list Z) :=
  if decide (i < length table)%nat then Some (<[i := v]> table) else None.

(** [for (j = 0; j < i; j++) table[i+j] = table[j] ^ t;] *)
Fixpoint msb_inner (table : list Z) (t : Z) (i j n : nat) {struct n} : option (list Z) :=
  match n with
  | O => Some table
  | S n =>
      v ← table !! j;
      table ← put table (i + j) (Z.lxor v t);
      msb_inner table t i (S j) n
  end.

(** [for (i = 1; i < CRC8_TABLE_SIZE; i *= 2)]; [fuel] passes at most. *)
Fixpoint msb_outer (fuel : nat) (table : list Z) (polynomial t : Z) (i : nat) : option (list Z) :=
  match fuel with
  | O => Some table
  | S fuel =>
      if (i <? CRC8_TABLE_SIZE)%nat then
        let t := Z.lxor (w8 (Z.shiftl t 1)) (if negb (Z.land t 0x80 =? 0) then polynomial else 0) in
        table ← msb_inner table t i 0 i;
        msb_outer fuel table polynomial t (i * 2)
      else Some table
  end.

Definition crc8_populate_msb (table : list Z) (polynomial : Z) : option (list Z) :=
  table ← put table 0 0;
  msb_outer 9 table polynomial 0x80 1.

(** [for (j = 0; j < CRC8_TABLE_SIZE; j += 2*i) table[i+j] = table[j] ^ t;] *)
Fixpoint lsb_inner (fuel : nat) (table : list Z) (t : Z) (i j : nat) : option (list Z) :=
  match fuel with
  | O => Some table
  | S fuel =>
      if (j <? CRC8_TABLE_SIZE)%nat then
        v ← table !! j;
        table ← put table (i + j) (Z.lxor v t);
        lsb_inner fuel table t i (j + 2 * i)
      else Some table
  end.

(** [for (i = (CRC8_TABLE_SIZE >> 1); i; i >>= 1)] *)
Fixpoint lsb_outer (fuel : nat) (table : list Z) (polynomial t : Z) (i : nat) : option (list Z) :=
  match fuel with
  | O => Some table
  | S fuel =>
      if (0 <? i)%nat then
        let t := Z.lxor (Z.shiftr t 1) (if negb (Z.land t 1 =? 0) then polynomial else 0) in
        table ← lsb_inner CRC8_TABLE_SIZE table t i 0;
        lsb_outer fuel table polynomial t (i / 2)
      else Some table
  end.

Definition crc8_populate_lsb (table : list Z) (polynomial : Z) : option (list Z) :=
  table ← put table 0 0;
  lsb_outer 9 table polynomial 1 (CRC8_TABLE_SIZE / 2).

Fixpoint crc8 (table : list Z) (pdata : bytes) (nbytes : nat) (crc : Z) {struct nbytes} : option Z :=
  match nbytes with
  | O => Some crc
  | S nbytes =>
      match pdata with
      | [] => None
      | c :: pdata =>
          crc ← table !! Z.to_nat (Z.land (Z.lxor crc c) 0xff);
          crc8 table pdata nbytes crc
      end
  end.

(** ** The reference: one bit at a time *)

(** Low bit first; the polynomial has its bits reversed. *)
Definition lsb_step (poly x : Z) : Z := Z.lxor (Z.shiftr x 1) (if Z.odd x then poly else 0).

(** High bit first, in a register of [w] bits. *)
Definition msb_step (w poly x : Z) : Z :=
  Z.lxor (wrap w (Z.shiftl x 1)) (if Z.testbit x (w - 1) then poly else 0).

Definition lsb_crc (poly : Z) (crc : Z) (data : bytes) : Z :=
  foldl (λ crc c, Nat.iter 8 (lsb_step poly) (Z.lxor crc c)) crc data.

Definition msb_crc (w poly : Z) (crc : Z) (data : bytes) : Z :=
  foldl (λ crc c, Nat.iter 8 (msb_step w poly) (Z.lxor crc (Z.shiftl c (w - 8)))) crc data.

(** ** Words *)

Lemma wrap_land w x : 0 ≤ w → wrap w x = Z.land x (Z.ones w).
Proof. intros. unfold wrap. by rewrite Z.land_ones. Qed.

Lemma wrap_lxor w x y : 0 ≤ w → wrap w (Z.lxor x y) = Z.lxor (wrap w x) (wrap w y).
Proof.
  intros. rewrite !wrap_land by done. apply Z.bits_inj'. intros n _.
  rewrite Z.lxor_spec, !Z.land_spec, Z.lxor_spec.
  by destruct (Z.testbit x n), (Z.testbit y n), (Z.testbit _ n).
Qed.

Lemma lxor_range w x y : 0 ≤ w → 0 ≤ x < 2 ^ w → 0 ≤ y < 2 ^ w → 0 ≤ Z.lxor x y < 2 ^ w.
Proof.
  intros Hw Hx Hy. rewrite <-(wrap_small w x), <-(wrap_small w y), <-wrap_lxor by done.
  by apply wrap_range.
Qed.

(** Adding a power of two to a number without that bit. *)
Lemma add_pow2_lxor k j : 0 ≤ k → Z.testbit j k = false → 2 ^ k + j = Z.lxor (2 ^ k) j.
Proof.
  intros Hk Hj. apply Z.add_nocarry_lxor. apply Z.bits_inj'. intros n Hn.
  rewrite Z.land_spec, Z.bits_0. destruct (decide (n = k)) as [->|].
  - by rewrite Hj, andb_false_r.
  - by rewrite Z.pow2_bits_false.
Qed.

Lemma testbit_small k j : 0 ≤ k → 0 ≤ j < 2 ^ k → Z.testbit j k = false.
Proof.
  intros Hk Hj. rewrite Z.testbit_odd, Z.shiftr_div_pow2 by done. by rewrite Z.div_small.
Qed.

(** A number is its low byte and the rest. *)
Lemma split_low x : x = Z.lxor (Z.shiftl (Z.shiftr x 8) 8) (Z.land x 255).
Proof.
  apply Z.bits_inj'. intros n Hn. rewrite Z.lxor_spec, Z.land_spec.
  change 255 with (Z.ones 8). destruct (decide (n < 8)).
  - rewrite Z.shiftl_spec_low, Z.ones_spec_low by lia. by rewrite andb_true_r, xorb_false_l.
  - rewrite Z.shiftl_spec_high, Z.shiftr_spec, Z.ones_spec_high by lia.
    rewrite andb_false_r, xorb_false_r. f_equal. lia.
Qed.

Lemma low_byte_range x : 0 ≤ Z.land x 255 < 256.
Proof. change 255 with (Z.ones 8). rewrite Z.land_ones by done. by apply Z.mod_pos_bound. Qed.

Lemma land_bit x k : 0 ≤ k → negb (Z.land x (2 ^ k) =? 0) = Z.testbit x k.
Proof.
  intros Hk. destruct (Z.eqb_spec (Z.land x (2 ^ k)) 0) as [E|E]; simpl.
  - assert (Z.testbit (Z.land x (2 ^ k)) k = false) as H by (by rewrite E, Z.bits_0).
    rewrite Z.land_spec, Z.pow2_bits_true, andb_true_r in H by done. done.
  - destruct (Z.testbit x k) eqn:Hb; [done|]. exfalso. apply E, Z.bits_inj'. intros n Hn.
    rewrite Z.land_spec, Z.bits_0. destruct (decide (n = k)) as [->|].
    + by rewrite Hb.
    + by rewrite Z.pow2_bits_false, andb_false_r.
Qed.

(** ** Division steps are linear over exclusive or *)

Definition linear (f : Z → Z) : Prop := ∀ x y, f (Z.lxor x y) = Z.lxor (f x) (f y).

Lemma select_lxor (b c : bool) p :
  (if xorb b c then p else 0) = Z.lxor (if b then p else 0) (if c then p else 0).
Proof. destruct b, c; simpl; by rewrite ?Z.lxor_nilpotent, ?Z.lxor_0_r, ?Z.lxor_0_l. Qed.

Lemma lxor_swap a b c d : Z.lxor (Z.lxor a b) (Z.lxor c d) = Z.lxor (Z.lxor a c) (Z.lxor b d).
Proof.
  rewrite !Z.lxor_assoc. f_equal. rewrite <-!Z.lxor_assoc. f_equal. apply Z.lxor_comm.
Qed.

Lemma lsb_step_linear p : linear (lsb_step p).
Proof.
  intros x y. unfold lsb_step. rewrite Z.shiftr_lxor, <-!Z.bit0_odd, Z.lxor_spec, select_lxor.
  apply lxor_swap.
Qed.

Lemma msb_step_linear w p : 0 ≤ w → linear (msb_step w p).
Proof.
  intros Hw x y. unfold msb_step.
  rewrite Z.shiftl_lxor, wrap_lxor, Z.lxor_spec, select_lxor by done. apply lxor_swap.
Qed.

Lemma iter_linear n f : linear f → linear (Nat.iter n f).
Proof. intros Hf x y. induction n as [|n IH]; simpl; [done|]. by rewrite IH, Hf. Qed.

Lemma linear_0 f : linear f → f 0 = 0.
Proof.
  intros Hf. rewrite <-(Z.lxor_nilpotent 0) at 1. by rewrite Hf, Z.lxor_nilpotent.
Qed.

Lemma iter_step {A} n (f : A → A) x : Nat.iter n f (f x) = f (Nat.iter n f x).
Proof. induction n as [|n IH]; simpl; [done|]. by rewrite IH. Qed.

Lemma iter_pull {A} (f : A → A) n (P : A → Prop) x :
  (∀ y, P y → P (f y)) → P x → P (Nat.iter n f x).
Proof. intros Hf Hx. induction n; simpl; auto. Qed.

Lemma lsb_step_even p y : lsb_step p (2 * y) = y.
Proof.
  unfold lsb_step. rewrite Z.odd_mul. simpl. rewrite Z.lxor_0_r, Z.shiftr_div_pow2 by done.
  change (2 ^ 1) with 2. rewrite Z.mul_comm. by apply Z.div_mul.
Qed.

Lemma lsb_iter_high p n h : Nat.iter n (lsb_step p) (Z.shiftl h (Z.of_nat n)) = h.
Proof.
  induction n as [|n IH]; [by rewrite Z.shiftl_0_r|].
  rewrite Nat.iter_succ_r. rewrite <-IH at 2. f_equal.
  rewrite <-(lsb_step_even p (Z.shiftl h (Z.of_nat n))). f_equal.
  rewrite !Z.shiftl_mul_pow2, Nat2Z.inj_succ, Z.pow_succ_r by lia. lia.
Qed.

Lemma lsb_step_range w p x :
  0 ≤ w → 0 ≤ p < 2 ^ w → 0 ≤ x < 2 ^ w → 0 ≤ lsb_step p x < 2 ^ w.
Proof.
  intros Hw Hp Hx. apply lxor_range; [done| |by destruct (Z.odd x); lia].
  rewrite Z.shiftr_div_pow2 by done. change (2 ^ 1) with 2.
  split; [apply Z.div_pos; lia|]. apply Z.div_lt_upper_bound; lia.
Qed.

Lemma msb_step_range w p x : 0 ≤ w → 0 ≤ p < 2 ^ w → 0 ≤ msb_step w p x < 2 ^ w.
Proof.
  intros Hw Hp. apply lxor_range; [done|by apply wrap_range|].
  destruct (Z.testbit x _); lia.
Qed.

(** ** One byte through a table *)

(** The first [n] entries of a table hold the values of [f]. *)
Definition tabulates (table : list Z) (f : Z → Z) : bool :=
  forallb (λ i, entry table (Z.of_nat i) =? f (Z.of_nat i)) (seq 0 256).

Lemma tabulates_entry table f i : tabulates table f = true → is_byte i → entry table i = f i.
Proof.
  unfold tabulates, is_byte. rewrite forallb_forall. intros Hf Hi.
  specialize (Hf (Z.to_nat i)). rewrite Z2Nat.id in Hf by lia.
  apply Z.eqb_eq, Hf, in_seq. lia.
Qed.

(** Eight low-bit-first steps: the table takes the low byte, the rest moves down. *)
Lemma lsb_byte table p crc c :
  tabulates table (Nat.iter 8 (lsb_step p)) = true → is_byte c →
  Z.lxor (Z.shiftr crc 8) (entry table (Z.land (Z.lxor crc c) 0xff)) =
  Nat.iter 8 (lsb_step p) (Z.lxor crc c).
Proof.
  intros Ht Hc. rewrite (split_low (Z.lxor crc c)) at 2.
  rewrite (iter_linear 8 _ (lsb_step_linear p)).
  rewrite (tabulates_entry _ _ _ Ht (low_byte_range _)). f_equal.
  rewrite (lsb_iter_high p 8), Z.shiftr_lxor. rewrite <-(Z.lxor_0_r (Z.shiftr crc 8)) at 1.
  f_equal. rewrite Z.shiftr_div_pow2 by done. symmetry. apply Z.div_small. exact Hc.
Qed.

(** Eight high-bit-first steps on sixteen bits: the table takes the high byte, the
    low byte moves up. *)
Lemma msb_byte table p crc c :
  tabulates table (λ i, Nat.iter 8 (msb_step 16 p) (Z.shiftl i 8)) = true →
  tabulates ((λ i, Z.of_nat i * 256) <$> seq 0 256) (Nat.iter 8 (msb_step 16 p)) = true →
  is_byte c → 0 ≤ crc < 2 ^ 16 →
  Z.lxor (wrap 16 (Z.shiftl crc 8)) (entry table (Z.lxor (Z.shiftr crc 8) c)) =
  Nat.iter 8 (msb_step 16 p) (Z.lxor crc (Z.shiftl c 8)).
Proof.
  intros Ht Hl Hc Hcrc. assert (is_byte (Z.shiftr crc 8)) as Hh.
  { rewrite Z.shiftr_div_pow2 by done. split; [apply Z.div_pos; lia|].
    apply Z.div_lt_upper_bound; lia. }
  rewrite (split_low crc) at 3.
  rewrite (Z.lxor_comm (Z.shiftl _ 8) (Z.land _ _)), Z.lxor_assoc, <-Z.shiftl_lxor.
  rewrite (iter_linear 8 _ (msb_step_linear 16 p ltac:(done))).
  rewrite (tabulates_entry _ _ _ Ht) by (apply (lxor_range 8); [done|exact Hh|exact Hc]).
  f_equal. rewrite <-(tabulates_entry _ _ _ Hl (low_byte_range crc)).
  unfold entry. pose proof (low_byte_range crc).
  rewrite (nth_lookup_Some _ _ _ (Z.land crc 255 * 256)).
  - change 255 with (Z.ones 8). rewrite Z.land_ones by done. unfold wrap.
    rewrite Z.shiftl_mul_pow2 by done. change (2 ^ 16) with (2 ^ 8 * 256).
    change (2 ^ 8) with 256 at 1. apply Z.mul_mod_distr_r; done.
  - apply list_lookup_fmap_Some. exists (Z.to_nat (Z.land crc 255)).
    split; [lia|]. apply lookup_seq. lia.
Qed.

(** ** The loops *)

Lemma foldl_invariant {A B} (P : A → Prop) (Q : B → Prop) (f g : A → B → A) a l :
  (∀ a b, P a → Q b → f a b = g a b ∧ P (g a b)) → P a → Forall Q l →
  foldl f a l = foldl g a l.
Proof.
  intros Hfg Ha Hl. revert a Ha. induction Hl as [|b l Hb _ IH]; intros a Ha; simpl; [done|].
  destruct (Hfg a b Ha Hb) as [-> ?]. by apply IH.
Qed.

(** A loop that feeds [len] bytes to [step] is a fold; the five below are this loop. *)
Ltac loop_fold :=
  let n := fresh "n" in let IH := fresh "IH" in
  intros crc buffer len; revert crc buffer;
  induction len as [|n IH]; intros crc [|c buffer]; simpl; intros;
  [done|done|lia|apply IH; lia].

Section loops.
Context `{CrcBytes}.

Lemma crc16_foldl : ∀ crc buffer len, (len ≤ length buffer)%nat →
  crc16 crc buffer len = Some (foldl crc16_byte crc (take len buffer)).
Proof. loop_fold. Qed.

Lemma crc_ccitt_foldl : ∀ crc buffer len, (len ≤ length buffer)%nat →
  crc_ccitt crc buffer len = Some (foldl crc_ccitt_byte crc (take len buffer)).
Proof. loop_fold. Qed.

Lemma crc_ccitt_false_foldl : ∀ crc buffer len, (len ≤ length buffer)%nat →
  crc_ccitt_false crc buffer len = Some (foldl crc_ccitt_false_byte crc (take len buffer)).
Proof. loop_fold. Qed.

Lemma crc_itu_t_foldl : ∀ crc buffer len, (len ≤ length buffer)%nat →
  crc_itu_t crc buffer len = Some (foldl crc_itu_t_byte crc (take len buffer)).
Proof. loop_fold. Qed.

Lemma crc7_be_foldl : ∀ crc buffer len, (len ≤ length buffer)%nat →
  crc7_be crc buffer len = Some (foldl crc7_be_byte crc (take len buffer)).
Proof. loop_fold. Qed.

Lemma crc16_byte_steps crc c :
  is_byte c → crc16_byte crc c = Nat.iter 8 (lsb_step 0xa001) (Z.lxor crc c).
Proof. intros Hc. rewrite crc16_byte_table. apply lsb_byte; [vm_refl|done]. Qed.

Lemma crc_ccitt_byte_steps crc c :
  is_byte c → crc_ccitt_byte crc c = Nat.iter 8 (lsb_step 0x8408) (Z.lxor crc c).
Proof. intros Hc. rewrite crc_ccitt_byte_table. apply lsb_byte; [vm_refl|done]. Qed.

Lemma crc_ccitt_false_byte_steps crc c :
  is_byte c → 0 ≤ crc < 2 ^ 16 →
  crc_ccitt_false_byte crc c =
  Nat.iter 8 (msb_step 16 0x1021) (Z.lxor crc (Z.shiftl c (16 - 8))).
Proof.
  intros Hc Hcrc. rewrite crc_ccitt_false_byte_table. apply msb_byte; [vm_refl|vm_refl|done|done].
Qed.

Lemma crc_itu_t_byte_steps crc c :
  is_byte c → 0 ≤ crc < 2 ^ 16 →
  crc_itu_t_byte crc c = Nat.iter 8 (msb_step 16 0x1021) (Z.lxor crc (Z.shiftl c (16 - 8))).
Proof.
  intros Hc Hcrc. rewrite crc_itu_t_byte_table.
  rewrite <-(msb_byte crc_itu_t_table) by (done || vm_refl). do 2 f_equal.
  change 255 with (Z.ones 8). rewrite Z.land_ones by done. apply Z.mod_small.
  apply lxor_range; [done| |exact Hc].
  rewrite Z.shiftr_div_pow2 by done. split; [apply Z.div_pos; lia|].
  apply Z.div_lt_upper_bound; lia.
Qed.

Lemma crc7_be_byte_steps crc c :
  is_byte c → is_byte crc →
  crc7_be_byte crc c = Nat.iter 8 (msb_step 8 0x12) (Z.lxor crc (Z.shiftl c (8 - 8))).
Proof.
  intros Hc Hcrc. rewrite crc7_be_byte_table, Z.shiftl_0_r.
  apply (tabulates_entry _ (Nat.iter 8 (msb_step 8 0x12))); [vm_refl|].
  apply (lxor_range 8); [done|exact Hcrc|exact Hc].
Qed.

Lemma msb_iter_range w p x n :
  0 ≤ w → 0 ≤ p < 2 ^ w → 0 ≤ x < 2 ^ w → 0 ≤ Nat.iter n (msb_step w p) x < 2 ^ w.
Proof. intros. apply (iter_pull _ _ (λ y, 0 ≤ y < 2 ^ w)); auto using msb_step_range. Qed.

Lemma lsb_iter_range w p x n :
  0 ≤ w → 0 ≤ p < 2 ^ w → 0 ≤ x < 2 ^ w → 0 ≤ Nat.iter n (lsb_step p) x < 2 ^ w.
Proof. intros. apply (iter_pull _ _ (λ y, 0 ≤ y < 2 ^ w)); auto using lsb_step_range. Qed.

Lemma msb_feed_range w p crc c :
  8 ≤ w → 0 ≤ p < 2 ^ w → 0 ≤ crc < 2 ^ w → is_byte c →
  0 ≤ Nat.iter 8 (msb_step w p) (Z.lxor crc (Z.shiftl c (w - 8))) < 2 ^ w.
Proof.
  intros Hw Hp Hcrc Hc. apply msb_iter_range; [lia|done|]. apply lxor_range; [lia|done|].
  rewrite Z.shiftl_mul_pow2 by lia. unfold is_byte in Hc.
  assert (2 ^ w = 256 * 2 ^ (w - 8)) as ->
    by (change 256 with (2 ^ 8); rewrite <-Z.pow_add_r by lia; f_equal; lia).
  assert (0 < 2 ^ (w - 8)) by (apply Z.pow_pos_nonneg; lia). nia.
Qed.

(** The table-driven CRC routines compute the polynomial remainder bit by bit:
    on a buffer of bytes, a length within it and a 16-bit (8-bit for [crc7_be]) start
    value, [crc16] divides by the reflected 0x8005, [crc_ccitt] by the reflected
    0x1021, [crc_ccitt_false] and [crc_itu_t] by 0x1021, high bit first, and [crc7_be]
    by x^7+x^3+1 left-aligned in a byte; every table entry and the loop take part. *)
Theorem crc_tables_bitwise crc buffer len :
  Forall is_byte buffer → (len ≤ length buffer)%nat → 0 ≤ crc < 2 ^ 16 →
  crc16 crc buffer len = Some (lsb_crc 0xa001 crc (take len buffer)) ∧
  crc_ccitt crc buffer len = Some (lsb_crc 0x8408 crc (take len buffer)) ∧
  crc_ccitt_false crc buffer len = Some (msb_crc 16 0x1021 crc (take len buffer)) ∧
  crc_itu_t crc buffer len = Some (msb_crc 16 0x1021 crc (take len buffer)) ∧
  (is_byte crc → crc7_be crc buffer len = Some (msb_crc 8 0x12 crc (take len buffer))).
Proof.
  intros Hb Hlen Hcrc.
  assert (Forall is_byte (take len buffer)) as Hb' by (by apply Forall_take).
  rewrite crc16_foldl, crc_ccitt_foldl, crc_ccitt_false_foldl, crc_itu_t_foldl, crc7_be_foldl
    by done.
  split_and!; [| | | |intros Hcrc7]; f_equal.
  - apply (foldl_invariant (λ _, True) is_byte); auto using crc16_byte_steps.
  - apply (foldl_invariant (λ _, True) is_byte); auto using crc_ccitt_byte_steps.
  - apply (foldl_invariant (λ x, 0 ≤ x < 2 ^ 16) is_byte); [|done|done]. intros a b Ha Hb1.
    split; [by apply crc_ccitt_false_byte_steps|by apply msb_feed_range].
  - apply (foldl_invariant (λ x, 0 ≤ x < 2 ^ 16) is_byte); [|done|done]. intros a b Ha Hb1.
    split; [by apply crc_itu_t_byte_steps|by apply msb_feed_range].
  - apply (foldl_invariant is_byte is_byte); [|done|done]. intros a b Ha Hb1.
    split; [by apply crc7_be_byte_steps|by apply (msb_feed_range 8)].
Qed.

End loops.

(** ** [crc8]: filling the table *)

(** Entry [i] of the table is [f i] wherever [P i]. *)
Definition filled (P : Z → Prop) (f : Z → Z) (table : list Z) : Prop :=
  length table = CRC8_TABLE_SIZE ∧
  ∀ i, (i < CRC8_TABLE_SIZE)%nat → P (Z.of_nat i) → table !! i = Some (f (Z.of_nat i)).

Lemma put_filled P Q f table i v :
  filled P f table → (i < CRC8_TABLE_SIZE)%nat → v = f (Z.of_nat i) →
  (∀ j, Q j → P j ∨ j = Z.of_nat i) →
  ∃ table', put table i v = Some table' ∧ filled Q f table'.
Proof.
  intros [Hlen Hf] Hi -> HQ. unfold put. rewrite decide_True by lia. eexists. split; [done|].
  split; [by rewrite length_insert|]. intros j Hj HQj.
  destruct (decide (i = j)) as [<-|Hne]; [by rewrite list_lookup_insert_eq by lia|].
  rewrite list_lookup_insert_ne by done. apply Hf; [done|]. destruct (HQ _ HQj); [done|lia].
Qed.

Section msb.
Context (p : Z).

Abbreviation F := (Nat.iter 8 (msb_step 8 p)).

Lemma msb_F_lxor x y : F (Z.lxor x y) = Z.lxor (F x) (F y).
Proof. apply iter_linear, msb_step_linear. done. Qed.

Lemma msb_step_code t :
  Z.lxor (w8 (Z.shiftl t 1)) (if negb (Z.land t 0x80 =? 0) then p else 0) = msb_step 8 p t.
Proof. unfold msb_step. change 0x80 with (2 ^ 7). by rewrite land_bit. Qed.

Lemma msb_F_double k : 0 ≤ k < 7 → msb_step 8 p (F (2 ^ k)) = F (2 ^ (k + 1)).
Proof.
  intros Hk. rewrite <-iter_step. f_equal. unfold msb_step.
  rewrite Z.pow2_bits_false by lia. rewrite Z.lxor_0_r, Z.shiftl_mul_pow2 by done.
  rewrite <-Z.pow_add_r by lia. apply wrap_small.
  split; [apply Z.pow_nonneg; lia|]. apply Z.pow_lt_mono_r; lia.
Qed.

Lemma msb_inner_fills k j n table :
  0 ≤ k < 8 → (j + n = Z.to_nat (2 ^ k))%nat →
  filled (λ i, i < 2 ^ k + Z.of_nat j) F table →
  ∃ table', msb_inner table (F (2 ^ k)) (Z.to_nat (2 ^ k)) j n = Some table' ∧
    filled (λ i, i < 2 ^ (k + 1)) F table'.
Proof.
  intros Hk. assert (2 ^ (k + 1) = 2 * 2 ^ k) as E by (rewrite <-Z.pow_succ_r; lia).
  assert (0 < 2 ^ k ≤ 2 ^ 7) as Hr
    by (split; [apply Z.pow_pos_nonneg|apply Z.pow_le_mono_r]; lia). change (2 ^ 7) with 128 in Hr.
  revert j table. induction n as [|n IH]; intros j table Hjn Hf; cbn [msb_inner].
  - eexists. split; [done|]. rewrite E. replace (2 * 2 ^ k) with (2 ^ k + Z.of_nat j) by lia. done.
  - rewrite (proj2 Hf j) by (unfold CRC8_TABLE_SIZE; lia). cbn [mbind option_bind].
    destruct (put_filled _ (λ i, i < 2 ^ k + Z.of_nat (S j)) _ _ (Z.to_nat (2 ^ k) + j)
      (Z.lxor (F (Z.of_nat j)) (F (2 ^ k))) Hf) as (t' & Hput & Hf').
    + unfold CRC8_TABLE_SIZE. lia.
    + replace (Z.of_nat (Z.to_nat (2 ^ k) + j)) with (2 ^ k + Z.of_nat j) by lia.
      rewrite add_pow2_lxor, msb_F_lxor; [apply Z.lxor_comm|lia|].
      apply testbit_small; lia.
    + intros i Hi. lia.
    + rewrite Hput. cbn [mbind option_bind]. apply IH; [lia|done].
Qed.

Lemma msb_outer_fills n k fuel table t :
  (n = Z.to_nat (8 - k))%nat → 0 ≤ k ≤ 8 → (n < fuel)%nat →
  filled (λ i, i < 2 ^ k) F table → (k < 8 → msb_step 8 p t = F (2 ^ k)) →
  ∃ table', msb_outer fuel table p t (Z.to_nat (2 ^ k)) = Some table' ∧
    filled (λ _, True) F table'.
Proof.
  revert k fuel table t. induction n as [|n IH]; intros k fuel table t Hn Hk Hfuel Hf Ht;
    (destruct fuel as [|fuel]; [lia|]); cbn [msb_outer].
  - assert (k = 8) as -> by lia. eexists. split; [done|]. split; [apply Hf|].
    intros i Hi _. apply Hf; [done|]. unfold CRC8_TABLE_SIZE in Hi. lia.
  - assert (0 < 2 ^ k < 2 ^ 8) as Hr
      by (split; [apply Z.pow_pos_nonneg|apply Z.pow_lt_mono_r]; lia). change (2 ^ 8) with 256 in Hr.
    destruct (Nat.ltb_spec (Z.to_nat (2 ^ k)) CRC8_TABLE_SIZE); [|unfold CRC8_TABLE_SIZE in *; lia].
    rewrite msb_step_code, Ht by lia.
    destruct (msb_inner_fills k 0 (Z.to_nat (2 ^ k)) table) as (t' & Hin & Hf');
      [lia|lia|by rewrite Z.add_0_r|].
    rewrite Hin. cbn [mbind option_bind].
    replace (Z.to_nat (2 ^ k) * 2)%nat with (Z.to_nat (2 ^ (k + 1)))
      by (rewrite Z.pow_add_r by lia; lia).
    apply IH; [lia|lia|lia|done|]. intros. apply msb_F_double. lia.
Qed.

Lemma crc8_populate_msb_fills table :
  length table = CRC8_TABLE_SIZE →
  ∃ table', crc8_populate_msb table p = Some table' ∧ filled (λ _, True) F table'.
Proof.
  intros Hlen. unfold crc8_populate_msb.
  destruct (put_filled (λ _, False) (λ i, i < 2 ^ 0 ∧ 0 ≤ i) F table 0 0) as (t & Hput & Hf).
  - done.
  - unfold CRC8_TABLE_SIZE. lia.
  - symmetry. apply linear_0. intros x y. apply msb_F_lxor.
  - intros j Hj. right. change (2 ^ 0) with 1 in Hj. simpl. lia.
  - rewrite Hput. cbn [mbind option_bind]. apply (msb_outer_fills 8 0 9 t 0x80); [done|done|lia| |].
    + split; [apply Hf|]. intros i Hi Hi1. apply Hf; [done|lia].
    + intros _. change (F (2 ^ 0)) with (msb_step 8 p (Nat.iter 7 (msb_step 8 p) 1)). done.
Qed.

End msb.

Section lsb.
Context (p : Z).

Abbreviation F := (Nat.iter 8 (lsb_step p)).

Lemma lsb_F_lxor x y : F (Z.lxor x y) = Z.lxor (F x) (F y).
Proof. apply iter_linear, lsb_step_linear. Qed.

Lemma lsb_step_code t :
  Z.lxor (Z.shiftr t 1) (if negb (Z.land t 1 =? 0) then p else 0) = lsb_step p t.
Proof.
  unfold lsb_step. pose proof (land_bit t 0 ltac:(done)) as E. change (2 ^ 0) with 1 in E.
  by rewrite E, Z.bit0_odd.
Qed.

Lemma lsb_F_halve k : 0 < k → lsb_step p (F (2 ^ k)) = F (2 ^ (k - 1)).
Proof.
  intros Hk. rewrite <-iter_step. f_equal.
  replace (2 ^ k) with (2 * 2 ^ (k - 1)); [apply lsb_step_even|].
  rewrite <-Z.pow_succ_r by lia. f_equal. lia.
Qed.

(** The entries filled before the pass with stride [2 ^ k] reaches [j]: the multiples
    of [2 ^ (k+1)], and those of [2 ^ k] below [j]. *)
Definition lsb_done (k j i : Z) : Prop := (2 ^ (k + 1) | i) ∨ i < j ∧ (2 ^ k | i).

Lemma lsb_done_next k m i :
  0 ≤ k → lsb_done k (2 ^ (k + 1) * (m + 1)) i →
  lsb_done k (2 ^ (k + 1) * m) i ∨ i = 2 ^ k + 2 ^ (k + 1) * m.
Proof.
  intros Hk. assert (0 < 2 ^ k) by (apply Z.pow_pos_nonneg; lia).
  unfold lsb_done. rewrite Z.pow_add_r by lia. change (2 ^ 1) with 2.
  intros [?|[Hi [q ->]]]; [by left; left|].
  destruct (Z.even q) eqn:Hq.
  - apply Z.even_spec in Hq as [r ->]. left; left. exists r. lia.
  - rewrite <-Z.negb_odd in Hq. apply negb_false_iff, Z.odd_spec in Hq as [r ->].
    destruct (Z.lt_trichotomy r m) as [?|[->|?]]; [|right; lia|exfalso; nia].
    left; right. split; [nia|]. by exists (2 * r + 1).
Qed.

Lemma lsb_inner_fills k n m fuel table :
  0 ≤ k < 8 → (n = Z.to_nat (2 ^ (7 - k) - m))%nat → 0 ≤ m ≤ 2 ^ (7 - k) → (n < fuel)%nat →
  filled (lsb_done k (2 ^ (k + 1) * m)) F table →
  ∃ table', lsb_inner fuel table (F (2 ^ k)) (Z.to_nat (2 ^ k)) (Z.to_nat (2 ^ (k + 1) * m))
    = Some table' ∧ filled (λ i, (2 ^ k | i)) F table'.
Proof.
  intros Hk. assert (2 ^ (k + 1) * 2 ^ (7 - k) = 256) as E
    by (rewrite <-Z.pow_add_r by lia; replace (k + 1 + (7 - k)) with 8 by lia; done).
  assert (0 < 2 ^ k) by (apply Z.pow_pos_nonneg; lia).
  assert (2 ^ (k + 1) = 2 * 2 ^ k) as E1 by (rewrite <-Z.pow_succ_r by lia; done).
  revert m fuel table. induction n as [|n IH]; intros m fuel table Hn Hm Hfuel Hf;
    (destruct fuel as [|fuel]; [lia|]); cbn [lsb_inner].
  - assert (m = 2 ^ (7 - k)) as -> by lia. rewrite E. simpl. eexists. split; [done|].
    split; [apply Hf|]. intros i Hi Hd. apply Hf; [done|]. right. rewrite E.
    split; [unfold CRC8_TABLE_SIZE in Hi; lia|done].
  - destruct (Nat.ltb_spec (Z.to_nat (2 ^ (k + 1) * m)) CRC8_TABLE_SIZE);
      [|unfold CRC8_TABLE_SIZE in *; nia].
    rewrite (proj2 Hf) by (first [done | left; rewrite Z2Nat.id by nia; by exists m; lia]).
    rewrite Z2Nat.id by nia. cbn [mbind option_bind].
    destruct (put_filled _ (lsb_done k (2 ^ (k + 1) * (m + 1))) _ _
      (Z.to_nat (2 ^ k) + Z.to_nat (2 ^ (k + 1) * m))
      (Z.lxor (F (2 ^ (k + 1) * m)) (F (2 ^ k))) Hf) as (t' & Hput & Hf').
    + unfold CRC8_TABLE_SIZE in *. nia.
    + replace (Z.of_nat _) with (2 ^ k + 2 ^ (k + 1) * m) by nia.
      rewrite add_pow2_lxor, lsb_F_lxor; [apply Z.lxor_comm|lia|].
      rewrite Z.mul_comm, <-Z.shiftl_mul_pow2 by lia. apply Z.shiftl_spec_low. lia.
    + intros i Hi. replace (Z.of_nat _) with (2 ^ k + 2 ^ (k + 1) * m) by nia.
      apply lsb_done_next; [lia|done].
    + rewrite Hput. cbn [mbind option_bind].
      replace (Z.to_nat (2 ^ (k + 1) * m) + 2 * Z.to_nat (2 ^ k))%nat
        with (Z.to_nat (2 ^ (k + 1) * (m + 1))) by nia.
      apply IH; [lia|lia|lia|done].
Qed.

Lemma lsb_pass k table :
  0 ≤ k < 8 → filled (λ i, (2 ^ (k + 1) | i)) F table →
  ∃ table', lsb_inner CRC8_TABLE_SIZE table (F (2 ^ k)) (Z.to_nat (2 ^ k)) 0 = Some table' ∧
    filled (λ i, (2 ^ k | i)) F table'.
Proof.
  intros Hk Hf. assert (0 < 2 ^ (7 - k) ≤ 2 ^ 7) as Hr
    by (split; [apply Z.pow_pos_nonneg|apply Z.pow_le_mono_r]; lia).
  pose proof (lsb_inner_fills k (Z.to_nat (2 ^ (7 - k) - 0)) 0 CRC8_TABLE_SIZE table) as Hin.
  rewrite Z.mul_0_r in Hin. apply Hin; [done|done|lia|unfold CRC8_TABLE_SIZE; lia|].
  split; [apply Hf|]. intros i Hi [?|[? _]]; [by apply Hf|lia].
Qed.

Lemma lsb_outer_fills n fuel table t :
  (n ≤ 8)%nat → (n < fuel)%nat →
  filled (λ i, (2 ^ Z.of_nat n | i)) F table →
  ((0 < n)%nat → lsb_step p t = F (2 ^ (Z.of_nat n - 1))) →
  ∃ table', lsb_outer fuel table p t (Z.to_nat (2 ^ Z.of_nat n) / 2) = Some table' ∧
    filled (λ _, True) F table'.
Proof.
  revert fuel table t. induction n as [|n IH]; intros fuel table t Hn Hfuel Hf Ht;
    (destruct fuel as [|fuel]; [lia|]); cbn [lsb_outer].
  - eexists. split; [done|]. split; [apply Hf|]. intros i Hi _. apply Hf; [done|].
    apply Z.divide_1_l.
  - replace (Z.of_nat (S n)) with (Z.of_nat n + 1) in * by lia.
    rewrite Z.add_simpl_r in Ht.
    assert (0 < 2 ^ Z.of_nat n) by (apply Z.pow_pos_nonneg; lia).
    replace (Z.to_nat (2 ^ (Z.of_nat n + 1)) / 2)%nat with (Z.to_nat (2 ^ Z.of_nat n)).
    2:{ rewrite Z.pow_add_r, Z2Nat.inj_mul by lia. symmetry. by apply Nat.div_mul. }
    destruct (Nat.ltb_spec 0 (Z.to_nat (2 ^ Z.of_nat n))); [|lia].
    rewrite lsb_step_code, Ht by lia.
    destruct (lsb_pass (Z.of_nat n) table) as (t' & Hin & Hf'); [lia|done|].
    rewrite Hin. cbn [mbind option_bind]. apply IH; [lia|lia|done|].
    intros. apply lsb_F_halve. lia.
Qed.

Lemma crc8_populate_lsb_fills table :
  length table = CRC8_TABLE_SIZE →
  ∃ table', crc8_populate_lsb table p = Some table' ∧ filled (λ _, True) F table'.
Proof.
  intros Hlen. unfold crc8_populate_lsb.
  destruct (put_filled (λ _, False) (λ i, i = 0) F table 0 0) as (t & Hput & Hf).
  - done.
  - unfold CRC8_TABLE_SIZE. lia.
  - symmetry. apply linear_0. intros x y. apply lsb_F_lxor.
  - intros j Hj. by right.
  - rewrite Hput. cbn [mbind option_bind]. apply (lsb_outer_fills 8 9 t 1); [lia|lia| |].
    + split; [apply Hf|]. intros i Hi [q Hq]. apply Hf; [done|].
      unfold CRC8_TABLE_SIZE in Hi. change (2 ^ Z.of_nat 8) with 256 in Hq. lia.
    + intros _. symmetry. change (2 ^ (Z.of_nat 8 - 1)) with (Z.shiftl 1 (Z.of_nat 7)).
      change (F (Z.shiftl 1 (Z.of_nat 7))) with
        (lsb_step p (Nat.iter 7 (lsb_step p) (Z.shiftl 1 (Z.of_nat 7)))).
      by rewrite lsb_iter_high.
Qed.

End lsb.

Lemma crc8_foldl table f pdata nbytes crc :
  filled (λ _, True) f table → (∀ x, is_byte x → is_byte (f x)) →
  is_byte crc → Forall is_byte pdata → (nbytes ≤ length pdata)%nat →
  crc8 table pdata nbytes crc =
    Some (foldl (λ crc c, f (Z.lxor crc c)) crc (take nbytes pdata)).
Proof.
  intros Hf Hr Hcrc Hp. revert nbytes crc Hcrc.
  induction Hp as [|c pdata Hc _ IH]; intros [|n] crc Hcrc Hn; simpl in *; [done|lia|done|].
  assert (0 ≤ Z.lxor crc c < 2 ^ 8) as Hx by (apply lxor_range; [done|exact Hcrc|exact Hc]).
  change 255 with (Z.ones 8). rewrite Z.land_ones, Z.mod_small by done.
  change (2 ^ 8) with 256 in Hx.
  rewrite (proj2 Hf) by (done || unfold CRC8_TABLE_SIZE; lia). simpl.
  rewrite Z2Nat.id by lia. apply IH; [by apply Hr|lia].
Qed.

(** for every byte polynomial, [crc8_populate_msb] and [crc8_populate_lsb] fill the
    whole table of 256 entries whatever it held, and [crc8] with that table computes
    the remainder bit by bit, high bit first and low bit first. *)
Theorem crc8_bitwise table polynomial pdata nbytes crc :
  length table = CRC8_TABLE_SIZE → is_byte polynomial → is_byte crc →
  Forall is_byte pdata → (nbytes ≤ length pdata)%nat →
  (∃ t, crc8_populate_msb table polynomial = Some t ∧
    crc8 t pdata nbytes crc = Some (msb_crc 8 polynomial crc (take nbytes pdata))) ∧
  (∃ t, crc8_populate_lsb table polynomial = Some t ∧
    crc8 t pdata nbytes crc = Some (lsb_crc polynomial crc (take nbytes pdata))).
Proof.
  intros Hlen Hp Hcrc Hd Hn. split.
  - destruct (crc8_populate_msb_fills polynomial table Hlen) as (t & Ht & Hf).
    exists t. split; [done|].
    by rewrite (crc8_foldl t _ pdata nbytes crc Hf); [|by intros; apply (msb_iter_range 8)|done..].
  - destruct (crc8_populate_lsb_fills polynomial table Hlen) as (t & Ht & Hf).
    exists t. split; [done|].
    by rewrite (crc8_foldl t _ pdata nbytes crc Hf); [|by intros; apply (lsb_iter_range 8)|done..].
Qed.

(** ** Witnesses *)

(** The inline functions of the headers, as their laws state them. *)
Definition crc_headers : CrcBytes.
Proof. unshelve econstructor; [..|done|done|done|done|done]. Defined.

(** The check string of the CRC catalogues: ARC, KERMIT, CCITT-FALSE, XMODEM and MMC. *)
Lemma crc_tables_bitwise_witness :
  crc16 (H := crc_headers) 0 (B "123456789") 9 = Some 0xbb3d ∧
  crc_ccitt (H := crc_headers) 0 (B "123456789") 9 = Some 0x2189 ∧
  crc_ccitt_false (H := crc_headers) 0xffff (B "123456789") 9 = Some 0x29b1 ∧
  crc_itu_t (H := crc_headers) 0 (B "123456789") 9 = Some 0x31c3 ∧
  crc7_be (H := crc_headers) 0 (B "123456789") 9 = Some 0xea.
Proof.
  pose proof (crc_tables_bitwise (H := crc_headers) 0 (B "123456789") 9
    ltac:(vm_decide) ltac:(simpl; lia) ltac:(lia)) as (H1 & H2 & _ & H4 & H5).
  pose proof (crc_tables_bitwise (H := crc_headers) 0xffff (B "123456789") 9
    ltac:(vm_decide) ltac:(simpl; lia) ltac:(lia)) as (_ & _ & H3 & _).
  specialize (H5 ltac:(vm_decide)).
  split_and!; [rewrite H1|rewrite H2|rewrite H3|rewrite H4|rewrite H5]; vm_refl.
Defined.

(** CRC-8 (0x07) and its reflected form with the catalogue's check string. *)
Lemma crc8_bitwise_witness :
  (t ← crc8_populate_msb (replicate 256 0xaa) 0x07; crc8 t (B "123456789") 9 0) = Some 0xf4 ∧
  (t ← crc8_populate_lsb (replicate 256 0xaa) 0xe0; crc8 t (B "123456789") 9 0) = Some 0x20.
Proof.
  pose proof (crc8_bitwise (replicate 256 0xaa) 0x07 (B "123456789") 9 0 ltac:(done)
    ltac:(vm_decide) ltac:(vm_decide) ltac:(vm_decide) ltac:(simpl; lia)) as [(t & E & H) _].
  pose proof (crc8_bitwise (replicate 256 0xaa) 0xe0 (B "123456789") 9 0 ltac:(done)
    ltac:(vm_decide) ltac:(vm_decide) ltac:(vm_decide) ltac:(simpl; lia)) as [_ (u & E' & H')].
  rewrite E, E'. cbn [mbind option_bind]. rewrite H, H'. split; vm_refl.
Defined.

End KCrc.
