(* ===== verification/KCmdline.v ===== *)
(** * The kernel command line, [lib/cmdline.c], and the old conversions of
    [lib/vsprintf.c]

    A string is the list of its bytes with the NUL; a pointer into it is what
    remains from there on, and two pointers into one string are equal when the
    remainders have one length.  [None] is an access outside an object.  An [int]
    wraps: the kernel is built with [-fno-strict-overflow] ([Makefile]). *)
From stdpp Require Import base numbers sets strings list.
From S2P Require Import Prelude Ctype KString KStrtox.

(** ** The conversions behind the parsers *)

Module KVsprintf.
Import KStrtox.
Local Open Scope Z_scope.

Section vsprintf.
Context `{Ctype} (BITS_PER_LONG : Z).

(** The value, and what [*endp] is set to. *)
Definition simple_strtoull (cp : bytes) (base : Z) : option (Z * bytes) :=
  fx ← _parse_integer_fixup_radix cp base;
  let '(cp, base) := (fx : bytes * Z) in
  r ← _parse_integer cp base;
  let '(rv, result) := (r : Z * Z) in
  Some (result, drop (Z.to_nat (Z.land rv (Z.lnot KSTRTOX_OVERFLOW))) cp).

Definition simple_strtoul (cp : bytes) (base : Z) : option (Z * bytes) :=
  r ← simple_strtoull cp base;
  Some (wrap BITS_PER_LONG r.1, r.2).

Definition simple_strtol (cp : bytes) (base : Z) : option (Z * bytes) :=
  c ← cp !! 0%nat;
  if c =? 45 then
    r ← simple_strtoul (drop 1 cp) base;
    Some (signed BITS_PER_LONG (- r.1), r.2)
  else
    r ← simple_strtoul cp base;
    Some (signed BITS_PER_LONG r.1, r.2).

Definition simple_strtoll (cp : bytes) (base : Z) : option (Z * bytes) :=
  c ← cp !! 0%nat;
  if c =? 45 then
    r ← simple_strtoull (drop 1 cp) base;
    Some (signed 64 (- r.1), r.2)
  else
    r ← simple_strtoull cp base;
    Some (signed 64 r.1, r.2).

(** ** What they read *)

(** The value of the numeral at the start of a string, and what follows it. *)
Definition scan_number (base : Z) (s : bytes) : Z * bytes :=
  let '(t, b) := prefix_radix base s in
  let '(ds, rest) := numeral b t in (eval_from b 0 ds, rest).

Lemma clear_overflow n (b : bool) : 0 ≤ n < 2 ^ 31 →
  Z.land (n + (if b then KSTRTOX_OVERFLOW else 0)) (Z.lnot KSTRTOX_OVERFLOW) = n.
Proof.
  intros Hn. destruct (set_overflow n Hn) as (Hset & _ & Hclear & _).
  assert (Z.ldiff n KSTRTOX_OVERFLOW = n) as Hd.
  { rewrite <-(Z.add_0_r (Z.ldiff _ _)), <-Hclear, Z.add_comm, Z.add_nocarry_lxor.
    - apply Z.bits_inj'. intros i Hi. rewrite Z.lxor_spec, Z.land_spec, Z.ldiff_spec.
      by destruct (Z.testbit n i), (Z.testbit _ i).
    - apply Z.bits_inj'. intros i Hi. rewrite !Z.land_spec, Z.ldiff_spec, Z.bits_0.
      by destruct (Z.testbit n i), (Z.testbit _ i). }
  rewrite <-Z.ldiff_land. destruct b; [|by rewrite Z.add_0_r].
  rewrite <-Hset. rewrite <-Hd at 2. apply Z.bits_inj'. intros i Hi.
  rewrite !Z.ldiff_spec, Z.lor_spec. by destruct (Z.testbit n i), (Z.testbit _ i).
Qed.

Lemma simple_strtoull_spec base s : is_cstr s → zlen s < 2 ^ 31 → base = 0 ∨ 2 ≤ base ≤ 16 →
  simple_strtoull (s ++ [NUL]) base =
  Some (w64 (scan_number base s).1, (scan_number base s).2 ++ [NUL]).
Proof.
  intros Hs Hl Hb. unfold simple_strtoull, scan_number. rewrite fixup_radix_spec by done.
  cbn [mbind option_bind]. pose proof (prefix_radix_suffix base s) as Hsuf.
  pose proof (prefix_radix_base base s Hb) as Hb'. pose proof (suffix_length _ _ Hsuf) as Hsl.
  destruct (prefix_radix base s) as [t b]. cbn [fst snd] in *.
  pose proof (numeral_length b t) as Hnl. pose proof (numeral_rest b t) as Hnr.
  assert (zlen (numeral b t).1 < 2 ^ 31) as Hlt by (unfold zlen in *; lia).
  rewrite parse_integer_spec; rewrite ?numeral_app_nul; cbn [fst snd]; [|done| |done].
  2: { intros Hnil%(f_equal length). rewrite length_app in Hnil. simpl in Hnil. lia. }
  destruct (numeral b t) as [ds rest]. cbn [mbind option_bind fst snd] in *.
  pose proof (zlen_nonneg ds). unfold flag. rewrite clear_overflow by lia.
  unfold zlen. by rewrite Nat2Z.id, drop_app_le, Hnr by done.
Qed.

Lemma scan_number_suffix base s : (scan_number base s).2 `suffix_of` s.
Proof.
  unfold scan_number. pose proof (prefix_radix_suffix base s). destruct (prefix_radix base s) as [t b].
  pose proof (numeral_suffix b t). destruct (numeral b t). cbn in *. by etrans.
Qed.

Lemma scan_number_nonneg base s : base = 0 ∨ 2 ≤ base ≤ 16 → 0 ≤ (scan_number base s).1.
Proof.
  intros Hb. unfold scan_number. pose proof (prefix_radix_base base s Hb).
  destruct (prefix_radix base s) as [t b]. pose proof (numeral_digits b t).
  destruct (numeral b t) as [ds rest]. cbn in *. by apply eval_from_ge; [lia|lia|].
Qed.

(** ** Decimal numerals under the automatic base *)

(** What may follow a decimal numeral: nothing that continues it. *)
Definition ends_number (rest : bytes) : Prop :=
  match rest with
  | [] => True
  | c :: _ => digit_val 10 c = None ∧ c ≠ 88 ∧ c ≠ 120
  end.

Lemma digit_val_less b b' c : b' ≤ b → digit_val b c = None → digit_val b' c = None.
Proof.
  unfold digit_val. intros Hb.
  match goal with |- mbind _ ?e = None → _ => destruct e as [v|]; cbn; [|done] end.
  destruct (Z.leb_spec b v), (Z.leb_spec b' v); try done; lia.
Qed.

Lemma numeral_ends b rest : b ≤ 10 → ends_number rest → numeral b rest = ([], rest).
Proof.
  intros Hb. destruct rest as [|c rest]; cbn; [done|]. intros (Hc & _).
  by rewrite (digit_val_less 10 b c).
Qed.

Lemma numeral_digit_chars b ds rest : b ≤ 10 → Forall (λ d, 0 ≤ d < b) ds → ends_number rest →
  numeral b ((digit_char <$> ds) ++ rest) = (ds, rest).
Proof.
  intros Hb Hds Hr. induction Hds as [|d ds Hd _ IH]; cbn; [by apply numeral_ends|].
  rewrite digit_val_char by lia. by rewrite IH.
Qed.

Lemma digits_lead fuel base n :
  2 ≤ base → 0 < n < 2 ^ Z.of_nat fuel → digits fuel base n !! 0%nat ≠ Some 0.
Proof.
  intros Hb. revert n. induction fuel as [|fuel IH]; intros n Hn; cbn [digits]; [done|].
  rewrite Nat2Z.inj_succ, Z.pow_succ_r in Hn by lia. case_match; bool_to_prop.
  { cbn. intros [= ->]. lia. }
  assert (0 < n / base < 2 ^ Z.of_nat fuel) as Hq.
  { split; [apply Z.div_str_pos; lia|]. apply Z.div_lt_upper_bound; nia. }
  pose proof (IH _ Hq) as Hlead.
  destruct (digits_spec fuel base (n / base)) as (_ & _ & _ & Hne); [lia|lia|].
  destruct (digits fuel base (n / base)); [|done]. exfalso. apply Hne; [|done].
  destruct fuel; [simpl in Hq; lia|lia].
Qed.

Lemma scan_number_print n rest : 0 ≤ n → ends_number rest →
  scan_number 0 (print_nat 10 n ++ rest) = (n, rest).
Proof.
  intros Hn Hr. unfold scan_number. destruct (Z.eq_dec n 0) as [->|Hn0].
  - change (print_nat 10 0 ++ rest) with (48 :: rest).
    assert (prefix_radix 0 (48 :: rest) = (48 :: rest, 8)) as ->.
    { unfold prefix_radix. cbn [Z.eqb]. destruct rest as [|c rest]; [done|].
      destruct Hr as (_ & H88 & H120). apply Z.eqb_neq in H88, H120. by rewrite H88, H120. }
    change (48 :: rest) with ((digit_char <$> [0]) ++ rest).
    by rewrite numeral_digit_chars by (try done; repeat constructor; lia).
  - destruct (print_nat_digits 10 n) as (d & ds & E & He & Hds & _); [lia|lia|].
    assert (d ≠ 0) as Hd.
    { pose proof (digits_lead (S (Z.to_nat (Z.log2 n))) 10 n) as Hlead. intros ->.
      unfold print_nat in E. apply Hlead; [lia|split; [lia|by apply log2_fuel; lia]|].
      destruct (digits _ 10 n) as [|d' ds']; cbn in *; simplify_eq. f_equal.
      unfold digit_char in *. repeat case_match; bool_to_prop; lia. }
    rewrite E. apply Forall_cons in Hds as Hds'.
    assert (prefix_radix 0 ((digit_char <$> d :: ds) ++ rest) = ((digit_char <$> d :: ds) ++ rest, 10)) as ->.
    { cbn [fmap list_fmap app]. unfold prefix_radix.
      rewrite (proj2 (Z.eqb_neq (digit_char d) 48)); [done|]. unfold digit_char.
      case_match; bool_to_prop; lia. }
    by rewrite numeral_digit_chars, He.
Qed.

(** A printed [long] is read back by [simple_strtol]. *)
Lemma strtol_print_long z rest :
  32 ≤ BITS_PER_LONG ≤ 64 → - 2 ^ (BITS_PER_LONG - 1) ≤ z < 2 ^ (BITS_PER_LONG - 1) →
  is_cstr rest → ends_number rest → zlen (print_int 10 z ++ rest) < 2 ^ 31 →
  simple_strtol ((print_int 10 z ++ rest) ++ [NUL]) 0 = Some (z, rest ++ [NUL]).
Proof.
  intros HB Hz Hc Hr Hl. set (P := 2 ^ (BITS_PER_LONG - 1)) in *.
  assert (2 ^ BITS_PER_LONG = 2 * P) as HP2
    by (unfold P; rewrite <-Z.pow_succ_r by lia; f_equal; lia).
  assert (2 ^ BITS_PER_LONG ≤ 2 ^ 64) as HP64 by (apply Z.pow_le_mono_r; lia).
  assert (0 < P) as HP by (apply Z.pow_pos_nonneg; lia).
  assert (∀ n, 0 ≤ n ≤ P → zlen (print_nat 10 n ++ rest) < 2 ^ 31 →
    simple_strtoul ((print_nat 10 n ++ rest) ++ [NUL]) 0 = Some (n, rest ++ [NUL])) as Hnat.
  { intros n Hn Hln. unfold simple_strtoul. rewrite simple_strtoull_spec; [|  |done|lia].
    - rewrite scan_number_print by (done || lia). cbn. unfold w64.
      by rewrite (wrap_small 64 n), wrap_small by lia.
    - pose proof (print_int_cstr 10 n [] ltac:(lia) ltac:(by left)) as Hcn. unfold print_int in Hcn.
      rewrite (proj2 (Z.ltb_ge _ _)), app_nil_r in Hcn by lia. by apply Forall_app. }
  assert (signed BITS_PER_LONG z = z) as Hsz.
  { symmetry. apply Z.eqb_eq. rewrite signed_fits by lia. apply andb_true_iff.
    by rewrite Z.leb_le, Z.ltb_lt. }
  unfold simple_strtol, print_int in *. destruct (Z.ltb_spec z 0).
  - cbn [app lookup list_lookup mbind option_bind]. rewrite Z.eqb_refl, skipn_cons, drop_0.
    rewrite (Hnat (- z) ltac:(lia) ltac:(zlen_lia)). cbn. by rewrite Z.opp_involutive, Hsz.
  - pose proof (Hnat z ltac:(lia) Hl) as E. rewrite E.
    destruct (print_nat_digits 10 z) as (d & ds & E' & _ & Hds & _); [lia|lia|].
    apply Forall_cons in Hds as [Hd _]. rewrite E'.
    cbn [fmap list_fmap app lookup list_lookup mbind option_bind fst snd].
    pose proof (digit_char_plain d ltac:(lia)). rewrite (proj2 (Z.eqb_neq _ 45)) by lia.
    by rewrite Hsz.
Qed.

Lemma strtol_print_int z rest :
  32 ≤ BITS_PER_LONG ≤ 64 → - 2 ^ 31 ≤ z < 2 ^ 31 → is_cstr rest → ends_number rest →
  zlen (print_int 10 z ++ rest) < 2 ^ 31 →
  simple_strtol ((print_int 10 z ++ rest) ++ [NUL]) 0 = Some (z, rest ++ [NUL]).
Proof.
  intros HB Hz. apply strtol_print_long; [done|].
  assert (2 ^ 31 ≤ 2 ^ (BITS_PER_LONG - 1)) by (apply Z.pow_le_mono_r; lia). lia.
Qed.

(** Where a conversion ends: after the sign, if it takes one, and the digits. *)
Definition number_end (sign : bool) (base : Z) (s : bytes) : bytes :=
  match s with
  | 45 :: s' => if sign then (scan_number base s').2 else (scan_number base s).2
  | _ => (scan_number base s).2
  end.

Lemma simple_strtoul_end base s : is_cstr s → zlen s < 2 ^ 31 → base = 0 ∨ 2 ≤ base ≤ 16 →
  ∃ v, simple_strtoul (s ++ [NUL]) base = Some (v, number_end false base s ++ [NUL]).
Proof.
  intros Hs Hl Hb. unfold simple_strtoul. rewrite simple_strtoull_spec by done. eexists. cbn.
  do 3 f_equal. unfold number_end. by repeat case_match.
Qed.

Lemma simple_strtol_end base s : is_cstr s → zlen s < 2 ^ 31 → base = 0 ∨ 2 ≤ base ≤ 16 →
  ∃ v, simple_strtol (s ++ [NUL]) base = Some (v, number_end true base s ++ [NUL]).
Proof.
  intros Hs Hl Hb. unfold simple_strtol.
  destruct (simple_strtoul_end base s Hs Hl Hb) as (v & E). rewrite E.
  destruct s as [|c s]; [by eexists|]. cbn [app lookup list_lookup mbind option_bind].
  destruct (Z.eqb_spec c 45) as [->|Hc].
  - apply Forall_cons in Hs as [_ Hs]. rewrite zlen_cons in Hl. rewrite skipn_cons, drop_0.
    destruct (simple_strtoul_end base s Hs ltac:(lia) Hb) as (v' & ->). eexists. cbn.
    do 3 f_equal. unfold number_end. by repeat case_match.
  - eexists. cbn. do 3 f_equal. unfold number_end. by repeat case_match.
Qed.

Lemma number_end_suffix sign base s : number_end sign base s `suffix_of` s.
Proof.
  unfold number_end. pose proof (scan_number_suffix base) as Hs. repeat case_match; try done.
  apply suffix_cons_r, Hs.
Qed.

End vsprintf.
End KVsprintf.

Module KCmdline.
Import KStrtox KVsprintf.
Local Open Scope Z_scope.

Section cmdline.
Context `{Ctype} (BITS_PER_LONG : Z).

Abbreviation simple_strtol := (simple_strtol BITS_PER_LONG).

(** An [int] array, by a signed index. *)
Definition elem_at (ints : list Z) (i : Z) : option Z :=
  if i <? 0 then None else ints !! Z.to_nat i.

Definition set_elem (ints : list Z) (i : Z) (v : Z) : option (list Z) :=
  if (0 <=? i) && (i <? zlen ints) then Some (<[Z.to_nat i := v]> ints) else None.

(** [for (x = *pint; n && x < upper_range; x++, n--) *pint++ = x;] *)
Fixpoint range_loop (n : nat) (ints : list Z) (pint x upper_range : Z) : option (list Z) :=
  match n with
  | O => Some ints
  | S n =>
      if x <? upper_range then
        ints ← set_elem ints pint x;
        range_loop n ints (pint + 1) (x + 1) upper_range
      else Some ints
  end.

(** [pint] is the index of the element pointed to; [n] is positive. *)
Definition get_range (str : bytes) (ints : list Z) (pint n : Z) :
    option (Z * bytes * list Z) :=
  let str := drop 1 str in
  r ← simple_strtol str 0;
  let upper_range := signed 32 r.1 in
  x ← elem_at ints pint;
  let inc_counter := signed 32 (upper_range - x) in
  ints ← range_loop (Z.to_nat n) ints pint x upper_range;
  Some (inc_counter, str, ints).

(** The return value, what [*str] is after the call and what is stored in [*pint],
    if anything; the pointer [*str] may be null. *)
Definition get_option (str : option bytes) : option (Z * option bytes * option Z) :=
  match str with
  | None => Some (0, str, None)
  | Some cur =>
      c ← cur !! 0%nat;
      if c =? NUL then Some (0, str, None)
      else
        r ← simple_strtol cur 0;
        let pint := Some (signed 32 r.1) in
        let str := r.2 in
        if (length cur =? length str)%nat then Some (0, Some str, pint)
        else
          c ← str !! 0%nat;
          if c =? 44 then Some (2, Some (drop 1 str), pint)
          else if c =? 45 then Some (3, Some str, pint)
          else Some (1, Some str, pint)
  end.

(** [while (i < nints)]; every pass takes a byte at least from the string. *)
Fixpoint options_loop (fuel : nat) (str : option bytes) (nints : Z) (ints : list Z) (i : Z) :
    option (option bytes * list Z * Z) :=
  match fuel with
  | O => None
  | S fuel =>
      if i <? nints then
        r ← get_option str;
        let '(res, str, pint) := (r : Z * option bytes * option Z) in
        ints ← match pint with Some v => set_elem ints i v | None => Some ints end;
        if res =? 0 then Some (str, ints, i)
        else if res =? 3 then
          s ← str;
          g ← get_range s ints i (nints - i);
          let '(range_nums, s, ints) := (g : Z * bytes * list Z) in
          if range_nums <? 0 then Some (Some s, ints, i)
          else options_loop fuel (Some s) nints ints (signed 32 (signed 32 (i + (range_nums - 1)) + 1))
        else
          let i := i + 1 in
          if res =? 1 then Some (str, ints, i) else options_loop fuel str nints ints i
      else Some (str, ints, i)
  end.

Definition get_options (str : option bytes) (nints : Z) (ints : list Z) :
    option (option bytes * list Z) :=
  r ← options_loop (S (from_option length 0%nat str)) str nints ints 1;
  let '(str, ints, i) := (r : option bytes * list Z * Z) in
  ints ← set_elem ints 0 (i - 1);
  Some (str, ints).

(** The [switch] of [memparse]: the number of shifts a case falls through. *)
Definition suffix_shifts (c : Z) : option nat :=
  if bool_decide (c ∈ B "Ee") then Some 6%nat
  else if bool_decide (c ∈ B "Pp") then Some 5%nat
  else if bool_decide (c ∈ B "Tt") then Some 4%nat
  else if bool_decide (c ∈ B "Gg") then Some 3%nat
  else if bool_decide (c ∈ B "Mm") then Some 2%nat
  else if bool_decide (c ∈ B "Kk") then Some 1%nat
  else None.

Definition memparse (ptr : bytes) : option (Z * bytes) :=
  r ← simple_strtoull ptr 0;
  let '(ret, endptr) := (r : Z * bytes) in
  c ← endptr !! 0%nat;
  match suffix_shifts c with
  | Some n => Some (Nat.iter n (λ ret, w64 (Z.shiftl ret 10)) ret, drop 1 endptr)
  | None => Some (ret, endptr)
  end.

(** [while ( *str && *str != ',') str++; if ( *str == ',') str++;] *)
Fixpoint skip_field (str : bytes) : option bytes :=
  match str with
  | [] => None
  | c :: str' =>
      if negb (c =? NUL) && negb (c =? 44) then skip_field str'
      else if c =? 44 then Some str' else Some str
  end.

Fixpoint option_loop (fuel : nat) (str option_ : bytes) : option bool :=
  match fuel with
  | O => None
  | S fuel =>
      c ← str !! 0%nat;
      if c =? NUL then Some false
      else
        len ← KString.strlen option_;
        r ← KString.strncmp str option_ len;
        if r =? 0 then
          let str := drop len str in
          c ← str !! 0%nat;
          if (c =? NUL) || (c =? 44) then Some true
          else str ← skip_field str; option_loop fuel str option_
        else str ← skip_field str; option_loop fuel str option_
  end.

Definition parse_option_str (str option_ : bytes) : option bool :=
  option_loop (length str) str option_.

(** The loop of [next_arg] over the bytes from [args + i]: where it stops, and
    [equals].  The string has less than [2 ^ 32] bytes. *)
Fixpoint arg_scan (s : bytes) (i equals : nat) (in_quote : bool) : option (nat * nat) :=
  match s with
  | [] => None
  | c :: s =>
      if c =? NUL then Some (i, equals)
      else if isspace c && negb in_quote then Some (i, equals)
      else
        let equals := if (equals =? 0)%nat && (c =? 61) then i else equals in
        arg_scan s (S i) equals (if c =? 34 then negb in_quote else in_quote)
  end.

(** [args[i-1]], where [i] is an [unsigned int]. *)
Definition prev_index (args i : nat) : Z := Z.of_nat args + w32 (Z.of_nat i - 1).

(** A quote at [args[i-1]] becomes the NUL. *)
Definition drop_quote (m : bytes) (args i : nat) : option bytes :=
  c ← elem_at m (prev_index args i);
  if c =? 34 then set_elem m (prev_index args i) NUL else Some m.

(** The value: [args[equals]] becomes a NUL, and quotes around the value go. *)
Definition split_value (m : bytes) (args i equals : nat) : option (bytes * option nat) :=
  if (equals =? 0)%nat then Some (m, None)
  else
    m ← KString.store_at m (args + equals) NUL;
    let val := (args + equals + 1)%nat in
    c ← m !! val;
    if c =? 34 then m ← drop_quote m args i; Some (m, Some (S val)) else Some (m, Some val).

(** The end of the argument: a NUL at [args[i]], and the spaces after it skipped. *)
Definition cut_arg (m : bytes) (pos : nat) : option (bytes * nat) :=
  c ← m !! pos;
  mn ← (if negb (c =? NUL) then
          m ← KString.store_at m pos NUL; Some (m, S pos)
        else Some (m, pos));
  let '(m, next) := (mn : bytes * nat) in
  sp ← KString.skip_spaces (drop next m);
  Some (m, next + sp)%nat.

(** [m] is the memory from [args] on.  The result is the new memory, the offsets
    [*param] and [*val] ([None] for [NULL]), and the offset returned. *)
Definition next_arg (m : bytes) : option (bytes * nat * option nat * nat) :=
  c ← m !! 0%nat;
  let quoted := c =? 34 in
  let args := if quoted then 1%nat else 0%nat in
  r ← arg_scan (drop args m) 0 0 quoted;
  let '(i, equals) := (r : nat * nat) in
  mv ← split_value m args i equals;
  let '(m, val) := (mv : bytes * option nat) in
  m ← (if quoted then drop_quote m args i else Some m);
  mn ← cut_arg m (args + i);
  let '(m, next) := (mn : bytes * nat) in
  Some (m, args, val, next).

(** ** Lists of integers and ranges *)

Inductive opt_item := Single (z : Z) | Span (m n : Z).

Definition is_int (z : Z) : Prop := - 2 ^ 31 ≤ z < 2 ^ 31.

Definition item_ok (x : opt_item) : Prop :=
  match x with
  | Single z => is_int z
  | Span m n => is_int m ∧ is_int n ∧ m ≤ n
  end.

Definition print_item (x : opt_item) : bytes :=
  match x with
  | Single z => print_int 10 z
  | Span m n => print_int 10 m ++ 45 :: print_int 10 n
  end.

(** The items with commas between them. *)
Fixpoint print_items (l : list opt_item) : bytes :=
  match l with
  | [] => []
  | [x] => print_item x
  | x :: l => print_item x ++ 44 :: print_items l
  end.

(** The integers an item stands for. *)
Definition expand (x : opt_item) : list Z :=
  match x with
  | Single z => [z]
  | Span m n => seqZ m (n - m) ++ [n]
  end.

Lemma signed_int z : is_int z → signed 32 z = z.
Proof.
  intros Hz. symmetry. apply Z.eqb_eq. rewrite signed_fits by lia.
  apply andb_true_iff. rewrite Z.leb_le, Z.ltb_lt. exact Hz.
Qed.

Lemma print_int_nonempty z : (0 < length (print_int 10 z))%nat.
Proof.
  unfold print_int. destruct (print_nat_digits 10 (Z.abs z)) as (d & ds & E & _); [lia|lia|].
  case_match; bool_to_prop; [simpl; lia|]. rewrite Z.abs_eq in E by lia. rewrite E. simpl. lia.
Qed.

Lemma print_int_head z : ∃ c s, print_int 10 z = c :: s ∧ c ≠ NUL ∧ is_cstr (c :: s).
Proof.
  pose proof (print_int_cstr 10 z [] ltac:(lia) ltac:(by left)) as Hc. rewrite app_nil_r in Hc.
  pose proof (print_int_nonempty z). destruct (print_int 10 z) as [|c s]; [simpl in *; lia|].
  exists c, s. split_and!; [done| |done]. apply Forall_cons in Hc. tauto.
Qed.

Lemma print_int_is_cstr z : is_cstr (print_int 10 z).
Proof. by destruct (print_int_head z) as (c & s & -> & _ & ?). Qed.

(** The three results of [get_option] on a printed integer. *)
Lemma get_option_print z rest :
  32 ≤ BITS_PER_LONG ≤ 64 → is_int z → is_cstr rest → ends_number rest →
  zlen (print_int 10 z ++ rest) < 2 ^ 31 →
  get_option (Some ((print_int 10 z ++ rest) ++ [NUL])) =
  Some (match rest with
        | 44 :: r => (2, Some (r ++ [NUL]), Some z)
        | 45 :: r => (3, Some (rest ++ [NUL]), Some z)
        | _ => (1, Some (rest ++ [NUL]), Some z)
        end).
Proof.
  intros HB Hz Hc Hr Hl. unfold get_option.
  pose proof (strtol_print_int BITS_PER_LONG z rest HB Hz Hc Hr Hl) as E.
  pose proof (print_int_nonempty z). destruct (print_int_head z) as (c & s & Ep & Hnul & _).
  assert (((print_int 10 z ++ rest) ++ [NUL]) !! 0%nat = Some c) as -> by (by rewrite Ep).
  cbn [mbind option_bind]. rewrite (proj2 (Z.eqb_neq c NUL)) by done. rewrite E.
  cbn [mbind option_bind fst snd]. rewrite signed_int by done.
  destruct (Nat.eqb_spec (length ((print_int 10 z ++ rest) ++ [NUL])) (length (rest ++ [NUL])))
    as [El|_]; [rewrite !length_app in El; lia|].
  destruct rest as [|x rest]; [done|]. cbn [app lookup list_lookup mbind option_bind].
  destruct (Z.eqb_spec x 44) as [->|H44]; [done|].
  destruct (Z.eqb_spec x 45) as [->|H45]; [done|].
  destruct x as [|x|x]; try done. do 7 (destruct x as [x|x|]; try done).
Qed.

Lemma set_elem_middle p y l v : set_elem (p ++ y :: l) (zlen p) v = Some (p ++ v :: l).
Proof.
  unfold set_elem. rewrite (proj2 (Z.leb_le _ _)), (proj2 (Z.ltb_lt _ _)) by zlen_lia.
  cbn. f_equal. unfold zlen. by rewrite Nat2Z.id, insert_app_r_alt, Nat.sub_diag.
Qed.

Lemma set_elem_head y l v : set_elem (y :: l) 0 v = Some (v :: l).
Proof. exact (set_elem_middle [] y l v). Qed.

Lemma elem_at_middle p y l : elem_at (p ++ y :: l) (zlen p) = Some y.
Proof.
  unfold elem_at. rewrite (proj2 (Z.ltb_ge _ _)) by zlen_lia. unfold zlen.
  rewrite Nat2Z.id. by apply list_lookup_middle.
Qed.

Lemma elem_at_outside l i : zlen l ≤ i → elem_at l i = None.
Proof.
  intros Hi. unfold elem_at. pose proof (zlen_nonneg l). rewrite (proj2 (Z.ltb_ge _ _)) by lia.
  apply lookup_ge_None_2. unfold zlen in Hi. lia.
Qed.

(** The range is written as far as the array goes. *)
Lemma range_loop_spec j k n p l x :
  (j = Nat.min k n)%nat → (j ≤ length l)%nat →
  range_loop n (p ++ l) (zlen p) x (x + Z.of_nat k) =
  Some (p ++ seqZ x (Z.of_nat j) ++ drop j l).
Proof.
  revert k n p l x. induction j as [|j IH]; intros k n p l x Hj Hl.
  - destruct n; cbn [range_loop]; [done|]. by rewrite (proj2 (Z.ltb_ge _ _)) by lia.
  - destruct n as [|n]; [lia|]. destruct k as [|k]; [lia|].
    destruct l as [|y l]; [simpl in Hl; lia|]. cbn [range_loop].
    rewrite (proj2 (Z.ltb_lt _ _)) by lia. rewrite set_elem_middle. cbn [mbind option_bind].
    rewrite seqZ_cons by lia. replace (Z.pred (Z.of_nat (S j))) with (Z.of_nat j) by lia.
    specialize (IH k n (p ++ [x]) l (x + 1)). autorewrite with zlen in IH.
    replace (zlen p + (1 + 0)) with (zlen p + 1) in IH by lia.
    replace (x + 1 + Z.of_nat k) with (x + Z.of_nat (S k)) in IH by lia.
    rewrite <-!app_assoc in IH. apply IH; simpl in *; lia.
Qed.

(** One pass of the loop on an integer that ends the string or stands before a comma,
    and one on the lower end of a range. *)
Lemma single_step fuel z rest p y l nints :
  32 ≤ BITS_PER_LONG ≤ 64 → is_int z → is_cstr rest → rest = [] ∨ (∃ r, rest = 44 :: r) →
  zlen (print_int 10 z ++ rest) < 2 ^ 31 → zlen p < nints →
  options_loop (S fuel) (Some ((print_int 10 z ++ rest) ++ [NUL])) nints (p ++ y :: l) (zlen p) =
  match rest with
  | [] => Some (Some [NUL], p ++ z :: l, zlen p + 1)
  | _ :: r => options_loop fuel (Some (r ++ [NUL])) nints ((p ++ [z]) ++ l) (zlen p + 1)
  end.
Proof.
  intros HB Hz Hc Hrest Hl Hn. cbn [options_loop].
  rewrite (proj2 (Z.ltb_lt _ _)) by done.
  rewrite get_option_print by (done || by destruct Hrest as [->|[? ->]]). cbn [mbind option_bind].
  destruct Hrest as [->|[r ->]]; cbn [mbind option_bind]; rewrite set_elem_middle;
    cbn [mbind option_bind]; [done|]. simpl. by rewrite <-app_assoc.
Qed.

Lemma span_pass fuel m k j rest p y l nints :
  32 ≤ BITS_PER_LONG ≤ 64 → is_int m → is_int (m + Z.of_nat k) → is_int (Z.of_nat k) →
  is_cstr rest → ends_number rest →
  zlen (print_int 10 m ++ 45 :: print_int 10 (m + Z.of_nat k) ++ rest) < 2 ^ 31 →
  (j = Nat.min k (Z.to_nat (nints - zlen p)))%nat → (j ≤ S (length l))%nat → zlen p < nints →
  options_loop (S fuel)
    (Some ((print_int 10 m ++ 45 :: print_int 10 (m + Z.of_nat k) ++ rest) ++ [NUL]))
    nints (p ++ y :: l) (zlen p) =
  options_loop fuel (Some ((print_int 10 (m + Z.of_nat k) ++ rest) ++ [NUL])) nints
    ((p ++ seqZ m (Z.of_nat j)) ++ drop j (m :: l))
    (signed 32 (signed 32 (zlen p + (Z.of_nat k - 1)) + 1)).
Proof.
  intros HB Hm Hn Hk Hc Hr Hl Hj Hjl Hi. set (n := m + Z.of_nat k) in *. cbn [options_loop].
  rewrite (proj2 (Z.ltb_lt _ _)) by lia.
  assert (is_cstr (45 :: print_int 10 n ++ rest)) as Hc'.
  { constructor; [by split|]. apply Forall_app. split; [apply print_int_is_cstr|done]. }
  rewrite get_option_print by done. cbn [mbind option_bind]. rewrite set_elem_middle.
  cbn [mbind option_bind app]. cbn [Z.eqb Pos.eqb].
  unfold get_range. rewrite skipn_cons, drop_0.
  pose proof (strtol_print_int BITS_PER_LONG n rest HB Hn Hc Hr) as Est.
  rewrite Est by zlen_lia. cbn [mbind option_bind fst snd]. rewrite signed_int by done.
  rewrite elem_at_middle. cbn [mbind option_bind].
  replace (n - m) with (Z.of_nat k) by (unfold n; lia). rewrite (signed_int (Z.of_nat k)) by done.
  rewrite (range_loop_spec j k _ p (m :: l) m) by (done || (simpl; lia)). cbn [mbind option_bind].
  rewrite (proj2 (Z.ltb_ge _ _)) by lia. by rewrite app_assoc.
Qed.

Lemma span_step fuel m k rest p y l nints :
  32 ≤ BITS_PER_LONG ≤ 64 → is_int m → is_int (m + Z.of_nat k) → is_cstr rest → ends_number rest →
  zlen (print_int 10 m ++ 45 :: print_int 10 (m + Z.of_nat k) ++ rest) < 2 ^ 31 →
  (k ≤ length l)%nat → zlen p + Z.of_nat k < nints < 2 ^ 31 →
  options_loop (S fuel)
    (Some ((print_int 10 m ++ 45 :: print_int 10 (m + Z.of_nat k) ++ rest) ++ [NUL]))
    nints (p ++ y :: l) (zlen p) =
  options_loop fuel (Some ((print_int 10 (m + Z.of_nat k) ++ rest) ++ [NUL])) nints
    ((p ++ seqZ m (Z.of_nat k)) ++ drop k (m :: l)) (zlen p + Z.of_nat k).
Proof.
  intros HB Hm Hn Hc Hr Hl Hk Hi. pose proof (zlen_nonneg p).
  rewrite (span_pass fuel m k k) by (done || (unfold is_int; lia)).
  rewrite (signed_int (zlen p + _)), (signed_int (_ + 1)) by (unfold is_int; lia). f_equal. lia.
Qed.

Lemma print_items_cstr items : is_cstr (print_items items).
Proof.
  assert (∀ x, is_cstr (print_item x)) as Hitem.
  { intros [z|m n]; cbn; [apply print_int_is_cstr|]. apply Forall_app. split; [apply print_int_is_cstr|].
    constructor; [by split|apply print_int_is_cstr]. }
  induction items as [|x [|x' items] IH]; [constructor|apply Hitem|].
  change (print_items (x :: x' :: items)) with (print_item x ++ 44 :: print_items (x' :: items)).
  apply Forall_app. split; [apply Hitem|]. constructor; [by split|done].
Qed.

(** What stands after the first item. *)
Definition items_rest (items : list opt_item) : bytes :=
  match items with [] => [] | _ => 44 :: print_items items end.

Lemma print_items_cons x items : print_items (x :: items) = print_item x ++ items_rest items.
Proof. destruct items; [by rewrite app_nil_r|done]. Qed.

Lemma items_rest_ok items :
  is_cstr (items_rest items) ∧ ends_number (items_rest items) ∧
  (items_rest items = [] ∨ ∃ r, items_rest items = 44 :: r).
Proof.
  destruct items as [|x items]; [split_and!; [constructor|done|by left]|].
  split_and!; [constructor; [by split|apply print_items_cstr]|done|eauto].
Qed.

(** The loop on the items from an index on. *)
Definition loop_expands (nints : Z) (items : list opt_item) : Prop :=
  ∀ fuel p l,
  zlen (print_items items) < 2 ^ 31 → (length (print_items items) < fuel)%nat →
  (length (concat (expand <$> items)) ≤ length l)%nat →
  zlen p + zlen (concat (expand <$> items)) ≤ nints →
  options_loop fuel (Some (print_items items ++ [NUL])) nints (p ++ l) (zlen p) =
  Some (Some [NUL],
    p ++ concat (expand <$> items) ++ drop (length (concat (expand <$> items))) l,
    zlen p + zlen (concat (expand <$> items))).

(** The last integer of an item, and the items after it. *)
Lemma last_step nints items z fuel p l :
  32 ≤ BITS_PER_LONG ≤ 64 → (items ≠ [] → loop_expands nints items) → is_int z →
  zlen (print_int 10 z ++ items_rest items) < 2 ^ 31 →
  (length (print_int 10 z ++ items_rest items) < fuel)%nat →
  (S (length (concat (expand <$> items))) ≤ length l)%nat →
  zlen p + 1 + zlen (concat (expand <$> items)) ≤ nints →
  options_loop fuel (Some ((print_int 10 z ++ items_rest items) ++ [NUL])) nints (p ++ l) (zlen p) =
  Some (Some [NUL],
    p ++ z :: concat (expand <$> items) ++ drop (S (length (concat (expand <$> items)))) l,
    zlen p + 1 + zlen (concat (expand <$> items))).
Proof.
  intros HB IH Hz Ht Hf Hl Hn. destruct (items_rest_ok items) as (Hrc & Hre & Hr).
  destruct fuel as [|fuel]; [lia|]. destruct l as [|y l]; [simpl in Hl; lia|].
  pose proof (zlen_nonneg (concat (expand <$> items))).
  rewrite single_step by (done || lia). clear Hr Hrc Hre.
  destruct items as [|x items]; cbn [items_rest] in *.
  { cbn. change (zlen []) with 0. by rewrite Z.add_0_r. }
  specialize (IH ltac:(done) fuel (p ++ [z]) l).
  replace (zlen (p ++ [z])) with (zlen p + 1) in IH by zlen_lia.
  rewrite IH; [by rewrite <-!app_assoc|zlen_lia| |simpl in *; lia|done].
  rewrite length_app in Hf. cbn [length] in Hf. lia.
Qed.

Lemma options_loop_items nints items :
  32 ≤ BITS_PER_LONG ≤ 64 → nints < 2 ^ 31 → items ≠ [] → Forall item_ok items →
  loop_expands nints items.
Proof.
  intros HB Hnints Hne Hok. induction Hok as [|x items Hx _ IH]; [done|]. clear Hne.
  intros fuel p l Htext Hfuel Hlen Hn. rewrite print_items_cons in *.
  rewrite fmap_cons in *. cbn [concat] in *.
  destruct x as [z|m n]; cbn [print_item expand app] in *.
  { rewrite last_step by (done || (cbn [length] in *; lia) || zlen_lia).
    cbn [length]. by rewrite zlen_cons, Z.add_assoc. }
  destruct Hx as (Hm & Hn' & Hmn). destruct (items_rest_ok items) as (Hrc & Hre & _).
  destruct fuel as [|fuel]; [lia|]. destruct l as [|y l].
  { rewrite !length_app in Hlen. simpl in Hlen. lia. }
  assert (∃ k : nat, n = m + Z.of_nat k) as [k ->] by (exists (Z.to_nat (n - m)); lia).
  replace (m + Z.of_nat k - m) with (Z.of_nat k) in * by lia.
  rewrite !length_app in Hlen, Hfuel. cbn [length] in Hlen, Hfuel.
  rewrite length_seqZ, Nat2Z.id in Hlen.
  replace ((print_int 10 m ++ 45 :: print_int 10 (m + Z.of_nat k)) ++ items_rest items)
    with (print_int 10 m ++ 45 :: print_int 10 (m + Z.of_nat k) ++ items_rest items) in *
    by (by rewrite <-app_assoc).
  assert (zlen (seqZ m (Z.of_nat k)) = Z.of_nat k) as Hk by (unfold zlen; rewrite length_seqZ; lia).
  pose proof (zlen_nonneg (concat (expand <$> items))). autorewrite with zlen in Hn. rewrite Hk in Hn.
  rewrite span_step by (done || lia).
  replace (zlen p + Z.of_nat k) with (zlen (p ++ seqZ m (Z.of_nat k))) by zlen_lia.
  rewrite last_step; try done; [|zlen_lia|rewrite length_app; lia|rewrite length_drop; simpl; lia|
    autorewrite with zlen; lia].
  f_equal. f_equal; [f_equal|zlen_lia]. rewrite <-!app_assoc. cbn [app]. do 4 f_equal.
  rewrite drop_drop, !length_app, length_seqZ, Nat2Z.id, Nat.add_succ_r, skipn_cons. cbn [length].
  replace (k + S (length (concat (expand <$> items))))%nat
    with (S (k + length (concat (expand <$> items)))) by lia. done.
Qed.

(** C38: [get_options] reads back every comma-separated list of printed integers and
    ranges: the array gets the integers in order, ranges expanded with both ends,
    [ints[0]] their number, elements after them keep their values, and the pointer
    returned is at the NUL. *)
Theorem get_options_expands items nints x0 old tail :
  32 ≤ BITS_PER_LONG ≤ 64 → items ≠ [] → Forall item_ok items →
  zlen (print_items items) < 2 ^ 31 →
  length old = length (concat (expand <$> items)) → zlen old < nints < 2 ^ 31 →
  get_options (Some (print_items items ++ [NUL])) nints (x0 :: old ++ tail) =
  Some (Some [NUL], zlen old :: concat (expand <$> items) ++ tail).
Proof.
  intros HB Hne Hok Ht Hold Hn. unfold get_options.
  assert (zlen old = zlen (concat (expand <$> items))) as Hz by (unfold zlen; lia).
  pose proof (options_loop_items nints items HB ltac:(lia) Hne Hok
    (S (length (print_items items ++ [NUL]))) [x0] (old ++ tail)) as E.
  autorewrite with zlen in E. replace (1 + 0) with 1 in E by lia. cbn [app] in E.
  cbn [from_option]. rewrite E; [|done|rewrite !length_app; simpl; lia|rewrite length_app; lia|lia].
  cbn [mbind option_bind]. rewrite <-Hold, drop_app_length.
  rewrite set_elem_head. cbn. do 3 f_equal. lia.
Qed.

(** A range that does not fit the array is written as far as it goes, but the
    count is that of the whole range without its upper end, so [ints[0]] can exceed
    the number of elements stored; when the range has 2^31 integers the index wraps
    and the next integer is stored before the array. *)
Theorem get_options_long_range m k nints x0 l :
  32 ≤ BITS_PER_LONG ≤ 64 → is_int m → is_int (m + Z.of_nat k) →
  1 < nints < 2 ^ 31 → nints - 1 ≤ Z.of_nat k → nints ≤ 1 + zlen l →
  let str := Some (print_items [Span m (m + Z.of_nat k)] ++ [NUL]) in
  (Z.of_nat k < 2 ^ 31 - 1 → get_options str nints (x0 :: l) =
    Some (Some (print_int 10 (m + Z.of_nat k) ++ [NUL]),
          Z.of_nat k :: seqZ m (nints - 1) ++ drop (Z.to_nat (nints - 1)) l)) ∧
  (Z.of_nat k = 2 ^ 31 - 1 → get_options str nints (x0 :: l) = None).
Proof.
  intros HB Hm Hn Hnints Hk Hl. set (n := m + Z.of_nat k) in *. cbn [print_items print_item].
  assert (zlen (print_int 10 n ++ []) < 2 ^ 31 ∧
    zlen (print_int 10 m ++ 45 :: print_int 10 n) < 2 ^ 31) as [Hl1 Hl2].
  { assert (∀ z, is_int z → zlen (print_int 10 z) ≤ 33) as Hlen.
    { intros z Hz. exact (print_int_length 10 z 32 ltac:(lia) ltac:(lia) Hz). }
    pose proof (Hlen m Hm). pose proof (Hlen n Hn). autorewrite with zlen. lia. }
  unfold get_options. cbn [from_option].
  assert (∃ f, length ((print_int 10 m ++ 45 :: print_int 10 n) ++ [NUL]) = S f) as [f ->].
  { rewrite length_app. cbn [length]. eexists. apply Nat.add_1_r. }
  destruct l as [|y l]; [unfold zlen in Hl; simpl in Hl; lia|].
  set (j := Z.to_nat (nints - 1)).
  pose proof (span_pass (S f) m k j [] [x0] y l nints HB Hm Hn) as E. fold n in E.
  rewrite !app_nil_r in E. change (zlen [x0]) with 1 in E. cbn [app] in E.
  assert (Z.of_nat j = nints - 1) as Hj by (unfold j; lia). rewrite Hj in E.
  split; intros Hk31; rewrite E;
    try solve [unfold is_int; lia | done | constructor | unfold j; lia | unfold zlen in *; simpl in *; lia].
  - rewrite (signed_int (1 + _)), (signed_int (_ + 1)) by (unfold is_int; lia).
    cbn [options_loop]. rewrite (proj2 (Z.ltb_ge _ _)) by lia. cbn [mbind option_bind].
    rewrite set_elem_head. cbn [mbind option_bind]. do 2 f_equal. f_equal; [lia|].
    unfold j. by replace (Z.to_nat (nints - 1)) with (S (Z.to_nat (nints - 2))) by lia.
  - rewrite Hk31. change (signed 32 (signed 32 (1 + (2 ^ 31 - 1 - 1)) + 1)) with (- 2 ^ 31).
    cbn [options_loop]. rewrite (proj2 (Z.ltb_lt _ nints)) by lia.
    rewrite <-(app_nil_r (print_int 10 n)). rewrite get_option_print; [|done|done|constructor|done|done].
    done.
Qed.

(** ** Sizes with a unit *)

Lemma shifts_wrap k n :
  Nat.iter k (λ ret, w64 (Z.shiftl ret 10)) (w64 n) = w64 (n * 1024 ^ Z.of_nat k).
Proof.
  induction k as [|k IH]; [by rewrite Z.pow_0_r, Z.mul_1_r|].
  rewrite Nat.iter_succ, IH, Z.shiftl_mul_pow2 by lia. unfold w64, wrap.
  rewrite Zmult_mod_idemp_l, Nat2Z.inj_succ, Z.pow_succ_r by lia. f_equal.
  change (2 ^ 10) with 1024. lia.
Qed.

Lemma suffix_shifts_unit k u c :
  B "KMGTPE" !! k = Some u → c = u ∨ c = u + 32 →
  suffix_shifts c = Some (S k) ∧ digit_val 10 c = None ∧ c ≠ 88 ∧ c ≠ 120.
Proof.
  intros Hu Hc. do 6 (destruct k as [|k]; [cbn in Hu; simplify_eq; by destruct Hc as [->| ->]|]).
  by cbn in Hu.
Qed.

Lemma memparse_scan n rest :
  0 ≤ n → is_cstr rest → ends_number rest → zlen (print_nat 10 n ++ rest) < 2 ^ 31 →
  simple_strtoull ((print_nat 10 n ++ rest) ++ [NUL]) 0 = Some (w64 n, rest ++ [NUL]).
Proof.
  intros Hn Hc Hr Hl. pose proof (print_int_is_cstr n) as Hp. unfold print_int in Hp.
  rewrite (proj2 (Z.ltb_ge _ _)) in Hp by lia.
  rewrite simple_strtoull_spec; [|by apply Forall_app|done|lia]. by rewrite scan_number_print.
Qed.

(** [memparse] multiplies a decimal number by the power of 1024 of its unit, one of
    K, M, G, T, P and E in either case, modulo 2^64 (an overflow is not reported), and
    leaves the pointer after the unit; without a unit the number is as it is. *)
Theorem memparse_scales n rest :
  0 ≤ n → is_cstr rest → zlen (print_nat 10 n ++ rest) < 2 ^ 31 - 1 →
  (∀ k u c, B "KMGTPE" !! k = Some u → c = u ∨ c = u + 32 →
    memparse ((print_nat 10 n ++ c :: rest) ++ [NUL]) =
    Some (w64 (n * 1024 ^ (1 + Z.of_nat k)), rest ++ [NUL])) ∧
  (ends_number rest → (∀ c, rest !! 0%nat = Some c → suffix_shifts c = None) →
    memparse ((print_nat 10 n ++ rest) ++ [NUL]) = Some (w64 n, rest ++ [NUL])).
Proof.
  intros Hn Hc Hl. unfold memparse. split.
  - intros k u c Hu Hcu. destruct (suffix_shifts_unit k u c Hu Hcu) as (Hs & Hd & H88 & H120).
    assert (c ≠ NUL ∧ is_byte c) as [Hnul Hby].
    { split; [intros ->; done|]. do 6 (destruct k as [|k]; [cbn in Hu; simplify_eq;
        unfold is_byte; lia|]). by cbn in Hu. }
    rewrite memparse_scan; [|done|by constructor|done|zlen_lia].
    cbn [mbind option_bind app lookup list_lookup]. rewrite Hs, shifts_wrap, skipn_cons, drop_0.
    do 5 f_equal. lia.
  - intros Hr Hs. rewrite memparse_scan by (done || lia). cbn [mbind option_bind].
    destruct rest as [|c rest]; [done|]. cbn [app lookup list_lookup mbind option_bind].
    by rewrite (Hs c).
Qed.

(** ** Options between commas *)

Lemma strncmp_prefix s o k :
  is_cstr s → is_cstr o → ∃ r, KString.strncmp (s ++ [NUL]) (o ++ k) (length o) = Some r ∧
    (r = 0 ↔ starts_with o s = true).
Proof.
  revert s. induction o as [|x o IH]; intros s Hs Ho; [by exists 0|].
  apply Forall_cons in Ho as [[_ Hx] Ho]. cbn [length KString.strncmp app].
  destruct s as [|y s]; cbn [app].
  - rewrite (proj2 (Z.eqb_neq NUL x)) by done. cbn. eexists. split; [done|]. case_match; naive_solver lia.
  - apply Forall_cons in Hs as [[_ Hy] Hs]. cbn [starts_with].
    destruct (Z.eqb_spec y x) as [->|Hne]; cbn.
    + rewrite (proj2 (Z.eqb_neq x NUL)), Z.eqb_refl by done. by apply IH.
    + eexists. split; [done|]. rewrite (proj2 (Z.eqb_neq x y)) by done. case_match; naive_solver lia.
Qed.

Lemma skip_field_last s : is_cstr s → 44 ∉ s → skip_field (s ++ [NUL]) = Some [NUL].
Proof.
  induction s as [|c s IH]; intros Hs Hc; [done|]. apply Forall_cons in Hs as [[_ ?] ?]. cbn.
  rewrite (proj2 (Z.eqb_neq c NUL)), (proj2 (Z.eqb_neq c 44)) by set_solver. cbn. apply IH; set_solver.
Qed.

Lemma skip_field_comma f r : is_cstr f → 44 ∉ f → skip_field (f ++ 44 :: r) = Some r.
Proof.
  induction f as [|c f IH]; intros Hs Hc; [done|]. apply Forall_cons in Hs as [[_ ?] ?]. cbn.
  rewrite (proj2 (Z.eqb_neq c NUL)), (proj2 (Z.eqb_neq c 44)) by set_solver. cbn. apply IH; set_solver.
Qed.

(** A string is its first field, or it and the fields after a comma. *)
Lemma first_field s : 44 ∉ s ∨ ∃ f r, s = f ++ 44 :: r ∧ 44 ∉ f.
Proof.
  destruct (find_byte 44 s) as [i|] eqn:E.
  - right. clear -E. revert i E. induction s as [|c s IH]; intros i E; cbn in E; [done|].
    destruct (Z.eqb_spec c 44) as [->|Hne]; [exists [], s; set_solver|].
    destruct (find_byte 44 s) as [j|]; [|done].
    destruct (IH j) as (f & r & -> & Hf); [done|]. exists (c :: f), r. set_solver.
  - left. by apply find_byte_None.
Qed.

(** The rest of the string after a field: nothing, or a comma and more. *)
Definition field_tail (t : bytes) : Prop := t = [] ∨ ∃ r, t = 44 :: r.

Lemma skip_field_tail f t :
  is_cstr f → 44 ∉ f → field_tail t → skip_field (f ++ t ++ [NUL]) = Some (drop 1 t ++ [NUL]).
Proof.
  intros Hf Hc [->|[r ->]]; [by apply skip_field_last|]. cbn. rewrite drop_0. by apply skip_field_comma.
Qed.

Lemma prefix_field o f t :
  44 ∉ o → field_tail t → starts_with o (f ++ t) = true → ∃ f', f = o ++ f'.
Proof.
  intros Ho Ht (k & Hk)%starts_with_spec. apply app_eq_inv in Hk as [(z & -> & _)|(z & -> & E)]; [eauto|].
  destruct z as [|c z]; [exists []; by rewrite !app_nil_r|]. exfalso.
  destruct Ht as [->|[r ->]]; simplify_eq/=. set_solver.
Qed.

Lemma option_pass fuel f t o :
  is_cstr f → 44 ∉ f → field_tail t → is_cstr t → f ++ t ≠ [] → is_cstr o → 44 ∉ o →
  option_loop (S fuel) ((f ++ t) ++ [NUL]) (o ++ [NUL]) =
  if decide (f = o) then Some true else option_loop fuel (drop 1 t ++ [NUL]) (o ++ [NUL]).
Proof.
  intros Hf Hfc Ht Htc Hne Ho Hoc. cbn [option_loop].
  assert (is_cstr (f ++ t)) as Hs by (by apply Forall_app).
  assert (∃ c, ((f ++ t) ++ [NUL]) !! 0%nat = Some c ∧ c ≠ NUL) as (c & -> & Hcn).
  { destruct (f ++ t) as [|c s]; [done|]. exists c. apply Forall_cons in Hs. naive_solver. }
  cbn [mbind option_bind]. rewrite (proj2 (Z.eqb_neq c NUL)) by done.
  rewrite KString.strlen_cstr by done. cbn [mbind option_bind].
  destruct (strncmp_prefix (f ++ t) o [NUL] Hs Ho) as (r & -> & Hr). cbn [mbind option_bind].
  destruct (Z.eqb_spec r 0) as [E|E].
  - destruct (prefix_field o f t Hoc Ht) as (f' & ->); [by apply Hr|].
    rewrite <-!app_assoc, drop_app_length.
    apply Forall_app in Hf as [_ Hf'].
    destruct f' as [|x f'].
    + rewrite decide_True by (by rewrite app_nil_r). destruct Ht as [->|[r' ->]]; done.
    + rewrite decide_False by (intros ?%(f_equal length); rewrite length_app in *; simpl in *; lia).
      rewrite (skip_field_tail (x :: f')) by (done || set_solver).
      apply Forall_cons in Hf' as [[_ Hx] _]. cbn [app lookup list_lookup mbind option_bind].
      by rewrite (proj2 (Z.eqb_neq x NUL)), (proj2 (Z.eqb_neq x 44)) by set_solver.
  - rewrite <-app_assoc, skip_field_tail by done. cbn [mbind option_bind].
    rewrite decide_False; [done|]. intros ->. apply E, Hr, starts_with_spec. eauto.
Qed.

Lemma option_loop_spec fuel s o :
  is_cstr s → is_cstr o → o ≠ [] → 44 ∉ o → (length s < fuel)%nat →
  option_loop fuel (s ++ [NUL]) (o ++ [NUL]) = Some (bool_decide (o ∈ split_byte 44 s)).
Proof.
  intros Hs Ho Hne Hoc. revert s Hs. induction fuel as [|fuel IH]; intros s Hs Hf; [lia|].
  destruct s as [|c s'] eqn:Es.
  { cbn. rewrite bool_decide_false by set_solver. done. }
  rewrite <-Es in *. assert (s ≠ []) as Hsne by (by rewrite Es). clear Es c s'.
  destruct (first_field s) as [Hc|(f & r & -> & Hc)].
  - rewrite <-(app_nil_r s) at 1. rewrite option_pass; try done;
      [|by left|constructor|by rewrite app_nil_r].
    rewrite split_byte_notin by done. change (drop 1 [] ++ [NUL]) with ([] ++ [NUL]).
    destruct (decide (s = o)) as [->|Hso]; [by rewrite bool_decide_true by set_solver|].
    rewrite (IH []); [|constructor|destruct s; [done|simpl in *; lia]].
    by rewrite !bool_decide_false by set_solver.
  - apply Forall_app in Hs as [Hsf Hsr]. rewrite option_pass; try done; [|right; eauto].
    rewrite split_byte_app, (split_byte_notin _ f) by done. cbn [drop]. rewrite drop_0.
    apply Forall_cons in Hsr as [_ Hsr].
    rewrite length_app in Hf. cbn [length] in Hf. rewrite IH by (done || lia).
    destruct (decide (f = o)) as [->|Hso]; [by rewrite bool_decide_true by set_solver|].
    f_equal. apply bool_decide_ext. set_solver.
Qed.

(** [parse_option_str] finds an option exactly when it is one of the fields between
    the commas, for every option that is not empty and has no comma; it always
    returns and reads nothing after the strings. *)
Theorem parse_option_str_fields s o :
  is_cstr s → is_cstr o → o ≠ [] → 44 ∉ o →
  parse_option_str (s ++ [NUL]) (o ++ [NUL]) = Some (bool_decide (o ∈ split_byte 44 s)).
Proof.
  intros. apply option_loop_spec; try done. rewrite length_app. simpl. lia.
Qed.

(** ** Arguments *)

(** The ways to write an argument: a name, a name and a value, the value or the whole
    between quotes. *)
Inductive arg_form :=
  | Bare (name : bytes)
  | Value (name val : bytes)
  | QuotedValue (name val : bytes)
  | QuotedArg (name val : bytes).

Definition print_arg (a : arg_form) : bytes :=
  match a with
  | Bare name => name
  | Value name val => name ++ 61 :: val
  | QuotedValue name val => name ++ 61 :: 34 :: val ++ [34]
  | QuotedArg name val => 34 :: name ++ 61 :: val ++ [34]
  end.

Definition arg_name (a : arg_form) : bytes :=
  match a with
  | Bare name | Value name _ | QuotedValue name _ | QuotedArg name _ => name
  end.

Definition arg_value (a : arg_form) : option bytes :=
  match a with
  | Bare _ => None
  | Value _ val | QuotedValue _ val | QuotedArg _ val => Some val
  end.

(** No quotes, no ['='], and outside quotes no spaces. *)
Definition plain (spaces : bool) (w : bytes) : Prop :=
  is_cstr w ∧ 34 ∉ w ∧ (spaces = true ∨ Forall (λ c, isspace c = false) w).

Definition arg_ok (a : arg_form) : Prop :=
  arg_name a ≠ [] ∧ 61 ∉ arg_name a ∧
  match a with
  | Bare name => plain false name
  | Value name val => plain false name ∧ plain false val
  | QuotedValue name val => plain false name ∧ plain true val
  | QuotedArg name val => plain true name ∧ plain true val
  end.

(** What follows an argument: nothing, or a space. *)
Definition arg_tail (after : bytes) : Prop :=
  after = [] ∨ ∃ c r, after = c :: r ∧ isspace c = true.

Lemma arg_scan_plain w s i equals q :
  plain q w → (equals ≠ 0%nat ∨ 61 ∉ w) →
  arg_scan (w ++ s) i equals q = arg_scan s (length w + i) equals q.
Proof.
  intros (Hc & Hq & Hs) He. revert i. induction w as [|c w IH]; intros i; [done|].
  apply Forall_cons in Hc as [[_ Hn] Hc]. cbn [app arg_scan].
  rewrite (proj2 (Z.eqb_neq c NUL)), (proj2 (Z.eqb_neq c 34)) by set_solver.
  assert (isspace c && negb q = false) as ->.
  { destruct Hs as [->|Hs]; [apply andb_false_r|]. by apply Forall_cons in Hs as [-> _]. }
  assert ((if (equals =? 0)%nat && (c =? 61) then i else equals) = equals) as ->.
  { destruct He as [He|He]; [by apply Nat.eqb_neq in He as ->|].
    rewrite (proj2 (Z.eqb_neq c 61)) by set_solver. by rewrite andb_false_r. }
  rewrite IH; [f_equal; simpl; lia|done|set_solver| |].
  - destruct Hs as [->|[_ ?]%Forall_cons]; auto.
  - destruct He; [by left|right; set_solver].
Qed.

Lemma arg_scan_equals s i q : (0 < i)%nat → arg_scan (61 :: s) i 0 q = arg_scan s (S i) i q.
Proof. intros Hi. cbn. by rewrite isspace_graph by lia. Qed.

Lemma arg_scan_quote s i equals q : arg_scan (34 :: s) i equals q = arg_scan s (S i) equals (negb q).
Proof. cbn. rewrite isspace_graph, andb_false_r by lia. done. Qed.

Lemma arg_scan_stop after k i equals :
  is_cstr after → arg_tail after → arg_scan (after ++ NUL :: k) i equals false = Some (i, equals).
Proof.
  intros Hc [->|(c & r & -> & Hs)]; [done|]. apply Forall_cons in Hc as [[_ Hn] _].
  cbn. by rewrite (proj2 (Z.eqb_neq c NUL)), Hs by done.
Qed.

Lemma store_at_middle a x b v n :
  n = length a → KString.store_at (a ++ x :: b) n v = Some (a ++ v :: b).
Proof.
  intros ->. unfold KString.store_at. rewrite list_lookup_middle by done.
  by rewrite insert_app_r_alt, Nat.sub_diag by done.
Qed.

Lemma cut_arg_spec w after k n :
  n = length w → is_cstr after → arg_tail after →
  ∃ r next, cut_arg (w ++ after ++ NUL :: k) n = Some (w ++ NUL :: r, next) ∧
    drop next (w ++ NUL :: r) = KString.lstrip after ++ NUL :: k ∧
    length (w ++ NUL :: r) = length (w ++ after ++ NUL :: k).
Proof.
  intros -> Hc Ht. unfold cut_arg. destruct Ht as [->|(c & a & -> & Hs)]; cbn [app].
  - exists k, (length w). rewrite list_lookup_middle by done. cbn [mbind option_bind Z.eqb NUL negb].
    rewrite drop_app_length. cbn. rewrite isspace_nul. cbn.
    by rewrite Nat.add_0_r.
  - apply Forall_cons in Hc as [[_ Hn] Hc]. rewrite list_lookup_middle by done.
    cbn [mbind option_bind]. rewrite (proj2 (Z.eqb_neq c NUL)) by done. cbn [negb].
    rewrite store_at_middle by done. cbn [mbind option_bind]. rewrite drop_app_S.
    destruct (KString.skip_spaces_spec a k Hc) as (sp & -> & Hsp). cbn [mbind option_bind].
    exists (a ++ NUL :: k), (S (length w) + sp)%nat. split_and!; [done| |by rewrite !length_app].
    rewrite <-drop_drop, drop_app_S, Hsp. cbn. by rewrite Hs.
Qed.

Lemma drop_quote_middle a b args i c :
  (args + i = S (length a))%nat → (0 < i)%nat → Z.of_nat i < 2 ^ 32 →
  drop_quote (a ++ c :: b) args i = Some (a ++ (if c =? 34 then NUL else c) :: b).
Proof.
  intros Hl Hi Hw. unfold drop_quote.
  assert (prev_index args i = zlen a) as ->.
  { unfold prev_index, zlen, w32. rewrite wrap_small by lia. lia. }
  rewrite elem_at_middle. cbn [mbind option_bind].
  destruct (Z.eqb_spec c 34) as [->|]; [by rewrite set_elem_middle|done].
Qed.

Lemma split_value_plain n s c args i equals :
  (args + equals = length n)%nat → equals ≠ 0%nat → s !! 0%nat = Some c → c ≠ 34 →
  split_value (n ++ 61 :: s) args i equals = Some (n ++ NUL :: s, Some (S (length n))).
Proof.
  intros Hn He Hc H34. unfold split_value. apply Nat.eqb_neq in He as ->.
  rewrite store_at_middle by done. cbn [mbind option_bind].
  replace (args + equals + 1)%nat with (S (length n)) by lia.
  rewrite lookup_app_r, Nat.sub_succ_l, Nat.sub_diag by lia.
  change ((NUL :: s) !! 1%nat) with (s !! 0%nat). rewrite Hc. cbn [mbind option_bind].
  by rewrite (proj2 (Z.eqb_neq c 34)) by done.
Qed.

Lemma split_value_quoted (n v s : bytes) args i equals :
  (args + equals = length n)%nat → equals ≠ 0%nat →
  (args + i = length n + length v + 3)%nat → Z.of_nat i < 2 ^ 32 →
  split_value (n ++ 61 :: 34 :: v ++ 34 :: s) args i equals =
  Some (n ++ NUL :: 34 :: v ++ NUL :: s, Some (S (S (length n)))).
Proof.
  intros Hn He Hi Hw.
  unfold split_value. apply Nat.eqb_neq in He as Hb. rewrite Hb.
  rewrite store_at_middle by done. cbn [mbind option_bind].
  replace (args + equals + 1)%nat with (S (length n)) by lia.
  rewrite lookup_app_r, Nat.sub_succ_l, Nat.sub_diag by lia. cbn [lookup list_lookup mbind option_bind].
  rewrite Z.eqb_refl. pose proof (drop_quote_middle (n ++ NUL :: 34 :: v) s args i 34) as E.
  rewrite <-!app_assoc in E. cbn [app] in E. rewrite E; [done| |lia|done].
  rewrite length_app. cbn [length]. lia.
Qed.

(** What the theorem below states of a result. *)
Definition arg_result (name : bytes) (val : option bytes) (after k m : bytes)
    (r : option (bytes * nat * option nat * nat)) : Prop :=
  ∃ m' p v n, r = Some (m', p, v, n) ∧
    KString.cstring (drop p m') = Some name ∧
    (λ v, KString.cstring (drop v m')) <$> v = Some <$> val ∧
    drop n m' = KString.lstrip after ++ NUL :: k ∧ length m' = length m.

Lemma next_arg_start m c :
  m !! 0%nat = Some c → c ≠ 34 →
  next_arg m =
    (r ← arg_scan m 0 0 false;
     mv ← split_value m 0 r.1 r.2;
     mn ← cut_arg mv.1 r.1;
     Some (mn.1, 0%nat, mv.2, mn.2)).
Proof.
  intros Hc H34. unfold next_arg. rewrite Hc. cbn [mbind option_bind].
  rewrite (proj2 (Z.eqb_neq c 34)), drop_0 by done.
  destruct (arg_scan m 0 0 false) as [[i equals]|]; [|done]. cbn.
  destruct (split_value m 0 i equals) as [[m' v]|]; [|done]. cbn.
  by destruct (cut_arg m' i) as [[m'' n]|].
Qed.

Lemma plain_head name s :
  plain false name → name ≠ [] → ∃ c, (name ++ s) !! 0%nat = Some c ∧ c ≠ 34.
Proof.
  intros (Hc & Hq & _) Hne. destruct name as [|c name]; [done|]. exists c. set_solver.
Qed.

Lemma drop_past (a b : bytes) n j : n = (length a + j)%nat → drop n (a ++ b) = drop j b.
Proof. intros ->. rewrite drop_app_ge by lia. f_equal. lia. Qed.

Lemma plain_cstring q name k : plain q name → KString.cstring (name ++ NUL :: k) = Some name.
Proof. intros (Hc & _). by apply KString.cstring_cstr. Qed.

Lemma next_arg_bare name after k :
  arg_ok (Bare name) → is_cstr after → arg_tail after →
  let m := name ++ after ++ NUL :: k in
  arg_result name None after k m (next_arg m).
Proof.
  intros (Hne & H61 & Hp) Hc Ht m. cbn [arg_name] in *.
  destruct (plain_head name (after ++ NUL :: k) Hp Hne) as (c & Hm & H34).
  rewrite (next_arg_start m c Hm H34). unfold m.
  rewrite arg_scan_plain by auto. rewrite arg_scan_stop by done. cbn [mbind option_bind fst snd].
  change (split_value ?m 0 ?i 0) with (Some (m, @None nat)). cbn [mbind option_bind fst snd].
  rewrite Nat.add_0_r. destruct (cut_arg_spec name after k _ eq_refl Hc Ht) as (r & n & -> & Hd & Hl).
  exists (name ++ NUL :: r), 0%nat, None, n. rewrite drop_0.
  split_and!; [done|by eapply plain_cstring|done|done|done].
Qed.

Lemma next_arg_value name val after k :
  arg_ok (Value name val) → is_cstr after → arg_tail after →
  let m := (name ++ 61 :: val) ++ after ++ NUL :: k in
  arg_result name (Some val) after k m (next_arg m).
Proof.
  intros (Hne & H61 & Hp & Hv) Hc Ht m. cbn [arg_name] in *.
  destruct (plain_head name ((61 :: val) ++ after ++ NUL :: k) Hp Hne) as (c & Hm & H34).
  rewrite app_assoc in Hm. rewrite (next_arg_start m c Hm H34). unfold m.
  rewrite <-app_assoc. cbn [app]. assert (0 < length name)%nat by (destruct name; [done|simpl; lia]).
  rewrite arg_scan_plain, arg_scan_equals, arg_scan_plain, arg_scan_stop by (auto || lia).
  cbn [mbind option_bind fst snd]. rewrite Nat.add_0_r.
  assert (∃ d, (val ++ after ++ NUL :: k) !! 0%nat = Some d ∧ d ≠ 34) as (d & Hd & Hd34).
  { destruct val as [|d val]; [|exists d; destruct Hv as (_ & ? & _); set_solver].
    destruct Ht as [->|(d & r & -> & Hs)]; [by exists NUL|]. exists d. split; [done|].
    intros ->. by rewrite isspace_graph in Hs by lia. }
  rewrite (split_value_plain name _ d) by (done || lia). cbn [mbind option_bind fst snd].
  destruct (cut_arg_spec (name ++ NUL :: val) after k (length val + S (length name)) ) as
    (r & n & E & Hdr & Hl); [rewrite length_app; simpl; lia|done|done|].
  repeat rewrite <-app_assoc in E. repeat rewrite <-app_assoc in Hdr. cbn [app] in E, Hdr. rewrite E. cbn [mbind option_bind fst snd].
  exists (name ++ NUL :: val ++ NUL :: r), 0%nat, (Some (S (length name))), n.
  rewrite drop_0. split_and!; [done|by eapply plain_cstring| |done|].
  - cbn. rewrite drop_app_S. by erewrite plain_cstring.
  - rewrite !length_app in *. cbn [length] in *. rewrite !length_app in *. simpl in *. lia.
Qed.

Lemma next_arg_quoted_value name val after k :
  arg_ok (QuotedValue name val) → is_cstr after → arg_tail after →
  zlen name + zlen val < 2 ^ 31 →
  let m := (name ++ 61 :: 34 :: val ++ [34]) ++ after ++ NUL :: k in
  arg_result name (Some val) after k m (next_arg m).
Proof.
  intros (Hne & H61 & Hp & Hv) Hc Ht Hz m. cbn [arg_name] in *.
  destruct (plain_head name ((61 :: 34 :: val ++ [34]) ++ after ++ NUL :: k) Hp Hne) as (c & Hm & H34).
  rewrite app_assoc in Hm. rewrite (next_arg_start m c Hm H34). unfold m.
  assert ((name ++ 61 :: 34 :: val ++ [34]) ++ after ++ NUL :: k =
    name ++ 61 :: 34 :: val ++ 34 :: after ++ NUL :: k) as ->
    by (rewrite <-app_assoc; cbn [app]; rewrite <-app_assoc; done).
  assert (0 < length name)%nat by (destruct name; [done|simpl; lia]).
  rewrite arg_scan_plain, arg_scan_equals, arg_scan_quote, arg_scan_plain by (auto || lia).
  rewrite arg_scan_quote, arg_scan_stop by done. cbn [mbind option_bind fst snd].
  rewrite Nat.add_0_r, split_value_quoted; [|lia|lia|lia|unfold zlen in Hz; lia].
  cbn [mbind option_bind fst snd].
  destruct (cut_arg_spec (name ++ NUL :: 34 :: val ++ [NUL]) after k (S (length val + S (S (length name)))))
    as (r & n & E & Hdr & Hl);
    [rewrite length_app; cbn [length]; rewrite length_app; simpl; lia|done|done|].
  assert (∀ t, (name ++ NUL :: 34 :: val ++ [NUL]) ++ t = name ++ NUL :: 34 :: val ++ NUL :: t) as Ha
    by (intros t; rewrite <-app_assoc; cbn [app]; by rewrite <-app_assoc).
  repeat rewrite Ha in E. repeat rewrite Ha in Hdr. repeat rewrite Ha in Hl. rewrite E. cbn [mbind option_bind fst snd].
  exists (name ++ NUL :: 34 :: val ++ NUL :: NUL :: r), 0%nat, (Some (S (S (length name)))), n.
  rewrite drop_0. split_and!; [done|by eapply plain_cstring| |done|].
  - cbn [fmap option_fmap option_map].
    rewrite (drop_past _ _ _ 2) by lia. cbn [drop]. rewrite drop_0. by erewrite plain_cstring.
  - rewrite Hl, !length_app. cbn [length]. by rewrite !length_app.
Qed.

(** An argument between quotes: the NULs for ['='] and for the closing quote.  When the
    value is empty the closing quote is taken for an opening one. *)
Lemma quoted_split name val s i :
  name ≠ [] → 34 ∉ val → i = S (length val + S (length name)) → Z.of_nat i < 2 ^ 32 →
  ∃ m1 v, split_value ((34 :: name) ++ 61 :: val ++ 34 :: s) 1 i (length name) = Some (m1, Some v) ∧
    drop_quote m1 1 i = Some (((34 :: name) ++ NUL :: val) ++ NUL :: s) ∧
    (v = S (S (length name)) ∨ val = [] ∧ v = S (S (S (length name)))).
Proof.
  intros Hne Hv -> Hi. assert (length name ≠ 0)%nat as Hn0 by (by destruct name).
  destruct val as [|c val].
  - set (m1 := ((34 :: name) ++ [NUL]) ++ NUL :: s). exists m1, (S (S (S (length name)))).
    split_and!; [| |auto].
    + unfold split_value. rewrite (proj2 (Nat.eqb_neq _ 0)), store_at_middle by done.
      cbn [mbind option_bind]. rewrite (Nat.add_1_r (1 + length name)).
      rewrite lookup_app_r, Nat.sub_succ_l, Nat.sub_diag by (simpl; lia).
      cbn [lookup list_lookup mbind option_bind app]. rewrite Z.eqb_refl.
      pose proof (drop_quote_middle ((34 :: name) ++ [NUL]) s 1
        (S (length (@nil Z) + S (length name))) 34) as E.
      rewrite <-app_assoc in E. cbn [app] in E.
      rewrite E; [done|cbn [length]; rewrite length_app; simpl; lia|lia|done].
    + rewrite (drop_quote_middle ((34 :: name) ++ [NUL]) s 1 _ NUL); [done| |lia|done].
      rewrite !length_app. simpl. lia.
  - exists ((34 :: name) ++ NUL :: (c :: val) ++ 34 :: s), (S (S (length name))). split_and!; [| |auto].
    + rewrite (split_value_plain _ _ c) by (done || set_solver). done.
    + pose proof (drop_quote_middle ((34 :: name) ++ NUL :: c :: val) s 1
        (S (length (c :: val) + S (length name))) 34) as E.
      rewrite <-app_assoc in E. cbn [app] in E |- *. rewrite E; [| |lia|done].
      * done.
      * cbn [length]; rewrite length_app. simpl. lia.
Qed.

Lemma next_arg_quoted name val after k :
  arg_ok (QuotedArg name val) → is_cstr after → arg_tail after →
  zlen name + zlen val < 2 ^ 31 →
  let m := (34 :: name ++ 61 :: val ++ [34]) ++ after ++ NUL :: k in
  arg_result name (Some val) after k m (next_arg m).
Proof.
  intros (Hne & H61 & Hp & Hv) Hc Ht Hz m. cbn [arg_name] in *.
  assert (m = (34 :: name) ++ 61 :: val ++ 34 :: after ++ NUL :: k) as Em.
  { unfold m. cbn [app]. rewrite <-app_assoc. cbn [app]. by rewrite <-app_assoc. }
  clearbody m. subst m. unfold next_arg. cbn [lookup list_lookup mbind option_bind app].
  rewrite Z.eqb_refl, skipn_cons, drop_0. assert (0 < length name)%nat by (destruct name; [done|simpl; lia]).
  rewrite arg_scan_plain, arg_scan_equals, arg_scan_plain by (auto || lia).
  rewrite arg_scan_quote, arg_scan_stop by done. cbn [mbind option_bind]. rewrite Nat.add_0_r.
  set (i := S (length val + S (length name))).
  destruct (quoted_split name val (after ++ NUL :: k) i) as (m1 & v & Esv & Edq & Hvv);
    [done|apply Hv|done|unfold i; unfold zlen in Hz; lia|].
  cbn [app] in Esv. rewrite Esv. cbn [mbind option_bind]. rewrite Edq. cbn [mbind option_bind].
  destruct (cut_arg_spec (((34 :: name) ++ NUL :: val) ++ [NUL]) after k (1 + i)) as (r & n & E & Hdr & Hl);
    [unfold i; rewrite !length_app; simpl; lia|done|done|].
  rewrite <-app_assoc in E. cbn [app] in E |- *. rewrite E. cbn [mbind option_bind].
  set (m' := (((34 :: name) ++ NUL :: val) ++ [NUL]) ++ NUL :: r) in *.
  assert (m' = (34 :: name) ++ NUL :: val ++ NUL :: NUL :: r) as Em'
    by (unfold m'; by rewrite <-!app_assoc).
  exists m', 1%nat, (Some v), n. split_and!.
  - done.
  - rewrite Em'. cbn [app]. rewrite skipn_cons, drop_0. by eapply plain_cstring.
  - cbn [fmap option_fmap option_map]. f_equal. rewrite Em'. destruct Hvv as [->|[-> ->]].
    + rewrite (drop_past _ _ _ 1) by (simpl; lia). rewrite skipn_cons, drop_0. by eapply plain_cstring.
    + by rewrite (drop_past _ _ _ 2) by (simpl; lia).
  - done.
  - rewrite Hl. repeat first [rewrite length_app | progress cbn [length]]. lia.
Qed.

(** [next_arg] takes an argument apart: written as a name, a name and a value, or with
    quotes around the value or around the whole (inside which spaces do not separate),
    and followed by the end of the string or by a space, it gives the name, the value
    without quotes and the start of the next argument, and changes nothing outside the
    argument. *)
Theorem next_arg_splits a after k :
  arg_ok a → is_cstr after → arg_tail after → zlen (print_arg a) < 2 ^ 31 →
  let m := print_arg a ++ after ++ NUL :: k in
  arg_result (arg_name a) (arg_value a) after k m (next_arg m).
Proof.
  intros Ha Hc Ht Hz. destruct a as [name|name val|name val|name val];
    cbn [print_arg arg_name arg_value] in *.
  - by apply next_arg_bare.
  - by apply next_arg_value.
  - apply next_arg_quoted_value; try done. zlen_lia.
  - apply next_arg_quoted; try done. zlen_lia.
Qed.

Lemma next_arg_overread m i :
  m !! 0%nat = Some 34 → arg_scan (drop 1 m) 0 0 true = Some (i, 0%nat) →
  zlen m ≤ prev_index 1 i → next_arg m = None.
Proof.
  intros Hm Hs Hi. unfold next_arg. rewrite Hm. cbn [mbind option_bind]. rewrite Z.eqb_refl, Hs.
  cbn [mbind option_bind]. unfold split_value. cbn [Nat.eqb mbind option_bind].
  unfold drop_quote. by rewrite elem_at_outside.
Qed.

(** On an argument that is a lone quote [next_arg] reads the byte at
    [args[0xffffffff]], four gigabytes after the string: with less memory than that
    after it the access is outside the object. *)
Theorem next_arg_lone_quote k : zlen k < 2 ^ 32 - 1 → next_arg (34 :: NUL :: k) = None.
Proof.
  intros Hk. apply (next_arg_overread _ 0); [done|done|].
  assert (prev_index 1 0 = 2 ^ 32) as -> by done. zlen_lia.
Qed.

End cmdline.
(** ** Witnesses *)

Lemma get_options_expands_witness :
  get_options 64 (Some (B "1,3-5,-2" ++ [NUL])) 10 [0; 9; 9; 9; 9; 9; 7; 7; 7; 7] =
  Some (Some [NUL], [5; 1; 3; 4; 5; -2; 7; 7; 7; 7]).
Proof.
  apply (get_options_expands 64 [Single 1; Span 3 5; Single (-2)] 10 0 [9; 9; 9; 9; 9] [7; 7; 7; 7]);
    [lia|done| |done|done|done].
  repeat constructor; unfold item_ok, is_int; lia.
Defined.

(** Three elements hold the range 1-100 as far as it goes, and [ints[0]] says 99. *)
Lemma get_options_long_range_witness :
  get_options 64 (Some (B "1-100" ++ [NUL])) 4 [0; 0; 0; 0] =
    Some (Some (B "100" ++ [NUL]), [99; 1; 2; 3]) ∧
  get_options 64 (Some (B "0-2147483647" ++ [NUL])) 4 [0; 0; 0; 0] = None.
Proof.
  split.
  - apply (get_options_long_range 64 1 99 4 0 [0; 0; 0]); unfold is_int, zlen; simpl; lia.
  - assert (∃ k, Z.of_nat k = 2 ^ 31 - 1) as [k Hk] by (exists (Z.to_nat (2 ^ 31 - 1)); lia).
    assert (B "0-2147483647" = print_items [Span 0 (0 + Z.of_nat k)]) as -> by (by rewrite Hk).
    apply (get_options_long_range 64 0 k 4 0 [0; 0; 0]); unfold is_int, zlen; simpl; lia.
Defined.

Lemma memparse_scales_witness :
  memparse (B "64k,x" ++ [NUL]) = Some (65536, B ",x" ++ [NUL]) ∧
  memparse (B "16E" ++ [NUL]) = Some (0, [NUL]).
Proof.
  split.
  - apply (proj1 (memparse_scales 64 (B ",x") ltac:(lia) ltac:(vm_decide) ltac:(done)) 0%nat 75);
      [done|by right].
  - apply (proj1 (memparse_scales 16 [] ltac:(lia) ltac:(vm_decide) ltac:(done)) 5%nat 69);
      [done|by left].
Defined.

Lemma parse_option_str_fields_witness :
  parse_option_str (B "noop,earlycon,ea" ++ [NUL]) (B "ea" ++ [NUL]) = Some true ∧
  parse_option_str (B "noop,earlycon" ++ [NUL]) (B "ea" ++ [NUL]) = Some false.
Proof.
  split; (etrans; [apply parse_option_str_fields; [vm_decide|vm_decide|done|set_solver]|]);
    vm_refl.
Defined.

Lemma next_arg_splits_witness :
  next_arg (B "name=" ++ 34 :: B "a b" ++ 34 :: B "  quiet" ++ [NUL]) =
    Some (B "name" ++ NUL :: 34 :: B "a b" ++ NUL :: NUL :: B " quiet" ++ [NUL], 0%nat, Some 6%nat, 12%nat) ∧
  arg_result (B "name") (Some (B "a b")) (B "  quiet") []
    (B "name=" ++ 34 :: B "a b" ++ 34 :: B "  quiet" ++ [NUL])
    (next_arg (B "name=" ++ 34 :: B "a b" ++ 34 :: B "  quiet" ++ [NUL])).
Proof.
  split; [vm_refl|].
  apply (next_arg_splits (QuotedValue (B "name") (B "a b")) (B "  quiet") []);
    [|vm_decide|right; by eexists _, _|done].
  split; [done|]. split; [vm_decide|].
  split; (split; [vm_decide|split; [vm_decide|]]); [right; vm_decide|by left].
Defined.

Lemma next_arg_lone_quote_witness : next_arg [34; NUL] = None.
Proof. by apply (next_arg_lone_quote []). Defined.

End KCmdline.
