(* ===== verification/KArgv.v ===== *)
(** * Copies of strings, [mm/util.c], and argument vectors, [lib/argv_split.c]

    The heap maps the addresses of the blocks allocated to their contents.  The
    allocator is the class [Kmalloc]: it fails, or gives an address that is not in
    use and memory with any content.  [None] is an access outside a block, or a
    block freed twice. *)
From stdpp Require Import base numbers sets strings gmap list.
From S2P Require Import Prelude Ctype KString.

Abbreviation loc := positive.

(** A word of a block of pointers: not written yet, [NULL], or an offset in a block. *)
Inductive word := Undef | Null | Ptr (l : loc) (o : nat).

Inductive block := Bytes (b : bytes) | Words (w : list word).

Abbreviation heap := (gmap loc block).

Class Kmalloc := {
  kmalloc : heap → nat → option loc;
  kmalloc_content : nat → bytes;
  KMALLOC_MAX_SIZE : nat;
  kmalloc_fresh h n l : kmalloc h n = Some l → h !! l = None;
  kmalloc_content_length n : length (kmalloc_content n) = n;
}.

Definition kfree (l : loc) (h : heap) : option heap :=
  match h !! l with Some _ => Some (delete l h) | None => None end.

Module KUtil.
Section util.
Context `{Kmalloc}.

(** The result of an allocation: the address, or [NULL], and the heap after it. *)
Definition kstrdup (s : option bytes) (h : heap) : option (option loc * heap) :=
  match s with
  | None => Some (None, h)
  | Some s =>
      n ← KString.strlen s;
      let len := (n + 1)%nat in
      match kmalloc h len with
      | None => Some (None, h)
      | Some buf =>
          b ← KString.memcpy (kmalloc_content len) s len;
          Some (Some buf, <[buf := Bytes b]> h)
      end
  end.

Definition kstrndup (s : option bytes) (max : nat) (h : heap) : option (option loc * heap) :=
  match s with
  | None => Some (None, h)
  | Some s =>
      len ← KString.strnlen s max;
      match kmalloc h (len + 1) with
      | None => Some (None, h)
      | Some buf =>
          b ← KString.memcpy (kmalloc_content (len + 1)) s len;
          b ← KString.store_at b len NUL;
          Some (Some buf, <[buf := Bytes b]> h)
      end
  end.

Definition kmemdup (src : bytes) (len : nat) (h : heap) : option (option loc * heap) :=
  match kmalloc h len with
  | None => Some (None, h)
  | Some p =>
      b ← KString.memcpy (kmalloc_content len) src len;
      Some (Some p, <[p := Bytes b]> h)
  end.

Definition kmemdup_nul (s : option bytes) (len : nat) (h : heap) : option (option loc * heap) :=
  match s with
  | None => Some (None, h)
  | Some s =>
      match kmalloc h (len + 1) with
      | None => Some (None, h)
      | Some buf =>
          b ← KString.memcpy (kmalloc_content (len + 1)) s len;
          b ← KString.store_at b len NUL;
          Some (Some buf, <[buf := Bytes b]> h)
      end
  end.

Definition kstrdup_const (is_kernel_rodata : loc → bool) (s : loc) (h : heap) :
    option (option loc * heap) :=
  if is_kernel_rodata s then Some (Some s, h)
  else match h !! s with Some (Bytes b) => kstrdup (Some b) h | _ => None end.

Definition kfree_const (is_kernel_rodata : loc → bool) (x : loc) (h : heap) : option heap :=
  if negb (is_kernel_rodata x) then kfree x h else Some h.

Lemma strnlen_cstr s k n :
  is_cstr s → KString.strnlen (s ++ NUL :: k) n = Some (length (take n s)).
Proof.
  intros Hs. revert n. induction s as [|c s IH]; intros [|n]; try done.
  apply Forall_cons in Hs as [[_ Hn] Hs]. cbn. rewrite (proj2 (Z.eqb_neq c NUL)) by done.
  by rewrite IH.
Qed.

(** A copy with a NUL: of the whole string or of its first bytes. *)
Lemma copy_fresh s n : (n ≤ length s)%nat →
  (b ← KString.memcpy (kmalloc_content (n + 1)) s n; KString.store_at b n NUL) =
  Some (take n s ++ [NUL]).
Proof.
  intros Hn. rewrite KString.copy_nul by (rewrite ?kmalloc_content_length; lia).
  by rewrite drop_ge by (rewrite kmalloc_content_length; lia).
Qed.

Lemma kstrndup_spec s k max h : is_cstr s →
  kstrndup (Some (s ++ NUL :: k)) max h =
  Some (match kmalloc h (length (take max s) + 1) with
        | None => (None, h)
        | Some l => (Some l, <[l := Bytes (take max s ++ [NUL])]> h)
        end).
Proof.
  intros Hs. unfold kstrndup. rewrite strnlen_cstr by done. cbn [mbind option_bind].
  destruct (kmalloc h _) as [l|]; [|done].
  assert (length (take max s) ≤ length (s ++ NUL :: k))%nat as Hl
    by (rewrite length_take, length_app; lia).
  pose proof (copy_fresh (s ++ NUL :: k) _ Hl) as E.
  destruct (KString.memcpy _ _ _) as [b|]; cbn in *; [|done]. rewrite E. cbn.
  rewrite take_app_le by (rewrite length_take; lia).
  assert (take (length (take max s)) s = take max s) as ->; [|done].
  rewrite length_take. destruct (Nat.min_spec max (length s)) as [[? ->]|[? ->]]; [done|].
  by rewrite !take_ge by lia.
Qed.

Lemma kmemdup_nul_spec s len h : (len ≤ length s)%nat →
  kmemdup_nul (Some s) len h =
  Some (match kmalloc h (len + 1) with
        | None => (None, h)
        | Some l => (Some l, <[l := Bytes (take len s ++ [NUL])]> h)
        end).
Proof.
  intros Hl. unfold kmemdup_nul. destruct (kmalloc h _) as [l|]; [|done].
  pose proof (copy_fresh s len Hl) as E.
  destruct (KString.memcpy _ _ _) as [b|]; cbn in *; [|done]. by rewrite E.
Qed.

End util.
End KUtil.

Module KArgv.
Import KUtil.
Section argv.
Context `{Ctype} `{Kmalloc}.

(** [for (was_space = true; *str; str++)] *)
Fixpoint count_loop (str : bytes) (was_space : bool) (count : nat) : option nat :=
  match str with
  | [] => None
  | c :: str =>
      if (c =? NUL)%Z then Some count
      else if isspace c then count_loop str true count
      else if was_space then count_loop str false (S count)
      else count_loop str was_space count
  end.

Definition count_argc (str : bytes) : option nat := count_loop str true 0.

Definition put (argv : list word) (i : nat) (w : word) : option (list word) :=
  match argv !! i with Some _ => Some (<[i := w]> argv) | None => None end.

(** The loop of [argv_split]: [rest] are the bytes from [argv_str] on, which is at
    offset [off] of the block [l] with content [str]; [i] is the index of [argv]. *)
Fixpoint split_loop (l : loc) (rest : bytes) (off : nat) (was_space : bool) (str : bytes)
    (argv : list word) (i : nat) : option (bytes * list word * nat) :=
  match rest with
  | [] => None
  | c :: rest =>
      if (c =? NUL)%Z then Some (str, argv, i)
      else if isspace c then
        str ← KString.store_at str off NUL;
        split_loop l rest (S off) true str argv i
      else if was_space then
        argv ← put argv i (Ptr l off);
        split_loop l rest (S off) false str argv (S i)
      else split_loop l rest (S off) was_space str argv i
  end.

(** The vector returned is a pointer to the second word of its block; with it the
    count, which is stored in [*argcp] unless [argcp] is [NULL]. *)
Definition argv_split (str : bytes) (h : heap) : option (option (loc * nat * nat) * heap) :=
  r ← kstrndup (Some str) (KMALLOC_MAX_SIZE - 1) h;
  match (r : option loc * heap) with
  | (None, h) => Some (None, h)
  | (Some l, h) =>
      argv_str ← match h !! l with Some (Bytes b) => Some b | _ => None end;
      argc ← count_argc argv_str;
      match kmalloc h ((argc + 2) * 8) with
      | None => h ← kfree l h; Some (None, h)
      | Some a =>
          let argv := replicate (argc + 2) Undef in
          argv ← put argv 0 (Ptr l 0);
          s ← split_loop l argv_str 0 true argv_str argv 1;
          let '(argv_str, argv, i) := (s : bytes * list word * nat) in
          argv ← put argv i Null;
          Some (Some (a, 1%nat, argc), <[a := Words argv]> (<[l := Bytes argv_str]> h))
      end
  end.

(** [argv--; kfree(argv[0]); kfree(argv);] *)
Definition argv_free (a : loc) (i : nat) (h : heap) : option heap :=
  match i with
  | O => None
  | S i =>
      argv ← match h !! a with Some (Words w) => Some w | _ => None end;
      w ← argv !! i;
      match w with
      | Ptr l O => h ← kfree l h; match i with O => kfree a h | S _ => None end
      | _ => None
      end
  end.

(** ** The words of a string *)

(** The pieces between single spaces, and those that are not empty. *)
Fixpoint space_fields (s : bytes) : list bytes :=
  match s with
  | [] => [[]]
  | c :: s =>
      if isspace c then [] :: space_fields s
      else match space_fields s with
           | [] => [[c]]
           | w :: ws => (c :: w) :: ws
           end
  end.

Definition nonempty (l : list bytes) : list bytes := filter (λ w, w ≠ []) l.

Definition words (s : bytes) : list bytes := nonempty (space_fields s).

(** The strings a vector holds, up to its [NULL]. *)
Fixpoint read_argv (h : heap) (w : list word) : option (list bytes) :=
  match w with
  | Ptr l o :: w =>
      b ← match h !! l with Some (Bytes b) => Some b | _ => None end;
      s ← KString.cstring (drop o b);
      ss ← read_argv h w;
      Some (s :: ss)
  | Null :: _ => Some []
  | _ => None
  end.

(** Where the words start. *)
Fixpoint starts (s : bytes) (off : nat) (was_space : bool) : list nat :=
  match s with
  | [] => []
  | c :: s =>
      if isspace c then starts s (S off) true
      else if was_space then off :: starts s (S off) false
      else starts s (S off) was_space
  end.

(** Spaces become NULs. *)
Definition blank (s : bytes) : bytes := (λ c, if isspace c then NUL else c) <$> s.

Lemma count_loop_starts s k off ws n :
  is_cstr s → count_loop (s ++ NUL :: k) ws n = Some (n + length (starts s off ws))%nat.
Proof.
  intros Hs. revert off ws n. induction s as [|c s IH]; intros off ws n; cbn [count_loop app starts].
  - by rewrite Z.eqb_refl, Nat.add_0_r.
  - apply Forall_cons in Hs as [[_ Hn] Hs]. rewrite (proj2 (Z.eqb_neq c NUL)) by done.
    destruct (isspace c); [by apply IH|]. destruct ws; [|by apply IH].
    rewrite (IH Hs (S off)). f_equal. simpl. lia.
Qed.

Lemma put_middle a x b w n : n = length a → put (a ++ x :: b) n w = Some (a ++ w :: b).
Proof.
  intros ->. unfold put. rewrite list_lookup_middle by done.
  by rewrite insert_app_r_alt, Nat.sub_diag.
Qed.

(** The loop blanks the spaces and writes the starts of the words. *)
Lemma split_loop_spec l p s k ws argv old tail :
  is_cstr s → length old = length (starts s (length p) ws) →
  split_loop l (s ++ NUL :: k) (length p) ws (p ++ s ++ NUL :: k) (argv ++ old ++ tail) (length argv) =
  Some (p ++ blank s ++ NUL :: k, argv ++ (Ptr l <$> starts s (length p) ws) ++ tail,
        length argv + length (starts s (length p) ws))%nat.
Proof.
  intros Hs. revert p ws argv old.
  induction s as [|c s IH]; intros p ws argv old Hold; cbn [split_loop app starts] in *.
  { rewrite Z.eqb_refl, Nat.add_0_r. by destruct old. }
  apply Forall_cons in Hs as [[_ Hn] Hs]. rewrite (proj2 (Z.eqb_neq c NUL)) by done.
  assert (∀ x y t, p ++ x :: y ++ NUL :: t = (p ++ [x]) ++ y ++ NUL :: t) as Ha
    by (intros; by rewrite <-app_assoc).
  assert (∀ x, S (length p) = length (p ++ [x])) as Hp by (intros; rewrite length_app; simpl; lia).
  unfold blank. cbn [fmap list_fmap]. fold (blank s). destruct (isspace c) eqn:Hc.
  - unfold KString.store_at. rewrite list_lookup_middle by done. cbn [mbind option_bind].
    rewrite insert_app_r_alt, Nat.sub_diag by done. cbn [insert list_insert].
    rewrite !Ha, (Hp NUL) in *. rewrite (IH Hs) with (old := old) by done. by rewrite <-!app_assoc.
  - rewrite !Ha, (Hp c) in *. destruct ws.
    + destruct old as [|y old]; [done|]. cbn [length app] in *.
      rewrite put_middle by done. cbn [mbind option_bind].
      specialize (IH Hs (p ++ [c]) false (argv ++ [Ptr l (length p)]) old ltac:(lia)).
      repeat rewrite length_app in IH. repeat rewrite <-app_assoc in IH. cbn [app length] in IH.
      rewrite !Nat.add_1_r in IH. rewrite <-(Hp c), <-!app_assoc. cbn [app fmap list_fmap].
      rewrite IH. by rewrite <-Nat.add_succ_comm.
    + rewrite (IH Hs) with (old := old) by done. by rewrite <-!app_assoc.
Qed.

Lemma space_fields_nonempty s : space_fields s ≠ [].
Proof. destruct s; cbn; [done|]. repeat case_match; done. Qed.

(** The string at the start of a blanked text is its first field. *)
Lemma blank_cstring s k : is_cstr s →
  ∃ w ws, space_fields s = w :: ws ∧ KString.cstring (blank s ++ NUL :: k) = Some w.
Proof.
  induction s as [|c s IH]; intros Hs; [by exists [], []|].
  apply Forall_cons in Hs as [[_ Hn] Hs]. unfold blank. cbn [fmap list_fmap app space_fields].
  fold (blank s). destruct (isspace c); [by eexists _, _|].
  destruct (IH Hs) as (w & ws & -> & E). exists (c :: w), ws. split; [done|].
  cbn. rewrite (proj2 (Z.eqb_neq c NUL)) by done. by rewrite E.
Qed.

Lemma starts_words s k p ws : is_cstr s →
  (λ o, KString.cstring (drop o (p ++ blank s ++ NUL :: k))) <$> starts s (length p) ws =
  Some <$> (if ws then words s else nonempty (tail (space_fields s))).
Proof.
  unfold words. intros Hs. revert p ws. induction s as [|c s IH]; intros p ws; [by destruct ws|].
  assert (∀ x t, p ++ (x :: t) ++ NUL :: k = (p ++ [x]) ++ t ++ NUL :: k) as Ha
    by (intros; by rewrite <-app_assoc).
  assert (∀ x, S (length p) = length (p ++ [x])) as Hp by (intros; rewrite length_app; simpl; lia).
  pose proof Hs as [[_ Hn] Hs']%Forall_cons. cbn [starts space_fields].
  destruct (blank_cstring s k Hs') as (w & rest & Ef & Ew).
  unfold blank. cbn [fmap list_fmap]. fold (blank s). destruct (isspace c) eqn:Hc.
  - rewrite Ha, (Hp NUL), (IH Hs'). by destruct ws.
  - rewrite Ef. destruct ws.
    + assert (nonempty ((c :: w) :: rest) = (c :: w) :: nonempty rest) as -> by done.
      cbn [fmap list_fmap]. rewrite drop_app_length. f_equal.
      * cbn. rewrite (proj2 (Z.eqb_neq c NUL)) by done. by rewrite Ew.
      * rewrite Ha, (Hp c), (IH Hs'). by rewrite Ef.
    + rewrite Ha, (Hp c), (IH Hs'). by rewrite Ef.
Qed.

Lemma starts_length s p : is_cstr s → length (starts s p true) = length (words s).
Proof.
  intros Hs. pose proof (starts_words s [] (replicate p 0%Z) true Hs) as E.
  apply (f_equal length) in E. rewrite !length_fmap, length_replicate in E. done.
Qed.

Lemma read_argv_starts h l b offs ss tail :
  h !! l = Some (Bytes b) → (λ o, KString.cstring (drop o b)) <$> offs = Some <$> ss →
  read_argv h ((Ptr l <$> offs) ++ Null :: tail) = Some ss.
Proof.
  intros Hl. revert ss. induction offs as [|o offs IH]; intros ss E; cbn.
  - by destruct ss.
  - destruct ss as [|w ss]; [done|]. cbn in E. injection E as E1 E2.
    rewrite Hl. cbn. rewrite E1. cbn. by rewrite (IH ss).
Qed.

(** C40: [argv_split] gives the words of the string (of its first [KMALLOC_MAX_SIZE - 1]
    bytes): the vector has their number of pointers, in order, to strings equal to them
    and then a [NULL], and [argv_free] gives back the heap as it was.  When an
    allocation fails the result is [NULL] and nothing is left allocated.  No access is
    outside a block. *)
Theorem argv_split_words s k h :
  is_cstr s →
  let t := take (KMALLOC_MAX_SIZE - 1) s in
  match argv_split (s ++ NUL :: k) h with
  | Some (Some (a, i, argc), h') =>
      argc = length (words t) ∧
      (∃ w, h' !! a = Some (Words w) ∧ read_argv h' (drop i w) = Some (words t)) ∧
      argv_free a i h' = Some h
  | Some (None, h') => h' = h ∧ ∃ h0 n, kmalloc h0 n = None
  | None => False
  end.
Proof.
  intros Hs t. unfold argv_split. rewrite kstrndup_spec by done. cbn [mbind option_bind].
  fold t. assert (is_cstr t) as Ht by (by apply Forall_take).
  destruct (kmalloc h _) as [l|] eqn:Hl; [|by eauto]. apply kmalloc_fresh in Hl.
  rewrite lookup_insert_eq. cbn [mbind option_bind]. unfold count_argc.
  rewrite (count_loop_starts t [] 0) by done. cbn [mbind option_bind Nat.add].
  set (n := length (starts t 0 true)). assert (n = length (words t)) as Hn by (by apply starts_length).
  destruct (kmalloc _ _) as [a|] eqn:Ha.
  2:{ unfold kfree. rewrite lookup_insert_eq. cbn. rewrite delete_insert_id by done. eauto. }
  apply kmalloc_fresh in Ha. apply lookup_insert_None in Ha as [Ha Hla].
  rewrite Nat.add_comm. cbn [replicate Nat.add]. change (Undef :: Undef :: replicate n Undef)
    with ([] ++ Undef :: Undef :: replicate n Undef).
  rewrite put_middle by done. cbn [mbind option_bind app].
  assert (Undef :: replicate n Undef = replicate n Undef ++ [Undef]) as -> by (by rewrite <-replicate_cons_app).
  pose proof (split_loop_spec l [] t [] true [Ptr l 0] (replicate n Undef) [Undef] Ht) as E.
  cbn [app length] in E. rewrite E by (by rewrite length_replicate). cbn [mbind option_bind].
  fold n. rewrite app_comm_cons, put_middle by (simpl; by rewrite length_fmap).
  cbn [mbind option_bind]. split; [done|]. split.
  - eexists. rewrite lookup_insert_eq. split; [done|]. cbn [drop app]. rewrite drop_0.
    eapply read_argv_starts; [rewrite lookup_insert_ne by done; by rewrite lookup_insert_eq|].
    apply (starts_words t [] []). done.
  - unfold argv_free. rewrite lookup_insert_eq. cbn. unfold kfree.
    rewrite lookup_insert_ne, lookup_insert_eq by done. cbn.
    rewrite delete_insert_ne, insert_insert_eq, (delete_insert_id h l) by done.
    rewrite lookup_insert_eq. by rewrite delete_insert_id.
Qed.

End argv.
(** ** Witness *)

(** An allocator with a limit on the size of a block. *)
#[export] Program Instance bounded_kmalloc (limit : nat) : Kmalloc := {
  kmalloc h n := if decide (n ≤ limit) then Some (fresh (dom h)) else None;
  kmalloc_content n := replicate n 0xa5%Z;
  KMALLOC_MAX_SIZE := 4096;
}.
Next Obligation.
  intros limit h n l E. cbn in E. case_decide; simplify_eq. apply not_elem_of_dom, is_fresh.
Qed.
Next Obligation. intros. apply length_replicate. Qed.

Lemma argv_split_words_witness :
  let _ := bounded_kmalloc 100 in
  words (take (KMALLOC_MAX_SIZE - 1) (B " ls  -l /tmp ")) = [B "ls"; B "-l"; B "/tmp"] ∧
  match argv_split (B " ls  -l /tmp " ++ [NUL]) ∅ with
  | Some (Some (a, i, argc), h') =>
      argc = 3 ∧
      (∃ w, h' !! a = Some (Words w) ∧
         read_argv h' (drop i w) = Some [B "ls"; B "-l"; B "/tmp"]) ∧
      argv_free a i h' = Some ∅
  | _ => False
  end.
Proof.
  intros K. split; [vm_refl|].
  pose proof (argv_split_words (H0 := K) (B " ls  -l /tmp ") [] ∅ ltac:(vm_decide)) as Hw.
  assert (∃ r h', argv_split (B " ls  -l /tmp " ++ [NUL]) ∅ = Some (Some r, h')) as (r & h' & E)
    by (eexists _, _; vm_refl).
  rewrite E in Hw |- *. destruct r as [[a i] argc]. exact Hw.
Defined.

End KArgv.
