(* ===== verification/KParser.v ===== *)
(** * Mount options, [lib/parser.c]

    The patterns of option tables ([match_one], [match_token]) and the conversions of
    the arguments they find.  A string is the list of its bytes with the NUL; a
    [substring_t] is a pair of offsets in it.  [MAX_OPT_ARGS] is a macro of a header
    and a parameter here.  [match_wildcard] is in the file on patterns. *)
From stdpp Require Import base numbers sets strings gmap list.
From S2P Require Import Prelude Ctype KString KStrtox KCmdline KArgv.

Module KParser.
Import KStrtox KVsprintf KUtil.
Local Open Scope Z_scope.

Record substring_t := Substring { from : nat; to : nat }.

Section parser.
Context `{Ctype} (BITS_PER_LONG : Z) (MAX_OPT_ARGS : nat).

Abbreviation simple_strtoul := (simple_strtoul BITS_PER_LONG).
Abbreviation simple_strtol := (simple_strtol BITS_PER_LONG).

(** [args[i].from = v] and [args[i].to = v] *)
Definition set_from (args : list substring_t) (i v : nat) : option (list substring_t) :=
  a ← args !! i; Some (<[i := Substring v (to a)]> args).
Definition set_to (args : list substring_t) (i v : nat) : option (list substring_t) :=
  a ← args !! i; Some (<[i := Substring (from a) v]> args).

(** The [switch] on the conversion [c] for the argument at [s]: the length that makes
    [args[argc].to], if it is set, and whether the match goes on; [len] is the width or
    -1. *)
Definition match_arg (s : bytes) (c len : Z) : option (option nat * bool) :=
  let num (r : option (Z * bytes)) :=
    e ← r;
    let n := (length s - length e.2)%nat in
    Some (Some n, negb (n =? 0)%nat) in
  if c =? 115 then
    str_len ← KString.strlen s;
    if (str_len =? 0)%nat then Some (None, false)
    else
      let len := if (len =? -1) || (Z.of_nat str_len <? wrap BITS_PER_LONG len)
                 then str_len else Z.to_nat len in
      Some (Some len, true)
  else if c =? 100 then num (simple_strtol s 0)
  else if c =? 117 then num (simple_strtoul s 0)
  else if c =? 111 then num (simple_strtoul s 8)
  else if c =? 120 then num (simple_strtoul s 16)
  else Some (None, false).

(** The rest of a pass after a ['%'] that is not doubled: the width, the test of
    [argc], the [switch].  The result is where to go on in the string and in the
    pattern, [None] for [return 0]. *)
Definition conversion (buf : bytes) (so : nat) (p : bytes) (args : list substring_t) (argc : nat) :
    option (option (nat * bytes) * list substring_t) :=
  c ← p !! 0%nat;
  w ← (if isdigit c then
         r ← simple_strtoul p 10; Some (signed 32 r.1, r.2)
       else Some (-1, p));
  let '(len, p) := (w : Z * bytes) in
  if (MAX_OPT_ARGS <=? argc)%nat then Some (None, args)
  else
    args ← set_from args argc so;
    c ← p !! 0%nat;
    r ← match_arg (drop so buf) c len;
    let '(n, go) := (r : option nat * bool) in
    args ← match n with Some n => set_to args argc (so + n) | None => Some args end;
    Some (if negb go then None else Some ((so + default 0 n)%nat, drop 1 p), args).

(** The loop: [s] is at offset [so] of the string [buf]; every pass takes a byte at
    least from the pattern. *)
Fixpoint match_loop (fuel : nat) (buf : bytes) (so : nat) (p : bytes)
    (args : list substring_t) (argc : nat) : option (bool * list substring_t) :=
  match fuel with
  | O => None
  | S fuel =>
      meta ← KString.strchr p 37;
      match meta with
      | None => r ← KString.strcmp p (drop so buf); Some (r =? 0, args)
      | Some d =>
          r ← KString.strncmp p (drop so buf) d;
          if negb (r =? 0) then Some (false, args)
          else
            let so := (so + d)%nat in
            let p := drop (S d) p in
            c ← p !! 0%nat;
            if negb (isdigit c) && (c =? 37) then
              x ← buf !! so;
              if negb (x =? 37) then Some (false, args)
              else match_loop fuel buf (S so) (drop 1 p) args argc
            else
              r ← conversion buf so p args argc;
              match (r : option (nat * bytes) * list substring_t) with
              | (None, args) => Some (false, args)
              | (Some (so, p), args) => match_loop fuel buf so p args (S argc)
              end
      end
  end.

(** The pattern may be null. *)
Definition match_one (s : bytes) (p : option bytes) (args : list substring_t) :
    option (bool * list substring_t) :=
  match p with
  | None => Some (true, args)
  | Some p => match_loop (length p) s 0 p args 0
  end.

(** A table of tokens and patterns; [None] when its last pattern is not null. *)
Fixpoint match_token (s : bytes) (table : list (Z * option bytes)) (args : list substring_t) :
    option (Z * list substring_t) :=
  match table with
  | [] => None
  | (token, pattern) :: table =>
      r ← match_one s pattern args;
      let '(b, args) := (r : bool * list substring_t) in
      if b then Some (token, args) else match_token s table args
  end.

Definition match_strlcpy (dest buf : bytes) (src : substring_t) (size : nat) : option (nat * bytes) :=
  let ret := (to src - from src)%nat in
  match size with
  | O => Some (ret, dest)
  | S _ =>
      let len := if (size <=? ret)%nat then (size - 1)%nat else ret in
      dest ← KString.memcpy dest (drop (from src) buf) len;
      dest ← KString.store_at dest len NUL;
      Some (ret, dest)
  end.

(** ** The patterns *)

Inductive conv := Cd | Cu | Co | Cx.

Inductive ptok := PLit (c : Z) | PPct | PStr (w : option Z) | PConv (v : conv).

Definition conv_char (v : conv) : Z := match v with Cd => 100 | Cu => 117 | Co => 111 | Cx => 120 end.
Definition conv_base (v : conv) : Z := match v with Cd | Cu => 0 | Co => 8 | Cx => 16 end.
Definition conv_sign (v : conv) : bool := match v with Cd => true | _ => false end.

Definition print_tok (t : ptok) : bytes :=
  match t with
  | PLit c => [c]
  | PPct => [37; 37]
  | PStr None => [37; 115]
  | PStr (Some w) => 37 :: print_nat 10 w ++ [115]
  | PConv v => [37; conv_char v]
  end.

Definition print_pat (toks : list ptok) : bytes := concat (print_tok <$> toks).

Definition tok_ok (t : ptok) : Prop :=
  match t with
  | PLit c => is_byte c ∧ c ≠ NUL ∧ c ≠ 37
  | PStr (Some w) => 0 ≤ w < 2 ^ 31
  | _ => True
  end.

(** How much of [s] an argument takes, if it matches. *)
Definition arg_len (t : ptok) (s : bytes) : option nat :=
  match t with
  | PStr w =>
      if decide (s = []) then None
      else Some (match w with None => length s | Some w => Nat.min (Z.to_nat w) (length s) end)
  | PConv v =>
      let n := (length s - length (number_end (conv_sign v) (conv_base v) s))%nat in
      if decide (n = 0%nat) then None else Some n
  | _ => None
  end.

(** The reference: the arguments found when the whole string matches, with room for
    [n] of them. *)
Fixpoint ref_match (n : nat) (toks : list ptok) (so : nat) (s : bytes) : option (list substring_t) :=
  match toks with
  | [] => if decide (s = []) then Some [] else None
  | PLit c :: toks =>
      match s with
      | x :: s => if decide (x = c) then ref_match n toks (S so) s else None
      | [] => None
      end
  | PPct :: toks =>
      match s with
      | x :: s => if decide (x = 37) then ref_match n toks (S so) s else None
      | [] => None
      end
  | t :: toks =>
      match n with
      | O => None
      | S n =>
          k ← arg_len t s;
          l ← ref_match n toks (so + k) (drop k s);
          Some (Substring so (so + k) :: l)
      end
  end.

Definition is_arg (t : ptok) : bool := match t with PStr _ | PConv _ => true | _ => false end.

Lemma ref_match_arg n t toks so s : is_arg t = true →
  ref_match n (t :: toks) so s =
  match n with
  | O => None
  | S n =>
      k ← arg_len t s;
      l ← ref_match n toks (so + k) (drop k s);
      Some (Substring so (so + k) :: l)
  end.
Proof. by destruct t. Qed.

Lemma ref_match_lits n lits toks so s :
  ref_match n ((PLit <$> lits) ++ toks) so s =
  if starts_with lits s then ref_match n toks (so + length lits) (drop (length lits) s) else None.
Proof.
  revert so s. induction lits as [|c lits IH]; intros so s; cbn [fmap list_fmap app].
  - by rewrite Nat.add_0_r, drop_0.
  - cbn. destruct s as [|x s]; [done|]. destruct (Z.eqb_spec c x) as [->|Hne]; cbn.
    + rewrite decide_True, IH by done. by rewrite Nat.add_succ_r.
    + by rewrite decide_False by done.
Qed.

(** The literals a pattern starts with. *)
Lemma lit_run toks : Forall tok_ok toks → ∃ lits rest,
  toks = (PLit <$> lits) ++ rest ∧ is_cstr lits ∧ 37 ∉ lits ∧
  (rest = [] ∨ ∃ t r, rest = t :: r ∧ (t = PPct ∨ is_arg t = true)).
Proof.
  induction 1 as [|t toks Ht _ (lits & rest & -> & Hc & H37 & Hr)].
  - exists [], []. split_and!; [done|constructor|set_solver|by left].
  - destruct t as [c| | |].
    + exists (c :: lits), rest. cbn in Ht. split_and!; [done|by constructor; naive_solver|set_solver|done].
    + exists [], (PPct :: (PLit <$> lits) ++ rest). split_and!; [done|constructor|set_solver|eauto 10].
    + exists [], (PStr w :: (PLit <$> lits) ++ rest). split_and!; [done|constructor|set_solver|eauto 10].
    + exists [], (PConv v :: (PLit <$> lits) ++ rest). split_and!; [done|constructor|set_solver|eauto 10].
Qed.

Lemma print_pat_lits lits rest : print_pat ((PLit <$> lits) ++ rest) = lits ++ print_pat rest.
Proof.
  unfold print_pat. induction lits as [|c lits IH]; [done|]. cbn. by f_equal.
Qed.

Lemma strchr_meta lits q : is_cstr lits → 37 ∉ lits →
  KString.strchr (lits ++ 37 :: q) 37 = Some (Some (length lits)) ∧
  KString.strchr (lits ++ [NUL]) 37 = Some None.
Proof.
  induction lits as [|c lits IH]; intros Hc H37; [done|].
  apply Forall_cons in Hc as [[_ Hn] Hc]. cbn [app KString.strchr]. change (w8 37) with 37.
  rewrite (proj2 (Z.eqb_neq c 37)), (proj2 (Z.eqb_neq c NUL)) by set_solver.
  destruct (IH Hc) as [-> ->]; [set_solver|]. done.
Qed.

Lemma strncmp_lits lits q s :
  is_cstr lits → is_cstr s → ∃ r, KString.strncmp (lits ++ q) (s ++ [NUL]) (length lits) = Some r ∧
    (r = 0 ↔ starts_with lits s = true).
Proof.
  revert s. induction lits as [|x o IH]; intros s Ho Hs; [by exists 0|].
  apply Forall_cons in Ho as [[_ Hx] Ho]. cbn [length KString.strncmp app].
  destruct s as [|y s]; cbn [app].
  - rewrite (proj2 (Z.eqb_neq x NUL)) by done. cbn. eexists. split; [done|]. case_match; naive_solver lia.
  - apply Forall_cons in Hs as [[_ Hy] Hs]. cbn [starts_with].
    destruct (Z.eqb_spec x y) as [->|Hne]; cbn.
    + rewrite (proj2 (Z.eqb_neq y NUL)) by done. by apply IH.
    + eexists. split; [done|]. case_match; naive_solver lia.
Qed.

(** ** One argument *)

Definition tok_char (t : ptok) : Z := match t with PConv v => conv_char v | _ => 115 end.
Definition tok_len (t : ptok) : Z := match t with PStr (Some w) => w | _ => -1 end.

Lemma match_arg_spec t s :
  32 ≤ BITS_PER_LONG ≤ 64 → is_cstr s → zlen s < 2 ^ 31 → tok_ok t → is_arg t = true →
  ∃ o, match_arg (s ++ [NUL]) (tok_char t) (tok_len t) =
    Some (o, bool_decide (is_Some (arg_len t s))) ∧ ∀ k, arg_len t s = Some k → o = Some k.
Proof.
  intros HB Hs Hl Ht Harg. destruct t as [c| |w|v]; try done.
  - unfold match_arg, tok_char. cbn [Z.eqb Pos.eqb]. rewrite KString.strlen_cstr by done.
    cbn [mbind option_bind arg_len]. destruct s as [|x s'] eqn:Es; [by eexists|]. rewrite <-Es in *.
    assert (length s ≠ 0%nat) as Hne by (by rewrite Es).
    rewrite decide_False by (by rewrite Es). clear Es. apply Nat.eqb_neq in Hne as ->.
    rewrite bool_decide_true by eauto. eexists. split; [done|]. intros k [= <-]. f_equal.
    destruct w as [w|]; cbn [tok_len]; [|done]. cbn in Ht.
    assert (2 ^ 32 ≤ 2 ^ BITS_PER_LONG) by (apply Z.pow_le_mono_r; lia).
    rewrite wrap_small, (proj2 (Z.eqb_neq w (-1))) by lia. cbn [orb]. unfold zlen in Hl.
    destruct (Z.ltb_spec (Z.of_nat (length s)) w); lia.
  - assert (∃ z, match v with Cd => simple_strtol (s ++ [NUL]) (conv_base v)
                 | _ => simple_strtoul (s ++ [NUL]) (conv_base v) end =
      Some (z, number_end (conv_sign v) (conv_base v) s ++ [NUL])) as (z & E).
    { destruct v; cbn [conv_base conv_sign];
        [apply simple_strtol_end|apply simple_strtoul_end..]; (done || lia). }
    assert (length (s ++ [NUL]) - length (number_end (conv_sign v) (conv_base v) s ++ [NUL]) =
      length s - length (number_end (conv_sign v) (conv_base v) s))%nat as El
      by (rewrite !length_app; simpl; lia).
    exists (Some (length s - length (number_end (conv_sign v) (conv_base v) s))%nat).
    unfold arg_len. cbn [tok_char tok_len]. split.
    + assert (match_arg (s ++ [NUL]) (conv_char v) (-1) =
        (e ← match v with Cd => simple_strtol (s ++ [NUL]) (conv_base v)
             | _ => simple_strtoul (s ++ [NUL]) (conv_base v) end;
         Some (Some (length (s ++ [NUL]) - length e.2)%nat,
           negb (length (s ++ [NUL]) - length e.2 =? 0)%nat))) as -> by (by destruct v).
      rewrite E. cbn [mbind option_bind snd]. rewrite El. do 2 f_equal.
      destruct (decide _) as [->|Hne]; cbn; [done|]. by apply Nat.eqb_neq in Hne as ->.
    + intros k. case_decide; naive_solver.
Qed.

Lemma isdigit_false c : is_byte c → ¬ 48 ≤ c ≤ 57 → isdigit c = false.
Proof. intros Hb Hc. destruct (isdigit c) eqn:E; [|done]. by apply isdigit_spec in E. Qed.

(** The width of a conversion, if it has one, and its letter. *)
Lemma width_spec t q :
  32 ≤ BITS_PER_LONG ≤ 64 → tok_ok t → is_arg t = true → is_cstr q →
  zlen (print_tok t ++ q) < 2 ^ 31 →
  ∃ body c, print_tok t = 37 :: c :: body ∧ negb (isdigit c) && (c =? 37) = false ∧
  (if isdigit c then
     r ← simple_strtoul ((c :: body ++ q) ++ [NUL]) 10; Some (signed 32 r.1, r.2)
   else Some (-1, (c :: body ++ q) ++ [NUL])) = Some (tok_len t, tok_char t :: q ++ [NUL]).
Proof.
  intros HB Ht Harg Hq Hl. destruct t as [c| |[w|]|v]; try done.
  - cbn [tok_ok print_tok tok_len tok_char] in *.
    destruct (print_nat_digits 10 w) as (d & ds & E & He & Hds & _); [lia|lia|].
    rewrite E in *. cbn [fmap list_fmap app] in *. eexists _, _. split; [done|].
    pose proof Hds as [Hd _]%Forall_cons. pose proof (digit_char_plain d ltac:(lia)) as Hdc.
    assert (isdigit (digit_char d) = true) as ->.
    { apply isdigit_spec; unfold is_byte, digit_char in *; case_match; bool_to_prop; lia. }
    split; [done|]. set (text := digit_char d :: ((digit_char <$> ds) ++ [115]) ++ q).
    assert (text = (digit_char <$> d :: ds) ++ 115 :: q) as Et.
    { unfold text. cbn [fmap list_fmap app]. by rewrite <-app_assoc. }
    assert (is_cstr text) as Htc.
    { rewrite Et. apply Forall_app. split; [by eapply digit_chars_cstr; [|done]; lia|].
      constructor; [by split|done]. }
    change (digit_char d :: (((digit_char <$> ds) ++ [115]) ++ q) ++ [NUL]) with (text ++ [NUL]).
    unfold KVsprintf.simple_strtoul. rewrite simple_strtoull_spec;
      [|done|unfold text; autorewrite with zlen in *; lia|lia].
    assert (scan_number 10 text = (w, 115 :: q)) as ->.
    { unfold scan_number. assert (prefix_radix 10 text = (text, 10)) as ->.
      { unfold prefix_radix. repeat case_match; simplify_eq; bool_to_prop; try done; naive_solver lia. }
      rewrite Et, numeral_digit_chars by done. by rewrite He. }
    cbn [mbind option_bind fst snd app]. do 2 f_equal.
    assert (2 ^ 32 ≤ 2 ^ BITS_PER_LONG) by (apply Z.pow_le_mono_r; lia).
    unfold w64. rewrite (wrap_small 64 w), wrap_small by lia.
    apply KCmdline.signed_int. unfold KCmdline.is_int. lia.
  - eexists _, _. split; [done|]. rewrite isdigit_false by (unfold is_byte; lia). done.
  - eexists _, _. split; [done|].
    rewrite isdigit_false by (unfold is_byte; destruct v; cbn; lia). by destruct v.
Qed.

(** ** The loop *)

Lemma set_fields args i v : (i < length args)%nat → ∃ args1,
  set_from args i v = Some args1 ∧ length args1 = length args ∧
  ∀ t, set_to args1 i t = Some (<[i := Substring v t]> args).
Proof.
  intros Hi. destruct (lookup_lt_is_Some_2 args i Hi) as [a Ha].
  exists (<[i := Substring v (to a)]> args). unfold set_from, set_to. rewrite Ha.
  split; [done|]. split; [by rewrite length_insert|]. intros t.
  rewrite list_lookup_insert_eq by done. cbn. by rewrite list_insert_insert_eq.
Qed.

(** What the loop returns: the arguments in their places, or no match. *)
Definition match_result (n : nat) (toks : list ptok) (so : nat) (s : bytes)
    (args : list substring_t) (argc : nat) (r : option (bool * list substring_t)) : Prop :=
  match ref_match n toks so s with
  | Some l => r = Some (true, take argc args ++ l ++ drop (argc + length l) args)
  | None => ∃ args', r = Some (false, args') ∧ length args' = length args
  end.

Lemma match_result_fail n toks so s args argc args' :
  ref_match n toks so s = None → length args' = length args →
  match_result n toks so s args argc (Some (false, args')).
Proof. intros Hr Hl. unfold match_result. rewrite Hr. eauto. Qed.

(** Literals consumed, and an argument consumed. *)
Lemma match_result_lits n lits toks so s args argc r :
  match_result n toks (so + length lits) s args argc r →
  match_result n ((PLit <$> lits) ++ toks) so (lits ++ s) args argc r.
Proof.
  unfold match_result. rewrite ref_match_lits.
  assert (starts_with lits (lits ++ s) = true) as -> by (apply starts_with_spec; eauto).
  by rewrite drop_app_length.
Qed.

Lemma match_result_arg n t toks so s args argc k r :
  is_arg t = true → arg_len t s = Some k → (argc < length args)%nat →
  match_result n toks (so + k) (drop k s) (<[argc := Substring so (so + k)]> args) (S argc) r →
  match_result (S n) (t :: toks) so s args argc r.
Proof.
  intros Ht Hk Hargc. unfold match_result. rewrite ref_match_arg, Hk by done. cbn [mbind option_bind].
  destruct (ref_match n toks (so + k) (drop k s)) as [l|]; cbn [mbind option_bind].
  - intros ->. do 2 f_equal. cbn [length].
    rewrite drop_insert_lt by lia.
    rewrite (take_S_r _ _ (Substring so (so + k))) by (by apply list_lookup_insert_eq).
    rewrite take_insert_ge, <-app_assoc by lia. cbn [app]. by rewrite Nat.add_succ_r.
  - intros (args' & -> & Hl). rewrite length_insert in Hl. eauto.
Qed.

Lemma print_pat_cstr toks : Forall tok_ok toks → is_cstr (print_pat toks).
Proof.
  induction 1 as [|t toks Ht _ IH]; [constructor|]. unfold print_pat. cbn.
  apply Forall_app. split; [|done]. destruct t as [c| |[w|]|v]; cbn in *.
  - constructor; [naive_solver|constructor].
  - vm_decide.
  - constructor; [by split|]. apply Forall_app. split; [|vm_decide].
    pose proof (KCmdline.print_int_is_cstr w) as Hp. unfold print_int in Hp.
    by rewrite (proj2 (Z.ltb_ge _ _)) in Hp by lia.
  - vm_decide.
  - destruct v; vm_decide.
Qed.

Lemma arg_len_le t s k : arg_len t s = Some k → (k ≤ length s)%nat.
Proof.
  destruct t as [| |w|v]; cbn; try done; case_decide; try done; intros [= <-]; [case_match|]; lia.
Qed.

(** One conversion: the argument is set if there is room and it matches. *)
Lemma conversion_spec n t q pre s args argc :
  32 ≤ BITS_PER_LONG ≤ 64 → tok_ok t → is_arg t = true → is_cstr q →
  is_cstr s → zlen s < 2 ^ 31 → zlen (print_tok t ++ q) < 2 ^ 31 →
  (argc + n = MAX_OPT_ARGS)%nat → (MAX_OPT_ARGS ≤ length args)%nat →
  ∃ c body args', print_tok t = 37 :: c :: body ∧ negb (isdigit c) && (c =? 37) = false ∧
    conversion (pre ++ s ++ [NUL]) (length pre) (c :: body ++ q ++ [NUL]) args argc =
      Some (match n with
            | O => None
            | S _ => (λ k, ((length pre + k)%nat, q ++ [NUL])) <$> arg_len t s
            end, args') ∧
    length args' = length args ∧
    (∀ k, (0 < n)%nat → arg_len t s = Some k →
      args' = <[argc := Substring (length pre) (length pre + k)]> args).
Proof.
  intros HB Ht Harg Hq Hs Hl Hpl Hn Hargs.
  destruct (width_spec t q HB Ht Harg Hq Hpl) as (body & c & E & Hc & Hw). exists c, body.
  unfold conversion. cbn [lookup list_lookup mbind option_bind].
  cbn [app] in Hw. rewrite <-app_assoc in Hw. rewrite Hw. cbn [mbind option_bind].
  destruct (Nat.leb_spec MAX_OPT_ARGS argc).
  { assert (n = 0%nat) as -> by lia. exists args. split_and!; try done. intros. lia. }
  destruct n as [|n]; [lia|].
  destruct (set_fields args argc (length pre)) as (args1 & -> & Hl1 & Hto); [lia|].
  cbn [lookup list_lookup mbind option_bind]. rewrite drop_app_length.
  destruct (match_arg_spec t s HB Hs Hl Ht Harg) as (o & -> & Ho). cbn [mbind option_bind].
  destruct (arg_len t s) as [k|] eqn:Hk.
  - rewrite (Ho k eq_refl), bool_decide_true, Hto by eauto. cbn [mbind option_bind negb].
    eexists. split_and!; [done|done|done|by rewrite length_insert|]. by intros ? _ [= <-].
  - rewrite bool_decide_false by (by intros [? ?]). destruct o as [k|].
    + rewrite Hto. eexists. split_and!; [done|done|done|by rewrite length_insert|done].
    + by exists args1.
Qed.

(** The last pass, on a pattern without conversions. *)
Lemma end_pass fuel n lits pre s args argc :
  is_cstr lits → 37 ∉ lits → is_cstr s →
  match_result n ((PLit <$> lits) ++ []) (length pre) s args argc
    (match_loop (S fuel) (pre ++ s ++ [NUL]) (length pre) (lits ++ print_pat [] ++ [NUL]) args argc).
Proof.
  intros Hlc H37 Hs. change (print_pat [] ++ [NUL]) with [NUL]. cbn [match_loop].
  destruct (strchr_meta lits [] Hlc H37) as [_ ->]. rewrite drop_app_length.
  cbn [mbind option_bind]. rewrite (KString.strcmp_cstr lits s [] []) by done. cbn [mbind option_bind].
  destruct (decide (lits = s)) as [<-|Hne].
  - rewrite bytes_compare_refl. rewrite <-(app_nil_r lits) at 2. apply match_result_lits.
    unfold match_result. cbn [ref_match]. rewrite decide_True by done. cbn [length app].
    by rewrite Nat.add_0_r, take_drop.
  - assert ((KString.sign (bytes_compare lits s) =? 0) = false) as ->.
    { destruct (bytes_compare lits s) eqn:E; [|done..]. by apply bytes_compare_eq in E. }
    apply match_result_fail; [|done]. rewrite ref_match_lits. destruct (starts_with lits s) eqn:E; [|done].
    apply starts_with_spec in E as [k ->]. rewrite drop_app_length. cbn. rewrite decide_False; [done|].
    intros ->. by rewrite app_nil_r in Hne.
Qed.

(** The loop agrees with the reference on a pattern. *)
Definition loop_right (fuel : nat) (toks : list ptok) : Prop :=
  ∀ n pre s args argc,
  is_cstr s → zlen s < 2 ^ 31 → (argc + n = MAX_OPT_ARGS)%nat → (MAX_OPT_ARGS ≤ length args)%nat →
  match_result n toks (length pre) s args argc
    (match_loop fuel (pre ++ s ++ [NUL]) (length pre) (print_pat toks ++ [NUL]) args argc).

(** A pass after the literals, on a doubled ['%'] and on a conversion. *)
Definition meta_pass (fuel : nat) (buf : bytes) (so : nat) (p : bytes)
    (args : list substring_t) (argc : nat) : option (bool * list substring_t) :=
  c ← p !! 0%nat;
  if negb (isdigit c) && (c =? 37) then
    x ← buf !! so;
    if negb (x =? 37) then Some (false, args)
    else match_loop fuel buf (S so) (drop 1 p) args argc
  else
    r ← conversion buf so p args argc;
    match (r : option (nat * bytes) * list substring_t) with
    | (None, args) => Some (false, args)
    | (Some (so, p), args) => match_loop fuel buf so p args (S argc)
    end.

Lemma percent_pass fuel n r pre s args argc :
  loop_right fuel r → is_cstr s → zlen s < 2 ^ 31 →
  (argc + n = MAX_OPT_ARGS)%nat → (MAX_OPT_ARGS ≤ length args)%nat →
  match_result n (PPct :: r) (length pre) s args argc
    (meta_pass fuel (pre ++ s ++ [NUL]) (length pre) (37 :: print_pat r ++ [NUL]) args argc).
Proof.
  intros IH Hs Hl Hn Hargs. unfold meta_pass. cbn [app lookup list_lookup mbind option_bind].
  rewrite isdigit_false by (unfold is_byte; lia). rewrite Z.eqb_refl. cbn [negb andb drop].
  destruct s as [|y s]; cbn [app]; rewrite list_lookup_middle by done; cbn [mbind option_bind].
  { by apply match_result_fail. }
  destruct (Z.eqb_spec y 37) as [->|Hy]; cbn [negb].
  2:{ apply match_result_fail; [|done]. cbn. by rewrite decide_False. }
  apply Forall_cons in Hs as [_ Hs]. rewrite zlen_cons in Hl.
  specialize (IH n (pre ++ [37]) s args argc Hs ltac:(lia) Hn Hargs).
  rewrite length_app, Nat.add_1_r, <-app_assoc in IH. exact IH.
Qed.

Lemma conversion_pass fuel n t r pre s args argc :
  32 ≤ BITS_PER_LONG ≤ 64 → tok_ok t → is_arg t = true → Forall tok_ok r →
  zlen (print_tok t ++ print_pat r) < 2 ^ 31 →
  loop_right fuel r → is_cstr s → zlen s < 2 ^ 31 →
  (argc + n = MAX_OPT_ARGS)%nat → (MAX_OPT_ARGS ≤ length args)%nat →
  ∃ q, print_tok t = 37 :: q ∧ match_result n (t :: r) (length pre) s args argc
    (meta_pass fuel (pre ++ s ++ [NUL]) (length pre) (q ++ print_pat r ++ [NUL]) args argc).
Proof.
  intros HB Ht Harg Hr Hpl IH Hs Hl Hn Hargs.
  destruct (conversion_spec n t (print_pat r) pre s args argc) as
    (c & body & args' & Et & Hc & Ec & Hla & Hset); try done; [by apply print_pat_cstr|].
  exists (c :: body). split; [done|]. unfold meta_pass.
  cbn [lookup list_lookup mbind option_bind app]. rewrite Hc, Ec. cbn [mbind option_bind].
  destruct n as [|n].
  { apply match_result_fail; [|done]. by rewrite ref_match_arg. }
  destruct (arg_len t s) as [k|] eqn:Hk; cbn [fmap option_fmap option_map].
  2:{ apply match_result_fail; [|done]. by rewrite ref_match_arg, Hk. }
  rewrite (Hset k ltac:(lia) eq_refl). clear Hset Hla Ec.
  apply (match_result_arg n t r _ _ _ _ k); [done|done|lia|].
  assert (k ≤ length s)%nat as Hks by (by apply arg_len_le in Hk).
  specialize (IH n (pre ++ take k s) (drop k s)
    (<[argc := Substring (length pre) (length pre + k)]> args) (S argc)).
  rewrite length_app, length_take, Nat.min_l, <-app_assoc, (app_assoc (take k s)), take_drop in IH by done.
  apply IH; [by apply Forall_drop|unfold zlen in *; rewrite length_drop; lia|lia|].
  by rewrite length_insert.
Qed.

Lemma match_loop_spec fuel toks :
  32 ≤ BITS_PER_LONG ≤ 64 → Forall tok_ok toks →
  zlen (print_pat toks) < 2 ^ 31 → (length (print_pat toks) < fuel)%nat → loop_right fuel toks.
Proof.
  intros HB. revert toks. induction fuel as [|fuel IH]; intros toks Hok Hpl Hf; [lia|].
  intros n pre s args argc Hs Hl Hn Hargs.
  destruct (lit_run toks Hok) as (lits & rest & -> & Hlc & H37 & Hrest).
  apply Forall_app in Hok as [_ Hok]. rewrite print_pat_lits in *. rewrite <-app_assoc.
  destruct Hrest as [->|(t & r & -> & Ht)]; [by apply end_pass|].
  apply Forall_cons in Hok as [Htok Hok].
  change (print_pat (t :: r)) with (print_tok t ++ print_pat r) in *.
  assert (1 ≤ length (print_tok t))%nat by (destruct t as [c| |[w|]|v]; simpl; lia).
  rewrite !length_app in Hf. specialize (IH r Hok ltac:(zlen_lia) ltac:(lia)).
  assert (∃ q, print_tok t = 37 :: q ∧ ∀ pre s, is_cstr s → zlen s < 2 ^ 31 →
    match_result n (t :: r) (length pre) s args argc
      (meta_pass fuel (pre ++ s ++ [NUL]) (length pre) (q ++ print_pat r ++ [NUL]) args argc))
    as (q & Eq & Hpass).
  { destruct Ht as [->|Harg].
    - exists [37]. split; [done|]. intros. by apply percent_pass.
    - assert (zlen (print_tok t ++ print_pat r) < 2 ^ 31) as Hpl' by zlen_lia.
      destruct (conversion_pass fuel n t r [] [] args argc) as (q & Eq & _); try done; [constructor|].
      exists q. split; [done|]. intros pre' s' Hs' Hl'.
      destruct (conversion_pass fuel n t r pre' s' args argc) as (q' & Eq' & Hq'); try done.
      rewrite Eq in Eq'. by injection Eq' as <-. }
  rewrite Eq. cbn [app match_loop]. rewrite !drop_app_length, <-app_assoc.
  destruct (strchr_meta lits (q ++ print_pat r ++ [NUL]) Hlc H37) as [-> _]. cbn [mbind option_bind].
  destruct (strncmp_lits lits (37 :: q ++ print_pat r ++ [NUL]) s Hlc Hs) as (x & -> & Hx).
  cbn [mbind option_bind]. destruct (Z.eqb_spec x 0) as [->|Hx0].
  2:{ apply match_result_fail; [|done]. rewrite ref_match_lits.
      destruct (starts_with lits s); [|done]. by destruct Hx0; apply Hx. }
  destruct (proj1 (starts_with_spec lits s)) as [s' ->]; [by apply Hx|].
  apply match_result_lits. cbn [negb]. rewrite drop_app_S, <-length_app.
  apply Forall_app in Hs as [_ Hs].
  replace (pre ++ (lits ++ s') ++ [NUL]) with ((pre ++ lits) ++ s' ++ [NUL])
    by (by rewrite <-!app_assoc).
  apply Hpass; [done|zlen_lia].
Qed.

(** ** Tables *)

Lemma match_one_spec toks s args :
  32 ≤ BITS_PER_LONG ≤ 64 → Forall tok_ok toks → zlen (print_pat toks) < 2 ^ 31 →
  is_cstr s → zlen s < 2 ^ 31 → (MAX_OPT_ARGS ≤ length args)%nat →
  match_result MAX_OPT_ARGS toks 0 s args 0
    (match_one (s ++ [NUL]) (Some (print_pat toks ++ [NUL])) args).
Proof.
  intros HB Hok Hpl Hs Hl Hargs. unfold match_one.
  apply (match_loop_spec _ toks HB Hok Hpl) with (pre := []); [rewrite length_app; simpl; lia|done..].
Qed.

Lemma ref_match_length n toks so s l : ref_match n toks so s = Some l → (length l ≤ n)%nat.
Proof.
  revert n so s l. induction toks as [|t toks IH]; intros n so s l; cbn [ref_match].
  { case_decide; [|done]. intros [= <-]. simpl. lia. }
  destruct t as [c| |w|v]; try solve [destruct s; [done|]; case_decide; [|done]; apply IH];
    (destruct n as [|n]; [done|]; intros (k & _ & (l' & Hl' & [= <-])%bind_Some)%bind_Some;
     apply IH in Hl'; simpl; lia).
Qed.

(** The entry of a table that matches first, and its arguments. *)
Fixpoint ref_token (entries : list (Z * list ptok)) (fallback : Z) (s : bytes) : Z * list substring_t :=
  match entries with
  | [] => (fallback, [])
  | (token, toks) :: entries =>
      match ref_match MAX_OPT_ARGS toks 0 s with
      | Some l => (token, l)
      | None => ref_token entries fallback s
      end
  end.

Definition print_entry (e : Z * list ptok) : Z * option bytes :=
  (e.1, Some (print_pat e.2 ++ [NUL])).

Definition entry_ok (e : Z * list ptok) : Prop :=
  Forall tok_ok e.2 ∧ zlen (print_pat e.2) < 2 ^ 31.

(** C39: [match_token] returns the token of the first entry whose whole pattern matches
    the whole string, with the places of its arguments in [args], and the token of the
    entry with the null pattern when none does.  It ends, for every table that has such
    an entry, and stays within the strings and the [MAX_OPT_ARGS] elements. *)
Theorem match_token_first entries fallback more s args :
  32 ≤ BITS_PER_LONG ≤ 64 → Forall entry_ok entries →
  is_cstr s → zlen s < 2 ^ 31 → (MAX_OPT_ARGS ≤ length args)%nat →
  let '(token, l) := ref_token entries fallback s in
  ∃ args', match_token (s ++ [NUL]) ((print_entry <$> entries) ++ (fallback, None) :: more) args =
      Some (token, args') ∧ take (length l) args' = l ∧ length args' = length args.
Proof.
  intros HB Hok Hs Hl. revert args. induction Hok as [|[token toks] entries [Hok Hpl] _ IH];
    intros args Hargs; cbn [fmap list_fmap app ref_token]; [by exists args|].
  cbn [match_token print_entry fst snd]. pose proof (match_one_spec toks s args) as Hm.
  unfold match_result in Hm. destruct (ref_match MAX_OPT_ARGS toks 0 s) as [l|] eqn:El.
  - rewrite Hm by done. rewrite take_0. cbn [mbind option_bind app Nat.add]. eexists. split; [done|].
    apply ref_match_length in El. split; [by rewrite take_app_length|].
    rewrite length_app, length_drop. lia.
  - destruct Hm as (args' & -> & Hla); [done..|]. cbn [mbind option_bind].
    rewrite <-Hla in Hargs. specialize (IH args' Hargs).
    destruct (ref_token entries fallback s) as [token' l']. rewrite <-Hla. exact IH.
Qed.

(** [match_strlcpy] copies at most [size - 1] bytes and a NUL, and returns the length of
    the substring. *)
Lemma match_strlcpy_copies dest buf src size :
  (from src ≤ to src ≤ length buf)%nat → (size ≤ length dest)%nat →
  let n := (to src - from src)%nat in
  let k := Nat.min n (size - 1) in
  match_strlcpy dest buf src size =
  Some (n, if decide (size = 0%nat) then dest
           else take k (drop (from src) buf) ++ NUL :: drop (S k) dest).
Proof.
  intros Hsrc Hd n k. unfold match_strlcpy. fold n. destruct size as [|size]; [done|].
  rewrite decide_False by done.
  assert ((if (S size <=? n)%nat then (S size - 1)%nat else n) = k) as ->
    by (unfold k; destruct (Nat.leb_spec (S size) n); lia).
  pose proof (KString.copy_nul dest (drop (from src) buf) k ltac:(unfold k; lia)
    ltac:(rewrite length_drop; unfold k, n; lia)) as E.
  destruct (KString.memcpy dest _ k) as [d|]; cbn in *; [|done]. by rewrite E.
Qed.

Section convert.
Context `{Kmalloc}.

Definition match_strdup (buf : bytes) (s : substring_t) (h : heap) : option (option loc * heap) :=
  kmemdup_nul (Some (drop (from s) buf)) (to s - from s) h.

Definition ENOMEM : Z := 12.

(** The return code, the value stored if any, and the heap. *)
Definition match_number (buf : bytes) (s : substring_t) (base : Z) (h : heap) :
    option (Z * option Z * heap) :=
  d ← match_strdup buf s h;
  match (d : option loc * heap) with
  | (None, h) => Some (- ENOMEM, None, h)
  | (Some l, h) =>
      b ← match h !! l with Some (Bytes b) => Some b | _ => None end;
      r ← simple_strtol b base;
      let '(val, endp) := (r : Z * bytes) in
      let res :=
        if (length endp =? length b)%nat then (- EINVAL, None)
        else if (val <? - 2 ^ 31) || (2 ^ 31 - 1 <? val) then (- ERANGE, None)
        else (0, Some (signed 32 val)) in
      h ← kfree l h;
      Some (res, h)
  end.

Definition match_u64int (buf : bytes) (s : substring_t) (base : Z) (h : heap) :
    option (Z * option Z * heap) :=
  d ← match_strdup buf s h;
  match (d : option loc * heap) with
  | (None, h) => Some (- ENOMEM, None, h)
  | (Some l, h) =>
      b ← match h !! l with Some (Bytes b) => Some b | _ => None end;
      r ← kstrtoull b base;
      let res := match r with KOk val => (0, Some val) | KErr e => (e, None) end in
      h ← kfree l h;
      Some (res, h)
  end.

Definition match_int (buf : bytes) (s : substring_t) (h : heap) := match_number buf s 0 h.
Definition match_u64 (buf : bytes) (s : substring_t) (h : heap) := match_u64int buf s 0 h.
Definition match_octal (buf : bytes) (s : substring_t) (h : heap) := match_number buf s 8 h.
Definition match_hex (buf : bytes) (s : substring_t) (h : heap) := match_number buf s 16 h.

(** [match_int] reads back a printed [long] wherever it stands in the string: the
    value when an [int] holds it, else [-ERANGE]; [-ENOMEM] when the copy cannot be
    allocated.  The heap is as before. *)
Theorem match_int_reads pre z post h :
  32 ≤ BITS_PER_LONG ≤ 64 → - 2 ^ (BITS_PER_LONG - 1) ≤ z < 2 ^ (BITS_PER_LONG - 1) →
  let n := length (print_int 10 z) in
  match_int (pre ++ print_int 10 z ++ post) (Substring (length pre) (length pre + n)) h =
  Some (match kmalloc h (n + 1) with
        | None => (- ENOMEM, None)
        | Some _ => if bool_decide (KCmdline.is_int z) then (0, Some z) else (- ERANGE, None)
        end, h).
Proof.
  intros HB Hz n. unfold match_int, match_number, match_strdup. cbn [from to].
  replace (length pre + n - length pre)%nat with n by lia. rewrite drop_app_length.
  rewrite kmemdup_nul_spec by (rewrite length_app; unfold n; lia). cbn [mbind option_bind].
  unfold n. rewrite take_app_length.
  destruct (kmalloc h _) as [l|] eqn:Hl; [|done]. apply kmalloc_fresh in Hl.
  rewrite lookup_insert_eq. cbn [mbind option_bind].
  pose proof (print_int_length 10 z BITS_PER_LONG ltac:(lia) ltac:(lia) Hz) as Hpl.
  pose proof (strtol_print_long BITS_PER_LONG z [] HB Hz) as E. rewrite app_nil_r in E.
  rewrite E by (done || constructor || lia). cbn [mbind option_bind app].
  unfold kfree. rewrite lookup_insert_eq. cbn [mbind option_bind].
  rewrite delete_insert_id by done. do 2 f_equal.
  rewrite length_app. pose proof (KCmdline.print_int_nonempty z).
  rewrite (proj2 (Nat.eqb_neq _ _)) by (cbn [length]; lia).
  unfold KCmdline.is_int. destruct (Z.ltb_spec z (- 2 ^ 31)), (Z.ltb_spec (2 ^ 31 - 1) z); cbn [orb];
    try (rewrite bool_decide_false by lia; done).
  rewrite bool_decide_true by lia. do 2 f_equal. apply KCmdline.signed_int. unfold KCmdline.is_int. lia.
Qed.

End convert.
End parser.
(** ** Witnesses *)

Definition mount_options : list (Z * list ptok) :=
  [(1, (PLit <$> B "uid=") ++ [PConv Cu]); (2, (PLit <$> B "mode=") ++ [PConv Co; PLit 44; PStr (Some 3)])].

Lemma match_token_first_witness :
  match_token 64 3 (B "mode=755,abcd" ++ [NUL]) ((print_entry <$> mount_options) ++ [(-1, None)])
    (replicate 3 (Substring 0 0)) = Some (-1, [Substring 5 8; Substring 9 12; Substring 0 0]) ∧
  ∃ args', match_token 64 3 (B "mode=755,abc" ++ [NUL]) ((print_entry <$> mount_options) ++ [(-1, None)])
    (replicate 3 (Substring 0 0)) = Some (2, args') ∧
    take 2 args' = [Substring 5 8; Substring 9 12] ∧ length args' = 3%nat.
Proof.
  split; [vm_refl|].
  apply (match_token_first 64 3 mount_options (-1) [] (B "mode=755,abc") (replicate 3 (Substring 0 0)));
    [lia| |vm_decide|done|done].
  repeat constructor; unfold tok_ok, is_byte; cbn; lia || done.
Defined.

Lemma match_int_reads_witness :
  match_int (H0 := KArgv.bounded_kmalloc 100) 64 (B "gid=-42,ro" ++ [NUL]) (Substring 4 7) ∅ =
    Some (0, Some (-42), ∅) ∧
  match_int (H0 := KArgv.bounded_kmalloc 100) 64 (B "4294967296" ++ [NUL]) (Substring 0 10) ∅ =
    Some (- ERANGE, None, ∅).
Proof.
  split.
  - apply (match_int_reads (H0 := KArgv.bounded_kmalloc 100) 64 (B "gid=") (-42) (B ",ro" ++ [NUL]) ∅); lia.
  - apply (match_int_reads (H0 := KArgv.bounded_kmalloc 100) 64 [] 4294967296 [NUL] ∅); lia.
Defined.

(** The comment on [match_int] speaks of a decimal integer; a leading zero makes it
    octal, what follows the digits is ignored, and a lone sign is zero. *)
Example match_int_octal :
  match_int (H0 := KArgv.bounded_kmalloc 100) 64 (B "010" ++ [NUL]) (Substring 0 3) ∅ =
    Some (0, Some 8, ∅) ∧
  match_int (H0 := KArgv.bounded_kmalloc 100) 64 (B "12ab" ++ [NUL]) (Substring 0 4) ∅ =
    Some (0, Some 12, ∅) ∧
  match_int (H0 := KArgv.bounded_kmalloc 100) 64 (B "-" ++ [NUL]) (Substring 0 1) ∅ =
    Some (0, Some 0, ∅).
Proof. split_and!; vm_refl. Qed.

End KParser.
