(* ===== verification/KMath.v ===== *)
(** * Integer arithmetic, [lib/math/]

    [gcd.c] (both versions), [lcm.c], [int_pow.c] and [int_sqrt.c].  An [unsigned long]
    has [BITS_PER_LONG] bits.  The bit searches [__ffs], [__fls] and [fls64] come from
    headers of the architecture: the class [Bitops] states what they find. *)
From stdpp Require Import base numbers sets list.
From S2P Require Import Prelude.

Class Bitops := {
  __ffs : Z → Z;
  __fls : Z → Z;
  fls64 : Z → Z;
  __ffs_spec x : (0 < x)%Z →
    (0 ≤ __ffs x)%Z ∧ Z.testbit x (__ffs x) = true ∧
    ∀ i, (0 ≤ i < __ffs x)%Z → Z.testbit x i = false;
  __fls_spec x : (0 < x)%Z →
    (0 ≤ __fls x)%Z ∧ Z.testbit x (__fls x) = true ∧
    ∀ i, (__fls x < i)%Z → Z.testbit x i = false;
  fls64_spec x : (0 < x)%Z → fls64 x = (1 + __fls x)%Z;
}.

Module KMath.
Local Open Scope Z_scope.

Section math.
Context `{Bitops} (BITS_PER_LONG : Z).

(** [1UL << n] and the like *)
Definition ul (x : Z) : Z := wrap BITS_PER_LONG x.

(** ** [gcd] where [__ffs] is efficient *)

(** [for (;;)]; [fuel] passes. *)
Fixpoint gcd_loop (fuel : nat) (a b r : Z) : option Z :=
  match fuel with
  | O => None
  | S fuel =>
      let a := Z.shiftr a (__ffs a) in
      if a =? 1 then Some (Z.land r (ul (- r)))
      else if a =? b then Some (ul (Z.shiftl a (__ffs r)))
      else
        let '(a, b) := if a <? b then (b, a) else (a, b) in
        gcd_loop fuel (a - b) b r
  end.

(** The product of the two numbers halves in every pass. *)
Definition gcd_fuel : nat := Z.to_nat (2 * BITS_PER_LONG).

Definition gcd (a b : Z) : option Z :=
  let r := Z.lor a b in
  if (a =? 0) || (b =? 0) then Some r
  else
    let b := Z.shiftr b (__ffs b) in
    if b =? 1 then Some (Z.land r (ul (- r)))
    else gcd_loop gcd_fuel a b r.

(** ** [gcd] with [CONFIG_CPU_NO_EFFICIENT_FFS] *)

(** [while (!(x & r)) x >>= 1;] *)
Fixpoint normalize (fuel : nat) (x r : Z) : option Z :=
  match fuel with
  | O => None
  | S fuel => if Z.land x r =? 0 then normalize fuel (Z.shiftr x 1) r else Some x
  end.

Definition norm_fuel : nat := S (Z.to_nat BITS_PER_LONG).

Fixpoint gcd_noffs_loop (fuel : nat) (a b r : Z) : option Z :=
  match fuel with
  | O => None
  | S fuel =>
      a ← normalize norm_fuel a r;
      if a =? r then Some r
      else if a =? b then Some a
      else
        let '(a, b) := if a <? b then (b, a) else (a, b) in
        let a := Z.shiftr (a - b) 1 in
        let a := if negb (Z.land a r =? 0) then ul (a + b) else a in
        gcd_noffs_loop fuel (Z.shiftr a 1) b r
  end.

Definition gcd_noffs (a b : Z) : option Z :=
  let r := Z.lor a b in
  if (a =? 0) || (b =? 0) then Some r
  else
    let r := Z.land r (ul (- r)) in
    b ← normalize norm_fuel b r;
    if b =? r then Some r else gcd_noffs_loop gcd_fuel a b r.

(** ** [lcm] *)

Definition lcm (a b : Z) : option Z :=
  if negb (a =? 0) && negb (b =? 0) then
    g ← gcd a b;
    if g =? 0 then None else Some (ul (a / g * b))
  else Some 0.

Definition lcm_not_zero (a b : Z) : option Z :=
  l ← lcm a b;
  Some (if negb (l =? 0) then l else if negb (b =? 0) then b else a).

(** ** [int_pow] *)

Fixpoint pow_loop (fuel : nat) (result base exp : Z) : option Z :=
  match fuel with
  | O => None
  | S fuel =>
      if exp =? 0 then Some result
      else
        let result := if negb (Z.land exp 1 =? 0) then w64 (result * base) else result in
        pow_loop fuel result (w64 (base * base)) (Z.shiftr exp 1)
  end.

Definition int_pow (base exp : Z) : option Z := pow_loop 33 1 base exp.

(** ** [int_sqrt] *)

(** [while (m != 0)], in words of [w] bits *)
Fixpoint sqrt_loop (fuel : nat) (w x y m : Z) : option Z :=
  match fuel with
  | O => None
  | S fuel =>
      if m =? 0 then Some y
      else
        let b := wrap w (y + m) in
        let y := Z.shiftr y 1 in
        if b <=? x then sqrt_loop fuel w (x - b) (wrap w (y + m)) (Z.shiftr m 2)
        else sqrt_loop fuel w x y (Z.shiftr m 2)
  end.

Definition int_sqrt (x : Z) : option Z :=
  if x <=? 1 then Some x
  else
    let m := ul (Z.shiftl 1 (Z.land (__fls x) (ul (Z.lnot 1)))) in
    sqrt_loop (S (Z.to_nat BITS_PER_LONG)) BITS_PER_LONG x 0 m.

Definition int_sqrt64 (x : Z) : option Z :=
  if x <=? 2 ^ BITS_PER_LONG - 1 then int_sqrt x
  else
    let m := w64 (Z.shiftl 1 (Z.land (fls64 x - 1) (w64 (Z.lnot 1)))) in
    y ← sqrt_loop 65 64 x 0 m;
    Some (w32 y).

(** ** Odd parts and powers of two *)

Definition odd (m : Z) : Prop := ∃ k, 0 ≤ k ∧ m = 2 * k + 1.

Lemma odd_split x : 0 < x → ∃ k m, 0 ≤ k ∧ odd m ∧ x = m * 2 ^ k.
Proof.
  intros Hx. destruct (odd_part x Hx) as (k & m & Hk & Hm & ->).
  exists k, (2 * m + 1). split_and!; [done|by exists m|done].
Qed.

Lemma odd_pos m : odd m → 1 ≤ m.
Proof. intros (k & Hk & ->). lia. Qed.

Lemma odd_pow2_bits m k i : odd m → 0 ≤ k → 0 ≤ i →
  (i < k → Z.testbit (m * 2 ^ k) i = false) ∧ Z.testbit (m * 2 ^ k) k = true.
Proof.
  intros (n & Hn & ->) Hk Hi. split.
  - intros. by apply Z.mul_pow2_bits_low.
  - rewrite Z.mul_pow2_bits, Z.sub_diag by done. apply Z.testbit_odd_0.
Qed.

Lemma ffs_value m k : odd m → 0 ≤ k → __ffs (m * 2 ^ k) = k.
Proof.
  intros Hm Hk. pose proof (odd_pos m Hm). pose proof (Z.pow_pos_nonneg 2 k ltac:(lia) Hk).
  destruct (__ffs_spec (m * 2 ^ k)) as (Hge & Ht & Hf); [nia|].
  destruct (odd_pow2_bits m k (__ffs (m * 2 ^ k)) Hm Hk Hge) as [Hlow Hbit].
  destruct (Z.lt_trichotomy (__ffs (m * 2 ^ k)) k) as [Hlt|[->|Hlt]]; [|done|].
  - rewrite Hlow in Ht by done. done.
  - rewrite Hf in Hbit by lia. done.
Qed.

Lemma shift_ffs m k : odd m → 0 ≤ k → Z.shiftr (m * 2 ^ k) (__ffs (m * 2 ^ k)) = m.
Proof.
  intros Hm Hk. rewrite ffs_value by done. rewrite Z.shiftr_div_pow2 by done.
  apply Z.div_mul. apply Z.pow_nonzero; lia.
Qed.

(** The lowest bit of a word. *)
Lemma lowest_bit m k : odd m → 0 ≤ k → 0 ≤ BITS_PER_LONG → m * 2 ^ k < 2 ^ BITS_PER_LONG →
  Z.land (m * 2 ^ k) (ul (- (m * 2 ^ k))) = 2 ^ k.
Proof.
  intros Hm Hk HB Hlt. pose proof (odd_pos m Hm). pose proof (Z.pow_pos_nonneg 2 k ltac:(lia) Hk).
  unfold ul. rewrite land_wrap by nia. destruct Hm as (n & Hn & ->).
  replace (- ((2 * n + 1) * 2 ^ k)) with (- (2 * n + 1) * 2 ^ k) by lia.
  by rewrite land_mul_pow2, land_odd_opp, Z.mul_1_l.
Qed.

Lemma lor_split a b ka kb : odd a → odd b → 0 ≤ ka → 0 ≤ kb →
  ∃ m, odd m ∧ Z.lor (a * 2 ^ ka) (b * 2 ^ kb) = m * 2 ^ Z.min ka kb.
Proof.
  intros Ha Hb Hka Hkb. pose proof (odd_pos a Ha). pose proof (odd_pos b Hb).
  pose proof (Z.pow_pos_nonneg 2 ka ltac:(lia) Hka). pose proof (Z.pow_pos_nonneg 2 kb ltac:(lia) Hkb).
  set (r := Z.lor (a * 2 ^ ka) (b * 2 ^ kb)).
  assert (0 < r) as Hr.
  { assert (0 ≤ r) by (apply Z.lor_nonneg; nia). assert (r ≠ 0); [|lia].
    unfold r. rewrite Z.lor_eq_0_iff. nia. }
  destruct (odd_split r Hr) as (k & m & Hk & Hm & E). exists m. split; [done|]. rewrite E. do 2 f_equal.
  destruct (odd_pow2_bits a ka k Ha Hka Hk) as [La Ba], (odd_pow2_bits b kb k Hb Hkb Hk) as [Lb Bb].
  destruct (odd_pow2_bits m k (Z.min ka kb) Hm Hk ltac:(lia)) as [Lm Bm]. rewrite <-E in Lm, Bm.
  unfold r in Lm, Bm. rewrite Z.lor_spec in Lm, Bm.
  destruct (Z.lt_trichotomy k (Z.min ka kb)) as [Hlt|[->|Hlt]]; [|done|].
  - rewrite La, Lb in Bm by lia. done.
  - specialize (Lm Hlt). apply orb_false_iff in Lm as [L1 L2].
    destruct (Z.min_spec ka kb) as [[_ Emin]|[_ Emin]]; rewrite Emin in *; congruence.
Qed.

Lemma gcd_double x b : odd b → Z.gcd (2 * x) b = Z.gcd x b.
Proof.
  intros (k & Hk & ->). apply Z.divide_antisym_nonneg; [apply Z.gcd_nonneg..| |].
  - apply Z.gcd_greatest; [|apply Z.gcd_divide_r].
    apply (Z.gauss _ 2); [apply Z.gcd_divide_l|].
    destruct (Z.gcd_divide_r (2 * x) (2 * k + 1)) as [q Hq].
    apply Z.bezout_1_gcd. exists q, (- k). lia.
  - apply Z.gcd_greatest; [|apply Z.gcd_divide_r].
    etrans; [apply Z.gcd_divide_l|]. apply Z.divide_factor_r.
Qed.

Lemma gcd_pow2 x b k : odd b → 0 ≤ k → Z.gcd (x * 2 ^ k) b = Z.gcd x b.
Proof.
  intros Hb. revert k. apply natlike_ind; [by rewrite Z.mul_1_r|]. intros k Hk IH.
  rewrite Z.pow_succ_r by done. rewrite <-IH, <-(gcd_double (x * 2 ^ k)) by done. f_equal. lia.
Qed.

Lemma gcd_split a b ka kb : odd a → odd b → 0 ≤ ka → 0 ≤ kb →
  Z.gcd (a * 2 ^ ka) (b * 2 ^ kb) = Z.gcd a b * 2 ^ Z.min ka kb.
Proof.
  intros Ha Hb Hka Hkb.
  assert (∀ a b ka kb, odd a → odd b → 0 ≤ ka ≤ kb →
    Z.gcd (a * 2 ^ ka) (b * 2 ^ kb) = Z.gcd a b * 2 ^ ka) as Hle.
  { clear. intros a b ka kb Ha Hb Hk. replace kb with ((kb - ka) + ka) by lia.
    rewrite Z.pow_add_r, Z.mul_assoc, Z.gcd_mul_mono_r by lia.
    rewrite Z.abs_eq by (apply Z.pow_nonneg; lia). f_equal.
    by rewrite Z.gcd_comm, gcd_pow2, Z.gcd_comm by (done || lia). }
  destruct (Z.min_spec ka kb) as [[? ->]|[? ->]]; [apply Hle; (done || lia)|].
  rewrite Z.gcd_comm, (Z.gcd_comm a). apply Hle; (done || lia).
Qed.

Lemma gcd_sub a b : Z.gcd (a - b) b = Z.gcd a b.
Proof. by rewrite Z.gcd_comm, Z.gcd_sub_diag_r, Z.gcd_comm. Qed.

(** ** The loops of [gcd] *)

(** What both versions keep: the odd parts are swapped so that the first is larger. *)
Lemma swap_odd a b : odd a → odd b → a ≠ b → ∃ a1 b1,
  (if a <? b then (b, a) else (a, b)) = (a1, b1) ∧ odd a1 ∧ odd b1 ∧ b1 < a1 ∧
  Z.gcd a1 b1 = Z.gcd a b ∧ a1 * b1 = a * b ∧ Z.max a1 b1 = Z.max a b.
Proof.
  intros Ha Hb Hne. destruct (Z.ltb_spec a b).
  - exists b, a. split_and!; try done; [by rewrite Z.gcd_comm|lia..].
  - exists a, b. split_and!; try done. lia.
Qed.

Lemma odd_sub_even a b : odd a → odd b → b < a → ∃ x, 0 < x ∧ a - b = 2 * x.
Proof. intros (k & Hk & ->) (l & Hl & ->) Hlt. exists (k - l). lia. Qed.

Lemma gcd_loop_spec fuel m k b r rm rk :
  odd m → 0 ≤ k → odd b → odd rm → 0 ≤ rk → r = rm * 2 ^ rk →
  0 ≤ BITS_PER_LONG → r < 2 ^ BITS_PER_LONG →
  Z.gcd m b * 2 ^ rk < 2 ^ BITS_PER_LONG → m * b < 2 ^ Z.of_nat fuel →
  gcd_loop fuel (m * 2 ^ k) b r = Some (Z.gcd m b * 2 ^ rk).
Proof.
  intros Hm Hk Hb Hrm Hrk -> HB Hr. revert m k b Hm Hk Hb.
  induction fuel as [|fuel IH]; intros m k b Hm Hk Hb Hg Hf;
    pose proof (odd_pos m Hm); pose proof (odd_pos b Hb); [simpl in Hf; nia|].
  cbn [gcd_loop]. rewrite shift_ffs, lowest_bit, ffs_value by done.
  destruct (Z.eqb_spec m 1) as [->|Hm1]; [by rewrite Z.gcd_1_l, Z.mul_1_l|].
  destruct (Z.eqb_spec m b) as [->|Hmb].
  { rewrite Z.gcd_diag, Z.abs_eq in * by lia. rewrite Z.shiftl_mul_pow2 by done. unfold ul.
    rewrite wrap_small; [done|]. pose proof (Z.pow_pos_nonneg 2 rk ltac:(lia) Hrk). nia. }
  destruct (swap_odd m b Hm Hb Hmb) as (a1 & b1 & -> & Ha1 & Hb1 & Hlt & Eg & Ep & _).
  destruct (odd_sub_even a1 b1 Ha1 Hb1 Hlt) as (x & Hx & Ex).
  destruct (odd_split x Hx) as (j & n & Hj & Hn & ->).
  assert (a1 - b1 = n * 2 ^ (j + 1)) as En by (rewrite Z.pow_add_r by lia; lia).
  assert (Z.gcd n b1 = Z.gcd m b) as Egn.
  { rewrite <-Eg, <-(gcd_sub a1), En. symmetry. apply gcd_pow2; [done|lia]. }
  rewrite En, <-Egn. apply IH; [done|lia|done|by rewrite Egn|].
  pose proof (odd_pos b1 Hb1). pose proof (odd_pos n Hn).
  pose proof (Z.pow_pos_nonneg 2 j ltac:(lia) Hj).
  rewrite Nat2Z.inj_succ, Z.pow_succ_r in Hf by lia. nia.
Qed.

(** Two positive words, their odd parts and what the code makes of them. *)
Lemma words_split a b :
  0 ≤ BITS_PER_LONG → 0 < a < 2 ^ BITS_PER_LONG → 0 < b < 2 ^ BITS_PER_LONG →
  ∃ m ka n kb rm, odd m ∧ odd n ∧ odd rm ∧ 0 ≤ ka ∧ 0 ≤ kb ∧
    a = m * 2 ^ ka ∧ b = n * 2 ^ kb ∧ Z.lor a b = rm * 2 ^ Z.min ka kb ∧
    Z.lor a b < 2 ^ BITS_PER_LONG ∧ Z.gcd a b = Z.gcd m n * 2 ^ Z.min ka kb ∧
    Z.gcd a b < 2 ^ BITS_PER_LONG ∧ m * n < 2 ^ Z.of_nat gcd_fuel.
Proof.
  intros HB Ha Hb. destruct (odd_split a) as (ka & m & Hka & Hm & ->); [lia|].
  destruct (odd_split b) as (kb & n & Hkb & Hn & ->); [lia|].
  destruct (lor_split m n ka kb) as (rm & Hrm & Er); [done..|].
  exists m, ka, n, kb, rm. split_and!; try done.
  - destruct (Z.lt_ge_cases 0 BITS_PER_LONG) as [HB0|HB0].
    + pose proof (Z.log2_lor (m * 2 ^ ka) (n * 2 ^ kb) ltac:(lia) ltac:(lia)) as Hl.
      assert (0 < Z.lor (m * 2 ^ ka) (n * 2 ^ kb)) as Hpos.
      { rewrite Er. pose proof (odd_pos rm Hrm). pose proof (Z.pow_pos_nonneg 2 (Z.min ka kb)). lia. }
      apply Z.log2_lt_pow2; [done|]. rewrite Hl. apply Z.max_lub_lt; apply Z.log2_lt_pow2; lia.
    + assert (BITS_PER_LONG = 0) as E by lia. rewrite E in *. lia.
  - by apply gcd_split.
  - eapply Z.le_lt_trans; [|apply Ha]. apply Z.divide_pos_le; [lia|]. apply Z.gcd_divide_l.
  - pose proof (odd_pos m Hm). pose proof (odd_pos n Hn).
    pose proof (Z.pow_pos_nonneg 2 ka ltac:(lia) Hka). pose proof (Z.pow_pos_nonneg 2 kb ltac:(lia) Hkb).
    unfold gcd_fuel. rewrite Z2Nat.id by lia. replace (2 * BITS_PER_LONG) with (BITS_PER_LONG + BITS_PER_LONG) by lia.
    rewrite Z.pow_add_r by lia. apply Z.mul_lt_mono_nonneg; nia.
Qed.

Lemma gcd_zero a b : 0 ≤ a → 0 ≤ b → (a =? 0) || (b =? 0) = true → Z.lor a b = Z.gcd a b.
Proof.
  intros Ha Hb [->%Z.eqb_eq| ->%Z.eqb_eq]%orb_prop.
  - by rewrite Z.lor_0_l, Z.gcd_0_l, Z.abs_eq.
  - by rewrite Z.lor_0_r, Z.gcd_0_r, Z.abs_eq.
Qed.

Lemma gcd_spec a b :
  0 ≤ BITS_PER_LONG → 0 ≤ a < 2 ^ BITS_PER_LONG → 0 ≤ b < 2 ^ BITS_PER_LONG →
  gcd a b = Some (Z.gcd a b).
Proof.
  intros HB Ha Hb. unfold gcd. destruct (_ || _) eqn:E; [f_equal; apply gcd_zero; (done || lia)|].
  bool_to_prop. destruct (words_split a b HB ltac:(lia) ltac:(lia)) as
    (m & ka & n & kb & rm & Hm & Hn & Hrm & Hka & Hkb & -> & -> & Er & Hr & -> & Hg & Hf).
  rewrite shift_ffs by done. rewrite Er in *.
  destruct (Z.eqb_spec n 1) as [->|Hn1].
  - rewrite lowest_bit by (done || lia). by rewrite Z.gcd_1_r, Z.mul_1_l.
  - apply (gcd_loop_spec _ _ _ _ _ rm); (done || lia).
Qed.

(** ** The version without [__ffs] *)

Lemma land_one x : Z.land x 1 = x mod 2.
Proof. exact (Z.land_ones x 1 ltac:(done)). Qed.

Lemma normalize_spec fuel m k t :
  odd m → 0 ≤ t ≤ k → k - t < Z.of_nat fuel → normalize fuel (m * 2 ^ k) (2 ^ t) = Some (m * 2 ^ t).
Proof.
  intros Hm. revert k. induction fuel as [|fuel IH]; intros k Ht Hf; [lia|]. cbn [normalize].
  assert (Z.land (m * 2 ^ k) (2 ^ t) = (if decide (k = t) then 2 ^ t else 0)) as ->.
  { destruct Hm as (n & Hn & ->). case_decide as Hkt.
    - subst. rewrite <-(Z.mul_1_l (2 ^ t)) at 2. rewrite land_mul_pow2, land_one by lia.
      replace (2 * n + 1) with (1 + n * 2) by lia. by rewrite Z_mod_plus_full, Z.mul_1_l.
    - replace k with ((k - t) + t) by lia. rewrite Z.pow_add_r, Z.mul_assoc by lia.
      rewrite <-(Z.mul_1_l (2 ^ t)) at 2. rewrite land_mul_pow2, land_one by lia.
      replace (2 ^ (k - t)) with (2 * 2 ^ (k - t - 1)) by (rewrite <-Z.pow_succ_r by lia; f_equal; lia).
      replace ((2 * n + 1) * (2 * 2 ^ (k - t - 1))) with ((2 * n + 1) * 2 ^ (k - t - 1) * 2) by lia.
      by rewrite Z_mod_mult. }
  pose proof (Z.pow_pos_nonneg 2 t ltac:(lia) ltac:(lia)).
  case_decide as Hkt.
  - subst. by rewrite (proj2 (Z.eqb_neq _ _)) by lia.
  - rewrite Z.eqb_refl. replace (Z.shiftr (m * 2 ^ k) 1) with (m * 2 ^ (k - 1)); [apply IH; lia|].
    rewrite Z.shiftr_div_pow2 by done. change (2 ^ 1) with 2.
    replace k with (Z.succ (k - 1)) at 2 by lia. rewrite Z.pow_succ_r by lia.
    replace (m * (2 * 2 ^ (k - 1))) with (m * 2 ^ (k - 1) * 2) by lia. by rewrite Z.div_mul.
Qed.

(** One pass: the difference of the odd parts, or their sum, is divided by four. *)
Lemma noffs_pass a1 b1 t :
  odd a1 → odd b1 → b1 < a1 → 0 ≤ t → 0 ≤ BITS_PER_LONG → a1 * 2 ^ t < 2 ^ BITS_PER_LONG →
  ∃ x, 0 < x ∧ 4 * x ≤ a1 + b1 ∧ Z.gcd x b1 = Z.gcd a1 b1 ∧
  (let a := Z.shiftr (a1 * 2 ^ t - b1 * 2 ^ t) 1 in
   let a := if negb (Z.land a (2 ^ t) =? 0) then ul (a + b1 * 2 ^ t) else a in
   Z.shiftr a 1) = x * 2 ^ t.
Proof.
  intros Ha Hb Hlt Ht HB Hw. destruct (odd_sub_even a1 b1 Ha Hb Hlt) as (d & Hd & Ed).
  pose proof (odd_pos b1 Hb). pose proof (Z.pow_pos_nonneg 2 t ltac:(lia) Ht) as HP.
  assert (∀ y, Z.shiftr (2 * y * 2 ^ t) 1 = y * 2 ^ t) as Hhalf.
  { intros y. rewrite Z.shiftr_div_pow2 by done. change (2 ^ 1) with 2.
    replace (2 * y * 2 ^ t) with (y * 2 ^ t * 2) by lia. by apply Z.div_mul. }
  replace (a1 * 2 ^ t - b1 * 2 ^ t) with (2 * d * 2 ^ t) by (rewrite <-Ed; lia). rewrite Hhalf.
  cbv zeta. assert (Z.land (d * 2 ^ t) (2 ^ t) = d mod 2 * 2 ^ t) as ->.
  { rewrite <-(Z.mul_1_l (2 ^ t)) at 2. by rewrite land_mul_pow2, land_one. }
  destruct (Z_mod_lt d 2 ltac:(lia)) as [Hm0 Hm2]. pose proof (Z.div_mod d 2 ltac:(lia)) as Hdm.
  destruct (Z.eq_dec (d mod 2) 0) as [E0|E1].
  - rewrite E0, Z.mul_0_l, Z.eqb_refl. cbn [negb]. exists (d / 2). split_and!; [lia|lia| |].
    + rewrite <-(gcd_double (d / 2)), <-(gcd_double (2 * (d / 2))), <-(gcd_sub a1) by done.
      f_equal. lia.
    + rewrite <-(Hhalf (d / 2)). do 2 f_equal. lia.
  - assert (d mod 2 = 1) as -> by lia. rewrite Z.mul_1_l, (proj2 (Z.eqb_neq _ _)) by lia. cbn [negb].
    destruct Hb as (k & Hk & ->).
    exists (d / 2 + k + 1). unfold ul. rewrite wrap_small by nia. split_and!; [lia|lia| |].
    + rewrite <-(gcd_double (d / 2 + k + 1)), <-(gcd_double (2 * (d / 2 + k + 1))) by (by exists k).
      rewrite <-(gcd_sub (2 * (2 * (d / 2 + k + 1)))). f_equal. lia.
    + rewrite <-(Hhalf (d / 2 + k + 1)), <-Z.mul_add_distr_r. do 2 f_equal. lia.
Qed.

Lemma gcd_noffs_loop_spec fuel m k b t :
  odd m → odd b → 0 ≤ t ≤ k → k - t < Z.of_nat norm_fuel → 0 ≤ BITS_PER_LONG →
  m * 2 ^ t < 2 ^ BITS_PER_LONG → b * 2 ^ t < 2 ^ BITS_PER_LONG → m * b < 2 ^ Z.of_nat fuel →
  gcd_noffs_loop fuel (m * 2 ^ k) (b * 2 ^ t) (2 ^ t) = Some (Z.gcd m b * 2 ^ t).
Proof.
  intros Hm Hb Ht Hnf HB. revert m k b Hm Hb Ht Hnf.
  induction fuel as [|fuel IH]; intros m k b Hm Hb Ht Hnf Hmw Hbw Hf;
    pose proof (odd_pos m Hm); pose proof (odd_pos b Hb);
    pose proof (Z.pow_pos_nonneg 2 t ltac:(lia) ltac:(lia)) as HP; [simpl in Hf; nia|].
  cbn [gcd_noffs_loop]. rewrite normalize_spec by done. cbn [mbind option_bind].
  destruct (Z.eqb_spec (m * 2 ^ t) (2 ^ t)) as [E|E].
  { assert (m = 1) as -> by nia. by rewrite Z.gcd_1_l, Z.mul_1_l. }
  destruct (Z.eqb_spec (m * 2 ^ t) (b * 2 ^ t)) as [Eb|Eb].
  { assert (m = b) as -> by nia. by rewrite Z.gcd_diag, Z.abs_eq by lia. }
  destruct (swap_odd m b Hm Hb) as (a1 & b1 & Es & Ha1 & Hb1 & Hlt & Eg & Ep & Emax); [by intros ->|].
  assert ((if m * 2 ^ t <? b * 2 ^ t then (b * 2 ^ t, m * 2 ^ t) else (m * 2 ^ t, b * 2 ^ t)) =
    (a1 * 2 ^ t, b1 * 2 ^ t)) as ->.
  { assert ((m * 2 ^ t <? b * 2 ^ t) = (m <? b)) as ->; [|by destruct (m <? b); simplify_eq].
    apply eq_true_iff_eq. rewrite !Z.ltb_lt. nia. }
  destruct (noffs_pass a1 b1 t) as (x & Hx & Hx4 & Ex & E2); try (done || lia).
  cbv zeta in E2. rewrite E2. clear E2.
  destruct (odd_split x Hx) as (j & n & Hj & Hn & ->). rewrite <-Z.mul_assoc, <-Z.pow_add_r by lia.
  assert (Z.gcd n b1 = Z.gcd m b) as En by (by rewrite <-Eg, <-Ex, gcd_pow2).
  pose proof (odd_pos b1 Hb1). pose proof (odd_pos n Hn).
  pose proof (Z.pow_pos_nonneg 2 j ltac:(lia) Hj) as HPj.
  rewrite <-En. rewrite Nat2Z.inj_succ, Z.pow_succ_r in Hf by lia.
  apply IH; try (done || lia); [|nia|nia|nia].
  unfold norm_fuel. rewrite Nat2Z.inj_succ, Z2Nat.id by lia.
  assert (2 ^ j < 2 ^ BITS_PER_LONG) by nia.
  assert (j < BITS_PER_LONG); [|lia]. apply (Z.pow_lt_mono_r_iff 2); lia.
Qed.

Lemma gcd_noffs_spec a b :
  0 ≤ BITS_PER_LONG → 0 ≤ a < 2 ^ BITS_PER_LONG → 0 ≤ b < 2 ^ BITS_PER_LONG →
  gcd_noffs a b = Some (Z.gcd a b).
Proof.
  intros HB Ha Hb. unfold gcd_noffs. destruct (_ || _) eqn:E; [f_equal; apply gcd_zero; (done || lia)|].
  bool_to_prop. destruct (words_split a b HB ltac:(lia) ltac:(lia)) as
    (m & ka & n & kb & rm & Hm & Hn & Hrm & Hka & Hkb & -> & -> & Er & Hr & -> & Hg & Hf).
  rewrite Er in *. rewrite lowest_bit by (done || lia).
  assert (∀ u k, odd u → 0 ≤ k → u * 2 ^ k < 2 ^ BITS_PER_LONG →
    k < Z.of_nat norm_fuel ∧ u * 2 ^ Z.min ka kb ≤ u * 2 ^ Z.max k (Z.min ka kb)) as Hk.
  { intros u k Hu Hk Hlt. pose proof (odd_pos u Hu). split.
    - unfold norm_fuel. rewrite Nat2Z.inj_succ, Z2Nat.id by lia.
      pose proof (Z.pow_pos_nonneg 2 k ltac:(lia) Hk).
      assert (k < BITS_PER_LONG); [|lia]. apply (Z.pow_lt_mono_r_iff 2); [lia|lia|nia].
    - apply Z.mul_le_mono_nonneg_l; [lia|]. apply Z.pow_le_mono_r; lia. }
  destruct (Hk m ka Hm Hka ltac:(lia)) as [Hka' Hma], (Hk n kb Hn Hkb ltac:(lia)) as [Hkb' Hnb].
  rewrite Z.max_l in Hma, Hnb by lia.
  rewrite normalize_spec by (done || lia). cbn [mbind option_bind].
  pose proof (Z.pow_pos_nonneg 2 (Z.min ka kb) ltac:(lia) ltac:(lia)).
  destruct (Z.eqb_spec (n * 2 ^ Z.min ka kb) (2 ^ Z.min ka kb)) as [En|En].
  - assert (n = 1) as -> by nia. by rewrite Z.gcd_1_r, Z.mul_1_l.
  - apply gcd_noffs_loop_spec; (done || lia).
Qed.

(** Both versions of [gcd] return the greatest common divisor of every two words, in
    at most two passes per bit, and [lcm] the least common multiple modulo the word
    size. *)
Theorem gcd_lcm_correct a b :
  0 ≤ BITS_PER_LONG → 0 ≤ a < 2 ^ BITS_PER_LONG → 0 ≤ b < 2 ^ BITS_PER_LONG →
  gcd a b = Some (Z.gcd a b) ∧ gcd_noffs a b = Some (Z.gcd a b) ∧
  lcm a b = Some (ul (Z.lcm a b)).
Proof.
  intros HB Ha Hb. split_and!; [by apply gcd_spec|by apply gcd_noffs_spec|].
  unfold lcm. destruct (Z.eqb_spec a 0) as [->|Ha0]; [done|].
  destruct (Z.eqb_spec b 0) as [->|Hb0]; [by rewrite Z.lcm_0_r|]. cbn [negb andb].
  rewrite gcd_spec by done. cbn [mbind option_bind].
  assert (0 < Z.gcd a b) as Hg by (pose proof (Z.gcd_nonneg a b); pose proof (Z.gcd_eq_0_l a b); lia).
  rewrite (proj2 (Z.eqb_neq _ _)) by lia. do 2 f_equal.
  destruct (Z.gcd_divide_l a b) as [u Hu], (Z.gcd_divide_r a b) as [v Hv].
  unfold Z.lcm. set (g := Z.gcd a b) in *. clearbody g.
  rewrite Hu, Hv, !Z.div_mul by lia. rewrite Z.abs_eq; [lia|nia].
Qed.

(** ** [int_pow] *)

Lemma w64_mul x y : w64 (w64 x * w64 y) = w64 (x * y).
Proof. unfold w64, wrap. by rewrite <-Zmult_mod. Qed.

Lemma pow_loop_spec fuel r b e : (0 < fuel)%nat → 0 ≤ e < 2 ^ (Z.of_nat fuel - 1) →
  pow_loop fuel (w64 r) (w64 b) e = Some (w64 (r * b ^ e)).
Proof.
  revert r b e. induction fuel as [|fuel IH]; intros r b e Hf He; [lia|].
  cbn [pow_loop]. destruct (Z.eqb_spec e 0) as [->|He0]; [by rewrite Z.mul_1_r|].
  rewrite Nat2Z.inj_succ, Z.sub_1_r, Z.pred_succ in He.
  destruct fuel as [|fuel']; [simpl in He; lia|]. set (fuel := S fuel') in *.
  assert (0 < fuel)%nat by (unfold fuel; lia).
  rewrite land_one, !w64_mul, Z.shiftr_div_pow2 by done. change (2 ^ 1) with 2.
  pose proof (Z.div_mod e 2 ltac:(lia)) as Hdm. pose proof (Z.mod_pos_bound e 2 ltac:(lia)).
  assert (2 ^ Z.of_nat fuel = 2 * 2 ^ (Z.of_nat fuel - 1)) as Ep
    by (rewrite <-Z.pow_succ_r by (unfold fuel; lia); f_equal; lia).
  assert (0 ≤ e / 2 < 2 ^ (Z.of_nat fuel - 1)) as Hh
    by (split; [apply Z.div_pos|apply Z.div_lt_upper_bound]; lia).
  assert (b ^ e = (b * b) ^ (e / 2) * b ^ (e mod 2)) as Epow.
  { rewrite Z.pow_mul_l, <-!Z.pow_add_r by lia. f_equal. lia. }
  clearbody fuel. destruct (Z.eqb_spec (e mod 2) 0) as [E0|E1]; cbn [negb]; rewrite IH by (done || lia);
    do 2 f_equal.
  - rewrite Epow, E0. lia.
  - assert (e mod 2 = 1) as E by lia. rewrite Epow, E. lia.
Qed.

Lemma int_pow_spec base exp : 0 ≤ base < 2 ^ 64 → 0 ≤ exp < 2 ^ 32 →
  int_pow base exp = Some (w64 (base ^ exp)).
Proof.
  intros Hb He. unfold int_pow. pose proof (pow_loop_spec 33 1 base exp ltac:(lia) He) as E.
  rewrite Z.mul_1_l in E. assert (w64 base = base) as Hw by (by apply wrap_small).
  assert (w64 1 = 1) as H1 by done. rewrite Hw, H1 in E. exact E.
Qed.

(** ** [int_sqrt] *)

Lemma fls_log2 x : 0 < x → __fls x = Z.log2 x.
Proof.
  intros Hx. destruct (__fls_spec x Hx) as (Hge & Ht & Hf).
  destruct (Z.lt_trichotomy (__fls x) (Z.log2 x)) as [Hlt|[->|Hlt]]; [|done|].
  - pose proof (Z.bit_log2 x Hx) as Hb. rewrite Hf in Hb by done. done.
  - rewrite Z.bits_above_log2 in Ht by lia. done.
Qed.

(** The bits of the root found so far are [s], a multiple of [2 ^ j]. *)
Lemma sqrt_loop_spec j fuel w X s h :
  (j < fuel)%nat → 0 ≤ w → 0 ≤ h → 2 ^ (2 * h) ≤ 2 ^ w → 0 ≤ s → s + 2 ^ Z.of_nat j ≤ 2 ^ h →
  s * s ≤ X < (s + 2 ^ Z.of_nat j) * (s + 2 ^ Z.of_nat j) →
  sqrt_loop fuel w (X - s * s) (s * 2 ^ Z.of_nat j)
    (match j with O => 0 | S k => 2 ^ (2 * Z.of_nat k) end) = Some (Z.sqrt X).
Proof.
  intros Hf Hw Hh Hhw. revert fuel s Hf.
  induction j as [|k IH]; intros fuel s Hf Hs Hsh HX; (destruct fuel as [|fuel]; [lia|]); cbn [sqrt_loop].
  { cbn. f_equal. rewrite Z.mul_1_r. symmetry. apply Z.sqrt_unique. cbn in HX. lia. }
  set (P := 2 ^ Z.of_nat k). assert (0 < P) as HP by (apply Z.pow_pos_nonneg; lia).
  assert (2 ^ (2 * Z.of_nat k) = P * P) as Em
    by (rewrite Z.mul_comm, Z.pow_mul_r, Z.pow_2_r by lia; done).
  assert (2 ^ Z.of_nat (S k) = 2 * P) as EP by (rewrite Nat2Z.inj_succ, Z.pow_succ_r by lia; done).
  rewrite EP, Em in *. rewrite (proj2 (Z.eqb_neq _ _)) by nia.
  assert (2 ^ (2 * h) = 2 ^ h * 2 ^ h) as Eh by (rewrite Z.mul_comm, Z.pow_mul_r, Z.pow_2_r by lia; done).
  rewrite (wrap_small w (s * (2 * P) + P * P)) by nia.
  assert (Z.shiftr (s * (2 * P)) 1 = s * P) as ->.
  { rewrite Z.shiftr_div_pow2 by done. change (2 ^ 1) with 2.
    replace (s * (2 * P)) with (s * P * 2) by lia. by apply Z.div_mul. }
  assert (Z.shiftr (P * P) 2 = match k with O => 0 | S k' => 2 ^ (2 * Z.of_nat k') end) as ->.
  { rewrite <-Em, Z.shiftr_div_pow2 by done. destruct k as [|k']; [done|].
    replace (2 * Z.of_nat (S k')) with (2 * Z.of_nat k' + 2) by lia.
    rewrite Z.pow_add_r by lia. by apply Z.div_mul. }
  destruct (Z.leb_spec (s * (2 * P) + P * P) (X - s * s)).
  - rewrite (wrap_small w (s * P + P * P)) by nia.
    replace (X - s * s - (s * (2 * P) + P * P)) with (X - (s + P) * (s + P)) by lia.
    replace (s * P + P * P) with ((s + P) * P) by lia. apply IH; lia.
  - apply IH; lia.
Qed.

Lemma sqrt_start w x n : 1 < x → 0 ≤ w → Z.even w = true → x < 2 ^ w → (w < Z.of_nat n) →
  sqrt_loop n w x 0 (wrap w (Z.shiftl 1 (Z.land (Z.log2 x) (wrap w (Z.lnot 1))))) = Some (Z.sqrt x).
Proof.
  intros Hx Hw [v Hv]%Z.even_spec Hxw Hn. set (L := Z.log2 x).
  pose proof (Z.log2_spec x ltac:(lia)) as HL. fold L in HL.
  assert (0 < L < w) as HLw by (split; [apply Z.log2_pos; lia|apply Z.log2_lt_pow2; lia]).
  assert (L < 2 ^ w) by (pose proof (Z.pow_gt_lin_r 2 w ltac:(lia) ltac:(lia)); lia).
  rewrite land_wrap by lia. rewrite <-Z.ldiff_land. change 1 with (Z.ones 1) at 2.
  rewrite Z.ldiff_ones_r, Z.shiftl_1_l, Z.shiftl_mul_pow2, Z.shiftr_div_pow2 by done.
  change (2 ^ 1) with 2. rewrite (Z.mul_comm _ 2).
  pose proof (Z.div_mod L 2 ltac:(lia)) as Hdm. pose proof (Z.mod_pos_bound L 2 ltac:(lia)).
  set (k := Z.to_nat (L / 2)). assert (Z.of_nat k = L / 2) as Hk by (unfold k; rewrite Z2Nat.id; lia).
  rewrite wrap_small by (split; [apply Z.pow_nonneg; lia|apply Z.pow_lt_mono_r; lia]).
  rewrite <-Hk. pose proof (sqrt_loop_spec (S k) n w x 0 (Z.of_nat (S k))) as E.
  rewrite Z.mul_0_l, Z.sub_0_r in E. apply E; [lia|lia|lia| |lia|lia|].
  - apply Z.pow_le_mono_r; lia.
  - split; [lia|]. rewrite Z.add_0_l, <-Z.pow_add_r by lia.
    eapply Z.lt_le_trans; [apply HL|]. apply Z.pow_le_mono_r; lia.
Qed.

Lemma int_sqrt_spec x :
  0 ≤ BITS_PER_LONG → Z.even BITS_PER_LONG = true → 0 ≤ x < 2 ^ BITS_PER_LONG →
  int_sqrt x = Some (Z.sqrt x).
Proof.
  intros HB He Hx. unfold int_sqrt. destruct (Z.leb_spec x 1).
  - assert (x = 0 ∨ x = 1) as [->| ->] by lia; done.
  - rewrite fls_log2 by lia. apply sqrt_start; (done || lia).
Qed.

(** [int_sqrt] and [int_sqrt64] return the integer square root of every word, and
    [int_pow] the power modulo 2^64, for the word sizes of the kernel; the loops end
    within one pass per bit. *)
Theorem int_sqrt_pow_correct x y base exp :
  BITS_PER_LONG = 32 ∨ BITS_PER_LONG = 64 →
  0 ≤ x < 2 ^ BITS_PER_LONG → 0 ≤ y < 2 ^ 64 → 0 ≤ base < 2 ^ 64 → 0 ≤ exp < 2 ^ 32 →
  int_sqrt x = Some (Z.sqrt x) ∧ int_sqrt64 y = Some (Z.sqrt y) ∧
  int_pow base exp = Some (w64 (base ^ exp)).
Proof.
  intros HB Hx Hy Hb He. assert (Z.even BITS_PER_LONG = true) as Hev by (by destruct HB as [->| ->]).
  split_and!; [apply int_sqrt_spec; (done || lia)| |by apply int_pow_spec].
  unfold int_sqrt64. destruct (Z.leb_spec y (2 ^ BITS_PER_LONG - 1)).
  - apply int_sqrt_spec; (done || lia).
  - assert (1 < y) by (destruct HB as [E|E]; rewrite E in *; lia).
    rewrite fls64_spec, Z.add_simpl_l, fls_log2 by lia.
    pose proof (sqrt_start 64 y 65 ltac:(lia) ltac:(lia) eq_refl ltac:(lia) ltac:(lia)) as E.
    unfold w64. rewrite E. cbn [mbind option_bind]. f_equal. apply wrap_small.
    split; [apply Z.sqrt_nonneg|]. apply Z.sqrt_lt_square; lia.
Qed.

End math.
(** ** Witnesses *)

(** The bit searches as functions of the number. *)
#[export] Program Instance bitops : Bitops := {
  __ffs x := Z.log2 (Z.land x (- x));
  __fls x := Z.log2 x;
  fls64 x := 1 + Z.log2 x;
}.
Next Obligation.
  intros x Hx. cbn. destruct (odd_part x Hx) as (k & m & Hk & Hm & ->).
  replace (- ((2 * m + 1) * 2 ^ k)) with (- (2 * m + 1) * 2 ^ k) by lia.
  rewrite land_mul_pow2, land_odd_opp, Z.mul_1_l, Z.log2_pow2 by done. split_and!; [done| |].
  - rewrite Z.mul_pow2_bits, Z.sub_diag by done. apply Z.testbit_odd_0.
  - intros. apply Z.mul_pow2_bits_low. lia.
Qed.
Next Obligation.
  intros x Hx. cbn. split_and!; [apply Z.log2_nonneg|by apply Z.bit_log2|].
  intros. by apply Z.bits_above_log2; [lia|].
Qed.
Next Obligation. done. Qed.

Lemma gcd_lcm_correct_witness :
  gcd 64 360 84 = Some 12 ∧ gcd_noffs 64 360 84 = Some 12 ∧ lcm 64 360 84 = Some 2520.
Proof. apply (gcd_lcm_correct 64 360 84); lia. Defined.

Lemma int_sqrt_pow_correct_witness :
  int_sqrt 32 4294967295 = Some 65535 ∧ int_sqrt64 32 (2 ^ 64 - 1) = Some (2 ^ 32 - 1) ∧
  int_pow 3 41 = Some (3 ^ 41 mod 2 ^ 64).
Proof. apply (int_sqrt_pow_correct 32 4294967295 (2 ^ 64 - 1) 3 41); lia. Defined.

End KMath.
