(* ===== verification/KHeap.v ===== *)
(** * Pointer structures: the monad of routines that read and write a heap

    A routine on linked structures takes the state and gives a result and the state
    after it; [None] is an access through an invalid pointer, or no fuel left.  A
    pointer is [None] for [NULL]. *)
From stdpp Require Import base numbers sets gmap list.
From S2P Require Import Prelude.

Module KHeap.

Abbreviation loc := positive.
Abbreviation ptr := (option loc).

Definition M (S A : Type) : Type := S → option (A * S).

#[export] Instance M_ret S : MRet (M S) := λ A a s, Some (a, s).
#[export] Instance M_bind S : MBind (M S) := λ A A' k m s,
  match m s with Some (a, s) => k a s | None => None end.

Section monad.
Context {S : Type}.

Definition fail {A} : M S A := λ _, None.

(** The object that a pointer points to; [NULL] has none. *)
Definition deref (p : ptr) : M S loc :=
  match p with Some l => mret l | None => fail end.

Lemma bind_run {A A'} (m : M S A) (k : A → M S A') s a s' :
  m s = Some (a, s') → (m ≫= k) s = k a s'.
Proof. intros E. unfold mbind, M_bind. by rewrite E. Qed.

Lemma bind_ret {A A'} (a : A) (k : A → M S A') s :
  ((mret a : M S A) ≫= k) s = k a s.
Proof. reflexivity. Qed.

Lemma bind_assoc {A A' A''} (m : M S A) (k : A → M S A') (k' : A' → M S A'') s :
  ((m ≫= k) ≫= k') s = (m ≫= λ a, k a ≫= k') s.
Proof. unfold mbind, M_bind. by destruct (m s) as [[a s']|]. Qed.

End monad.

(** Run the first action of the goal by an equation for it. *)
Ltac run_with E := rewrite (bind_run _ _ _ _ _ E).

End KHeap.
