(* ===== verification/KListSort.v ===== *)
(** * The merge sort of linked lists, [lib/list_sort.c]

    The heap maps a node to its links.  A pointer to a pointer, as [tail] in [merge]
    and in [list_sort], is a [slot]: the local variable, or a field of a node.  The
    comparison is a function of the two nodes: what it reads lies outside the links.
    Each call is recorded, in order, since the interface promises its caller which
    argument comes first.  [count] in [list_sort] is a [size_t], [count] in
    [merge_final] is a [u8]. *)
From stdpp Require Import base numbers sets sorting gmap list.
From S2P Require Import Prelude KHeap.
Import KHeap.

Module KListSort.
Local Open Scope Z_scope.

Record list_head := ListHead { next : ptr; prev : ptr }.

Record state := State { mem : gmap loc list_head; calls : list (loc * loc) }.

Inductive slot := SVar | SNext (p : loc) | SPrev (p : loc).

(** ** Reading and writing links *)

Definition node (p : loc) : M state list_head := λ s,
  match mem s !! p with Some n => Some (n, s) | None => None end.

Definition put (p : loc) (n : list_head) : M state unit := λ s,
  Some ((), State (<[p := n]> (mem s)) (calls s)).

Definition set_next (p : loc) (v : ptr) : M state unit :=
  n ← node p; put p (ListHead v (prev n)).
Definition set_prev (p : loc) (v : ptr) : M state unit :=
  n ← node p; put p (ListHead (next n) v).

(** [*tail] as a value and as a target; [var] is the value of the local variable. *)
Definition load (sl : slot) (var : ptr) : M state ptr :=
  match sl with
  | SVar => mret var
  | SNext p => n ← node p; mret (next n)
  | SPrev p => n ← node p; mret (prev n)
  end.
Definition store (sl : slot) (v var : ptr) : M state ptr :=
  match sl with
  | SVar => mret v
  | SNext p => _ ← set_next p v; mret var
  | SPrev p => _ ← set_prev p v; mret var
  end.

Section sort.
Context (cmp : loc → loc → Z).

Definition call_cmp (a b : loc) : M state Z := λ s,
  Some (cmp a b, State (mem s) (calls s ++ [(a, b)])).

(** ** The code *)

Fixpoint lmerge_loop (fuel : nat) (a b : loc) (tail : slot) (head : ptr) : M state ptr :=
  match fuel with
  | O => fail
  | S fuel =>
      c ← call_cmp a b;
      if c <=? 0 then
        head ← store tail (Some a) head;
        n ← node a;
        match next n with
        | None => store (SNext a) (Some b) head
        | Some a' => lmerge_loop fuel a' b (SNext a) head
        end
      else
        head ← store tail (Some b) head;
        n ← node b;
        match next n with
        | None => store (SNext b) (Some a) head
        | Some b' => lmerge_loop fuel a b' (SNext b) head
        end
  end.

Definition merge (fuel : nat) (a b : loc) : M state ptr := lmerge_loop fuel a b SVar None.

(** The first loop of [merge_final]: the tail and the list that is left. *)
Fixpoint merge_final_loop (fuel : nat) (tail a b : loc) : M state (loc * loc) :=
  match fuel with
  | O => fail
  | S fuel =>
      c ← call_cmp a b;
      if c <=? 0 then
        _ ← set_next tail (Some a);
        _ ← set_prev a (Some tail);
        n ← node a;
        match next n with
        | None => mret (a, b)
        | Some a' => merge_final_loop fuel a a' b
        end
      else
        _ ← set_next tail (Some b);
        _ ← set_prev b (Some tail);
        n ← node b;
        match next n with
        | None => mret (b, a)
        | Some b' => merge_final_loop fuel b a b'
        end
  end.

(** The second loop: the tail at the end.  [count] is a [u8]. *)
Fixpoint link_rest (fuel : nat) (count : Z) (tail b : loc) : M state loc :=
  match fuel with
  | O => fail
  | S fuel =>
      let count := w8 (count + 1) in
      _ ← (if count =? 0 then call_cmp b b else mret 0);
      _ ← set_prev b (Some tail);
      n ← node b;
      match next n with
      | None => mret b
      | Some b' => link_rest fuel count b b'
      end
  end.

Definition merge_final (fuel : nat) (head a b : loc) : M state unit :=
  r ← merge_final_loop fuel head a b;
  let '(tail, b) := (r : loc * loc) in
  _ ← set_next tail (Some b);
  tail ← link_rest fuel 0 tail b;
  _ ← set_next tail (Some head);
  set_prev head (Some tail).

(** [for (bits = count; bits & 1; bits >>= 1) tail = &( *tail)->prev] *)
Fixpoint find_tail (fuel : nat) (bits : Z) (tail : slot) (pending : ptr) :
    M state (slot * Z) :=
  match fuel with
  | O => fail
  | S fuel =>
      if Z.land bits 1 =? 0 then mret (tail, bits)
      else
        p ← load tail pending;
        p ← deref p;
        find_tail fuel (Z.shiftr bits 1) (SPrev p) pending
  end.

(** The merge of two neighbours [a] and [b] of the pending lists; the result leads to
    the lists after them. *)
Definition merge_two (fuel : nat) (a b : loc) : M state loc :=
  m ← merge fuel b a;
  m ← deref m;
  nb ← node b;
  _ ← set_prev m (prev nb);
  mret m.

(** The merge that [count] asks for, at the start of a round. *)
Definition merge_pending (fuel : nat) (count : Z) (pending : ptr) : M state ptr :=
  r ← find_tail 65 count SVar pending;
  let '(tail, bits) := (r : slot * Z) in
  if bits =? 0 then mret pending
  else
    a ← load tail pending;
    a ← deref a;
    na ← node a;
    b ← deref (prev na);
    m ← merge_two fuel a b;
    store tail (Some m) pending.

(** The rounds: a merge, then an element moves from the input to the pending lists. *)
Fixpoint lsort_loop (mfuel fuel : nat) (list : loc) (pending : ptr) (count : Z) :
    M state ptr :=
  match fuel with
  | O => fail
  | S fuel =>
      pending ← merge_pending mfuel count pending;
      _ ← set_prev list pending;
      let pending := Some list in
      n ← node list;
      _ ← set_next list None;
      match next n with
      | None => mret pending
      | Some list => lsort_loop mfuel fuel list pending (w64 (count + 1))
      end
  end.

(** The last merges but one: the lists for [merge_final]. *)
Fixpoint merge_all (mfuel fuel : nat) (pending list : loc) : M state (loc * loc) :=
  match fuel with
  | O => fail
  | S fuel =>
      n ← node pending;
      match prev n with
      | None => mret (pending, list)
      | Some next =>
          list ← merge mfuel pending list;
          list ← deref list;
          merge_all mfuel fuel next list
      end
  end.

(** The rounds, then the merges of the pending lists, down to two lists. *)
Definition sort_rounds (fuel : nat) (list : loc) : M state (loc * loc) :=
  pending ← lsort_loop fuel fuel list None 0;
  list ← deref pending;
  nl ← node list;
  pending ← deref (prev nl);
  merge_all fuel fuel pending list.

Definition list_sort (fuel : nat) (head : loc) : M state unit :=
  nh ← node head;
  if bool_decide (next nh = prev nh) then mret ()
  else
    list ← deref (next nh);
    last ← deref (prev nh);
    _ ← set_next last None;
    r ← sort_rounds fuel list;
    let '(pending, list) := (r : loc * loc) in
    merge_final fuel head pending list.

(** ** Lists in the heap *)

(** A singly linked list that ends with [NULL]. *)
Fixpoint sll (h : gmap loc list_head) (p : ptr) (l : list loc) : Prop :=
  match l with
  | [] => p = None
  | x :: l => p = Some x ∧ ∃ n, h !! x = Some n ∧ sll h (next n) l
  end.

(** [h'] differs from [h] only in the [next] links of the nodes [D]. *)
Definition relinks (D : list loc) (h h' : gmap loc list_head) : Prop :=
  (∀ p, p ∉ D → h' !! p = h !! p) ∧ ∀ p, prev <$> h' !! p = prev <$> h !! p.

Lemma relinks_refl D h : relinks D h h.
Proof. done. Qed.

Lemma relinks_trans D D' D'' h h' h'' :
  D ⊆ D'' → D' ⊆ D'' → relinks D h h' → relinks D' h' h'' → relinks D'' h h''.
Proof.
  intros H1 H2 [E1 P1] [E2 P2]. split; intros p.
  - intros Hp. rewrite E2, E1; set_solver.
  - by rewrite P2, P1.
Qed.

Lemma relinks_insert h x n v : h !! x = Some n →
  relinks [x] h (<[x := ListHead v (prev n)]> h).
Proof.
  intros Hx. split; intros p.
  - intros Hp. rewrite lookup_insert_ne; set_solver.
  - destruct (decide (p = x)) as [->|].
    + by rewrite lookup_insert_eq, Hx.
    + by rewrite lookup_insert_ne by done.
Qed.

Lemma sll_eq h h' p l : (∀ x, x ∈ l → next <$> h' !! x = next <$> h !! x) →
  sll h p l → sll h' p l.
Proof.
  revert p. induction l as [|x l IH]; intros p E; [done|].
  intros (-> & n & Hx & Hl). split; [done|].
  assert (next <$> h' !! x = Some (next n)) as E' by (rewrite E, Hx; set_solver).
  apply fmap_Some in E' as (n' & Hx' & En). exists n'. split; [done|].
  rewrite <-En. apply IH; [set_solver|done].
Qed.

Lemma sll_relinks D h h' p l : relinks D h h' → l ## D → sll h p l → sll h' p l.
Proof.
  intros [E _] HD. apply sll_eq. intros x Hx. by rewrite E by set_solver.
Qed.

Lemma sll_lookup h p l x : sll h p l → x ∈ l → is_Some (h !! x).
Proof.
  revert p. induction l as [|y l IH]; intros p; [set_solver|].
  intros (-> & n & Hy & Hl) [->|Hx]%elem_of_cons; eauto.
Qed.

(** ** Merging *)

Definition le (a b : loc) : Prop := cmp a b ≤ 0.

#[export] Instance le_dec : RelDecision le.
Proof. intros a b. unfold le. apply _. Defined.

(** The node a slot lies in, and its value. *)
Definition slot_nodes (sl : slot) : list loc :=
  match sl with SVar => [] | SNext p | SPrev p => [p] end.
Definition slot_val (h : gmap loc list_head) (sl : slot) (var : ptr) : option ptr :=
  match sl with
  | SVar => Some var
  | SNext p => next <$> h !! p
  | SPrev p => prev <$> h !! p
  end.

Lemma set_next_run h cs p n v : h !! p = Some n →
  set_next p v (State h cs) = Some ((), State (<[p := ListHead v (prev n)]> h) cs).
Proof. intros E. unfold set_next, node, put, mbind, M_bind; simpl. by rewrite E. Qed.

Lemma set_prev_run h cs p n v : h !! p = Some n →
  set_prev p v (State h cs) = Some ((), State (<[p := ListHead (next n) v]> h) cs).
Proof. intros E. unfold set_prev, node, put, mbind, M_bind; simpl. by rewrite E. Qed.

Lemma node_run h cs p n : h !! p = Some n → node p (State h cs) = Some (n, State h cs).
Proof. intros E. unfold node; simpl. by rewrite E. Qed.

Definition next_slot (sl : slot) : Prop :=
  match sl with SPrev _ => False | _ => True end.

Lemma store_next_run h cs sl v var :
  next_slot sl → (∀ p, p ∈ slot_nodes sl → is_Some (h !! p)) →
  ∃ var' h', store sl v var (State h cs) = Some (var', State h' cs) ∧
    slot_val h' sl var' = Some v ∧ (sl = SVar ∨ var' = var) ∧
    relinks (slot_nodes sl) h h'.
Proof.
  intros Hs Hp. destruct sl as [|p|p]; simpl in *; [|destruct (Hp p) as [n Hn]; [set_solver|]|done].
  - eexists _, _. split_and!; [done|done|by left|apply relinks_refl].
  - eexists _, _. split_and!.
    + run_with (set_next_run h cs p n v Hn). done.
    + by rewrite lookup_insert_eq.
    + by right.
    + by apply relinks_insert.
Qed.

(** Calls that compare an element of [A] with one of [B], in this order. *)
Definition calls_in (A A' : list loc) (cs : list (loc * loc)) : Prop :=
  Forall (λ c, c.1 ∈ A ∧ c.2 ∈ A') cs.

Lemma calls_in_mono A1 A2 A1' A2' cs :
  A1 ⊆ A2 → A1' ⊆ A2' → calls_in A1 A1' cs → calls_in A2 A2' cs.
Proof. intros H1 H2 HF. eapply Forall_impl; [exact HF|]. set_solver. Qed.

(** What a run of [lmerge_loop] on the lists [la] and [lb] achieves. *)
Definition merged (tail : slot) (head : ptr) (la lb : list loc)
    (h : gmap loc list_head) (cs : list (loc * loc)) (r : option (ptr * state)) : Prop :=
  ∃ head' h' cs', r = Some (head', State h' (cs ++ cs')) ∧
    (∃ p, slot_val h' tail head' = Some p ∧ sll h' p (list_merge le la lb)) ∧
    (tail = SVar ∨ head' = head) ∧
    relinks (slot_nodes tail ++ la ++ lb) h h' ∧ calls_in la lb cs'.

(** One element [x] was linked to [tail]; the rest follows it. *)
Lemma merged_cons tail x head head1 la lb h h1 cs la' lb' c r :
  merged (SNext x) head1 la' lb' h1 (cs ++ [c]) r →
  list_merge le la lb = x :: list_merge le la' lb' →
  slot_val h1 tail head1 = Some (Some x) → next_slot tail → (tail = SVar ∨ head1 = head) →
  relinks (slot_nodes tail) h h1 → is_Some (h1 !! x) →
  slot_nodes tail ## la ++ lb → x ∈ la ++ lb → la' ⊆ la → lb' ⊆ lb → calls_in la lb [c] →
  merged tail head la lb h cs r.
Proof.
  intros (hd & h' & cs' & -> & (p & Hp & Hl) & Hh & HR & HC) Em Hv Hns Ht HR1 [n1 Hx] HD Hin
    Sa Sb Hc.
  destruct Hh as [? | ->]; [done|].
  exists head1, h', (c :: cs'). split_and!.
  - by rewrite <-app_assoc.
  - exists (Some x). split.
    + destruct tail as [|t|t]; simpl in *; [done| |done].
      destruct HR as [HR _]. rewrite HR; [done|]. set_solver.
    + rewrite Em. split; [done|]. simpl in Hp. destruct (h' !! x) as [n|] eqn:E; [|done].
      exists n. split; [done|]. simpl in Hp. by simplify_eq.
  - done.
  - eapply relinks_trans; [| |exact HR1|exact HR]; set_solver.
  - apply Forall_cons in Hc as [Hc _]. constructor; [done|]. eapply calls_in_mono; eauto.
Qed.

(** The last element [x] of one list was linked; the other list follows it. *)
Lemma merged_store x p l head la lb h cs :
  list_merge le la lb = l → sll h p l → x ∉ l → is_Some (h !! x) →
  merged (SNext x) head la lb h cs (store (SNext x) p head (State h cs)).
Proof.
  intros Em Hl Hx Hn.
  destruct (store_next_run h cs (SNext x) p head) as (v & h' & E & Hv & Hh & HR);
    [done|intros q ->%list_elem_of_singleton; done|].
  exists v, h', []. rewrite app_nil_r. split_and!; [done| |done| |].
  - exists p. split; [done|]. rewrite Em. eapply sll_relinks; [done|set_solver|done].
  - destruct HR as [H1 H2]. split; [|done]. intros q Hq. apply H1. set_solver.
  - constructor.
Qed.

(** One step of the loop: [x], the head of the list [x :: l], is linked to [tail];
    the lists that are left are [la'] and [lb']. *)
Lemma merge_step (k : loc → ptr → M state ptr) x l tail head la lb la' lb' (y : loc) h cs c :
  list_merge le la lb = x :: list_merge le la' lb' →
  slot_nodes tail ## la ++ lb → next_slot tail →
  (∀ p, p ∈ slot_nodes tail → is_Some (h !! p)) →
  x ∈ la ++ lb → l ⊆ la ++ lb → x ∉ la' ++ lb' → la' ⊆ la → lb' ⊆ lb → calls_in la lb [c] →
  sll h (Some x) (x :: l) →
  (l = [] → ∃ l', list_merge le la' lb' = l' ∧ sll h (Some y) l' ∧ l' ⊆ la' ++ lb') →
  (∀ x' l' head1 h1, l = x' :: l' → is_Some (h1 !! x) →
     (∀ p k, k ⊆ la ++ lb → sll h p k → sll h1 p k) →
     merged (SNext x) head1 la' lb' h1 (cs ++ [c]) (k x' head1 (State h1 (cs ++ [c])))) →
  merged tail head la lb h cs
    ((head ← store tail (Some x) head;
      n ← node x;
      match next n with
      | None => store (SNext x) (Some y) head
      | Some x' => k x' head
      end) (State h (cs ++ [c]))).
Proof.
  intros Em HD Hns Htl Hx Hl Hx' Sa Sb Hc (_ & n & Hn & Hnl) Hlast Hrec.
  destruct (store_next_run h (cs ++ [c]) tail (Some x) head) as (v & h1 & E & Hv & Hh & HR);
    [done..|].
  rewrite (bind_run _ _ _ _ _ E).
  assert (h1 !! x = Some n) as Hn1 by (destruct HR as [HR _]; rewrite HR; set_solver).
  rewrite (bind_run _ _ _ _ _ (node_run h1 _ x n Hn1)).
  apply (merged_cons tail x head v la lb h h1 cs la' lb' c); try done.
  destruct l as [|x' l]; simpl in Hnl.
  - rewrite Hnl. destruct Hlast as (l' & El & Hl' & Hs); [done|].
    eapply merged_store; [done| |set_solver|done].
    eapply sll_relinks; [done| |done]. set_solver.
  - destruct Hnl as [-> _]. eapply Hrec; [done..|]. intros p k' Hk'.
    apply (sll_relinks _ _ _ _ _ HR). clear -Hk' HD. set_solver.
Qed.

Lemma sll_tail h p x x' l : sll h p (x :: x' :: l) → sll h (Some x') (x' :: l).
Proof. intros (_ & n & _ & Hn & Hl). by split. Qed.

Lemma lmerge_loop_spec fuel a la b lb tail head h cs :
  (length la + length lb < fuel)%nat →
  NoDup ((a :: la) ++ b :: lb) → slot_nodes tail ## (a :: la) ++ b :: lb →
  next_slot tail → (∀ p, p ∈ slot_nodes tail → is_Some (h !! p)) →
  sll h (Some a) (a :: la) → sll h (Some b) (b :: lb) →
  merged tail head (a :: la) (b :: lb) h cs (lmerge_loop fuel a b tail head (State h cs)).
Proof.
  revert a la b lb tail head h cs. induction fuel as [|fuel IH];
    intros a la b lb tail head h cs Hf HN HD Hns Htl Ha Hb; [lia|].
  cbn [lmerge_loop]. rewrite (bind_run _ _ _ (cmp a b) (State h (cs ++ [(a, b)]))) by done.
  assert (calls_in (a :: la) (b :: lb) [(a, b)]) as HC
    by (constructor; [simpl; set_solver|constructor]).
  apply NoDup_app in HN as (Na & Nd & Nb). apply NoDup_cons in Na as [Nxa Na].
  apply NoDup_cons in Nb as [Nxb Nb].
  destruct (Z.leb_spec (cmp a b) 0) as [Hc|Hc].
  - apply (merge_step (λ a' head, lmerge_loop fuel a' b (SNext a) head) a la tail head
      (a :: la) (b :: lb) la (b :: lb));
      [|done..|clear; set_solver|clear; set_solver|clear -Nxa Nd; set_solver
      |clear; set_solver|done|done|done| |].
    + rewrite list_merge_cons. by rewrite decide_True.
    + intros ->. eexists. split; [done|]. rewrite list_merge_nil_l. set_solver.
    + intros a' la' hd h1 -> Hx Hsl. cbn [length] in Hf.
      apply IH; [lia| | |done|by intros p ->%list_elem_of_singleton| |].
      * clear -Na Nd Nb Nxb. apply NoDup_app. split_and!; [done|set_solver|by constructor].
      * clear -Nxa Nd. set_solver.
      * apply Hsl; [clear; set_solver|by apply sll_tail in Ha].
      * apply Hsl; [clear; set_solver|done].
  - apply (merge_step (λ b' head, lmerge_loop fuel a b' (SNext b) head) b lb tail head
      (a :: la) (b :: lb) (a :: la) lb);
      [|done..|clear; set_solver|clear; set_solver|clear -Nxb Nd; set_solver
      |done|clear; set_solver|done|done| |].
    + rewrite list_merge_cons. rewrite decide_False; [done|]. unfold le. lia.
    + intros ->. eexists. split; [done|]. rewrite list_merge_nil_r. set_solver.
    + intros b' lb' hd h1 -> Hx Hsl. cbn [length] in Hf.
      apply IH; [cbn [length]; lia| | |done|by intros p ->%list_elem_of_singleton| |].
      * clear -Na Nd Nb Nxa. apply NoDup_app. split_and!; [by constructor|set_solver|done].
      * clear -Nxb Nd. set_solver.
      * apply Hsl; [clear; set_solver|done].
      * apply Hsl; [clear; set_solver|by apply sll_tail in Hb].
Qed.

(** [merge]: the result is a list, merged from the two; only [next] links of its
    nodes change. *)
Lemma merge_spec fuel a la b lb h cs :
  (length la + length lb < fuel)%nat → NoDup ((a :: la) ++ b :: lb) →
  sll h (Some a) (a :: la) → sll h (Some b) (b :: lb) →
  ∃ p h' cs', merge fuel a b (State h cs) = Some (p, State h' (cs ++ cs')) ∧
    sll h' p (list_merge le (a :: la) (b :: lb)) ∧
    relinks ((a :: la) ++ b :: lb) h h' ∧ calls_in (a :: la) (b :: lb) cs'.
Proof.
  intros Hf HN Ha Hb.
  destruct (lmerge_loop_spec fuel a la b lb SVar None h cs) as
    (p & h' & cs' & E & (p' & Hp & Hl) & _ & HR & HC); try done; [set_solver..|].
  simplify_eq/=. eexists _, _, _. by split_and!.
Qed.

(** ** The pending lists *)

(** Walking over the lists [ls], from the slot [sl0] with value [p0], along the [prev]
    links of their first nodes, leads to the slot [sl] with value [p]. *)
Fixpoint path (h : gmap loc list_head) (sl0 : slot) (p0 : ptr) (ls : list (list loc))
    (sl : slot) (p : ptr) : Prop :=
  match ls with
  | [] => sl = sl0 ∧ p = p0
  | s :: ls => ∃ x s' n, s = x :: s' ∧ p0 = Some x ∧ sll h (Some x) s ∧ h !! x = Some n ∧
      path h (SPrev x) (prev n) ls sl p
  end.

(** The lists that [pending] leads to. *)
Definition pending_lists (h : gmap loc list_head) (p : ptr) (ls : list (list loc)) : Prop :=
  ∃ sl, path h SVar p ls sl None.

Lemma path_app h sl0 p0 ls1 ls2 sl p :
  path h sl0 p0 (ls1 ++ ls2) sl p ↔
  ∃ sl1 p1, path h sl0 p0 ls1 sl1 p1 ∧ path h sl1 p1 ls2 sl p.
Proof.
  revert sl0 p0. induction ls1 as [|s ls1 IH]; intros sl0 p0; simpl.
  - naive_solver.
  - setoid_rewrite IH. naive_solver.
Qed.

(** A walk over at least one list does not depend on the slot it starts from. *)
Lemma path_start h sl0 sl0' p0 ls sl p : path h sl0 p0 ls sl p →
  ∃ sl', path h sl0' p0 ls sl' p ∧ (ls ≠ [] → sl' = sl).
Proof. destruct ls as [|s ls]; simpl; [naive_solver|]. intros Hp. by exists sl. Qed.

Lemma path_eq h h' sl0 p0 ls sl p : (∀ x, x ∈ concat ls → h' !! x = h !! x) →
  path h sl0 p0 ls sl p → path h' sl0 p0 ls sl p.
Proof.
  revert sl0 p0. induction ls as [|s ls IH]; intros sl0 p0 E; [done|].
  intros (x & s' & n & -> & -> & Hs & Hx & Hp). simpl in E.
  exists x, s', n. split_and!; [done|done| | |].
  - eapply sll_eq; [|done]. intros y Hy. rewrite E by set_solver. done.
  - by rewrite E by set_solver.
  - apply IH; [|done]. set_solver.
Qed.

(** Storing to the slot a walk leads to. *)
Lemma path_store h cs p0 ls sl p v : path h SVar p0 ls sl p → NoDup (concat ls) →
  ∃ p0' h', store sl v p0 (State h cs) = Some (p0', State h' cs) ∧
    path h' SVar p0' ls sl v ∧ ∀ x, x ∉ concat ls → h' !! x = h !! x.
Proof.
  intros Hp HN. destruct ls as [|s ls _] using rev_ind.
  { destruct Hp as [-> ->]. exists v, h. done. }
  apply path_app in Hp as (sl1 & p1 & Hp & x & s' & n & -> & -> & Hs & Hx & -> & ->).
  rewrite concat_app in *. simpl in *. rewrite app_nil_r in *.
  apply NoDup_app in HN as (_ & Hd & HN). apply NoDup_cons in HN as [Hxs _].
  eexists p0, _. split_and!.
  - run_with (set_prev_run h cs x n v Hx). done.
  - apply path_app. exists sl1, (Some x). split.
    + eapply path_eq; [|done]. intros y Hy. rewrite lookup_insert_ne; [done|].
      intros ->. apply (Hd y); [done|left].
    + eexists x, s', _. split_and!; [done|done| |by rewrite lookup_insert_eq|done].
      eapply (sll_eq h); [|done]. intros y Hy. destruct (decide (y = x)) as [->|].
      * by rewrite lookup_insert_eq, Hx.
      * by rewrite lookup_insert_ne.
  - intros y Hy. rewrite lookup_insert_ne; [done|]. intros ->. apply Hy.
    apply elem_of_app. right. left.
Qed.

Lemma path_load h cs p0 ls sl p :
  path h SVar p0 ls sl p → load sl p0 (State h cs) = Some (p, State h cs).
Proof.
  intros Hp. destruct ls as [|s ls _] using rev_ind; [by destruct Hp as [-> ->]|].
  apply path_app in Hp as (sl1 & p1 & Hp & x & s' & n & -> & -> & Hs & Hx & -> & ->).
  simpl. by run_with (node_run h cs x n Hx).
Qed.

(** ** Which lists a round merges *)

(** The number of bits of [count]. *)
Definition bitlen (count : Z) : nat :=
  match count with Zpos p => Pos.size_nat p | _ => O end.

Lemma find_tail_spec fuel h cs pending ls1 ls2 sl p sl' bits :
  (bitlen bits < fuel)%nat → 0 ≤ bits → bitlen bits = length ls2 →
  path h SVar pending ls1 sl p → path h sl p ls2 sl' None →
  ∃ ls2a ls2b sl1 p1 bits', ls2 = ls2a ++ ls2b ∧
    find_tail fuel bits sl pending (State h cs) = Some ((sl1, bits'), State h cs) ∧
    path h SVar pending (ls1 ++ ls2a) sl1 p1 ∧ path h sl1 p1 ls2b sl' None ∧
    (bits' = 0 ∧ ls2b = [] ∧ bitlen (bits + 1) = S (length ls2) ∨
     bits' ≠ 0 ∧ (2 ≤ length ls2b)%nat ∧ bitlen (bits + 1) = length ls2).
Proof.
  revert ls1 ls2 sl p bits.
  induction fuel as [|fuel IH]; intros ls1 ls2 sl p bits Hf H0 Hb Hp1 Hp2; [lia|].
  assert (bits = 0 ∨ (∃ b, bits = Zpos (b~0)) ∨ ∃ b, Z.land bits 1 = 1 ∧
    Z.shiftr bits 1 = b ∧ 0 ≤ b ∧ bitlen bits = S (bitlen b) ∧
    bitlen (bits + 1) = S (bitlen (b + 1))) as [->|[[b ->]|(b & El & Es & H0b & Eb & Eb1)]].
  { destruct bits as [|[b|b|]|]; [by left| | | |lia].
    - right; right. exists (Zpos b). split_and!; try done. simpl. by destruct b.
    - right; left. by exists b.
    - right; right. by exists 0. }
  - destruct ls2; [|done]. exists [], [], sl, p, 0. rewrite (app_nil_r ls1). split_and!; try done.
    left. done.
  - exists [], ls2, sl, p, (Zpos b~0). rewrite (app_nil_r ls1). split_and!; try done.
    right. rewrite <-Hb. split_and!; [done| |done]. simpl. destruct b; simpl; lia.
  - cbn [find_tail]. rewrite El, Es. cbn [Z.eqb].
    destruct ls2 as [|s ls2]; [simpl in Hb; lia|].
    run_with (path_load h cs _ _ _ _ Hp1).
    destruct Hp2 as (x & s' & n & -> & -> & Hs & Hx & Hp2).
    destruct (IH (ls1 ++ [x :: s']) ls2 (SPrev x) (prev n) b) as
      (ls2a & ls2b & sl1 & p1 & bits' & -> & E & HP1 & HP2 & Hcase); try done; try lia.
    { simpl in Hb. lia. }
    { apply path_app. exists sl, (Some x). split; [done|]. by exists x, s', n. }
    exists ((x :: s') :: ls2a), ls2b, sl1, p1, bits'. rewrite <-app_assoc in HP1.
    split_and!; try done. rewrite Eb1. simpl length in *. destruct Hcase as [?|?]; [left|right];
      intuition lia.
Qed.

Lemma list_merge_cons_nonnil x la y lb :
  ∃ z m, list_merge le (x :: la) (y :: lb) = z :: m.
Proof. rewrite list_merge_cons. case_decide; eauto. Qed.

Lemma merge_two_spec fuel a la b lb nb h cs :
  (length la + length lb < fuel)%nat → NoDup ((a :: la) ++ b :: lb) →
  sll h (Some a) (a :: la) → sll h (Some b) (b :: lb) → h !! b = Some nb →
  ∃ x M nx h' cs', merge_two fuel a b (State h cs) = Some (x, State h' (cs ++ cs')) ∧
    list_merge le (b :: lb) (a :: la) = x :: M ∧ sll h' (Some x) (x :: M) ∧
    h' !! x = Some nx ∧ prev nx = prev nb ∧
    (∀ y, y ∉ (a :: la) ++ b :: lb → h' !! y = h !! y) ∧ calls_in (b :: lb) (a :: la) cs'.
Proof.
  intros Hf HN Ha Hb Hnb. unfold merge_two.
  destruct (merge_spec fuel b lb a la h cs) as (m & h1 & cs' & E & Hm & [HR1 HR2] & HC);
    [lia|by rewrite Permutation_app_comm|done|done|].
  rewrite (bind_run _ _ _ _ _ E).
  destruct (list_merge_cons_nonnil b lb a la) as (x & M & EM). rewrite EM in Hm.
  assert (x :: M ≡ₚ (b :: lb) ++ a :: la) as HM by (rewrite <-EM; apply merge_Permutation).
  assert (Hm' := Hm). destruct Hm' as (-> & nx & Hnx & _).
  rewrite (bind_run _ _ _ x (State h1 (cs ++ cs'))) by done.
  pose proof (HR2 b) as Hpb. rewrite Hnb in Hpb.
  apply fmap_Some in Hpb as (nb1 & Hnb1 & Hpb).
  rewrite (bind_run _ _ _ _ _ (node_run h1 _ b nb1 Hnb1)). rewrite <-Hpb.
  rewrite (bind_run _ _ _ _ _ (set_prev_run h1 _ x nx (prev nb) Hnx)).
  eexists x, M, _, _, cs'. split_and!; [done|done| |by rewrite lookup_insert_eq|done| |done].
  - eapply sll_eq; [|done]. intros y Hy. destruct (decide (y = x)) as [->|].
    + by rewrite lookup_insert_eq, Hnx.
    + by rewrite lookup_insert_ne.
  - intros y Hy. rewrite lookup_insert_ne; [apply HR1; set_solver|].
    intros <-. apply Hy. rewrite (Permutation_app_comm (a :: la)), <-HM. left.
Qed.

(** Two neighbours of the pending lists are merged and put in their place. *)
Lemma merge_neighbours fuel h cs pending ls1 A A' ls2 sl p sl' :
  path h SVar pending ls1 sl p → path h sl p (A :: A' :: ls2) sl' None →
  NoDup (concat (ls1 ++ A :: A' :: ls2)) → (length A + length A' < fuel)%nat →
  ∃ pending' h' cs',
    (a ← load sl pending; a ← deref a; na ← node a; b ← deref (prev na);
     m ← merge_two fuel a b; store sl (Some m) pending) (State h cs) =
      Some (pending', State h' (cs ++ cs')) ∧
    pending_lists h' pending' (ls1 ++ list_merge le A' A :: ls2) ∧
    (∀ x, x ∉ concat (ls1 ++ A :: A' :: ls2) → h' !! x = h !! x) ∧ calls_in A' A cs'.
Proof.
  intros Hp1 (a & la & na & -> & -> & Ha & Hna & b & lb & nb & -> & Hb0 & Hb & Hnb & Hp2) HN Hf.
  rewrite concat_app in *. cbn [concat] in *. rewrite (app_assoc (a :: la)) in *.
  apply NoDup_app in HN as (HN1 & HD1 & HN). apply NoDup_app in HN as (HN & HD2 & HN2).
  rewrite (bind_run _ _ _ _ _ (path_load h cs _ _ _ _ Hp1)).
  rewrite (bind_run _ _ _ a (State h cs)) by done.
  rewrite (bind_run _ _ _ _ _ (node_run h cs a na Hna)). rewrite Hb0.
  rewrite (bind_run _ _ _ b (State h cs)) by done.
  destruct (merge_two_spec fuel a la b lb nb h cs) as
    (x & M & nx & h2 & cs' & E & EM & Hm & Hnx & Hpx & E2 & HC); try done.
  { simpl in Hf. lia. }
  rewrite (bind_run _ _ _ _ _ E).
  destruct (path_store h2 (cs ++ cs') pending ls1 sl (Some a) (Some x)) as (pd & h3 & E3 & HP & HE);
    [|done|].
  { eapply path_eq; [|done]. intros y Hy. apply E2. intros Hy'. apply (HD1 y Hy).
    apply elem_of_app. by left. }
  exists pd, h3, cs'. split_and!; [done| | |done].
  - assert (x :: M ≡ₚ (a :: la) ++ b :: lb) as HM.
    { rewrite <-EM, Permutation_app_comm. apply merge_Permutation. }
    assert (∀ y, y ∈ x :: M → h3 !! y = h2 !! y) as E23.
    { intros y Hy. rewrite HM in Hy. apply HE. intros Hy'. apply (HD1 y Hy').
      apply elem_of_app. by left. }
    destruct (path_start h (SPrev b) (SPrev x) _ _ _ _ Hp2) as (sl'' & Hp2' & _).
    exists sl''. apply path_app. exists sl, (Some x). split; [done|]. rewrite EM.
    exists x, M, nx. split_and!; [done|done| |by rewrite E23 by left|].
    + eapply sll_eq; [|done]. intros y Hy. by rewrite E23.
    + rewrite Hpx. eapply path_eq; [|done]. intros y Hy. rewrite HE, E2; [done| |].
      * intros Hy'. by apply (HD2 y Hy').
      * intros Hy'. apply (HD1 y Hy'). apply elem_of_app. by right.
  - intros y [Hy1 [Hy2 Hy3]%not_elem_of_app]%not_elem_of_app. by rewrite HE, E2.
Qed.

Lemma size_nat_le (n : nat) p : Zpos p < 2 ^ Z.of_nat n → (Pos.size_nat p ≤ n)%nat.
Proof.
  revert n. induction p as [p IH|p IH|]; intros [|n]; cbn [Pos.size_nat]; try lia.
  all: rewrite Nat2Z.inj_succ, Z.pow_succ_r by lia; intros Hp; apply le_n_S, IH; lia.
Qed.

Lemma bitlen_size_t count : 0 ≤ count < 2 ^ 64 → (bitlen count < 65)%nat.
Proof.
  intros Hc. destruct count as [|c|]; cbn [bitlen]; [lia| |lia].
  apply Nat.lt_succ_r, size_nat_le. lia.
Qed.

Lemma merge_pending_spec fuel count h cs pending ls :
  0 ≤ count < 2 ^ 64 → bitlen count = length ls → pending_lists h pending ls →
  NoDup (concat ls) → (length (concat ls) < fuel)%nat →
  ∃ pending' h' cs' ls',
    merge_pending fuel count pending (State h cs) = Some (pending', State h' (cs ++ cs')) ∧
    pending_lists h' pending' ls' ∧ (∀ x, x ∉ concat ls → h' !! x = h !! x) ∧
    bitlen (count + 1) = S (length ls') ∧
    (ls' = ls ∧ cs' = [] ∨ ∃ ls1 A A' ls2, ls = ls1 ++ A :: A' :: ls2 ∧
       ls' = ls1 ++ list_merge le A' A :: ls2 ∧ calls_in A' A cs').
Proof.
  intros Hc Hb [sl Hp] HN Hf. unfold merge_pending.
  destruct (find_tail_spec 65 h cs pending [] ls SVar pending sl count) as
    (ls1 & ls2 & sl1 & p1 & bits & -> & E & HP1 & HP2 & Hcase); try done; try lia.
  { by apply bitlen_size_t. }
  rewrite (bind_run _ _ _ _ _ E). simpl app in HP1.
  destruct Hcase as [(-> & -> & Eb)|(Hne & Hl & Eb)].
  - exists pending, h, [], (ls1 ++ []). rewrite (app_nil_r cs). split_and!; try done; [by exists sl|].
    by left.
  - rewrite (proj2 (Z.eqb_neq bits 0)) by done.
    destruct ls2 as [|A [|A' ls2]]; simpl in Hl; [lia|lia|].
    destruct (merge_neighbours fuel h cs pending ls1 A A' ls2 sl1 p1 sl) as
      (pd & h' & cs' & E' & HP & HE & HC); try done.
    { rewrite concat_app in Hf. simpl in Hf. rewrite !length_app in Hf. lia. }
    exists pd, h', cs', (ls1 ++ list_merge le A' A :: ls2). split_and!; try done.
    + rewrite Eb, !length_app. simpl. lia.
    + right. by exists ls1, A, A', ls2.
Qed.

(** ** Stable sorting *)

Context `{!Total le, !Transitive le}.

Definition eqv (x y : loc) : Prop := le x y ∧ le y x.

#[export] Instance eqv_dec x y : Decision (eqv x y).
Proof. unfold eqv. apply _. Defined.

(** [s] is the stable sort of [seg]. *)
Definition sorts (seg s : list loc) : Prop :=
  Sorted le s ∧ s ≡ₚ seg ∧ ∀ x, filter (eqv x) s = filter (eqv x) seg.

Lemma sorts_one x : sorts [x] [x].
Proof. split_and!; [repeat constructor|done|done]. Qed.

Lemma filter_none x l : Forall (λ y, ¬ eqv x y) l → filter (eqv x) l = [].
Proof. induction 1 as [|y l Hy _ IH]; [done|]. by rewrite filter_cons, decide_False. Qed.

Lemma filter_merge x l1 l2 : Sorted le l1 → 
  filter (eqv x) (list_merge le l1 l2) = filter (eqv x) l1 ++ filter (eqv x) l2.
Proof.
  intros Hs%Sorted_StronglySorted; [|done]. revert l2.
  induction Hs as [|a l1 Hs IH Ha]; [intros; by rewrite list_merge_nil_l|].
  induction l2 as [|b l2 IH2]; [by rewrite list_merge_nil_r, app_nil_r|].
  rewrite list_merge_cons. case_decide as Hab.
  - rewrite !filter_cons, IH, filter_cons. by case_decide.
  - rewrite filter_cons, IH2, (filter_cons _ b). case_decide as Hb; [|done].
    assert (filter (eqv x) (a :: l1) = []) as ->; [|done].
    apply filter_none.
    assert (∀ c, le a c → ¬ eqv x c) as Hc.
    { intros c Hac [Hxc Hcx]. apply Hab. destruct Hb as [Hxb Hbx].
      transitivity c; [done|]. by transitivity x. }
    constructor.
    + apply Hc. by destruct (total le a a).
    + eapply Forall_impl; [exact Ha|]. auto.
Qed.

Lemma sorts_merge s1 s2 l1 l2 : sorts s1 l1 → sorts s2 l2 → sorts (s1 ++ s2) (list_merge le l1 l2).
Proof.
  intros (S1 & P1 & F1) (S2 & P2 & F2). split_and!.
  - by apply Sorted_list_merge.
  - by rewrite merge_Permutation, P1, P2.
  - intros x. by rewrite filter_merge, filter_app, F1, F2.
Qed.

(** The pending lists are the stable sorts of consecutive pieces of [pre], the newest
    piece first. *)
Inductive runs : list loc → list (list loc) → Prop :=
| runs_nil : runs [] []
| runs_cons pre seg s ls : runs pre ls → sorts seg s → runs (pre ++ seg) (s :: ls).

(** [x] comes before [y] in [l]. *)
Definition before (l : list loc) (x y : loc) : Prop :=
  ∃ l1 l2, l = l1 ++ l2 ∧ x ∈ l1 ∧ y ∈ l2.

Definition ordered_calls (l : list loc) (cs : list (loc * loc)) : Prop :=
  Forall (λ c, c.1 = c.2 ∨ before l c.1 c.2) cs.

Lemma ordered_calls_app_r l k cs : ordered_calls l cs → ordered_calls (l ++ k) cs.
Proof.
  intros HF. eapply Forall_impl; [exact HF|]. intros c [Hc|(l1 & l2 & -> & H1 & H2)]; [by left|].
  right. exists l1, (l2 ++ k). rewrite <-app_assoc. split_and!; [done|done|set_solver].
Qed.

Lemma runs_perm pre ls : runs pre ls → concat ls ≡ₚ pre.
Proof.
  induction 1 as [|pre seg s ls _ IH (_ & P & _)]; [done|]. simpl.
  by rewrite P, IH, Permutation_app_comm.
Qed.

Lemma runs_merge pre ls1 A A' ls2 cs :
  runs pre (ls1 ++ A :: A' :: ls2) → calls_in A' A cs →
  runs pre (ls1 ++ list_merge le A' A :: ls2) ∧ ordered_calls pre cs.
Proof.
  intros HR HC. revert pre HR. induction ls1 as [|s ls1 IH]; intros pre HR; simpl in *.
  - inversion HR as [|pre1 seg ? ? HR1 HS]; subst. inversion HR1 as [|pre2 seg' ? ? HR2 HS']; subst.
    rewrite <-app_assoc. split; [by constructor; [|apply sorts_merge]|].
    eapply Forall_impl; [exact HC|]. intros c [H1 H2]. right. exists (pre2 ++ seg'), seg.
    destruct HS as (_ & P & _), HS' as (_ & P' & _). rewrite P' in H1. rewrite P in H2.
    rewrite <-app_assoc. set_solver.
  - inversion HR as [|pre1 seg ? ? HR1 HS]; subst. destruct (IH pre1 HR1) as [HR' HC'].
    split; [by constructor|]. by apply ordered_calls_app_r.
Qed.

(** ** The rounds *)

Lemma pending_push h p ls x : pending_lists h p ls → x ∉ concat ls →
  pending_lists (<[x := ListHead None p]> h) (Some x) ([x] :: ls).
Proof.
  intros [sl Hp] Hx. destruct (path_start h SVar (SPrev x) _ _ _ _ Hp) as (sl' & Hp' & _).
  exists sl', x, [], (ListHead None p). split_and!; [done|done| |by rewrite lookup_insert_eq|].
  - split; [done|]. eexists. by rewrite lookup_insert_eq.
  - eapply path_eq; [|done]. intros y Hy. rewrite lookup_insert_ne; [done|]. by intros ->.
Qed.

Lemma lsort_loop_spec mfuel fuel x rest pre ls pending count h cs :
  (length rest < fuel)%nat → (length pre + length rest < mfuel)%nat →
  0 ≤ count → count + Z.of_nat (length rest) < 2 ^ 64 - 1 →
  bitlen count = length ls → runs pre ls → pending_lists h pending ls →
  sll h (Some x) (x :: rest) → NoDup (pre ++ x :: rest) →
  ∃ pending' h' cs' ls', 
    lsort_loop mfuel fuel x pending count (State h cs) = Some (pending', State h' (cs ++ cs')) ∧
    pending_lists h' pending' ls' ∧ runs (pre ++ x :: rest) ls' ∧
    bitlen (count + 1 + Z.of_nat (length rest)) = length ls' ∧
    (∀ y, y ∉ pre ++ x :: rest → h' !! y = h !! y) ∧ ordered_calls (pre ++ x :: rest) cs'.
Proof.
  revert x rest pre ls pending count h cs. induction fuel as [|fuel IH];
    intros x rest pre ls pending count h cs Hf Hm H0 Hcnt Hb HR HP (_ & n & Hn & Hx) HN; [lia|].
  cbn [lsort_loop]. pose proof (runs_perm _ _ HR) as Hperm.
  apply NoDup_app in HN as (HN1 & HD & HN2). 
  destruct (merge_pending_spec mfuel count h cs pending ls) as
    (pd & h1 & cs1 & ls1 & E & HP1 & HE1 & Hb1 & Hcase); try done; try lia.
  { by rewrite Hperm. }
  { rewrite (Permutation_length Hperm). lia. }
  assert (runs pre ls1 ∧ ordered_calls pre cs1) as [HR1 HC1].
  { destruct Hcase as [[-> ->]|(k1 & A & A' & k2 & -> & -> & HC)].
    - split; [done|constructor].
    - by apply runs_merge. }
  rewrite (bind_run _ _ _ _ _ E). clear Hcase E.
  assert (∀ y, y ∉ pre → h1 !! y = h !! y) as HE1'.
  { intros y Hy. apply HE1. by rewrite Hperm. }
  assert (x ∉ pre) as Hxp by (intros Hy; apply (HD x Hy); left).
  assert (h1 !! x = Some n) as Hn1 by (by rewrite HE1').
  rewrite (bind_run _ _ _ _ _ (set_prev_run h1 _ x n pd Hn1)).
  set (n2 := ListHead (next n) pd).
  assert (<[x := n2]> h1 !! x = Some n2) as Hn2 by apply lookup_insert_eq.
  rewrite (bind_run _ _ _ _ _ (node_run _ _ x n2 Hn2)).
  rewrite (bind_run _ _ _ _ _ (set_next_run _ _ x n2 None Hn2)).
  rewrite insert_insert_eq. cbn [n2 next prev].
  assert (runs (pre ++ [x]) ([x] :: ls1)) as HR2 by (constructor; [done|apply sorts_one]).
  assert (pending_lists (<[x := ListHead None pd]> h1) (Some x) ([x] :: ls1)) as HP2.
  { apply pending_push; [done|]. by rewrite (runs_perm _ _ HR1). }
  assert (∀ y, y ∉ pre ++ [x] → <[x := ListHead None pd]> h1 !! y = h !! y) as HE2.
  { intros y [Hy1 Hy2]%not_elem_of_app. rewrite lookup_insert_ne by set_solver. by apply HE1'. }
  destruct rest as [|x' rest].
  - simpl in Hx. rewrite Hx. eexists _, _, cs1, _. split_and!; [done|done|done| |done|].
    + simpl. rewrite Z.add_0_r. by rewrite Hb1.
    + by apply ordered_calls_app_r.
  - destruct Hx as (-> & Hx). simpl in Hf, Hm, Hcnt.
    assert (w64 (count + 1) = count + 1) as -> by (apply wrap_small; lia).
    destruct (IH x' rest (pre ++ [x]) ([x] :: ls1) (Some x) (count + 1)
      (<[x := ListHead None pd]> h1) (cs ++ cs1)) as
      (pd' & h' & cs' & ls' & E & HP' & HR' & Hb' & HE' & HC'); try done; try lia.
    + rewrite length_app. simpl. lia.
    + apply NoDup_cons in HN2 as [Hxr _]. eapply (sll_eq h); [|by split].
      intros y Hy. rewrite HE2; [done|]. intros [Hy'|Hy']%elem_of_app.
      * apply (HD y Hy'). by right.
      * apply list_elem_of_singleton in Hy' as ->. done.
    + rewrite <-app_assoc. apply NoDup_app. split_and!; [done|done|done].
    + rewrite <-(app_assoc pre) in *. simpl in *. rewrite <-(app_assoc cs) in *.
      eexists pd', h', (cs1 ++ cs'), ls'. split_and!; [done|done|done| | |].
      * rewrite <-Hb'. f_equal. lia.
      * intros y Hy. rewrite HE' by done. apply HE2. set_solver.
      * apply Forall_app. split; [|done]. by apply ordered_calls_app_r.
Qed.

(** ** The last merges *)

Lemma merge_all_spec mfuel fuel p x lx pre ls seg h cs :
  (length ls ≤ fuel)%nat → (length (pre ++ seg) < mfuel)%nat →
  pending_lists h (Some p) ls → runs pre ls →
  sll h (Some x) (x :: lx) → sorts seg (x :: lx) → NoDup (pre ++ seg) →
  ∃ a la b lb sa sb h' cs', 
    merge_all mfuel fuel p x (State h cs) = Some ((a, b), State h' (cs ++ cs')) ∧
    sll h' (Some a) (a :: la) ∧ sll h' (Some b) (b :: lb) ∧
    sorts sa (a :: la) ∧ sorts sb (b :: lb) ∧ pre ++ seg = sa ++ sb ∧
    (∀ y, y ∉ pre ++ seg → h' !! y = h !! y) ∧ ordered_calls (pre ++ seg) cs'.
Proof.
  revert p x lx pre ls seg h cs. induction fuel as [|fuel IH];
    intros p x lx pre ls seg h cs Hf Hm [sl HP] HR Hx HS HN.
  { destruct ls; [|simpl in Hf; lia]. by destruct HP. }
  destruct ls as [|s ls]; [by destruct HP|].
  destruct HP as (p' & s' & n & -> & Ep & Hs & Hp & HP). injection Ep as <-.
  inversion HR as [|pre1 seg1 ? ? HR1 HS1]; subst. cbn [merge_all].
  rewrite (bind_run _ _ _ _ _ (node_run h cs p n Hp)). rewrite <-(app_assoc pre1) in *.
  destruct ls as [|s2 ls].
  - destruct HP as [_ HP]. rewrite <-HP. inversion HR1; subst. rewrite app_nil_l in *.
    exists p, s', x, lx, seg1, seg, h, []. rewrite app_nil_r. split_and!; try done. constructor.
  - assert (HP2 := HP). destruct HP2 as (p2 & s2' & n2 & _ & Ep2 & _). rewrite Ep2 in *.
    destruct (path_start _ _ SVar _ _ _ _ HP) as (sl' & HP' & _).
    pose proof (runs_perm _ _ HR1) as Hpm1. apply NoDup_app in HN as (HN1 & HD & HN2).
    assert ((p :: s') ++ x :: lx ≡ₚ seg1 ++ seg) as Hpm.
    { destruct HS as (_ & -> & _), HS1 as (_ & -> & _). done. }
    destruct (merge_spec mfuel p s' x lx h cs) as (m & h1 & cs1 & E & Hl & [HE1 _] & HC); try done.
    { apply Permutation_length in Hpm. rewrite !length_app in *. simpl in Hpm. lia. }
    { by rewrite Hpm. }
    rewrite (bind_run _ _ _ _ _ E).
    assert (HS' : sorts (seg1 ++ seg) (list_merge le (p :: s') (x :: lx))) by by apply sorts_merge.
    destruct (list_merge_cons_nonnil p s' x lx) as (y & M & EM). rewrite EM in *.
    assert (Hl' := Hl). destruct Hl' as (-> & _).
    rewrite (bind_run _ _ _ y (State h1 (cs ++ cs1))) by done.
    assert (∀ z, z ∉ seg1 ++ seg → h1 !! z = h !! z) as HE1'.
    { intros z Hz. apply HE1. by rewrite Hpm. }
    destruct (IH p2 y M pre1 (s2 :: ls) (seg1 ++ seg) h1 (cs ++ cs1)) as
      (a & la & b & lb & sa & sb & h' & cs' & E' & H1 & H2 & H3 & H4 & H5 & H6 & H7); try done.
    { simpl in *. lia. }
    { exists sl'. eapply path_eq; [|done]. intros z Hz. apply HE1'. rewrite Hpm1 in Hz. by apply HD. }
    { apply NoDup_app. by split_and!. }
    eexists a, la, b, lb, sa, sb, h', (cs1 ++ cs'). rewrite app_assoc. split_and!; try done.
    + intros z Hz. rewrite H6 by done. apply HE1'. set_solver.
    + apply Forall_app. split; [|done]. eapply Forall_impl; [exact HC|].
      intros c [Hc1 Hc2]. right. exists (pre1 ++ seg1), seg. destruct HS as (_ & HS & _), HS1 as (_ & HS1 & _).
      rewrite HS1 in Hc1. rewrite HS in Hc2. rewrite <-app_assoc. set_solver.
Qed.

(** ** The final merge *)

Definition nx (h : gmap loc list_head) (x : loc) : option ptr := next <$> h !! x.
Definition pv (h : gmap loc list_head) (x : loc) : option ptr := prev <$> h !! x.

(** From [x] the [next] links lead along [l], and the [prev] links back. *)
Fixpoint dseg (h : gmap loc list_head) (x : loc) (l : list loc) : Prop :=
  match l with
  | [] => True
  | y :: l => nx h x = Some (Some y) ∧ pv h y = Some (Some x) ∧ dseg h y l
  end.

(** The circular doubly linked list [l] with the sentinel [head]. *)
Definition clist (h : gmap loc list_head) (head : loc) (l : list loc) : Prop :=
  dseg h head (l ++ [head]) ∧ NoDup (head :: l).

Lemma dseg_app h x l y k : dseg h x (l ++ y :: k) ↔ dseg h x (l ++ [y]) ∧ dseg h y k.
Proof. revert x. induction l as [|z l IH]; intros x; simpl; [|rewrite IH]; naive_solver. Qed.

Lemma dseg_eq h h' x l t : (∀ y, y ∈ x :: l → nx h' y = nx h y) →
  (∀ y, y ∈ l ++ [t] → pv h' y = pv h y) → dseg h x (l ++ [t]) → dseg h' x (l ++ [t]).
Proof.
  revert x. induction l as [|z l IH]; intros x E1 E2; simpl.
  - intros (H1 & H2 & _). rewrite E1, E2 by (simpl; left). done.
  - intros (H1 & H2 & H3). rewrite E1, E2 by (simpl; left). split_and!; [done|done|].
    apply IH; [|intros y Hy; apply E2; by right|done].
    intros y Hy. apply E1. by right.
Qed.

Lemma nx_set_prev h x n v y : h !! x = Some n → nx (<[x := ListHead (next n) v]> h) y = nx h y.
Proof.
  intros Hx. unfold nx. destruct (decide (y = x)) as [->|].
  - by rewrite lookup_insert_eq, Hx.
  - by rewrite lookup_insert_ne.
Qed.

Lemma pv_set_next h x n v y : h !! x = Some n → pv (<[x := ListHead v (prev n)]> h) y = pv h y.
Proof.
  intros Hx. unfold pv. destruct (decide (y = x)) as [->|].
  - by rewrite lookup_insert_eq, Hx.
  - by rewrite lookup_insert_ne.
Qed.

(** Linking [x] after [t]. *)
Lemma link_spec {A} (k : M state A) t x nt n h cs : t ≠ x →
  h !! t = Some nt → h !! x = Some n →
  ∃ h', (_ ← set_next t (Some x); _ ← set_prev x (Some t); k) (State h cs) = k (State h' cs) ∧
    h' !! x = Some (ListHead (next n) (Some t)) ∧ h' !! t = Some (ListHead (Some x) (prev nt)) ∧
    ∀ y, y ≠ t → y ≠ x → h' !! y = h !! y.
Proof.
  intros Htx Ht Hx.
  exists (<[x := ListHead (next n) (Some t)]> (<[t := ListHead (Some x) (prev nt)]> h)).
  rewrite (bind_run _ _ _ _ _ (set_next_run h cs t nt (Some x) Ht)).
  assert (<[t := ListHead (Some x) (prev nt)]> h !! x = Some n) as Hx'
    by (by rewrite lookup_insert_ne).
  rewrite (bind_run _ _ _ _ _ (set_prev_run _ cs x n (Some t) Hx')). split_and!; [done|..].
  - by rewrite lookup_insert_eq.
  - by rewrite lookup_insert_ne, lookup_insert_eq.
  - intros y H1 H2. by rewrite !lookup_insert_ne.
Qed.

(** What the first loop of [merge_final] achieves from the tail [t]. *)
Definition final_merged (t : loc) (la lb : list loc) (h : gmap loc list_head)
    (cs : list (loc * loc)) (r : option ((loc * loc) * state)) : Prop :=
  ∃ m t' b rest h' cs', r = Some ((t', b), State h' (cs ++ cs')) ∧
    list_merge le la lb = m ++ t' :: b :: rest ∧ dseg h' t (m ++ [t']) ∧
    sll h' (Some b) (b :: rest) ∧ is_Some (h' !! t') ∧
    (∀ y, y ∉ t :: la ++ lb → h' !! y = h !! y) ∧ pv h' t = pv h t ∧ calls_in la lb cs'.

Lemma final_step (k : loc → M state (loc * loc)) x l t la lb la' lb' (y : loc) h cs c nt :
  list_merge le la lb = x :: list_merge le la' lb' → t ∉ la ++ lb → x ∈ la ++ lb →
  x ∉ la' ++ lb' → la' ⊆ la → lb' ⊆ lb → calls_in la lb [c] → h !! t = Some nt →
  sll h (Some x) (x :: l) →
  (l = [] → ∃ l', list_merge le la' lb' = y :: l' ∧ sll h (Some y) (y :: l') ∧
     y :: l' ⊆ la' ++ lb') →
  (∀ x' l' h1, l = x' :: l' → is_Some (h1 !! x) →
     (∀ p k, k ⊆ la' ++ lb' → sll h p k → sll h1 p k) →
     final_merged x la' lb' h1 (cs ++ [c]) (k x' (State h1 (cs ++ [c])))) →
  final_merged t la lb h cs
    ((_ ← set_next t (Some x); _ ← set_prev x (Some t); n ← node x;
      match next n with None => mret (x, y) | Some x' => k x' end) (State h (cs ++ [c]))).
Proof.
  intros Em Ht Hx Hx' Sa Sb Hc Hnt (_ & n & Hn & Hnl) Hlast Hrec.
  edestruct (link_spec (n ← node x; match next n with None => mret (x, y) | Some x' => k x' end)
    t x nt n h (cs ++ [c])) as (h1 & E & H1x & H1t & HE1); [set_solver|done|done|].
  rewrite E. rewrite (bind_run _ _ _ _ _ (node_run h1 _ x _ H1x)). cbn [next].
  assert (∀ p k, k ⊆ la' ++ lb' → sll h p k → sll h1 p k) as Hsl.
  { intros p k' Hk'. apply sll_eq. intros z Hz. rewrite HE1; [done| |].
    - clear -Ht Sa Sb Hz Hk'. set_solver.
    - clear -Hx' Hz Hk'. set_solver. }
  destruct l as [|x' l]; simpl in Hnl.
  - rewrite Hnl. destruct Hlast as (l' & El & Hl' & Hs); [done|].
    exists [], x, y, l', h1, [c].
    split_and!; [done|by rewrite Em, El| |by apply Hsl|by rewrite H1x| | |done].
    + split_and!; [unfold nx; by rewrite H1t|unfold pv; by rewrite H1x|done].
    + intros z Hz. apply HE1; clear -Hz Hx; set_solver.
    + unfold pv. by rewrite H1t, Hnt.
  - destruct Hnl as [-> _].
    destruct (Hrec x' l h1) as (m & t' & b & rest & h' & cs' & -> & El & Hd & Hl & Ht' & HE & HP & HC);
      [done|by rewrite H1x|done|].
    exists (x :: m), t', b, rest, h', (c :: cs'). split_and!; try done.
    + by rewrite <-app_assoc.
    + by rewrite Em, El.
    + split_and!; [|by rewrite HP; unfold pv; rewrite H1x|done]. unfold nx.
      rewrite HE by (clear -Ht Hx Sa Sb; set_solver). by rewrite H1t.
    + intros z Hz. rewrite HE; [|clear -Hz Hx Sa Sb; set_solver].
      apply HE1; clear -Hz Hx; set_solver.
    + unfold pv. rewrite HE by (clear -Ht Hx Sa Sb; set_solver). by rewrite H1t, Hnt.
    + apply Forall_cons in Hc as [Hc _]. constructor; [done|]. by eapply calls_in_mono.
Qed.

Lemma merge_final_loop_spec fuel a la b lb t h cs :
  (length la + length lb < fuel)%nat → NoDup ((a :: la) ++ b :: lb) →
  t ∉ (a :: la) ++ b :: lb → is_Some (h !! t) →
  sll h (Some a) (a :: la) → sll h (Some b) (b :: lb) →
  final_merged t (a :: la) (b :: lb) h cs (merge_final_loop fuel t a b (State h cs)).
Proof.
  revert a la b lb t h cs. induction fuel as [|fuel IH];
    intros a la b lb t h cs Hf HN Ht [nt Hnt] Ha Hb; [lia|].
  cbn [merge_final_loop].
  rewrite (bind_run _ _ _ (cmp a b) (State h (cs ++ [(a, b)]))) by done.
  assert (calls_in (a :: la) (b :: lb) [(a, b)]) as HC
    by (constructor; [simpl; set_solver|constructor]).
  apply NoDup_app in HN as (Na & Nd & Nb). apply NoDup_cons in Na as [Nxa Na].
  apply NoDup_cons in Nb as [Nxb Nb].
  destruct (Z.leb_spec (cmp a b) 0) as [Hc|Hc].
  - apply (final_step (λ a', merge_final_loop fuel a a' b) a la t
      (a :: la) (b :: lb) la (b :: lb) b h cs (a, b) nt);
      [|done|clear; set_solver|clear -Nxa Nd; set_solver|clear; set_solver|done|done|done|done| |].
    + rewrite list_merge_cons. by rewrite decide_True.
    + intros ->. exists lb. rewrite list_merge_nil_l. done.
    + intros a' la' h1 -> Hx Hsl. cbn [length] in Hf. apply IH; [lia| | |done| |].
      * clear -Na Nd Nb Nxb. apply NoDup_app. split_and!; [done|set_solver|by constructor].
      * clear -Nxa Nd. set_solver.
      * apply Hsl; [clear; set_solver|by apply sll_tail in Ha].
      * apply Hsl; [clear; set_solver|done].
  - apply (final_step (λ b', merge_final_loop fuel b a b') b lb t
      (a :: la) (b :: lb) (a :: la) lb a h cs (a, b) nt);
      [|done|clear; set_solver|clear -Nxb Nd; set_solver|done|clear; set_solver|done|done|done| |].
    + rewrite list_merge_cons. rewrite decide_False; [done|]. unfold le. lia.
    + intros ->. exists la. rewrite list_merge_nil_r, app_nil_r. done.
    + intros b' lb' h1 -> Hx Hsl. cbn [length] in Hf. apply IH; [cbn [length]; lia| | |done| |].
      * clear -Na Nd Nb Nxa. apply NoDup_app. split_and!; [by constructor|set_solver|done].
      * clear -Nxb Nd. set_solver.
      * apply Hsl; [clear; set_solver|done].
      * apply Hsl; [clear; set_solver|by apply sll_tail in Hb].
Qed.

Lemma resched_run (count : Z) (b : loc) h cs :
  ∃ c cs', (if count =? 0 then call_cmp b b else mret 0) (State h cs) =
    Some (c, State h (cs ++ cs')) ∧ Forall (λ c, c.1 = c.2) cs'.
Proof.
  destruct (count =? 0).
  - exists (cmp b b), [(b, b)]. split; [done|]. by repeat constructor.
  - exists 0, []. split; [by rewrite app_nil_r|constructor].
Qed.

Lemma link_rest_spec fuel count t b r h cs :
  (length r < fuel)%nat → sll h (Some b) (b :: r) → NoDup (t :: b :: r) →
  nx h t = Some (Some b) →
  ∃ m e h' cs', b :: r = m ++ [e] ∧
    link_rest fuel count t b (State h cs) = Some (e, State h' (cs ++ cs')) ∧
    dseg h' t (m ++ [e]) ∧ (∀ y, y ∉ b :: r → h' !! y = h !! y) ∧
    (∀ y, nx h' y = nx h y) ∧ Forall (λ c, c.1 = c.2) cs'.
Proof.
  revert count t b r h cs. induction fuel as [|fuel IH];
    intros count t b r h cs Hf Hb HN Ht; [lia|].
  cbn [link_rest]. apply NoDup_cons in HN as [Ht' HN]. assert (HN' := HN).
  apply NoDup_cons in HN' as [Hb' _].
  destruct (resched_run (w8 (count + 1)) b h cs) as (c & cs1 & Ec & Hcs1).
  rewrite (bind_run _ _ _ _ _ Ec).
  assert (Hb2 := Hb). destruct Hb2 as (_ & n & Hn & Hnl).
  rewrite (bind_run _ _ _ _ _ (set_prev_run h _ b n (Some t) Hn)).
  set (n1 := ListHead (next n) (Some t)). set (h1 := <[b := n1]> h).
  assert (h1 !! b = Some n1) as Hn1 by apply lookup_insert_eq.
  rewrite (bind_run _ _ _ _ _ (node_run h1 _ b n1 Hn1)). cbn [n1 next].
  assert (∀ y, nx h1 y = nx h y) as Hnx by (intros y; by apply nx_set_prev).
  assert (∀ y, y ≠ b → h1 !! y = h !! y) as HE1 by (intros y Hy; by apply lookup_insert_ne).
  destruct r as [|b' r]; simpl in Hnl.
  - rewrite Hnl. exists [], b, h1, cs1. split_and!; try done.
    + split_and!; [by rewrite Hnx|unfold pv; by rewrite Hn1|done].
    + intros y Hy. apply HE1. set_solver.
  - destruct Hnl as [Hnb Hnl]. rewrite Hnb.
    destruct (IH (w8 (count + 1)) b b' r h1 (cs ++ cs1)) as
      (m & e & h' & cs' & Er & E & Hd & HE & Hnx' & Hcs'); try done.
    + simpl in Hf. lia.
    + apply sll_tail in Hb. eapply sll_eq; [|done]. intros y Hy. by rewrite HE1 by set_solver.
    + rewrite Hnx. unfold nx. rewrite Hn. simpl. by rewrite Hnb.
    + exists (b :: m), e, h', (cs1 ++ cs'). rewrite app_assoc. split_and!; try done.
      * by rewrite Er.
      * split_and!; [by rewrite Hnx', Hnx| |done]. unfold pv. rewrite HE by done. by rewrite Hn1.
      * intros y Hy. rewrite HE, HE1 by set_solver. done.
      * intros y. by rewrite Hnx', Hnx.
      * by apply Forall_app.
Qed.

(** The last two links close the circle. *)
Lemma close_spec head l e h cs : dseg h head (l ++ [e]) → NoDup (head :: l ++ [e]) →
  is_Some (h !! head) → is_Some (h !! e) →
  ∃ h', (_ ← set_next e (Some head); set_prev head (Some e)) (State h cs) =
      Some ((), State h' cs) ∧ clist h' head (l ++ [e]) ∧
    ∀ y, y ≠ head → y ≠ e → h' !! y = h !! y.
Proof.
  intros Hd HN [nh Hh] [ne He]. assert (HN' := HN). apply NoDup_cons in HN' as [Hhl HN'].
  apply NoDup_app in HN' as (_ & Hel & _).
  assert (head ≠ e) as Hne by (intros ->; apply Hhl; set_solver).
  rewrite (bind_run _ _ _ _ _ (set_next_run h cs e ne (Some head) He)).
  set (h1 := <[e := ListHead (Some head) (prev ne)]> h).
  assert (h1 !! head = Some nh) as Hh1 by (by unfold h1; rewrite lookup_insert_ne).
  rewrite (set_prev_run h1 cs head nh (Some e) Hh1).
  eexists. split_and!; [done|split; [|done]|].
  - rewrite <-app_assoc. apply dseg_app. split.
    + eapply dseg_eq; [| |done].
      * intros y Hy. rewrite nx_set_prev by done. unfold nx, h1. rewrite lookup_insert_ne; [done|].
        intros <-. apply elem_of_cons in Hy as [->|Hy]; [done|]. apply (Hel e Hy). left.
      * intros y Hy. unfold pv at 1. rewrite lookup_insert_ne by (intros <-; done).
        by apply pv_set_next.
    + split_and!; [|by unfold pv; rewrite lookup_insert_eq|done].
      rewrite nx_set_prev by done. unfold nx, h1. by rewrite lookup_insert_eq.
  - intros y H1 H2. unfold h1. by rewrite !lookup_insert_ne.
Qed.

Lemma merge_final_spec fuel head a la b lb h cs :
  (length la + length lb + 1 < fuel)%nat → NoDup (head :: (a :: la) ++ b :: lb) →
  is_Some (h !! head) → sll h (Some a) (a :: la) → sll h (Some b) (b :: lb) →
  ∃ h' cs' cs'', merge_final fuel head a b (State h cs) = Some ((), State h' (cs ++ cs' ++ cs'')) ∧
    clist h' head (list_merge le (a :: la) (b :: lb)) ∧
    (∀ y, y ∉ head :: (a :: la) ++ b :: lb → h' !! y = h !! y) ∧
    calls_in (a :: la) (b :: lb) cs' ∧ Forall (λ c, c.1 = c.2) cs''.
Proof.
  intros Hf HN [nh Hh] Ha Hb. unfold merge_final. apply NoDup_cons in HN as [Hhd HN].
  destruct (merge_final_loop_spec fuel a la b lb head h cs) as
    (m & t & b' & r & h1 & cs1 & E & Em & Hd & Hl & [nt Ht] & HE & HP & HC); try done; [lia|].
  rewrite (bind_run _ _ _ _ _ E).
  rewrite (bind_run _ _ _ _ _ (set_next_run h1 _ t nt (Some b') Ht)).
  set (h2 := <[t := ListHead (Some b') (prev nt)]> h1).
  assert (Hpm : list_merge le (a :: la) (b :: lb) ≡ₚ (a :: la) ++ b :: lb)
    by apply merge_Permutation.
  rewrite Em in Hpm |- *. rewrite <-Hpm in HN, Hhd.
  assert (NoDup (t :: b' :: r)) as HN2 by (by apply NoDup_app in HN as (_ & _ & HN)).
  assert (∀ y, y ∈ head :: m → y ∉ t :: b' :: r) as Hm.
  { apply NoDup_app in HN as (_ & HN & _). clear -HN Hhd. set_solver. }
  destruct (link_rest_spec fuel 0 t b' r h2 (cs ++ cs1)) as
    (m' & e & h3 & cs2 & Er & E' & Hd' & HE' & Hnx & Hcs2).
  { apply Permutation_length in Hpm. rewrite !length_app in Hpm. simpl in Hpm. lia. }
  { apply NoDup_cons in HN2 as [HN2 _]. eapply sll_eq; [|done]. intros y Hy. unfold h2.
    rewrite lookup_insert_ne; [done|]. by intros ->. }
  { done. }
  { unfold nx, h2. by rewrite lookup_insert_eq. }
  rewrite (bind_run _ _ _ _ _ E').
  assert (∀ y, y ∉ t :: b' :: r → h3 !! y = h1 !! y) as H31.
  { intros y Hy. rewrite HE' by set_solver. apply lookup_insert_ne. set_solver. }
  assert (m ++ t :: b' :: r = (m ++ t :: m') ++ [e]) as EL by (by rewrite Er, <-app_assoc).
  destruct (close_spec head (m ++ t :: m') e h3 ((cs ++ cs1) ++ cs2)) as (h4 & E4 & Hc & HE4).
  { rewrite <-app_assoc. apply dseg_app. split; [|done]. eapply (dseg_eq h1); [| |done].
    - intros y Hy. rewrite Hnx. unfold nx, h2. rewrite lookup_insert_ne; [done|].
      intros <-. apply (Hm t Hy). left.
    - intros y Hy. unfold pv. rewrite HE'; [by apply pv_set_next|].
      apply elem_of_app in Hy as [Hy|Hy%list_elem_of_singleton].
      + intros Hy'. apply (Hm y); [by right|by right].
      + subst y. by apply NoDup_cons in HN2 as [? _]. }
  { rewrite <-EL. by constructor. }
  { rewrite H31 by (apply Hm; left). unfold pv in HP. rewrite Hh in HP. apply (fmap_is_Some prev). by rewrite HP. }
  { apply (fmap_is_Some next). change (is_Some (nx h3 e)). rewrite Hnx.
    assert (e ∈ b' :: r) as He by (rewrite Er; set_solver).
    destruct (sll_lookup h1 _ _ e Hl He) as [ne Hne]. unfold nx, h2.
    rewrite lookup_insert_ne; [by rewrite Hne|]. intros ->. by apply NoDup_cons in HN2 as [? _]. }
  rewrite E4, EL, <-!app_assoc. eexists h4, cs1, cs2. split_and!; try done.
  - by rewrite <-app_assoc in Hc.
  - intros y Hy. rewrite HE4, H31; [by apply HE|..]; rewrite not_elem_of_cons, <-Hpm in Hy;
      [| |rewrite EL in Hy]; clear -Hy; set_solver.
Qed.

(** ** The whole sort *)

Lemma dseg_sll h x l e : dseg h x (l ++ [e]) → nx h e = Some None → sll h (Some x) (x :: l ++ [e]).
Proof.
  revert x. induction l as [|y l IH]; intros x Hd He; destruct Hd as (Hx & _ & Hd).
  all: apply fmap_Some in Hx as (n & Hn & Hx); split; [done|]; exists n; split; [done|];
    rewrite <-Hx.
  - apply fmap_Some in He as (ne & Hne & He). split; [done|]. by exists ne.
  - by apply IH.
Qed.

Lemma bitlen_le (n : nat) : (bitlen (Z.of_nat n) ≤ n)%nat.
Proof.
  destruct n as [|n]; [done|]. change (bitlen (Z.of_nat (S n))) with (Pos.size_nat (Pos.of_succ_nat n)).
  apply size_nat_le. change (Zpos (Pos.of_succ_nat n)) with (Z.of_nat (S n)).
  apply Z.pow_gt_lin_r; lia.
Qed.

(** The list is cut open, sorted in rounds, and the pending lists are merged into two. *)
Lemma rounds_spec fuel x l h cs :
  l ≠ [] → (S (length l) < fuel)%nat → Z.of_nat (length l) < 2 ^ 64 - 1 →
  sll h (Some x) (x :: l) → NoDup (x :: l) →
  ∃ a la b lb sa sb h' cs',
    sort_rounds fuel x (State h cs) = Some ((a, b), State h' (cs ++ cs')) ∧
    sll h' (Some a) (a :: la) ∧ sll h' (Some b) (b :: lb) ∧
    sorts sa (a :: la) ∧ sorts sb (b :: lb) ∧ x :: l = sa ++ sb ∧
    (∀ y, y ∉ x :: l → h' !! y = h !! y) ∧ ordered_calls (x :: l) cs'.
Proof.
  intros Hl Hf Hz Hx HN. unfold sort_rounds.
  destruct (lsort_loop_spec fuel fuel x l [] [] None 0 h cs) as
    (pd & h1 & cs1 & ls & E & [sl HP] & HR & Hb & HE & HC); try done; try (simpl; lia).
  { constructor. }
  { by exists SVar. }
  rewrite (bind_run _ _ _ _ _ E). simpl in HR, HE, HC.
  assert (2 ≤ length ls)%nat as Hls.
  { rewrite <-Hb. destruct l as [|y l]; [done|]. simpl length.
    destruct (0 + 1 + Z.of_nat (S (length l))) as [|[p|p|]|] eqn:Ez; try lia; simpl;
      destruct p; simpl; lia. }
  destruct ls as [|s [|s2 ls]]; simpl in Hls; [lia|lia|].
  destruct HP as (p & s' & n & -> & -> & Hs & Hn & HP).
  rewrite (bind_run _ _ _ p (State h1 (cs ++ cs1))) by done.
  rewrite (bind_run _ _ _ _ _ (node_run h1 _ p n Hn)).
  destruct (path_start _ _ SVar _ _ _ _ HP) as (sl' & HP' & _).
  destruct HP as (p2 & s2' & n2 & _ & Ep2 & _). rewrite Ep2 in *.
  rewrite (bind_run _ _ _ p2 (State h1 (cs ++ cs1))) by done.
  inversion HR as [|pre seg ? ? HR1 HS Epre]; subst.
  destruct (merge_all_spec fuel fuel p2 p s' pre (s2 :: ls) seg h1 (cs ++ cs1)) as
    (a & la & b & lb & sa & sb & h' & cs' & E' & H1 & H2 & H3 & H4 & H5 & H6 & H7); try done.
  - pose proof (bitlen_le (S (length l))) as Hbl. simpl in Hb. simpl.
    replace (0 + 1 + Z.of_nat (length l)) with (Z.of_nat (S (length l))) in Hb by lia. lia.
  - rewrite Epre. simpl. lia.
  - by exists sl'.
  - by rewrite Epre.
  - rewrite Epre in *. exists a, la, b, lb, sa, sb, h', (cs1 ++ cs'). rewrite app_assoc.
    split_and!; try done.
    + intros y Hy. by rewrite H6, HE.
    + by apply Forall_app.
Qed.

(** What [list_sort] leaves: the circular list of the stable sort. *)
Definition sorted_list (head : loc) (l : list loc) (h : gmap loc list_head)
    (r : option (unit * state)) : Prop :=
  ∃ out h' cs', r = Some ((), State h' cs') ∧ clist h' head out ∧ sorts l out ∧
    (∀ y, y ∉ head :: l → h' !! y = h !! y) ∧ ordered_calls l cs'.

Lemma list_sort_short fuel head l h : (length l ≤ 1)%nat → clist h head l →
  sorted_list head l h (list_sort fuel head (State h [])).
Proof.
  intros Hl [Hd HN]. assert (∃ n, h !! head = Some n ∧ next n = prev n) as (n & Hn & Enp).
  { destruct l as [|x [|y l]]; simpl in Hl; [| |lia]; simpl in Hd; unfold nx, pv in Hd;
      destruct (h !! head) as [n|]; simpl in Hd; [|naive_solver| |naive_solver];
      exists n; naive_solver congruence. }
  exists l, h, []. split_and!; [|done| |done|constructor].
  - unfold list_sort. rewrite (bind_run _ _ _ _ _ (node_run h [] head n Hn)).
    by rewrite bool_decide_true.
  - split_and!; [|done|done]. destruct l as [|x [|y l]]; [constructor|by repeat constructor|].
    simpl in Hl. lia.
Qed.

Lemma list_sort_long fuel head l h :
  (2 ≤ length l)%nat → (length l < fuel)%nat → Z.of_nat (length l) < 2 ^ 64 → clist h head l →
  sorted_list head l h (list_sort fuel head (State h [])).
Proof.
  intros H2 Hf Hz [Hd HN]. destruct l as [|x l]; [simpl in H2; lia|].
  destruct l as [|e l _] using rev_ind; [simpl in H2; lia|].
  replace ((x :: l ++ [e]) ++ [head]) with ((x :: l) ++ e :: [head]) in Hd
    by (simpl; by rewrite <-app_assoc).
  apply dseg_app in Hd as [Hd (Hne & Hph & _)]. destruct Hd as (Hnh & Hpx & Hd).
  apply fmap_Some in Hne as (ne & Hne & Ene). apply fmap_Some in Hnh as (nh & Hnh & Enh).
  unfold pv in Hph. rewrite Hnh in Hph. injection Hph as Eph.
  apply NoDup_cons in HN as [Hhd HN]. assert (HN' := HN).
  apply NoDup_cons in HN' as [Hxl HN']. apply NoDup_app in HN' as (_ & Hle & _).
  assert (x ≠ e) as Hxe by (intros ->; set_solver).
  unfold list_sort. rewrite (bind_run _ _ _ _ _ (node_run h [] head nh Hnh)).
  rewrite bool_decide_false by (rewrite <-Enh, Eph; congruence). rewrite <-Enh, Eph.
  rewrite (bind_run _ _ _ x (State h [])) by done. rewrite (bind_run _ _ _ e (State h [])) by done.
  rewrite (bind_run _ _ _ _ _ (set_next_run h [] e ne None Hne)).
  set (h1 := <[e := ListHead None (prev ne)]> h).
  destruct (rounds_spec fuel x (l ++ [e]) h1 []) as
    (a & la & b & lb & sa & sb & h2 & cs & E & Ha & Hb & HSa & HSb & Es & HE & HC); try done.
  { by destruct l. }
  { simpl in Hz. lia. }
  { apply dseg_sll; [|unfold nx, h1; by rewrite lookup_insert_eq].
    eapply (dseg_eq h); [| |done]; [|intros y _; by apply pv_set_next].
    intros y Hy. unfold nx, h1. rewrite lookup_insert_ne; [done|]. intros <-.
    apply elem_of_cons in Hy as [->|Hy]; [done|]. apply (Hle e Hy). left. }
  rewrite (bind_run _ _ _ _ _ E). simpl app in *.
  assert ((a :: la) ++ b :: lb ≡ₚ x :: l ++ [e]) as Hpm.
  { rewrite Es. destruct HSa as (_ & -> & _), HSb as (_ & -> & _). done. }
  assert (∀ y, y ∉ x :: l ++ [e] → h2 !! y = h !! y) as HE2.
  { intros y Hy. rewrite HE by done. apply lookup_insert_ne. clear -Hy. set_solver. }
  destruct (merge_final_spec fuel head a la b lb h2 cs) as
    (h3 & cs1 & cs2 & E3 & Hc & HE3 & HC1 & HC2); try done.
  { apply Permutation_length in Hpm. rewrite length_app in Hpm. simpl in Hpm, Hf. lia. }
  { constructor; by rewrite Hpm. }
  { by rewrite HE2, Hnh. }
  exists (list_merge le (a :: la) (b :: lb)), h3, (cs ++ cs1 ++ cs2). split_and!; try done.
  - rewrite Es. by apply sorts_merge.
  - intros y [Hy1 Hy2]%not_elem_of_cons. rewrite HE3; [by apply HE2|].
    apply not_elem_of_cons. by rewrite Hpm.
  - apply Forall_app; split; [done|]. apply Forall_app; split.
    + eapply Forall_impl; [exact HC1|]. intros c [Hc1 Hc2]. right. rewrite Es. exists sa, sb.
      destruct HSa as (_ & HSa & _), HSb as (_ & HSb & _). rewrite HSa in Hc1. by rewrite HSb in Hc2.
    + eapply Forall_impl; [exact HC2|]. by left.
Qed.

End sort.

(** C13: For every comparison that is total and transitive, [list_sort] turns the circular
    list [l] behind [head] into the circular list [out], with all [next] and [prev]
    links restored: [out] holds the nodes of [l], it is sorted, and nodes that compare
    equal keep their order.  Nothing outside the list is written.  As the interface
    promises, every call of the comparison passes first the element that came first
    in the input (or, to give the caller a chance to reschedule, one element twice). *)
Theorem list_sort_sorts cmp fuel head l h :
  (∀ a b, cmp a b ≤ 0 ∨ cmp b a ≤ 0) →
  (∀ a b c, cmp a b ≤ 0 → cmp b c ≤ 0 → cmp a c ≤ 0) →
  clist h head l → zlen l < 2 ^ 64 → (length l < fuel)%nat →
  ∃ out h' calls', list_sort cmp fuel head (State h []) = Some ((), State h' calls') ∧
    clist h' head out ∧ out ≡ₚ l ∧ Sorted (λ a b, cmp a b ≤ 0) out ∧
    (∀ x, filter (eqv cmp x) out = filter (eqv cmp x) l) ∧
    (∀ y, y ∉ head :: l → h' !! y = h !! y) ∧
    Forall (λ c, c.1 = c.2 ∨ before l c.1 c.2) calls'.
Proof.
  intros Htot Htr Hc Hz Hf.
  assert (Total (le cmp)) as Ht by exact Htot. assert (Transitive (le cmp)) as Hr by exact Htr.
  assert (sorted_list cmp head l h (list_sort cmp fuel head (State h []))) as
    (out & h' & cs & E & Hc' & (HS & HP & HF) & HE & HC).
  { destruct (decide (length l ≤ 1)%nat).
    - by apply list_sort_short.
    - apply list_sort_long; [done|done|lia|done|done|done]. }
  exists out, h', cs. split_and!; done.
Qed.

(** Five nodes behind node 1; nodes 2 and 4 have equal keys. *)
Definition ex_key (p : loc) : Z := nth (Pos.to_nat p) [0; 0; 5; 1; 5; 3; 2] 0.
Definition ex_heap : gmap loc list_head :=
  list_to_map [(1, ListHead (Some 2) (Some 6)); (2, ListHead (Some 3) (Some 1));
    (3, ListHead (Some 4) (Some 2)); (4, ListHead (Some 5) (Some 3));
    (5, ListHead (Some 6) (Some 4)); (6, ListHead (Some 1) (Some 5))]%positive.

Lemma list_sort_sorts_witness :
  ∃ out h' calls', list_sort (λ a b, ex_key a - ex_key b) 6 1 (State ex_heap []) =
      Some ((), State h' calls') ∧ clist h' 1 out ∧ out ≡ₚ [2; 3; 4; 5; 6]%positive.
Proof.
  destruct (list_sort_sorts (λ a b, ex_key a - ex_key b) 6 1 [2; 3; 4; 5; 6]%positive ex_heap)
    as (out & h' & cs & E & Hc & Hp & _).
  - lia.
  - lia.
  - split; [by repeat split|vm_decide].
  - done.
  - simpl; lia.
  - exists out, h', cs. exact (conj E (conj Hc Hp)).
Defined.

Example list_sort_run :
  match list_sort (λ a b, ex_key a - ex_key b) 6 1 (State ex_heap []) with
  | Some (_, s) => bool_decide (omap (λ p, mem s !! p ≫= next) [1; 3; 6; 5; 2; 4] =
      [3; 6; 5; 2; 4; 1])%positive
  | None => false
  end = true.
Proof. vm_compute. reflexivity. Qed.

End KListSort.
