(* ===== verification/KFifo.v ===== *)
(** * The kernel FIFO, [lib/kfifo.c]

    A ring of [mask + 1] elements of [esize] bytes.  [in] and [out] count the elements
    that went in and out, modulo [2 ^ 32]; they are reduced by [mask] only when the
    ring is accessed.  With a record size the ring holds bytes, and each record is
    preceded by its length in one or two bytes.

    All fields are [unsigned int]; the arithmetic of the code on them wraps at 32
    bits.  An access outside the ring or outside the caller's buffer is [None].

    What an instance stands for is the queue of its bytes, [contents], and for records
    the queue of records.  The theorems show that every operation is the one of the
    queue, across the wrap of the ring and of the counters. *)
From stdpp Require Import base numbers sets list.
From S2P Require Import Prelude KString.

(** Powers of two, from [linux/log2.h], which works on an [unsigned long]. *)
Class Log2 := {
  is_power_of_2 : Z → bool;
  roundup_pow_of_two : Z → Z;
  rounddown_pow_of_two : Z → Z;
  is_power_of_2_spec n : (0 ≤ n)%Z → is_power_of_2 n = true ↔ ∃ k, (0 ≤ k)%Z ∧ n = (2 ^ k)%Z;
  roundup_spec n : (0 < n < 2 ^ 32)%Z →
    ∃ k, (0 ≤ k)%Z ∧ roundup_pow_of_two n = (2 ^ k)%Z ∧ (2 ^ k < 2 * n)%Z ∧ (n ≤ 2 ^ k)%Z;
  rounddown_spec n : (0 < n < 2 ^ 32)%Z →
    ∃ k, (0 ≤ k)%Z ∧ rounddown_pow_of_two n = (2 ^ k)%Z ∧ (2 ^ k ≤ n < 2 * 2 ^ k)%Z;
}.

(** Copies between the kernel and a user process.  A copy may stop early; it gives the
    number of bytes that were not copied.  The kernel side of a copy from the user is
    filled up. *)
Class UserMem := {
  umem : Z → nat → bytes;
  copy_from_user : Z → nat → bytes * nat;
  copy_to_user : Z → bytes → nat;
  copy_from_user_spec a n b r : copy_from_user a n = (b, r) →
    length b = n ∧ (r ≤ n)%nat ∧ take (n - r) b = umem a (n - r);
  copy_to_user_le a b : (copy_to_user a b ≤ length b)%nat;
  umem_length a n : length (umem a n) = n;
  umem_app a n m : umem a (n + m) = umem a n ++ umem (a + Z.of_nat n) m;
}.

Module KFifo.
Local Open Scope Z_scope.

Record kfifo := Kfifo { in_ : Z; out_ : Z; mask : Z; esize : Z; data : option bytes }.

Definition EFAULT : Z := 14.
Definition ENOMEM : Z := 12.

Definition set_in (f : kfifo) (v : Z) : kfifo :=
  Kfifo (w32 v) (out_ f) (mask f) (esize f) (data f).
Definition set_out (f : kfifo) (v : Z) : kfifo :=
  Kfifo (in_ f) (w32 v) (mask f) (esize f) (data f).
Definition set_data (f : kfifo) (d : bytes) : kfifo :=
  Kfifo (in_ f) (out_ f) (mask f) (esize f) (Some d).

(** ** Memory *)

Definition read_at (d : bytes) (off n : nat) : option bytes :=
  if decide (off + n ≤ length d)%nat then Some (take n (drop off d)) else None.
Definition write_at (d : bytes) (off : nat) (s : bytes) : option bytes :=
  if decide (off + length s ≤ length d)%nat then
    Some (take off d ++ s ++ drop (off + length s) d)
  else None.

(** [memcpy(d + off, s + soff, n)] *)
Definition memcpy_at (d : bytes) (off : nat) (s : bytes) (soff n : nat) : option bytes :=
  b ← read_at s soff n; write_at d off b.

(** ** Setting up *)

Definition kfifo_unused (f : kfifo) : Z := w32 (w32 (mask f + 1) - w32 (in_ f - out_ f)).

Section setup.
Context `{Log2}.

Definition __kfifo_alloc (kmalloc_array : Z → Z → option bytes) (size esz : Z) : Z * kfifo :=
  let size := w32 (roundup_pow_of_two size) in
  let esz32 := w32 esz in
  if size <? 2 then (- KString.EINVAL, Kfifo 0 0 0 esz32 None)
  else
    match kmalloc_array esz size with
    | None => (- ENOMEM, Kfifo 0 0 0 esz32 None)
    | Some d => (0, Kfifo 0 0 (size - 1) esz32 (Some d))
    end.

Definition __kfifo_free (f : kfifo) : kfifo := Kfifo 0 0 0 0 None.

(** [None] is the division by zero. *)
Definition __kfifo_init (buffer : bytes) (size esz : Z) : option (Z * kfifo) :=
  if esz =? 0 then None
  else
    let size := size / esz in
    let size := if is_power_of_2 size then size else w32 (rounddown_pow_of_two size) in
    let f := Kfifo 0 0 0 (w32 esz) (Some buffer) in
    if size <? 2 then Some (- KString.EINVAL, f)
    else Some (0, Kfifo 0 0 (size - 1) (w32 esz) (Some buffer)).

End setup.

(** ** Bytes in and out of the ring *)

(** The two pieces of an access: the offset, the length in bytes, and how much of it
    lies before the end of the ring. *)
Definition pieces (f : kfifo) (len off : Z) : Z * Z * Z :=
  let size := w32 (mask f + 1) in
  let off := Z.land off (mask f) in
  let '(off, size, len) :=
    if negb (esize f =? 1) then
      (w32 (off * esize f), w32 (size * esize f), w32 (len * esize f))
    else (off, size, len) in
  (off, len, Z.min len (w32 (size - off))).

Definition kfifo_copy_in (f : kfifo) (src : bytes) (len off : Z) : option kfifo :=
  let '(off, len, l) := pieces f len off in
  d ← data f;
  d ← memcpy_at d (Z.to_nat off) src 0 (Z.to_nat l);
  d ← memcpy_at d 0 src (Z.to_nat l) (Z.to_nat (w32 (len - l)));
  Some (set_data f d).

Definition __kfifo_in (f : kfifo) (buf : bytes) (len : Z) : option (Z * kfifo) :=
  let l := kfifo_unused f in
  let len := if l <? len then l else len in
  f ← kfifo_copy_in f buf len (in_ f);
  Some (len, set_in f (in_ f + len)).

(** The bytes that are copied to [dst], from its start. *)
Definition kfifo_copy_out (f : kfifo) (len off : Z) : option bytes :=
  let '(off, len, l) := pieces f len off in
  d ← data f;
  b1 ← read_at d (Z.to_nat off) (Z.to_nat l);
  b2 ← read_at d 0 (Z.to_nat (w32 (len - l)));
  Some (b1 ++ b2).

Definition __kfifo_out_peek (f : kfifo) (len : Z) : option (Z * bytes) :=
  let l := w32 (in_ f - out_ f) in
  let len := if l <? len then l else len in
  b ← kfifo_copy_out f len (out_ f);
  Some (len, b).

Definition __kfifo_out (f : kfifo) (len : Z) : option (Z * bytes * kfifo) :=
  r ← __kfifo_out_peek f len;
  let '(len, b) := (r : Z * bytes) in
  Some (len, b, set_out f (out_ f + len)).

(** ** User space *)

Section user.
Context `{UserMem}.

(** [DIV_ROUND_UP] *)
Definition div_round_up (n d : Z) : Z := (n + d - 1) / d.

(** The number of elements not copied, and [*copied]. *)
Definition kfifo_copy_from_user (f : kfifo) (from : Z) (len off : Z) :
    option (Z * Z * kfifo) :=
  let '(off, len, l) := pieces f len off in
  d ← data f;
  let '(b, r) := copy_from_user from (Z.to_nat l) in
  d ← write_at d (Z.to_nat off) b;
  let ret := Z.of_nat r in
  if negb (ret =? 0) then
    let ret := div_round_up (ret + len - l) (esize f) in
    Some (ret, w32 (len - ret * esize f), set_data f d)
  else
    let '(b, r) := copy_from_user (from + l) (Z.to_nat (w32 (len - l))) in
    d ← write_at d 0 b;
    let ret := Z.of_nat r in
    let ret := if negb (ret =? 0) then div_round_up ret (esize f) else ret in
    Some (ret, w32 (len - ret * esize f), set_data f d).

(** The result, [*copied], and the fifo.  [len] is an [unsigned long]. *)
Definition __kfifo_from_user (f : kfifo) (from len : Z) : option (Z * Z * kfifo) :=
  let len := if negb (esize f =? 1) then len / esize f else len in
  let l := kfifo_unused f in
  let len := if l <? len then l else len in
  r ← kfifo_copy_from_user f from len (in_ f);
  let '(ret, copied, f) := (r : Z * Z * kfifo) in
  let '(len, err) := if negb (ret =? 0) then (len - ret, - EFAULT) else (len, 0) in
  Some (err, copied, set_in f (in_ f + len)).

(** The number of elements not copied, [*copied], and the bytes that reach the user. *)
Definition kfifo_copy_to_user (f : kfifo) (to : Z) (len off : Z) :
    option (Z * Z * bytes) :=
  let '(off, len, l) := pieces f len off in
  d ← data f;
  b1 ← read_at d (Z.to_nat off) (Z.to_nat l);
  let r := copy_to_user to b1 in
  let ret := Z.of_nat r in
  if negb (ret =? 0) then
    let ret := div_round_up (ret + len - l) (esize f) in
    Some (ret, w32 (len - ret * esize f), take (length b1 - r) b1)
  else
    b2 ← read_at d 0 (Z.to_nat (w32 (len - l)));
    let r := copy_to_user (to + l) b2 in
    let ret := Z.of_nat r in
    let ret := if negb (ret =? 0) then div_round_up ret (esize f) else ret in
    Some (ret, w32 (len - ret * esize f), b1 ++ take (length b2 - r) b2).

Definition __kfifo_to_user (f : kfifo) (to len : Z) : option (Z * Z * bytes * kfifo) :=
  let len := if negb (esize f =? 1) then len / esize f else len in
  let l := w32 (in_ f - out_ f) in
  let len := if l <? len then l else len in
  r ← kfifo_copy_to_user f to len (out_ f);
  let '(ret, copied, b) := (r : Z * Z * bytes) in
  let '(len, err) := if negb (ret =? 0) then (len - ret, - EFAULT) else (len, 0) in
  Some (err, copied, b, set_out f (out_ f + len)).

End user.

(** ** Records *)

Definition __kfifo_max_r (len recsize : Z) : Z :=
  let max := w32 (Z.shiftl 1 (Z.shiftl recsize 3) - 1) in
  if max <? len then max else len.

(** [data[i & mask]] *)
Definition peek_byte (f : kfifo) (i : Z) : option Z :=
  d ← data f; d !! Z.to_nat (Z.land (w32 i) (mask f)).

Definition poke_byte (f : kfifo) (i v : Z) : option kfifo :=
  d ← data f;
  d ← KString.store_at d (Z.to_nat (Z.land (w32 i) (mask f))) (w8 v);
  Some (set_data f d).

Definition __kfifo_peek_n (f : kfifo) (recsize : Z) : option Z :=
  l ← peek_byte f (out_ f);
  if negb (recsize - 1 =? 0) then
    h ← peek_byte f (out_ f + 1);
    Some (Z.lor l (Z.shiftl h 8))
  else Some l.

Definition __kfifo_poke_n (f : kfifo) (n recsize : Z) : option kfifo :=
  f ← poke_byte f (in_ f) n;
  if 1 <? recsize then poke_byte f (in_ f + 1) (Z.shiftr n 8) else Some f.

Definition __kfifo_len_r (f : kfifo) (recsize : Z) : option Z := __kfifo_peek_n f recsize.

Definition __kfifo_in_r (f : kfifo) (buf : bytes) (len recsize : Z) : option (Z * kfifo) :=
  if kfifo_unused f <? len + recsize then Some (0, f)
  else
    f ← __kfifo_poke_n f len recsize;
    f ← kfifo_copy_in f buf len (w32 (in_ f + recsize));
    Some (len, set_in f (in_ f + (len + recsize))).

(** The number of bytes copied, the bytes, and [*n], the length of the record. *)
Definition kfifo_out_copy_r (f : kfifo) (len recsize : Z) : option (Z * bytes * Z) :=
  n ← __kfifo_peek_n f recsize;
  let len := if n <? len then n else len in
  b ← kfifo_copy_out f len (w32 (out_ f + recsize));
  Some (len, b, n).

Definition __kfifo_out_peek_r (f : kfifo) (len recsize : Z) : option (Z * bytes) :=
  if in_ f =? out_ f then Some (0, [])
  else
    r ← kfifo_out_copy_r f len recsize;
    let '(len, b, n) := (r : Z * bytes * Z) in
    Some (len, b).

Definition __kfifo_out_r (f : kfifo) (len recsize : Z) : option (Z * bytes * kfifo) :=
  if in_ f =? out_ f then Some (0, [], f)
  else
    r ← kfifo_out_copy_r f len recsize;
    let '(len, b, n) := (r : Z * bytes * Z) in
    Some (len, b, set_out f (out_ f + (n + recsize))).

Definition __kfifo_skip_r (f : kfifo) (recsize : Z) : option kfifo :=
  n ← __kfifo_peek_n f recsize;
  Some (set_out f (out_ f + (n + recsize))).

Section user_r.
Context `{UserMem}.

Definition __kfifo_from_user_r (f : kfifo) (from len recsize : Z) : option (Z * Z * kfifo) :=
  let len := __kfifo_max_r (w32 len) recsize in
  if kfifo_unused f <? len + recsize then Some (0, 0, f)
  else
    f ← __kfifo_poke_n f len recsize;
    r ← kfifo_copy_from_user f from len (w32 (in_ f + recsize));
    let '(ret, copied, f) := (r : Z * Z * kfifo) in
    if negb (ret =? 0) then Some (- EFAULT, 0, f)
    else Some (0, copied, set_in f (in_ f + (len + recsize))).

Definition __kfifo_to_user_r (f : kfifo) (to len recsize : Z) :
    option (Z * Z * bytes * kfifo) :=
  if in_ f =? out_ f then Some (0, 0, [], f)
  else
    n ← __kfifo_peek_n f recsize;
    let len := if n <? len then n else len in
    r ← kfifo_copy_to_user f to len (w32 (out_ f + recsize));
    let '(ret, copied, b) := (r : Z * Z * bytes) in
    if negb (ret =? 0) then Some (- EFAULT, 0, b, f)
    else Some (0, copied, b, set_out f (out_ f + (n + recsize))).

End user_r.

Definition __kfifo_dma_in_finish_r (f : kfifo) (len recsize : Z) : option kfifo :=
  let len := __kfifo_max_r len recsize in
  f ← __kfifo_poke_n f len recsize;
  Some (set_in f (in_ f + (len + recsize))).

Definition __kfifo_dma_out_finish_r (f : kfifo) (recsize : Z) : option kfifo :=
  len ← __kfifo_peek_n f recsize;
  Some (set_out f (out_ f + (len + recsize))).

(** ** Scatter lists *)

(** An entry: the address of a page, a length and an offset in the page. *)
Record sg := Sg { sg_page : Z; sg_length : Z; sg_offset : Z }.

Section sgl.
Context (PAGE_SIZE : Z) (page_to_phys : Z → Z) (data_addr : Z).

(** [virt_to_page] and [offset_in_page]; a page is named by its address. *)
Definition virt_to_page (a : Z) : Z := a - a mod PAGE_SIZE.
Definition offset_in_page (a : Z) : Z := a mod PAGE_SIZE.

(** The loop; [nents] and [avail] are the entries that may still be filled: the number
    the caller gives, and those up to the end of the list.  The entries, in order.
    [None] is also a write behind the end of the list. *)
Fixpoint sgl_loop (fuel : nat) (nents avail : nat) (page off l buf len : Z) :
    option (list sg) :=
  match fuel with
  | O => None
  | S fuel =>
      if (avail =? 0)%nat then None
      else if l + PAGE_SIZE - off <=? len then
        let l := l + PAGE_SIZE in
        let buf := buf + PAGE_SIZE in
        let npage := virt_to_page buf in
        if negb (page_to_phys page =? page_to_phys npage - l) then
          let e := Sg page (l - off) off in
          if (nents =? 1)%nat || (avail =? 1)%nat then Some [e]
          else
            es ← sgl_loop fuel (nents - 1) (avail - 1) npage 0 0 buf (len - (l - off));
            Some (e :: es)
        else sgl_loop fuel nents avail page off l buf len
      else Some [Sg page len off]
  end.

Definition setup_sgl_buf (fuel avail : nat) (buf : Z) (nents : nat) (len : Z) :
    option (list sg) :=
  if (nents =? 0)%nat then Some []
  else if len =? 0 then Some []
  else sgl_loop fuel nents avail (virt_to_page buf) (offset_in_page buf) 0 buf len.

(** The entries for [len] elements from [off] on; their number is the result. *)
Definition setup_sgl (fuel avail : nat) (f : kfifo) (nents : nat) (len off : Z) :
    option (list sg) :=
  let '(off, len, l) := pieces f len off in
  es ← setup_sgl_buf fuel avail (data_addr + off) nents l;
  es' ← setup_sgl_buf fuel (avail - length es) data_addr (nents - length es) (w32 (len - l));
  Some (es ++ es').

Definition __kfifo_dma_in_prepare (fuel avail : nat) (f : kfifo) (nents : nat) (len : Z) :
    option (list sg) :=
  let l := kfifo_unused f in
  let len := if l <? len then l else len in
  setup_sgl fuel avail f nents len (in_ f).

Definition __kfifo_dma_out_prepare (fuel avail : nat) (f : kfifo) (nents : nat) (len : Z) :
    option (list sg) :=
  let l := w32 (in_ f - out_ f) in
  let len := if l <? len then l else len in
  setup_sgl fuel avail f nents len (out_ f).

(** [None] is also [BUG_ON(!nents)]. *)
Definition __kfifo_dma_in_prepare_r (fuel avail : nat) (f : kfifo) (nents : nat)
    (len recsize : Z) : option (list sg) :=
  if (nents =? 0)%nat then None
  else
    let len := __kfifo_max_r len recsize in
    if kfifo_unused f <? len + recsize then Some []
    else setup_sgl fuel avail f nents len (w32 (in_ f + recsize)).

Definition __kfifo_dma_out_prepare_r (fuel avail : nat) (f : kfifo) (nents : nat)
    (len recsize : Z) : option (list sg) :=
  if (nents =? 0)%nat then None
  else
    let len := __kfifo_max_r len recsize in
    if w32 (in_ f - out_ f) <? len + recsize then Some []
    else setup_sgl fuel avail f nents len (w32 (out_ f + recsize)).

(** What the entries address, and what the bytes of a buffer are at: physical addresses. *)
Definition sg_addrs (e : sg) : list Z :=
  seqZ (page_to_phys (sg_page e) + sg_offset e) (sg_length e).
Definition byte_phys (a : Z) : Z := page_to_phys (virt_to_page a) + a mod PAGE_SIZE.

(** The pages from [page] up to the offset [l] are one after the other. *)
Definition contiguous (page l : Z) : Prop :=
  ∀ k, 0 ≤ k → k * PAGE_SIZE ≤ l → page_to_phys (page + k * PAGE_SIZE) = page_to_phys page + k * PAGE_SIZE.

Lemma contiguous_run page l off n : 0 < PAGE_SIZE → page mod PAGE_SIZE = 0 → contiguous page l →
  l mod PAGE_SIZE = 0 → 0 ≤ off → 0 ≤ n → off + n ≤ l + PAGE_SIZE →
  byte_phys <$> seqZ (page + off) n = sg_addrs (Sg page n off).
Proof.
  intros HP Hpg HC Hlm Ho Hn Hle. unfold sg_addrs. simpl.
  replace (seqZ (page_to_phys page + off) n) with
    (Z.add (page_to_phys page - page) <$> seqZ (page + off) n)
    by (rewrite fmap_add_seqZ; f_equal; lia).
  apply list_fmap_ext. intros i a Ha. apply lookup_seqZ in Ha as [-> Hi].
  unfold byte_phys, virt_to_page. set (x := off + Z.of_nat i).
  replace (page + off + Z.of_nat i) with (page + x) by lia.
  assert ((page + x) mod PAGE_SIZE = x mod PAGE_SIZE) as ->.
  { rewrite <-Z.add_mod_idemp_l, Hpg by lia. done. }
  pose proof (Z.div_mod x PAGE_SIZE ltac:(lia)) as Ex.
  replace (page + x - x mod PAGE_SIZE) with (page + x / PAGE_SIZE * PAGE_SIZE) by lia.
  rewrite HC; [lia|apply Z.div_pos; lia|].
  pose proof (Z.div_mod l PAGE_SIZE ltac:(lia)) as El. rewrite Hlm in El.
  assert (x / PAGE_SIZE < l / PAGE_SIZE + 1) by (apply Z.div_lt_upper_bound; lia). nia.
Qed.

Lemma contiguous_step page l : 0 < PAGE_SIZE → 0 ≤ l → l mod PAGE_SIZE = 0 → contiguous page l →
  page_to_phys page = page_to_phys (page + l + PAGE_SIZE) - (l + PAGE_SIZE) →
  contiguous page (l + PAGE_SIZE).
Proof.
  intros HP Hl Hlm HC E k Hk Hkl. destruct (Z.le_gt_cases (k * PAGE_SIZE) l) as [|Hgt]; [by apply HC|].
  pose proof (Z.div_mod l PAGE_SIZE ltac:(lia)) as El. rewrite Hlm in El.
  assert (k * PAGE_SIZE = l + PAGE_SIZE) as Ek.
  { assert (k = l / PAGE_SIZE + 1) by nia. nia. }
  rewrite Ek, Z.add_assoc. lia.
Qed.

Lemma virt_to_page_next page l o : 0 < PAGE_SIZE → page mod PAGE_SIZE = 0 → l mod PAGE_SIZE = 0 →
  0 ≤ o < PAGE_SIZE → virt_to_page (page + l + o + PAGE_SIZE) = page + l + PAGE_SIZE.
Proof.
  intros HP H1 H2 Ho. unfold virt_to_page.
  assert ((page + l + o + PAGE_SIZE) mod PAGE_SIZE = o) as ->; [|lia].
  symmetry. apply (Z.mod_unique_pos _ _ (page / PAGE_SIZE + l / PAGE_SIZE + 1)); [done|].
  pose proof (Z.div_mod page PAGE_SIZE ltac:(lia)). pose proof (Z.div_mod l PAGE_SIZE ltac:(lia)). lia.
Qed.

Lemma add_page_mod a : 0 < PAGE_SIZE → a mod PAGE_SIZE = 0 → (a + PAGE_SIZE) mod PAGE_SIZE = 0.
Proof.
  intros HP Ha. replace (a + PAGE_SIZE) with (a + 1 * PAGE_SIZE) by lia. by rewrite Z.mod_add by lia.
Qed.

(** The entries [es] address a prefix of the [len] bytes at [a], all of them when the
    entries do not run out. *)
Definition sg_covers (nents avail : nat) (a len : Z) (es : list sg) : Prop :=
  (length es ≤ nents)%nat ∧ (length es ≤ avail)%nat ∧
  (∃ k, concat (sg_addrs <$> es) = take k (byte_phys <$> seqZ a len)) ∧
  ((length es < nents)%nat → (length es < avail)%nat →
     concat (sg_addrs <$> es) = byte_phys <$> seqZ a len).

Lemma seqZ_split a n m : 0 ≤ n ≤ m → seqZ a m = seqZ a n ++ seqZ (a + n) (m - n).
Proof. intros Hn. replace m with (n + (m - n)) at 1 by lia. rewrite seqZ_app by lia. done. Qed.

Lemma sg_covers_cons nents avail a n m e es :
  0 ≤ n ≤ m → (1 < nents)%nat → (1 < avail)%nat → sg_addrs e = byte_phys <$> seqZ a n →
  sg_covers (nents - 1) (avail - 1) (a + n) (m - n) es → sg_covers nents avail a m (e :: es).
Proof.
  intros Hn H1 H2 He (L1 & L2 & (k & Hk) & Hall). unfold sg_covers.
  rewrite (seqZ_split a n m) by done. rewrite fmap_app, fmap_cons. cbn [concat length]. rewrite He. split_and!; [lia|lia| |].
  - exists (length (byte_phys <$> seqZ a n) + k)%nat. by rewrite take_app_add, Hk.
  - intros. rewrite Hall by lia. done.
Qed.

Lemma sg_covers_one nents avail a n m e :
  0 ≤ n ≤ m → (1 ≤ nents)%nat → (1 ≤ avail)%nat → sg_addrs e = byte_phys <$> seqZ a n →
  (n = m ∨ nents = 1%nat ∨ avail = 1%nat) → sg_covers nents avail a m [e].
Proof.
  intros Hn H1 H2 He Hc. unfold sg_covers. rewrite fmap_cons. simpl. rewrite app_nil_r, He.
  split_and!; [lia|lia| |].
  - exists (length (byte_phys <$> seqZ a n)). rewrite (seqZ_split a n m), fmap_app by done.
    by rewrite take_app_length.
  - intros. destruct Hc as [->|Hc]; [done|lia].
Qed.

Lemma sgl_loop_spec fuel nents avail page off l o len :
  0 < PAGE_SIZE → page mod PAGE_SIZE = 0 → l mod PAGE_SIZE = 0 → contiguous page l →
  0 ≤ off < PAGE_SIZE → 0 ≤ o < PAGE_SIZE → 0 ≤ l → 0 ≤ len → (1 ≤ nents)%nat → (1 ≤ avail)%nat →
  Z.max 0 ((off + len - l) / PAGE_SIZE) < Z.of_nat fuel →
  ∃ es, sgl_loop fuel nents avail page off l (page + l + o) len = Some es ∧
    sg_covers nents avail (page + off) len es.
Proof.
  intros HP. revert nents avail page off l len. induction fuel as [|fuel IH];
    intros nents avail page off l len Hpg Hlm HC Ho Hoo Hl Hlen Hn Ha Hf; [lia|].
  cbn [sgl_loop]. rewrite (proj2 (Nat.eqb_neq avail 0)) by lia.
  destruct (Z.leb_spec (l + PAGE_SIZE - off) len) as [Hc|Hc].
  2: { eexists. split; [done|]. apply (sg_covers_one _ _ _ len); [lia|done|done| |by left].
       symmetry. apply (contiguous_run page l); try done; lia. }
  rewrite virt_to_page_next by done.
  assert ((off + len - l) / PAGE_SIZE = (off + len - (l + PAGE_SIZE)) / PAGE_SIZE + 1) as Hdiv.
  { rewrite <-Z.div_add by lia. f_equal. lia. }
  assert (0 ≤ (off + len - (l + PAGE_SIZE)) / PAGE_SIZE) by (apply Z.div_pos; lia).
  assert (sg_addrs (Sg page (l + PAGE_SIZE - off) off) =
    byte_phys <$> seqZ (page + off) (l + PAGE_SIZE - off)) as He
    by (symmetry; apply (contiguous_run page l); try done; lia).
  replace (page + l + o + PAGE_SIZE) with (page + (l + PAGE_SIZE) + o) by lia.
  destruct (Z.eqb_spec (page_to_phys page) (page_to_phys (page + l + PAGE_SIZE) - (l + PAGE_SIZE)))
    as [E|E]; cbn [negb].
  - apply IH; try done; try lia; [by apply add_page_mod|by apply contiguous_step].
  - destruct ((nents =? 1)%nat || (avail =? 1)%nat) eqn:Eo.
    + eexists. split; [done|]. apply (sg_covers_one _ _ _ (l + PAGE_SIZE - off)); try done; [lia|].
      right. apply orb_prop in Eo as [->%Nat.eqb_eq| ->%Nat.eqb_eq]; auto.
    + apply orb_false_elim in Eo as [E1%Nat.eqb_neq E2%Nat.eqb_neq].
      destruct (IH (nents - 1)%nat (avail - 1)%nat (page + l + PAGE_SIZE) 0 0
        (len - (l + PAGE_SIZE - off))) as (es & Es & Hcov); try done; try lia.
      * apply add_page_mod; [done|]. by rewrite Z.add_mod, Hpg, Hlm, Z.mod_0_l by lia.
      * intros k Hk Hk0. assert (k = 0) as -> by nia. by rewrite Z.mul_0_l, !Z.add_0_r.
      * replace (0 + (len - (l + PAGE_SIZE - off)) - 0) with (off + len - (l + PAGE_SIZE)) by lia. lia.
      * rewrite Z.add_0_r in Es. replace (page + (l + PAGE_SIZE) + o) with (page + l + PAGE_SIZE + o) by lia.
        rewrite Es. cbn [mbind option_bind]. eexists. split; [done|].
        apply (sg_covers_cons _ _ _ (l + PAGE_SIZE - off)); try done; try lia.
        rewrite Z.add_0_r in Hcov. by replace (page + off + (l + PAGE_SIZE - off)) with (page + l + PAGE_SIZE) by lia.
Qed.

End sgl.

(** ** The ring as a list *)

(** The bytes at the positions [start], [start + 1], ..., modulo [N]. *)
Definition ring (d : bytes) (N start len : nat) : bytes :=
  (λ j, d !!! ((start + j) mod N)%nat) <$> seq 0 len.

Lemma ring_length d N s n : length (ring d N s n) = n.
Proof. unfold ring. by rewrite length_fmap, length_seq. Qed.

Lemma ring_app d N s a b : ring d N s (a + b) = ring d N s a ++ ring d N (s + a) b.
Proof.
  unfold ring. rewrite seq_app, fmap_app. f_equal.
  replace (seq (0 + a) b) with (Nat.add a <$> seq 0 b) by (rewrite fmap_add_seq; f_equal; lia).
  rewrite <-list_fmap_compose.
  apply list_fmap_ext. intros i j _. simpl. f_equal. f_equal. lia.
Qed.

Lemma ring_take d N s a b : (a ≤ b)%nat → take a (ring d N s b) = ring d N s a.
Proof.
  intros Hab. replace b with (a + (b - a))%nat by lia. rewrite ring_app, take_app_le.
  - by rewrite take_ge by (rewrite ring_length; lia).
  - by rewrite ring_length.
Qed.

Lemma ring_drop d N s a b : (a ≤ b)%nat → drop a (ring d N s b) = ring d N (s + a) (b - a).
Proof.
  intros Hab. replace b with (a + (b - a))%nat at 1 by lia. rewrite ring_app, drop_app_ge.
  - by rewrite ring_length, Nat.sub_diag.
  - by rewrite ring_length.
Qed.

Lemma ring_mod d N s s' n : N ≠ 0%nat → (s mod N = s' mod N)%nat → ring d N s n = ring d N s' n.
Proof.
  intros HN E. apply list_fmap_ext. intros i j _. f_equal.
  by rewrite <-(Nat.Div0.add_mod_idemp_l s), E, Nat.Div0.add_mod_idemp_l.
Qed.

Lemma ring_eq d d' N s n :
  (∀ j, (j < n)%nat → d' !!! ((s + j) mod N)%nat = d !!! ((s + j) mod N)%nat) →
  ring d' N s n = ring d N s n.
Proof.
  intros E. apply list_fmap_ext. intros i j Hj. apply lookup_seq in Hj as [-> Hj]. apply E. lia.
Qed.

Lemma ring_straight d N s n : (s + n ≤ N)%nat → (N ≤ length d)%nat →
  ring d N s n = take n (drop s d).
Proof.
  intros H1 H2. apply list_eq_same_length with n; [rewrite length_take, length_drop; lia|
    by rewrite ring_length|].
  intros i x y Hi Hx Hy. unfold ring in Hx. rewrite list_lookup_fmap, lookup_seq_lt in Hx by done.
  rewrite lookup_take_lt, lookup_drop in Hy by done. simpl in Hx. injection Hx as <-.
  rewrite Nat.mod_small by lia. by apply list_lookup_total_correct.
Qed.

Lemma ring_wrap d N s n : N ≠ 0%nat → ring d N (N + s) n = ring d N s n.
Proof.
  intros HN. apply ring_mod; [done|]. replace (N + s)%nat with (s + 1 * N)%nat by lia.
  by rewrite Nat.Div0.mod_add.
Qed.

(** The two pieces that are read. *)
Lemma ring_pieces d N s n : (s < N)%nat → (n ≤ N)%nat → (N ≤ length d)%nat →
  let l := Nat.min n (N - s) in
  take l (drop s d) ++ take (n - l) d = ring d N s n.
Proof.
  intros Hs Hn Hd l. replace n with (l + (n - l))%nat at 2 by (unfold l; lia).
  rewrite ring_app, (ring_straight d N s) by (unfold l; lia). f_equal.
  destruct (decide (n - l = 0)%nat) as [->|]; [done|].
  replace (s + l)%nat with (N + 0)%nat by (unfold l in *; lia).
  rewrite ring_wrap by lia. rewrite ring_straight by (unfold l in *; lia). done.
Qed.

(** The two pieces that are written. *)
Definition ring_put (d : bytes) (N s : nat) (w : bytes) : bytes :=
  let l := Nat.min (length w) (N - s) in
  let d1 := take s d ++ take l w ++ drop (s + l) d in
  drop l w ++ drop (length w - l) d1.

Lemma ring_put_length d N s w : (s < N)%nat → (length w ≤ N)%nat → (N ≤ length d)%nat →
  length (ring_put d N s w) = length d.
Proof.
  intros. unfold ring_put. rewrite !length_app, !length_drop, !length_app, length_take, length_take,
    length_drop. lia.
Qed.

(** The distance from [s] to the position [p], forward around the ring. *)
Definition dist (N s p : nat) : nat := if decide (s ≤ p)%nat then (p - s)%nat else (p + N - s)%nat.

Lemma ring_put_lookup d N s w p :
  (s < N)%nat → (length w ≤ N)%nat → (N ≤ length d)%nat → (p < N)%nat →
  ring_put d N s w !!! p =
  if decide (dist N s p < length w)%nat then w !!! dist N s p else d !!! p.
Proof.
  intros Hs Hw Hd Hp. unfold ring_put, dist. set (l := Nat.min (length w) (N - s)).
  destruct (decide (p < length w - l)%nat) as [H1|H1].
  { rewrite lookup_total_app_l by (rewrite length_drop; lia). rewrite lookup_total_drop.
    unfold l in *. repeat case_decide; try lia; f_equal; lia. }
  rewrite lookup_total_app_r by (rewrite length_drop; lia). rewrite length_drop, lookup_total_drop.
  replace (length w - l + (p - (length w - l)))%nat with p by lia.
  destruct (decide (p < s)%nat) as [H2|H2].
  { rewrite lookup_total_app_l by (rewrite length_take; lia). rewrite lookup_total_take by lia.
    unfold l in *. repeat case_decide; done || lia. }
  rewrite lookup_total_app_r by (rewrite length_take; lia). rewrite length_take, Nat.min_l by lia.
  destruct (decide (p - s < l)%nat) as [H3|H3].
  { rewrite lookup_total_app_l by (rewrite length_take; lia). rewrite lookup_total_take by lia.
    unfold l in *. repeat case_decide; done || lia. }
  rewrite lookup_total_app_r by (rewrite length_take; lia).
  rewrite length_take, Nat.min_l by lia. rewrite lookup_total_drop.
  unfold l in *. repeat case_decide; try lia; f_equal; lia.
Qed.

Lemma mod_once N a : (a < 2 * N)%nat → (a mod N = if decide (a < N) then a else a - N)%nat.
Proof.
  intros Ha. case_decide; [by apply Nat.mod_small|].
  replace a with (a - N + 1 * N)%nat at 1 by lia. rewrite Nat.Div0.mod_add. apply Nat.mod_small. lia.
Qed.

Lemma ring_put_read d N s w :
  (s < N)%nat → (length w ≤ N)%nat → (N ≤ length d)%nat → ring (ring_put d N s w) N s (length w) = w.
Proof.
  intros Hs Hw Hd. apply list_eq_same_length with (length w); [done|by rewrite ring_length|].
  intros j x y Hj Hx Hy. unfold ring in Hx. rewrite list_lookup_fmap, lookup_seq_lt in Hx by done.
  simpl in Hx. injection Hx as <-. apply list_lookup_total_correct in Hy as <-.
  assert (((s + j) mod N) < N)%nat by (apply Nat.mod_upper_bound; lia).
  rewrite ring_put_lookup by done.
  assert (dist N s ((s + j) mod N) = j) as ->.
  { rewrite mod_once by lia. unfold dist. repeat case_decide; lia. }
  by rewrite decide_True.
Qed.

Lemma ring_put_rest d N s w n :
  (s < N)%nat → (length w + n ≤ N)%nat → (N ≤ length d)%nat →
  ring (ring_put d N s w) N (s + length w) n = ring d N (s + length w) n.
Proof.
  intros Hs Hw Hd. apply ring_eq. intros j Hj.
  assert (((s + length w + j) mod N) < N)%nat by (apply Nat.mod_upper_bound; lia).
  rewrite ring_put_lookup by (done || lia). rewrite decide_False; [done|].
  rewrite mod_once by lia. unfold dist. repeat case_decide; lia.
Qed.

(** Appending to a window of the ring. *)
Lemma ring_put_append d N s old w :
  N ≠ 0%nat → (old + length w ≤ N)%nat → (N ≤ length d)%nat →
  ring (ring_put d N ((s + old) mod N) w) N s (old + length w) = ring d N s old ++ w.
Proof.
  intros HN Ho Hd. assert (((s + old) mod N) < N)%nat by (apply Nat.mod_upper_bound; lia).
  rewrite ring_app. f_equal.
  - pose proof (ring_put_rest d N ((s + old) mod N) w (N - length w)) as E.
    set (k := (N - length w - old)%nat).
    assert (∀ d', ring d' N s old = drop k (ring d' N ((s + old) mod N + length w) (N - length w))) as Hd'.
    { intros d'. rewrite ring_drop by lia. replace (N - length w - k)%nat with old by lia.
      apply ring_mod; [done|]. replace ((s + old) mod N + length w + k)%nat
        with ((s + old) mod N + (N - old))%nat by lia.
      rewrite Nat.Div0.add_mod_idemp_l. replace (s + old + (N - old))%nat with (s + 1 * N)%nat by lia.
      by rewrite Nat.Div0.mod_add. }
    rewrite !Hd', E by lia. done.
  - rewrite (ring_mod _ _ (s + old) ((s + old) mod N)) by (done || by rewrite Nat.Div0.mod_mod).
    apply ring_put_read; lia.
Qed.

(** ** The invariant and the queue *)

Record wf (f : kfifo) : Prop := {
  wf_mask : ∃ k, 0 ≤ k < 32 ∧ mask f + 1 = 2 ^ k;
  wf_esize : 0 < esize f;
  wf_size : (mask f + 1) * esize f < 2 ^ 32;
  wf_in : 0 ≤ in_ f < 2 ^ 32;
  wf_out : 0 ≤ out_ f < 2 ^ 32;
  wf_used : w32 (in_ f - out_ f) ≤ mask f + 1;
  wf_data : ∃ d, data f = Some d ∧ (mask f + 1) * esize f ≤ zlen d;
}.

(** The number of elements in the fifo. *)
Definition used (f : kfifo) : Z := w32 (in_ f - out_ f).

(** The bytes of the ring, and the position of an element. *)
Definition cap (f : kfifo) : nat := Z.to_nat ((mask f + 1) * esize f).
Definition pos (f : kfifo) (i : Z) : nat := Z.to_nat (Z.land i (mask f) * esize f).

(** The bytes in the fifo, in the order they will come out. *)
Definition contents (f : kfifo) : bytes :=
  match data f with
  | Some d => ring d (cap f) (pos f (out_ f)) (Z.to_nat (used f * esize f))
  | None => []
  end.

Lemma wf_mask_pos f : wf f → 0 < mask f + 1.
Proof. intros [(k & Hk & E) _ _ _ _ _ _]. rewrite E. apply Z.pow_pos_nonneg; lia. Qed.

Lemma wf_mask_lt f : wf f → mask f + 1 < 2 ^ 32.
Proof. intros W. destruct W as [_ H1 H2 _ _ _ _]. nia. Qed.

Lemma land_mask f i : wf f → Z.land i (mask f) = i mod (mask f + 1).
Proof.
  intros [(k & Hk & E) _ _ _ _ _ _].
  replace (mask f) with (Z.ones k) by (rewrite Z.ones_equiv; lia).
  rewrite Z.land_ones by lia. rewrite Z.ones_equiv. f_equal. lia.
Qed.

Lemma w32_mod f i : wf f → w32 i mod (mask f + 1) = i mod (mask f + 1).
Proof.
  intros [(k & Hk & E) _ _ _ _ _ _]. rewrite E. unfold w32, wrap.
  replace (2 ^ 32) with (2 ^ k * 2 ^ (32 - k)) by (rewrite <-Z.pow_add_r by lia; f_equal; lia).
  rewrite Z.rem_mul_r by (apply Z.pow_nonzero || apply Z.pow_pos_nonneg; lia).
  rewrite (Z.mul_comm (2 ^ k)), Z.mod_add by (apply Z.pow_nonzero; lia).
  apply Z.mod_mod. apply Z.pow_nonzero; lia.
Qed.

Lemma cap_pos f : wf f → (0 < cap f)%nat.
Proof. intros W. pose proof (wf_mask_pos f W). pose proof (wf_esize f W). unfold cap. nia. Qed.

Lemma pos_lt f i : wf f → (pos f i < cap f)%nat.
Proof.
  intros W. pose proof (wf_mask_pos f W) as Hm. pose proof (wf_esize f W).
  unfold pos, cap. rewrite land_mask by done. pose proof (Z.mod_pos_bound i (mask f + 1) Hm). nia.
Qed.

(** Advancing a counter by [n] advances its position by [n] elements. *)
Lemma pos_add f i n : wf f → 0 ≤ i → 0 ≤ n →
  pos f (w32 (i + n)) = ((pos f i + Z.to_nat (n * esize f)) mod cap f)%nat.
Proof.
  intros W Hi Hn. pose proof (wf_mask_pos f W) as Hm. pose proof (wf_esize f W) as He.
  unfold pos, cap. rewrite !land_mask, w32_mod by done.
  pose proof (Z.mod_pos_bound i (mask f + 1) Hm).
  rewrite <-Z2Nat.inj_add, <-Z2Nat.inj_mod by nia. f_equal.
  rewrite <-Z.mul_add_distr_r, Z.mul_mod_distr_r by lia. by rewrite Z.add_mod_idemp_l by lia.
Qed.

Lemma used_range f : wf f → 0 ≤ used f ≤ mask f + 1.
Proof. intros W. split; [apply wrap_range; lia|apply (wf_used f W)]. Qed.

Lemma unused_eq f : wf f → kfifo_unused f = mask f + 1 - used f.
Proof.
  intros W. pose proof (used_range f W). pose proof (wf_mask_lt f W). unfold kfifo_unused.
  fold (used f). unfold w32 at 2. rewrite (wrap_small _ (mask f + 1)) by lia.
  apply wrap_small. lia.
Qed.

Lemma contents_length f : wf f → length (contents f) = Z.to_nat (used f * esize f).
Proof. intros W. unfold contents. destruct (wf_data f W) as (d & -> & _). apply ring_length. Qed.

Lemma pieces_spec f len off : wf f → 0 ≤ len ≤ mask f + 1 →
  pieces f len off = (Z.land off (mask f) * esize f, len * esize f,
    Z.min (len * esize f) ((mask f + 1) * esize f - Z.land off (mask f) * esize f)).
Proof.
  intros W Hl. pose proof (wf_mask_pos f W) as Hm. pose proof (wf_esize f W) as He.
  pose proof (wf_size f W) as Hs. pose proof (wf_mask_lt f W).
  assert (0 ≤ Z.land off (mask f) < mask f + 1) as Ho
    by (rewrite land_mask by done; by apply Z.mod_pos_bound).
  unfold pieces. destruct (esize f =? 1) eqn:E1; simpl; bool_to_prop.
  - rewrite E1, !Z.mul_1_r. unfold w32. by rewrite (wrap_small _ (mask f + 1)), wrap_small by lia.
  - unfold w32. rewrite (wrap_small _ (mask f + 1)) by lia.
    rewrite (wrap_small _ ((mask f + 1) * esize f)) by nia. by rewrite !wrap_small by nia.
Qed.

Lemma set_data_wf f d d' : wf f → data f = Some d → length d' = length d → wf (set_data f d').
Proof.
  intros [H1 H2 H3 H4 H5 H6 (d0 & E0 & H7)] E Hl. split; try done. exists d'. split; [done|].
  simplify_eq. unfold zlen in *. simpl. lia.
Qed.

Lemma min_sub_nat a b c : 0 ≤ a → 0 ≤ b → 0 ≤ c → a ≤ b →
  Z.to_nat (Z.min c (b - a)) = Nat.min (Z.to_nat c) (Z.to_nat b - Z.to_nat a).
Proof. lia. Qed.

Lemma read_at_run d off n : (off + n ≤ length d)%nat → read_at d off n = Some (take n (drop off d)).
Proof. intros Hd. unfold read_at. by rewrite decide_True. Qed.

Lemma write_at_run d off s : (off + length s ≤ length d)%nat →
  write_at d off s = Some (take off d ++ s ++ drop (off + length s) d).
Proof. intros Hd. unfold write_at. by rewrite decide_True. Qed.

(** Writing the two pieces [w1] and [w2] of [w]. *)
Lemma ring_put_run d N s w : (s < N)%nat → (length w ≤ N)%nat → (N ≤ length d)%nat →
  let l := Nat.min (length w) (N - s) in
  (d ← write_at d s (take l w); write_at d 0 (drop l w)) = Some (ring_put d N s w).
Proof.
  intros Hs Hw Hd l. assert (length (take l w) = l) as El by (rewrite length_take; unfold l; lia).
  rewrite write_at_run by (rewrite El; unfold l; lia). cbn [mbind option_bind]. rewrite El.
  rewrite write_at_run; [by rewrite length_drop|].
  rewrite !length_app, length_take, El, !length_drop. unfold l. lia.
Qed.

Lemma memcpy_at_run d off src soff n : (soff + n ≤ length src)%nat →
  memcpy_at d off src soff n = write_at d off (take n (drop soff src)).
Proof. intros Hs. unfold memcpy_at. by rewrite read_at_run. Qed.

(** The access of the code to [len] elements at [off], in natural numbers. *)
Lemma pieces_nat f len off : wf f → 0 ≤ len ≤ mask f + 1 →
  ∃ o L, pieces f len off = (o, len * esize f, L) ∧ Z.to_nat o = pos f off ∧ 0 ≤ L ∧
    Z.to_nat L = Nat.min (Z.to_nat (len * esize f)) (cap f - pos f off) ∧
    w32 (len * esize f - L) = len * esize f - L ∧
    Z.to_nat (len * esize f - L) = (Z.to_nat (len * esize f) - Z.to_nat L)%nat ∧
    (Z.to_nat (len * esize f) ≤ cap f)%nat.
Proof.
  intros W Hl. pose proof (wf_esize f W) as He. pose proof (wf_size f W) as Hz.
  pose proof (wf_mask_pos f W) as Hm.
  assert (0 ≤ Z.land off (mask f) < mask f + 1) as Ho
    by (rewrite land_mask by done; by apply Z.mod_pos_bound).
  eexists _, _. split; [by apply pieces_spec|]. unfold cap, pos.
  assert (0 ≤ Z.land off (mask f) * esize f ≤ (mask f + 1) * esize f) by nia.
  assert (0 ≤ len * esize f ≤ (mask f + 1) * esize f) by nia.
  split_and!; try done; try lia. apply wrap_small. lia.
Qed.

(** [kfifo_copy_in] puts the bytes on the ring from the position of [off]. *)
Lemma copy_in_run f d src len off : wf f → data f = Some d → 0 ≤ len ≤ mask f + 1 →
  len * esize f ≤ zlen src →
  kfifo_copy_in f src len off =
  Some (set_data f (ring_put d (cap f) (pos f off) (take (Z.to_nat (len * esize f)) src))).
Proof.
  intros W Ed Hl Hs. pose proof (pos_lt f off W) as Hp.
  destruct (pieces_nat f len off W Hl) as (o & L & E & Eo & HL0 & EL & Ew & ER & Hn).
  destruct (wf_data f W) as (d0 & E0 & Hd). rewrite Ed in E0. injection E0 as <-.
  unfold kfifo_copy_in. rewrite E, Ed, Ew, ER, Eo. unfold zlen in *. unfold cap in *.
  set (n := Z.to_nat (len * esize f)) in *. set (l := Z.to_nat L) in *.
  cbn [mbind option_bind]. rewrite memcpy_at_run by lia. rewrite drop_0.
  assert (length (take n src) = n) as En by (rewrite length_take; lia).
  pose proof (ring_put_run d (Z.to_nat ((mask f + 1) * esize f)) (pos f off) (take n src)) as ER'.
  rewrite En in ER'. specialize (ER' Hp Hn ltac:(lia)). cbn zeta in ER'.
  rewrite <-EL, take_take, Nat.min_l in ER' by lia.
  destruct (write_at d (pos f off) (take l src)) as [d1|]; cbn [mbind option_bind] in *; [|done].
  rewrite memcpy_at_run by lia. rewrite take_drop_commute.
  replace (l + (n - l))%nat with n by lia. by rewrite ER'.
Qed.

Lemma copy_out_run f d len off : wf f → data f = Some d → 0 ≤ len ≤ mask f + 1 →
  kfifo_copy_out f len off = Some (ring d (cap f) (pos f off) (Z.to_nat (len * esize f))).
Proof.
  intros W Ed Hl. pose proof (pos_lt f off W) as Hp.
  destruct (pieces_nat f len off W Hl) as (o & L & E & Eo & HL0 & EL & Ew & ER & Hn).
  destruct (wf_data f W) as (d0 & E0 & Hd). rewrite Ed in E0. injection E0 as <-.
  unfold kfifo_copy_out. rewrite E, Ed, Ew, ER, Eo. unfold zlen in Hd.
  assert (cap f ≤ length d)%nat by (unfold cap; lia).
  cbn [mbind option_bind]. rewrite read_at_run by lia. cbn [mbind option_bind].
  rewrite read_at_run by lia. cbn [mbind option_bind]. rewrite drop_0, EL. f_equal.
  by apply ring_pieces.
Qed.

(** ** The ring behind the counters *)

(** The first [m] elements from [out] on, whether they are in the queue or not. *)
Definition window (f : kfifo) (m : Z) : bytes :=
  match data f with
  | Some d => ring d (cap f) (pos f (out_ f)) (Z.to_nat (m * esize f))
  | None => []
  end.

Lemma contents_window f : contents f = window f (used f).
Proof. done. Qed.

Lemma in_eq f : wf f → in_ f = w32 (out_ f + used f).
Proof.
  intros W. unfold used, w32. rewrite wrap_add_r. replace (out_ f + (in_ f - out_ f)) with (in_ f) by lia.
  symmetry. apply wrap_small. apply W.
Qed.

Lemma w32_assoc a b c : w32 (w32 (a + b) + c) = w32 (a + (b + c)).
Proof. unfold w32. rewrite wrap_add_l. f_equal. lia. Qed.

(** Writing [w] behind the first [m] elements. *)
Lemma window_put f d m n w : wf f → data f = Some d → 0 ≤ m → 0 ≤ n → m + n ≤ mask f + 1 →
  zlen w = n * esize f →
  window (set_data f (ring_put d (cap f) (pos f (w32 (out_ f + m))) w)) (m + n) =
  window f m ++ w.
Proof.
  intros W Ed Hm Hn Hmn Hw. pose proof (wf_esize f W) as He. pose proof (cap_pos f W).
  destruct (wf_data f W) as (d0 & E0 & Hd). rewrite Ed in E0. injection E0 as <-.
  pose proof (wf_out f W). unfold window. rewrite Ed. simpl. unfold zlen in *.
  change (cap (set_data _ _)) with (cap f). change (pos (set_data _ _)) with (pos f).
  rewrite pos_add by (done || lia).
  replace (Z.to_nat ((m + n) * esize f)) with (Z.to_nat (m * esize f) + length w)%nat by nia.
  apply ring_put_append; [lia| |unfold cap; lia]. unfold cap. nia.
Qed.

Lemma set_in_wf f n : wf f → 0 ≤ n → used f + n ≤ mask f + 1 →
  wf (set_in f (in_ f + n)) ∧ used (set_in f (in_ f + n)) = used f + n.
Proof.
  intros W Hn Hu. pose proof (used_range f W). pose proof (wf_mask_lt f W).
  assert (used (set_in f (in_ f + n)) = used f + n) as E.
  { unfold used at 1. simpl. rewrite (in_eq f W) at 1. rewrite w32_assoc. unfold w32, wrap.
    rewrite Zminus_mod_idemp_l.
    replace (out_ f + (used f + n) - out_ f) with (used f + n) by lia. apply Z.mod_small. lia. }
  split; [|done]. destruct W. split; try done; simpl.
  - apply wrap_range. lia.
  - change (used (set_in f (in_ f + n)) ≤ mask f + 1). lia.
Qed.

(** Elements that are behind the queue become part of it. *)
Lemma enqueue f n q : wf f → 0 ≤ n → used f + n ≤ mask f + 1 →
  window f (used f + n) = q →
  wf (set_in f (in_ f + n)) ∧ contents (set_in f (in_ f + n)) = q.
Proof.
  intros W Hn Hu Hw. destruct (set_in_wf f n W Hn Hu) as [W' E']. split; [done|].
  rewrite contents_window, E', <-Hw. done.
Qed.

Lemma dequeue f n : wf f → 0 ≤ n ≤ used f →
  wf (set_out f (out_ f + n)) ∧ used (set_out f (out_ f + n)) = used f - n ∧
  contents (set_out f (out_ f + n)) = drop (Z.to_nat (n * esize f)) (contents f).
Proof.
  intros W Hn. pose proof (used_range f W). pose proof (wf_mask_lt f W).
  pose proof (wf_esize f W). pose proof (wf_out f W). pose proof (cap_pos f W).
  assert (used (set_out f (out_ f + n)) = used f - n) as E.
  { unfold used at 1. simpl. rewrite (in_eq f W). unfold w32, wrap.
    rewrite <-Zminus_mod. replace (out_ f + used f - (out_ f + n)) with (used f - n) by lia.
    apply Z.mod_small. lia. }
  assert (wf (set_out f (out_ f + n))) as W'.
  { destruct W. split; try done; simpl.
    - apply wrap_range. lia.
    - change (used (set_out f (out_ f + n)) ≤ mask f + 1). lia. }
  split_and!; [done|done|]. unfold contents. rewrite E. simpl.
  destruct (data f) as [d|] eqn:Ed; [|by rewrite drop_nil]. change (cap (set_out _ _)) with (cap f).
  change (pos (set_out _ _)) with (pos f). rewrite pos_add by (done || lia).
  rewrite ring_drop by nia. rewrite (ring_mod _ _ (_ mod _) (pos f (out_ f) + Z.to_nat (n * esize f)))
    by (lia || by rewrite Nat.Div0.mod_mod).
  f_equal. nia.
Qed.

(** ** The operations are those of a queue *)

Lemma zlen_take {A} n (l : list A) : 0 ≤ n ≤ zlen l → zlen (take (Z.to_nat n) l) = n.
Proof. unfold zlen. rewrite length_take. lia. Qed.

(** [l > len ? len : l] *)
Lemma clamp_min l len : (if l <? len then l else len) = Z.min l len.
Proof. destruct (Z.ltb_spec l len); lia. Qed.

Lemma kfifo_in_spec f buf len : wf f → 0 ≤ len →
  let n := Z.min (mask f + 1 - used f) len in
  n * esize f ≤ zlen buf →
  ∃ f', __kfifo_in f buf len = Some (n, f') ∧ wf f' ∧ mask f' = mask f ∧ esize f' = esize f ∧
    contents f' = contents f ++ take (Z.to_nat (n * esize f)) buf.
Proof.
  intros W Hl n Hb. destruct (wf_data f W) as (d & Ed & Hd). pose proof (used_range f W).
  pose proof (wf_esize f W).
  unfold __kfifo_in. rewrite unused_eq, clamp_min by done. fold n.
  rewrite (copy_in_run f d) by (done || lia). cbn [mbind option_bind]. rewrite (in_eq f W).
  eexists. split; [done|].
  pose proof (window_put f d (used f) n (take (Z.to_nat (n * esize f)) buf)) as Hw.
  rewrite zlen_take in Hw by nia. specialize (Hw W Ed ltac:(lia) ltac:(lia) ltac:(lia) eq_refl).
  rewrite <-(in_eq f W) in *.
  set (g := set_data f _) in *.
  assert (wf g) as Wg.
  { apply (set_data_wf f d); [done..|]. apply ring_put_length; [by apply pos_lt| |unfold cap, zlen in *; lia].
    rewrite length_take. unfold cap. nia. }
  destruct (enqueue g n (contents f ++ take (Z.to_nat (n * esize f)) buf) Wg) as [W' E'];
    [lia|change (used f + n ≤ mask f + 1); lia|done|].
  by split_and!.
Qed.

Lemma kfifo_out_peek_spec f len : wf f → 0 ≤ len →
  let n := Z.min (used f) len in
  __kfifo_out_peek f len = Some (n, take (Z.to_nat (n * esize f)) (contents f)).
Proof.
  intros W Hl n. destruct (wf_data f W) as (d & Ed & Hd). pose proof (used_range f W).
  pose proof (wf_esize f W). unfold __kfifo_out_peek. fold (used f). rewrite clamp_min. fold n.
  rewrite (copy_out_run f d) by (done || lia). cbn [mbind option_bind]. unfold contents. rewrite Ed.
  rewrite ring_take; [done|nia].
Qed.

Lemma kfifo_out_spec f len : wf f → 0 ≤ len →
  let n := Z.min (used f) len in
  ∃ f', __kfifo_out f len = Some (n, take (Z.to_nat (n * esize f)) (contents f), f') ∧ wf f' ∧
    mask f' = mask f ∧ esize f' = esize f ∧
    contents f' = drop (Z.to_nat (n * esize f)) (contents f).
Proof.
  intros W Hl n. pose proof (used_range f W). unfold __kfifo_out.
  rewrite kfifo_out_peek_spec by done. cbn [mbind option_bind]. fold n.
  destruct (dequeue f n W) as (W' & _ & E'); [lia|]. eexists. by split_and!.
Qed.

(** Sequences of operations, on a fifo and on a queue of bytes: each gives the number of
    elements and the bytes it delivers. *)
Inductive op := In (buf : bytes) (len : Z) | Out (len : Z) | Peek (len : Z).

Definition fifo_step (f : kfifo) (o : op) : option (Z * bytes * kfifo) :=
  match o with
  | In buf len => r ← __kfifo_in f buf len; let '(n, f) := (r : Z * kfifo) in Some (n, [], f)
  | Out len => __kfifo_out f len
  | Peek len => r ← __kfifo_out_peek f len; let '(n, b) := (r : Z * bytes) in Some (n, b, f)
  end.

Fixpoint fifo_run (f : kfifo) (os : list op) : option (list (Z * bytes) * kfifo) :=
  match os with
  | [] => Some ([], f)
  | o :: os =>
      r ← fifo_step f o;
      let '(n, b, f) := (r : Z * bytes * kfifo) in
      r ← fifo_run f os;
      let '(outs, f) := (r : list (Z * bytes) * kfifo) in
      Some ((n, b) :: outs, f)
  end.

(** A queue of at most [size] elements of [esz] bytes. *)
Definition queue_step (size esz : Z) (q : bytes) (o : op) : Z * bytes * bytes :=
  match o with
  | In buf len =>
      let n := Z.min (size - zlen q / esz) len in
      (n, [], q ++ take (Z.to_nat (n * esz)) buf)
  | Out len =>
      let n := Z.min (zlen q / esz) len in
      (n, take (Z.to_nat (n * esz)) q, drop (Z.to_nat (n * esz)) q)
  | Peek len =>
      let n := Z.min (zlen q / esz) len in
      (n, take (Z.to_nat (n * esz)) q, q)
  end.

Fixpoint queue_run (size esz : Z) (q : bytes) (os : list op) : list (Z * bytes) * bytes :=
  match os with
  | [] => ([], q)
  | o :: os =>
      let '(n, b, q) := queue_step size esz q o in
      let '(outs, q) := queue_run size esz q os in
      ((n, b) :: outs, q)
  end.

(** The caller's buffer holds what the caller offers. *)
Definition op_ok (esz : Z) (o : op) : Prop :=
  match o with
  | In buf len => 0 ≤ len ∧ len * esz ≤ zlen buf
  | Out len | Peek len => 0 ≤ len
  end.

Lemma contents_used f : wf f → zlen (contents f) / esize f = used f.
Proof.
  intros W. pose proof (wf_esize f W). pose proof (used_range f W). unfold zlen.
  rewrite contents_length by done. rewrite Z2Nat.id by nia. apply Z.div_mul. lia.
Qed.

Lemma fifo_step_queue f o : wf f → op_ok (esize f) o →
  ∃ n b f', fifo_step f o = Some (n, b, f') ∧ wf f' ∧ mask f' = mask f ∧ esize f' = esize f ∧
    queue_step (mask f + 1) (esize f) (contents f) o = (n, b, contents f').
Proof.
  intros W Ho. pose proof (used_range f W). pose proof (wf_esize f W).
  destruct o as [buf len|len|len]; cbn [fifo_step queue_step op_ok] in *.
  all: rewrite contents_used by done.
  - destruct (kfifo_in_spec f buf len W) as (f' & -> & W' & E1 & E2 & E3); [lia|nia|].
    eexists _, _, f'. split_and!; try done. by rewrite E3.
  - destruct (kfifo_out_spec f len W Ho) as (f' & -> & W' & E1 & E2 & E3).
    eexists _, _, f'. split_and!; try done. by rewrite E3.
  - rewrite kfifo_out_peek_spec by done. by eexists _, _, f.
Qed.

Lemma fifo_run_queue f os : wf f → Forall (op_ok (esize f)) os →
  ∃ outs f', fifo_run f os = Some (outs, f') ∧ wf f' ∧
    queue_run (mask f + 1) (esize f) (contents f) os = (outs, contents f').
Proof.
  intros W Hos. revert f W Hos. induction os as [|o os IH]; intros f W Hos.
  { by exists [], f. }
  apply Forall_cons in Hos as [Ho Hos].
  destruct (fifo_step_queue f o W Ho) as (n & b & f1 & E & W1 & Em & Ee & Eq).
  rewrite <-Ee in Hos. destruct (IH f1 W1 Hos) as (outs & f' & E' & W' & Eq').
  exists ((n, b) :: outs), f'. cbn [fifo_run queue_run]. rewrite E. cbn [mbind option_bind].
  rewrite E'. rewrite Eq, <-Em, <-Ee, Eq'. done.
Qed.

Lemma empty_wf k e d : 0 ≤ k < 32 → 0 < e → 2 ^ k * e < 2 ^ 32 → 2 ^ k * e ≤ zlen d →
  wf (Kfifo 0 0 (2 ^ k - 1) e (Some d)) ∧ contents (Kfifo 0 0 (2 ^ k - 1) e (Some d)) = [].
Proof.
  intros Hk He Hs Hd. assert (0 < 2 ^ k) by (apply Z.pow_pos_nonneg; lia).
  split; [|done]. split; cbn [in_ out_ mask esize data]; rewrite ?Z.sub_add; try lia.
  - by exists k.
  - change (w32 (0 - 0)) with 0. lia.
  - by exists d.
Qed.

Section setup_spec.
Context `{Log2}.

Lemma pow2_log_lt k n : 0 ≤ k → 2 ^ k ≤ n → n < 2 ^ 32 → k < 32.
Proof. intros. apply (Z.pow_lt_mono_r_iff 2); lia. Qed.

Lemma kfifo_init_spec buffer size esz :
  0 < esz → 2 * esz ≤ size < 2 ^ 32 → size ≤ zlen buffer →
  ∃ k f, __kfifo_init buffer size esz = Some (0, f) ∧ wf f ∧ contents f = [] ∧ esize f = esz ∧
    1 ≤ k ∧ mask f + 1 = 2 ^ k ∧ 2 ^ k ≤ size / esz < 2 * 2 ^ k.
Proof.
  intros He Hs Hb. unfold __kfifo_init. rewrite (proj2 (Z.eqb_neq esz 0)) by lia.
  assert (2 ≤ size / esz < 2 ^ 32) as Hq.
  { split; [apply Z.div_le_lower_bound; lia|]. apply Z.div_lt_upper_bound; nia. }
  assert (∃ k, 0 ≤ k ∧ (if is_power_of_2 (size / esz) then size / esz
    else w32 (rounddown_pow_of_two (size / esz))) = 2 ^ k ∧ 2 ^ k ≤ size / esz < 2 * 2 ^ k) as
    (k & Hk & -> & Hr).
  { destruct (is_power_of_2 (size / esz)) eqn:E.
    - apply is_power_of_2_spec in E as (k & Hk & ->); [|lia]. exists k. lia.
    - destruct (rounddown_spec (size / esz)) as (k & Hk & -> & Hr); [lia|]. exists k.
      split_and!; [done| |lia|lia]. apply wrap_small. lia. }
  assert (k < 32) by (eapply pow2_log_lt; [done|apply Hr|lia]).
  assert (2 ^ k * esz ≤ size) by (pose proof (Z.mul_div_le size esz He); nia).
  destruct (Z.eq_dec k 0) as [->|Hk0]; [lia|].
  assert (2 ^ 1 ≤ 2 ^ k) by (apply Z.pow_le_mono_r; lia).
  rewrite (proj2 (Z.ltb_ge (2 ^ k) 2)) by lia.
  assert (w32 esz = esz) as -> by (apply wrap_small; nia).
  destruct (empty_wf k esz buffer) as [W C]; [lia..|].
  eexists k, _. split_and!; try done; simpl; lia.
Qed.

(** The allocator gives the whole array or nothing; an array that does not fit a 32-bit
    size is refused. *)
Lemma kfifo_alloc_spec kmalloc_array size esz :
  (∀ n m d, kmalloc_array n m = Some d → zlen d = n * m ∧ n * m < 2 ^ 32) →
  0 < esz < 2 ^ 32 → 0 < size < 2 ^ 32 →
  ∃ r f, __kfifo_alloc kmalloc_array size esz = (r, f) ∧
    ((r = 0 ∧ wf f ∧ contents f = [] ∧ esize f = esz ∧ size ≤ mask f + 1 < 2 * size) ∨
     (r = - KString.EINVAL ∧ data f = None ∧ (size = 1 ∨ 2 ^ 31 < size)) ∨
     (r = - ENOMEM ∧ data f = None)).
Proof.
  intros HK He Hs. unfold __kfifo_alloc.
  destruct (roundup_spec size Hs) as (k & Hk & -> & Hr1 & Hr2).
  destruct (Z.ltb_spec (w32 (2 ^ k)) 2) as [Hlt|Hge].
  { eexists _, _. split; [done|]. right; left. split_and!; try done.
    destruct (Z.lt_ge_cases (2 ^ k) (2 ^ 32)).
    - left. unfold w32 in Hlt. rewrite wrap_small in Hlt by lia. lia.
    - right. lia. }
  assert (k < 32) as Hk32.
  { destruct (Z.lt_ge_cases k 32) as [|H32]; [done|]. exfalso. unfold w32, wrap in Hge.
    replace k with ((k - 32) + 32) in Hge by lia. rewrite Z.pow_add_r, Z.mod_mul in Hge by lia. lia. }
  assert (2 ^ k < 2 ^ 32) by (apply Z.pow_lt_mono_r; lia).
  assert (w32 (2 ^ k) = 2 ^ k) as -> by (apply wrap_small; lia).
  destruct (kmalloc_array esz (2 ^ k)) as [d|] eqn:Ed.
  - apply HK in Ed as [Ed1 Ed2]. assert (w32 esz = esz) as -> by (apply wrap_small; lia).
    destruct (empty_wf k esz d) as [W C]; [lia..|].
    eexists _, _. split; [done|]. left. split_and!; try done; simpl; lia.
  - eexists _, _. split; [done|]. by right; right.
Qed.

End setup_spec.

(** ** Records *)

Lemma ring_put_one d N p v : (p < N)%nat → (N ≤ length d)%nat → ring_put d N p [v] = <[p := v]> d.
Proof.
  intros Hp Hd. unfold ring_put. rewrite (Nat.min_l (length [v])) by (simpl; lia). simpl.
  rewrite insert_take_drop by lia. rewrite drop_0. by replace (p + 1)%nat with (S p) by lia.
Qed.

Lemma poke_byte_run f d i v : wf f → data f = Some d → esize f = 1 →
  poke_byte f i v = Some (set_data f (ring_put d (cap f) (pos f (w32 i)) [w8 v])).
Proof.
  intros W Ed He. pose proof (pos_lt f (w32 i) W) as Hp.
  destruct (wf_data f W) as (d0 & E0 & Hd). rewrite Ed in E0. injection E0 as <-.
  assert (cap f ≤ length d)%nat by (unfold cap, zlen in *; lia).
  unfold poke_byte. rewrite Ed. cbn [mbind option_bind]. unfold KString.store_at.
  assert (Z.to_nat (Z.land (w32 i) (mask f)) = pos f (w32 i)) as ->
    by (unfold pos; by rewrite He, Z.mul_1_r).
  destruct (lookup_lt_is_Some_2 d (pos f (w32 i))) as [x ->]; [lia|]. cbn [mbind option_bind].
  by rewrite ring_put_one.
Qed.

(** Bytes are put behind the first [m] elements of a fifo of bytes. *)
Lemma put_bytes f d m w : wf f → data f = Some d → esize f = 1 → 0 ≤ m →
  m + zlen w ≤ mask f + 1 →
  let g := set_data f (ring_put d (cap f) (pos f (w32 (out_ f + m))) w) in
  wf g ∧ window g (m + zlen w) = window f m ++ w.
Proof.
  intros W Ed He Hm Hw g. split.
  - apply (set_data_wf f d); [done..|]. destruct (wf_data f W) as (d0 & E0 & Hd). simplify_eq.
    apply ring_put_length; [by apply pos_lt| |unfold cap, zlen in *; lia].
    unfold cap. rewrite He. unfold zlen in *. lia.
  - apply window_put; try done; [zlen_lia|lia].
Qed.

(** The bytes of a length, as [__kfifo_poke_n] stores it. *)
Definition len_bytes (recsize n : Z) : bytes :=
  if 1 <? recsize then [w8 n; w8 (Z.shiftr n 8)] else [w8 n].

Definition recsize_ok (recsize : Z) : Prop := recsize = 1 ∨ recsize = 2.

Lemma len_bytes_length recsize n : recsize_ok recsize → zlen (len_bytes recsize n) = recsize.
Proof. by intros [-> | ->]. Qed.

Lemma len_bytes_nat recsize n : recsize_ok recsize →
  length (len_bytes recsize n) = Z.to_nat recsize.
Proof. by intros [-> | ->]. Qed.

Lemma poke_n_run f n recsize : wf f → esize f = 1 → recsize_ok recsize →
  used f + recsize ≤ mask f + 1 →
  ∃ d, __kfifo_poke_n f n recsize = Some (set_data f d) ∧ wf (set_data f d) ∧
    window (set_data f d) (used f + recsize) = contents f ++ len_bytes recsize n.
Proof.
  intros W He Hr Hu. destruct (wf_data f W) as (d & Ed & Hd). pose proof (used_range f W).
  unfold __kfifo_poke_n. rewrite (poke_byte_run f d) by done. cbn [mbind option_bind].
  assert (w32 (in_ f) = w32 (out_ f + used f)) as ->.
  { rewrite (in_eq f W) at 1. unfold w32. apply wrap_small, wrap_range. lia. }
  destruct (put_bytes f d (used f) [w8 n]) as [W1 Hw1]; try done; [lia|unfold zlen; simpl; destruct Hr; lia|].
  change (zlen [w8 n]) with 1 in Hw1.
  set (d1 := ring_put d (cap f) (pos f (w32 (out_ f + used f))) [w8 n]) in *.
  unfold len_bytes. destruct Hr as [-> | ->]; simpl (1 <? _).
  - exists d1. by split_and!.
  - rewrite (poke_byte_run (set_data f d1) d1) by done. cbn [mbind option_bind].
    destruct (put_bytes (set_data f d1) d1 (used f + 1) [w8 (Z.shiftr n 8)]) as [W2 Hw2];
      try done; [lia|change (used f + 1 + 1 ≤ mask f + 1); lia|].
    assert (w32 (in_ (set_data f d1) + 1) = w32 (out_ f + (used f + 1))) as ->.
    { simpl. rewrite (in_eq f W). apply w32_assoc. }
    eexists. split_and!; [done|done|]. rewrite Hw1 in Hw2.
    replace (used f + 2) with (used f + 1 + zlen [w8 (Z.shiftr n 8)]) by (unfold zlen; simpl; lia).
    etransitivity; [exact Hw2|]. by rewrite <-app_assoc.
Qed.

Lemma kfifo_in_r_run f buf len recsize : wf f → esize f = 1 → recsize_ok recsize →
  0 ≤ len ≤ zlen buf → used f + (len + recsize) ≤ mask f + 1 →
  ∃ f', __kfifo_in_r f buf len recsize = Some (len, f') ∧ wf f' ∧ esize f' = 1 ∧
    mask f' = mask f ∧ contents f' = contents f ++ len_bytes recsize len ++ take (Z.to_nat len) buf.
Proof.
  intros W He Hr Hl Hu. pose proof (used_range f W). unfold __kfifo_in_r. rewrite unused_eq by done.
  rewrite (proj2 (Z.ltb_ge _ _)) by lia.
  destruct (poke_n_run f len recsize) as (d & -> & W1 & Hw1); try done.
  { destruct Hr; lia. }
  cbn [mbind option_bind]. rewrite (copy_in_run (set_data f d) d) by
    (try done; simpl; rewrite ?He; destruct Hr; lia).
  cbn [mbind option_bind]. simpl (esize _). rewrite He, Z.mul_1_r.
  assert (w32 (in_ (set_data f d) + recsize) = w32 (out_ f + (used f + recsize))) as ->.
  { simpl. rewrite (in_eq f W). apply w32_assoc. }
  set (w := take (Z.to_nat len) buf). assert (zlen w = len) as Ew by (apply zlen_take; lia).
  destruct (put_bytes (set_data f d) d (used f + recsize) w) as [W2 Hw2]; try done.
  { destruct Hr; lia. }
  { rewrite Ew. simpl. lia. }
  rewrite Ew, Hw1 in Hw2.
  eexists. split; [done|].
  destruct (enqueue _ (len + recsize) (contents f ++ len_bytes recsize len ++ w) W2) as [W' C'].
  - destruct Hr; lia.
  - simpl. change (used (set_data _ _)) with (used f). lia.
  - change (used (set_data _ _)) with (used f). rewrite app_assoc. rewrite <-Hw2. f_equal. lia.
  - by split_and!.
Qed.

(** The byte at a distance from [out] is the one of the queue. *)
Lemma peek_byte_run f i : wf f → esize f = 1 → 0 ≤ i < used f →
  peek_byte f (out_ f + i) = contents f !! Z.to_nat i.
Proof.
  intros W He Hi. destruct (wf_data f W) as (d & Ed & Hd). pose proof (wf_out f W).
  unfold peek_byte, contents. rewrite Ed. cbn [mbind option_bind].
  unfold ring. rewrite list_lookup_fmap, lookup_seq_lt by (rewrite He; lia). simpl.
  assert (Z.to_nat (Z.land (w32 (out_ f + i)) (mask f)) = pos f (w32 (out_ f + i))) as ->
    by (unfold pos; by rewrite He, Z.mul_1_r).
  rewrite pos_add by (done || lia). rewrite He, Z.mul_1_r. apply list_lookup_lookup_total_lt.
  assert (((pos f (out_ f) + Z.to_nat i) mod cap f) < cap f)%nat
    by (apply Nat.mod_upper_bound; pose proof (cap_pos f W); lia).
  unfold cap, zlen in *. lia.
Qed.

Lemma two_bytes n : 0 ≤ n < 65536 → Z.lor (w8 n) (Z.shiftl (w8 (Z.shiftr n 8)) 8) = n.
Proof.
  intros Hn. unfold w8 at 2. rewrite wrap_small.
  - unfold w8, wrap. rewrite <-Z.land_ones, <-Z.ldiff_ones_r, Z.lor_comm by lia. apply Z.lor_ldiff_and.
  - rewrite Z.shiftr_div_pow2 by lia. split; [apply Z.div_pos; lia|apply Z.div_lt_upper_bound; lia].
Qed.

(** A record with its length in front; the longest record that has a length. *)
Definition enc (recsize : Z) (r : bytes) : bytes := len_bytes recsize (zlen r) ++ r.
Definition fits (recsize : Z) (r : bytes) : Prop := zlen r < 2 ^ (8 * recsize).

Lemma enc_zlen recsize r : recsize_ok recsize → zlen (enc recsize r) = recsize + zlen r.
Proof. intros Hr. unfold enc. by rewrite zlen_app, len_bytes_length. Qed.

Lemma peek_n_run f recsize r rest : wf f → esize f = 1 → recsize_ok recsize → fits recsize r →
  contents f = enc recsize r ++ rest → __kfifo_peek_n f recsize = Some (zlen r).
Proof.
  intros W He Hr Hf C.
  assert (recsize + zlen r + zlen rest = used f) as Hu.
  { pose proof (used_range f W). pose proof (contents_length f W) as Hl. rewrite C, He in Hl.
    apply (f_equal Z.of_nat) in Hl. fold (zlen (enc recsize r ++ rest)) in Hl.
    rewrite zlen_app, enc_zlen in Hl by done. lia. }
  pose proof (zlen_nonneg r). pose proof (zlen_nonneg rest).
  unfold __kfifo_peek_n. replace (out_ f) with (out_ f + 0) at 1 by lia.
  destruct Hr as [-> | ->]; unfold fits in Hf.
  - rewrite (peek_byte_run f 0) by (done || lia). rewrite C. simpl. f_equal. apply wrap_small. lia.
  - rewrite !peek_byte_run by (done || lia). rewrite C. simpl. f_equal. apply two_bytes. lia.
Qed.

(** The fifo [f] holds the records [rs]. *)
Definition holds (recsize : Z) (f : kfifo) (rs : list bytes) : Prop :=
  wf f ∧ esize f = 1 ∧ Forall (fits recsize) rs ∧ contents f = concat (enc recsize <$> rs).

(** The bytes that records take. *)
Definition records_size (recsize : Z) (rs : list bytes) : Z :=
  zlen (concat (enc recsize <$> rs)).

Lemma holds_used recsize f rs : holds recsize f rs → used f = records_size recsize rs.
Proof.
  intros (W & He & _ & C). pose proof (used_range f W). unfold records_size. rewrite <-C.
  unfold zlen. rewrite contents_length, He by done. lia.
Qed.

Lemma holds_in recsize f rs buf len : recsize_ok recsize → holds recsize f rs →
  0 ≤ len ≤ zlen buf → len < 2 ^ (8 * recsize) →
  records_size recsize rs + (len + recsize) ≤ mask f + 1 →
  ∃ f', __kfifo_in_r f buf len recsize = Some (len, f') ∧ mask f' = mask f ∧
    holds recsize f' (rs ++ [take (Z.to_nat len) buf]).
Proof.
  intros Hr HH Hl Hf Hu. rewrite <-(holds_used recsize f) in Hu by done.
  destruct HH as (W & He & HF & C).
  destruct (kfifo_in_r_run f buf len recsize) as (f' & E & W' & He' & Em & C'); try done.
  assert (zlen (take (Z.to_nat len) buf) = len) as Ez by (apply zlen_take; lia).
  exists f'. split_and!; try done. split_and!; try done.
  - apply Forall_app. split; [done|]. apply Forall_singleton. unfold fits. by rewrite Ez.
  - rewrite fmap_app, concat_app, <-C. simpl. rewrite app_nil_r. unfold enc. by rewrite Ez.
Qed.

Lemma holds_in_full recsize f rs buf len : holds recsize f rs →
  mask f + 1 < records_size recsize rs + (len + recsize) →
  __kfifo_in_r f buf len recsize = Some (0, f).
Proof.
  intros HH Hu. rewrite <-(holds_used recsize f) in Hu by done. destruct HH as (W & _).
  unfold __kfifo_in_r. rewrite unused_eq by done. by rewrite (proj2 (Z.ltb_lt _ _)) by lia.
Qed.

Lemma holds_empty recsize f : holds recsize f [] → in_ f = out_ f.
Proof.
  intros HH. pose proof (holds_used _ _ _ HH) as Hu. destruct HH as (W & _).
  rewrite (in_eq f W), Hu. change (records_size recsize []) with 0. rewrite Z.add_0_r.
  apply wrap_small. apply W.
Qed.

Lemma holds_nonempty recsize f r rs : recsize_ok recsize → holds recsize f (r :: rs) →
  in_ f ≠ out_ f.
Proof.
  intros Hr HH E. pose proof (holds_used _ _ _ HH) as Hu.
  assert (used f = 0) as E0 by (unfold used; by rewrite E, Z.sub_diag).
  unfold records_size in Hu. simpl in Hu. rewrite zlen_app, enc_zlen in Hu by done.
  destruct Hr; zlen_lia.
Qed.

Lemma out_copy_r_run recsize f r rs len : recsize_ok recsize → holds recsize f (r :: rs) →
  0 ≤ len →
  kfifo_out_copy_r f len recsize =
  Some (Z.min (zlen r) len, take (Z.to_nat len) r, zlen r).
Proof.
  intros Hr HH Hl. pose proof (holds_used _ _ _ HH) as Hu. destruct HH as (W & He & HF & C).
  pose proof (used_range f W) as Hur. unfold records_size in Hu. rewrite fmap_cons in Hu, C.
  cbn [concat] in Hu, C.
  rewrite zlen_app, enc_zlen in Hu by done. apply Forall_cons in HF as [Hf _].
  unfold kfifo_out_copy_r. rewrite (peek_n_run f recsize r (concat (enc recsize <$> rs))) by done.
  cbn [mbind option_bind]. rewrite clamp_min. destruct (wf_data f W) as (d & Ed & Hd).
  pose proof (zlen_nonneg r). pose proof (zlen_nonneg (concat (enc recsize <$> rs))).
  rewrite (copy_out_run f d) by (done || destruct Hr; lia). cbn [mbind option_bind].
  pose proof (wf_out f W). rewrite pos_add by (done || destruct Hr; lia). rewrite He, !Z.mul_1_r.
  f_equal. f_equal. f_equal.
  assert (drop (Z.to_nat recsize) (contents f) = r ++ concat (enc recsize <$> rs)) as Hdr.
  { rewrite C. unfold enc at 1. rewrite <-app_assoc, drop_app_ge;
      rewrite len_bytes_nat by done; [|done]. by rewrite Nat.sub_diag. }
  unfold contents in Hdr. rewrite Ed, He, Z.mul_1_r, ring_drop in Hdr by (destruct Hr; lia).
  rewrite (ring_mod _ _ _ (pos f (out_ f) + Z.to_nat recsize)) by
    (pose proof (cap_pos f W); lia || by rewrite Nat.Div0.mod_mod).
  rewrite <-(ring_take _ _ _ _ (Z.to_nat (used f) - Z.to_nat recsize)) by (destruct Hr; lia).
  rewrite Hdr, take_app_le by (unfold zlen; lia).
  destruct (Z.le_ge_cases (zlen r) len); [rewrite Z.min_l by done|by rewrite Z.min_r].
  unfold zlen in *. rewrite Nat2Z.id, !take_ge by lia. done.
Qed.

Lemma holds_drop recsize f r rs : recsize_ok recsize → holds recsize f (r :: rs) →
  holds recsize (set_out f (out_ f + (zlen r + recsize))) rs.
Proof.
  intros Hr HH. pose proof (holds_used _ _ _ HH) as Hu. destruct HH as (W & He & HF & C).
  unfold records_size in Hu. rewrite fmap_cons in Hu, C.
  cbn [concat] in Hu, C. rewrite zlen_app in Hu.
  pose proof (enc_zlen recsize r Hr) as Hel. pose proof (zlen_nonneg r).
  pose proof (zlen_nonneg (concat (enc recsize <$> rs))).
  destruct (dequeue f (zlen r + recsize) W) as (W' & _ & C'); [destruct Hr; lia|].
  apply Forall_cons in HF as [_ HF]. split_and!; try done. rewrite C', C, He, Z.mul_1_r.
  rewrite drop_app_ge by (unfold zlen in *; lia).
  replace (Z.to_nat (zlen r + recsize) - length (enc recsize r))%nat with 0%nat
    by (unfold zlen in *; lia).
  by rewrite drop_0.
Qed.

(** C15: With a record size of one or two bytes a fifo is a queue of records.  A record that
    fits the free space, and whose length fits the one or two bytes of the length field, is
    appended whole; one that does not fit the free space changes nothing and gives 0.  The
    code does not test the second condition: a longer record goes in with a truncated
    length, and the fifo is then no queue of records ([kfifo_in_r_truncates]).  Taking
    from an empty fifo gives 0; else the first record is delivered, cut to the caller's
    buffer, and the whole record leaves the fifo.  Peeking delivers the same and keeps
    it, [__kfifo_len_r] gives its length, [__kfifo_skip_r] drops it. *)
Theorem kfifo_records recsize f rs len buf :
  recsize_ok recsize → holds recsize f rs → 0 ≤ len ≤ zlen buf →
  (if records_size recsize rs + (len + recsize) <=? mask f + 1 then
     len < 2 ^ (8 * recsize) →
     ∃ f', __kfifo_in_r f buf len recsize = Some (len, f') ∧ mask f' = mask f ∧
       holds recsize f' (rs ++ [take (Z.to_nat len) buf])
   else __kfifo_in_r f buf len recsize = Some (0, f)) ∧
  match rs with
  | [] => __kfifo_out_r f len recsize = Some (0, [], f) ∧
      __kfifo_out_peek_r f len recsize = Some (0, [])
  | r :: rs => ∃ f', 
      __kfifo_out_r f len recsize = Some (Z.min (zlen r) len, take (Z.to_nat len) r, f') ∧
      __kfifo_out_peek_r f len recsize = Some (Z.min (zlen r) len, take (Z.to_nat len) r) ∧
      __kfifo_len_r f recsize = Some (zlen r) ∧ __kfifo_skip_r f recsize = Some f' ∧
      mask f' = mask f ∧ holds recsize f' rs
  end.
Proof.
  intros Hr HH Hl. split.
  { destruct (Z.leb_spec (records_size recsize rs + (len + recsize)) (mask f + 1)); [intros Hf|].
    - by apply holds_in.
    - by apply (holds_in_full recsize f rs). }
  unfold __kfifo_out_r, __kfifo_out_peek_r. destruct rs as [|r rs].
  - rewrite (holds_empty _ _ HH), Z.eqb_refl. done.
  - rewrite (proj2 (Z.eqb_neq _ _) (holds_nonempty _ _ _ _ Hr HH)).
    rewrite (out_copy_r_run recsize f r rs) by (done || lia). cbn [mbind option_bind].
    eexists. split_and!; [done|done| | |done|by apply holds_drop].
    all: unfold __kfifo_len_r, __kfifo_skip_r; destruct HH as (W & He & HF & C);
      apply Forall_cons in HF as [Hfr _].
    all: by rewrite (peek_n_run f recsize r (concat (enc recsize <$> rs))).
Qed.

Lemma kfifo_records_witness :
  holds 1 (Kfifo 3 0 7 1 (Some [2; 65; 66; 0; 0; 0; 0; 0])) [[65; 66]] ∧
  ∃ f', __kfifo_in_r (Kfifo 3 0 7 1 (Some [2; 65; 66; 0; 0; 0; 0; 0])) [9; 8; 7] 3 1 = Some (3, f') ∧
    mask f' = 7 ∧ holds 1 f' [[65; 66]; [9; 8; 7]].
Proof.
  assert (holds 1 (Kfifo 3 0 7 1 (Some [2; 65; 66; 0; 0; 0; 0; 0])) [[65; 66]]) as HH.
  { split_and!; [|done|by repeat constructor|done]. split; simpl; try done; try lia.
    - by exists 3.
    - by eexists. }
  split; [done|].
  destruct (kfifo_records 1 _ [[65; 66]] 3 [9; 8; 7] (or_introl eq_refl) HH) as [HI _]; [done|].
  by apply HI.
Defined.

(** [__kfifo_in_r] does not limit the length as the other ways in do: a record longer
    than 255 bytes goes in with a length of one byte, and the length that is read back
    is its last eight bits, so that the next record would be looked for inside it. *)
Theorem kfifo_in_r_truncates f buf len :
  holds 1 f [] → 255 < len ≤ zlen buf → len + 1 ≤ mask f + 1 →
  ∃ f', __kfifo_in_r f buf len 1 = Some (len, f') ∧ used f' = len + 1 ∧
    __kfifo_len_r f' 1 = Some (len mod 256).
Proof.
  intros HH Hl Hm. pose proof (holds_used _ _ _ HH) as Hu. change (records_size 1 []) with 0 in Hu.
  destruct HH as (W & He & _ & C).
  destruct (kfifo_in_r_run f buf len 1) as (f' & E & W' & He' & Em & C'); try done;
    [by left|lia|lia|]. rewrite C in C'. simpl in C'.
  assert (used f' = len + 1) as Hu'.
  { pose proof (used_range f' W'). pose proof (contents_length f' W') as Hc.
    rewrite C', He' in Hc. simpl in Hc. rewrite length_take in Hc. unfold zlen in *. lia. }
  exists f'. split_and!; [done|done|]. unfold __kfifo_len_r, __kfifo_peek_n.
  replace (out_ f') with (out_ f' + 0) at 1 by lia. rewrite (peek_byte_run f' 0) by (done || lia).
  by rewrite C'.
Qed.

Lemma kfifo_in_r_truncates_witness :
  let f := Kfifo 0 0 511 1 (Some (replicate 512 0)) in
  ∃ f', __kfifo_in_r f (replicate 300 1) 300 1 = Some (300, f') ∧ used f' = 300 + 1 ∧
    __kfifo_len_r f' 1 = Some (300 mod 256).
Proof.
  apply kfifo_in_r_truncates; [|done|done].
  split_and!; [|done|done|done]. split; simpl; try done; try lia.
  - by exists 9.
  - by eexists.
Defined.

(** ** Copies from and to user space *)

Section user_spec.
Context `{UserMem}.

Lemma umem_take a n m : (m ≤ n)%nat → take m (umem a n) = umem a m.
Proof.
  intros Hm. replace n with (m + (n - m))%nat by lia. rewrite umem_app, take_app_le.
  - by rewrite take_ge by (rewrite umem_length; lia).
  - by rewrite umem_length.
Qed.

(** The elements that are complete when [r] bytes of [n] elements are missing. *)
Lemma div_round_up_spec r n e : 0 < e → 0 ≤ r ≤ n * e →
  0 ≤ div_round_up r e ≤ n ∧ (n - div_round_up r e) * e ≤ n * e - r ∧
  (r = 0 ↔ div_round_up r e = 0).
Proof.
  intros He Hr. unfold div_round_up. pose proof (Z.mul_div_le (r + e - 1) e He).
  pose proof (Z.mul_succ_div_gt (r + e - 1) e He). nia.
Qed.

(** Part of what is put behind the queue becomes part of it. *)
Lemma enqueue_put f d m w : wf f → data f = Some d → 0 ≤ m → used f + m ≤ mask f + 1 →
  m * esize f ≤ zlen w → zlen w + used f * esize f ≤ (mask f + 1) * esize f →
  let g := set_data f (ring_put d (cap f) (pos f (in_ f)) w) in
  wf (set_in g (in_ f + m)) ∧
  contents (set_in g (in_ f + m)) = contents f ++ take (Z.to_nat (m * esize f)) w.
Proof.
  intros W Ed Hm Hu Hw Hz g. pose proof (used_range f W). pose proof (wf_esize f W).
  pose proof (cap_pos f W). pose proof (wf_out f W).
  destruct (wf_data f W) as (d0 & E0 & Hd). rewrite Ed in E0. injection E0 as <-.
  assert (wf g) as Wg.
  { apply (set_data_wf f d); [done..|]. apply ring_put_length; [by apply pos_lt|..];
      unfold cap, zlen in *; nia. }
  apply (enqueue g m); [done|done|done|].
  unfold window, g. change (used (set_data _ _)) with (used f). simpl. rewrite (in_eq f W).
  change (cap (set_data _ _)) with (cap f). change (pos (set_data _ _)) with (pos f).
  rewrite pos_add by (done || lia). set (old := Z.to_nat (used f * esize f)).
  rewrite <-(ring_take _ _ _ _ (old + length w)) by (unfold old, zlen in *; nia).
  rewrite ring_put_append by (unfold old, cap, zlen in *; nia || lia).
  rewrite take_app_ge by (rewrite ring_length; unfold old; nia). rewrite ring_length.
  unfold contents. rewrite Ed. f_equal. f_equal. unfold old. nia.
Qed.

Lemma ring_put_straight d N p w : (p + length w ≤ N)%nat → (p < N)%nat → (N ≤ length d)%nat →
  write_at d p w = Some (ring_put d N p w).
Proof.
  intros Hw Hp Hd. pose proof (ring_put_run d N p w Hp ltac:(lia) Hd) as E. cbn zeta in E.
  rewrite Nat.min_l, firstn_all, drop_all in E by lia.
  destruct (write_at d p w) as [d1|]; cbn [mbind option_bind] in *; [|done].
  rewrite write_at_run in E by (simpl; lia). exact E.
Qed.

Lemma take_app_take {A} k q (l l2 : list A) : (k ≤ length l + q)%nat →
  take k (l ++ take q l2) = take k (l ++ l2).
Proof. intros Hk. rewrite !take_app, take_take. f_equal. f_equal. lia. Qed.

(** What a copy of [len] elements at [in] reports: [ret] elements are missing, the others
    can be taken over. *)
Definition user_copied (f : kfifo) (from len : Z) (r : option (Z * Z * kfifo)) : Prop :=
  ∃ ret copied f', r = Some (ret, copied, f') ∧ 0 ≤ ret ≤ len ∧
    copied = (len - ret) * esize f ∧ in_ f' = in_ f ∧ mask f' = mask f ∧ esize f' = esize f ∧
    wf (set_in f' (in_ f + (len - ret))) ∧
    contents (set_in f' (in_ f + (len - ret))) =
      contents f ++ umem from (Z.to_nat ((len - ret) * esize f)).

(** The bytes [w] are on the ring, all but the last [r] bytes from the user. *)
Lemma user_copied_intro f d from len w r : wf f → data f = Some d → 0 ≤ len →
  used f + len ≤ mask f + 1 → zlen w ≤ len * esize f → (r ≤ length w)%nat →
  take (length w - r) w = umem from (length w - r) →
  let ret := div_round_up (Z.of_nat r + len * esize f - zlen w) (esize f) in
  user_copied f from len
    (Some (ret, w32 (len * esize f - ret * esize f),
      set_data f (ring_put d (cap f) (pos f (in_ f)) w))).
Proof.
  intros W Ed Hl Hu Hw Hr Hm ret. pose proof (wf_esize f W) as He. pose proof (wf_size f W).
  pose proof (used_range f W). pose proof (zlen_nonneg w).
  destruct (div_round_up_spec (Z.of_nat r + len * esize f - zlen w) len (esize f) He)
    as (D1 & D2 & _); [unfold zlen in *; lia|]. fold ret in D1, D2.
  destruct (enqueue_put f d (len - ret) w W Ed) as [W' C']; try lia; [nia|].
  eexists ret, _, _. split_and!; try done; try lia.
  - unfold w32. rewrite wrap_small; nia.
  - rewrite C'. f_equal. rewrite <-(umem_take _ (length w - r)), <-Hm, take_take
      by (unfold zlen in *; lia).
    f_equal. unfold zlen in *. lia.
Qed.

Lemma copy_from_user_run f from len : wf f → 0 ≤ len → used f + len ≤ mask f + 1 →
  user_copied f from len (kfifo_copy_from_user f from len (in_ f)).
Proof.
  intros W Hl Hu. pose proof (used_range f W). pose proof (wf_esize f W) as He.
  destruct (pieces_nat f len (in_ f) W) as (o & L & E & Eo & HL0 & EL & Ew & ER & Hn); [lia|].
  destruct (wf_data f W) as (d & Ed & Hd). pose proof (pos_lt f (in_ f) W) as Hp.
  unfold kfifo_copy_from_user. rewrite E, Ed, Ew, Eo. cbn [mbind option_bind].
  destruct (copy_from_user from (Z.to_nat L)) as [b r] eqn:Eb.
  destruct (copy_from_user_spec _ _ _ _ Eb) as (Hbl & Hr & Hbm).
  assert (cap f ≤ length d)%nat by (unfold cap, zlen in *; lia).
  destruct (negb (Z.of_nat r =? 0)) eqn:Er; bool_to_prop.
  - rewrite (ring_put_straight d (cap f)) by lia. cbn [mbind option_bind].
    replace (Z.of_nat r + len * esize f - L) with (Z.of_nat r + len * esize f - zlen b)
      by (unfold zlen; lia).
    apply user_copied_intro; try done; [unfold zlen; lia|lia|by rewrite Hbl].
  - assert (r = 0)%nat as -> by lia. rewrite Nat.sub_0_r in Hbm. rewrite take_ge in Hbm by lia.
    rewrite ER. destruct (copy_from_user (from + L) _) as [b2 r2] eqn:Eb2.
    destruct (copy_from_user_spec _ _ _ _ Eb2) as (Hbl2 & Hr2 & Hbm2).
    pose proof (ring_put_run d (cap f) (pos f (in_ f)) (b ++ b2)) as EW.
    rewrite length_app in EW. specialize (EW ltac:(lia) ltac:(lia) ltac:(lia)). cbn zeta in EW.
    replace (Nat.min (length b + length b2) (cap f - pos f (in_ f)))%nat with (length b) in EW by lia.
    rewrite take_app_length, drop_app_length in EW.
    destruct (write_at d (pos f (in_ f)) b) as [d1|]; cbn [mbind option_bind] in EW |- *; [|done].
    rewrite EW. cbn [mbind option_bind].
    assert (zlen (b ++ b2) = len * esize f) as Ez by (unfold zlen; rewrite length_app; lia).
    replace (if negb (Z.of_nat r2 =? 0) then div_round_up (Z.of_nat r2) (esize f) else Z.of_nat r2)
      with (div_round_up (Z.of_nat r2 + len * esize f - zlen (b ++ b2)) (esize f)).
    2: { rewrite Ez. replace (Z.of_nat r2 + _ - _) with (Z.of_nat r2) by lia.
      destruct (Z.eqb_spec (Z.of_nat r2) 0) as [->|]; [|done]. apply Z.div_small. lia. }
    apply user_copied_intro; try done; [lia|rewrite length_app; lia|].
    rewrite length_app, Hbl, Hbl2.
    replace (Z.to_nat L + (Z.to_nat (len * esize f) - Z.to_nat L) - r2)%nat with
      (Z.to_nat L + (Z.to_nat (len * esize f) - Z.to_nat L - r2))%nat by lia.
    rewrite umem_app, <-Hbm, Z2Nat.id, <-Hbm2 by lia. rewrite take_app_ge by lia. f_equal. f_equal. lia.
Qed.

Lemma div_esize f len : (if negb (esize f =? 1) then len / esize f else len) = len / esize f.
Proof. destruct (Z.eqb_spec (esize f) 1) as [->|]; [|done]. by rewrite Z.div_1_r. Qed.

Lemma copy_to_user_run f to len : wf f → 0 ≤ len ≤ used f →
  ∃ ret b k, kfifo_copy_to_user f to len (out_ f) = Some (ret, (len - ret) * esize f, b) ∧
    0 ≤ ret ≤ len ∧ b = take k (contents f) ∧
    (Z.to_nat ((len - ret) * esize f) ≤ k ≤ Z.to_nat (len * esize f))%nat.
Proof.
  intros W Hl. pose proof (used_range f W). pose proof (wf_esize f W) as He.
  pose proof (wf_size f W) as Hsz.
  destruct (pieces_nat f len (out_ f) W) as (o & L & E & Eo & HL0 & EL & Ew & ER & Hn); [lia|].
  destruct (wf_data f W) as (d & Ed & Hd). pose proof (pos_lt f (out_ f) W) as Hp.
  assert (cap f ≤ length d)%nat by (unfold cap, zlen in *; lia).
  pose proof (ring_pieces d (cap f) (pos f (out_ f)) (Z.to_nat (len * esize f)) Hp Hn ltac:(done)) as EP.
  cbn zeta in EP. rewrite <-EL in EP.
  assert (take (Z.to_nat (len * esize f)) (contents f) =
    take (Z.to_nat L) (drop (pos f (out_ f)) d) ++ take (Z.to_nat (len * esize f) - Z.to_nat L) d) as EC.
  { unfold contents. rewrite Ed, ring_take; [done|nia]. }
  unfold kfifo_copy_to_user. rewrite E, Ed, Ew, Eo, ER. cbn [mbind option_bind].
  rewrite (read_at_run d (pos f (out_ f))) by lia. cbn [mbind option_bind].
  set (b1 := take (Z.to_nat L) (drop (pos f (out_ f)) d)) in *.
  assert (length b1 = Z.to_nat L) as Hb1 by (unfold b1; rewrite length_take, length_drop; lia).
  pose proof (copy_to_user_le to b1) as Hr. set (r := copy_to_user to b1) in *.
  assert (∀ ret, 0 ≤ ret ≤ len → w32 (len * esize f - ret * esize f) = (len - ret) * esize f) as Hw.
  { intros ret Hret. unfold w32. rewrite wrap_small; nia. }
  assert (∀ k, (k ≤ Z.to_nat (len * esize f))%nat →
    take k (contents f) = take k (b1 ++ take (Z.to_nat (len * esize f) - Z.to_nat L) d)) as ET.
  { intros k Hk. rewrite <-EC, take_take. f_equal. lia. }
  destruct (negb (Z.of_nat r =? 0)) eqn:Er; bool_to_prop.
  - destruct (div_round_up_spec (Z.of_nat r + len * esize f - L) len (esize f) He) as (D1 & D2 & _); [lia|].
    eexists _, _, (length b1 - r)%nat. rewrite Hw by done. split_and!; try done; try lia.
    rewrite ET by lia. by rewrite take_app_le by lia.
  - rewrite read_at_run by lia. cbn [mbind option_bind]. rewrite drop_0.
    set (b2 := take _ d) in *. assert (length b2 = Z.to_nat (len * esize f) - Z.to_nat L)%nat as Hb2
      by (unfold b2; rewrite length_take; lia).
    pose proof (copy_to_user_le (to + L) b2) as Hr2. set (r2 := copy_to_user (to + L) b2) in *.
    replace (if negb (Z.of_nat r2 =? 0) then div_round_up (Z.of_nat r2) (esize f) else Z.of_nat r2)
      with (div_round_up (Z.of_nat r2) (esize f)).
    2: { destruct (Z.eqb_spec (Z.of_nat r2) 0) as [->|]; [|done]. apply Z.div_small. lia. }
    destruct (div_round_up_spec (Z.of_nat r2) len (esize f) He) as (D1 & D2 & _); [lia|].
    eexists _, _, (length b1 + (length b2 - r2))%nat. rewrite Hw by done. split_and!; try done; try lia.
    rewrite ET by lia. rewrite take_app_ge by lia. f_equal. f_equal. lia.
Qed.

(** C16: Copies with user space lose and invent nothing, even when a copy stops early.
    [__kfifo_from_user] appends the elements that arrived whole, in order;
    [__kfifo_to_user] removes the elements that were delivered whole, and delivers a
    prefix of the queue.  [*copied] is their size in bytes, and the result is
    [-EFAULT] exactly when an element is missing. *)
Theorem kfifo_user_copies f addr len : wf f → 0 ≤ len →
  (∃ n err f', __kfifo_from_user f addr len = Some (err, n * esize f, f') ∧ wf f' ∧
     contents f' = contents f ++ umem addr (Z.to_nat (n * esize f)) ∧
     (err = 0 ∧ n = Z.min (mask f + 1 - used f) (len / esize f) ∨
      err = - EFAULT ∧ 0 ≤ n < Z.min (mask f + 1 - used f) (len / esize f))) ∧
  (∃ n err b k f', __kfifo_to_user f addr len = Some (err, n * esize f, b, f') ∧ wf f' ∧
     b = take k (contents f) ∧ (Z.to_nat (n * esize f) ≤ k)%nat ∧
     contents f' = drop (Z.to_nat (n * esize f)) (contents f) ∧
     (err = 0 ∧ n = Z.min (used f) (len / esize f) ∨
      err = - EFAULT ∧ 0 ≤ n < Z.min (used f) (len / esize f))).
Proof.
  intros W Hl. pose proof (used_range f W). pose proof (wf_esize f W) as He.
  assert (0 ≤ len / esize f) by (apply Z.div_pos; lia). split.
  - unfold __kfifo_from_user. rewrite div_esize, unused_eq, clamp_min by done.
    set (m := Z.min _ _). destruct (copy_from_user_run f addr m W) as
      (ret & copied & f' & -> & Hr & -> & Ei & _ & _ & W' & C'); [lia|lia|].
    cbn [mbind option_bind]. rewrite Ei. exists (m - ret).
    destruct (Z.eqb_spec ret 0) as [->|Hr0]; simpl.
    + rewrite Z.sub_0_r in *. eexists _, _. split_and!; [done|done|done|by left].
    + eexists _, _. split_and!; [done|done|done|]. right. lia.
  - unfold __kfifo_to_user. fold (used f). rewrite div_esize, clamp_min. set (m := Z.min _ _).
    destruct (copy_to_user_run f addr m W) as (ret & b & k & -> & Hr & -> & Hk); [lia|].
    cbn [mbind option_bind]. destruct (dequeue f (m - ret) W) as (W' & _ & C'); [lia|].
    exists (m - ret). destruct (Z.eqb_spec ret 0) as [->|Hr0]; simpl.
    + rewrite Z.sub_0_r in *. eexists _, _, k, _. split_and!; [done|done|done|lia|done|by left].
    + eexists _, _, k, _. split_and!; [done|done|done|lia|done|]. right. lia.
Qed.

End user_spec.

(** A user process whose memory ends at the address 100. *)
Definition low_mem (a : Z) (n : nat) : bytes := (λ i, (a + Z.of_nat i) mod 256) <$> seq 0 n.
Definition low_missing (a : Z) (n : nat) : nat := (n - Z.to_nat (100 - a))%nat.

Program Definition low_user : UserMem := {|
  umem := low_mem;
  copy_from_user a n := (low_mem a (n - low_missing a n) ++ replicate (low_missing a n) 0,
                         low_missing a n);
  copy_to_user a b := low_missing a (length b);
|}.
Next Obligation.
  intros a n b r E. injection E as <- <-. unfold low_mem, low_missing.
  rewrite length_app, length_fmap, length_seq, length_replicate. split_and!; [lia|lia|].
  rewrite take_app_length'; [done|]. by rewrite length_fmap, length_seq.
Qed.
Next Obligation. intros a b. unfold low_missing. lia. Qed.
Next Obligation. intros a n. unfold low_mem. by rewrite length_fmap, length_seq. Qed.
Next Obligation.
  intros a n m. unfold low_mem. rewrite seq_app, fmap_app. f_equal.
  replace (seq (0 + n) m) with (Nat.add n <$> seq 0 m) by (rewrite fmap_add_seq; f_equal; lia).
  rewrite <-list_fmap_compose. apply list_fmap_ext. intros i j _. simpl. f_equal. lia.
Qed.

(** Three of the six bytes asked for are there: one element of two bytes. *)
Lemma kfifo_user_copies_witness :
  let f := Kfifo 1 0 3 2 (Some [1; 2; 0; 0; 0; 0; 0; 0]) in
  wf f ∧ ∃ n err f', @__kfifo_from_user low_user f 97 6 = Some (err, n * esize f, f') ∧ wf f' ∧
     contents f' = contents f ++ low_mem 97 (Z.to_nat (n * esize f)) ∧
     (err = 0 ∧ n = Z.min (mask f + 1 - used f) (6 / esize f) ∨
      err = - EFAULT ∧ 0 ≤ n < Z.min (mask f + 1 - used f) (6 / esize f)).
Proof.
  intros f. assert (wf f) as W.
  { split; simpl; try done; try lia; [by exists 2|by eexists]. }
  split; [done|]. destruct (@kfifo_user_copies low_user f 97 6 W) as [HI _]; [lia|]. exact HI.
Defined.

Example kfifo_user_run :
  @__kfifo_from_user low_user (Kfifo 1 0 3 2 (Some [1; 2; 0; 0; 0; 0; 0; 0])) 97 6 =
  Some (- EFAULT, 2, Kfifo 2 0 3 2 (Some [1; 2; 97; 98; 99; 0; 0; 0])).
Proof. vm_compute. reflexivity. Qed.

(** ** The entries for a device *)

Section dma.
Context (PAGE_SIZE : Z) (page_to_phys : Z → Z) (data_addr : Z) (HP : 0 < PAGE_SIZE).

(** The addresses of [n] bytes of the ring, from the position of [off] on. *)
Definition ring_addrs (f : kfifo) (off : Z) (n : nat) : list Z :=
  (λ j, data_addr + Z.of_nat ((pos f off + j) mod cap f)) <$> seq 0 n.

Lemma seqZ_seq a n : seqZ a (Z.of_nat n) = (λ j, a + Z.of_nat j) <$> seq 0 n.
Proof. unfold seqZ. rewrite Nat2Z.id. apply list_fmap_ext. intros i j _. lia. Qed.

Lemma ring_addrs_pieces f off n : (pos f off < cap f)%nat → (n ≤ cap f)%nat →
  let l := Nat.min n (cap f - pos f off) in
  seqZ (data_addr + Z.of_nat (pos f off)) (Z.of_nat l) ++ seqZ data_addr (Z.of_nat (n - l)) =
  ring_addrs f off n.
Proof.
  intros Hp Hn l. unfold ring_addrs. rewrite !seqZ_seq.
  replace n with (l + (n - l))%nat at 2 by lia. rewrite seq_app, fmap_app. f_equal.
  - apply list_fmap_ext. intros i j Hj. apply lookup_seq in Hj as [-> Hj].
    rewrite Nat.mod_small by lia. lia.
  - replace (seq (0 + l) (n - l)) with (Nat.add l <$> seq 0 (n - l)) by (rewrite fmap_add_seq; f_equal; lia).
    rewrite <-list_fmap_compose. apply list_fmap_ext. intros i j Hj. apply lookup_seq in Hj as [-> Hj].
    simpl. rewrite mod_once by lia. rewrite decide_False by lia. f_equal. lia.
Qed.

Lemma setup_sgl_buf_spec fuel avail buf nents len : 0 ≤ len →
  (1 ≤ avail)%nat → (1 ≤ nents)%nat → len / PAGE_SIZE + 1 < Z.of_nat fuel →
  ∃ es, setup_sgl_buf PAGE_SIZE page_to_phys fuel avail buf nents len = Some es ∧
    sg_covers PAGE_SIZE page_to_phys nents avail buf len es.
Proof.
  intros Hl Ha Hn Hf. unfold setup_sgl_buf. rewrite (proj2 (Nat.eqb_neq nents 0)) by lia.
  destruct (Z.eqb_spec len 0) as [->|].
  { exists []. split; [done|]. split_and!; simpl; [lia|lia|by exists 0%nat|done]. }
  pose proof (Z.mod_pos_bound buf PAGE_SIZE HP) as Hm.
  destruct (sgl_loop_spec PAGE_SIZE page_to_phys fuel nents avail (virt_to_page PAGE_SIZE buf)
    (offset_in_page PAGE_SIZE buf) 0 (offset_in_page PAGE_SIZE buf) len) as (es & E & HC);
    unfold offset_in_page in *; try done; try lia.
  - unfold virt_to_page. rewrite Zminus_mod, Z.mod_mod, Z.sub_diag by lia. apply Z.mod_0_l. lia.
  - intros k Hk Hk0. assert (k = 0) as -> by nia. by rewrite Z.mul_0_l, !Z.add_0_r.
  - assert ((buf mod PAGE_SIZE + len - 0) / PAGE_SIZE ≤ len / PAGE_SIZE + 1).
    { rewrite <-Z.div_add by lia. apply Z.div_le_mono; lia. }
    assert (0 ≤ len / PAGE_SIZE) by (apply Z.div_pos; lia). lia.
  - unfold virt_to_page in E, HC. rewrite Z.add_0_r, Z.sub_add in E. rewrite Z.sub_add in HC.
    exists es. done.
Qed.

Lemma setup_sgl_spec fuel avail f nents len off : wf f → 0 ≤ len ≤ mask f + 1 →
  (1 ≤ nents ≤ avail)%nat → 2 ^ 32 / PAGE_SIZE + 1 < Z.of_nat fuel →
  ∃ es, setup_sgl PAGE_SIZE page_to_phys data_addr fuel avail f nents len off = Some es ∧
    (length es ≤ nents)%nat ∧
    ((length es < nents)%nat → concat (sg_addrs page_to_phys <$> es) =
     byte_phys PAGE_SIZE page_to_phys <$> ring_addrs f off (Z.to_nat (len * esize f))).
Proof.
  intros W Hl Hn Hf. pose proof (pos_lt f off W) as Hp. pose proof (wf_size f W).
  pose proof (wf_esize f W).
  destruct (pieces_nat f len off W Hl) as (o & L & E & Eo & HL0 & EL & Ew & ER & Hc).
  assert (0 ≤ len * esize f < 2 ^ 32) by nia.
  assert (∀ x, x ≤ len * esize f → x / PAGE_SIZE + 1 < Z.of_nat fuel) as Hfx.
  { intros x Hx. pose proof (Z.div_le_mono x (2 ^ 32) PAGE_SIZE HP ltac:(lia)). lia. }
  assert (o = Z.of_nat (pos f off)) as Eo'.
  { pose proof (pieces_spec f len off W Hl) as E'. rewrite E in E'. injection E' as -> ->.
    unfold pos. rewrite Z2Nat.id; [done|]. rewrite land_mask by done.
    pose proof (Z.mod_pos_bound off (mask f + 1) (wf_mask_pos f W)). nia. }
  unfold setup_sgl. rewrite E, Ew.
  destruct (setup_sgl_buf_spec fuel avail (data_addr + o) nents L) as (es1 & E1 & L1 & L2 & _ & A1);
    [lia|lia|lia|apply Hfx; lia|].
  rewrite E1. cbn [mbind option_bind].
  destruct (decide (length es1 = nents)) as [El|Hlt].
  { rewrite El, Nat.sub_diag. simpl. eexists. split; [done|]. rewrite app_nil_r. split; lia. }
  destruct (setup_sgl_buf_spec fuel (avail - length es1) data_addr (nents - length es1)
    (len * esize f - L)) as (es2 & E2 & L3 & L4 & _ & A2); [lia|lia|lia|apply Hfx; lia|].
  rewrite E2. cbn [mbind option_bind]. eexists. split; [done|]. rewrite length_app. split; [lia|].
  intros Hlen. rewrite fmap_app, concat_app, A1, A2 by lia. rewrite <-fmap_app. f_equal.
  rewrite <-ring_addrs_pieces by done. rewrite <-EL, <-ER, !Z2Nat.id by lia. by rewrite Eo'.
Qed.

(** A scatter list for a device covers the ring exactly: unless the entries run out, the
    addresses of [__kfifo_dma_in_prepare], entry by entry, are the physical addresses
    of the free bytes in the order in which the queue will take them, and those of
    [__kfifo_dma_out_prepare] are the ones of the queued bytes, across page borders
    and the wrap of the ring. *)
Theorem kfifo_dma_covers fuel avail f nents len : wf f → 0 ≤ len →
  (1 ≤ nents ≤ avail)%nat → 2 ^ 32 / PAGE_SIZE + 1 < Z.of_nat fuel →
  (∃ es, __kfifo_dma_in_prepare PAGE_SIZE page_to_phys data_addr fuel avail f nents len = Some es ∧
     (length es ≤ nents)%nat ∧
     ((length es < nents)%nat → concat (sg_addrs page_to_phys <$> es) =
      byte_phys PAGE_SIZE page_to_phys <$> ring_addrs f (in_ f)
        (Z.to_nat (Z.min (mask f + 1 - used f) len * esize f)))) ∧
  (∃ es, __kfifo_dma_out_prepare PAGE_SIZE page_to_phys data_addr fuel avail f nents len = Some es ∧
     (length es ≤ nents)%nat ∧
     ((length es < nents)%nat → concat (sg_addrs page_to_phys <$> es) =
      byte_phys PAGE_SIZE page_to_phys <$> ring_addrs f (out_ f)
        (Z.to_nat (Z.min (used f) len * esize f)))).
Proof.
  intros W Hl Hn Hf. pose proof (used_range f W).
  unfold __kfifo_dma_in_prepare, __kfifo_dma_out_prepare. rewrite unused_eq by done.
  fold (used f). rewrite !clamp_min. split; apply setup_sgl_spec; try done; lia.
Qed.

End dma.

(** Pages of four bytes that are not one after the other. *)
Definition far_pages (p : Z) : Z := 10 * p.

Lemma kfifo_dma_covers_witness :
  let f := Kfifo 1 0 7 1 (Some [1; 0; 0; 0; 0; 0; 0; 0]) in
  wf f ∧ ∃ es, __kfifo_dma_in_prepare 4 far_pages 6 (Z.to_nat (2 ^ 31)) 9 f 9 5 = Some es ∧
     (length es ≤ 9)%nat ∧
     ((length es < 9)%nat → concat (sg_addrs far_pages <$> es) =
      byte_phys 4 far_pages <$> ring_addrs 6 f (in_ f) (Z.to_nat (Z.min (mask f + 1 - used f) 5 * esize f))).
Proof.
  intros f. assert (wf f) as W.
  { split; simpl; try done; try lia; [by exists 3|by eexists]. }
  split; [done|].
  destruct (kfifo_dma_covers 4 far_pages 6 eq_refl (Z.to_nat (2 ^ 31)) 9 f 9 5 W) as [HI _];
    [lia|lia|rewrite Z2Nat.id by lia; done|].
  exact HI.
Defined.

(** Where the bytes end with a page, the code also looks at the page behind them, and adds
    an empty entry for it when it lies elsewhere. *)
Example kfifo_dma_empty_entry :
  __kfifo_dma_in_prepare 4 far_pages 4 9 9 (Kfifo 0 0 7 1 (Some (replicate 8 0))) 9 8 =
  Some [Sg 4 4 0; Sg 8 4 0; Sg 12 0 0].
Proof. vm_compute. reflexivity. Qed.

(** The powers of two, by the logarithm. *)
Program Definition log2_pow : Log2 := {|
  is_power_of_2 n := (0 <? n) && (n =? 2 ^ Z.log2 n);
  roundup_pow_of_two n := 2 ^ Z.log2_up n;
  rounddown_pow_of_two n := 2 ^ Z.log2 n;
|}.
Next Obligation.
  intros n Hn. simpl. split.
  - intros E. bool_to_prop. exists (Z.log2 n). split; [apply Z.log2_nonneg|done].
  - intros (k & Hk & ->). rewrite Z.log2_pow2 by done.
    apply andb_true_intro. split; [apply Z.ltb_lt, Z.pow_pos_nonneg; lia|apply Z.eqb_refl].
Qed.
Next Obligation.
  intros n Hn. simpl. exists (Z.log2_up n). split_and!; [apply Z.log2_up_nonneg|done| |].
  - destruct (Z.eq_dec n 1) as [->|]; [done|].
    pose proof (Z.log2_up_spec n ltac:(lia)) as [H1 _]. pose proof (Z.log2_up_pos n ltac:(lia)).
    replace (Z.log2_up n) with (Z.succ (Z.pred (Z.log2_up n))) at 1 by lia.
    rewrite Z.pow_succ_r by lia. lia.
  - destruct (Z.eq_dec n 1) as [->|]; [done|]. apply (Z.log2_up_spec n). lia.
Qed.
Next Obligation.
  intros n Hn. simpl. exists (Z.log2 n). pose proof (Z.log2_spec n ltac:(lia)) as [H1 H2].
  rewrite Z.pow_succ_r in H2 by apply Z.log2_nonneg. split_and!; [apply Z.log2_nonneg|done|lia|lia].
Qed.

(** C14: A fifo set up on a buffer by [__kfifo_init] is a queue: any sequence of [__kfifo_in],
    [__kfifo_out] and [__kfifo_out_peek] delivers, call by call, the counts and the
    bytes that a bounded queue delivers, and holds what the queue holds.  The number of
    elements is the largest power of two that fits.  The sequence can be of any length,
    so the ring wraps and the 32-bit counters overflow. *)
Theorem kfifo_is_queue `{Log2} buffer size esz os :
  0 < esz → 2 * esz ≤ size < 2 ^ 32 → size ≤ zlen buffer → Forall (op_ok esz) os →
  ∃ k f outs f', __kfifo_init buffer size esz = Some (0, f) ∧
    2 ^ k ≤ size / esz < 2 * 2 ^ k ∧ fifo_run f os = Some (outs, f') ∧
    queue_run (2 ^ k) esz [] os = (outs, contents f').
Proof.
  intros He Hs Hb Hos.
  destruct (kfifo_init_spec buffer size esz He Hs Hb) as (k & f & E & W & C & Ee & _ & Em & Hk).
  rewrite <-Ee in Hos. destruct (fifo_run_queue f os W Hos) as (outs & f' & E' & _ & Eq).
  exists k, f, outs, f'. rewrite C, Em, Ee in Eq. destruct Hk. by split_and!.
Qed.

Lemma kfifo_is_queue_witness :
  ∃ k f outs f', @__kfifo_init log2_pow (replicate 11 0) 11 2 = Some (0, f) ∧
    2 ^ k ≤ 11 / 2 < 2 * 2 ^ k ∧
    fifo_run f [In [1; 2; 3; 4; 5; 6] 3; Out 2; In [7; 8; 9; 10; 11; 12; 13; 14] 4; Out 9] =
      Some (outs, f') ∧
    queue_run (2 ^ k) 2 [] [In [1; 2; 3; 4; 5; 6] 3; Out 2; In [7; 8; 9; 10; 11; 12; 13; 14] 4;
      Out 9] = (outs, contents f').
Proof.
  apply (@kfifo_is_queue log2_pow); [lia|lia|done|].
  repeat constructor; simpl; unfold zlen; simpl; lia.
Defined.

(** The counters may overflow: here they pass [2 ^ 32]. *)
Example kfifo_overflow :
  let f := Kfifo (2 ^ 32 - 1) (2 ^ 32 - 2) 3 1 (Some [5; 6; 7; 8]) in
  fifo_run f [In [1; 2; 3; 4] 4; Out 4] =
  Some ([(3, []); (4, [7; 1; 2; 3])], Kfifo 2 2 3 1 (Some [2; 3; 7; 1])).
Proof. vm_compute. reflexivity. Qed.

End KFifo.
