(* ===== verification/KTextSearch.v ===== *)
(** * Text search, [lib/textsearch.c] and [lib/ts_kmp.c]

    A search algorithm is registered under a name; a configuration is made from a pattern
    and the search reads its text block by block, through a function of the caller.
    [lib/ts_kmp.c] is the algorithm of Knuth, Morris and Pratt, with or without regard
    to case.

    The class [SearchAlgo] states what [lib/textsearch.c] expects of an algorithm:
    however the text is cut into blocks, the first occurrence is found.  [ts_kmp]
    implements it.  [toupper] is a parameter, and so is the allocation, with what is in the
    memory of the prefix table before it is computed, of which the code relies on one
    zero.  Positions and sizes are [unsigned int]s, [uint] and [w32]. *)
From stdpp Require Import base numbers sets strings list.
From S2P Require Import Prelude KString.

Module KTextSearch.

Definition UINT_MAX : Z := (2 ^ 32 - 1)%Z.
Definition ENOENT : Z := 2%Z.
Definition EEXIST : Z := 17%Z.

(** An [unsigned int]: what is kept of a number. *)
Definition uint (n : nat) : nat := Z.to_nat (w32 (Z.of_nat n)).

Lemma w32_small z : (0 ≤ z < 2 ^ 32)%Z → w32 z = z.
Proof. intros. by apply wrap_small. Qed.

Lemma uint_small n : (Z.of_nat n < 2 ^ 32)%Z → uint n = n.
Proof. intros. unfold uint. rewrite w32_small by lia. lia. Qed.

(** ** Blocks of text *)

(** [get_next_block]: the bytes from the offset on, as far as the caller has them in one
    piece; none at the end. *)
Definition delivers (get_next_block : nat → bytes) (text : bytes) : Prop :=
  ∀ consumed,
    (∃ k, drop consumed text = get_next_block consumed ++ k) ∧
    (get_next_block consumed = [] → (length text ≤ consumed)%nat).

(** ** Knuth, Morris, Pratt *)

Record ts_kmp := TsKmp { pattern : bytes; pattern_len : nat; prefix_tbl : list nat }.

Section kmp.
Context (toupper : Z → Z).

(** [icase ? toupper(c) : c] *)
Definition fold_case (icase : bool) (c : Z) : Z := if icase then toupper c else c.

(** [while (q > 0 && pattern[q] != c) q = prefix_tbl[q - 1];] *)
Fixpoint kmp_back (fuel : nat) (pat : bytes) (tbl : list nat) (q : nat) (c : Z) : option nat :=
  match fuel with
  | O => None
  | S fuel =>
      if (0 <? q)%nat then
        p ← pat !! q;
        if negb (p =? c)%Z then q ← tbl !! (q - 1); kmp_back fuel pat tbl q c
        else Some q
      else Some q
  end.

(** The next state of the automaton: the loop above, and
    [if (pattern[q] == c) q++;] *)
Definition kmp_step (pat : bytes) (tbl : list nat) (q : nat) (c : Z) : option nat :=
  q ← kmp_back (S q) pat tbl q c;
  p ← pat !! q;
  Some (if (p =? c)%Z then S q else q).

(** The loop over a block: the state at its end, or the offset behind the match. *)
Fixpoint kmp_block (kmp : ts_kmp) (icase : bool) (text : bytes) (i q : nat) :
    option (nat + nat) :=
  match text with
  | [] => Some (inl q)
  | c :: text =>
      q ← kmp_step (pattern kmp) (prefix_tbl kmp) q (fold_case icase c);
      if (q =? pattern_len kmp)%nat then Some (inr (S i))
      else kmp_block kmp icase text (S i) q
  end.

(** The loop over the blocks: the result and [state->offset]. *)
Fixpoint kmp_loop (fuel : nat) (kmp : ts_kmp) (icase : bool) (get_next_block : nat → bytes)
    (offset consumed q : nat) : option (Z * nat) :=
  match fuel with
  | O => None
  | S fuel =>
      match get_next_block consumed with
      | [] => Some (UINT_MAX, offset)
      | text =>
          r ← kmp_block kmp icase text 0 q;
          match (r : nat + nat) with
          | inr i => let off := uint (consumed + i) in
              Some (w32 (Z.of_nat off - Z.of_nat (pattern_len kmp)), off)
          | inl q =>
              kmp_loop fuel kmp icase get_next_block offset (uint (consumed + length text)) q
          end
      end
  end.

Definition kmp_find (fuel : nat) (kmp : ts_kmp) (icase : bool)
    (get_next_block : nat → bytes) (offset : nat) : option (Z * nat) :=
  kmp_loop fuel kmp icase get_next_block offset offset 0.

(** [compute_prefix_tbl]; the table is written from index 1 on, and a write behind the
    memory is undefined. *)
Fixpoint prefix_loop (n : nat) (pat : bytes) (icase : bool) (tbl : list nat) (q k : nat) :
    option (list nat) :=
  match n with
  | O => Some tbl
  | S n =>
      c ← pat !! q;
      k ← kmp_step (fold_case icase <$> pat) tbl k (fold_case icase c);
      if (q <? length tbl)%nat then prefix_loop n pat icase (<[q := k]> tbl) (S q) k else None
  end.

Definition compute_prefix_tbl (pat : bytes) (len : nat) (tbl : list nat) (icase : bool) :
    option (list nat) :=
  prefix_loop (len - 1) pat icase tbl 1 0.

(** [priv_size]: the structure [ts_kmp] has 16 bytes; [prefix_tbl_len] is an [unsigned int]. *)
Definition kmp_priv_size (len : nat) : Z :=
  (16 + Z.of_nat len + w32 (Z.of_nat len * 4))%Z.

(** [alloc_ts_config] gives the memory from [prefix_tbl] on, 12 bytes into the structure, in
    words, or an error. *)
Definition kmp_init (alloc_ts_config : Z → Z + list nat) (pat : bytes) (len : nat)
    (icase : bool) : option (Z + ts_kmp) :=
  match alloc_ts_config (kmp_priv_size len) with
  | inl err => Some (inl err)
  | inr mem =>
      tbl ← compute_prefix_tbl pat len mem icase;
      Some (inr (TsKmp (if icase then toupper <$> take len pat else take len pat) len tbl))
  end.

Definition kmp_get_pattern (kmp : ts_kmp) : bytes := pattern kmp.
Definition kmp_get_pattern_len (kmp : ts_kmp) : nat := pattern_len kmp.

End kmp.

(** ** Borders *)

Section borders.
Context (P : bytes).

(** The first [q] bytes of the pattern end the text [t]. *)
Definition border (t : bytes) (q : nat) : Prop :=
  (q ≤ length P)%nat ∧ take q P `suffix_of` t.

(** [q] is the longest such prefix. *)
Definition longest (t : bytes) (q : nat) : Prop :=
  border t q ∧ ∀ q', border t q' → (q' ≤ q)%nat.

(** The first [n] entries of the prefix table: for each [j], the longest proper prefix of
    the first [j] bytes that ends them. *)
Definition good_tbl (tbl : list nat) (n : nat) : Prop :=
  ∀ j, (0 < j ≤ n)%nat → ∃ k, tbl !! (j - 1)%nat = Some k ∧ longest (drop 1 (take j P)) k.

Lemma border_0 t : border t 0.
Proof. split; [lia|]. rewrite take_0. apply suffix_nil. Qed.

Lemma border_snoc t c q : border (t ++ [c]) (S q) ↔ border t q ∧ P !! q = Some c.
Proof.
  unfold border. split.
  - intros [Hq Hs]. destruct (lookup_lt_is_Some_2 P q) as [p Hp]; [lia|].
    rewrite (take_S_r _ _ p) in Hs by done. apply suffix_snoc_inv_1 in Hs as E1.
    apply suffix_snoc_inv_2 in Hs. rewrite Hp, E1. split_and!; [lia|done|done].
  - intros [[Hq Hs] Hp]. apply lookup_lt_Some in Hp as Hl. rewrite (take_S_r _ _ c) by done.
    split; [lia|]. by apply suffix_snoc.
Qed.

(** Borders of a text that are shorter than a border of it are borders of that border. *)
Lemma border_shorter t q q' : border t q → border t q' → (q' < q)%nat →
  border (drop 1 (take q P)) q'.
Proof.
  intros [Hq Hs] [Hq' Hs'] Hlt. split; [done|].
  assert (take q' P `suffix_of` take q P) as [k Hk].
  { destruct (suffix_weak_total _ _ _ Hs' Hs) as [|Hs2]; [done|].
    apply suffix_length in Hs2. rewrite !length_take in Hs2. lia. }
  destruct k as [|x k].
  - apply (f_equal length) in Hk. rewrite length_app, !length_take in Hk. simpl in Hk. lia.
  - rewrite Hk. simpl. rewrite drop_0. by exists k.
Qed.

Lemma border_trans t q q' : border t q → border (drop 1 (take q P)) q' → border t q'.
Proof.
  intros [Hq Hs] [Hq' Hs']. split; [done|].
  etransitivity; [exact Hs'|]. etransitivity; [apply suffix_drop|done].
Qed.

Lemma border_drop_lt q q' : (0 < q)%nat → border (drop 1 (take q P)) q' → (q' < q)%nat.
Proof.
  intros Hq [Hq' Hs]. apply suffix_length in Hs. rewrite length_drop, !length_take in Hs. lia.
Qed.

(** No longer border than [q] goes on with [c]. *)
Definition passed (t : bytes) (c : Z) (q : nat) : Prop :=
  ∀ q', border t q' → (q < q')%nat → P !! q' ≠ Some c.

Lemma kmp_back_spec fuel tbl t c q : (q < fuel)%nat → (q < length P)%nat → good_tbl tbl q →
  border t q → passed t c q →
  ∃ r, kmp_back fuel P tbl q c = Some r ∧ (r ≤ q)%nat ∧ border t r ∧ passed t c r ∧
    (r = 0%nat ∨ P !! r = Some c).
Proof.
  revert q. induction fuel as [|fuel IH]; intros q Hf Hq HT HB HPs; [lia|]. cbn [kmp_back].
  destruct (Nat.ltb_spec 0 q) as [H0|H0].
  2: { exists q. split_and!; try done. left. lia. }
  destruct (lookup_lt_is_Some_2 P q Hq) as [p Hp]. rewrite Hp. cbn [mbind option_bind].
  destruct (Z.eqb_spec p c) as [->|Hne]; cbn [negb].
  { exists q. split_and!; try done. by right. }
  destruct (HT q) as (k & Hk & HkB & HkM); [lia|]. rewrite Hk. cbn [mbind option_bind].
  pose proof (border_drop_lt q k H0 HkB) as Hkq.
  destruct (IH k) as (r & E & Hr & HrB & HrP & Hrc); try lia.
  - intros j Hj. apply HT. lia.
  - by apply (border_trans t q).
  - intros q' HB' Hlt. destruct (Nat.lt_trichotomy q' q) as [Hl|[->|Hg]].
    + pose proof (HkM q' (border_shorter t q q' HB HB' Hl)). lia.
    + rewrite Hp. congruence.
    + by apply HPs.
  - exists r. split_and!; try done. lia.
Qed.

Lemma kmp_step_spec tbl t c q : (q < length P)%nat → good_tbl tbl q → longest t q →
  ∃ r, kmp_step P tbl q c = Some r ∧ longest (t ++ [c]) r.
Proof.
  intros Hq HT [HB HM]. unfold kmp_step.
  destruct (kmp_back_spec (S q) tbl t c q) as (r & E & Hr & HrB & HrP & Hrc); try done; [lia| |].
  { intros q' HB' Hlt. pose proof (HM q' HB'). lia. }
  rewrite E. cbn [mbind option_bind].
  destruct (lookup_lt_is_Some_2 P r) as [p Hp]; [lia|]. rewrite Hp. cbn [mbind option_bind].
  eexists. split; [done|]. destruct (Z.eqb_spec p c) as [->|Hne].
  - split; [by apply border_snoc|]. intros [|q'] HB'; [lia|]. apply border_snoc in HB' as [HB' Hc].
    destruct (Nat.le_gt_cases q' r) as [|Hgt]; [lia|]. by destruct (HrP q' HB' Hgt).
  - destruct Hrc as [->|Hrc]; [|congruence]. split; [apply border_0|].
    intros [|q'] HB'; [lia|]. apply border_snoc in HB' as [HB' Hc].
    destruct q' as [|q']; [congruence|]. by destruct (HrP (S q') HB' ltac:(lia)).
Qed.

(** ** The search *)

(** The pattern does not end any beginning of [t]. *)
Definition no_match (t : bytes) : Prop :=
  ∀ u k, t = u ++ k → ¬ P `suffix_of` u.

Lemma no_match_snoc t c : no_match t → ¬ P `suffix_of` (t ++ [c]) → no_match (t ++ [c]).
Proof.
  intros Ht Hc u k E. destruct k as [|x k _] using rev_ind.
  - rewrite app_nil_r in E. by subst u.
  - rewrite app_assoc in E. apply app_inj_tail in E as [E _]. by apply (Ht u k).
Qed.

(** Below the length of the pattern, the longest border says that there is no match. *)
Lemma longest_no_match t q : longest t q → (q < length P)%nat → ¬ P `suffix_of` t.
Proof.
  intros [_ HM] Hq Hs. assert (border t (length P)) as HB by (split; [lia|by rewrite firstn_all]).
  pose proof (HM _ HB). lia.
Qed.

Lemma longest_match t : longest t (length P) → P `suffix_of` t.
Proof. intros [[_ Hs] _]. by rewrite firstn_all in Hs. Qed.

Section scan.
Context (toupper : Z → Z) (icase : bool) (kmp : ts_kmp).
Context (Hpat : pattern kmp = P) (Hlen : pattern_len kmp = length P)
  (Htbl : good_tbl (prefix_tbl kmp) (length P - 1)).
Local Abbreviation fc := (fold_case toupper icase).

(** What is known between two bytes of the text [t] read so far. *)
Definition scanning (t : bytes) (q : nat) : Prop :=
  no_match t ∧ longest t q ∧ (q < length P)%nat.

Lemma kmp_block_spec text i q t : scanning t q →
  (∃ q', kmp_block toupper kmp icase text i q = Some (inl q') ∧ scanning (t ++ (fc <$> text)) q') ∨
  (∃ u c k, kmp_block toupper kmp icase text i q = Some (inr (i + S (length u))%nat) ∧
     text = u ++ c :: k ∧ no_match (t ++ (fc <$> u)) ∧ P `suffix_of` (t ++ (fc <$> u) ++ [fc c])).
Proof.
  revert i q t. induction text as [|c text IH]; intros i q t (HN & HL & Hq).
  { left. exists q. rewrite app_nil_r. done. }
  cbn [kmp_block]. rewrite Hpat, Hlen.
  destruct (kmp_step_spec (prefix_tbl kmp) t (fc c) q) as (r & E & Hr); try done.
  { intros j Hj. apply Htbl. lia. }
  rewrite E. cbn [mbind option_bind]. destruct (Nat.eqb_spec r (length P)) as [->|Hrne].
  { right. exists [], c, text. simpl. rewrite app_nil_r. split_and!; [do 2 f_equal; simpl; lia|done|done|].
    by apply longest_match. }
  assert (r < length P)%nat as Hrl by (destruct Hr as [[Hr _] _]; lia).
  destruct (IH (S i) r (t ++ [fc c])) as [(q' & E' & HS)|(u & c' & k & E' & -> & HN' & HS)].
  - split_and!; [|done|done]. apply no_match_snoc; [done|]. by apply (longest_no_match _ r).
  - left. exists q'. rewrite <-app_assoc in HS. done.
  - right. exists (c :: u), c', k. rewrite <-!app_assoc in *. simpl.
    split_and!; [rewrite E'; do 2 f_equal; lia|done|done|done].
Qed.

(** [kmp_loop], with the rest of the text [rest] still to come. *)
Lemma kmp_loop_spec fuel gnb text offset consumed q t :
  delivers gnb text → (Z.of_nat (length text) < 2 ^ 32)%Z →
  (length text - consumed < fuel)%nat → (consumed ≤ length text)%nat → (length t ≤ consumed)%nat →
  scanning t q →
  (kmp_loop toupper fuel kmp icase gnb offset consumed q = Some (UINT_MAX, offset) ∧
   no_match (t ++ (fc <$> drop consumed text))) ∨
  (∃ u c k, drop consumed text = u ++ c :: k ∧
     let off := (consumed + S (length u))%nat in
     kmp_loop toupper fuel kmp icase gnb offset consumed q = Some (Z.of_nat (off - length P), off) ∧
     no_match (t ++ (fc <$> u)) ∧ P `suffix_of` (t ++ (fc <$> u) ++ [fc c])).
Proof.
  intros HD Hb. revert consumed q t.
  induction fuel as [|fuel IH]; intros consumed q t Hf Hc Ht HS; [lia|].
  cbn [kmp_loop]. destruct (HD consumed) as [[k Hk] He].
  destruct (gnb consumed) as [|b bs] eqn:Eb.
  { left. split; [done|]. rewrite drop_ge by auto. rewrite app_nil_r. apply HS. }
  assert (length (drop consumed text) = length text - consumed)%nat as Hdl by apply length_drop.
  rewrite Hk, length_app in Hdl.
  destruct (kmp_block_spec (b :: bs) 0 q t HS) as [(q' & E & HS')|(u & c & k' & E & Eu & HN & HP)].
  - rewrite E. cbn [mbind option_bind]. rewrite uint_small by lia.
    destruct (IH (consumed + length (b :: bs))%nat q' (t ++ (fc <$> b :: bs))) as
      [[E' HN']|(u & c & k' & Eu & E' & HN' & HP')]; [simpl in *; lia|simpl in *; lia|rewrite length_app, length_fmap; lia|done|left|right].
    all: rewrite <-drop_drop, Hk in *; rewrite drop_app_length in *.
    + split; [done|]. rewrite fmap_app, app_assoc. done.
    + exists ((b :: bs) ++ u), c, k'. rewrite fmap_app, <-!app_assoc in *. split_and!; try done.
      * by rewrite Eu.
      * cbn zeta in *. rewrite E', length_app. do 2 f_equal; lia.
  - rewrite E. cbn [mbind option_bind]. right. exists u, c, (k' ++ k).
    rewrite Eu, length_app in Hdl. apply suffix_length in HP as Hl.
    rewrite !length_app, length_fmap in Hl. simpl in Hl, Hdl.
    rewrite Hk, Eu, <-app_assoc. split_and!; try done. cbn zeta.
    rewrite Hlen, uint_small, w32_small by lia. do 2 f_equal. lia.
Qed.

End scan.

(** ** The prefix table *)

Lemma good_tbl_1 tbl : tbl !! 0%nat = Some 0%nat → good_tbl tbl 1.
Proof.
  intros H0 j Hj. assert (j = 1)%nat as -> by lia. exists 0%nat. split; [done|].
  split; [apply border_0|]. intros q' HB. pose proof (border_drop_lt 1 q' ltac:(lia) HB). lia.
Qed.

Lemma good_tbl_insert tbl q k : good_tbl tbl q → (q < length tbl)%nat →
  longest (drop 1 (take (S q) P)) k → good_tbl (<[q := k]> tbl) (S q).
Proof.
  intros HT Hq Hk j Hj. destruct (decide (j = S q)) as [->|Hne].
  - exists k. replace (S q - 1)%nat with q by lia. by rewrite list_lookup_insert_eq by done.
  - destruct (HT j) as (k' & Hk' & HL); [lia|]. exists k'. by rewrite list_lookup_insert_ne by lia.
Qed.

End borders.

Section kmp_spec.
Context (toupper : Z → Z).

Lemma prefix_loop_spec n pat icase tbl q k :
  let P := fold_case toupper icase <$> pat in
  (0 < q)%nat → (q + n = length pat)%nat → (length pat ≤ length tbl)%nat →
  good_tbl P tbl q → longest P (drop 1 (take q P)) k →
  ∃ tbl', prefix_loop toupper n pat icase tbl q k = Some tbl' ∧ good_tbl P tbl' (length pat).
Proof.
  intros P. revert tbl q k. induction n as [|n IH]; intros tbl q k H0 Hn Hl HT Hk.
  { exists tbl. split; [done|]. by replace (length pat) with q by lia. }
  cbn [prefix_loop]. destruct (lookup_lt_is_Some_2 pat q) as [c Hc]; [lia|]. rewrite Hc.
  cbn [mbind option_bind]. assert (length P = length pat) as HP by apply length_fmap.
  assert (P !! q = Some (fold_case toupper icase c)) as Hc' by (unfold P; by rewrite list_lookup_fmap, Hc).
  assert (k < q)%nat as Hkq by (destruct Hk as [Hk _]; by apply border_drop_lt in Hk).
  destruct (kmp_step_spec P tbl (drop 1 (take q P)) (fold_case toupper icase c) k) as (r & E & Hr);
    [lia|intros j Hj; apply HT; lia|done|].
  fold P. rewrite E. cbn [mbind option_bind]. rewrite (proj2 (Nat.ltb_lt _ _)) by lia.
  assert (drop 1 (take q P) ++ [fold_case toupper icase c] = drop 1 (take (S q) P)) as Es.
  { rewrite (take_S_r _ _ _ Hc'). rewrite drop_app_le; [done|]. rewrite length_take. lia. }
  rewrite Es in Hr. apply IH; try lia; [by rewrite length_insert|apply good_tbl_insert; [done|lia|done]|done].
Qed.

(** What [kzalloc] promises of the memory for a configuration: it has the size asked for and
    is cleared, of which the code relies on the entry 0 of the prefix table; and requests
    of a gigabyte and more, which are above [KMALLOC_MAX_SIZE], fail. *)
Definition clears (alloc_ts_config : Z → Z + list nat) : Prop :=
  ∀ n mem, alloc_ts_config n = inr mem →
    (n < 2 ^ 30)%Z ∧ length mem = Z.to_nat ((n - 12) / 4) ∧ (mem = [] ∨ mem !! 0%nat = Some 0%nat).

(** A pattern for which the size overflows is one for which no memory is given. *)
Lemma clears_fits alloc (pat : bytes) mem : pat ≠ [] → clears alloc →
  alloc (kmp_priv_size (length pat)) = inr mem →
  (length pat ≤ length mem)%nat ∧ mem !! 0%nat = Some 0%nat.
Proof.
  intros Hne Hcl (Hn & Hl & H0)%Hcl. unfold kmp_priv_size in *.
  assert (0 < length pat)%nat by (destruct pat; [done|simpl; lia]).
  pose proof (Z.mod_pos_bound (Z.of_nat (length pat) * 4) (2 ^ 32) ltac:(lia)) as Hw.
  change (Z.of_nat (length pat) * 4 mod 2 ^ 32)%Z with (w32 (Z.of_nat (length pat) * 4)) in Hw.
  rewrite w32_small in * by lia.
  assert (length pat ≤ length mem)%nat.
  { rewrite Hl. apply Nat2Z.inj_le. rewrite Z2Nat.id by (apply Z.div_pos; lia).
    apply Z.div_le_lower_bound; lia. }
  split; [done|]. destruct H0 as [->|]; [simpl in *; lia|done].
Qed.

(** What [kmp_find] works with. *)
Definition kmp_ready (P : bytes) (kmp : ts_kmp) : Prop :=
  pattern kmp = P ∧ pattern_len kmp = length P ∧ good_tbl P (prefix_tbl kmp) (length P - 1).

Lemma fmap_fold_case (icase : bool) (l : bytes) :
  (if icase then toupper <$> l else l) = fold_case toupper icase <$> l.
Proof. destruct icase; [done|]. unfold fold_case. by rewrite list_fmap_id. Qed.

Lemma kmp_init_spec alloc pat icase mem : pat ≠ [] → clears alloc →
  alloc (kmp_priv_size (length pat)) = inr mem →
  ∃ kmp, kmp_init toupper alloc pat (length pat) icase = Some (inr kmp) ∧
    kmp_ready (fold_case toupper icase <$> pat) kmp.
Proof.
  intros Hne Hcl Ha. destruct (clears_fits alloc pat mem Hne Hcl Ha) as [Hm H0].
  unfold kmp_init, compute_prefix_tbl. rewrite Ha.
  assert (0 < length pat)%nat by (destruct pat; [done|simpl; lia]).
  set (P := fold_case toupper icase <$> pat). assert (length P = length pat) as HP by apply length_fmap.
  pose proof (good_tbl_1 P mem H0) as HT1.
  destruct (HT1 1%nat) as (k & Hk & HL); [lia|]. change (1 - 1)%nat with 0%nat in Hk. rewrite H0 in Hk. injection Hk as <-.
  destruct (prefix_loop_spec (length pat - 1) pat icase mem 1 0) as (tbl & -> & HT); try done; try lia.
  cbn [mbind option_bind]. eexists. split; [done|].
  rewrite firstn_all, fmap_fold_case. split_and!; cbn [pattern pattern_len prefix_tbl];
    [done|done|]. intros j Hj. apply HT. lia.
Qed.

(** The first occurrence, as [find_sub] finds it. *)
Lemma find_sub_first p s a k : s = a ++ p ++ k →
  (∀ a' k', s = a' ++ p ++ k' → (length a ≤ length a')%nat) → find_sub p s = Some (length a).
Proof.
  revert s. induction a as [|x a IH]; intros s -> Hmin; [exact (find_sub_prefix p k)|].
  cbn [app find_sub length]. destruct (starts_with p (x :: a ++ p ++ k)) eqn:Es.
  - apply starts_with_spec in Es as [k' Hk']. pose proof (Hmin [] k' Hk') as Hl. simpl in Hl. lia.
  - rewrite (IH (a ++ p ++ k)); [done|done|]. intros a' k' E.
    pose proof (Hmin (x :: a') k' ltac:(simpl; by rewrite E)) as Hl. simpl in Hl. lia.
Qed.

Lemma find_sub_none p s : (∀ a k, s ≠ a ++ p ++ k) → find_sub p s = None.
Proof.
  intros Hn. destruct (find_sub p s) as [i|] eqn:E; [|done].
  destruct (find_sub_Some _ _ _ E) as [k Hk]. by destruct (Hn _ _ Hk).
Qed.

(** The result of a search for [P] in the folded text from [offset] on. *)
Definition search_result (P text : bytes) (offset : nat) : Z * nat :=
  match find_sub P (drop offset text) with
  | Some i => (Z.of_nat (offset + i), (offset + i + length P)%nat)
  | None => (UINT_MAX, offset)
  end.

Lemma kmp_find_spec P kmp icase gnb text offset fuel : P ≠ [] → kmp_ready P kmp →
  delivers gnb text → (Z.of_nat (length text) < 2 ^ 32)%Z →
  (offset ≤ length text)%nat → (length text - offset < fuel)%nat →
  kmp_find toupper fuel kmp icase gnb offset =
  Some (search_result P (fold_case toupper icase <$> text) offset).
Proof.
  intros Hne (Hpat & Hlen & HT) HD Hb Ho Hf. unfold kmp_find, search_result.
  assert (0 < length P)%nat by (destruct P; [done|simpl; lia]).
  assert (scanning P [] 0) as HS.
  { split_and!; [| |done].
    - intros u k E Hs. destruct u; [|done]. by apply suffix_nil_inv in Hs.
    - split; [apply border_0|]. intros q' [Hq Hs]. apply suffix_length in Hs.
      rewrite length_take in Hs. simpl in Hs. lia. }
  rewrite <-fmap_drop.
  destruct (kmp_loop_spec P toupper icase kmp Hpat Hlen HT fuel gnb text offset offset 0 []
    HD Hb Hf Ho (Nat.le_0_l _) HS)
    as [[-> HN]|(u & c & k & Eu & E & HN & [a Ha])]; simpl in *.
  - rewrite find_sub_none; [done|]. intros a k E. apply (HN (a ++ P) k); [by rewrite <-app_assoc|].
    by exists a.
  - rewrite E. clear E.
    assert (fold_case toupper icase <$> drop offset text = a ++ P ++ (fold_case toupper icase <$> k)) as Es.
    { rewrite Eu, fmap_app, fmap_cons, app_assoc, <-Ha, <-app_assoc. done. }
    assert (length a + length P = S (length u))%nat as Hal.
    { apply (f_equal length) in Ha. rewrite !length_app, length_fmap in Ha. simpl in Ha. lia. }
    rewrite (find_sub_first P _ a _ Es); [do 2 f_equal; lia|].
    intros a' k' E'. destruct (Nat.le_gt_cases (length a) (length a')) as [|Hlt]; [done|]. exfalso.
    apply (HN (a' ++ P) (take (length a - length a' - 1) k')); [|by exists a'].
    rewrite Eu, fmap_app, app_assoc in E'. 
    apply (f_equal (take (length u))) in E'. rewrite take_app_length' in E' by (by rewrite length_fmap).
    rewrite E', take_app_ge by (rewrite length_app; lia). f_equal. f_equal. rewrite length_app. lia.
Qed.

(** C17: [ts_kmp] finds the first occurrence: for a pattern prepared by [kmp_init], [kmp_find]
    gives the least position from [state->offset] on where the pattern is in the text,
    with or without regard to case, and moves the offset behind it; [UINT_MAX] if there
    is none.  This holds however the caller cuts the text into blocks, an occurrence
    that spans blocks included, as long as the whole text has less than 2^32 bytes:
    positions are [unsigned int]s and wrap around after that.  The entry 0 of the prefix
    table is never written: the code needs it to be 0 in the memory it gets.  The
    size of that memory is computed in 32 bits; the pattern may be of any length, since
    no allocation succeeds for one whose table does not fit. *)
Theorem kmp_finds icase alloc pat mem gnb text offset fuel :
  pat ≠ [] → clears alloc → alloc (kmp_priv_size (length pat)) = inr mem →
  delivers gnb text → (Z.of_nat (length text) < 2 ^ 32)%Z →
  (offset ≤ length text)%nat → (length text - offset < fuel)%nat →
  ∃ kmp, kmp_init toupper alloc pat (length pat) icase = Some (inr kmp) ∧
    kmp_find toupper fuel kmp icase gnb offset =
    Some (match find_sub (fold_case toupper icase <$> pat)
                 (drop offset (fold_case toupper icase <$> text)) with
          | Some i => (Z.of_nat (offset + i), (offset + i + length pat)%nat)
          | None => (UINT_MAX, offset)
          end).
Proof.
  intros Hne Hcl Ha HD Hb Ho Hf.
  destruct (kmp_init_spec alloc pat icase mem Hne Hcl Ha) as (kmp & E & HR).
  exists kmp. split; [done|].
  rewrite (kmp_find_spec (fold_case toupper icase <$> pat) kmp icase gnb text) by (try done; by destruct pat).
  unfold search_result. by rewrite length_fmap.
Qed.

End kmp_spec.
(** ** The framework *)

Section framework.
Context {Conf : Type}.

(** An algorithm.  [ops_id] is the address of the structure. *)
Record ts_ops := TsOps {
  ops_id : positive;
  name : bytes;
  init : bytes → nat → bool → option (Z + Conf);
  find : nat → Conf → (nat → bytes) → nat → option (Z * nat);
  get_pattern : Conf → bytes;
  get_pattern_len : Conf → nat;
}.

(** The structure as a module fills it in, where each member may be [NULL]; [complete] is
    the test of [textsearch_register]. *)
Record ts_ops_arg := TsOpsArg {
  arg_id : positive;
  arg_name : option bytes;
  arg_init : option (bytes → nat → bool → option (Z + Conf));
  arg_find : option (nat → Conf → (nat → bytes) → nat → option (Z * nat));
  arg_get_pattern : option (Conf → bytes);
  arg_get_pattern_len : option (Conf → nat);
}.

Definition complete (a : ts_ops_arg) : option ts_ops :=
  match arg_name a, arg_find a, arg_init a, arg_get_pattern a, arg_get_pattern_len a with
  | Some n, Some f, Some i, Some gp, Some gl => Some (TsOps (arg_id a) n i f gp gl)
  | _, _, _, _, _ => None
  end.

(** What is promised of an algorithm: it finds the first occurrence of the pattern, up to
    [fold_case], in any text of less than 2^32 bytes that is delivered in any blocks. *)
Class SearchAlgo (o : ts_ops) (toupper : Z → Z) : Prop := {
  algo_finds pat icase conf gnb text offset fuel :
    pat ≠ [] → init o pat (length pat) icase = Some (inr conf) → delivers gnb text →
    (Z.of_nat (length text) < 2 ^ 32)%Z →
    (offset ≤ length text)%nat → (length text - offset < fuel)%nat →
    find o fuel conf gnb offset =
    Some (search_result (fold_case toupper icase <$> pat) (fold_case toupper icase <$> text) offset);
}.

(** The registered algorithms; [try_module_get] may refuse one. *)
Fixpoint lookup_ts_algo (try_module_get : ts_ops → bool) (l : list ts_ops) (n : bytes) :
    option ts_ops :=
  match l with
  | [] => None
  | o :: l =>
      if bool_decide (n = name o) then if try_module_get o then Some o else None
      else lookup_ts_algo try_module_get l n
  end.

Definition textsearch_register (l : list ts_ops) (a : ts_ops_arg) : Z * list ts_ops :=
  match complete a with
  | None => (- KString.EINVAL, l)%Z
  | Some ops =>
      if existsb (λ o, bool_decide (name ops = name o)) l then (- EEXIST, l)%Z
      else (0%Z, l ++ [ops])
  end.

Fixpoint list_del (l : list ts_ops) (id : positive) : option (list ts_ops) :=
  match l with
  | [] => None
  | o :: l => if bool_decide (ops_id o = id) then Some l else cons o <$> list_del l id
  end.

Definition textsearch_unregister (l : list ts_ops) (a : ts_ops_arg) : Z * list ts_ops :=
  match list_del l (arg_id a) with
  | Some l => (0%Z, l)
  | None => (- ENOENT, l)%Z
  end.

(** The configuration with its algorithm, or an error; and the algorithms registered
    afterwards, since a module may be loaded. *)
Definition textsearch_prepare (try_module_get : ts_ops → bool)
    (request_module : list ts_ops → list ts_ops) (l : list ts_ops) (algo : bytes)
    (pat : bytes) (len : nat) (icase autoload : bool) :
    option ((Z + Conf * ts_ops) * list ts_ops) :=
  if (len =? 0)%nat then Some (inl (- KString.EINVAL)%Z, l)
  else
    let '(ops, l) :=
      match lookup_ts_algo try_module_get l algo with
      | Some o => (Some o, l)
      | None =>
          if autoload then
            let l := request_module l in (lookup_ts_algo try_module_get l algo, l)
          else (None, l)
      end in
    match ops with
    | None => Some (inl (- ENOENT)%Z, l)
    | Some o =>
        r ← init o pat len icase;
        match (r : Z + Conf) with
        | inl err => Some (inl err, l)
        | inr conf => Some (inr (conf, o), l)
        end
    end.

Definition get_linear_data (data : bytes) (len : nat) (consumed : nat) : bytes :=
  if (consumed <? len)%nat then drop consumed (take len data) else [].

(** [textsearch_find] is in a header: it starts the search at offset 0. *)
Definition textsearch_find_continuous (textsearch_find : ts_ops → Conf → (nat → bytes) → option (Z * nat))
    (o : ts_ops) (conf : Conf) (data : bytes) (len : nat) : option (Z * nat) :=
  textsearch_find o conf (get_linear_data data len).

Lemma linear_delivers data len : (len ≤ length data)%nat →
  delivers (get_linear_data data len) (take len data).
Proof.
  intros Hl consumed. unfold get_linear_data. destruct (Nat.ltb_spec consumed len).
  - split; [exists []; by rewrite app_nil_r|]. intros E. apply (f_equal length) in E.
    rewrite length_drop in E. simpl in E. lia.
  - split; [by eexists|]. intros _. rewrite length_take. lia.
Qed.

Lemma lookup_ts_algo_name get l n o : lookup_ts_algo get l n = Some o → o ∈ l ∧ name o = n.
Proof.
  induction l as [|o' l IH]; simpl; [done|]. case_bool_decide as E.
  - destruct (get o'); [|done]. intros; simplify_eq. by split; [left|].
  - intros Hl. destruct (IH Hl). by split; [right|].
Qed.

(** No two registered structures have one name or one address. *)
Definition registered (l : list ts_ops) : Prop :=
  NoDup (name <$> l) ∧ NoDup (ops_id <$> l).

Lemma lookup_ts_algo_ne get l1 l2 o n : n ≠ name o →
  lookup_ts_algo get (l1 ++ o :: l2) n = lookup_ts_algo get (l1 ++ l2) n.
Proof.
  intros Hn. induction l1 as [|o' l1 IH]; simpl.
  - by rewrite bool_decide_false.
  - by rewrite IH.
Qed.

Lemma lookup_ts_algo_app get l1 l2 n : n ∉ name <$> l1 →
  lookup_ts_algo get (l1 ++ l2) n = lookup_ts_algo get l2 n.
Proof.
  induction l1 as [|o l1 IH]; intros Hn; [done|]. rewrite fmap_cons, not_elem_of_cons in Hn.
  destruct Hn as [Hn Hl]. simpl. by rewrite bool_decide_false by done; apply IH.
Qed.

Lemma list_del_spec l id :
  match list_del l id with
  | Some l' => ∃ l1 o l2, l = l1 ++ o :: l2 ∧ ops_id o = id ∧ l' = l1 ++ l2
  | None => id ∉ ops_id <$> l
  end.
Proof.
  induction l as [|o l IH]; simpl; [apply not_elem_of_nil|]. case_bool_decide as E.
  - by exists [], o, l.
  - destruct (list_del l id) as [l'|]; simpl.
    + destruct IH as (l1 & o' & l2 & -> & Ho & ->). by exists (o :: l1), o', l2.
    + apply not_elem_of_cons. by split; [congruence|].
Qed.

Lemma existsb_name (l : list ts_ops) n :
  if existsb (λ o, bool_decide (n = name o)) l then n ∈ name <$> l else n ∉ name <$> l.
Proof.
  destruct (existsb _ l) eqn:E.
  - apply existsb_exists in E as (o & Ho & ->%bool_decide_eq_true).
    by apply list_elem_of_fmap_2, list_elem_of_In.
  - intros (o & Hn & Ho%list_elem_of_In)%list_elem_of_fmap.
    rewrite <-not_true_iff_false, existsb_exists in E. apply E. exists o. split; [done|].
    by apply bool_decide_eq_true.
Qed.

Lemma NoDup_snoc {A} (l : list A) x : NoDup l → x ∉ l → NoDup (l ++ [x]).
Proof.
  intros Hl Hx. apply NoDup_app. split_and!; [done| |apply NoDup_singleton].
  by intros y Hy ->%list_elem_of_singleton.
Qed.

Lemma NoDup_middle {A} (l1 l2 : list A) x : NoDup (l1 ++ x :: l2) → x ∉ l1 ++ l2 ∧ NoDup (l1 ++ l2).
Proof. rewrite <-Permutation_middle. apply NoDup_cons. Qed.

(** The structure [o] is taken out of the list: the others are found as before. *)
Lemma registered_middle l1 o l2 : registered (l1 ++ o :: l2) →
  registered (l1 ++ l2) ∧ ops_id o ∉ ops_id <$> (l1 ++ l2) ∧
  ∀ get, lookup_ts_algo get (l1 ++ l2) (name o) = None.
Proof.
  intros [HN HI]. rewrite !fmap_app, !fmap_cons in *.
  apply NoDup_middle in HN as [Hn HN], HI as [Hi HI].
  rewrite <-(fmap_app name) in Hn, HN. rewrite <-(fmap_app ops_id) in *.
  split_and!; [by split|done|]. intros get.
  destruct (lookup_ts_algo get (l1 ++ l2) (name o)) as [o'|] eqn:E; [|done].
  apply lookup_ts_algo_name in E as [Ho E]. destruct Hn. rewrite <-E. by apply list_elem_of_fmap_2.
Qed.

(** C19: The registry of search algorithms.  No two entries ever have one name or one
    address.  [textsearch_register] fails with [-EINVAL] on a structure in which a
    required member is [NULL] and with [-EEXIST] on a name that is taken, and changes
    nothing then; else the structure is added at the end and is the one that is found
    under its name, and every other name is found as before.  [textsearch_unregister]
    takes out exactly the entry of that address, keeps the order of the others, and the
    name is not found any more while every other one is found as before; it fails with
    [-ENOENT], and changes nothing, if and only if the structure is not registered.  A
    structure that is registered is taken to keep its name. *)
Theorem registry_names l a :
  registered l → (∀ o, o ∈ l → ops_id o = arg_id a → arg_name a = Some (name o)) →
  (let '(err, l') := textsearch_register l a in
   registered l' ∧
   match complete a with
   | None => err = (- KString.EINVAL)%Z ∧ l' = l
   | Some ops =>
       err = (- EEXIST)%Z ∧ name ops ∈ name <$> l ∧ l' = l ∨
       err = 0%Z ∧ name ops ∉ name <$> l ∧ l' = l ++ [ops] ∧
         lookup_ts_algo (λ _, true) l' (name ops) = Some ops ∧
         ∀ get n, n ≠ name ops → lookup_ts_algo get l' n = lookup_ts_algo get l n
   end) ∧
  (let '(err, l') := textsearch_unregister l a in
   registered l' ∧ arg_id a ∉ ops_id <$> l' ∧
   (err = (- ENOENT)%Z ∧ arg_id a ∉ ops_id <$> l ∧ l' = l ∨
    err = 0%Z ∧ ∃ l1 o l2, l = l1 ++ o :: l2 ∧ ops_id o = arg_id a ∧ l' = l1 ++ l2 ∧
      (∀ get, lookup_ts_algo get l' (name o) = None) ∧
      ∀ get n, n ≠ name o → lookup_ts_algo get l' n = lookup_ts_algo get l n)).
Proof.
  intros HR Hsame. split.
  - unfold textsearch_register. destruct (complete a) as [ops|] eqn:Ec; [|done].
    pose proof (existsb_name l (name ops)) as Hn. destruct (existsb _ l).
    { split; [done|]. by left. }
    split; [|right; split_and!; try done].
    + destruct HR as [HN HI]. split; rewrite fmap_app; apply NoDup_snoc; try done.
      intros (o & Ho & Hin)%list_elem_of_fmap. apply Hn.
      unfold complete in Ec. repeat case_match; simplify_eq/=.
      injection (Hsame o Hin (eq_sym Ho)) as ->. by apply list_elem_of_fmap_2.
    + rewrite lookup_ts_algo_app by done. simpl. by rewrite bool_decide_true.
    + intros get n Hne. rewrite lookup_ts_algo_ne by done. by rewrite app_nil_r.
  - unfold textsearch_unregister. pose proof (list_del_spec l (arg_id a)) as Hd.
    destruct (list_del l (arg_id a)) as [l'|]; [|split_and!; [done|done|by left]].
    destruct Hd as (l1 & o & l2 & -> & Ho & ->).
    destruct (registered_middle l1 o l2 HR) as (HR' & Hi & Hl). rewrite Ho in Hi.
    split_and!; [done|done|]. right. split; [done|]. exists l1, o, l2. split_and!; try done.
    intros get n Hn. by rewrite lookup_ts_algo_ne.
Qed.

(** A search in linear data, against the promise of the algorithm. *)
Lemma find_continuous_spec (o : ts_ops) toupper `{!SearchAlgo o toupper} textsearch_find fuel
    pat icase conf data len :
  (∀ conf gnb, textsearch_find o conf gnb = find o fuel conf gnb 0%nat) →
  pat ≠ [] → init o pat (length pat) icase = Some (inr conf) → (len ≤ length data)%nat →
  (Z.of_nat len < 2 ^ 32)%Z → (len < fuel)%nat →
  textsearch_find_continuous textsearch_find o conf data len =
  Some (search_result (fold_case toupper icase <$> pat) (fold_case toupper icase <$> take len data) 0).
Proof.
  intros Hfind Hne Hi Hl Hb Hf. unfold textsearch_find_continuous. rewrite Hfind.
  apply (algo_finds pat icase); try done;
    [by apply linear_delivers|rewrite length_take; lia|lia|rewrite length_take; lia].
Qed.

End framework.

(** [kmp_ops]; the configuration holds the flags. *)
Definition kmp_ops (toupper : Z → Z) (alloc_ts_config : Z → Z + list nat) :
    @ts_ops (ts_kmp * bool) :=
  TsOps 1 (B "kmp")
    (λ pat len icase,
       r ← kmp_init toupper alloc_ts_config pat len icase;
       match (r : Z + ts_kmp) with
       | inl err => Some (inl err)
       | inr kmp => Some (inr (kmp, icase))
       end)
    (λ fuel conf gnb offset, kmp_find toupper fuel conf.1 conf.2 gnb offset)
    (λ conf, kmp_get_pattern conf.1) (λ conf, kmp_get_pattern_len conf.1).

Lemma kmp_algo toupper alloc : clears alloc → SearchAlgo (kmp_ops toupper alloc) toupper.
Proof.
  intros Hcl. split. intros pat icase conf gnb text offset fuel Hne Hi HD Hb Ho Hf.
  simpl in Hi. destruct (alloc (kmp_priv_size (length pat))) as [err|mem] eqn:Ea.
  { unfold kmp_init in Hi. rewrite Ea in Hi. done. }
  destruct (kmp_init_spec toupper alloc pat icase mem Hne Hcl Ea) as (kmp & E & HR).
  rewrite E in Hi. simpl in Hi. injection Hi as <-. simpl.
  apply kmp_find_spec; try done. by destruct pat.
Qed.

(** C18: Preparing a search with the algorithm ["kmp"] and searching linear data, as the
    interface describes it: an empty pattern is refused with [-EINVAL], an unknown
    algorithm with [-ENOENT]; else, when the memory is there, the position of the first
    occurrence comes back, or [UINT_MAX].  The length of the data is an [unsigned int]. *)
Theorem textsearch_kmp toupper alloc get request l pat icase mem data len textsearch_find fuel :
  clears alloc → (∀ conf gnb, textsearch_find (kmp_ops toupper alloc) conf gnb =
    find (kmp_ops toupper alloc) fuel conf gnb 0%nat) →
  lookup_ts_algo get l (B "kmp") = Some (kmp_ops toupper alloc) →
  alloc (kmp_priv_size (length pat)) = inr mem →
  (len ≤ length data)%nat → (Z.of_nat len < 2 ^ 32)%Z → (len < fuel)%nat →
  if bool_decide (pat = []) then
    textsearch_prepare get request l (B "kmp") pat (length pat) icase false =
      Some (inl (- KString.EINVAL)%Z, l)
  else ∃ conf,
    textsearch_prepare get request l (B "kmp") pat (length pat) icase false =
      Some (inr (conf, kmp_ops toupper alloc), l) ∧
    fst <$> textsearch_find_continuous textsearch_find (kmp_ops toupper alloc) conf data len =
      Some (match find_sub (fold_case toupper icase <$> pat)
                    (fold_case toupper icase <$> take len data) with
            | Some i => Z.of_nat i
            | None => UINT_MAX
            end).
Proof.
  intros Hcl Hfind Hlk Ha Hl Hb Hf. case_bool_decide as Hp; [by subst pat|].
  destruct (kmp_init_spec toupper alloc pat icase mem Hp Hcl Ha) as (kmp & E & HR).
  assert (init (kmp_ops toupper alloc) pat (length pat) icase = Some (inr (kmp, icase))) as Ei
    by (simpl; by rewrite E).
  exists (kmp, icase). split.
  - unfold textsearch_prepare. rewrite Hlk, Ei.
    rewrite (proj2 (Nat.eqb_neq (length pat) 0)); [done|]. by destruct pat.
  - pose proof (kmp_algo toupper alloc Hcl) as HA.
    rewrite (find_continuous_spec (kmp_ops toupper alloc) toupper textsearch_find fuel pat icase) by done.
    unfold search_result. rewrite drop_0. simpl. by destruct (find_sub _ _).
Qed.

(** A text in blocks of three bytes; [abcab] spans two of them. *)
Definition ex_text : bytes := B "xabcabcabd".
Definition ex_blocks (consumed : nat) : bytes := take 3 (drop consumed ex_text).
Definition ex_upper (c : Z) : Z := if ((97 <=? c) && (c <=? 122))%Z then (c - 32)%Z else c.
Definition ENOMEM : Z := 12%Z.
Definition ex_alloc (n : Z) : Z + list nat :=
  if (n <? 4096)%Z then inr (replicate (Z.to_nat ((n - 12) / 4)) 0%nat) else inl (- ENOMEM)%Z.

Lemma ex_clears : clears ex_alloc.
Proof.
  intros n mem. unfold ex_alloc. destruct (Z.ltb_spec n 4096); [|done].
  intros E. injection E as <-. rewrite length_replicate. split_and!; [lia|done|].
  destruct (Z.to_nat _); [by left|by right].
Qed.

Lemma ex_delivers : delivers ex_blocks ex_text.
Proof.
  intros c. unfold ex_blocks. split.
  - exists (drop 3 (drop c ex_text)). by rewrite take_drop.
  - intros E. apply (f_equal length) in E. rewrite length_take, length_drop in E. simpl length in *. lia.
Qed.

Lemma kmp_finds_witness :
  ∃ kmp, kmp_init ex_upper ex_alloc (B "ABcABD") 6 true = Some (inr kmp) ∧
    kmp_find ex_upper 11 kmp true ex_blocks 0 =
    Some (match find_sub (fold_case ex_upper true <$> B "ABcABD")
                 (drop 0 (fold_case ex_upper true <$> ex_text)) with
          | Some i => (Z.of_nat (0 + i), (0 + i + 6)%nat)
          | None => (UINT_MAX, 0%nat)
          end).
Proof.
  apply (kmp_finds ex_upper true ex_alloc (B "ABcABD") (replicate 8 0%nat) ex_blocks ex_text);
    [done|apply ex_clears|reflexivity|apply ex_delivers|reflexivity|simpl; lia|simpl; lia].
Defined.

Example kmp_run : ∃ kmp, kmp_init ex_upper ex_alloc (B "ABcABD") 6 true = Some (inr kmp) ∧
  take 6 (prefix_tbl kmp) = [0; 0; 0; 1; 2; 0] ∧
  kmp_find ex_upper 11 kmp true ex_blocks 0 = Some (4%Z, 10).
Proof. by eexists. Qed.

(** A second algorithm, and one without a [find]. *)
Definition ex_arg (id : positive) (n : bytes) (f : bool) : @ts_ops_arg (ts_kmp * bool) :=
  TsOpsArg id (Some n) (Some (λ _ _ _, None)) (if f then Some (λ _ _ _ _, None) else None)
    (Some (λ conf, pattern conf.1)) (Some (λ conf, pattern_len conf.1)).

Lemma registry_names_witness :
  let l := [kmp_ops ex_upper ex_alloc] in
  (textsearch_register l (ex_arg 2 (B "bm") true)).1 = 0%Z ∧
  registered (textsearch_register l (ex_arg 2 (B "bm") true)).2 ∧
  (textsearch_register l (ex_arg 2 (B "bm") false)).1 = (- KString.EINVAL)%Z ∧
  (textsearch_unregister l (ex_arg 2 (B "bm") true)).1 = (- ENOENT)%Z ∧
  (textsearch_unregister l (ex_arg 1 (B "kmp") true)) = (0%Z, []).
Proof.
  intros l. split; [reflexivity|]. split; [|split_and!; reflexivity].
  pose proof (registry_names l (ex_arg 2 (B "bm") true)) as H.
  destruct H as [[H _] _]; [split; apply NoDup_singleton| |exact H].
  intros o ->%list_elem_of_singleton E. discriminate.
Defined.

Lemma textsearch_kmp_witness :
  ∃ conf,
    textsearch_prepare (λ _, true) id [kmp_ops ex_upper ex_alloc] (B "kmp") (B "cab") 3 false false =
      Some (inr (conf, kmp_ops ex_upper ex_alloc), [kmp_ops ex_upper ex_alloc]) ∧
    fst <$> textsearch_find_continuous (λ o conf gnb, find o 11 conf gnb 0%nat)
      (kmp_ops ex_upper ex_alloc) conf ex_text 10 = Some 3%Z.
Proof.
  apply (textsearch_kmp ex_upper ex_alloc (λ _, true) id [kmp_ops ex_upper ex_alloc] (B "cab") false
    (replicate 4 0%nat) ex_text 10 (λ o conf gnb, find o 11 conf gnb 0%nat) 11);
    try done; [apply ex_clears|lia].
Defined.

End KTextSearch.
