(* ===== verification/KRbtree.v ===== *)
(** * Red-black trees, [lib/rbtree.c]

    The heap maps the address of a node to its three words; [NULL] is 0.  Parent and
    colour share the word [__rb_parent_color].  What the code takes from
    [linux/rbtree.h] and [linux/rbtree_augmented.h] is the class [RbHeader]: how the
    word is made and read, and [__rb_change_child], with the laws that the code relies
    on.  Among them: a red node's word is the address of its parent ([rb_red_parent]),
    and setting the bit [RB_BLACK] in it makes the node black ([rb_set_black]).

    The code treats its left and its right cases in two branches that mirror each other.
    Here a branch has a direction as an argument: [L] gives the first, [R] the second.
    [None] is an access through an invalid pointer, or no fuel left. *)
From stdpp Require Import base numbers sets gmap list.
From S2P Require Import Prelude KHeap.
Import KHeap.

Module KRbtree.
Local Open Scope Z_scope.

Record rb_node := RbNode { __rb_parent_color : Z; rb_right : Z; rb_left : Z }.

(** The nodes, and [root->rb_node]. *)
Record state := State { mem : gmap Z rb_node; rb_root : Z }.

Inductive dir := L | R.
Definition opp (d : dir) : dir := match d with L => R | R => L end.

#[export] Instance dir_eq_dec : EqDecision dir.
Proof. solve_decision. Defined.

(** ** Reading and writing nodes *)

Definition node (p : Z) : M state rb_node := λ s,
  match mem s !! p with Some n => Some (n, s) | None => None end.
Definition put (p : Z) (n : rb_node) : M state unit := λ s,
  Some ((), State (<[p := n]> (mem s)) (rb_root s)).

Definition root_node : M state Z := λ s, Some (rb_root s, s).

Definition get (d : dir) (n : rb_node) : Z := match d with L => rb_left n | R => rb_right n end.
Definition set (d : dir) (n : rb_node) (v : Z) : rb_node :=
  match d with
  | L => RbNode (__rb_parent_color n) (rb_right n) v
  | R => RbNode (__rb_parent_color n) v (rb_left n)
  end.

(** [p->rb_left] or [p->rb_right], read and written with [WRITE_ONCE]. *)
Definition child (d : dir) (p : Z) : M state Z := n ← node p; mret (get d n).
Definition set_child (d : dir) (p v : Z) : M state unit := n ← node p; put p (set d n v).

Definition parent_color (p : Z) : M state Z := n ← node p; mret (__rb_parent_color n).
Definition set_parent_color_word (p w : Z) : M state unit :=
  n ← node p; put p (RbNode w (rb_right n) (rb_left n)).

(** Addresses of nodes: not [NULL], and aligned, so that two bits are free. *)
Definition node_addr (p : Z) : Prop := p ≠ 0 ∧ p mod 4 = 0.

Definition valid (p : Z) : Prop := p = 0 ∨ node_addr p.

(** The colours of the model, and their codes. *)
Inductive color := Red | Black.

#[export] Instance color_eq_dec : EqDecision color.
Proof. solve_decision. Defined.

Class RbHeader := {
  RB_RED : Z;
  RB_BLACK : Z;
  col (c : color) : Z := match c with Red => RB_RED | Black => RB_BLACK end;
  word_parent : Z → Z;
  word_is_red : Z → bool;
  word_is_black : Z → bool;
  make_word : Z → Z → Z;
  word_set_parent : Z → Z → Z;
  RB_EMPTY_NODE : Z → Z → bool;
  __rb_change_child : Z → Z → Z → M state unit;
  __rb_change_child_rcu : Z → Z → Z → M state unit;
  make_word_parent p c : valid p → word_parent (make_word p (col c)) = p;
  make_word_red p c : valid p →
    word_is_red (make_word p (col c)) = match c with Red => true | Black => false end;
  make_word_black p c : valid p →
    word_is_black (make_word p (col c)) = match c with Red => false | Black => true end;
  make_word_set p p' c : valid p → valid p' →
    word_set_parent (make_word p (col c)) p' = make_word p' (col c);
  red_word p : valid p → make_word p RB_RED = p;
  black_word p : valid p → Z.lor (make_word p RB_RED) RB_BLACK = make_word p RB_BLACK;
  linked_node p q c : node_addr p → valid q → q ≠ p → RB_EMPTY_NODE p (make_word q (col c)) = false;
  __rb_change_child_spec old new parent h r :
    __rb_change_child old new parent (State h r) =
    if parent =? 0 then Some ((), State h new)
    else match h !! parent with
         | Some n => Some ((), State (<[parent := set (if rb_left n =? old then L else R) n new]> h) r)
         | None => None
         end;
  __rb_change_child_rcu_spec old new parent h r :
    __rb_change_child_rcu old new parent (State h r) =
    __rb_change_child old new parent (State h r);
}.

(** ** Distinct places

    A list of distinct addresses cut into parts has a function that tells the part of an
    address, so that addresses of different parts are told apart by [congruence]. *)

Inductive part := One (a : Z) | Many (l : list Z).
Definition part_list (q : part) : list Z := match q with One a => [a] | Many l => l end.

Fixpoint tagged (f : Z → nat) (i : nat) (qs : list part) : Prop :=
  match qs with
  | [] => True
  | One a :: qs => f a = i ∧ tagged f (S i) qs
  | Many l :: qs => NoDup l ∧ (∀ x, x ∈ l → f x = i) ∧ tagged f (S i) qs
  end.

Lemma tagged_ext f g qs i :
  (∀ x, x ∈ mjoin (part_list <$> qs) → f x = g x) → tagged f i qs → tagged g i qs.
Proof.
  induction qs as [|q qs IH] in i |- *; [done|]. simpl. intros E.
  destruct q as [a|l]; simpl in *.
  - intros [<- Ht]. split; [symmetry; apply E; set_solver|].
    apply IH; [|done]. intros x Hx. apply E. set_solver.
  - intros (? & Hl & Ht). split_and!; [done| |].
    + intros x Hx. rewrite <- E by set_solver. by apply Hl.
    + apply IH; [|done]. intros x Hx. apply E. set_solver.
Qed.

Lemma tags qs l : NoDup l → l ≡ₚ mjoin (part_list <$> qs) → ∃ f, tagged f 0 qs.
Proof.
  intros Hl Hp. rewrite Hp in Hl. clear Hp l. generalize 0%nat.
  induction qs as [|q qs IH]; intros i; [by exists (λ _, 0%nat)|].
  simpl in Hl. apply NoDup_app in Hl as (Hq & Hd & Hl).
  destruct (IH Hl (S i)) as [f Hf].
  set (g x := if decide (x ∈ part_list q) then i else f x).
  assert (Hg : ∀ x, x ∈ part_list q → g x = i) by (intros; unfold g; by case_decide).
  assert (Ht : tagged g (S i) qs).
  { eapply tagged_ext; [|exact Hf]. intros x Hx. unfold g. case_decide as E; [|done].
    by destruct (Hd x E). }
  exists g. destruct q as [a|l]; simpl; split_and!; try done. apply Hg. simpl. set_solver.
Qed.

Lemma nodup_sub (l k : list Z) : NoDup l → k ⊆+ l → NoDup k.
Proof. intros Hl [k' E]%submseteq_Permutation. rewrite E in Hl. by apply NoDup_app in Hl as [? _]. Qed.

(** Show that an address is in no, or in another, part of the heap. *)
Ltac off :=
  let E := fresh in intros E; decompose_list_elem_of;
  repeat match goal with
         | H : ∀ x, x ∈ ?l → _ = _, H' : _ ∈ ?l |- _ => apply H in H'
         end; congruence.

Ltac parts H qs :=
  let f := fresh "f" in
  let Hf := fresh in
  edestruct (tags qs _ H) as [f Hf];
  [simpl; rewrite ?app_nil_r; solve_Permutation | simpl in Hf; destruct_and? Hf].

Definition same_outside (l : list Z) (h h' : gmap Z rb_node) : Prop :=
  ∀ z, z ∉ l → h' !! z = h !! z.

#[export] Instance same_outside_perm : Proper ((≡ₚ) ==> (=) ==> (=) ==> iff) same_outside.
Proof. intros l l' E h ? <- h' ? <-. unfold same_outside. by setoid_rewrite E. Qed.

Lemma so_refl l h : same_outside l h h.
Proof. by intros z Hz. Qed.
Lemma so_insert l h h' p v :
  p ∈ l → same_outside l h h' → same_outside l h (<[p := v]> h').
Proof. intros Hp E z Hz. rewrite lookup_insert_ne by set_solver. by apply E. Qed.
Lemma so_step l l' h h1 h2 :
  same_outside l' h1 h2 → l' ⊆ l → same_outside l h h1 → same_outside l h h2.
Proof. intros E Hl E1 z Hz. rewrite (E z) by set_solver. by apply E1. Qed.

(** Read an updated heap. *)
Ltac look :=
  repeat match goal with
         | |- context [<[?i := _]> _ !! ?i] => rewrite lookup_insert_eq
         | |- context [<[?i := ?v]> ?m !! ?j] => rewrite (lookup_insert_ne m i j v) by off
         | H : ?h !! ?i = Some _ |- context [?h !! ?i] => rewrite H
         | |- context [?h !! ?i] =>
             match goal with
             | H : same_outside _ _ h |- _ => rewrite (H i) by off
             end
         | |- context [?h !! _] => is_var h; unfold h
         end.

Section rbtree.
Context `{RbHeader}.

Definition rb_parent (p : Z) : M state Z := w ← parent_color p; mret (word_parent w).
Definition rb_is_red (p : Z) : M state bool := w ← parent_color p; mret (word_is_red w).
Definition rb_is_black (p : Z) : M state bool := w ← parent_color p; mret (word_is_black w).
Definition rb_set_parent (p q : Z) : M state unit :=
  w ← parent_color p; set_parent_color_word p (word_set_parent w q).
Definition rb_set_parent_color (p q c : Z) : M state unit :=
  set_parent_color_word p (make_word q c).

Definition rb_set_black (rb : Z) : M state unit :=
  w ← parent_color rb; set_parent_color_word rb (Z.lor w RB_BLACK).
Definition rb_red_parent (red : Z) : M state Z := parent_color red.

Definition __rb_rotate_set_parents (old new color : Z) : M state unit :=
  parent ← rb_parent old;
  w ← parent_color old;
  _ ← set_parent_color_word new w;
  _ ← rb_set_parent_color old new color;
  __rb_change_child old new parent.

(** The side of [parent] where [node] is not the right child, and what is on the other
    side: the reads and the test that begin a round of both loops. *)
Definition other_child (node parent : Z) : M state (dir * Z) :=
  tmp ← child R parent;
  if negb (node =? tmp) then mret (L, tmp)
  else
    tmp ← child L parent;
    mret (R, tmp).

(** [if (p) ...] *)
Definition when (p : Z) (m : M state unit) : M state unit := if p =? 0 then mret () else m.

(** ** Insertion *)

Section insert.
Context (augment_rotate : Z → Z → M state unit).

(** Case 2: the rotation at the parent; the parent and [tmp] afterwards. *)
Definition insert_case2 (d : dir) (node parent : Z) : M state (Z * Z) :=
  tmp ← child d node;
  _ ← set_child (opp d) parent tmp;
  _ ← set_child d node parent;
  _ ← when tmp (rb_set_parent_color tmp parent RB_BLACK);
  _ ← rb_set_parent_color parent node RB_RED;
  _ ← augment_rotate parent node;
  tmp ← child (opp d) node;
  mret (node, tmp).

(** Case 3: the rotation at the grandparent. *)
Definition insert_case3 (d : dir) (parent gparent tmp : Z) : M state unit :=
  _ ← set_child d gparent tmp;
  _ ← set_child (opp d) parent gparent;
  _ ← when tmp (rb_set_parent_color tmp gparent RB_BLACK);
  _ ← __rb_rotate_set_parents gparent parent RB_RED;
  augment_rotate gparent parent.

(** Cases 2 and 3, the uncle being black. *)
Definition insert_rotate (d : dir) (node parent gparent : Z) : M state unit :=
  tmp ← child (opp d) parent;
  r ← (if node =? tmp then insert_case2 d node parent else mret (parent, tmp));
  let '(parent, tmp) := (r : Z * Z) in
  insert_case3 d parent gparent tmp.

Fixpoint __rb_insert_loop (fuel : nat) (node parent : Z) : M state unit :=
  match fuel with
  | O => fail
  | S fuel =>
      if parent =? 0 then rb_set_parent_color node 0 RB_BLACK
      else
        b ← rb_is_black parent;
        if (b : bool) then mret ()
        else
          gparent ← rb_red_parent parent;
          r ← other_child parent gparent;
          let '(d, tmp) := (r : dir * Z) in
          red ← (if tmp =? 0 then mret false else rb_is_red tmp);
          if (red : bool) then
            _ ← rb_set_parent_color tmp gparent RB_BLACK;
            _ ← rb_set_parent_color parent gparent RB_BLACK;
            let node := gparent in
            parent ← rb_parent node;
            _ ← rb_set_parent_color node parent RB_RED;
            __rb_insert_loop fuel node parent
          else insert_rotate d node parent gparent
  end.

Definition __rb_insert (fuel : nat) (node : Z) : M state unit :=
  parent ← rb_red_parent node; __rb_insert_loop fuel node parent.

End insert.

(** ** Rebalancing after a removal *)

Section erase.
Context (augment_rotate : Z → Z → M state unit).

(** Case 1: the sibling is red; the new sibling. *)
Definition erase_case1 (d : dir) (parent sibling : Z) : M state Z :=
  tmp1 ← child d sibling;
  _ ← set_child (opp d) parent tmp1;
  _ ← set_child d sibling parent;
  _ ← rb_set_parent_color tmp1 parent RB_BLACK;
  _ ← __rb_rotate_set_parents parent sibling RB_RED;
  _ ← augment_rotate parent sibling;
  mret tmp1.

(** Case 3: the rotation at the sibling; [tmp1] and the sibling afterwards. *)
Definition erase_case3 (d : dir) (parent sibling tmp2 : Z) : M state (Z * Z) :=
  tmp1 ← child (opp d) tmp2;
  _ ← set_child d sibling tmp1;
  _ ← set_child (opp d) tmp2 sibling;
  _ ← set_child (opp d) parent tmp2;
  _ ← when tmp1 (rb_set_parent_color tmp1 sibling RB_BLACK);
  _ ← augment_rotate sibling tmp2;
  mret (sibling, tmp2).

(** Case 4: the rotation at the parent. *)
Definition erase_case4 (d : dir) (parent sibling tmp1 : Z) : M state unit :=
  tmp2 ← child d sibling;
  _ ← set_child (opp d) parent tmp2;
  _ ← set_child d sibling parent;
  _ ← rb_set_parent_color tmp1 sibling RB_BLACK;
  _ ← when tmp2 (rb_set_parent tmp2 parent);
  _ ← __rb_rotate_set_parents parent sibling RB_BLACK;
  augment_rotate parent sibling.

(** [!p || rb_is_black(p)] *)
Definition null_or_black (p : Z) : M state bool := if p =? 0 then mret true else rb_is_black p.

(** The cases with a black sibling; [continue] goes on with a new [node] and [parent]. *)
Definition erase_black (continue : Z → Z → M state unit) (d : dir) (parent sibling : Z)
    : M state unit :=
  tmp1 ← child (opp d) sibling;
  b1 ← null_or_black tmp1;
  if (b1 : bool) then
    tmp2 ← child d sibling;
    b2 ← null_or_black tmp2;
    if (b2 : bool) then
      _ ← rb_set_parent_color sibling parent RB_RED;
      red ← rb_is_red parent;
      if (red : bool) then rb_set_black parent
      else
        let node := parent in
        parent ← rb_parent node;
        if parent =? 0 then mret () else continue node parent
    else
      r ← erase_case3 d parent sibling tmp2;
      let '(tmp1, sibling) := (r : Z * Z) in
      erase_case4 d parent sibling tmp1
  else erase_case4 d parent sibling tmp1.

Fixpoint ____rb_erase_color_loop (fuel : nat) (node parent : Z) : M state unit :=
  match fuel with
  | O => fail
  | S fuel =>
      r ← other_child node parent;
      let '(d, sibling) := (r : dir * Z) in
      red ← rb_is_red sibling;
      sibling ← (if (red : bool) then erase_case1 d parent sibling else mret sibling);
      erase_black (____rb_erase_color_loop fuel) d parent sibling
  end.

Definition ____rb_erase_color (fuel : nat) (parent : Z) : M state unit :=
  ____rb_erase_color_loop fuel 0 parent.

Definition __rb_erase_color (fuel : nat) (parent : Z) : M state unit :=
  ____rb_erase_color fuel parent.

End erase.

(** ** The entry points *)

Definition dummy_rotate (old new : Z) : M state unit := mret ().

Definition rb_insert_color (fuel : nat) (node : Z) : M state unit :=
  __rb_insert dummy_rotate fuel node.

Definition __rb_insert_augmented (augment_rotate : Z → Z → M state unit) (fuel : nat) (node : Z)
    : M state unit :=
  __rb_insert augment_rotate fuel node.

(** [__rb_erase_augmented] is in the header: it unlinks the node and gives the parent at
    which to rebalance, or [NULL]. *)
Definition rb_erase (__rb_erase_augmented : Z → M state Z) (fuel : nat) (node : Z)
    : M state unit :=
  rebalance ← __rb_erase_augmented node;
  when rebalance (____rb_erase_color dummy_rotate fuel rebalance).

(** ** Walks *)

(** [while (n->rb_left) n = n->rb_left], or to the right. *)
Fixpoint descend (fuel : nat) (d : dir) (n : Z) : M state Z :=
  match fuel with
  | O => fail
  | S fuel =>
      c ← child d n;
      if c =? 0 then mret n else descend fuel d c
  end.

Definition rb_end (d : dir) (fuel : nat) : M state Z :=
  n ← root_node;
  if n =? 0 then mret 0 else descend fuel d n.

Definition rb_first (fuel : nat) : M state Z := rb_end L fuel.
Definition rb_last (fuel : nat) : M state Z := rb_end R fuel.

(** [while ((parent = rb_parent(node)) && node == parent->rb_right) node = parent], or
    with [rb_left]; the parent at the end. *)
Fixpoint ascend (fuel : nat) (d : dir) (node : Z) : M state Z :=
  match fuel with
  | O => fail
  | S fuel =>
      parent ← rb_parent node;
      if parent =? 0 then mret parent
      else
        c ← child d parent;
        if node =? c then ascend fuel d parent else mret parent
  end.

(** The neighbour on the side [d]: [rb_next] for [R], [rb_prev] for [L]. *)
Definition rb_neighbour (d : dir) (fuel : nat) (node : Z) : M state Z :=
  w ← parent_color node;
  if RB_EMPTY_NODE node w then mret 0
  else
    c ← child d node;
    if negb (c =? 0) then descend fuel (opp d) c
    else ascend fuel d node.

Definition rb_next (fuel : nat) (node : Z) : M state Z := rb_neighbour R fuel node.
Definition rb_prev (fuel : nat) (node : Z) : M state Z := rb_neighbour L fuel node.

Fixpoint rb_left_deepest_node (fuel : nat) (node : Z) : M state Z :=
  match fuel with
  | O => fail
  | S fuel =>
      l ← child L node;
      if negb (l =? 0) then rb_left_deepest_node fuel l
      else
        r ← child R node;
        if negb (r =? 0) then rb_left_deepest_node fuel r else mret node
  end.

Definition rb_next_postorder (fuel : nat) (node : Z) : M state Z :=
  if node =? 0 then mret 0
  else
    parent ← rb_parent node;
    if parent =? 0 then mret parent
    else
      l ← child L parent;
      r ← child R parent;
      if (node =? l) && negb (r =? 0) then rb_left_deepest_node fuel r else mret parent.

Definition rb_first_postorder (fuel : nat) : M state Z :=
  n ← root_node;
  if n =? 0 then mret 0 else rb_left_deepest_node fuel n.

(** ** Replacement *)

Definition replace_with (change_child : Z → Z → Z → M state unit) (victim new : Z)
    : M state unit :=
  parent ← rb_parent victim;
  n ← node victim;
  _ ← node new;
  _ ← put new n;
  l ← child L victim;
  _ ← when l (rb_set_parent l new);
  r ← child R victim;
  _ ← when r (rb_set_parent r new);
  change_child victim new parent.

Definition rb_replace_node (victim new : Z) : M state unit :=
  replace_with __rb_change_child victim new.
Definition rb_replace_node_rcu (victim new : Z) : M state unit :=
  replace_with __rb_change_child_rcu victim new.

(** ** Trees in the heap *)

Inductive tree := Leaf | Node (c : color) (l : tree) (a : Z) (r : tree).

Definition addr (t : tree) : Z := match t with Leaf => 0 | Node _ _ a _ => a end.
Definition root_color (t : tree) : color := match t with Leaf => Black | Node c _ _ _ => c end.
Definition recolor (c : color) (t : tree) : tree :=
  match t with Leaf => Leaf | Node _ l a r => Node c l a r end.

(** The nodes, in order. *)
Fixpoint addrs (t : tree) : list Z :=
  match t with Leaf => [] | Node _ l a r => addrs l ++ a :: addrs r end.

(** A node and its words, with the child on the side [d] first. *)
Definition mk (d : dir) (c : color) (x : tree) (a : Z) (y : tree) : tree :=
  match d with L => Node c x a y | R => Node c y a x end.
Definition nd (d : dir) (w x y : Z) : rb_node :=
  match d with L => RbNode w y x | R => RbNode w x y end.

(** The tree [t] is in the heap, with [p] for the parent of its root. *)
Fixpoint tree_at (h : gmap Z rb_node) (p : Z) (t : tree) : Prop :=
  match t with
  | Leaf => True
  | Node c l a r =>
      node_addr a ∧ h !! a = Some (RbNode (make_word p (col c)) (addr r) (addr l)) ∧
      tree_at h a l ∧ tree_at h a r
  end.

(** What surrounds a subtree: from inside out, the side it hangs on, the colour and the
    address of its parent, and its sibling. *)
Definition frame : Type := dir * color * Z * tree.

Definition up (k : list frame) : Z := match k with [] => 0 | (_, _, a, _) :: _ => a end.
Definition plug (t : tree) (f : frame) : tree := let '(d, c, a, y) := f in mk d c t a y.
Definition plugs (k : list frame) (t : tree) : tree := foldl plug t k.

Fixpoint ctx_addrs (k : list frame) : list Z :=
  match k with [] => [] | (_, _, a, y) :: k => a :: addrs y ++ ctx_addrs k end.

Fixpoint ctx_at (h : gmap Z rb_node) (root : Z) (k : list frame) (x : Z) : Prop :=
  match k with
  | [] => root = x
  | (d, c, a, y) :: k =>
      node_addr a ∧ h !! a = Some (nd d (make_word (up k) (col c)) x (addr y)) ∧
      tree_at h a y ∧ ctx_at h root k a
  end.

(** The state holds the tree [plugs k t]; all its nodes are distinct. *)
Definition rep (s : state) (k : list frame) (t : tree) : Prop :=
  NoDup (addrs t ++ ctx_addrs k) ∧ tree_at (mem s) (up k) t ∧
  ctx_at (mem s) (rb_root s) k (addr t).

(** ** Nodes by direction *)

Lemma opp_opp d : opp (opp d) = d.
Proof. by destruct d. Qed.
Lemma nd_opp d w x y : nd (opp d) w x y = nd d w y x.
Proof. by destruct d. Qed.
Lemma mk_opp d c x a y : mk (opp d) c x a y = mk d c y a x.
Proof. by destruct d. Qed.
Lemma addr_mk d c x a y : addr (mk d c x a y) = a.
Proof. by destruct d. Qed.
Lemma addrs_mk d c x a y : addrs (mk d c x a y) ≡ₚ a :: addrs x ++ addrs y.
Proof. destruct d; simpl; solve_Permutation. Qed.

Lemma tree_at_mk h p d c x a y : tree_at h p (mk d c x a y) ↔
  node_addr a ∧ h !! a = Some (nd d (make_word p (col c)) (addr x) (addr y)) ∧
  tree_at h a x ∧ tree_at h a y.
Proof. destruct d; simpl; tauto. Qed.

Section runs.
Context (h : gmap Z rb_node) (r p : Z) (d : dir) (w x y : Z)
  (Hp : h !! p = Some (nd d w x y)).

Lemma rb_node_run : node p (State h r) = Some (nd d w x y, State h r).
Proof. unfold node. simpl. by rewrite Hp. Qed.

Lemma child_run : child d p (State h r) = Some (x, State h r).
Proof. unfold child. run_with rb_node_run. by destruct d. Qed.
Lemma child_opp_run : child (opp d) p (State h r) = Some (y, State h r).
Proof. unfold child. run_with rb_node_run. by destruct d. Qed.
Lemma set_child_run v :
  set_child d p v (State h r) = Some ((), State (<[p := nd d w v y]> h) r).
Proof. unfold set_child. run_with rb_node_run. by destruct d. Qed.
Lemma set_child_opp_run v :
  set_child (opp d) p v (State h r) = Some ((), State (<[p := nd d w x v]> h) r).
Proof. unfold set_child. run_with rb_node_run. by destruct d. Qed.
Lemma parent_color_run : parent_color p (State h r) = Some (w, State h r).
Proof. unfold parent_color. run_with rb_node_run. by destruct d. Qed.
Lemma set_word_run v :
  set_parent_color_word p v (State h r) = Some ((), State (<[p := nd d v x y]> h) r).
Proof. unfold set_parent_color_word. run_with rb_node_run. by destruct d. Qed.
Lemma set_parent_color_run q c :
  rb_set_parent_color p q c (State h r) = Some ((), State (<[p := nd d (make_word q c) x y]> h) r).
Proof. apply set_word_run. Qed.
End runs.

Section words.
Context (h : gmap Z rb_node) (r p : Z) (d : dir) (q : Z) (c : color) (x y : Z)
  (Hp : h !! p = Some (nd d (make_word q (col c)) x y)) (Hq : valid q).

Lemma rb_parent_run : rb_parent p (State h r) = Some (q, State h r).
Proof. unfold rb_parent. run_with (parent_color_run _ r _ _ _ _ _ Hp). by rewrite make_word_parent. Qed.
Lemma rb_is_red_run :
  rb_is_red p (State h r) = Some (match c with Red => true | Black => false end, State h r).
Proof. unfold rb_is_red. run_with (parent_color_run _ r _ _ _ _ _ Hp). by rewrite make_word_red. Qed.
Lemma rb_is_black_run :
  rb_is_black p (State h r) = Some (match c with Red => false | Black => true end, State h r).
Proof. unfold rb_is_black. run_with (parent_color_run _ r _ _ _ _ _ Hp). by rewrite make_word_black. Qed.
Lemma rb_set_parent_run q' : valid q' → rb_set_parent p q' (State h r) =
  Some ((), State (<[p := nd d (make_word q' (col c)) x y]> h) r).
Proof.
  intros Hq'. unfold rb_set_parent. run_with (parent_color_run _ r _ _ _ _ _ Hp).
  rewrite make_word_set by done. eapply set_word_run. exact Hp.
Qed.
End words.

(** ** Changing the root of a subtree *)

Definition repar (h : gmap Z rb_node) (q : Z) (c : color) (t : tree) : gmap Z rb_node :=
  match t with
  | Leaf => h
  | Node _ l a r => <[a := RbNode (make_word q (col c)) (addr r) (addr l)]> h
  end.

Lemma tree_frame h h' p t :
  (∀ z, z ∈ addrs t → h' !! z = h !! z) → tree_at h p t → tree_at h' p t.
Proof.
  induction t as [|c l IHl a x IHr] in p |- *; simpl; [done|]. intros E (? & Ha & Hl & Hr).
  split_and!; [done| | |].
  - rewrite E; [done|set_solver].
  - apply IHl; [|done]. intros z Hz. apply E. set_solver.
  - apply IHr; [|done]. intros z Hz. apply E. set_solver.
Qed.

Lemma ctx_frame h h' r k x :
  (∀ z, z ∈ ctx_addrs k → h' !! z = h !! z) → ctx_at h r k x → ctx_at h' r k x.
Proof.
  induction k as [|[[[d c] a] y] k IH] in x |- *; simpl; [done|].
  intros E (? & Ha & Hy & Hk). split_and!; [done| | |].
  - rewrite E; [done|set_solver].
  - eapply tree_frame; [|exact Hy]. intros z Hz. apply E. set_solver.
  - apply IH; [|done]. intros z Hz. apply E. set_solver.
Qed.

Lemma repar_ne h q c t z : z ∉ addrs t → repar h q c t !! z = h !! z.
Proof. destruct t; simpl; [done|]. intros Hz. apply lookup_insert_ne. set_solver. Qed.

Lemma recolor_same t c : root_color t = c → recolor c t = t.
Proof. by destruct t; simpl; intros; subst. Qed.
Lemma addr_recolor c t : addr (recolor c t) = addr t.
Proof. by destruct t. Qed.
Lemma addrs_recolor c t : addrs (recolor c t) = addrs t.
Proof. by destruct t. Qed.

Lemma repar_at h p q c t :
  NoDup (addrs t) → tree_at h p t → tree_at (repar h q c t) q (recolor c t).
Proof.
  destruct t as [|c' l a x]; simpl; [done|]. intros Hnd (? & _ & Hl & Hx).
  apply NoDup_app in Hnd as (_ & Hd & Ha). apply NoDup_cons in Ha as [Ha _].
  rewrite lookup_insert_eq. split_and!; [done..| |];
    (eapply tree_frame; [|eassumption]); intros z Hz; apply lookup_insert_ne; set_solver.
Qed.

Lemma tree_root h p t : tree_at h p t → t = Leaf ∨
  ∃ d x y, node_addr (addr t) ∧ addr t ∈ addrs t ∧ addrs x ⊆ addrs t ∧ addrs y ⊆ addrs t ∧
    t = mk d (root_color t) x (addr t) y ∧
    h !! addr t = Some (nd d (make_word p (col (root_color t))) (addr x) (addr y)).
Proof.
  destruct t as [|c l a x]; simpl; [by left|]. intros (? & ? & _).
  right. exists L, l, x. split_and!; [done|set_solver..|done|done].
Qed.

Lemma when_set_parent_color h r p q c t : tree_at h p t →
  when (addr t) (rb_set_parent_color (addr t) q (col c)) (State h r) =
  Some ((), State (repar h q c t) r).
Proof.
  destruct t as [|c' l a x]; [done|]. intros ([Ha _] & E & _). unfold when.
  destruct (Z.eqb_spec (addr (Node c' l a x)) 0); [done|].
  apply (set_parent_color_run h r a L _ _ _ E).
Qed.

Lemma when_set_parent h r p q t : valid p → valid q → tree_at h p t →
  when (addr t) (rb_set_parent (addr t) q) (State h r) =
  Some ((), State (repar h q (root_color t) t) r).
Proof.
  destruct t as [|c' l a x]; [done|]. intros ?? ([Ha _] & E & _). unfold when.
  destruct (Z.eqb_spec (addr (Node c' l a x)) 0); [done|].
  by apply (rb_set_parent_run h r a L p c' _ _ E).
Qed.

Lemma up_valid h r k x : ctx_at h r k x → valid (up k).
Proof. destruct k as [|[[[d c] a] y] k]; [by left|]. intros (? & _). by right. Qed.

Lemma up_nonzero h r k x : ctx_at h r k x → k ≠ [] → up k ≠ 0.
Proof. destruct k as [|[[[d c] a] y] k]; [done|]. by intros ([? _] & _) _. Qed.

Lemma change_child_ctx h r k old new :
  ctx_at h r k old → NoDup (ctx_addrs k) → old ≠ 0 → old ∉ ctx_addrs k →
  ∃ h' r', __rb_change_child old new (up k) (State h r) = Some ((), State h' r') ∧
    ctx_at h' r' k new ∧ same_outside (ctx_addrs k) h h'.
Proof.
  destruct k as [|[[[d c] a] y] k]; simpl; intros Hk Hnd Hold Hout;
    rewrite __rb_change_child_spec.
  { by exists h, new. }
  destruct Hk as ([Ha0 Ha] & E & Hy & Hk). destruct (Z.eqb_spec a 0); [done|]. rewrite E.
  apply NoDup_cons in Hnd as [Hay Hnd]. apply not_elem_of_cons in Hout as [_ Hout].
  eexists _, r. split; [reflexivity|].
  assert (Es : set (if rb_left (nd d (make_word (up k) (col c)) old (addr y)) =? old then L else R)
                 (nd d (make_word (up k) (col c)) old (addr y)) new =
               nd d (make_word (up k) (col c)) new (addr y)).
  { destruct d; simpl; [by rewrite Z.eqb_refl|].
    destruct (Z.eqb_spec (addr y) old) as [Ey|]; [|done]. exfalso.
    destruct y as [|c' l b x]; simpl in *; [done|]. subst. set_solver. }
  rewrite Es, lookup_insert_eq. split_and!; [done..| | |].
  - eapply tree_frame; [|exact Hy]. intros z Hz. apply lookup_insert_ne. set_solver.
  - eapply ctx_frame; [|exact Hk]. intros z Hz. apply lookup_insert_ne. set_solver.
  - intros z Hz. apply lookup_insert_ne. set_solver.
Qed.

(** Show that only the nodes of a tree and its surroundings were written. *)
Ltac outside :=
  repeat match goal with
         | |- same_outside _ ?h ?h => apply so_refl
         | |- same_outside _ _ (<[_ := _]> _) => apply so_insert; [rewrite ?addrs_mk; clear; set_solver|]
         | H : same_outside _ _ ?h |- same_outside _ _ ?h =>
             eapply (so_step _ _ _ _ _ H); [rewrite ?addrs_mk; clear; set_solver|]
         | |- same_outside _ _ ?h => is_var h; unfold h
         end.

Ltac nodup H :=
  eapply (nodup_sub _ _ H); clear; rewrite ?addrs_mk; simpl; solve_submseteq.

(** ** Rotations *)

Lemma rotate_parents e g p c cg x y u k j h r :
  h !! g = Some (nd e (make_word (up k) (col cg)) (addr y) (addr u)) →
  h !! p = Some (nd e j (addr x) g) →
  node_addr g → node_addr p →
  tree_at h p x → tree_at h g y → tree_at h g u → ctx_at h r k g →
  NoDup (addrs (mk e cg x p (mk e c y g u)) ++ ctx_addrs k) →
  ∃ s', __rb_rotate_set_parents g p (col c) (State h r) = Some ((), s') ∧
    rep s' k (mk e cg x p (mk e c y g u)) ∧ same_outside (addrs (mk e cg x p (mk e c y g u)) ++ ctx_addrs k) h (mem s').
Proof.
  intros Hg Hp Ag Ap Hx Hy Hu Hk Hnd. pose proof Hnd as Hnd'.
  rewrite !addrs_mk in Hnd'.
  parts Hnd' [Many (addrs x); One p; Many (addrs y); One g; Many (addrs u); Many (ctx_addrs k)].
  pose proof (up_valid _ _ _ _ Hk) as Hv. unfold __rb_rotate_set_parents.
  run_with (rb_parent_run h r g _ _ _ _ _ Hg Hv).
  run_with (parent_color_run h r g _ _ _ _ Hg).
  run_with (set_word_run h r p _ _ _ _ Hp (make_word (up k) (col cg))).
  set (h1 := <[p := _]> h).
  assert (E1 : h1 !! g = Some (nd e (make_word (up k) (col cg)) (addr y) (addr u))).
  { by look. }
  run_with (set_parent_color_run h1 r g _ _ _ _ E1 p (col c)). set (h2 := <[g := _]> h1).
  destruct (change_child_ctx h2 r k g p) as (h3 & r3 & -> & Hk3 & O3).
  { eapply ctx_frame; [|exact Hk]. intros z Hz. by look. }
  { done. } { apply Ag. } { off. }
  exists (State h3 r3). split_and!; [done| |].
  - split_and!; [done| |by rewrite addr_mk]. apply tree_at_mk. rewrite addr_mk. simpl.
    split_and!; [done| | |].
    + rewrite (O3 p) by off. by look.
    + eapply tree_frame; [|exact Hx]. intros z Hz. by look.
    + apply tree_at_mk. split_and!; [done| | |].
      * by look.
      * eapply tree_frame; [|exact Hy]. intros z Hz. by look.
      * eapply tree_frame; [|exact Hu]. intros z Hz. by look.
  - simpl. outside.
Qed.

Lemma repar_outside h q c t : same_outside (addrs t) h (repar h q c t).
Proof. intros z Hz. by apply repar_ne. Qed.

Lemma other_child_run h r g d w x y :
  h !! g = Some (nd d w x y) → x ≠ y →
  other_child x g (State h r) = Some ((d, y), State h r).
Proof.
  intros Hg Hxy. unfold other_child. destruct d.
  - run_with (child_opp_run h r g L _ _ _ Hg). by destruct (Z.eqb_spec x y).
  - run_with (child_run h r g R _ _ _ Hg). rewrite Z.eqb_refl. simpl.
    by run_with (child_opp_run h r g R _ _ _ Hg).
Qed.

(** ** Red-black trees *)

(** Every path to a leaf has [n] black nodes; both children of a red node are black. *)
Fixpoint rb (n : nat) (t : tree) : Prop :=
  match t, n with
  | Leaf, n => n = O
  | Node Red l _ r, n => root_color l = Black ∧ root_color r = Black ∧ rb n l ∧ rb n r
  | Node Black l _ r, S n => rb n l ∧ rb n r
  | Node Black _ _ _, O => False
  end.

Definition red_black (t : tree) : Prop := root_color t = Black ∧ ∃ n, rb n t.

(** A tree with [n] black nodes to a leaf may hang here. *)
Definition head_black (k : list frame) : Prop :=
  match k with (_, Black, _, _) :: _ => True | _ => False end.
Fixpoint rb_ctx (n : nat) (k : list frame) : Prop :=
  match k with
  | [] => True
  | (_, Red, _, y) :: k => root_color y = Black ∧ rb n y ∧ head_black k ∧ rb_ctx n k
  | (_, Black, _, y) :: k => rb n y ∧ rb_ctx (S n) k
  end.

Lemma rb_mk d c n x a y : rb n (mk d c x a y) ↔
  match c, n with
  | Red, n => root_color x = Black ∧ root_color y = Black ∧ rb n x ∧ rb n y
  | Black, S n => rb n x ∧ rb n y
  | Black, O => False
  end.
Proof. destruct d, c, n; simpl; tauto. Qed.
Lemma root_color_mk d c x a y : root_color (mk d c x a y) = c.
Proof. by destruct d. Qed.

Lemma rb_plugs k t : red_black (plugs k t) ↔
  (root_color t = Black ∨ head_black k) ∧ ∃ n, rb n t ∧ rb_ctx n k.
Proof.
  induction k as [|[[[d c] a] y] k IH] in t |- *; simpl.
  { unfold red_black. naive_solver. }
  unfold plugs in *. simpl. rewrite IH. rewrite root_color_mk. destruct c; split.
  - intros (Hb & n & Ht & Hk). apply rb_mk in Ht. destruct Ht as (? & ? & ? & ?).
    split; [by left|]. exists n. destruct Hb; [done|]. by split_and!.
  - intros ([Ht|[]] & n & Hn & Hy & ? & ? & ?). split; [by right|]. exists n.
    rewrite rb_mk. by split_and!.
  - intros (_ & n & Ht & Hk). apply rb_mk in Ht. destruct n as [|n]; [done|].
    destruct Ht. split; [by right|]. by exists n.
  - intros (_ & n & Hn & ? & ?). split; [by left|]. exists (S n). by rewrite rb_mk.
Qed.

Lemma plugs_addrs k t t' : addrs t = addrs t' → addrs (plugs k t) = addrs (plugs k t').
Proof.
  induction k as [|[[[d c] a] y] k IH] in t, t' |- *; simpl; [done|]. intros E.
  apply IH. simpl. destruct d; simpl; by rewrite E.
Qed.
Lemma plugs_perm k t : addrs (plugs k t) ≡ₚ addrs t ++ ctx_addrs k.
Proof.
  induction k as [|[[[d c] a] y] k IH] in t |- *; simpl; [by rewrite app_nil_r|].
  unfold plugs in *. simpl. rewrite IH. rewrite addrs_mk. simpl. solve_Permutation.
Qed.

Lemma rep_frame s d c a y k t : rep s ((d, c, a, y) :: k) t ↔ rep s k (mk d c t a y).
Proof.
  unfold rep. simpl. rewrite tree_at_mk, addr_mk, addrs_mk.
  assert (E : addrs t ++ a :: addrs y ++ ctx_addrs k ≡ₚ (a :: addrs t ++ addrs y) ++ ctx_addrs k).
  { simpl. solve_Permutation. }
  rewrite E. tauto.
Qed.
Lemma rep_plugs s k t : rep s k t ↔ rep s [] (plugs k t).
Proof.
  induction k as [|[[[d c] a] y] k IH] in t |- *; [done|]. rewrite rep_frame. apply IH.
Qed.

Lemma rb_black n t : rb n t → root_color t = Red → rb (S n) (recolor Black t).
Proof. destruct t as [|[] l a r]; simpl; [done|tauto|done]. Qed.

Lemma addr_other h p t x : tree_at h p t → x ≠ 0 → x ∉ addrs t → x ≠ addr t.
Proof.
  intros Ht Hx Hout. destruct (tree_root _ _ _ Ht) as [-> | (? & ? & ? & _ & ? & _)]; [done|].
  by intros ->.
Qed.

Lemma parent_uncle s e c p sib d c' g u k t :
  rep s ((e, c, p, sib) :: (d, c', g, u) :: k) t → p ≠ addr u.
Proof.
  intros (Hnd & _ & ([Ap _] & _ & _ & _ & _ & Hu & _)). simpl in *.
  eapply addr_other; [exact Hu|done|].
  parts Hnd [Many (addrs t); One p; Many (addrs sib); One g; Many (addrs u); Many (ctx_addrs k)].
  off.
Qed.

Lemma null_or_black_run h r p t : valid p → tree_at h p t →
  null_or_black (addr t) (State h r) = Some (bool_decide (root_color t = Black), State h r).
Proof.
  intros Hp Ht. unfold null_or_black.
  destruct (tree_root _ _ _ Ht) as [-> | (d & x & y & [Ha _] & _ & _ & _ & _ & E)]; [done|].
  destruct (Z.eqb_spec (addr t) 0); [done|].
  rewrite (rb_is_black_run h r _ _ _ _ _ _ E Hp). by destruct (root_color t).
Qed.

Lemma uncle_red_run h r p t : valid p → tree_at h p t →
  (if addr t =? 0 then mret false else rb_is_red (addr t)) (State h r) =
  Some (bool_decide (root_color t = Red), State h r).
Proof.
  intros Hp Ht.
  destruct (tree_root _ _ _ Ht) as [-> | (d & x & y & [Ha _] & _ & _ & _ & _ & E)]; [done|].
  destruct (Z.eqb_spec (addr t) 0); [done|].
  rewrite (rb_is_red_run h r _ _ _ _ _ _ E Hp). by destruct (root_color t).
Qed.

(** The tree is in the heap again, with its nodes in the same order, and only they changed. *)
Definition restored (k : list frame) (t : tree) (s s' : state) : Prop :=
  ∃ t', rep s' [] t' ∧ red_black t' ∧ addrs t' = addrs (plugs k t) ∧
    same_outside (addrs t') (mem s) (mem s').

Lemma restored_intro k k' t t' s s' :
  rep s' k' t' → red_black (plugs k' t') → addrs (plugs k' t') = addrs (plugs k t) →
  same_outside (addrs t' ++ ctx_addrs k') (mem s) (mem s') → restored k t s s'.
Proof.
  intros Hr Hb E O. exists (plugs k' t'). split; [by apply (rep_plugs s' k' t')|].
  do 2 (split; [done|]). by rewrite plugs_perm.
Qed.

Lemma restored_trans k k' t t' s s1 s' :
  restored k' t' s1 s' → addrs (plugs k' t') = addrs (plugs k t) →
  same_outside (addrs t' ++ ctx_addrs k') (mem s) (mem s1) → restored k t s s'.
Proof.
  intros (t'' & Hr & Hb & E & O) E' O1. exists t''. do 2 (split; [done|]).
  split; [congruence|]. eapply so_step; [exact O|done|]. by rewrite E, plugs_perm.
Qed.

(** ** Insertion *)

Section insert_ok.
Context (augment_rotate : Z → Z → M state unit)
  (augment_keeps : ∀ old new s, augment_rotate old new s = Some ((), s)).

Lemma insert_case3_ok d g p cg q x y u k j1 j2 h r :
  h !! g = Some (nd d (make_word (up k) (col cg)) j1 (addr u)) →
  h !! p = Some (nd d j2 (addr x) (addr y)) →
  node_addr g → node_addr p → root_color y = Black →
  tree_at h p x → tree_at h q y → tree_at h g u → ctx_at h r k g →
  NoDup (addrs (mk d cg x p (mk d Red y g u)) ++ ctx_addrs k) →
  ∃ s', insert_case3 augment_rotate d p g (addr y) (State h r) = Some ((), s') ∧
    rep s' k (mk d cg x p (mk d Red y g u)) ∧
    same_outside (addrs (mk d cg x p (mk d Red y g u)) ++ ctx_addrs k) h (mem s').
Proof.
  intros Hg Hp Ag Ap Cy Hx Hy Hu Hk Hnd. pose proof Hnd as Hnd'. rewrite !addrs_mk in Hnd'.
  parts Hnd' [Many (addrs x); One p; Many (addrs y); One g; Many (addrs u); Many (ctx_addrs k)].
  unfold insert_case3. run_with (set_child_run h r g _ _ _ _ Hg (addr y)).
  set (h1 := <[g := _]> h).
  assert (Hp1 : h1 !! p = Some (nd d j2 (addr x) (addr y))) by by look.
  run_with (set_child_opp_run h1 r p _ _ _ _ Hp1 g). set (h2 := <[p := _]> h1).
  assert (Hy2 : tree_at h2 q y).
  { eapply tree_frame; [|exact Hy]. intros z Hz. by look. }
  run_with (when_set_parent_color h2 r q g Black y Hy2).
  assert (Hy3 : tree_at (repar h2 g Black y) g y).
  { rewrite <- (recolor_same y Black) at 2 by done. by eapply repar_at. }
  pose proof (repar_outside h2 g Black y) as O3.
  set (h3 := repar h2 g Black y) in *. clearbody h3.
  destruct (rotate_parents d g p Red cg x y u k j2 h3 r) as (s' & E & Hr & O); try done.
  { by look. } { by look. }
  { eapply tree_frame; [|exact Hx]. intros z Hz. by look. }
  { eapply tree_frame; [|exact Hu]. intros z Hz. by look. }
  { eapply ctx_frame; [|exact Hk]. intros z Hz. by look. }
  run_with E. rewrite augment_keeps. exists s'. split_and!; [done..|].
  outside.
Qed.

Lemma insert_case2_ok d p n q x a b h r :
  h !! p = Some (nd d (make_word q RB_RED) (addr x) n) →
  tree_at h p (mk d Red a n b) → tree_at h p x → node_addr p → root_color a = Black →
  NoDup (p :: addrs x ++ addrs (mk d Red a n b)) →
  ∃ h', insert_case2 augment_rotate d n p (State h r) = Some ((n, addr b), State h' r) ∧
    h' !! n = Some (nd d (make_word p RB_RED) p (addr b)) ∧
    tree_at h' n (mk d Red x p a) ∧ tree_at h' n b ∧
    same_outside (p :: addrs (mk d Red a n b)) h h'.
Proof.
  intros Hp Ht Hx Ap Ca Hnd. apply tree_at_mk in Ht as (An & Hn & Ha & Hb).
  pose proof Hnd as Hnd'. rewrite !addrs_mk in Hnd'.
  parts Hnd' [Many (addrs x); One p; Many (addrs a); One n; Many (addrs b)].
  unfold insert_case2. run_with (child_run h r n _ _ _ _ Hn).
  run_with (set_child_opp_run h r p _ _ _ _ Hp (addr a)). set (h1 := <[p := _]> h).
  assert (Hn1 : h1 !! n = Some (nd d (make_word p (col Red)) (addr a) (addr b))) by by look.
  run_with (set_child_run h1 r n _ _ _ _ Hn1 p). set (h2 := <[n := _]> h1).
  assert (Ha2 : tree_at h2 n a) by (eapply tree_frame; [|exact Ha]; intros z Hz; by look).
  run_with (when_set_parent_color h2 r n p Black a Ha2).
  assert (Ha3 : tree_at (repar h2 p Black a) p a).
  { rewrite <- (recolor_same a Black) at 2 by done. by eapply repar_at. }
  pose proof (repar_outside h2 p Black a) as O3.
  set (h3 := repar h2 p Black a) in *. clearbody h3.
  assert (Hp3 : h3 !! p = Some (nd d (make_word q RB_RED) (addr x) (addr a))) by by look.
  run_with (set_parent_color_run h3 r p _ _ _ _ Hp3 n RB_RED). set (h4 := <[p := _]> h3).
  run_with (augment_keeps p n (State h4 r)).
  assert (Hn4 : h4 !! n = Some (nd d (make_word p RB_RED) p (addr b))) by by look.
  run_with (child_opp_run h4 r n _ _ _ _ Hn4).
  exists h4. split_and!; [done..| | |].
  - apply tree_at_mk. split_and!; [done|by look| |];
      (eapply tree_frame; [|eassumption]); intros z Hz; by look.
  - eapply tree_frame; [|eassumption]. intros z Hz. by look.
  - outside.
Qed.

(** The tree that the rotations leave. *)
Definition insert_result (e d : dir) (cg : color) (a : tree) (n : Z) (b : tree) (p : Z)
    (sib : tree) (g : Z) (u : tree) : tree :=
  if decide (e = d) then mk d cg (mk d Red a n b) p (mk d Red sib g u)
  else mk d cg (mk d Red sib p a) n (mk d Red b g u).

Lemma insert_rotate_ok e d cg a n b p sib g u k s :
  rep s ((e, Red, p, sib) :: (d, cg, g, u) :: k) (mk d Red a n b) →
  root_color a = Black → root_color b = Black → root_color sib = Black →
  ∃ s', insert_rotate augment_rotate d n p g s = Some ((), s') ∧
    rep s' k (insert_result e d cg a n b p sib g u) ∧
    same_outside (addrs (insert_result e d cg a n b p sib g u) ++ ctx_addrs k) (mem s) (mem s').
Proof.
  intros (Hnd & Ht & Hk) Ca Cb Cs. destruct s as [h r]. simpl in Ht, Hk. rewrite addr_mk in Hk.
  destruct Hk as (Ap & Hp & Hs & Ag & Hg & Hu & Hk). simpl in Hnd.
  pose proof Ht as Ht'. apply tree_at_mk in Ht' as (An & Hn & Ha & Hb).
  pose proof Hnd as Hnd'. rewrite addrs_mk in Hnd'.
  parts Hnd' [Many (addrs a); One n; Many (addrs b); One p; Many (addrs sib); One g;
              Many (addrs u); Many (ctx_addrs k)].
  unfold insert_rotate, insert_result. case_decide as De.
  - subst e. run_with (child_opp_run h r p _ _ _ _ Hp).
    assert (Hne : n ≠ addr sib).
    { destruct (tree_root _ _ _ Hs) as [-> | (? & ? & ? & ? & ? & _)]; [apply An|off]. }
    destruct (Z.eqb_spec n (addr sib)); [done|].
    rewrite bind_ret. simpl. destruct (insert_case3_ok d g p cg p (mk d Red a n b) sib u k
      p (make_word g (col Red)) h r) as (s' & E & Hr & O); try done.
    { by rewrite addr_mk. }
    { nodup Hnd. }
    by exists s'.
  - assert (e = opp d) as -> by (destruct e, d; done). rewrite nd_opp in Hp.
    run_with (child_opp_run h r p _ _ _ _ Hp). rewrite Z.eqb_refl.
    destruct (insert_case2_ok d p n g sib a b h r) as (h1 & E & Hn1 & Hx & Hb1 & O1); try done.
    { nodup Hnd. }
    run_with E. simpl. rewrite addrs_mk in O1.
    destruct (insert_case3_ok d g n cg n (mk d Red sib p a) b u k p (make_word p (col Red)) h1 r)
      as (s' & E' & Hr & O); try done.
    { by look. }
    { by rewrite addr_mk. }
    { eapply tree_frame; [|exact Hu]. intros z Hz. by look. }
    { eapply ctx_frame; [|exact Hk]. intros z Hz. by look. }
    { nodup Hnd. }
    exists s'. split_and!; [done..|]. simpl. outside.
Qed.

Lemma insert_flip_ok {A} (kont : Z → M state A) e d p sib g u k t s :
  rep s ((e, Red, p, sib) :: (d, Black, g, u) :: k) t → root_color u = Red →
  ∃ s', (_ ← rb_set_parent_color (addr u) g RB_BLACK;
         _ ← rb_set_parent_color p g RB_BLACK;
         parent ← rb_parent g;
         _ ← rb_set_parent_color g parent RB_RED;
         kont parent) s = kont (up k) s' ∧
    rep s' k (mk d Red (mk e Black t p sib) g (recolor Black u)) ∧
    same_outside (addrs (mk d Red (mk e Black t p sib) g (recolor Black u)) ++ ctx_addrs k)
      (mem s) (mem s').
Proof.
  intros (Hnd & Ht & Hk) Cu. destruct s as [h r]. simpl in Ht, Hk, Hnd.
  destruct Hk as (Ap & Hp & Hs & Ag & Hg & Hu & Hk). pose proof Hnd as Hnd'.
  parts Hnd' [Many (addrs t); One p; Many (addrs sib); One g; Many (addrs u); Many (ctx_addrs k)].
  pose proof (up_valid _ _ _ _ Hk) as Hv.
  pose proof (when_set_parent_color h r g g Black u Hu) as E0.
  unfold when in E0. destruct (Z.eqb_spec (addr u) 0) as [E|_].
  { destruct u; simpl in *; [done|]. destruct Hu as [[] _]. done. }
  run_with E0.
  assert (Hu1 : tree_at (repar h g Black u) g (recolor Black u)) by by eapply repar_at.
  pose proof (repar_outside h g Black u) as O1.
  set (h1 := repar h g Black u) in *. clearbody h1.
  assert (Hp1 : h1 !! p = Some (nd e (make_word g (col Red)) (addr t) (addr sib))) by by look.
  run_with (set_parent_color_run h1 r p _ _ _ _ Hp1 g RB_BLACK). set (h2 := <[p := _]> h1).
  assert (Hg2 : h2 !! g = Some (nd d (make_word (up k) (col Black)) p (addr u))) by by look.
  run_with (rb_parent_run h2 r g _ _ _ _ _ Hg2 Hv).
  run_with (set_parent_color_run h2 r g _ _ _ _ Hg2 (up k) RB_RED). set (h3 := <[g := _]> h2).
  exists (State h3 r). split_and!; [done| |].
  - split_and!; simpl.
    + eapply (nodup_sub _ _ Hnd). clear. rewrite !addrs_mk, addrs_recolor. solve_submseteq.
    + apply tree_at_mk. rewrite addr_mk, addr_recolor. split_and!; [done|by look| |].
      * apply tree_at_mk. split_and!; [done|by look| |];
          (eapply tree_frame; [|eassumption]); intros z Hz; by look.
      * eapply tree_frame; [|eassumption]. intros z. rewrite addrs_recolor. intros Hz. by look.
    + rewrite addr_mk. eapply ctx_frame; [|eassumption]. intros z Hz. by look.
  - simpl. rewrite !addrs_mk, addrs_recolor. outside.
Qed.

Lemma insert_result_addrs e d cg a n b p sib g u :
  addrs (insert_result e d cg a n b p sib g u) =
  addrs (mk d cg (mk e Red (mk d Red a n b) p sib) g u).
Proof.
  unfold insert_result. case_decide; [subst e; destruct d|destruct e, d; try done];
    by list_simplifier.
Qed.

Lemma insert_result_rb e d a n b p sib g u m :
  root_color a = Black → root_color b = Black → root_color sib = Black → root_color u = Black →
  rb m a → rb m b → rb m sib → rb m u →
  rb (S m) (insert_result e d Black a n b p sib g u).
Proof.
  intros. unfold insert_result.
  case_decide; repeat (rewrite ?rb_mk, ?root_color_mk; split_and!); try done.
Qed.

Lemma insert_root_ok a n b m s :
  rep s [] (Node Red a n b) → rb m a → rb m b →
  ∃ s', rb_set_parent_color n 0 RB_BLACK s = Some ((), s') ∧ restored [] (Node Red a n b) s s'.
Proof.
  destruct s as [h r]. intros (Hnd & Ht & Hroot) Ra Rb. pose proof Ht as (An & Hn & _ & _).
  rewrite (set_parent_color_run h r n L _ _ _ Hn 0 RB_BLACK). eexists. split; [done|].
  apply (restored_intro _ [] _ (Node Black a n b)); [|split; [done|by exists (S m)]|done|].
  - split_and!; [done| |done]. simpl mem.
    apply (repar_at h 0 0 Black (Node Red a n b)); [|done]. by rewrite app_nil_r in Hnd.
  - simpl. outside.
Qed.

Lemma __rb_insert_loop_ok fuel k d0 a n b m s :
  (length k < fuel)%nat → rep s k (mk d0 Red a n b) →
  root_color a = Black → root_color b = Black → rb m a → rb m b → rb_ctx m k →
  ∃ s', __rb_insert_loop augment_rotate fuel n (up k) s = Some ((), s') ∧
    restored k (mk d0 Red a n b) s s'.
Proof.
  induction fuel as [|fuel IH] in k, d0, a, n, b, m, s |- *; [lia|]. intros Hf Hr Ca Cb Ra Rb Hk.
  simpl. destruct k as [|[[[e c] p] sib] k].
  { destruct d0; by eapply insert_root_ok. }
  destruct s as [h r]. pose proof Hr as (Hnd & Ht & (Ap & Hp & Hsib & Hk')).
  pose proof (up_valid _ _ _ _ Hk') as Hv. change (up ((e, c, p, sib) :: k)) with p.
  destruct (Z.eqb_spec p 0) as [->|_]; [by destruct Ap|].
  run_with (rb_is_black_run h r p _ _ _ _ _ Hp Hv). destruct c.
  2:{ eexists. split; [done|]. eapply restored_intro; [exact Hr| |done|simpl; outside].
      apply rb_plugs. split; [by right|]. exists m. rewrite rb_mk. by split_and!. }
  destruct Hk as (Cs & Rs & Hb & Hk). destruct k as [|[[[d []] g] u] k]; [done..|].
  destruct Hk as (Ru & Hk). destruct Hk' as (Ag & Hg & Hu & Hk'). simpl in Hp.
  rewrite red_word in Hp by (by right).
  run_with (parent_color_run h r p _ _ _ _ Hp).
  run_with (other_child_run h r g d _ _ _ Hg (parent_uncle _ _ _ _ _ _ _ _ _ _ _ Hr)).
  run_with (uncle_red_run h r g u ltac:(by right) Hu). case_bool_decide as Cu.
  - destruct (insert_flip_ok (__rb_insert_loop augment_rotate fuel g) e d p sib g u k _ _ Hr Cu)
      as (s1 & -> & Hr1 & O1).
    destruct (IH k d _ g _ (S m) s1 ltac:(simpl in Hf; lia) Hr1) as (s' & E & Hs').
    { by rewrite root_color_mk. } { by destruct u. }
    { rewrite !rb_mk. by split_and!. } { apply rb_black; [done|]. by rewrite Cu. } { done. }
    exists s'. split; [done|]. eapply restored_trans; [exact Hs'| |exact O1].
    apply (plugs_addrs k _ (mk d Black (mk e Red _ p sib) g u)). destruct d, e; simpl; by rewrite addrs_recolor.
  - assert (Cu' : root_color u = Black) by by destruct (root_color u).
    assert (∃ a' b', mk d0 Red a n b = mk d Red a' n b' ∧ root_color a' = Black ∧
      root_color b' = Black ∧ rb m a' ∧ rb m b') as (a' & b' & E0 & Ca' & Cb' & Ra' & Rb').
    { destruct (decide (d0 = d)) as [->|]; [by exists a, b|].
      exists b, a. split_and!; [by destruct d0, d|done..]. }
    rewrite E0 in *.
    destruct (insert_rotate_ok e d Black a' n b' p sib g u k _ Hr) as (s' & E & Hr' & O); try done.
    exists s'. split; [done|]. eapply restored_intro; [exact Hr'| | |exact O].
    + apply rb_plugs. split; [left; unfold insert_result; case_decide; apply root_color_mk|].
      exists (S m). split; [by apply insert_result_rb|done].
    + apply (plugs_addrs k _ (mk d Black (mk e Red _ p sib) g u)). by rewrite insert_result_addrs.
Qed.

End insert_ok.

(** ** Rebalancing after a removal *)

Lemma set_parent_color_at h r p q c t : tree_at h p t → t ≠ Leaf →
  rb_set_parent_color (addr t) q (col c) (State h r) = Some ((), State (repar h q c t) r).
Proof.
  intros Ht Hne. pose proof (when_set_parent_color h r p q c t Ht) as E. unfold when in E.
  destruct (tree_root _ _ _ Ht) as [-> | (? & ? & ? & [Ha _] & _)]; [done|].
  by destruct (Z.eqb_spec (addr t) 0).
Qed.

Section erase_ok.
Context (augment_rotate : Z → Z → M state unit)
  (augment_keeps : ∀ old new s, augment_rotate old new s = Some ((), s)).

Lemma erase_case4_ok d p sb c q x y n k j1 j2 h r :
  h !! p = Some (nd d (make_word (up k) (col c)) (addr n) j1) →
  h !! sb = Some (nd d j2 (addr y) (addr x)) →
  node_addr p → node_addr sb → x ≠ Leaf →
  tree_at h q x → tree_at h sb y → tree_at h p n → ctx_at h r k p →
  NoDup (addrs (mk d c (mk d Black n p y) sb (recolor Black x)) ++ ctx_addrs k) →
  ∃ s', erase_case4 augment_rotate d p sb (addr x) (State h r) = Some ((), s') ∧
    rep s' k (mk d c (mk d Black n p y) sb (recolor Black x)) ∧
    same_outside (addrs (mk d c (mk d Black n p y) sb (recolor Black x)) ++ ctx_addrs k) h (mem s').
Proof.
  intros Hp Hs Ap As Nx Hx Hy Hn Hk Hnd. pose proof Hnd as Hnd'.
  rewrite !addrs_mk, addrs_recolor in Hnd'.
  parts Hnd' [Many (addrs x); One sb; Many (addrs y); One p; Many (addrs n); Many (ctx_addrs k)].
  unfold erase_case4. run_with (child_run h r sb _ _ _ _ Hs).
  run_with (set_child_opp_run h r p _ _ _ _ Hp (addr y)). set (h1 := <[p := _]> h).
  assert (Hs1 : h1 !! sb = Some (nd d j2 (addr y) (addr x))) by by look.
  run_with (set_child_run h1 r sb _ _ _ _ Hs1 p). set (h2 := <[sb := _]> h1).
  assert (Hx2 : tree_at h2 q x) by (eapply tree_frame; [|exact Hx]; intros z Hz; by look).
  run_with (set_parent_color_at h2 r q sb Black x Hx2 Nx).
  assert (Hx3 : tree_at (repar h2 sb Black x) sb (recolor Black x)) by by eapply repar_at.
  pose proof (repar_outside h2 sb Black x) as O3.
  set (h3 := repar h2 sb Black x) in *. clearbody h3.
  assert (Hy3 : tree_at h3 sb y) by (eapply tree_frame; [|exact Hy]; intros z Hz; by look).
  run_with (when_set_parent h3 r sb p y ltac:(by right) ltac:(by right) Hy3).
  assert (Hy4 : tree_at (repar h3 p (root_color y) y) p y).
  { rewrite <- (recolor_same y _ eq_refl) at 3. by eapply repar_at. }
  pose proof (repar_outside h3 p (root_color y) y) as O4.
  set (h4 := repar h3 p (root_color y) y) in *. clearbody h4.
  destruct (rotate_parents (opp d) p sb Black c (recolor Black x) y n k j2 h4 r)
    as (s' & E & Hr & O); try done.
  { rewrite nd_opp. by look. } { rewrite nd_opp, addr_recolor. by look. }
  { eapply tree_frame; [|exact Hx3]. intros z Hz. rewrite addrs_recolor in Hz. by look. }
  { eapply tree_frame; [|exact Hn]. intros z Hz. by look. }
  { eapply ctx_frame; [|exact Hk]. intros z Hz. by look. }
  { by rewrite !mk_opp. }
  rewrite !mk_opp in Hr. rewrite !mk_opp in O.
  run_with E. rewrite augment_keeps. exists s'. split_and!; [done..|].
  eapply so_step; [exact O|done|]. rewrite !addrs_mk, addrs_recolor. outside.
Qed.

Lemma erase_case3_ok d p sb t2 a b x n w h r :
  h !! p = Some (nd d w (addr n) sb) →
  tree_at h p (mk d Black (mk d Red a t2 b) sb x) → root_color b = Black →
  NoDup (p :: addrs n ++ addrs (mk d Black (mk d Red a t2 b) sb x)) →
  ∃ h', erase_case3 augment_rotate d p sb t2 (State h r) = Some ((sb, t2), State h' r) ∧
    h' !! p = Some (nd d w (addr n) t2) ∧
    h' !! t2 = Some (nd d (make_word sb RB_RED) (addr a) sb) ∧
    tree_at h' p (mk d Black b sb x) ∧ tree_at h' t2 a ∧
    same_outside (p :: addrs (mk d Black (mk d Red a t2 b) sb x)) h h'.
Proof.
  intros Hp Ht Cb Hnd. apply tree_at_mk in Ht as (As & Hs & Ht & Hx).
  apply tree_at_mk in Ht as (A2 & H2 & Ha & Hb). rewrite addr_mk in Hs.
  pose proof Hnd as Hnd'. rewrite !addrs_mk in Hnd'.
  parts Hnd' [Many (addrs x); One sb; Many (addrs a); One t2; Many (addrs b); One p; Many (addrs n)].
  unfold erase_case3. run_with (child_opp_run h r t2 _ _ _ _ H2).
  run_with (set_child_run h r sb _ _ _ _ Hs (addr b)). set (h1 := <[sb := _]> h).
  assert (E2 : h1 !! t2 = Some (nd d (make_word sb RB_RED) (addr a) (addr b))) by by look.
  run_with (set_child_opp_run h1 r t2 _ _ _ _ E2 sb). set (h2 := <[t2 := _]> h1).
  assert (Hp2 : h2 !! p = Some (nd d w (addr n) sb)) by by look.
  run_with (set_child_opp_run h2 r p _ _ _ _ Hp2 t2). set (h3 := <[p := _]> h2).
  assert (Hb3 : tree_at h3 t2 b) by (eapply tree_frame; [|exact Hb]; intros z Hz; by look).
  run_with (when_set_parent_color h3 r t2 sb Black b Hb3).
  assert (Hb4 : tree_at (repar h3 sb Black b) sb b).
  { rewrite <- (recolor_same b Black) at 2 by done. by eapply repar_at. }
  pose proof (repar_outside h3 sb Black b) as O4.
  set (h4 := repar h3 sb Black b) in *. clearbody h4.
  run_with (augment_keeps sb t2 (State h4 r)).
  exists h4. split_and!; [done|by look|by look| | |].
  - apply tree_at_mk. split_and!; [done|by look|done|].
    eapply tree_frame; [|exact Hx]. intros z Hz. by look.
  - eapply tree_frame; [|exact Ha]. intros z Hz. by look.
  - outside.
Qed.

Lemma erase_case1_ok d p sb y x n k s :
  rep s ((d, Black, p, mk d Red y sb x) :: k) n → root_color y = Black → y ≠ Leaf →
  ∃ s', erase_case1 augment_rotate d p sb s = Some (addr y, s') ∧
    rep s' ((d, Red, p, y) :: (d, Black, sb, x) :: k) n ∧
    same_outside (addrs n ++ ctx_addrs ((d, Red, p, y) :: (d, Black, sb, x) :: k)) (mem s) (mem s').
Proof.
  intros (Hnd & Hn & Hk) Cy Ny. destruct s as [h r]. simpl in *.
  destruct Hk as (Ap & Hp & Ht & Hk). apply tree_at_mk in Ht as (As & Hs & Hy & Hx).
  rewrite addr_mk in Hp. pose proof Hnd as Hnd'. rewrite !addrs_mk in Hnd'.
  parts Hnd' [Many (addrs x); One sb; Many (addrs y); One p; Many (addrs n); Many (ctx_addrs k)].
  unfold erase_case1. run_with (child_run h r sb _ _ _ _ Hs).
  run_with (set_child_opp_run h r p _ _ _ _ Hp (addr y)). set (h1 := <[p := _]> h).
  assert (Hs1 : h1 !! sb = Some (nd d (make_word p RB_RED) (addr y) (addr x))) by by look.
  run_with (set_child_run h1 r sb _ _ _ _ Hs1 p). set (h2 := <[sb := _]> h1).
  assert (Hy2 : tree_at h2 sb y) by (eapply tree_frame; [|exact Hy]; intros z Hz; by look).
  run_with (set_parent_color_at h2 r sb p Black y Hy2 Ny).
  assert (Hy3 : tree_at (repar h2 p Black y) p y).
  { rewrite <- (recolor_same y Black) at 2 by done. by eapply repar_at. }
  pose proof (repar_outside h2 p Black y) as O3.
  set (h3 := repar h2 p Black y) in *. clearbody h3.
  destruct (rotate_parents (opp d) p sb Red Black x y n k (make_word p RB_RED) h3 r)
    as (s' & E & Hr & O); try done.
  { rewrite nd_opp. by look. } { rewrite nd_opp. by look. }
  1-2: eapply tree_frame; [|eassumption]; intros z Hz; by look.
  { eapply ctx_frame; [|exact Hk]. intros z Hz. by look. }
  { rewrite !mk_opp. nodup Hnd. }
  rewrite !mk_opp in Hr. rewrite !mk_opp, !addrs_mk in O.
  run_with E. run_with (augment_keeps p sb s'). exists s'. split; [done|]. split.
  - by apply rep_frame, rep_frame.
  - outside.
Qed.

Lemma sibling_red_ok d c p sb y x n k s :
  rep s ((d, c, p, mk d Black y sb x) :: k) n →
  ∃ s', rb_set_parent_color sb p RB_RED s = Some ((), s') ∧
    rep s' ((d, c, p, mk d Red y sb x) :: k) n ∧
    same_outside (addrs n ++ ctx_addrs ((d, c, p, mk d Red y sb x) :: k)) (mem s) (mem s').
Proof.
  intros (Hnd & Hn & Hk). destruct s as [h r]. simpl in *.
  destruct Hk as (Ap & Hp & Ht & Hk). apply tree_at_mk in Ht as (As & Hs & Hy & Hx).
  pose proof Hnd as Hnd'. rewrite !addrs_mk in Hnd'.
  parts Hnd' [Many (addrs x); One sb; Many (addrs y); One p; Many (addrs n); Many (ctx_addrs k)].
  rewrite (set_parent_color_run h r sb _ _ _ _ Hs p RB_RED). eexists. split; [done|].
  split; [|simpl; outside]. unfold rep. simpl. split_and!.
  - nodup Hnd.
  - eapply tree_frame; [|exact Hn]. intros z Hz. by look.
  - done.
  - rewrite addr_mk in *. by look.
  - apply tree_at_mk. split_and!; [done|by look| |];
      (eapply tree_frame; [|eassumption]); intros z Hz; by look.
  - eapply ctx_frame; [|exact Hk]. intros z Hz. by look.
Qed.

Lemma rb_set_black_ok d p y n k s :
  rep s ((d, Red, p, y) :: k) n →
  ∃ s', rb_set_black p s = Some ((), s') ∧ rep s' ((d, Black, p, y) :: k) n ∧
    same_outside (addrs n ++ ctx_addrs ((d, Black, p, y) :: k)) (mem s) (mem s').
Proof.
  intros (Hnd & Hn & Hk). destruct s as [h r]. simpl in *.
  destruct Hk as (Ap & Hp & Hy & Hk). pose proof Hnd as Hnd'.
  parts Hnd' [Many (addrs y); One p; Many (addrs n); Many (ctx_addrs k)].
  unfold rb_set_black. run_with (parent_color_run h r p _ _ _ _ Hp).
  rewrite black_word by by eapply up_valid.
  rewrite (set_word_run h r p _ _ _ _ Hp). eexists. split; [done|].
  split; [|simpl; outside]. unfold rep. simpl. split_and!; [done| |done|by look| |].
  1-2: eapply tree_frame; [|eassumption]; intros z Hz; by look.
  eapply ctx_frame; [|exact Hk]. intros z Hz. by look.
Qed.

(** What one round leaves: the tree restored, or the same task one level up. *)
Definition erase_round (continue : Z → Z → M state unit) (run : option (unit * state))
    (k : list frame) (n : tree) (m : nat) (s : state) : Prop :=
  (∃ s', run = Some ((), s') ∧ restored k n s s') ∨
  ∃ s' t k' d p y, k = (d, Black, p, y) :: k' ∧ k' ≠ [] ∧
    run = continue (addr t) (up k') s' ∧ rep s' k' t ∧
    rb (S m) t ∧ root_color t = Black ∧ rb_ctx (S (S m)) k' ∧
    addrs t = addrs (mk d Black n p y) ∧
    same_outside (addrs t ++ ctx_addrs k') (mem s) (mem s').

Lemma erase_flip_ok continue d c p sb y x n k m s :
  rep s ((d, c, p, mk d Black y sb x) :: k) n →
  root_color n = Black → root_color y = Black → root_color x = Black →
  rb m n → rb m y → rb m x → rb_ctx (S m) ((d, c, p, mk d Black y sb x) :: k) →
  erase_round continue
    ((_ ← rb_set_parent_color sb p RB_RED;
      red ← rb_is_red p;
      if (red : bool) then rb_set_black p
      else
        parent ← rb_parent p;
        if parent =? 0 then mret () else continue p parent) s)
    ((d, c, p, mk d Black y sb x) :: k) n m s.
Proof.
  intros Hr Cn Cy Cx Rn Ry Rx Hk.
  destruct (sibling_red_ok _ _ _ _ _ _ _ _ _ Hr) as (s1 & E1 & Hr1 & O1). run_with E1.
  destruct s1 as [h1 r1]. pose proof Hr1 as (_ & _ & (Ap & Hp & _ & Hup)).
  pose proof (up_valid _ _ _ _ Hup) as Hv.
  run_with (rb_is_red_run h1 r1 p _ _ _ _ _ Hp Hv). destruct c.
  - destruct (rb_set_black_ok _ _ _ _ _ _ Hr1) as (s2 & E2 & Hr2 & O2). left.
    exists s2. split; [done|]. destruct Hk as (_ & _ & Hb & Hk).
    eapply restored_intro; [exact Hr2| | |].
    + apply rb_plugs. split; [by left|]. exists m. split; [done|].
      split; [rewrite rb_mk; by split_and!|done].
    + apply (plugs_addrs k (mk d Black n p (mk d Red y sb x))
               (mk d Red n p (mk d Black y sb x))). by destruct d.
    + eapply so_step; [exact O2|done|]. exact O1.
  - run_with (rb_parent_run h1 r1 p _ _ _ _ _ Hp Hv). destruct Hk as (_ & Hk).
    assert (Rt : rb (S m) (mk d Black n p (mk d Red y sb x))).
    { rewrite !rb_mk. by split_and!. }
    destruct k as [|[[[d' c'] p'] y'] k]; simpl up in *.
    + left. eexists. split; [done|]. apply rep_frame in Hr1.
      eapply (restored_intro _ []); [exact Hr1| | |].
      * split; [by apply root_color_mk|]. by exists (S m).
      * simpl. by destruct d.
      * rewrite !addrs_mk. eapply so_step; [exact O1| |apply so_refl].
        simpl. rewrite addrs_mk. clear. set_solver.
    + right. destruct (Z.eqb_spec (up ((d', c', p', y') :: k)) 0) as [E0|_].
      { simpl in E0. subst p'. by destruct Hup as [[] _]. }
      eexists (State h1 r1), (mk d Black n p (mk d Red y sb x)), _, _, _, _. rewrite addr_mk.
      split; [reflexivity|]. split; [done|]. split; [reflexivity|].
      apply rep_frame in Hr1. split; [exact Hr1|]. split; [done|].
      split; [apply root_color_mk|]. split; [done|]. split; [simpl; by destruct d|].
      rewrite !addrs_mk. eapply so_step; [exact O1| |apply so_refl].
      simpl. rewrite addrs_mk. clear. set_solver.
Qed.

Lemma rb_join d c n x a y :
  root_color x = Black → root_color y = Black → rb n x → rb n y →
  rb (match c with Red => n | Black => S n end) (mk d c x a y).
Proof. intros. rewrite rb_mk. by destruct c. Qed.

Lemma rb_ctx_plug d c p y k n t :
  rb_ctx n ((d, c, p, y) :: k) → root_color t = c →
  rb (match c with Red => n | Black => S n end) t → red_black (plugs k t).
Proof.
  intros Hk Ct Rt. apply rb_plugs. destruct c; simpl in Hk.
  - destruct Hk as (_ & _ & Hb & Hk). split; [by right|]. by exists n.
  - destruct Hk as (_ & Hk). split; [by left|]. by exists (S n).
Qed.

(** A round ends with one subtree for another, in order the same. *)
Lemma erase_done continue run d c p y k n m s s' t :
  run = Some ((), s') → rep s' k t → rb_ctx (S m) ((d, c, p, y) :: k) →
  root_color t = c → rb (match c with Red => S m | Black => S (S m) end) t →
  addrs t = addrs (mk d c n p y) → same_outside (addrs t ++ ctx_addrs k) (mem s) (mem s') →
  erase_round continue run ((d, c, p, y) :: k) n m s.
Proof.
  intros E Hr Hk Ct Rt Ea O. left. exists s'. split; [done|].
  eapply restored_intro; [exact Hr|by eapply rb_ctx_plug| |exact O].
  by apply (plugs_addrs k t (mk d c n p y)).
Qed.

Lemma erase_black_ok continue d c p y sb x n k m s :
  rep s ((d, c, p, mk d Black y sb x) :: k) n → root_color n = Black →
  rb m n → rb m y → rb m x → rb_ctx (S m) ((d, c, p, mk d Black y sb x) :: k) →
  erase_round continue (erase_black augment_rotate continue d p sb s)
    ((d, c, p, mk d Black y sb x) :: k) n m s.
Proof.
  intros Hr Cn Rn Ry Rx Hk. destruct s as [h r]. pose proof Hr as (Hnd & Hn & Hc).
  simpl in Hnd, Hn, Hc. destruct Hc as (Ap & Hp & Ht & Hc). rewrite addr_mk in Hp.
  pose proof Ht as Ht'. apply tree_at_mk in Ht' as (As & Hs & Hy & Hx).
  unfold erase_black. run_with (child_opp_run h r sb _ _ _ _ Hs).
  run_with (null_or_black_run h r sb x ltac:(by right) Hx). case_bool_decide as Cx.
  2:{ destruct (erase_case4_ok d p sb c sb x y n k sb (make_word p RB_BLACK) h r)
        as (s' & E & Hr' & O); try done; [by destruct x| |].
      { eapply (nodup_sub _ _ Hnd). clear. rewrite !addrs_mk, addrs_recolor. solve_submseteq. }
      eapply erase_done; [exact E|exact Hr'|exact Hk|apply root_color_mk| | |exact O].
      - apply rb_join; [apply root_color_mk|by destruct x|by rewrite rb_mk|].
        apply rb_black; [done|]. by destruct (root_color x).
      - destruct d; simpl; rewrite addrs_recolor; by list_simplifier. }
  run_with (child_run h r sb _ _ _ _ Hs).
  run_with (null_or_black_run h r sb y ltac:(by right) Hy). case_bool_decide as Cy.
  { by apply erase_flip_ok. }
  assert (∃ a t2 b, y = mk d Red a t2 b) as (a & t2 & b & ->).
  { destruct y as [|[] l z z']; [done| |done]. destruct d; [by exists l, z, z'|by exists z', z, l]. }
  apply rb_mk in Ry as (Ca & Cb & Ra & Rb). rewrite addr_mk.
  destruct (erase_case3_ok d p sb t2 a b x n (make_word (up k) (col c)) h r)
    as (h1 & E & Hp1 & H21 & Hb1 & Ha1 & O1); try done.
  { nodup Hnd. }
  run_with E. simpl. apply tree_at_mk in Hy as (A2 & _ & _ & _).
  pose proof Hnd as Hnd'. rewrite !addrs_mk in Hnd'. rewrite !addrs_mk in O1.
  parts Hnd' [Many (addrs x); One sb; Many (addrs a); One t2; Many (addrs b); One p;
              Many (addrs n); Many (ctx_addrs k)].
  destruct (erase_case4_ok d p t2 c p (mk d Black b sb x) a n k t2 (make_word sb RB_RED) h1 r)
    as (s' & E4 & Hr' & O); try done.
  { by rewrite addr_mk. } { by destruct d. }
  { eapply tree_frame; [|exact Hn]. intros z Hz. by look. }
  { eapply ctx_frame; [|exact Hc]. intros z Hz. by look. }
  { eapply (nodup_sub _ _ Hnd). clear. rewrite !addrs_mk, addrs_recolor, addrs_mk. solve_submseteq. }
  rewrite addr_mk in E4. rewrite recolor_same in Hr', O by apply root_color_mk.
  eapply erase_done; [exact E4|exact Hr'|exact Hk|apply root_color_mk| | |].
  - apply rb_join; [apply root_color_mk..|by rewrite rb_mk|by rewrite rb_mk].
  - destruct d; simpl; by list_simplifier.
  - simpl. outside.
Qed.

Lemma sibling_node d n t : rb (S n) t → ∃ y a x, t = mk d (root_color t) y a x ∧
  match root_color t with
  | Black => rb n y ∧ rb n x
  | Red => root_color y = Black ∧ root_color x = Black ∧ rb (S n) y ∧ rb (S n) x
  end.
Proof.
  destruct t as [|c l a x]; [done|]. destruct d; [exists l, a, x|exists x, a, l];
    (split; [done|]); destruct c; simpl in *; tauto.
Qed.

Lemma sibling_rb n d c p y k : rb_ctx n ((d, c, p, y) :: k) → rb n y.
Proof. destruct c; simpl; tauto. Qed.

Lemma node_sibling s d c p y k n : rep s ((d, c, p, y) :: k) n → y ≠ Leaf → addr n ≠ addr y.
Proof.
  intros (Hnd & Hn & (_ & _ & Hy & _)) Ny. simpl in *.
  destruct (tree_root _ _ _ Hy) as [|(? & ? & ? & [Ha _] & Hin & _)]; [done|].
  apply not_eq_sym. eapply addr_other; [exact Hn|done|].
  parts Hnd [Many (addrs n); One p; Many (addrs y); Many (ctx_addrs k)]. off.
Qed.

(** The red sibling goes; the new one is black, below a red parent. *)
Lemma erase_red_ok continue d p y sb x n k m s :
  rep s ((d, Black, p, mk d Red y sb x) :: k) n → root_color n = Black → rb m n →
  root_color y = Black → root_color x = Black → rb (S m) y → rb (S m) x → rb_ctx (S (S m)) k →
  ∃ s', (sibling ← erase_case1 augment_rotate d p sb;
         erase_black augment_rotate continue d p sibling) s = Some ((), s') ∧
    restored ((d, Black, p, mk d Red y sb x) :: k) n s s'.
Proof.
  intros Hr Cn Rn Cy Cx Ry Rx Hk. pose proof Ry as Ry'.
  destruct (sibling_node d _ _ Ry') as (y1 & z & y2 & Ey & R2).
  rewrite Cy in Ey, R2. destruct R2 as [Ry1 Ry2].
  destruct (erase_case1_ok d p sb y x n k s Hr Cy) as (s1 & E1 & Hr1 & O1).
  { rewrite Ey. by destruct d. }
  run_with E1. rewrite Ey in Hr1 |- *. rewrite addr_mk.
  destruct (erase_black_ok continue d Red p y1 z y2 n _ m s1 Hr1 Cn Rn Ry1 Ry2)
    as [(s' & E & Hs') | (? & ? & ? & ? & ? & ? & ? & _)]; [rewrite <- Ey; simpl; by split_and!| |done].
  exists s'. split; [done|]. eapply restored_trans; [exact Hs'| |rewrite <- Ey; exact O1].
  rewrite <- Ey. apply (plugs_addrs k (mk d Black (mk d Red n p y) sb x)
    (mk d Black n p (mk d Red y sb x))). destruct d; simpl; by list_simplifier.
Qed.

Lemma ____rb_erase_color_loop_ok fuel k n m s :
  k ≠ [] → (length k ≤ fuel)%nat → rep s k n → root_color n = Black → rb m n → rb_ctx (S m) k →
  ∃ s', ____rb_erase_color_loop augment_rotate fuel (addr n) (up k) s = Some ((), s') ∧
    restored k n s s'.
Proof.
  induction fuel as [|fuel IH] in k, n, m, s |- *; intros Hne Hf Hr Cn Rn Hk.
  { destruct k; simpl in Hf; [done|lia]. }
  destruct k as [|[[[d c] p] sib] k]; [done|]. destruct s as [h r].
  destruct (sibling_node d _ _ (sibling_rb _ _ _ _ _ _ Hk)) as (y & sb & x & Es & Rs).
  pose proof Hr as (_ & _ & (Ap & Hp & Ht & Hc)).
  simpl. run_with (other_child_run h r p d _ _ _ Hp
    ltac:(eapply node_sibling; [exact Hr|rewrite Es; by destruct d])).
  rewrite Es in Ht. apply tree_at_mk in Ht as (As & Hs & Hy & Hx).
  replace (addr sib) with sb by by rewrite Es, addr_mk.
  run_with (rb_is_red_run h r sb _ _ _ _ _ Hs ltac:(by right)).
  destruct (root_color sib) eqn:Cs; rewrite Es in *.
  - destruct c; [by destruct Hk as (Cr & _); rewrite root_color_mk in Cr|].
    destruct Rs as (Cy & Cx & Ry & Rx), Hk as (_ & Hk). by eapply erase_red_ok.
  - rewrite bind_ret. destruct Rs as [Ry Rx].
    destruct (erase_black_ok (____rb_erase_color_loop augment_rotate fuel) d c p y sb x n k m
      _ Hr Cn Rn Ry Rx Hk) as [Hdone | (s1 & t & k' & d' & p' & y' & Ek & Hne' & E & Hr1 &
        Rt & Ct & Hk' & Ea & O1)]; [exact Hdone|].
    injection Ek as <- -> <- <- <-. rewrite E.
    destruct (IH k t (S m) s1) as (s' & E' & Hs'); try done; [simpl in Hf; lia|].
    exists s'. split; [done|]. eapply restored_trans; [exact Hs'| |exact O1].
    by apply (plugs_addrs k t (mk d Black n p (mk d Black y sb x))).
Qed.

End erase_ok.

(** ** Depth

    The longest path has at most [2 * log2 (n + 1)] of [n] nodes, so that many rounds are
    enough for every loop. *)

Fixpoint depth (t : tree) : nat :=
  match t with Leaf => O | Node _ l _ r => S (Nat.max (depth l) (depth r)) end.

Lemma depth_plugs k t : (length k + depth t ≤ depth (plugs k t))%nat.
Proof.
  induction k as [|[[[d c] a] y] k IH] in t |- *; simpl; [done|].
  specialize (IH (mk d c t a y)). unfold plugs in *. simpl.
  assert (depth t < depth (mk d c t a y))%nat by (destruct d; simpl; lia). lia.
Qed.

Lemma rb_depth n t : rb n t →
  (depth t ≤ 2 * n + (if root_color t is Red then 1 else 0))%nat.
Proof.
  induction t as [|[] l IHl a r IHr] in n |- *; simpl; [lia| |].
  - intros (Cl & Cr & Hl & Hr). specialize (IHl n Hl). specialize (IHr n Hr).
    rewrite Cl in IHl. rewrite Cr in IHr. lia.
  - destruct n as [|n]; [done|]. intros (Hl & Hr). specialize (IHl n Hl). specialize (IHr n Hr).
    destruct (root_color l), (root_color r); lia.
Qed.

Lemma rb_size n t : rb n t → (2 ^ n ≤ S (length (addrs t)))%nat.
Proof.
  induction t as [|[] l IHl a r IHr] in n |- *; simpl.
  - by intros ->.
  - intros (_ & _ & Hl & Hr). specialize (IHl n Hl). rewrite length_app. simpl. lia.
  - destruct n as [|n]; [done|]. intros (Hl & Hr). specialize (IHl n Hl). specialize (IHr n Hr).
    rewrite length_app. simpl. lia.
Qed.

Lemma red_black_depth t : red_black t → (depth t ≤ 2 * Nat.log2 (S (length (addrs t))))%nat.
Proof.
  intros (Hb & n & Hn). pose proof (rb_depth n t Hn) as Hd. rewrite Hb in Hd.
  pose proof (rb_size n t Hn) as Hs. apply Nat.log2_le_mono in Hs.
  rewrite Nat.log2_pow2 in Hs by lia. lia.
Qed.

Lemma red_black_ctx k t : red_black (plugs k t) →
  (length k + depth t ≤ 2 * Nat.log2 (S (length (addrs t) + length (ctx_addrs k))))%nat.
Proof.
  intros Hb. apply red_black_depth in Hb. rewrite plugs_perm, length_app in Hb.
  pose proof (depth_plugs k t). lia.
Qed.

(** ** The entry points *)

Lemma __rb_insert_ok augment_rotate fuel k n s :
  (∀ old new s, augment_rotate old new s = Some ((), s)) →
  rep s k (Node Red Leaf n Leaf) → red_black (plugs k Leaf) →
  (2 * Nat.log2 (S (length (ctx_addrs k))) < fuel)%nat →
  ∃ s', __rb_insert augment_rotate fuel n s = Some ((), s') ∧
    restored k (Node Red Leaf n Leaf) s s'.
Proof.
  intros Ha Hr Hb Hf. pose proof (red_black_ctx _ _ Hb) as Hd. simpl in Hd.
  apply rb_plugs in Hb as (_ & m & -> & Hk). destruct s as [h r].
  pose proof Hr as (_ & (_ & Hn & _) & Hc). unfold __rb_insert, rb_red_parent.
  simpl in Hn. rewrite red_word in Hn by by eapply up_valid.
  run_with (parent_color_run h r n L _ _ _ Hn).
  by apply (__rb_insert_loop_ok augment_rotate Ha fuel k L Leaf n Leaf 0); [lia|..].
Qed.

Lemma ____rb_erase_color_ok augment_rotate fuel k a s :
  (∀ old new s, augment_rotate old new s = Some ((), s)) →
  rep s k Leaf → k ≠ [] → red_black (plugs k (Node Black Leaf a Leaf)) →
  (2 * Nat.log2 (S (S (length (ctx_addrs k)))) ≤ fuel)%nat →
  ∃ s', ____rb_erase_color augment_rotate fuel (up k) s = Some ((), s') ∧ restored k Leaf s s'.
Proof.
  intros Ha Hr Hne Hb Hf. pose proof (red_black_ctx _ _ Hb) as Hd. simpl in Hd.
  apply rb_plugs in Hb as (_ & m & Hm & Hk). destruct m as [|m]; [done|].
  destruct Hm as [-> _].
  by apply (____rb_erase_color_loop_ok augment_rotate Ha fuel k Leaf 0); [|lia|..].
Qed.

(** C20: A node linked as a red leaf anywhere in a red-black tree: [rb_insert_color], and
    [__rb_insert_augmented] with a callback that leaves the links alone, make it a
    red-black tree again (black root, no red node below a red one, equal black heights).
    The nodes keep their order, all links and colour words are consistent, and no other
    node is written.  Twice the logarithm of the number of nodes bounds the rounds. *)
Theorem rb_insert_color_restores augment_rotate fuel k n s :
  (∀ old new s, augment_rotate old new s = Some ((), s)) →
  rep s k (Node Red Leaf n Leaf) → red_black (plugs k Leaf) →
  (2 * Nat.log2 (S (length (ctx_addrs k))) < fuel)%nat →
  ∃ s' t', rb_insert_color fuel n s = Some ((), s') ∧
    (∃ s'', __rb_insert_augmented augment_rotate fuel n s = Some ((), s'') ∧
       restored k (Node Red Leaf n Leaf) s s'') ∧
    rep s' [] t' ∧ red_black t' ∧ addrs t' = addrs (plugs k (Node Red Leaf n Leaf)) ∧
    same_outside (addrs t') (mem s) (mem s').
Proof.
  intros Ha Hr Hb Hf.
  destruct (__rb_insert_ok dummy_rotate fuel k n s) as (s' & E & t' & Ht'); try done.
  exists s', t'. split; [done|]. split; [|done]. by apply __rb_insert_ok.
Qed.

(** C21: A black leaf [a] is gone from a red-black tree, so that the paths through its place
    are one black node short.  [__rb_erase_color] at the parent of that place makes it a
    red-black tree again, with the nodes in their order, and writes no other node. *)
Theorem rb_erase_color_restores augment_rotate fuel k a s :
  (∀ old new s, augment_rotate old new s = Some ((), s)) →
  rep s k Leaf → k ≠ [] → red_black (plugs k (Node Black Leaf a Leaf)) →
  (2 * Nat.log2 (S (S (length (ctx_addrs k)))) ≤ fuel)%nat →
  ∃ s' t', __rb_erase_color augment_rotate fuel (up k) s = Some ((), s') ∧
    rep s' [] t' ∧ red_black t' ∧ addrs t' = addrs (plugs k Leaf) ∧
    same_outside (addrs t') (mem s) (mem s').
Proof.
  intros Ha Hr Hne Hb Hf.
  destruct (____rb_erase_color_ok augment_rotate fuel k a s Ha) as (s' & E & t' & Ht'); try done.
  by exists s', t'.
Qed.

(** [rb_erase], given what the unlinking in the header leaves: a red-black tree and
    [NULL], or a tree short of a black leaf and the parent of that place. *)
Lemma rb_erase_restores unlink fuel node k t a s s1 :
  unlink node s = Some (up k, s1) → rep s1 k t →
  (k = [] ∧ red_black t ∨
   k ≠ [] ∧ t = Leaf ∧ red_black (plugs k (Node Black Leaf a Leaf)) ∧
   (2 * Nat.log2 (S (S (length (ctx_addrs k)))) ≤ fuel)%nat) →
  ∃ s', rb_erase unlink fuel node s = Some ((), s') ∧ restored k t s1 s'.
Proof.
  intros Hu Hr [(-> & Hb) | (Hne & -> & Hb & Hf)]; unfold rb_erase; run_with Hu.
  - exists s1. split; [done|]. exists t. split; [done|]. split; [done|]. split; [done|]. apply so_refl.
  - destruct (____rb_erase_color_ok dummy_rotate fuel k a s1) as (s' & E & Hs'); try done.
    exists s'. split; [|done]. unfold when. destruct Hr as (_ & _ & Hc).
    pose proof (up_nonzero _ _ _ _ Hc Hne). by destruct (Z.eqb_spec (up k) 0).
Qed.

(** ** Walks *)

(** The nodes in the order that goes to the side [d]. *)
Definition ord (d : dir) (t : tree) : list Z :=
  match d with R => addrs t | L => reverse (addrs t) end.

(** The nodes of the surroundings that come behind, in this order. *)
Fixpoint behind (d : dir) (k : list frame) : list Z :=
  match k with
  | [] => []
  | (e, _, a, y) :: k => (if decide (e = d) then [] else a :: ord d y) ++ behind d k
  end.

Lemma ord_mk d c x a y : ord d (mk d c x a y) = ord d y ++ a :: ord d x.
Proof. destruct d; simpl; [|done]. rewrite reverse_app, reverse_cons. by rewrite <- (assoc_L (++)). Qed.
Lemma ord_mk_opp d c x a y : ord (opp d) (mk d c x a y) = ord (opp d) x ++ a :: ord (opp d) y.
Proof. rewrite <- (opp_opp d) at 2. by rewrite mk_opp, ord_mk. Qed.
Lemma ord_perm d t : ord d t ≡ₚ addrs t.
Proof. destruct d; simpl; [apply reverse_Permutation|done]. Qed.

Lemma ord_plugs d k t : ∃ l, ord d (plugs k t) = l ++ ord d t ++ behind d k.
Proof.
  induction k as [|[[[e c] a] y] k IH] in t |- *; simpl.
  { exists []. by rewrite app_nil_r. }
  destruct (IH (mk e c t a y)) as [l E]. unfold plugs in *. simpl. rewrite E.
  case_decide as De.
  - subst e. rewrite ord_mk. exists (l ++ ord d y ++ [a]). by list_simplifier.
  - assert (e = opp d) as -> by by destruct e, d. rewrite mk_opp, ord_mk.
    exists l. by list_simplifier.
Qed.

Lemma find_node a t : a ∈ addrs t → ∃ k c l r, t = plugs k (Node c l a r).
Proof.
  induction t as [|c l IHl b r IHr]; simpl; [by intros ?%not_elem_of_nil|].
  intros [Hl|[->|Hr]%elem_of_cons]%elem_of_app.
  - destruct (IHl Hl) as (k & c' & l' & r' & ->). exists (k ++ [(L, c, b, r)]), c', l', r'.
    unfold plugs. by rewrite foldl_app.
  - by exists [], c, l, r.
  - destruct (IHr Hr) as (k & c' & l' & r' & ->). exists (k ++ [(R, c, b, l)]), c', l', r'.
    unfold plugs. by rewrite foldl_app.
Qed.

Lemma nodup_split (a : Z) l1 l2 k1 k2 :
  NoDup (l1 ++ a :: l2) → l1 ++ a :: l2 = k1 ++ a :: k2 → l2 = k2.
Proof.
  induction l1 as [|b l1 IH] in k1 |- *; simpl; intros Hnd E.
  - destruct k1; [by simplify_eq/=|]. simplify_eq/=. apply NoDup_cons in Hnd as [[] _].
    apply elem_of_app. right. left.
  - destruct k1; simplify_eq/=.
    + apply NoDup_cons in Hnd as [[] _]. apply elem_of_app. right. left.
    + apply NoDup_cons in Hnd as [_ Hnd]. by eapply IH.
Qed.

Lemma descend_ok d fuel h r p t : tree_at h p t → t ≠ Leaf → (depth t ≤ fuel)%nat →
  descend fuel d (addr t) (State h r) = Some (hd 0 (ord (opp d) t), State h r).
Proof.
  induction fuel as [|fuel IH] in p, t |- *; intros Ht Ne Hf.
  { by destruct t; simpl in Hf; [|lia]. }
  assert (∃ c x a y, t = mk d c x a y) as (c & x & a & y & ->).
  { destruct t as [|c l a y]; [done|]. destruct d; [by exists c, l, a, y|by exists c, y, a, l]. }
  apply tree_at_mk in Ht as (Aa & Ha & Hx & Hy). rewrite addr_mk, ord_mk_opp. simpl.
  run_with (child_run h r a _ _ _ _ Ha).
  destruct (tree_root _ _ _ Hx) as [-> | (? & ? & ? & [Hx0 _] & Hin & _)].
  { by destruct d. }
  destruct (Z.eqb_spec (addr x) 0); [done|].
  rewrite (IH a x Hx); [|by intros ->|destruct d; simpl in Hf; lia].
  rewrite <- (ord_perm (opp d)) in Hin. by destruct (ord (opp d) x); [apply not_elem_of_nil in Hin|].
Qed.

Lemma ascend_ok d fuel s k t : rep s k t → t ≠ Leaf → (length k < fuel)%nat →
  ascend fuel d (addr t) s = Some (hd 0 (behind d k), s).
Proof.
  induction fuel as [|fuel IH] in k, t |- *; [lia|]. intros Hr Ne Hf. destruct s as [h r].
  pose proof Hr as (_ & Ht & Hc). simpl in Ht, Hc. pose proof (up_valid _ _ _ _ Hc) as Hv.
  destruct (tree_root _ _ _ Ht) as [-> | (e0 & x0 & y0 & [Ht0 _] & _ & _ & _ & _ & E)]; [done|].
  simpl. run_with (rb_parent_run h r _ _ _ _ _ _ E Hv).
  destruct k as [|[[[e c] a] y] k]; [done|].
  destruct Hc as (Aa & Ha & Hy & Hc). cbv beta iota delta [up]. simpl behind.
  destruct (Z.eqb_spec a 0); [by destruct Aa|]. case_decide as De.
  - subst e. run_with (child_run h r a _ _ _ _ Ha). rewrite Z.eqb_refl.
    apply rep_frame in Hr. specialize (IH k _ Hr). rewrite addr_mk in IH.
    apply IH; [by destruct d|simpl in Hf; lia].
  - assert (e = opp d) as -> by by destruct e, d. rewrite nd_opp in Ha.
    run_with (child_run h r a _ _ _ _ Ha).
    destruct (Z.eqb_spec (addr t) (addr y)) as [Et|]; [|done]. exfalso.
    destruct (tree_root _ _ _ Hy) as [-> | (? & ? & ? & _)]; [done|].
    by eapply node_sibling in Et; [|exact Hr|intros ->].
Qed.

Lemma rb_neighbour_ok d fuel s k c x a y : rep s k (mk d c x a y) →
  (length k + depth (mk d c x a y) ≤ fuel)%nat →
  rb_neighbour d fuel a s = Some (hd 0 (ord d x ++ behind d k), s).
Proof.
  intros Hr Hf. destruct s as [h r]. pose proof Hr as (Hnd & Ht & Hc). simpl in Ht, Hc.
  pose proof (up_valid _ _ _ _ Hc) as Hv.
  pose proof Ht as Ht'. apply tree_at_mk in Ht' as (Aa & Ha & Hx & Hy). unfold rb_neighbour.
  run_with (parent_color_run h r a _ _ _ _ Ha). rewrite linked_node; [|done|done|].
  2:{ rewrite addrs_mk in Hnd. simpl in Hnd. apply NoDup_cons in Hnd as [Hnd _].
      destruct k as [|[[[e c'] b] z] k]; simpl; [intros <-; by destruct Aa|].
      intros ->. apply Hnd. simpl. set_solver. }
  run_with (child_run h r a _ _ _ _ Ha).
  destruct (tree_root _ _ _ Hx) as [-> | (? & ? & ? & [Hx0 _] & Hin & _)]; simpl.
  - replace (ord d Leaf) with ([] : list Z) by by destruct d.
    pose proof (ascend_ok d fuel _ _ _ Hr) as E. rewrite addr_mk in E.
    apply E; [by destruct d|destruct d; simpl in Hf; lia].
  - destruct (Z.eqb_spec (addr x) 0); [done|]. simpl.
    rewrite (descend_ok (opp d) fuel h r a x Hx); [|by intros ->|destruct d; simpl in Hf; lia].
    rewrite opp_opp. rewrite <- (ord_perm d) in Hin.
    by destruct (ord d x); [apply not_elem_of_nil in Hin|].
Qed.

Lemma rb_end_ok d fuel s t : rep s [] t → (depth t ≤ fuel)%nat →
  rb_end d fuel s = Some (hd 0 (ord (opp d) t), s).
Proof.
  intros (_ & Ht & Hroot) Hf. destruct s as [h r]. simpl in *. subst r. unfold rb_end.
  run_with (eq_refl : root_node (State h (addr t)) = Some (addr t, State h (addr t))).
  destruct (tree_root _ _ _ Ht) as [-> | (? & ? & ? & [Ha _] & _)]; [by destruct d|].
  destruct (Z.eqb_spec (addr t) 0); [done|].
  apply (descend_ok d fuel h _ 0); [done|by intros ->|done].
Qed.

Lemma rb_neighbour_next d fuel s t l1 a l2 : rep s [] t → (depth t ≤ fuel)%nat →
  ord d t = l1 ++ a :: l2 → rb_neighbour d fuel a s = Some (hd 0 l2, s).
Proof.
  intros Hr Hf E. destruct (find_node a t) as (k & c & l & r & ->).
  { rewrite <- (ord_perm d), E. apply elem_of_app. right. left. }
  pose proof Hr as (Hnd & _). rewrite app_nil_r, <- (ord_perm d), E in Hnd.
  assert (∃ x y, Node c l a r = mk d c x a y) as (x & y & En).
  { destruct d; [by exists l, r|by exists r, l]. }
  rewrite En in *. apply rep_plugs in Hr. pose proof (depth_plugs k (mk d c x a y)).
  rewrite (rb_neighbour_ok d fuel s k c x a y Hr) by lia.
  destruct (ord_plugs d k (mk d c x a y)) as [l' E']. rewrite ord_mk in E'.
  rewrite E' in E. symmetry in E.
  rewrite <- (assoc_L (++)) in E. rewrite (assoc_L (++) l') in E. simpl in E.
  by rewrite (nodup_split _ _ _ _ _ Hnd E).
Qed.

Lemma rb_in_order_ok fuel s t : rep s [] t → (depth t ≤ fuel)%nat →
  rb_first fuel s = Some (hd 0 (addrs t), s) ∧
  rb_last fuel s = Some (default 0 (last (addrs t)), s) ∧
  (∀ l1 a l2, addrs t = l1 ++ a :: l2 →
     rb_next fuel a s = Some (hd 0 l2, s) ∧
     rb_prev fuel a s = Some (default 0 (last l1), s)).
Proof.
  intros Hr Hf.
  assert (Hl : ∀ l : list Z, hd 0 (reverse l) = default 0 (last l)).
  { intros l. rewrite <- head_reverse. by destruct (reverse l). }
  split; [by apply (rb_end_ok L)|].
  split; [rewrite <- Hl; by apply (rb_end_ok R)|]. intros l1 a l2 E. split.
  - by apply (rb_neighbour_next R fuel s t l1 a l2).
  - rewrite <- Hl. apply (rb_neighbour_next L fuel s t (reverse l2)); [done..|].
    simpl. rewrite E, reverse_app, reverse_cons. by list_simplifier.
Qed.

Fixpoint post (t : tree) : list Z :=
  match t with Leaf => [] | Node _ l a r => post l ++ post r ++ [a] end.

Fixpoint post_behind (k : list frame) : list Z :=
  match k with
  | [] => []
  | (L, _, a, y) :: k => post y ++ a :: post_behind k
  | (R, _, a, _) :: k => a :: post_behind k
  end.

Lemma post_perm t : post t ≡ₚ addrs t.
Proof.
  induction t as [|c l IHl a r IHr]; [done|]. simpl. rewrite IHl, IHr. solve_Permutation.
Qed.

Lemma post_plugs k t : ∃ l, post (plugs k t) = l ++ post t ++ post_behind k.
Proof.
  induction k as [|[[[d c] a] y] k IH] in t |- *; simpl.
  { exists []. by rewrite app_nil_r. }
  destruct (IH (mk d c t a y)) as [l E]. unfold plugs in *. simpl. rewrite E. destruct d; simpl.
  - exists l. by list_simplifier.
  - exists (l ++ post y). by list_simplifier.
Qed.

Lemma left_deepest_ok fuel h r p t : tree_at h p t → t ≠ Leaf → (depth t ≤ fuel)%nat →
  rb_left_deepest_node fuel (addr t) (State h r) = Some (hd 0 (post t), State h r).
Proof.
  induction fuel as [|fuel IH] in p, t |- *; intros Ht Ne Hf.
  { by destruct t; simpl in Hf; [|lia]. }
  destruct t as [|c l a x]; [done|]. destruct Ht as (_ & Ha & Hl & Hx). simpl in Hf. simpl.
  assert (Hpost : ∀ t, addr t ∈ addrs t → ∀ l', hd 0 (post t ++ l') = hd 0 (post t)).
  { intros t Hin l'. rewrite <- post_perm in Hin. destruct (post t); [|done].
    by apply not_elem_of_nil in Hin. }
  run_with (child_run h r a L _ _ _ Ha).
  destruct (tree_root _ _ _ Hl) as [-> | (? & ? & ? & [Hl0 _] & Hin & _)]; simpl.
  2:{ destruct (Z.eqb_spec (addr l) 0); [done|]. simpl. rewrite Hpost by done.
      apply (IH a); [done|by intros ->|lia]. }
  run_with (child_opp_run h r a L _ _ _ Ha).
  destruct (tree_root _ _ _ Hx) as [-> | (? & ? & ? & [Hx0 _] & Hin & _)]; simpl; [done|].
  destruct (Z.eqb_spec (addr x) 0); [done|]. simpl. rewrite Hpost by done.
  apply (IH a); [done|by intros ->|lia].
Qed.

Lemma rb_next_postorder_ok fuel s k t : rep s k t → t ≠ Leaf →
  (∀ d c a y k', k = (d, c, a, y) :: k' → depth y ≤ fuel)%nat →
  rb_next_postorder fuel (addr t) s = Some (hd 0 (post_behind k), s).
Proof.
  intros Hr Ne Hf. destruct s as [h r]. pose proof Hr as (_ & Ht & Hc). simpl in Ht, Hc.
  pose proof (up_valid _ _ _ _ Hc) as Hv. unfold rb_next_postorder.
  destruct (tree_root _ _ _ Ht) as [-> | (e0 & x0 & y0 & [Ht0 _] & _ & _ & _ & _ & E)]; [done|].
  destruct (Z.eqb_spec (addr t) 0); [done|].
  run_with (rb_parent_run h r _ _ _ _ _ _ E Hv).
  destruct k as [|[[[e c] a] y] k]; [done|].
  destruct Hc as (Aa & Ha & Hy & Hc). cbv beta iota delta [up]. simpl post_behind.
  destruct (Z.eqb_spec a 0); [by destruct Aa|].
  destruct (tree_root _ _ _ Hy) as [-> | (? & ? & ? & [Hy0 _] & Hin & _)].
  - destruct e.
    + run_with (child_run h r a L _ _ _ Ha). run_with (child_opp_run h r a L _ _ _ Ha).
      by rewrite andb_false_r.
    + run_with (child_opp_run h r a R _ _ _ Ha). run_with (child_run h r a R _ _ _ Ha).
      by destruct (Z.eqb_spec (addr t) (addr Leaf)).
  - assert (Ny : y ≠ Leaf) by by intros ->.
    pose proof (node_sibling _ _ _ _ _ _ _ Hr Ny) as Hty. destruct e.
    + run_with (child_run h r a L _ _ _ Ha). run_with (child_opp_run h r a L _ _ _ Ha).
      rewrite Z.eqb_refl. destruct (Z.eqb_spec (addr y) 0); [done|]. simpl.
      rewrite (left_deepest_ok fuel h r a y Hy Ny) by by eapply Hf.
      rewrite <- post_perm in Hin. by destruct (post y); [apply not_elem_of_nil in Hin|].
    + run_with (child_opp_run h r a R _ _ _ Ha). run_with (child_run h r a R _ _ _ Ha).
      by destruct (Z.eqb_spec (addr t) (addr y)).
Qed.

Lemma depth_sibling d c a y k t : (depth y ≤ depth (plugs ((d, c, a, y) :: k) t))%nat.
Proof.
  pose proof (depth_plugs k (mk d c t a y)) as Hd. unfold plugs in *. simpl in *.
  destruct d; simpl in *; lia.
Qed.

Lemma rb_postorder_ok fuel s t : rep s [] t → (depth t ≤ fuel)%nat →
  rb_first_postorder fuel s = Some (hd 0 (post t), s) ∧
  (∀ l1 a l2, post t = l1 ++ a :: l2 → rb_next_postorder fuel a s = Some (hd 0 l2, s)).
Proof.
  intros Hr Hf. split.
  - destruct Hr as (_ & Ht & Hroot). destruct s as [h r]. simpl in *. subst r.
    unfold rb_first_postorder.
    run_with (eq_refl : root_node (State h (addr t)) = Some (addr t, State h (addr t))).
    destruct (tree_root _ _ _ Ht) as [-> | (? & ? & ? & [Ha _] & _)]; [done|].
    destruct (Z.eqb_spec (addr t) 0); [done|].
    apply (left_deepest_ok fuel h _ 0); [done|by intros ->|done].
  - intros l1 a l2 E. destruct (find_node a t) as (k & c & l & r & ->).
    { rewrite <- post_perm, E. apply elem_of_app. right. left. }
    pose proof Hr as (Hnd & _). rewrite app_nil_r, <- post_perm, E in Hnd.
    apply rep_plugs in Hr.
    pose proof (rb_next_postorder_ok fuel s k (Node c l a r) Hr) as En. simpl addr in En.
    rewrite En; [|done|].
    + destruct (post_plugs k (Node c l a r)) as [l' E']. rewrite E' in E. simpl in E.
      symmetry in E. rewrite <- !(assoc_L (++)) in E. rewrite (assoc_L (++) l'), (assoc_L (++)) in E.
      by rewrite (nodup_split _ _ _ _ _ Hnd E).
    + intros d c' b y k' ->. etransitivity; [|exact Hf]. apply depth_sibling.
Qed.

(** C22: [rb_first] and [rb_last] give the ends of the in-order sequence of the nodes of a
    tree, [rb_next] and [rb_prev] the neighbours of every node in it, or [NULL].
    [rb_first_postorder] and [rb_next_postorder] visit every node behind all nodes below
    it, and end with [NULL].  Nothing is written; the depth of the tree bounds the steps of
    each walk, and that is at most twice the logarithm of its size when it is red-black. *)
Theorem rb_walks_in_order fuel s t : rep s [] t →
  (depth t ≤ fuel ∨ red_black t ∧ 2 * Nat.log2 (S (length (addrs t))) ≤ fuel)%nat →
  rb_first fuel s = Some (hd 0 (addrs t), s) ∧
  rb_last fuel s = Some (default 0 (last (addrs t)), s) ∧
  (∀ l1 a l2, addrs t = l1 ++ a :: l2 →
     rb_next fuel a s = Some (hd 0 l2, s) ∧
     rb_prev fuel a s = Some (default 0 (last l1), s)) ∧
  rb_first_postorder fuel s = Some (hd 0 (post t), s) ∧
  (∀ l1 a l2, post t = l1 ++ a :: l2 → rb_next_postorder fuel a s = Some (hd 0 l2, s)).
Proof.
  intros Hr Hf. assert (Hd : (depth t ≤ fuel)%nat).
  { destruct Hf as [?|[Hb ?]]; [done|]. pose proof (red_black_depth t Hb). lia. }
  destruct (rb_in_order_ok fuel s t Hr Hd) as (? & ? & ?).
  destruct (rb_postorder_ok fuel s t Hr Hd) as (? & ?). by split_and!.
Qed.

(** ** Replacement *)

Lemma replace_with_ext f g v new s :
  (∀ parent s, f v new parent s = g v new parent s) → replace_with f v new s = replace_with g v new s.
Proof. intros E. unfold replace_with, mbind, M_bind. by repeat (case_match; simplify_eq). Qed.

Lemma replace_with_ok k c l v x new o s :
  rep s k (Node c l v x) → node_addr new → mem s !! new = Some o →
  new ∉ addrs (Node c l v x) ++ ctx_addrs k →
  ∃ s', replace_with __rb_change_child v new s = Some ((), s') ∧ rep s' k (Node c l new x) ∧
    same_outside (new :: addrs l ++ addrs x ++ ctx_addrs k) (mem s) (mem s').
Proof.
  intros (Hnd & Ht & Hc) An Ho Hnew. destruct s as [h r]. simpl in Ht, Hc, Ho, Hnd, Hnew.
  destruct Ht as (Av & Hv & Hl & Hx). pose proof (up_valid _ _ _ _ Hc) as Hu.
  assert (Hnd2 : NoDup (new :: (addrs l ++ v :: addrs x) ++ ctx_addrs k)) by by apply NoDup_cons.
  parts Hnd2 [One new; Many (addrs l); One v; Many (addrs x); Many (ctx_addrs k)].
  unfold replace_with. run_with (rb_parent_run h r v L _ _ _ _ Hv Hu).
  run_with (rb_node_run h r v L _ _ _ Hv).
  assert (En : node new (State h r) = Some (o, State h r)) by (unfold node; simpl; by rewrite Ho).
  run_with En. set (h1 := <[new := nd L (make_word (up k) (col c)) (addr l) (addr x)]> h).
  run_with (eq_refl : put new (nd L (make_word (up k) (col c)) (addr l) (addr x)) (State h r) =
    Some ((), State h1 r)).
  assert (Hv1 : h1 !! v = Some (nd L (make_word (up k) (col c)) (addr l) (addr x))) by by look.
  run_with (child_run h1 r v L _ _ _ Hv1).
  assert (Hl1 : tree_at h1 v l) by (eapply tree_frame; [|exact Hl]; intros z Hz; by look).
  run_with (when_set_parent h1 r v new l ltac:(by right) ltac:(by right) Hl1).
  assert (Hl2 : tree_at (repar h1 new (root_color l) l) new l).
  { rewrite <- (recolor_same l _ eq_refl) at 3. by eapply repar_at. }
  pose proof (repar_outside h1 new (root_color l) l) as O2.
  set (h2 := repar h1 new (root_color l) l) in *. clearbody h2.
  assert (Hv2 : h2 !! v = Some (nd L (make_word (up k) (col c)) (addr l) (addr x))) by by look.
  run_with (child_opp_run h2 r v L _ _ _ Hv2).
  assert (Hx2 : tree_at h2 v x) by (eapply tree_frame; [|exact Hx]; intros z Hz; by look).
  run_with (when_set_parent h2 r v new x ltac:(by right) ltac:(by right) Hx2).
  assert (Hx3 : tree_at (repar h2 new (root_color x) x) new x).
  { rewrite <- (recolor_same x _ eq_refl) at 3. by eapply repar_at. }
  pose proof (repar_outside h2 new (root_color x) x) as O3.
  set (h3 := repar h2 new (root_color x) x) in *. clearbody h3.
  destruct (change_child_ctx h3 r k v new) as (h4 & r4 & E4 & Hc4 & O4); [|done|apply Av|off|].
  { eapply ctx_frame; [|exact Hc]. intros z Hz. by look. }
  rewrite E4. exists (State h4 r4). split; [done|]. split; [|simpl; outside].
  unfold rep. simpl. split_and!; [|done| | | |done].
  - eapply (nodup_sub _ _ Hnd2). clear. solve_submseteq.
  - by look.
  - eapply tree_frame; [|exact Hl2]. intros z Hz. by look.
  - eapply tree_frame; [|exact Hx3]. intros z Hz. by look.
Qed.

(** [rb_replace_node] and [rb_replace_node_rcu] put the new node in the place of the
    victim, wherever that is: the same tree with the same colours, all links to it, and
    the victim itself as it was. *)
Theorem rb_replace_node_replaces k c l v x new o s :
  rep s k (Node c l v x) → node_addr new → mem s !! new = Some o →
  new ∉ addrs (plugs k (Node c l v x)) →
  ∃ s', rb_replace_node v new s = Some ((), s') ∧ rb_replace_node_rcu v new s = Some ((), s') ∧
    rep s' k (Node c l new x) ∧ mem s' !! v = mem s !! v ∧
    same_outside (new :: addrs (plugs k (Node c l v x))) (mem s) (mem s').
Proof.
  intros Hr An Ho Hnew. rewrite plugs_perm in Hnew.
  destruct (replace_with_ok k c l v x new o s) as (s' & E & Hr' & O); try done.
  exists s'. split; [done|]. split; [|split; [done|split]].
  - rewrite <- E. apply replace_with_ext. intros ? []. apply __rb_change_child_rcu_spec.
  - apply O. destruct Hr as (Hnd & _). simpl in Hnd.
    parts Hnd [Many (addrs l); One v; Many (addrs x); Many (ctx_addrs k)].
    apply not_elem_of_cons. split; [set_solver|off].
  - rewrite plugs_perm. simpl. eapply so_step; [exact O| |apply so_refl]. clear. set_solver.
Qed.

End rbtree.
(** ** The header's layout on a machine word, and concrete trees *)

Lemma aligned_bits p i : valid p → 0 ≤ i < 2 → Z.testbit p i = false.
Proof.
  intros Hp Hi. assert (Hm : p mod 4 = 0) by (destruct Hp as [-> | [_ ?]]; done).
  rewrite (Z.div_mod p 4), Hm, Z.add_0_r, Z.mul_comm by lia. change 4 with (2 ^ 2).
  rewrite <- Z.shiftl_mul_pow2 by lia. apply Z.shiftl_spec_low. lia.
Qed.

Lemma parent_bits p c : valid p → 0 ≤ c < 4 → Z.land (Z.lor p c) (Z.lnot 3) = p.
Proof.
  intros Hp Hc. apply Z.bits_inj'. intros i Hi.
  rewrite Z.land_spec, Z.lor_spec, Z.lnot_spec by done.
  destruct (decide (i < 2)).
  - rewrite (aligned_bits p i) by (done || lia).
    assert (i = 0 ∨ i = 1) as [-> | ->] by lia; by rewrite andb_false_r.
  - assert (Hb : ∀ n, 0 ≤ n < 4 → Z.testbit n i = false).
    { intros m Hm. destruct (decide (m = 0)) as [-> | ?]; [apply Z.bits_0|].
      apply Z.bits_above_log2; [lia|]. assert (Z.log2 m < 2) by (apply Z.log2_lt_pow2; lia). lia. }
    rewrite (Hb c Hc), (Hb 3) by lia. by rewrite orb_false_r, andb_true_r.
Qed.

Lemma colour_bit p c : valid p → Z.testbit (Z.lor p c) 0 = Z.testbit c 0.
Proof. intros Hp. by rewrite Z.lor_spec, (aligned_bits p 0). Qed.

Definition change_link (old new parent : Z) : M state unit := λ s,
  if parent =? 0 then Some ((), State (mem s) new)
  else match mem s !! parent with
       | Some n => Some ((), State (<[parent :=
           set (if rb_left n =? old then L else R) n new]> (mem s)) (rb_root s))
       | None => None
       end.

#[export] Program Instance tagged_header : RbHeader := {|
  RB_RED := 0;
  RB_BLACK := 1;
  word_parent w := Z.land w (Z.lnot 3);
  word_is_red w := negb (Z.testbit w 0);
  word_is_black w := Z.testbit w 0;
  make_word p c := Z.lor p c;
  word_set_parent w p := Z.lor p (Z.land w 1);
  RB_EMPTY_NODE p w := w =? p;
  __rb_change_child := change_link;
  __rb_change_child_rcu := change_link;
|}.
Next Obligation. intros p [] Hp; by apply parent_bits. Qed.
Next Obligation. intros p c Hp. cbv beta. rewrite colour_bit by done. by destruct c. Qed.
Next Obligation. intros p c Hp. cbv beta. rewrite colour_bit by done. by destruct c. Qed.
Next Obligation.
  intros p p' c Hp Hp'. cbv beta. f_equal. apply Z.bits_inj'. intros i Hi. rewrite Z.land_spec, Z.lor_spec.
  destruct (decide (i = 0)) as [-> | Hi0].
  - rewrite (aligned_bits p 0) by (done || lia). by destruct c.
  - assert (E : Z.testbit 1 i = false) by (apply Z.bits_above_log2; simpl; lia).
    rewrite E, andb_false_r. destruct c; [by rewrite Z.bits_0|done].
Qed.
Next Obligation. intros p Hp. apply Z.lor_0_r. Qed.
Next Obligation. intros p Hp. cbv beta. by rewrite Z.lor_0_r. Qed.
Next Obligation.
  intros p q c Hp Hq Hne. cbv beta. apply Z.eqb_neq. intros E. apply Hne.
  apply (f_equal (λ w, Z.land (Z.lor w 0) (Z.lnot 3))) in E. revert E.
  rewrite Z.lor_0_r, !parent_bits; [done|by right|lia|done|by destruct c].
Qed.
Next Obligation. intros; reflexivity. Qed.
Next Obligation. intros; reflexivity. Qed.

(** A heap that holds a tree. *)
Fixpoint cells (p : Z) (t : tree) : list (Z * rb_node) :=
  match t with
  | Leaf => []
  | Node c l a r => (a, RbNode (make_word p (col c)) (addr r) (addr l)) :: cells a l ++ cells a r
  end.
Definition heap (t : tree) : state := State (list_to_map (cells 0 t)) (addr t).

Ltac concrete_rep :=
  split; [vm_decide|split; vm_compute; repeat split; solve [reflexivity|discriminate]].

Definition wit_ctx : list frame := [(R, Red, 16, Leaf); (L, Black, 32, Leaf)].

(** 24 goes between 16 and 32: both rotations, and 24 becomes the root. *)
Lemma rb_insert_color_restores_witness : ∃ s' t',
  rb_insert_color 3 24 (heap (plugs wit_ctx (Node Red Leaf 24 Leaf))) = Some ((), s') ∧
  rep s' [] t' ∧ red_black t' ∧ addrs t' = [16; 24; 32].
Proof.
  destruct (rb_insert_color_restores dummy_rotate 3 wit_ctx 24
    (heap (plugs wit_ctx (Node Red Leaf 24 Leaf)))) as (s' & t' & E & _ & Hr & Hb & Ha & _).
  - reflexivity.
  - concrete_rep.
  - split; [done|]. by exists 1%nat.
  - vm_compute. lia.
  - exists s', t'. by rewrite Ha.
Defined.

(** The left leaf is gone; the sibling 32 is red, with two black children. *)
Definition wit_hole : list frame :=
  [(L, Black, 16, Node Red (Node Black Leaf 24 Leaf) 32 (Node Black Leaf 40 Leaf))].

Lemma rb_erase_color_restores_witness : ∃ s' t',
  __rb_erase_color dummy_rotate 4 16 (heap (plugs wit_hole Leaf)) = Some ((), s') ∧
  rep s' [] t' ∧ red_black t' ∧ addrs t' = [16; 24; 32; 40].
Proof.
  destruct (rb_erase_color_restores dummy_rotate 4 wit_hole 8 (heap (plugs wit_hole Leaf)))
    as (s' & t' & E & Hr & Hb & Ha & _).
  - reflexivity.
  - concrete_rep.
  - discriminate.
  - split; [done|]. by exists 2%nat.
  - vm_compute. lia.
  - exists s', t'. by rewrite Ha.
Defined.

Definition wit_tree : tree :=
  Node Black (Node Black Leaf 16 (Node Red Leaf 24 Leaf)) 32 (Node Black Leaf 40 Leaf).

Lemma rb_walks_in_order_witness :
  rb_first 4 (heap wit_tree) = Some (16, heap wit_tree) ∧
  rb_next 4 24 (heap wit_tree) = Some (32, heap wit_tree) ∧
  rb_prev 4 16 (heap wit_tree) = Some (0, heap wit_tree) ∧
  rb_first_postorder 4 (heap wit_tree) = Some (24, heap wit_tree) ∧
  rb_next_postorder 4 16 (heap wit_tree) = Some (40, heap wit_tree).
Proof.
  destruct (rb_walks_in_order 4 (heap wit_tree) wit_tree) as (E1 & _ & E2 & E3 & E4).
  - concrete_rep.
  - right. split; [|vm_compute; lia]. split; [done|]. by exists 2%nat.
  - split; [exact E1|]. split; [exact (proj1 (E2 [16] 24 [32; 40] eq_refl))|].
    split; [exact (proj2 (E2 [] 16 [24; 32; 40] eq_refl))|]. split; [exact E3|].
    exact (E4 [24] 16 [40; 32] eq_refl).
Defined.

Definition wit_replace : state :=
  State (<[64 := RbNode 7 8 9]> (mem (heap wit_tree))) 32.

Lemma rb_replace_node_replaces_witness : ∃ s', rb_replace_node 16 64 wit_replace = Some ((), s') ∧
  rep s' [(L, Black, 32, Node Black Leaf 40 Leaf)] (Node Black Leaf 64 (Node Red Leaf 24 Leaf)).
Proof.
  destruct (rb_replace_node_replaces [(L, Black, 32, Node Black Leaf 40 Leaf)] Black Leaf 16
    (Node Red Leaf 24 Leaf) 64 (RbNode 7 8 9) wit_replace) as (s' & E & _ & Hr & _).
  - concrete_rep.
  - split; [discriminate|reflexivity].
  - reflexivity.
  - vm_decide.
  - by exists s'.
Defined.

End KRbtree.
