(* ===== verification/KTimerqueue.v ===== *)
(** * Timer queues, [lib/timerqueue.c]

    A queue is a red-black tree of timers with a pointer to the leftmost one.  The tree is
    that of [KRbtree]; what [linux/rbtree.h] adds ([rb_link_node],
    [rb_insert_color_cached], [rb_erase_cached], the tests for empty nodes and roots) is
    the class [RbCached].  A timer has the address of its [rb_node]; [WARN_ON_ONCE] leaves
    a mark that a warning was due. *)
From stdpp Require Import base numbers sets gmap list sorting.
From S2P Require Import Prelude KHeap KRbtree.
Import KHeap KRbtree.

Module KTimerqueue.
Local Open Scope Z_scope.

(** The tree, [rb_leftmost], [expires] of every timer, and whether a warning was due. *)
Record tq := Tq { tree_of : state; rb_leftmost : Z; expires : gmap Z Z; warned : bool }.

(** A place that holds a pointer to a node: [&root->rb_node] or a child pointer. *)
Inductive link := Root | Child (parent : Z) (d : dir).

Definition on_tree {A} (m : M state A) : M tq A := λ q,
  match m (tree_of q) with
  | Some (a, s) => Some (a, Tq s (rb_leftmost q) (expires q) (warned q))
  | None => None
  end.
Definition get_expires (p : Z) : M tq Z := λ q,
  match expires q !! p with Some e => Some (e, q) | None => None end.
Definition WARN_ON_ONCE (b : bool) : M tq unit := λ q,
  Some ((), Tq (tree_of q) (rb_leftmost q) (expires q) (warned q || b)).

Definition load_link (p : link) : M state Z :=
  match p with Root => root_node | Child a d => child d a end.
Definition store_link (p : link) (v : Z) : M state unit :=
  match p with
  | Root => λ s, Some ((), State (mem s) v)
  | Child a d => set_child d a v
  end.

Class RbCached `{RbHeader} := {
  rb_link_node : Z → Z → link → M state unit;
  rb_insert_color_cached : nat → Z → bool → M tq unit;
  rb_erase_cached : nat → Z → M tq unit;
  RB_CLEAR_NODE : Z → M state unit;
  rb_link_node_spec node parent p s :
    rb_link_node node parent p s =
    (_ ← KRbtree.node node;
     _ ← put node (RbNode parent 0 0);
     store_link p node) s;
  rb_insert_color_cached_spec fuel node leftmost q :
    rb_insert_color_cached fuel node leftmost q =
    (on_tree (rb_insert_color fuel node))
      (Tq (tree_of q) (if leftmost then node else rb_leftmost q) (expires q) (warned q));
  RB_CLEAR_NODE_spec node s n : mem s !! node = Some n → ∃ w,
    RB_EMPTY_NODE node w = true ∧
    RB_CLEAR_NODE node s =
      Some ((), State (<[node := RbNode w (rb_right n) (rb_left n)]> (mem s)) (rb_root s));
}.

Section timerqueue.
Context `{RbCached}.

Fixpoint timerqueue_search (fuel : nat) (node : Z) (p : link) (parent : Z) (leftmost : bool)
    : M tq (link * Z * bool) :=
  match fuel with
  | O => fail
  | S fuel =>
      next ← on_tree (load_link p);
      if next =? 0 then mret (p, parent, leftmost)
      else
        let parent := next in
        e ← get_expires node;
        e' ← get_expires parent;
        if e <? e' then timerqueue_search fuel node (Child next L) parent leftmost
        else timerqueue_search fuel node (Child next R) parent false
  end.

Definition timerqueue_add (fuel : nat) (node : Z) : M tq bool :=
  w ← on_tree (parent_color node);
  _ ← WARN_ON_ONCE (negb (RB_EMPTY_NODE node w));
  r ← timerqueue_search fuel node Root 0 true;
  let '(p, parent, leftmost) := (r : link * Z * bool) in
  _ ← on_tree (rb_link_node node parent p);
  _ ← rb_insert_color_cached fuel node leftmost;
  mret leftmost.

Definition timerqueue_del (fuel : nat) (node : Z) : M tq bool :=
  w ← on_tree (parent_color node);
  _ ← WARN_ON_ONCE (RB_EMPTY_NODE node w);
  _ ← rb_erase_cached fuel node;
  _ ← on_tree (RB_CLEAR_NODE node);
  r ← on_tree root_node;
  mret (negb (r =? 0)).

Definition timerqueue_iterate_next (fuel : nat) (node : Z) : M tq Z :=
  if node =? 0 then mret 0
  else
    next ← on_tree (rb_next fuel node);
    if next =? 0 then mret 0 else mret next.

(** ** The queue that a state holds *)

Definition when_due (ex : gmap Z Z) (a : Z) : Z := default 0 (ex !! a).
Definition not_later (ex : gmap Z Z) (a b : Z) : Prop := when_due ex a ≤ when_due ex b.

(** The timers in the order in which they expire, in a red-black tree. *)
Definition queue (q : tq) (l : list Z) : Prop := ∃ t,
  rep (tree_of q) [] t ∧ red_black t ∧ addrs t = l ∧
  (∀ a, a ∈ l → is_Some (expires q !! a)) ∧
  StronglySorted (not_later (expires q)) l ∧ rb_leftmost q = hd 0 l.

Definition link_of (k : list frame) : link :=
  match k with [] => Root | (d, _, a, _) :: _ => Child a d end.

Lemma on_tree_run {A} (m : M state A) q a s : m (tree_of q) = Some (a, s) →
  on_tree m q = Some (a, Tq s (rb_leftmost q) (expires q) (warned q)).
Proof. unfold on_tree. by intros ->. Qed.
Lemma on_tree_read {A} (m : M state A) q a : m (tree_of q) = Some (a, tree_of q) →
  on_tree m q = Some (a, q).
Proof. intros E. rewrite (on_tree_run m q a _ E). by destruct q. Qed.

Lemma load_link_run s k x : ctx_at (mem s) (rb_root s) k x →
  load_link (link_of k) s = Some (x, s).
Proof.
  destruct s as [h r], k as [|[[[d c] a] y] k]; simpl; [by intros ->|].
  intros (_ & Ha & _). apply (child_run h r a d _ _ _ Ha).
Qed.

Lemma get_expires_run q a : is_Some (expires q !! a) →
  get_expires a q = Some (when_due (expires q) a, q).
Proof. intros [e E]. unfold get_expires, when_due. by rewrite E. Qed.

Lemma plugs_order k t : addrs (plugs k t) = reverse (behind L k) ++ addrs t ++ behind R k.
Proof.
  induction k as [|[[[d c] a] y] k IH] in t |- *; [by rewrite app_nil_r|].
  unfold plugs in *. simpl. rewrite IH. destruct d; simpl.
  - by list_simplifier.
  - rewrite reverse_cons, reverse_app, reverse_involutive. by list_simplifier.
Qed.

Lemma timerqueue_search_ok fuel k t q n lm :
  rep (tree_of q) k t → is_Some (expires q !! n) →
  (∀ a, a ∈ addrs t → is_Some (expires q !! a)) →
  StronglySorted (not_later (expires q)) (addrs t) → (depth t < fuel)%nat →
  ∃ k' l1 l2, timerqueue_search fuel n (link_of k) (up k) lm q =
      Some ((link_of k', up k', lm && bool_decide (l1 = [])), q) ∧
    rep (tree_of q) k' Leaf ∧ plugs k' Leaf = plugs k t ∧ addrs t = l1 ++ l2 ∧
    (∀ a, a ∈ l1 → not_later (expires q) a n) ∧ (∀ a, a ∈ l2 → ¬ not_later (expires q) a n) ∧
    behind L k' = reverse l1 ++ behind L k ∧ behind R k' = l2 ++ behind R k.
Proof.
  induction fuel as [|fuel IH] in k, t, lm |- *; [lia|]. intros Hr Hn Hex Hs Hf. simpl.
  pose proof Hr as (_ & Ht & Hc).
  run_with (on_tree_read _ _ _ (load_link_run _ _ _ Hc)). destruct t as [|c l a r].
  { exists k, [], []. rewrite andb_true_r. split_and!; set_solver. }
  destruct Ht as ([Ha _] & _). simpl in Hex, Hs, Hf.
  change (addr (Node c l a r)) with a.
  destruct (Z.eqb_spec a 0); [done|].
  run_with (get_expires_run q n Hn). run_with (get_expires_run q a ltac:(apply Hex; set_solver)).
  apply StronglySorted_app in Hs as (Hs1 & Hsl & [Har Hsr]%StronglySorted_cons).
  rewrite Forall_forall in Har.
  destruct (Z.ltb_spec (when_due (expires q) n) (when_due (expires q) a)) as [Hlt|Hle].
  - destruct (IH ((L, c, a, r) :: k) l lm) as (k' & l1 & l2 & E & Hr' & Ep & El & H1 & H2 & B1 & B2);
      [by apply rep_frame|done|set_solver|done|lia|].
    exists k', l1, (l2 ++ a :: addrs r). simpl addrs. rewrite El. split_and!; [done..|by list_simplifier|done| |done|].
    + intros b [?|[->|Hb]%elem_of_cons]%elem_of_app; [by apply H2|unfold not_later; lia|].
      specialize (Har b Hb). unfold not_later in *. lia.
    + rewrite B2. by list_simplifier.
  - destruct (IH ((R, c, a, l) :: k) r false)
      as (k' & l1 & l2 & E & Hr' & Ep & El & H1 & H2 & B1 & B2);
      [by apply rep_frame|done|set_solver|done|lia|].
    exists k', (addrs l ++ a :: l1), l2. simpl addrs. rewrite El.
    rewrite bool_decide_false, andb_false_r by by destruct (addrs l).
    split_and!; [done..|by list_simplifier| |done| |done].
    + intros b [Hb|[->|?]%elem_of_cons]%elem_of_app; [|unfold not_later; lia|by apply H1].
      specialize (Hs1 b a Hb ltac:(set_solver)). unfold not_later in *. lia.
    + rewrite B1, reverse_app, reverse_cons. by list_simplifier.
Qed.

Ltac written := repeat (apply so_insert; [clear; set_solver|]); apply so_refl.

Lemma rb_link_node_ok s k n o :
  rep s k Leaf → node_addr n → mem s !! n = Some o → n ∉ ctx_addrs k →
  ∃ s', rb_link_node n (up k) (link_of k) s = Some ((), s') ∧
    rep s' k (Node Red Leaf n Leaf) ∧ same_outside (n :: ctx_addrs k) (mem s) (mem s').
Proof.
  intros (Hnd & _ & Hc) An Ho Hn. destruct s as [h r]. simpl in *. rewrite rb_link_node_spec.
  assert (E : KRbtree.node n (State h r) = Some (o, State h r)).
  { unfold KRbtree.node. simpl. by rewrite Ho. }
  run_with E. set (h1 := <[n := nd L (up k) 0 0]> h).
  run_with (eq_refl : put n (RbNode (up k) 0 0) (State h r) = Some ((), State h1 r)).
  pose proof (up_valid _ _ _ _ Hc) as Hv.
  assert (Hn1 : ∀ h', h' !! n = h1 !! n → tree_at h' (up k) (Node Red Leaf n Leaf)).
  { intros h' Eh. simpl. split_and!; [done| |done..]. rewrite Eh, red_word by done.
    unfold h1. by rewrite lookup_insert_eq. }
  destruct k as [|[[[d c] a] y] k]; simpl in *.
  - eexists. split; [done|]. split; [|simpl; written].
    split_and!; [apply NoDup_singleton|by apply Hn1|done].
  - destruct Hc as (Aa & Ha & Hy & Hc).
    assert (Hnd' : NoDup (n :: a :: addrs y ++ ctx_addrs k)) by by apply NoDup_cons.
    parts Hnd' [One n; One a; Many (addrs y); Many (ctx_addrs k)].
    assert (Ha1 : h1 !! a = Some (nd d (make_word (up k) (col c)) 0 (addr y))) by by look.
    rewrite (set_child_run h1 r a d _ _ _ Ha1). eexists. split; [done|].
    split; [|simpl; written]. unfold rep. simpl mem.
    split_and!; [by apply NoDup_cons|apply Hn1; by look|]. simpl. split_and!; [done|by look| |].
    + eapply tree_frame; [|exact Hy]. intros z Hz. by look.
    + eapply ctx_frame; [|exact Hc]. intros z Hz. by look.
Qed.

(** C23: [timerqueue_add] puts a timer into the queue behind every timer that expires no
    later than it, and before the others; the queue stays sorted, in a red-black tree, with
    [rb_leftmost] its first timer.  The result says whether the new timer is the first, and
    a warning is due exactly if the node looked queued. *)
Theorem timerqueue_add_sorted fuel q l n o :
  queue q l → n ∉ l → node_addr n → mem (tree_of q) !! n = Some o →
  is_Some (expires q !! n) → (2 * Nat.log2 (S (length l)) < fuel)%nat →
  ∃ q' l1 l2, timerqueue_add fuel n q = Some (bool_decide (l1 = []), q') ∧ l = l1 ++ l2 ∧
    (∀ a, a ∈ l1 → not_later (expires q) a n) ∧ (∀ a, a ∈ l2 → ¬ not_later (expires q) a n) ∧
    queue q' (l1 ++ n :: l2) ∧ expires q' = expires q ∧
    warned q' = warned q || negb (RB_EMPTY_NODE n (__rb_parent_color o)).
Proof.
  intros (t & Hr & Hb & <- & Hex & Hs & Hlm) Hn An Ho Hen Hf.
  pose proof (red_black_depth t Hb) as Hd. destruct q as [s lm ex wr]; simpl in *.
  assert (Ew : parent_color n s = Some (__rb_parent_color o, s)).
  { unfold parent_color, KRbtree.node, mbind, M_bind. by rewrite Ho. }
  unfold timerqueue_add. run_with (on_tree_read _ (Tq s lm ex wr) _ Ew).
  set (b := negb (RB_EMPTY_NODE n (__rb_parent_color o))).
  run_with (eq_refl : WARN_ON_ONCE b (Tq s lm ex wr) = Some ((), Tq s lm ex (wr || b))).
  destruct (timerqueue_search_ok fuel [] t (Tq s lm ex (wr || b)) n true)
    as (k & l1 & l2 & E & Hr' & Ep & El & H1 & H2 & B1 & B2); [done..|lia|].
  simpl in B1, B2, H1, H2, Hr'. rewrite app_nil_r in B1, B2. run_with E. simpl.
  assert (Hlen : length (ctx_addrs k) = length (addrs t)).
  { change (addrs t) with (addrs (plugs [] t)). rewrite <- Ep. by rewrite plugs_perm. }
  destruct (rb_link_node_ok s k n o Hr' An Ho) as (s1 & E1 & Hr1 & _).
  { intros Hin. apply Hn. change (addrs t) with (addrs (plugs [] t)). rewrite <- Ep.
    by rewrite plugs_perm. }
  run_with (on_tree_run _ (Tq s lm ex (wr || b)) _ _ E1). simpl.
  destruct (__rb_insert_ok dummy_rotate fuel k n s1) as (s2 & E2 & t' & Hrt & Hbt & Ht & _);
    [done|done|by rewrite Ep|by rewrite Hlen|].
  pose proof (rb_insert_color_cached_spec fuel n (bool_decide (l1 = [])) (Tq s1 lm ex (wr || b)))
    as E3.
  rewrite (on_tree_run (rb_insert_color fuel n) (Tq s1 _ ex (wr || b)) () s2 E2) in E3.
  run_with E3. simpl. eexists _, l1, l2. split; [done|]. simpl.
  assert (Et : addrs t' = l1 ++ n :: l2).
  { rewrite Ht, plugs_order, B1, B2, reverse_involutive. done. }
  do 3 (split; [done|]). split; [|done]. exists t'. split; [done|]. split; [done|].
  split; [done|]. simpl. split_and!.
  - intros a [?|[->|?]%elem_of_cons]%elem_of_app; [|done|]; apply Hex; rewrite El; set_solver.
  - rewrite El in Hs. apply StronglySorted_app in Hs as (Hs1 & Hsl & Hsr).
    apply StronglySorted_app. split; [|split; [done|apply StronglySorted_cons; split; [|done]]].
    + intros x1 x2 Hx1 [->|Hx2]%elem_of_cons; [by apply H1|by apply Hs1].
    + apply Forall_forall. intros x Hx. specialize (H2 x Hx). unfold not_later in *. lia.
  - rewrite El in Hlm. case_bool_decide as D; [by subst l1|]. by destruct l1.
Qed.

(** [timerqueue_iterate_next] walks the queue: behind every timer comes the next one,
    and [NULL] behind the last; the queue is unchanged. *)
Lemma timerqueue_iterates fuel q l1 a l2 :
  queue q (l1 ++ a :: l2) → (2 * Nat.log2 (S (length (l1 ++ a :: l2))) ≤ fuel)%nat →
  timerqueue_iterate_next fuel a q = Some (hd 0 l2, q).
Proof.
  intros (t & Hr & Hb & El & _) Hf. pose proof (red_black_depth t Hb) as Hd.
  assert (Ha : a ≠ 0).
  { destruct (find_node a t) as (k & c & l & r & ->); [rewrite El; set_solver|].
    apply rep_plugs in Hr as (_ & ([? _] & _) & _). done. }
  unfold timerqueue_iterate_next. destruct (Z.eqb_spec a 0); [done|]. rewrite El in Hd.
  destruct (rb_in_order_ok fuel (tree_of q) t Hr ltac:(lia)) as (_ & _ & Hnext).
  run_with (on_tree_read _ q _ (proj1 (Hnext _ _ _ El))).
  by destruct (Z.eqb_spec (hd 0 l2) 0) as [->|].
Qed.

(** What [timerqueue_del] adds to the removal of the header: the node looks unqueued
    afterwards, so that it can be added again without a warning, and the result says whether
    a timer is left. *)
Lemma timerqueue_del_clears fuel n q q1 l o o' :
  mem (tree_of q) !! n = Some o → RB_EMPTY_NODE n (__rb_parent_color o) = false →
  rb_erase_cached fuel n q = Some ((), q1) → queue q1 l → n ∉ l →
  mem (tree_of q1) !! n = Some o' →
  ∃ q' o'', timerqueue_del fuel n q = Some (negb (bool_decide (l = [])), q') ∧ queue q' l ∧
    mem (tree_of q') !! n = Some o'' ∧ RB_EMPTY_NODE n (__rb_parent_color o'') = true.
Proof.
  intros Ho Hw Er (t & Hr & Hb & El & Hex & Hs & Hlm) Hn Ho'.
  assert (Ew : parent_color n (tree_of q) = Some (__rb_parent_color o, tree_of q)).
  { unfold parent_color, KRbtree.node, mbind, M_bind. by rewrite Ho. }
  unfold timerqueue_del. run_with (on_tree_read _ q _ Ew). rewrite Hw.
  assert (E0 : WARN_ON_ONCE false q = Some ((), q)).
  { destruct q. unfold WARN_ON_ONCE. simpl. by rewrite orb_false_r. }
  run_with E0. run_with Er. destruct (RB_CLEAR_NODE_spec n _ _ Ho') as (w & Hwe & Ec).
  run_with (on_tree_run _ q1 _ _ Ec). destruct q1 as [[h r] lm ex wr]. simpl in *.
  set (s2 := State (<[n := _]> h) r).
  run_with (on_tree_read root_node (Tq s2 lm ex wr) r eq_refl).
  assert (Hr2 : rep s2 [] t).
  { destruct Hr as (Hnd & Ht & Hc). split_and!; [done| |done]. simpl.
    eapply tree_frame; [|exact Ht]. intros z Hz. apply lookup_insert_ne. rewrite El in Hz.
    by intros ->. }
  exists (Tq s2 lm ex wr), (RbNode w (rb_right o') (rb_left o')).
  split; [|split; [|split; [apply lookup_insert_eq|done]]].
  - assert (Eb : r =? 0 = bool_decide (l = [])).
    { destruct Hr as (_ & Ht & Hroot). simpl in *. subst r l.
      destruct (tree_root _ _ _ Ht) as [-> | (? & ? & ? & [? _] & Hin & _)]; [done|].
      rewrite bool_decide_false by (intros E; rewrite E in Hin; by apply not_elem_of_nil in Hin).
      by apply Z.eqb_neq. }
    by rewrite <- Eb.
  - by exists t.
Qed.

End timerqueue.
(** ** An instance, and a concrete queue *)

(** The removal of a node without children. *)
Definition unlink_leaf (node : Z) : M state Z :=
  parent ← rb_parent node;
  black ← rb_is_black node;
  _ ← __rb_change_child node 0 parent;
  mret (if (black : bool) then parent else 0).

Definition move_leftmost (node next : Z) : M tq unit := λ q,
  Some ((), Tq (tree_of q) (if rb_leftmost q =? node then next else rb_leftmost q)
              (expires q) (warned q)).
Definition erase_leaf_cached (fuel : nat) (node : Z) : M tq unit :=
  next ← on_tree (rb_next fuel node);
  _ ← on_tree (rb_erase unlink_leaf fuel node);
  move_leftmost node next.

#[export] Program Instance cached_header : RbCached := {|
  rb_link_node node parent p :=
    _ ← KRbtree.node node;
    _ ← put node (RbNode parent 0 0);
    store_link p node;
  rb_insert_color_cached fuel node leftmost q :=
    (on_tree (rb_insert_color fuel node))
      (Tq (tree_of q) (if leftmost then node else rb_leftmost q) (expires q) (warned q));
  rb_erase_cached fuel node := erase_leaf_cached fuel node;
  RB_CLEAR_NODE node := set_parent_color_word node node;
|}.
Next Obligation. intros; reflexivity. Qed.
Next Obligation. intros; reflexivity. Qed.
Next Obligation.
  intros p [h r] n Hn. exists p. split; [exact (Z.eqb_refl p)|].
  destruct n as [w x y]. exact (set_word_run h r p L w y x Hn p).
Qed.

(** Timers 16, 24, 32 expire at 5, 5, 9; 64 is new and expires at 5. *)
Definition wit_queue : tq :=
  Tq (State (<[64 := RbNode 64 0 0]>
       (mem (heap (Node Black (Node Red Leaf 16 Leaf) 24 (Node Red Leaf 32 Leaf))))) 24)
    16 (list_to_map [(16, 5); (24, 5); (32, 9); (64, 5)]) false.

Lemma wit_queue_ok : queue wit_queue [16; 24; 32].
Proof.
  exists (Node Black (Node Red Leaf 16 Leaf) 24 (Node Red Leaf 32 Leaf)).
  split; [concrete_rep|]. split; [split; [done|by exists 1%nat]|]. split; [done|]. split_and!; [| |done].
  - intros a Ha. repeat (apply elem_of_cons in Ha as [-> | Ha]; [by eexists|]). by apply not_elem_of_nil in Ha.
  - repeat constructor; vm_compute; discriminate.
Qed.

Lemma timerqueue_add_sorted_witness : ∃ q' l1 l2,
  timerqueue_add 5 64 wit_queue = Some (bool_decide (l1 = []), q') ∧ [16; 24; 32] = l1 ++ l2 ∧
  queue q' (l1 ++ 64 :: l2) ∧ warned q' = false.
Proof.
  destruct (timerqueue_add_sorted 5 wit_queue [16; 24; 32] 64 (RbNode 64 0 0) wit_queue_ok)
    as (q' & l1 & l2 & E & El & _ & _ & Hq & _ & Hw).
  - vm_decide.
  - split; [discriminate|reflexivity].
  - reflexivity.
  - by eexists.
  - vm_compute. lia.
  - by exists q', l1, l2.
Defined.

(** The walk from 16, and the removal of 32, after which two timers are left. *)
Example timerqueue_example :
  fst <$> timerqueue_iterate_next 4 16 wit_queue = Some 24 ∧
  (timerqueue_del 5 32 wit_queue ≫= λ r, fst <$> timerqueue_iterate_next 4 24 r.2) = Some 0 ∧
  fst <$> timerqueue_del 5 32 wit_queue = Some true.
Proof. vm_compute. done. Qed.

End KTimerqueue.
