(* ===== verification/KBoyerMoore.v ===== *)
(** * The search of Boyer and Moore, [lib/ts_bm.c]

    The pattern is compared from its end; two tables say how far it may move after a
    mismatch.  The text comes in blocks as in [KTextSearch].  The tables are arrays of
    [ASIZE] and of [patlen] entries; [None] is an access outside of an array.  [toupper],
    [tolower] and the allocation are parameters. *)
From stdpp Require Import base numbers sets strings list.
From S2P Require Import Prelude KStrtox KTextSearch.
Import KStrtox KTextSearch.

Module KBoyerMoore.
Local Open Scope Z_scope.

Definition ASIZE : nat := 256.

Record ts_bm := TsBm {
  bm_pattern : bytes;
  patlen : nat;
  bad_shift : list Z;
  good_shift : list Z;
}.

(** An element of an array; nothing outside. *)
Definition at_ {A} (l : list A) (i : Z) : option A := if i <? 0 then None else l !! Z.to_nat i.
Definition at_put {A} (l : list A) (i : Z) (v : A) : option (list A) :=
  if (0 <=? i) && (i <? Z.of_nat (length l)) then Some (<[Z.to_nat i := v]> l) else None.

Section bm.
Context (toupper tolower : Z → Z).

(** ** Searching *)

(** The loop over the pattern, from [i] on: [n] bytes are left.  The result is the [i] of
    the mismatch, or none. *)
Fixpoint bm_compare (bm : ts_bm) (icase : bool) (text : bytes) (shift : Z) (n i : nat)
    : option (option nat) :=
  match n with
  | O => Some None
  | S n =>
      t ← at_ text (w32 (shift - Z.of_nat i));
      p ← at_ (bm_pattern bm) (w32 (Z.of_nat (patlen bm) - 1 - Z.of_nat i));
      if negb (fold_case toupper icase t =? p) then Some (Some i)
      else bm_compare bm icase text shift n (S i)
  end.

(** The loop over a block: [inl shift] for a match, else [inr shift] at its end. *)
Fixpoint bm_scan (fuel : nat) (bm : ts_bm) (icase : bool) (text : bytes) (shift : Z)
    : option (Z + Z) :=
  match fuel with
  | O => None
  | S fuel =>
      if w32 shift <? Z.of_nat (length text) then
        m ← bm_compare bm icase text shift (patlen bm) 0;
        match (m : option nat) with
        | None => Some (inl shift)
        | Some i =>
            c ← at_ text (w32 (shift - Z.of_nat i));
            bs ← at_ (bad_shift bm) c;
            gs ← at_ (good_shift bm) (Z.of_nat i);
            bm_scan fuel bm icase text
              (Z.max (signed 32 (shift - Z.of_nat i + bs)) (signed 32 (shift + gs)))
        end
      else Some (inr shift)
  end.

(** The loop over the blocks.  The code does not write [state->offset]. *)
Fixpoint bm_loop (fuel : nat) (bm : ts_bm) (icase : bool) (get_next_block : nat → bytes)
    (offset consumed : nat) (shift : Z) : option (Z * nat) :=
  match fuel with
  | O => None
  | S fuel =>
      match get_next_block consumed with
      | [] => Some (UINT_MAX, offset)
      | text =>
          r ← bm_scan (S (length text)) bm icase text shift;
          match (r : Z + Z) with
          | inl shift =>
              Some (w32 (Z.of_nat consumed + (shift - (Z.of_nat (patlen bm) - 1))), offset)
          | inr shift =>
              bm_loop fuel bm icase get_next_block offset (uint (consumed + length text)) shift
          end
      end
  end.

Definition bm_find (fuel : nat) (bm : ts_bm) (icase : bool) (get_next_block : nat → bytes)
    (offset : nat) : option (Z * nat) :=
  bm_loop fuel bm icase get_next_block offset offset (signed 32 (Z.of_nat (patlen bm) - 1)).

(** ** The tables *)

(** [g] bytes are left to compare. *)
Fixpoint subpattern_loop (pat : bytes) (i j x y : Z) (g : nat) : option bool :=
  match g with
  | O => None
  | S g =>
      px ← at_ pat x;
      py ← at_ pat y;
      if px =? py then
        let x := x - 1 in
        let y := y - 1 in
        if y <? 0 then Some true
        else if (g =? 0)%nat then
          a ← at_ pat (i - 1);
          b ← at_ pat (j - 1);
          Some (negb (a =? b))
        else subpattern_loop pat i j x y g
      else Some false
  end.

Definition subpattern (pat : bytes) (i j : Z) (g : nat) : option bool :=
  subpattern_loop pat i j (i + Z.of_nat g - 1) (j + Z.of_nat g - 1) g.

(** [n] entries of the pattern are left. *)
Fixpoint bad_loop (n : nat) (pat : bytes) (patlen : nat) (icase : bool) (tbl : list Z) (i : nat)
    : option (list Z) :=
  match n with
  | O => Some tbl
  | S n =>
      let v := Z.of_nat patlen - 1 - Z.of_nat i in
      p ← pat !! i;
      tbl ← at_put tbl p v;
      tbl ← (if icase then at_put tbl (tolower p) v else Some tbl);
      bad_loop n pat patlen icase tbl (S i)
  end.

(** The loop over [j]: the value for [good_shift[g]], if one is found. *)
Fixpoint good_search (fuel : nat) (pat : bytes) (patlen : nat) (i j : Z) (g : nat)
    : option (option Z) :=
  match fuel with
  | O => None
  | S fuel =>
      if 1 - Z.of_nat g <=? j then
        r ← subpattern pat i j g;
        if (r : bool) then Some (Some (Z.of_nat patlen - j - Z.of_nat g))
        else good_search fuel pat patlen i (j - 1) g
      else Some None
  end.

(** The loop over [i] and [g]. *)
Fixpoint good_loop (i : nat) (pat : bytes) (patlen : nat) (tbl : list Z) (g : nat)
    : option (list Z) :=
  match i with
  | O => Some tbl
  | S i' =>
      r ← good_search (S patlen) pat patlen (Z.of_nat i) (Z.of_nat i - 1) g;
      tbl ← match (r : option Z) with
            | Some v => at_put tbl (Z.of_nat g) v
            | None => Some tbl
            end;
      good_loop i' pat patlen tbl (S g)
  end.

Definition compute_prefix_tbl (pat : bytes) (patlen : nat) (icase : bool)
    : option (list Z * list Z) :=
  bad ← bad_loop (Z.to_nat (w32 (Z.of_nat patlen - 1))) pat patlen icase
          (replicate ASIZE (Z.of_nat patlen)) 0;
  good ← at_put (replicate patlen (Z.of_nat patlen)) 0 1;
  good ← good_loop (patlen - 1) pat patlen good 1;
  Some (bad, good).

(** [priv_size]: the structure [ts_bm] has 1040 bytes; [prefix_tbl_len] is an
    [unsigned int]. *)
Definition bm_priv_size (len : nat) : Z := 1040 + Z.of_nat len + w32 (Z.of_nat len * 4).

(** [alloc_ts_config] gives an error, or memory of that size.  [good_shift] starts 1036
    bytes into the structure; [compute_prefix_tbl] writes [len] entries of it, which is
    undefined if they do not fit. *)
Definition bm_init (alloc_ts_config : Z → option Z) (pat : bytes) (len : nat) (icase : bool)
    : option (Z + ts_bm) :=
  match alloc_ts_config (bm_priv_size len) with
  | Some err => Some (inl err)
  | None =>
      let pat := if icase then toupper <$> take len pat else take len pat in
      if bm_priv_size len <? 1036 + Z.of_nat len * 4 then None
      else
        tbl ← compute_prefix_tbl pat len icase;
        Some (inr (TsBm pat len tbl.1 tbl.2))
  end.

Definition bm_get_pattern (bm : ts_bm) : bytes := bm_pattern bm.
Definition bm_get_pattern_len (bm : ts_bm) : nat := patlen bm.

End bm.
(** ** The tables are safe *)

Lemma at_nat {A} (l : list A) z n : z = Z.of_nat n → at_ l z = l !! n.
Proof. intros ->. unfold at_. destruct (Z.ltb_spec (Z.of_nat n) 0); [lia|]. by rewrite Nat2Z.id. Qed.

Lemma at_put_nat {A} (l : list A) z n v : z = Z.of_nat n → (n < length l)%nat →
  at_put l z v = Some (<[n := v]> l).
Proof.
  intros -> Hn. unfold at_put. rewrite (proj2 (Z.leb_le _ _)), (proj2 (Z.ltb_lt _ _)) by lia.
  simpl. by rewrite Nat2Z.id.
Qed.

Section tables.
Context (P : bytes).
Local Abbreviation m := (length P).

(** After [g] bytes matched and the next one did not, the pattern moved by [d] fits what
    was seen. *)
Definition compat (d g : nat) : Prop :=
  (∀ k, k < g → d + k < m → P !! (m - 1 - k)%nat = P !! (m - 1 - k - d)%nat)%nat ∧
  (d + g < m → P !! (m - 1 - g)%nat ≠ P !! (m - 1 - g - d)%nat)%nat.

Lemma subpattern_loop_spec d g k n :
  (1 ≤ d)%nat → g = (k + n)%nat → (g < m)%nat → (0 < n)%nat → (k + d < m)%nat →
  ∃ b, subpattern_loop P (Z.of_nat m - Z.of_nat g) (Z.of_nat m - Z.of_nat g - Z.of_nat d)
         (Z.of_nat m - 1 - Z.of_nat k) (Z.of_nat m - 1 - Z.of_nat k - Z.of_nat d) n = Some b ∧
       (compat d g → b = true).
Proof.
  induction n as [|n IH] in k |- *; [lia|]. intros Hd Hg Hm _ Hk.
  simpl. rewrite (at_nat P (Z.of_nat m - 1 - Z.of_nat k) (m - 1 - k)),
    (at_nat P (Z.of_nat m - 1 - Z.of_nat k - Z.of_nat d) (m - 1 - k - d)) by lia.
  destruct (lookup_lt_is_Some_2 P (m - 1 - k)) as [px Hx]; [lia|].
  destruct (lookup_lt_is_Some_2 P (m - 1 - k - d)) as [py Hy]; [lia|].
  rewrite Hx, Hy. simpl. destruct (Z.eqb_spec px py) as [->|Hne].
  - destruct (Z.ltb_spec (Z.of_nat m - 1 - Z.of_nat k - Z.of_nat d - 1) 0); [by exists true|].
    destruct (Nat.eqb_spec n 0) as [->|Hn].
    + rewrite (at_nat P (Z.of_nat m - Z.of_nat g - 1) (m - 1 - g)),
        (at_nat P (Z.of_nat m - Z.of_nat g - Z.of_nat d - 1) (m - 1 - g - d)) by lia.
      destruct (lookup_lt_is_Some_2 P (m - 1 - g)) as [a Ha]; [lia|].
      destruct (lookup_lt_is_Some_2 P (m - 1 - g - d)) as [b Hb]; [lia|].
      rewrite Ha, Hb. simpl. eexists. split; [done|]. intros [_ Hc]. specialize (Hc ltac:(lia)).
      rewrite Ha, Hb in Hc. apply negb_true_iff, Z.eqb_neq. congruence.
    + destruct (IH (S k)) as (b & E & Hb); [lia..|]. exists b. split; [|done].
      rewrite <- E. f_equal; lia.
  - exists false. split; [done|]. intros [Hc _]. specialize (Hc k ltac:(lia) ltac:(lia)).
    rewrite Hx, Hy in Hc. congruence.
Qed.

Lemma subpattern_spec d g : (1 ≤ d < m)%nat → (1 ≤ g < m)%nat →
  ∃ b, subpattern P (Z.of_nat m - Z.of_nat g) (Z.of_nat m - Z.of_nat g - Z.of_nat d) g = Some b ∧
    (compat d g → b = true).
Proof.
  intros Hd Hg. destruct (subpattern_loop_spec d g 0 g) as (b & E & Hb); [lia..|].
  exists b. split; [|done]. unfold subpattern. rewrite <- E. f_equal; lia.
Qed.

(** A shift that leaves out no compatible one. *)
Definition safe_shift (g : nat) (v : Z) : Prop :=
  1 ≤ v ≤ Z.of_nat m ∧ ∀ d, (1 ≤ d)%nat → Z.of_nat d < v → ¬ compat d g.

Lemma good_search_spec g d fuel : (1 ≤ g < m)%nat → (1 ≤ d ≤ m)%nat → (m < d + fuel)%nat →
  (∀ d', (1 ≤ d' < d)%nat → ¬ compat d' g) →
  ∃ r, good_search fuel P m (Z.of_nat m - Z.of_nat g) (Z.of_nat m - Z.of_nat g - Z.of_nat d) g = Some r ∧
    safe_shift g (default (Z.of_nat m) r).
Proof.
  induction fuel as [|fuel IH] in d |- *; [lia|]. intros Hg Hd Hf Hn. simpl.
  destruct (Z.leb_spec (1 - Z.of_nat g) (Z.of_nat m - Z.of_nat g - Z.of_nat d)).
  - destruct (subpattern_spec d g) as (b & E & Hb); [lia..|]. rewrite E. simpl. destruct b.
    + eexists. split; [done|]. simpl. split; [lia|]. intros d' ??. apply Hn. lia.
    + replace (Z.of_nat m - Z.of_nat g - Z.of_nat d - 1) with
        (Z.of_nat m - Z.of_nat g - Z.of_nat (S d)) by lia.
      apply IH; [done|lia|lia|]. intros d' Hd'. destruct (decide (d' = d)) as [->|].
      * intros Hc. by specialize (Hb Hc).
      * apply Hn. lia.
  - eexists. split; [done|]. simpl. split; [lia|]. intros d' ??. apply Hn. lia.
Qed.

Lemma good_loop_spec i g tbl : (i + g = m)%nat → (1 ≤ g)%nat → length tbl = m →
  (∀ g', (g' < g)%nat → ∃ v, tbl !! g' = Some v ∧ safe_shift g' v) →
  (∀ g', (g ≤ g' < m)%nat → tbl !! g' = Some (Z.of_nat m)) →
  ∃ tbl', good_loop i P m tbl g = Some tbl' ∧
    ∀ g', (g' < m)%nat → ∃ v, tbl' !! g' = Some v ∧ safe_shift g' v.
Proof.
  induction i as [|i IH] in g, tbl |- *; intros Hi Hg Hl Hdone Hrest.
  { exists tbl. split; [done|]. intros g' ?. apply Hdone. lia. }
  cbn [good_loop].
  destruct (good_search_spec g 1 (S m)) as (r & E & Hr); [lia..|intros; lia|].
  replace (Z.of_nat (S i)) with (Z.of_nat m - Z.of_nat g) by lia.
  change (Z.of_nat 1) with 1 in E. rewrite E. simpl.
  assert (Hput : ∃ tbl1, match r with Some v => at_put tbl (Z.of_nat g) v | None => Some tbl end
    = Some tbl1 ∧ tbl1 !! g = Some (default (Z.of_nat m) r) ∧ length tbl1 = m ∧
      ∀ g', g' ≠ g → tbl1 !! g' = tbl !! g').
  { destruct r as [v|]; simpl.
    - rewrite (at_put_nat tbl _ g) by lia. eexists. split; [done|].
      rewrite list_lookup_insert_eq, length_insert by lia. split_and!; [done..|].
      intros g' ?. by apply list_lookup_insert_ne.
    - exists tbl. split_and!; [done|apply Hrest; lia|done|done]. }
  destruct Hput as (tbl1 & -> & Ht & Hl1 & Hother). simpl. apply IH; [lia|lia|done| |].
  - intros g' Hg'. destruct (decide (g' = g)) as [->|]; [by eexists|].
    rewrite Hother by done. apply Hdone. lia.
  - intros g' Hg'. rewrite Hother by lia. apply Hrest. lia.
Qed.

End tables.

Section bad.
Context (tolower : Z → Z) (tolower_byte : ∀ c, is_byte c → is_byte (tolower c)).
Context (P : bytes) (HP : Forall is_byte P) (icase : bool).
Local Abbreviation m := (length P).

(** The code writes the entry [c] of the table for the byte [q] of the pattern. *)
Definition hits (q : nat) (c : Z) : Prop :=
  ∃ p, P !! q = Some p ∧ (c = p ∨ icase = true ∧ c = tolower p).

Definition bad_ok (n : nat) (tbl : list Z) : Prop :=
  length tbl = ASIZE ∧
  ∀ c v, at_ tbl c = Some v → 1 ≤ v ≤ Z.of_nat m ∧
    ∀ q, (q < n)%nat → hits q c → v ≤ Z.of_nat m - 1 - Z.of_nat q.

Lemma at_put_at {A} (l : list A) i v : 0 ≤ i < Z.of_nat (length l) →
  ∃ l', at_put l i v = Some l' ∧ length l' = length l ∧
    ∀ j, at_ l' j = if decide (j = i) then Some v else at_ l j.
Proof.
  intros Hi. rewrite (at_put_nat l i (Z.to_nat i)) by lia. eexists. split; [done|].
  split; [apply length_insert|]. intros j. unfold at_. case_decide as D.
  - subst j. destruct (Z.ltb_spec i 0); [lia|]. apply list_lookup_insert_eq. lia.
  - destruct (Z.ltb_spec j 0); [done|]. apply list_lookup_insert_ne. lia.
Qed.

(** One entry is written, for the byte [i]. *)
Lemma bad_put n tbl c q : bad_ok n tbl → is_byte c → (q + 1 < m)%nat → (n ≤ S q)%nat →
  ∃ tbl', at_put tbl c (Z.of_nat m - 1 - Z.of_nat q) = Some tbl' ∧ bad_ok n tbl' ∧
    at_ tbl' c = Some (Z.of_nat m - 1 - Z.of_nat q) ∧
    ∀ j, j ≠ c → at_ tbl' j = at_ tbl j.
Proof.
  intros [Hl Ht] Hc Hq Hn.
  destruct (at_put_at tbl c (Z.of_nat m - 1 - Z.of_nat q)) as (tbl' & E & Hl' & Hat).
  { rewrite Hl. unfold is_byte, ASIZE in *. lia. }
  exists tbl'. split; [done|]. split; [|split].
  - split; [congruence|]. intros j v Hj. rewrite Hat in Hj. case_decide; [|by apply Ht].
    simplify_eq. split; [lia|]. intros q' ? _. lia.
  - rewrite Hat. by case_decide.
  - intros j ?. rewrite Hat. by case_decide.
Qed.

Lemma bad_loop_spec n i tbl : (i + n = m - 1)%nat → bad_ok i tbl →
  ∃ tbl', bad_loop tolower n P m icase tbl i = Some tbl' ∧ bad_ok (m - 1) tbl'.
Proof.
  induction n as [|n IH] in i, tbl |- *; intros Hi Hok.
  { exists tbl. split; [done|]. by replace (m - 1)%nat with i by lia. }
  cbn [bad_loop]. destruct (lookup_lt_is_Some_2 P i) as [p Hp]; [lia|]. rewrite Hp. simpl.
  pose proof (Forall_lookup_1 _ _ _ _ HP Hp) as Hb.
  destruct (bad_put i tbl p i) as (t1 & E1 & Hok1 & At1 & Oth1); [done|done|lia|lia|].
  rewrite E1. simpl.
  assert (∃ t2, (if icase then at_put t1 (tolower p) (Z.of_nat m - 1 - Z.of_nat i) else Some t1)
    = Some t2 ∧ bad_ok i t2 ∧ ∀ c v, hits i c → at_ t2 c = Some v → v ≤ Z.of_nat m - 1 - Z.of_nat i)
    as (t2 & E2 & [Hl2 Hok2] & Hnew).
  { destruct icase eqn:Ei.
    - destruct (bad_put i t1 (tolower p) i) as (t2 & E2 & Hok2 & At2 & Oth2); [done|auto|lia|lia|].
      exists t2. split; [done|]. split; [done|].
      intros c v (p' & Hp' & Hc) Hv. simplify_eq. destruct (decide (c = tolower p)) as [->|Hne].
      + rewrite At2 in Hv. simplify_eq. lia.
      + rewrite Oth2 in Hv by done. destruct Hc as [->|[_ ?]]; [|done].
        rewrite At1 in Hv. simplify_eq. lia.
    - exists t1. split; [done|]. split; [done|]. intros c v (p' & Hp' & Hc) Hv. simplify_eq.
      destruct Hc as [->|[? _]]; [|congruence]. rewrite At1 in Hv. simplify_eq. lia. }
  rewrite E2. simpl. apply IH; [lia|]. split; [done|]. intros c v Hv.
  destruct (Hok2 c v Hv) as [Hr Hold]. split; [done|]. intros q Hq Hh.
  destruct (decide (q = i)) as [->|]; [by eapply Hnew|]. apply Hold; [lia|done].
Qed.

Lemma bad_init : (0 < m)%nat → bad_ok 0 (replicate ASIZE (Z.of_nat m)).
Proof.
  intros Hm. split; [apply length_replicate|]. intros c v Hv. unfold at_ in Hv.
  destruct (c <? 0); [done|]. apply lookup_replicate in Hv as [-> _]. split; [lia|]. lia.
Qed.

Lemma tables_spec : (0 < m)%nat → Z.of_nat m < 2 ^ 31 →
  ∃ bad good, compute_prefix_tbl tolower P m icase = Some (bad, good) ∧ bad_ok (m - 1) bad ∧
    ∀ g, (g < m)%nat → ∃ v, good !! g = Some v ∧ safe_shift P g v.
Proof.
  intros Hm H31. unfold compute_prefix_tbl.
  replace (Z.to_nat (w32 (Z.of_nat m - 1))) with (m - 1)%nat
    by (unfold w32; rewrite wrap_small; lia).
  destruct (bad_loop_spec (m - 1) 0 _ ltac:(lia) (bad_init Hm)) as (bad & -> & Hbad). simpl.
  rewrite (at_put_nat _ 0 0%nat) by (rewrite ?length_replicate; lia). simpl.
  destruct (good_loop_spec P (m - 1) 1 (<[0%nat := 1]> (replicate m (Z.of_nat m))))
    as (good & E & Hgood); [lia|done|by rewrite length_insert, length_replicate| | |].
  - intros g' Hg'. assert (g' = 0%nat) as -> by lia. exists 1.
    rewrite list_lookup_insert_eq by (rewrite length_replicate; lia). split; [done|].
    split; [lia|]. intros; lia.
  - intros g' Hg'. rewrite list_lookup_insert_ne by lia. apply lookup_replicate_2; lia.
  - rewrite E. simpl. by exists bad, good.
Qed.

End bad.

(** ** The search *)

Lemma signed_small z : 0 ≤ z < 2 ^ 31 → signed 32 z = z.
Proof.
  intros Hz. unfold signed. rewrite wrap_small by lia. by destruct (Z.ltb_spec z (2 ^ (32 - 1))); [|lia].
Qed.

Section search.
Context (toupper tolower : Z → Z).
Context (tolower_byte : ∀ c, is_byte c → is_byte (tolower c)).
Context (same_letter : ∀ c, is_byte c → c = toupper c ∨ c = tolower (toupper c)).
Context (bm : ts_bm) (icase : bool) (T : bytes) (HT : Forall is_byte T).
Local Abbreviation P := (bm_pattern bm).
Local Abbreviation m := (length P).
Local Abbreviation F := (fold_case toupper icase <$> T).
Context (Hlen : patlen bm = m) (Hm : (0 < m)%nat).
Context (Hbad : bad_ok tolower P icase (m - 1) (bad_shift bm)).
Context (Hgood : ∀ g, (g < m)%nat → ∃ v, good_shift bm !! g = Some v ∧ safe_shift P g v).
Context (Hsize : Z.of_nat (length T) + Z.of_nat m < 2 ^ 31).

(** The pattern is in the text at [s]. *)
Definition occ (s : nat) : Prop :=
  (s + m ≤ length T)%nat ∧ ∀ k, (k < m)%nat → F !! (s + k)%nat = P !! k.

(** The last [i] bytes match when the pattern ends at [e]. *)
Definition tail_matches (e i : nat) : Prop :=
  ∀ k, (k < i)%nat → F !! (e - k)%nat = P !! (m - 1 - k)%nat.

Lemma bm_compare_spec e n i : (m - 1 ≤ e < length T)%nat → (i + n = m)%nat → tail_matches e i →
  ∃ r, bm_compare toupper bm icase T (Z.of_nat e) n i = Some r ∧
    match r with
    | None => tail_matches e m
    | Some i' => (i' < m)%nat ∧ tail_matches e i' ∧ F !! (e - i')%nat ≠ P !! (m - 1 - i')%nat
    end.
Proof.
  induction n as [|n IH] in i |- *; intros He Hi Ht; simpl.
  { exists None. split; [done|]. by replace m with i by lia. }
  rewrite Hlen, !w32_small by lia.
  rewrite (at_nat T _ (e - i)), (at_nat P _ (m - 1 - i)) by lia.
  destruct (lookup_lt_is_Some_2 T (e - i)) as [t Hte]; [lia|].
  destruct (lookup_lt_is_Some_2 P (m - 1 - i)) as [p Hp]; [lia|].
  rewrite Hte, Hp. simpl.
  assert (HF : F !! (e - i)%nat = Some (fold_case toupper icase t)).
  { by rewrite list_lookup_fmap, Hte. }
  destruct (Z.eqb_spec (fold_case toupper icase t) p) as [Heq|Hne]; simpl.
  - apply IH; [done|lia|]. intros k Hk. destruct (decide (k = i)) as [->|]; [|apply Ht; lia].
    rewrite HF, Hp. congruence.
  - exists (Some i). split; [done|]. split; [lia|]. split; [done|]. rewrite HF, Hp. congruence.
Qed.

(** An occurrence behind a mismatch fits what was compared. *)
Lemma occ_compat e i d s : (i < m)%nat → (m - 1 ≤ e < length T)%nat → tail_matches e i →
  F !! (e - i)%nat ≠ P !! (m - 1 - i)%nat → occ s → (s + (m - 1) = e + d)%nat → compat P d i.
Proof.
  intros Hi He Ht Hne [_ Ho] Hs. split.
  - intros k Hk Hd. rewrite <- Ht by done. rewrite <- (Ho (m - 1 - k - d)%nat) by lia.
    f_equal. lia.
  - intros Hd E. apply Hne. rewrite E. rewrite <- (Ho (m - 1 - i - d)%nat) by lia. f_equal. lia.
Qed.

Lemma bad_distance e i d s c v : (i < m)%nat → (m - 1 ≤ e < length T)%nat → (1 ≤ d)%nat →
  T !! (e - i)%nat = Some c → at_ (bad_shift bm) c = Some v → occ s → (s + (m - 1) = e + d)%nat →
  v ≤ Z.of_nat i + Z.of_nat d.
Proof.
  intros Hi He Hd Hc Hv [_ Ho] Hs. destruct Hbad as [_ Hb]. destruct (Hb c v Hv) as [Hr Hq].
  destruct (decide (d + i < m)%nat) as [Hlt|]; [|lia].
  specialize (Hq (m - 1 - i - d)%nat ltac:(lia)).
  assert (Hh : hits tolower P icase (m - 1 - i - d) c); [|specialize (Hq Hh); lia].
  specialize (Ho (m - 1 - i - d)%nat ltac:(lia)).
  replace (s + (m - 1 - i - d))%nat with (e - i)%nat in Ho by lia.
  rewrite list_lookup_fmap, Hc in Ho. simpl in Ho. exists (fold_case toupper icase c).
  split; [done|]. unfold fold_case. destruct icase; [|by left].
  destruct (same_letter c (Forall_lookup_1 _ _ _ _ HT Hc)); [by left|by right].
Qed.

Lemma bm_scan_spec fuel e : (m - 1 ≤ e)%nat → Z.of_nat e < 2 ^ 31 → (0 < fuel)%nat →
  (length T < e + fuel)%nat →
  (∀ s, (s + (m - 1) < e)%nat → ¬ occ s) →
  ∃ r, bm_scan toupper fuel bm icase T (Z.of_nat e) = Some r ∧
    match r with
    | inl z => ∃ s, z = Z.of_nat s + (Z.of_nat m - 1) ∧ occ s ∧ ∀ s', (s' < s)%nat → ¬ occ s'
    | inr _ => ∀ s, ¬ occ s
    end.
Proof.
  induction fuel as [|fuel IH] in e |- *; intros Hme He Hf0 Hf Hno; simpl; [lia|].
  rewrite w32_small by lia.
  destruct (Z.ltb_spec (Z.of_nat e) (Z.of_nat (length T))).
  2:{ eexists. split; [done|]. intros s Hs. apply (Hno s); [|done]. destruct Hs. lia. }
  destruct (bm_compare_spec e (patlen bm) 0) as (r & -> & Hr); [lia|by rewrite Hlen|intros k; lia|].
  simpl. destruct r as [i|].
  - destruct Hr as (Hi & Ht & Hne). rewrite w32_small by lia.
    rewrite (at_nat T _ (e - i)) by lia.
    destruct (lookup_lt_is_Some_2 T (e - i)) as [c Hc]; [lia|]. rewrite Hc. simpl.
    assert (Hcb := Forall_lookup_1 _ _ _ _ HT Hc). destruct Hbad as [Hlb Hb].
    destruct (at_ (bad_shift bm) c) as [bs|] eqn:Ebs.
    2:{ unfold at_ in Ebs. unfold is_byte in Hcb. destruct (Z.ltb_spec c 0); [lia|].
        apply lookup_ge_None in Ebs. unfold ASIZE in Hlb. lia. }
    simpl. rewrite (at_nat _ _ i eq_refl). destruct (Hgood i Hi) as (gs & -> & Hgs & Hsafe). simpl.
    destruct (Hb c bs Ebs) as [Hbs _]. rewrite !signed_small by lia.
    set (e' := Z.to_nat (Z.max (Z.of_nat e - Z.of_nat i + bs) (Z.of_nat e + gs))).
    replace (Z.max (Z.of_nat e - Z.of_nat i + bs) (Z.of_nat e + gs)) with (Z.of_nat e') by lia.
    apply IH; [lia..|]. intros s Hs Ho.
    destruct (decide (s + (m - 1) < e)%nat); [by apply (Hno s)|].
    destruct (decide (s + (m - 1) = e)%nat) as [Hse|].
    + destruct Ho as [_ Ho]. apply Hne. rewrite <- (Ho (m - 1 - i)%nat) by lia. f_equal. lia.
    + set (d := (s + (m - 1) - e)%nat).
      assert (Hv : bs ≤ Z.of_nat i + Z.of_nat d) by (eapply (bad_distance e i d s); eauto; lia).
      apply (Hsafe d); [lia|lia|]. eapply (occ_compat e i d s); eauto; lia.
  - eexists. split; [done|]. exists (e - (m - 1))%nat. split; [lia|]. split.
    + split; [lia|]. intros k Hk. specialize (Hr (m - 1 - k)%nat ltac:(lia)).
      replace (e - (m - 1 - k))%nat with (e - (m - 1) + k)%nat in Hr by lia.
      rewrite Hr. f_equal. lia.
    + intros s' Hs'. apply Hno. lia.
Qed.

Lemma occ_app s : occ s ↔ ∃ a k, F = a ++ P ++ k ∧ length a = s.
Proof.
  split.
  - intros [Hs Ho]. exists (take s F), (drop (s + m) F). split.
    + rewrite <- (take_drop s F) at 1. f_equal. rewrite <- (take_drop m (drop s F)) at 1.
      rewrite drop_drop. f_equal. apply list_eq. intros k.
      destruct (decide (k < m)%nat).
      * rewrite lookup_take_lt, lookup_drop by done. by apply Ho.
      * rewrite lookup_take_ge by lia. symmetry. apply lookup_ge_None. lia.
    + rewrite length_take, length_fmap. lia.
  - intros (a & k & E & <-). split.
    + apply (f_equal length) in E. rewrite length_fmap, !length_app in E. lia.
    + intros j Hj. rewrite E. rewrite lookup_app_r by lia. rewrite lookup_app_l by lia.
      f_equal. lia.
Qed.

(** The result of a scan of the whole text, as [find_sub] gives it. *)
Lemma bm_scan_finds : ∃ r,
  bm_scan toupper (S (length T)) bm icase T (Z.of_nat (m - 1)) = Some r ∧
  match find_sub P F with
  | Some s => r = inl (Z.of_nat s + (Z.of_nat m - 1))
  | None => ∃ z, r = inr z
  end.
Proof.
  destruct (bm_scan_spec (S (length T)) (m - 1)) as (r & E & Hr); [lia..|intros; lia|].
  exists r. split; [done|]. destruct r as [z|z].
  - destruct Hr as (s & -> & (a & k & Ea & <-)%occ_app & Hmin).
    rewrite (find_sub_first P F a k Ea); [done|]. intros a' k' Ea'.
    destruct (decide (length a ≤ length a')%nat); [done|]. exfalso.
    apply (Hmin (length a')); [lia|]. apply occ_app. by exists a', k'.
  - rewrite find_sub_none; [by exists z|]. intros a k Ea. apply (Hr (length a)), occ_app. by exists a, k.
Qed.

End search.

(** [bm_ops]; the configuration holds the flags. *)
Definition bm_ops (toupper tolower : Z → Z) (alloc_ts_config : Z → option Z)
    : @ts_ops (ts_bm * bool) :=
  TsOps 2 (B "bm")
    (λ pat len icase,
       r ← bm_init toupper tolower alloc_ts_config pat len icase;
       match (r : Z + ts_bm) with
       | inl err => Some (inl err)
       | inr bm => Some (inr (bm, icase))
       end)
    (λ fuel conf gnb offset, bm_find toupper fuel conf.1 conf.2 gnb offset)
    (λ conf, bm_get_pattern conf.1) (λ conf, bm_get_pattern_len conf.1).

Section finds.
Context (toupper tolower : Z → Z).
Context (toupper_byte : ∀ c, is_byte c → is_byte (toupper c)).
Context (tolower_byte : ∀ c, is_byte c → is_byte (tolower c)).
Context (same_letter : ∀ c, is_byte c → c = toupper c ∨ c = tolower (toupper c)).

Lemma fold_bytes icase l : Forall is_byte l → Forall is_byte (fold_case toupper icase <$> l).
Proof.
  intros Hl. apply Forall_fmap. eapply Forall_impl; [exact Hl|]. intros c Hc. simpl.
  unfold fold_case. by destruct icase; [apply toupper_byte|].
Qed.

(** Requests of a gigabyte and more, which are above [KMALLOC_MAX_SIZE], fail. *)
Definition limited (alloc_ts_config : Z → option Z) : Prop :=
  ∀ n, alloc_ts_config n = None → n < 2 ^ 30.

(** A pattern for which the size overflows is one for which no memory is given. *)
Lemma limited_fits alloc (pat : bytes) : limited alloc →
  alloc (bm_priv_size (length pat)) = None →
  bm_priv_size (length pat) = 1040 + Z.of_nat (length pat) * 5.
Proof.
  intros Hal Ha%Hal. unfold bm_priv_size in *.
  pose proof (Z.mod_pos_bound (Z.of_nat (length pat) * 4) (2 ^ 32) ltac:(lia)) as Hw.
  change (Z.of_nat (length pat) * 4 mod 2 ^ 32) with (w32 (Z.of_nat (length pat) * 4)) in Hw.
  rewrite w32_small in * by lia. lia.
Qed.

Lemma bm_init_spec alloc pat icase : pat ≠ [] → Forall is_byte pat → limited alloc →
  alloc (bm_priv_size (length pat)) = None →
  ∃ bm, bm_init toupper tolower alloc pat (length pat) icase = Some (inr bm) ∧
    bm_pattern bm = fold_case toupper icase <$> pat ∧ patlen bm = length (bm_pattern bm) ∧
    bad_ok tolower (bm_pattern bm) icase (length (bm_pattern bm) - 1) (bad_shift bm) ∧
    ∀ g, (g < length (bm_pattern bm))%nat →
      ∃ v, good_shift bm !! g = Some v ∧ safe_shift (bm_pattern bm) g v.
Proof.
  intros Hne Hb Hal Ha. pose proof (limited_fits alloc pat Hal Ha) as Hsz.
  assert (Hl : Z.of_nat (length pat) < 2 ^ 31) by (apply Hal in Ha; lia).
  unfold bm_init. rewrite Ha, firstn_all, (proj2 (Z.ltb_ge _ _)) by lia.
  assert (Ep : (if icase then toupper <$> pat else pat) = fold_case toupper icase <$> pat).
  { destruct icase; [done|]. unfold fold_case. by rewrite list_fmap_id. }
  rewrite Ep. set (Q := fold_case toupper icase <$> pat).
  assert (Hlq : length pat = length Q) by (unfold Q; by rewrite length_fmap).
  assert (0 < length Q)%nat by (rewrite <- Hlq; destruct pat; simpl; [done|lia]).
  destruct (tables_spec tolower tolower_byte Q (fold_bytes icase pat Hb) icase)
    as (bad & good & E & Hbad & Hgood); [done|lia|].
  rewrite Hlq, E. simpl. eexists. split; [done|]. by split_and!.
Qed.


(** A scan that reaches the end of the block leaves a shift behind the block. *)
Lemma bm_scan_past fuel bm icase text shift z :
  bm_scan toupper fuel bm icase text shift = Some (inr z) → Z.of_nat (length text) ≤ w32 z.
Proof.
  induction fuel as [|fuel IH] in shift |- *; [done|]. cbn [bm_scan].
  destruct (Z.ltb_spec (w32 shift) (Z.of_nat (length text))) as [|Hge].
  2:{ intros E. by injection E as <-. }
  destruct (bm_compare _ _ _ _ _ _ _) as [[i|]|]; [|done|done]. simpl.
  destruct (at_ text _); [|done]. simpl. destruct (at_ (bad_shift bm) _); [|done]. simpl.
  destruct (at_ (good_shift bm) _); [|done]. simpl. apply IH.
Qed.

(** A text in two blocks. *)
Definition two_blocks (a b : bytes) (consumed : nat) : bytes :=
  if (consumed <? length a)%nat then drop consumed a else drop (consumed - length a) b.

Lemma two_blocks_deliver a b : delivers (two_blocks a b) (a ++ b).
Proof.
  intros c. unfold two_blocks. destruct (Nat.ltb_spec c (length a)).
  - rewrite drop_app_le by lia. split; [by exists b|]. intros E.
    apply (f_equal length) in E. rewrite length_drop in E. simpl in E. lia.
  - rewrite drop_app_ge by lia. split; [exists []; by rewrite app_nil_r|]. intros E.
    apply (f_equal length) in E. rewrite length_drop in E. rewrite length_app. simpl in E. lia.
Qed.


End finds.

(** ** Concrete searches *)

Definition ex_lower (c : Z) : Z := if ((65 <=? c) && (c <=? 90)) then c + 32 else c.

Lemma ex_upper_byte c : is_byte c → is_byte (ex_upper c).
Proof. unfold is_byte, ex_upper. destruct (Z.leb_spec 97 c), (Z.leb_spec c 122); simpl; lia. Qed.
Lemma ex_lower_byte c : is_byte c → is_byte (ex_lower c).
Proof. unfold is_byte, ex_lower. destruct (Z.leb_spec 65 c), (Z.leb_spec c 90); simpl; lia. Qed.
Lemma ex_same_letter c : is_byte c → c = ex_upper c ∨ c = ex_lower (ex_upper c).
Proof.
  intros _. unfold ex_lower, ex_upper.
  destruct (Z.leb_spec 97 c), (Z.leb_spec c 122); simpl; [|by left..]. right.
  by destruct (Z.leb_spec 65 (c - 32)), (Z.leb_spec (c - 32) 90); simpl; lia.
Qed.

Definition ex_limit (n : Z) : option Z := if n <? 4096 then None else Some (- ENOMEM).

Lemma ex_limited : limited ex_limit.
Proof. intros n. unfold ex_limit. destruct (Z.ltb_spec n 4096); [lia|done]. Qed.

Definition bm_text : bytes := B "xABbabcabcABd".



End KBoyerMoore.
