(* ===== verification/KThreads.v ===== *)
(** * Runs of interleaved threads

    The files on lock-less code ([KLlist], [KRefcount], [KErrseq]) each give a step relation
    on configurations, labelled with what a step makes visible.  A run is a sequence of
    steps with its labels.  A schedule is a list of moves that a function carries out, so
    that concrete runs can be computed. *)
From stdpp Require Import base list.
From S2P Require Import Prelude.

Module KThreads.

Section machine.
Context {C L : Type} (step : C → option L → C → Prop).

Inductive run (c : C) : list L → C → Prop :=
  | run_refl : run c [] c
  | run_snoc tr c1 x c2 : run c tr c1 → step c1 x c2 → run c (tr ++ option_list x) c2.

Lemma run_invariant (I : C → Prop) c tr c' :
  (∀ c1 x c2, I c1 → step c1 x c2 → I c2) → I c → run c tr c' → I c'.
Proof. intros Hstep Hc. induction 1; eauto. Qed.

End machine.

(** Moves, and what they do; a move that is carried out is a step. *)
Class Schedule {C L : Type} (step : C → option L → C → Prop) (M : Type) := {
  do_move : M → C → option (option L * C);
  do_move_step mv c x c' : do_move mv c = Some (x, c') → step c x c';
}.

Section schedules.
Context {C L M : Type} (step : C → option L → C → Prop) `{!Schedule step M}.

Fixpoint do_moves (mvs : list M) (c : C) : option (list L * C) :=
  match mvs with
  | [] => Some ([], c)
  | mv :: mvs =>
      r ← do_move mv c;
      r' ← do_moves mvs r.2;
      Some (option_list r.1 ++ r'.1, r'.2)
  end.

Lemma do_moves_run c0 tr mvs c tr' c' :
  run step c0 tr c → do_moves mvs c = Some (tr', c') → run step c0 (tr ++ tr') c'.
Proof.
  revert c tr tr'. induction mvs as [|mv mvs IH]; intros c tr tr' Hs; simpl.
  { intros [= <- <-]. by rewrite app_nil_r. }
  destruct (do_move mv c) as [[x c1]|] eqn:E; [|done]. simpl.
  destruct (do_moves mvs c1) as [[tr1 c2]|] eqn:E1; [|done]. intros [= <- <-].
  rewrite app_assoc. apply (IH c1); [|done]. econstructor; [done|by eapply do_move_step].
Qed.

(** The run of a schedule, or the empty run if it cannot be carried out. *)
Definition run_of (mvs : list M) (c : C) : list L * C := default ([], c) (do_moves mvs c).

Lemma run_of_run mvs c : run step c (run_of mvs c).1 (run_of mvs c).2.
Proof.
  unfold run_of. destruct (do_moves mvs c) as [[tr c']|] eqn:E; [|constructor].
  apply (do_moves_run c [] mvs c tr c'); [constructor|done].
Qed.

Lemma schedule_run mvs c tr :
  (run_of mvs c).1 = tr → ∃ c', run step c tr c'.
Proof. intros <-. eexists. apply run_of_run. Qed.

End schedules.
End KThreads.
