(* ===== verification/KLlist.v ===== *)
(** * Lock-less lists, [lib/llist.c]

    Threads add batches of nodes at the head of a list and delete its first node, without
    a lock: each tries [cmpxchg] on the head until it succeeds.  A thread is a program
    counter, and a step of it is one access to shared memory with the local code behind
    it; the system interleaves the steps of its threads.  Memory is sequentially
    consistent here: what [READ_ONCE], [smp_load_acquire] and [cmpxchg] order beyond
    that is not modelled.

    The comment of [llist_del_first] allows one deleter at a time beside any number of
    adders.  Under this rule the list is a stack; without it nodes can come back. *)
From stdpp Require Import base numbers sets gmap list.
From S2P Require Import Prelude KHeap KThreads.
Import KHeap KThreads.

Module KLlist.

(** [head->first] and the [next] of every node. *)
Record shared := Shared { first : ptr; next : gmap loc ptr }.

(** ** The threads *)

(** Where a thread is, with its local variables.  A batch is the list of its nodes, from
    [new_first] to [new_last]. *)
Inductive pc :=
  | AddRead (batch : list loc)
  | AddWrite (batch : list loc) (first : ptr)
  | AddCas (batch : list loc) (first : ptr)
  | DelLoad
  | DelNext (entry : loc)
  | DelCas (old_entry : loc) (next : ptr).

(** What a call returns. *)
Inductive event := Added (batch : list loc) (was_empty : bool) | Deleted (entry : ptr).

(** Where the thread goes on, or nothing when the call returns; the memory; the result. *)
Definition outcome : Type := option pc * shared * option event.

Definition llist_add_batch (p : pc) (m : shared) : option outcome :=
  match p with
  | AddRead batch => Some (Some (AddWrite batch (first m)), m, None)
  | AddWrite batch old =>
      new_last ← last batch;
      _ ← next m !! new_last;
      Some (Some (AddCas batch old), Shared (first m) (<[new_last := old]> (next m)), None)
  | AddCas batch old =>
      if decide (first m = old) then
        Some (None, Shared (head batch) (next m), Some (Added batch (bool_decide (old = None))))
      else Some (Some (AddRead batch), m, None)
  | _ => None
  end.

(** The test at the top of the loop. *)
Definition del_test (entry : ptr) (m : shared) : outcome :=
  match entry with
  | None => (None, m, Some (Deleted None))
  | Some e => (Some (DelNext e), m, None)
  end.

Definition llist_del_first (p : pc) (m : shared) : option outcome :=
  match p with
  | DelLoad => Some (del_test (first m) m)
  | DelNext entry => n ← next m !! entry; Some (Some (DelCas entry n), m, None)
  | DelCas old_entry n =>
      if decide (first m = Some old_entry) then
        Some (None, Shared n (next m), Some (Deleted (Some old_entry)))
      else Some (del_test (first m) m)
  | _ => None
  end.

Definition is_del (p : pc) : bool :=
  match p with DelLoad | DelNext _ | DelCas _ _ => true | _ => false end.
Definition thread_step (p : pc) (m : shared) : option outcome :=
  if is_del p then llist_del_first p m else llist_add_batch p m.

(** ** The system *)

Record config := Config { mem : shared; threads : gmap nat pc }.

(** The nodes from [p] on are [l], and the last one has no next. *)
Fixpoint walk (nx : gmap loc ptr) (p : ptr) (l : list loc) : Prop :=
  match l with
  | [] => p = None
  | x :: l => p = Some x ∧ ∃ q, nx !! x = Some q ∧ walk nx q l
  end.

(** The nodes of [l] are linked one to the next; the last one may have any next. *)
Fixpoint chained (nx : gmap loc ptr) (l : list loc) : Prop :=
  match l with
  | [] => False
  | x :: l => ∃ q, nx !! x = Some q ∧ match l with [] => True | y :: _ => q = Some y ∧ chained nx l end
  end.

Definition batch_of (p : pc) : list loc :=
  match p with AddRead b | AddWrite b _ | AddCas b _ => b | _ => [] end.

(** Nodes that are neither in the list nor in a batch on its way belong to their users. *)
Definition unused (c : config) (x : loc) : Prop :=
  (∀ l, walk (next (mem c)) (first (mem c)) l → x ∉ l) ∧
  (∀ i p, threads c !! i = Some p → x ∉ batch_of p).

Definition put_pc (i : nat) (p : option pc) (ts : gmap nat pc) : gmap nat pc :=
  match p with Some p => <[i := p]> ts | None => delete i ts end.
Arguments put_pc : simpl never.

(** A thread runs; a thread calls [llist_add_batch] on a batch of its own nodes; a thread
    calls [llist_del_first], with [exclusive] only if no other is in it; a user writes one
    of its own nodes. *)
Inductive step (exclusive : bool) : config → option event → config → Prop :=
  | step_run c i p p' m' ev :
      threads c !! i = Some p → thread_step p (mem c) = Some (p', m', ev) →
      step exclusive c ev (Config m' (put_pc i p' (threads c)))
  | step_add c i batch :
      threads c !! i = None → NoDup batch → chained (next (mem c)) batch →
      (∀ x, x ∈ batch → unused c x) →
      step exclusive c None (Config (mem c) (<[i := AddRead batch]> (threads c)))
  | step_del c i :
      threads c !! i = None →
      (exclusive = true → ∀ j p, threads c !! j = Some p → is_del p = false) →
      step exclusive c None (Config (mem c) (<[i := DelLoad]> (threads c)))
  | step_write c x q :
      unused c x → is_Some (next (mem c) !! x) →
      step exclusive c None (Config (Shared (first (mem c)) (<[x := q]> (next (mem c)))) (threads c)).

Definition steps (exclusive : bool) : config → list event → config → Prop := run (step exclusive).

(** ** The stack it implements *)

Inductive stack_step : list loc → event → list loc → Prop :=
  | stack_add l batch : stack_step l (Added batch (bool_decide (l = []))) (batch ++ l)
  | stack_del x l : stack_step (x :: l) (Deleted (Some x)) l
  | stack_empty : stack_step [] (Deleted None) [].

Inductive history : list loc → list event → list loc → Prop :=
  | history_nil l : history l [] l
  | history_cons l e l' evs l'' :
      stack_step l e l' → history l' evs l'' → history l (e :: evs) l''.

(** ** Links *)

Lemma walk_unique nx p l l' : walk nx p l → walk nx p l' → l = l'.
Proof.
  revert p l'. induction l as [|x l IH]; intros p l'; destruct l' as [|x' l']; simpl.
  - done.
  - intros -> [? _]. done.
  - intros [-> _] ?. done.
  - intros [-> (q & Hq & Hl)] [? (q' & Hq' & Hl')]. simplify_eq. f_equal. by eapply IH.
Qed.

Lemma walk_insert nx x q p l : x ∉ l → walk nx p l → walk (<[x := q]> nx) p l.
Proof.
  revert p. induction l as [|y l IH]; intros p; simpl; [done|].
  intros [Hne Hx]%not_elem_of_cons [-> (q' & Hq & Hl)]. split; [done|]. exists q'.
  rewrite lookup_insert_ne by done. split; [done|]. by apply IH.
Qed.

Lemma walk_lookup nx p l x : walk nx p l → x ∈ l → is_Some (nx !! x).
Proof.
  revert p. induction l as [|y l IH]; intros p; simpl; [by intros _ ?%not_elem_of_nil|].
  intros [-> (q & Hq & Hl)] [->|Hx]%elem_of_cons; [by eexists|]. by eapply IH.
Qed.

Lemma chained_insert nx x q l : x ∉ l → chained nx l → chained (<[x := q]> nx) l.
Proof.
  induction l as [|y l IH]; simpl; [done|]. intros [Hne Hx]%not_elem_of_cons (q' & Hq & Hl).
  exists q'. rewrite lookup_insert_ne by done. split; [done|].
  destruct l as [|z l]; [done|]. destruct Hl as [-> Hl]. split; [done|]. by apply IH.
Qed.

Lemma chained_last nx l x q : NoDup l → last l = Some x → chained nx l → chained (<[x := q]> nx) l.
Proof.
  induction l as [|y l IH]; simpl; [done|]. intros [Hy Hnd]%NoDup_cons Hlast (q' & Hq & Hl).
  destruct l as [|z l].
  - simpl in Hlast. simplify_eq. exists q. by rewrite lookup_insert_eq.
  - destruct Hl as [-> Hl]. exists (Some z). rewrite last_cons_cons in Hlast.
    rewrite lookup_insert_ne; [by split_and!; [| |apply IH]|].
    intros <-. apply Hy. by apply last_Some_elem_of.
Qed.

Lemma chained_last_lookup nx l x : chained nx l → last l = Some x → is_Some (nx !! x).
Proof.
  induction l as [|y l IH]; [done|]. intros (q & Hq & Hl) Hlast. destruct l as [|z l].
  - simpl in Hlast. simplify_eq. by eexists.
  - rewrite last_cons_cons in Hlast. by apply IH; [apply Hl|].
Qed.

(** A batch whose last node points to the list is in front of it. *)
Lemma chained_walk nx b x p l : chained nx b → last b = Some x → nx !! x = Some p →
  walk nx p l → walk nx (head b) (b ++ l).
Proof.
  induction b as [|y b IH]; [done|]. intros (q & Hq & Hb) Hlast Hx Hl. split; [done|].
  exists q. split; [done|]. destruct b as [|z b].
  - simpl in Hlast. by simplify_eq.
  - destruct Hb as [-> Hb]. rewrite last_cons_cons in Hlast. by apply (IH Hb).
Qed.

(** ** The invariant *)

Definition pc_ok (nx : gmap loc ptr) (l : list loc) (p : pc) : Prop :=
  match p with
  | AddRead b | AddWrite b _ => chained nx b
  | AddCas b old => chained nx b ∧ ∃ x, last b = Some x ∧ nx !! x = Some old
  | DelLoad => True
  | DelNext e => e ∈ l
  | DelCas e n => e ∈ l ∧ nx !! e = Some n
  end.

Record inv (c : config) (l : list loc) : Prop := {
  inv_list : walk (next (mem c)) (first (mem c)) l;
  inv_nodup : NoDup l;
  inv_pc i p : threads c !! i = Some p →
    pc_ok (next (mem c)) l p ∧ NoDup (batch_of p) ∧ ∀ x, x ∈ batch_of p → x ∉ l;
  inv_apart i j p q : i ≠ j → threads c !! i = Some p → threads c !! j = Some q →
    (∀ x, x ∈ batch_of p → x ∉ batch_of q) ∧ (is_del p = true → is_del q = false);
}.

Lemma pc_ok_insert nx l p x q :
  x ∉ l → x ∉ batch_of p → pc_ok nx l p → pc_ok (<[x := q]> nx) l p.
Proof.
  intros Hl Hb. destruct p as [b|b o|b o| |e|e n]; simpl in *; try done.
  - by apply chained_insert.
  - by apply chained_insert.
  - intros (Hc & y & Hy & Hn). split; [by apply chained_insert|]. exists y. split; [done|].
    rewrite lookup_insert_ne; [done|]. intros ->. apply Hb. by apply last_Some_elem_of.
  - intros [He Hn]. split; [done|]. rewrite lookup_insert_ne by by intros ->. done.
Qed.

Lemma put_pc_lookup i p ts j q : put_pc i p ts !! j = Some q →
  i = j ∧ p = Some q ∨ i ≠ j ∧ ts !! j = Some q.
Proof.
  unfold put_pc. destruct p as [p|].
  - intros [[-> ->]|[? ?]]%lookup_insert_Some; [by left|by right].
  - intros [? ?]%lookup_delete_Some. by right.
Qed.

(** A thread goes on, and the others do not notice. *)
Lemma inv_update c l i p p' m' l' :
  inv c l → threads c !! i = Some p → walk (next m') (first m') l' → NoDup l' →
  (∀ q, p' = Some q → pc_ok (next m') l' q ∧ batch_of q = batch_of p ∧ is_del q = is_del p) →
  (p' ≠ None → ∀ x, x ∈ batch_of p → x ∉ l') →
  (∀ j q, j ≠ i → threads c !! j = Some q →
     pc_ok (next m') l' q ∧ ∀ x, x ∈ batch_of q → x ∉ l') →
  inv (Config m' (put_pc i p' (threads c))) l'.
Proof.
  intros HI Hp Hw Hnd Hown Hout Hrest. destruct (inv_pc _ _ HI _ _ Hp) as (_ & Hndp & _).
  split; simpl; [done|done| |].
  - intros j q [(-> & E)|(Hne & Hq)]%put_pc_lookup.
    + destruct (Hown q E) as (Hok & -> & _). split_and!; [done..|]. apply Hout. by rewrite E.
    + destruct (Hrest j q ltac:(done) Hq). by destruct (inv_pc _ _ HI _ _ Hq) as (_ & ? & _).
  - intros j k q q' Hjk [(<- & E1)|(Hj & Hq)]%put_pc_lookup [(E & E2)|(Hk & Hq')]%put_pc_lookup.
    + done.
    + destruct (Hown q E1) as (_ & -> & ->). by apply (inv_apart _ _ HI i k).
    + subst k. destruct (Hown q' E2) as (_ & -> & ->). by apply (inv_apart _ _ HI j i).
    + by apply (inv_apart _ _ HI j k).
Qed.

(** The memory stays as it is. *)
Lemma inv_local c l i p q :
  inv c l → threads c !! i = Some p → pc_ok (next (mem c)) l q →
  batch_of q = batch_of p → is_del q = is_del p →
  inv (Config (mem c) (put_pc i (Some q) (threads c))) l.
Proof.
  intros HI Hp Hok Hb Hd. destruct (inv_pc _ _ HI _ _ Hp) as (_ & _ & Hout).
  eapply inv_update; [exact HI|exact Hp|apply HI|apply HI| |done|].
  - intros q' [= <-]. done.
  - intros j r _ Hr. by destruct (inv_pc _ _ HI _ _ Hr) as (? & _ & ?).
Qed.

(** A call that returns without a change. *)
Lemma inv_return c l i p :
  inv c l → threads c !! i = Some p → inv (Config (mem c) (put_pc i None (threads c))) l.
Proof.
  intros HI Hp. eapply inv_update; [exact HI|exact Hp|apply HI|apply HI|done|done|].
  intros j r _ Hr. by destruct (inv_pc _ _ HI _ _ Hr) as (? & _ & ?).
Qed.

Definition simulates (c' : config) (l : list loc) (ev : option event) : Prop :=
  ∃ l', inv c' l' ∧ match ev with None => l' = l | Some e => stack_step l e l' end.

Lemma add_batch_simulates c l i p p' m' ev :
  inv c l → threads c !! i = Some p → is_del p = false →
  llist_add_batch p (mem c) = Some (p', m', ev) →
  simulates (Config m' (put_pc i p' (threads c))) l ev.
Proof.
  intros HI Hp Hd E. destruct (inv_pc _ _ HI _ _ Hp) as (Hok & Hnd & Hout).
  pose proof (inv_list _ _ HI) as Hw. destruct p as [b|b o|b o| | |]; simplify_eq/=.
  - exists l. split; [by eapply inv_local|done].
  - destruct (last b) as [x|] eqn:Hx; [|done]. simplify_eq/=.
    destruct (next (mem c) !! x) as [y|] eqn:Hy; simplify_eq/=.
    assert (Hxb : x ∈ b) by by apply last_Some_elem_of.
    assert (Hxl : x ∉ l) by by apply Hout.
    exists l. split; [|done].
    eapply inv_update; [exact HI|exact Hp|by apply walk_insert|apply HI| |done|].
    + intros q [= <-]. simpl. split_and!; [by apply chained_last| |done..].
      exists x. by rewrite lookup_insert_eq.
    + intros j q Hj Hq. destruct (inv_pc _ _ HI _ _ Hq) as (Hokq & _ & Houtq).
      split; [|done]. apply pc_ok_insert; [done| |done].
      by apply (proj1 (inv_apart _ _ HI i j _ _ ltac:(done) Hp Hq)).
  - destruct Hok as (Hc & x & Hx & Hn). case_decide as Ho; simplify_eq/=.
    + exists (b ++ l). split.
      * eapply inv_update; [exact HI|exact Hp|by eapply chained_walk| |done|done|].
        { apply NoDup_app. split_and!; [done|done|apply HI]. }
        intros j q Hj Hq. destruct (inv_pc _ _ HI _ _ Hq) as (Hokq & _ & Houtq). split.
        { destruct q; simpl in *; try done; set_solver. }
        intros y Hy [Hyb|]%elem_of_app; [|by eapply Houtq].
        by apply (proj1 (inv_apart _ _ HI j i _ _ Hj Hq Hp) y).
      * assert (Eb : bool_decide (first (mem c) = None) = bool_decide (l = [])).
        { apply bool_decide_ext. destruct l as [|z l]; simpl in Hw; [done|].
          destruct Hw as [-> _]. done. }
        rewrite Eb. apply stack_add.
    + exists l. split; [by eapply inv_local|done].
Qed.

Lemma del_test_simulates c l i p :
  inv c l → threads c !! i = Some p → is_del p = true →
  ∀ p' m' ev, del_test (first (mem c)) (mem c) = (p', m', ev) →
  simulates (Config m' (put_pc i p' (threads c))) l ev.
Proof.
  intros HI Hp Hd p' m' ev. pose proof (inv_list _ _ HI) as Hw. unfold del_test.
  destruct (first (mem c)) as [e|] eqn:Ef; intros E; simplify_eq/=.
  - exists l. split; [|done]. eapply inv_local; [exact HI|exact Hp| |by destruct p|by destruct p].
    simpl. destruct l as [|x l]; [done|]. destruct Hw as [[= ->] _]. left.
  - destruct l as [|x l]; [|by destruct Hw]. exists []. split; [by eapply inv_return|].
    apply stack_empty.
Qed.

Lemma del_first_simulates c l i p p' m' ev :
  inv c l → threads c !! i = Some p → is_del p = true →
  llist_del_first p (mem c) = Some (p', m', ev) →
  simulates (Config m' (put_pc i p' (threads c))) l ev.
Proof.
  intros HI Hp Hd E. destruct (inv_pc _ _ HI _ _ Hp) as (Hok & _ & _).
  pose proof (inv_list _ _ HI) as Hw. pose proof (inv_nodup _ _ HI) as Hnd.
  destruct p as [| | | |e|e n]; try done; simpl in E.
  - eapply del_test_simulates; [done..|]. by injection E.
  - destruct (next (mem c) !! e) as [n|] eqn:En; [|done]. simplify_eq/=.
    exists l. split; [by eapply inv_local|done].
  - destruct Hok as [He Hn]. case_decide as Hf.
    + simplify_eq/=. destruct l as [|x l]; [by apply not_elem_of_nil in He|].
      destruct Hw as [Ex (q & Hq & Hw)]. rewrite Hf in Ex. simplify_eq.
      apply NoDup_cons in Hnd as [Hx Hnd]. exists l. split; [|apply stack_del].
      eapply inv_update; [exact HI|exact Hp|done|done|done|done|].
      intros j r Hj Hr. destruct (inv_pc _ _ HI _ _ Hr) as (Hokr & _ & Houtr).
      pose proof (proj2 (inv_apart _ _ HI i j _ _ ltac:(done) Hp Hr) eq_refl) as Hdr.
      split; [by destruct r|]. intros y Hy Hyl. apply (Houtr y Hy). by right.
    + eapply del_test_simulates; [done..|]. by injection E.
Qed.

(** A call begins. *)
Lemma inv_start c l i p :
  inv c l → threads c !! i = None → pc_ok (next (mem c)) l p → NoDup (batch_of p) →
  (∀ x, x ∈ batch_of p → unused c x) →
  (is_del p = true → ∀ j q, threads c !! j = Some q → is_del q = false) →
  inv (Config (mem c) (<[i := p]> (threads c))) l.
Proof.
  intros HI Hi Hok Hnd Hun Hdel. split; simpl; [apply HI|apply HI| |].
  - intros j q [[<- <-]|[Hne Hq]]%lookup_insert_Some; [|by apply (inv_pc _ _ HI j)].
    split_and!; [done..|]. intros x Hx. apply (Hun x Hx), HI.
  - intros j k q r Hjk [[<- <-]|[Hj Hq]]%lookup_insert_Some [[<- <-]|[Hk Hr]]%lookup_insert_Some.
    + done.
    + split; [|intros Hd; by apply (Hdel Hd k)]. intros x Hx. by apply (proj2 (Hun x Hx) k).
    + split.
      * intros x Hx Hxp. by apply (proj2 (Hun x Hxp) j q).
      * intros Hd. destruct (is_del p) eqn:Ep; [|done]. by rewrite (Hdel eq_refl j q Hq) in Hd.
    + by apply (inv_apart _ _ HI j k).
Qed.

Lemma step_simulates c l ev c' : inv c l → step true c ev c' → simulates c' l ev.
Proof.
  intros HI Hstep. destruct Hstep as [c i p p' m' ev Hp E|c i b Hi Hnd Hch Hun|c i Hi Hdel|c x q Hun Hx].
  - unfold thread_step in E. destruct (is_del p) eqn:Ep.
    + by eapply del_first_simulates.
    + by eapply add_batch_simulates.
  - exists l. split; [by apply inv_start|done].
  - exists l. split; [|done]. apply inv_start; [done|done|done|apply NoDup_nil_2| |auto].
    by intros x ?%not_elem_of_nil.
  - exists l. split; [|done]. destruct Hun as [Hl Hb].
    specialize (Hl l (inv_list _ _ HI)). split; simpl; [apply walk_insert; [done|apply HI]|apply HI| |].
    + intros i p Hp. destruct (inv_pc _ _ HI _ _ Hp) as (Hok & ? & ?). split_and!; [|done..].
      apply pc_ok_insert; [done|by eapply Hb|done].
    + apply (inv_apart _ _ HI).
Qed.

Lemma history_snoc l evs l1 e l2 : history l evs l1 → stack_step l1 e l2 → history l (evs ++ [e]) l2.
Proof. intros Hh He. induction Hh; simpl; econstructor; eauto using history_nil. Qed.

Lemma steps_simulate c l evs c' : inv c l → steps true c evs c' →
  ∃ l', history l evs l' ∧ inv c' l'.
Proof.
  intros HI. induction 1 as [|evs c1 ev c2 _ (l1 & Hh & HI1) Hst].
  { exists l. split; [constructor|done]. }
  destruct (step_simulates _ _ _ _ HI1 Hst) as (l2 & HI2 & Hev). exists l2. split; [|done].
  destruct ev as [e|]; simpl; [by eapply history_snoc|]. subst l2. by rewrite app_nil_r.
Qed.

Lemma inv_init m l : walk (next m) (first m) l → NoDup l → inv (Config m ∅) l.
Proof. intros ??. by split. Qed.

Lemma inv_not_stuck c l i p : inv c l → threads c !! i = Some p → is_Some (thread_step p (mem c)).
Proof.
  intros HI Hp. destruct (inv_pc _ _ HI _ _ Hp) as (Hok & _ & _).
  pose proof (inv_list _ _ HI) as Hw. unfold thread_step.
  destruct p as [b|b o|b o| |e|e n]; simpl in *; try (case_decide; by eexists); try by eexists.
  - destruct b as [|x b]; [done|]. destruct (last (x :: b)) as [y|] eqn:Ey.
    + simpl. destruct (chained_last_lookup _ _ _ Hok Ey) as [? ->]. by eexists.
    + by apply last_None in Ey.
  - destruct (walk_lookup _ _ _ _ Hw Hok) as [? ->]. by eexists.
Qed.

(** C26: Any number of threads in [llist_add_batch] and one at a time in [llist_del_first],
    in any interleaving of their accesses: the calls take effect one after the other on a
    stack, each at a moment between its call and its return.  An addition puts its batch
    on top in order and tells whether the stack was empty; a deletion gives the top, or
    [NULL] for an empty stack.  The list in memory is the stack, also when users write
    and add again the nodes they got; no thread follows an invalid pointer. *)
Theorem llist_is_stack m l evs c :
  walk (next m) (first m) l → NoDup l → steps true (Config m ∅) evs c →
  ∃ l', history l evs l' ∧ walk (next (mem c)) (first (mem c)) l' ∧ NoDup l' ∧
    ∀ i p, threads c !! i = Some p → is_Some (thread_step p (mem c)).
Proof.
  intros Hw Hnd Hs. destruct (steps_simulate _ _ _ _ (inv_init m l Hw Hnd) Hs) as (l' & Hh & HI).
  exists l'. split_and!; [done|apply HI|apply HI|]. intros i p. by eapply inv_not_stuck.
Qed.

(** ** Progress *)

(** [n] steps of the threads, in any order, without new calls. *)
Inductive runs : nat → config → list event → config → Prop :=
  | runs_0 c : runs 0 c [] c
  | runs_S n c i p p' m' ev evs c' :
      threads c !! i = Some p → thread_step p (mem c) = Some (p', m', ev) →
      runs n (Config m' (put_pc i p' (threads c))) evs c' →
      runs (S n) c (option_list ev ++ evs) c'.

(** The steps that a call still needs while the head stays as it is. *)
Definition steps_left (hd : ptr) (p : pc) : nat :=
  match p with
  | AddRead _ => 3
  | AddWrite _ old => if decide (hd = old) then 2 else 5
  | AddCas _ old => if decide (hd = old) then 1 else 4
  | DelLoad => 3
  | DelNext e => if decide (hd = Some e) then 2 else 4
  | DelCas e _ => if decide (hd = Some e) then 1 else 3
  end.

Definition work (hd : ptr) (ts : gmap nat pc) : nat :=
  sum_list (steps_left hd ∘ snd <$> map_to_list ts).

Lemma steps_left_decreases p m p' m' : thread_step p m = Some (p', m', None) →
  ∃ q, p' = Some q ∧ first m' = first m ∧ steps_left (first m) q < steps_left (first m) p.
Proof.
  unfold thread_step. destruct p as [b|b o|b o| |e|e n]; simpl; intros E.
  - simplify_eq. eexists. split_and!; [done..|]. simpl. rewrite decide_True by done. lia.
  - destruct (last b); [|done]. simpl in E. destruct (next m !! p); [|done]. simplify_eq/=.
    eexists. split_and!; [done..|]. simpl. case_decide; lia.
  - case_decide; simplify_eq. eexists. split_and!; [done..|]. simpl. lia.
  - unfold del_test in E. destruct (first m) eqn:Ef; simplify_eq. eexists. split_and!; [done..|].
    simpl. rewrite decide_True by done. lia.
  - destruct (next m !! e); [|done]. simplify_eq/=. eexists. split_and!; [done..|].
    simpl. case_decide; lia.
  - case_decide; simplify_eq. unfold del_test in E. destruct (first m) eqn:Ef; simplify_eq.
    eexists. split_and!; [done..|]. simpl. rewrite decide_True by done. lia.
Qed.

Lemma work_lookup hd ts i p : ts !! i = Some p →
  work hd ts = (steps_left hd p + work hd (delete i ts))%nat.
Proof.
  intros Hp. unfold work. rewrite <- (map_to_list_delete _ _ _ Hp). done.
Qed.

Lemma work_put hd ts i q : ts !! i ≠ None →
  work hd (put_pc i (Some q) ts) = (steps_left hd q + work hd (delete i ts))%nat.
Proof.
  intros _. unfold put_pc. rewrite (work_lookup hd _ i q) by apply lookup_insert_eq.
  by rewrite delete_insert_eq.
Qed.

Lemma work_bound hd ts : work hd ts ≤ 5 * size ts.
Proof.
  unfold work. rewrite <- length_map_to_list. induction (map_to_list ts) as [|[i p] l IH]; [done|].
  assert (steps_left hd p ≤ 5) by (destruct p; simpl; repeat case_decide; lia).
  rewrite fmap_cons. simpl. simpl in IH. lia.
Qed.

Lemma runs_silent n c evs c' : runs n c evs c' → evs = [] → n ≤ work (first (mem c)) (threads c).
Proof.
  induction 1 as [|n c i p p' m' ev evs c' Hp E Hr IH]; intros Ee; [lia|].
  destruct ev; [done|]. simpl in Ee. specialize (IH Ee). simpl in IH.
  destruct (steps_left_decreases _ _ _ _ E) as (q & -> & Ef & Hlt). rewrite Ef in IH.
  rewrite work_put in IH by by rewrite Hp. rewrite (work_lookup _ _ _ _ Hp). lia.
Qed.

(** C27: The calls are lock-free.  In every reachable state each call that has not
    returned can take its next step, whatever the others do; and however the steps of
    [k] such calls are scheduled, one of the calls returns within [5 k + 1] steps: a
    [cmpxchg] fails only when another one succeeded. *)
Theorem llist_lock_free m l evs c :
  walk (next m) (first m) l → NoDup l → steps true (Config m ∅) evs c →
  (∀ i p, threads c !! i = Some p →
     ∃ p' m' ev, thread_step p (mem c) = Some (p', m', ev) ∧
       step true c ev (Config m' (put_pc i p' (threads c)))) ∧
  (∀ n evs' c', runs n c evs' c' → 5 * size (threads c) < n → evs' ≠ []).
Proof.
  intros Hw Hnd Hs. destruct (steps_simulate _ _ _ _ (inv_init m l Hw Hnd) Hs) as (l' & _ & HI).
  split.
  - intros i p Hp. destruct (inv_not_stuck _ _ _ _ HI Hp) as [[[p' m'] ev] E].
    exists p', m', ev. split; [done|]. by econstructor.
  - intros n evs' c' Hr Hn He. pose proof (runs_silent _ _ _ _ Hr He).
    pose proof (work_bound (first (mem c)) (threads c)). lia.
Qed.

(** ** Reversal *)

Fixpoint reverse_loop (fuel : nat) (nx : gmap loc ptr) (head new_head : ptr)
    : option (ptr * gmap loc ptr) :=
  match fuel with
  | O => None
  | S fuel =>
      match head with
      | None => Some (new_head, nx)
      | Some tmp =>
          head ← nx !! tmp;
          reverse_loop fuel (<[tmp := new_head]> nx) head (Some tmp)
      end
  end.

Definition llist_reverse_order (fuel : nat) (nx : gmap loc ptr) (head : ptr)
    : option (ptr * gmap loc ptr) :=
  reverse_loop fuel nx head None.

Lemma reverse_loop_spec fuel nx p l p' l' :
  walk nx p l → walk nx p' l' → NoDup (l ++ l') → length l < fuel →
  ∃ r nx', reverse_loop fuel nx p p' = Some (r, nx') ∧ walk nx' r (reverse l ++ l') ∧
    ∀ x, x ∉ l → nx' !! x = nx !! x.
Proof.
  revert nx p l p' l'. induction fuel as [|fuel IH]; intros nx p l p' l' Hw Hw' Hnd Hf; [lia|].
  destruct l as [|x l]; simpl in *.
  { subst p. by exists p', nx. }
  destruct Hw as [-> (q & Hq & Hw)]. apply NoDup_cons in Hnd as [Hx Hnd]. rewrite Hq. simpl.
  destruct (IH (<[x := p']> nx) q l (Some x) (x :: l')) as (r & nx' & E & Hr & Hout); [| | |lia|].
  - apply walk_insert; [|done]. set_solver.
  - split; [done|]. exists p'. rewrite lookup_insert_eq. split; [done|].
    apply walk_insert; [|done]. set_solver.
  - apply NoDup_app in Hnd as (? & ? & ?). apply NoDup_app. split_and!; [done|set_solver|].
    apply NoDup_cons. split; [set_solver|done].
  - exists r, nx'. rewrite reverse_cons, <- (assoc_L (++)). split_and!; [done..|].
    intros y [Hy Hyl]%not_elem_of_cons. rewrite Hout by done. by apply lookup_insert_ne.
Qed.

(** [llist_reverse_order] reverses a chain in place: what was added last came first, and
    now comes last.  Other nodes keep their links. *)
Lemma llist_reverse_order_reverses nx p l fuel :
  walk nx p l → NoDup l → length l < fuel →
  ∃ r nx', llist_reverse_order fuel nx p = Some (r, nx') ∧ walk nx' r (reverse l) ∧
    ∀ x, x ∉ l → nx' !! x = nx !! x.
Proof.
  intros Hw Hnd Hf. destruct (reverse_loop_spec fuel nx p l None []) as (r & nx' & E & Hr & Ho);
    [done..|by rewrite app_nil_r|done|].
  rewrite app_nil_r in Hr. by exists r, nx'.
Qed.

(** ** Schedules

    A run can be computed from the moves of its scheduler; a call of [llist_add_batch]
    comes with the list that is in memory. *)

Fixpoint walkb (nx : gmap loc ptr) (p : ptr) (l : list loc) : bool :=
  match l with
  | [] => bool_decide (p = None)
  | x :: l =>
      bool_decide (p = Some x) && match nx !! x with Some q => walkb nx q l | None => false end
  end.
Fixpoint chainedb (nx : gmap loc ptr) (l : list loc) : bool :=
  match l with
  | [] => false
  | x :: l =>
      match nx !! x, l with
      | None, _ => false
      | Some _, [] => true
      | Some q, y :: _ => bool_decide (q = Some y) && chainedb nx l
      end
  end.

Lemma walkb_spec nx p l : walkb nx p l = true ↔ walk nx p l.
Proof.
  revert p. induction l as [|x l IH]; intros p; simpl; [apply bool_decide_eq_true|].
  rewrite andb_true_iff, bool_decide_eq_true. destruct (nx !! x) as [q|]; [|naive_solver].
  rewrite IH. naive_solver.
Qed.
Lemma chainedb_spec nx l : chainedb nx l = true ↔ chained nx l.
Proof.
  induction l as [|x l IH]; simpl; [done|]. destruct (nx !! x) as [q|]; [|naive_solver].
  destruct l as [|y l]; [naive_solver|]. rewrite andb_true_iff, bool_decide_eq_true, IH. naive_solver.
Qed.

#[export] Instance walk_dec nx p l : Decision (walk nx p l).
Proof. refine (cast_if (decide (walkb nx p l = true))); by rewrite <- walkb_spec. Defined.
#[export] Instance chained_dec nx l : Decision (chained nx l).
Proof. refine (cast_if (decide (chainedb nx l = true))); by rewrite <- chainedb_spec. Defined.

Inductive move := Run (i : nat) | CallAdd (i : nat) (batch l : list loc) | CallDel (i : nat).

Definition carry_out (exclusive : bool) (mv : move) (c : config) : option (option event * config) :=
  match mv with
  | Run i =>
      p ← threads c !! i;
      r ← thread_step p (mem c);
      let '(p', m', ev) := (r : outcome) in
      Some (ev, Config m' (put_pc i p' (threads c)))
  | CallAdd i b l =>
      if decide (threads c !! i = None ∧ NoDup b ∧ chained (next (mem c)) b ∧
                 walk (next (mem c)) (first (mem c)) l ∧ Forall (.∉ l) b ∧
                 map_Forall (λ _ p, Forall (.∉ batch_of p) b) (threads c))
      then Some (None, Config (mem c) (<[i := AddRead b]> (threads c))) else None
  | CallDel i =>
      if decide (threads c !! i = None ∧
                 (exclusive = true → map_Forall (λ _ p, is_del p = false) (threads c)))
      then Some (None, Config (mem c) (<[i := DelLoad]> (threads c))) else None
  end.

Lemma carry_out_steps exclusive mv c ev c' :
  carry_out exclusive mv c = Some (ev, c') → step exclusive c ev c'.
Proof.
  destruct mv as [i|i b l|i]; simpl.
  - destruct (threads c !! i) as [p|] eqn:Hp; [|done]. simpl.
    destruct (thread_step p (mem c)) as [[[p' m'] e]|] eqn:E; [|done]. intros [= <- <-].
    by econstructor.
  - case_decide as D; [|done]. intros [= <- <-]. destruct D as (Hi & Hnd & Hc & Hw & Hl & Hb).
    rewrite Forall_forall in Hl.
    constructor; [done..|]. intros x Hx. split.
    + intros l' Hw'. rewrite (walk_unique _ _ _ _ Hw' Hw). by apply Hl.
    + intros j p Hp. specialize (Hb j p Hp). simpl in Hb. rewrite Forall_forall in Hb. by apply Hb.
  - case_decide as D; [|done]. intros [= <- <-]. destruct D. by constructor.
Qed.

#[local] Instance schedule exclusive : Schedule (step exclusive) move :=
  {| do_move := carry_out exclusive; do_move_step := carry_out_steps exclusive |}.

(** ** Two deleters *)

Definition two_nodes : shared := Shared (Some 1%positive) (list_to_map [(1, Some 2); (2, None)]%positive).

(** A deleter stops before its [cmpxchg], with the second node in hand; another one deletes
    both nodes and adds the first one again. *)
Definition reuse_moves : list move :=
  [CallDel 1; Run 1; Run 1; CallDel 2; Run 2; Run 2; Run 2; CallDel 2; Run 2; Run 2; Run 2;
   CallAdd 2 [1%positive] []; Run 2; Run 2; Run 2; Run 1; CallDel 2; Run 2; Run 2; Run 2].
Definition reuse : list event :=
  [Deleted (Some 1%positive); Deleted (Some 2%positive); Added [1%positive] true;
   Deleted (Some 1%positive); Deleted (Some 2%positive)].

(** The rule of the comment is needed: with two threads in [llist_del_first] the list is
    not a stack.  From the list 1, 2 there is a run in which 2 is deleted twice although
    nobody added it again. *)
Theorem llist_two_deleters_break :
  (∃ c, steps false (Config two_nodes ∅) reuse c) ∧
  walk (next two_nodes) (first two_nodes) [1; 2]%positive ∧
  ∀ l, ¬ history [1; 2]%positive reuse l.
Proof.
  split; [apply (schedule_run _ reuse_moves); vm_compute; reflexivity|]. split; [vm_decide|].
  intros l Hh. unfold reuse in Hh. repeat match goal with
    | H : history _ (_ :: _) _ |- _ => inversion H; clear H; simplify_eq/=
    | H : stack_step _ _ _ |- _ => inversion H; clear H; simplify_eq/=
    end.
Qed.

(** ** A concrete run *)

(** Thread 1 reads the head; thread 2 adds 4 before it, so that the [cmpxchg] of thread 1
    fails once; thread 3 then deletes the top. *)
Definition four_nodes : shared :=
  Shared (Some 1%positive) (list_to_map [(1, None); (2, Some 3); (3, None); (4, None)]%positive).
Definition overtaken_moves : list move :=
  [CallAdd 1 [2; 3] [1]; Run 1; CallAdd 2 [4] [1]; Run 2; Run 2; Run 2; Run 1; Run 1;
   Run 1; Run 1; Run 1; CallDel 3; Run 3; Run 3; Run 3]%positive%nat.
Definition overtaken : list event :=
  [Added [4%positive] false; Added [2; 3]%positive false; Deleted (Some 2%positive)].

Lemma overtaken_run : ∃ c, steps true (Config four_nodes ∅) overtaken c.
Proof. apply (schedule_run _ overtaken_moves). vm_compute. reflexivity. Qed.

Lemma llist_is_stack_witness : ∃ c l', steps true (Config four_nodes ∅) overtaken c ∧
  history [1%positive] overtaken l' ∧ walk (next (mem c)) (first (mem c)) l'.
Proof.
  destruct overtaken_run as [c Hc].
  destruct (llist_is_stack four_nodes [1%positive] overtaken c) as (l' & Hh & Hw & _).
  - vm_decide.
  - vm_decide.
  - exact Hc.
  - exists c, l'. exact (conj Hc (conj Hh Hw)).
Defined.

Lemma llist_lock_free_witness : ∃ c, steps true (Config four_nodes ∅) overtaken c ∧
  ∀ n evs' c', runs n c evs' c' → 5 * size (threads c) < n → evs' ≠ [].
Proof.
  destruct overtaken_run as [c Hc]. exists c. split; [exact Hc|].
  apply (llist_lock_free four_nodes [1%positive] overtaken c); [vm_decide|vm_decide|exact Hc].
Defined.

End KLlist.
