(* ===== verification/KRefcount.v ===== *)
(** * Reference counts, [lib/refcount.c]

    A counter of references that saturates instead of wrapping around.  Each operation is
    a loop that reads the counter, decides from the value, and tries [cmpxchg] until
    nothing came in between; [cas_loop] is the code of such a loop.  Threads interleave at
    their accesses to the counter and to locks.  Memory is sequentially consistent here:
    the orderings that the comments of the code describe are not modelled.

    Beside the counter the system keeps who holds references: a user takes some when an
    addition succeeds and gives some back with a subtraction, and calls only what its
    references entitle it to.  The counter is then what it should be: 0 only when nobody
    holds a reference. *)
From stdpp Require Import base numbers sets gmap gmultiset list.
From S2P Require Import Prelude KThreads.
Import KThreads.

Module KRefcount.
Local Open Scope Z_scope.

Definition UINT_MAX : Z := 2 ^ 32 - 1.

Inductive warning := Saturated | AdditionOnZero | IncrementOnZero | Underflow | HitZero.

(** ** The loops *)

(** From the value read: return, or try to store a new value. *)
Inductive decision := Return (r : bool) (ws : list warning) | Try (new : Z).

(** [expect] is the value to begin with, if it is not read from the counter.  [finish] is
    the code behind a loop whose [cmpxchg] stored the new value. *)
Record cas_loop := CasLoop {
  expect : option Z;
  body : Z → decision;
  finish : Z → bool * list warning;
}.

(** [WARN_ONCE(cond, ...)] *)
Definition WARN_ONCE (cond : bool) (w : warning) : list warning := if cond then [w] else [].

Definition refcount_add_not_zero_checked (i : Z) : cas_loop := CasLoop None
  (λ val,
     if val =? 0 then Return false []
     else if val =? UINT_MAX then Return true []
     else
       let new := w32 (val + i) in
       let new := if new <? val then UINT_MAX else new in
       Try new)
  (λ new, (true, WARN_ONCE (new =? UINT_MAX) Saturated)).

Definition refcount_inc_not_zero_checked : cas_loop := CasLoop None
  (λ val,
     let new := w32 (val + 1) in
     if val =? 0 then Return false []
     else if new =? 0 then Return true []
     else Try new)
  (λ new, (true, WARN_ONCE (new =? UINT_MAX) Saturated)).

Definition refcount_sub_and_test_checked (i : Z) : cas_loop := CasLoop None
  (λ val,
     if val =? UINT_MAX then Return false []
     else
       let new := w32 (val - i) in
       if val <? new then Return false (WARN_ONCE (val <? new) Underflow)
       else Try new)
  (λ new, (new =? 0, [])).

Definition refcount_dec_and_test_checked : cas_loop := refcount_sub_and_test_checked 1.

Definition refcount_dec_if_one : cas_loop := CasLoop (Some 1)
  (λ val, if val =? 1 then Try 0 else Return false [])
  (λ _, (true, [])).

Definition refcount_dec_not_one : cas_loop := CasLoop None
  (λ val,
     if val =? UINT_MAX then Return true []
     else if val =? 1 then Return false []
     else
       let new := w32 (val - 1) in
       if val <? new then Return true (WARN_ONCE (val <? new) Underflow)
       else Try new)
  (λ _, (true, [])).

(** A warning that depends on the result of a loop. *)
Definition warn_on (cond : bool → bool) (w : warning) (l : cas_loop) : cas_loop :=
  CasLoop (expect l)
    (λ val, match body l val with
            | Return r ws => Return r (ws ++ WARN_ONCE (cond r) w)
            | Try new => Try new
            end)
    (λ new, let '(r, ws) := finish l new in (r, ws ++ WARN_ONCE (cond r) w)).

Definition refcount_add_checked (i : Z) : cas_loop :=
  warn_on negb AdditionOnZero (refcount_add_not_zero_checked i).
Definition refcount_inc_checked : cas_loop :=
  warn_on negb IncrementOnZero refcount_inc_not_zero_checked.
Definition refcount_dec_checked : cas_loop :=
  warn_on id HitZero refcount_dec_and_test_checked.

(** What the functions with a lock call is in the header: with full checks it is
    [refcount_dec_and_test_checked]. *)
Class RefcountHeader := {
  refcount_dec_and_test : cas_loop;
  dec_and_test_is : refcount_dec_and_test = refcount_dec_and_test_checked;
}.

(** ** Threads *)

Inductive op :=
  | AddNotZero (i : nat) | Add (i : nat) | IncNotZero | Inc
  | SubAndTest (i : nat) | DecAndTest | Dec | DecIfOne | DecNotOne.

(** What follows a loop: the function returns, or it is one of the functions that take the
    lock [l], before or after it has it. *)
Inductive cont := Done | Unlocked (l : nat) | Locked (l : nat).

Inductive pc :=
  | Reading (o : op) (k : cont)
  | Trying (o : op) (k : cont) (val new : Z)
  | Locking (l : nat)
  | Unlocking (l : nat).

Inductive event := Returned (o : op) (r : bool) | ReturnedLock (l : nat) (r : bool).

Record shared := Shared { value : Z; locks : gmap nat nat }.

Section threads.
Context `{RefcountHeader}.

Definition loop_of (o : op) : cas_loop :=
  match o with
  | AddNotZero i => refcount_add_not_zero_checked (Z.of_nat i)
  | Add i => refcount_add_checked (Z.of_nat i)
  | IncNotZero => refcount_inc_not_zero_checked
  | Inc => refcount_inc_checked
  | SubAndTest i => refcount_sub_and_test_checked (Z.of_nat i)
  | DecAndTest => refcount_dec_and_test
  | Dec => refcount_dec_checked
  | DecIfOne => refcount_dec_if_one
  | DecNotOne => refcount_dec_not_one
  end.

(** A step: where the thread goes on, the memory, the warnings, what is returned, and the
    loop that came to its end, with its result. *)
Record outcome := Outcome {
  o_pc : option pc;
  o_mem : shared;
  o_warn : list warning;
  o_ret : option event;
  o_end : option (op * bool);
}.

(** The functions with a lock: the loops are [refcount_dec_not_one] without the lock and
    [refcount_dec_and_test] with it. *)
Definition after_loop (o : op) (k : cont) (r : bool) : option pc * option event :=
  match k with
  | Done => (None, Some (Returned o r))
  | Unlocked l => if r then (None, Some (ReturnedLock l false)) else (Some (Locking l), None)
  | Locked l => if r then (None, Some (ReturnedLock l true)) else (Some (Unlocking l), None)
  end.

Definition ended (o : op) (k : cont) (r : bool) (ws : list warning) (m : shared) : outcome :=
  Outcome (after_loop o k r).1 m ws (after_loop o k r).2 (Some (o, r)).

Definition decide_on (o : op) (k : cont) (val : Z) (m : shared) : outcome :=
  match body (loop_of o) val with
  | Return r ws => ended o k r ws m
  | Try new => Outcome (Some (Trying o k val new)) m [] None None
  end.

Definition thread_step (t : nat) (p : pc) (m : shared) : option outcome :=
  match p with
  | Reading o k => Some (decide_on o k (value m) m)
  | Trying o k val new =>
      if value m =? val then
        let '(r, ws) := finish (loop_of o) new in
        Some (ended o k r ws (Shared new (locks m)))
      else Some (decide_on o k (value m) m)
  | Locking l =>
      match locks m !! l with
      | Some _ => None
      | None => Some (Outcome (Some (Reading DecAndTest (Locked l)))
                        (Shared (value m) (<[l := t]> (locks m))) [] None None)
      end
  | Unlocking l =>
      Some (Outcome None (Shared (value m) (delete l (locks m))) []
              (Some (ReturnedLock l false)) None)
  end.

(** The first step of a call: a loop with a value to begin with does not read. *)
Definition call (o : op) (k : cont) : pc :=
  match expect (loop_of o) with
  | None => Reading o k
  | Some val =>
      match body (loop_of o) val with
      | Try new => Trying o k val new
      | Return _ _ => Reading o k
      end
  end.

Definition refcount_dec_and_mutex_lock (l : nat) : pc := call DecNotOne (Unlocked l).
Definition refcount_dec_and_lock (l : nat) : pc := call DecNotOne (Unlocked l).
Definition refcount_dec_and_lock_irqsave (l : nat) : pc := call DecNotOne (Unlocked l).

End threads.

(** ** What a loop does when nothing comes in between *)

Definition effect (l : cas_loop) (v : Z) : Z * bool * list warning :=
  match body l v with
  | Return r ws => (v, r, ws)
  | Try new => (new, (finish l new).1, (finish l new).2)
  end.

Ltac by_cases := repeat case_match; rewrite ?Z.eqb_eq, ?Z.eqb_neq, ?Z.ltb_lt, ?Z.ltb_ge in *.
Ltac saturate :=
  unfold WARN_ONCE, UINT_MAX in *; cbv zeta; by_cases; simplify_eq/=; repeat first [done | lia | f_equal].

Lemma w32_add v i : 0 ≤ v ≤ UINT_MAX → 0 ≤ i ≤ UINT_MAX →
  w32 (v + i) = if UINT_MAX <? v + i then v + i - 2 ^ 32 else v + i.
Proof.
  intros Hv Hi. unfold w32, UINT_MAX in *.
  case_match; rewrite ?Z.ltb_lt, ?Z.ltb_ge in *; [|by apply Z.mod_small; lia].
  symmetry. apply (Z.mod_unique_pos _ _ 1); lia.
Qed.

Lemma w32_sub v i : 0 ≤ v ≤ UINT_MAX → 0 ≤ i ≤ UINT_MAX →
  w32 (v - i) = if v <? i then v - i + 2 ^ 32 else v - i.
Proof.
  intros Hv Hi. unfold w32, UINT_MAX in *.
  case_match; rewrite ?Z.ltb_lt, ?Z.ltb_ge in *; [|by apply Z.mod_small; lia].
  symmetry. apply (Z.mod_unique_pos _ _ (-1)); lia.
Qed.

Section effects.
Context (v : Z) (Hv : 0 ≤ v ≤ UINT_MAX).

Lemma add_not_zero_effect i : 0 ≤ i ≤ UINT_MAX →
  effect (refcount_add_not_zero_checked i) v =
    (if v =? 0 then (v, false, []) else if v =? UINT_MAX then (v, true, [])
     else let s := Z.min (v + i) UINT_MAX in (s, true, WARN_ONCE (s =? UINT_MAX) Saturated)).
Proof.
  intros Hi. unfold effect, refcount_add_not_zero_checked. cbn [body finish].
  rewrite w32_add by done. saturate.
Qed.

Lemma inc_not_zero_effect :
  effect refcount_inc_not_zero_checked v = effect (refcount_add_not_zero_checked 1) v.
Proof.
  rewrite add_not_zero_effect by (unfold UINT_MAX; lia).
  unfold effect, refcount_inc_not_zero_checked. cbn [body finish].
  rewrite w32_add by (unfold UINT_MAX in *; lia). saturate.
Qed.

Lemma sub_and_test_effect i : 0 ≤ i ≤ UINT_MAX →
  effect (refcount_sub_and_test_checked i) v =
    (if v =? UINT_MAX then (v, false, []) else if v <? i then (v, false, [Underflow])
     else (v - i, v =? i, [])).
Proof.
  intros Hi. unfold effect, refcount_sub_and_test_checked. cbn [body finish].
  rewrite w32_sub by done. saturate.
Qed.

Lemma dec_not_one_effect :
  effect refcount_dec_not_one v =
    (if v =? UINT_MAX then (v, true, []) else if v =? 1 then (v, false, [])
     else if v =? 0 then (v, true, [Underflow]) else (v - 1, true, [])).
Proof.
  unfold effect, refcount_dec_not_one. cbn [body finish].
  rewrite w32_sub by (unfold UINT_MAX in *; lia).
  saturate.
Qed.

Lemma dec_if_one_effect :
  effect refcount_dec_if_one v = if v =? 1 then (0, true, []) else (v, false, []).
Proof. unfold effect, refcount_dec_if_one. cbn [body finish]. saturate. Qed.

Lemma warn_on_effect cond w l :
  effect (warn_on cond w l) v =
    (let '(v', r, ws) := effect l v in (v', r, ws ++ WARN_ONCE (cond r) w)).
Proof.
  unfold effect, warn_on. cbn [body finish]. destruct (body l v); [done|].
  by destruct (finish l new).
Qed.

End effects.

(** C29: The operations on a counter of 32 bits are saturating arithmetic, in every case: an
    addition stops at [UINT_MAX] and never leaves 0, a subtraction never leaves
    [UINT_MAX] and refuses to go below 0, and nothing wraps around.  The warnings come
    exactly with saturation, an addition to 0, an underflow, and a plain decrement to
    0.  Some results are not what the "Return:" comments of the functions say:
    [refcount_dec_if_one], and [refcount_sub_and_test_checked] and
    [refcount_dec_and_test_checked] on an underflow, return false on a counter that stays
    0, where the comments ask for true if the resulting refcount is 0;
    [refcount_dec_not_one] returns true without a decrement at [UINT_MAX] and on an
    underflow from 0, and [refcount_inc_not_zero_checked] true without an increment at
    [UINT_MAX], where the comments ask for true if the operation was successful. *)
Theorem refcount_saturates v i :
  0 ≤ v ≤ UINT_MAX → 0 ≤ i ≤ UINT_MAX →
  effect (refcount_add_not_zero_checked i) v =
    (if v =? 0 then (v, false, []) else if v =? UINT_MAX then (v, true, [])
     else let s := Z.min (v + i) UINT_MAX in
          (s, true, if s =? UINT_MAX then [Saturated] else [])) ∧
  effect (refcount_add_checked i) v =
    (if v =? 0 then (v, false, [AdditionOnZero])
     else effect (refcount_add_not_zero_checked i) v) ∧
  effect refcount_inc_not_zero_checked v = effect (refcount_add_not_zero_checked 1) v ∧
  effect refcount_inc_checked v =
    (if v =? 0 then (v, false, [IncrementOnZero])
     else effect (refcount_add_not_zero_checked 1) v) ∧
  effect (refcount_sub_and_test_checked i) v =
    (if v =? UINT_MAX then (v, false, []) else if v <? i then (v, false, [Underflow])
     else (v - i, v =? i, [])) ∧
  effect refcount_dec_and_test_checked v = effect (refcount_sub_and_test_checked 1) v ∧
  effect refcount_dec_checked v =
    (if v =? 1 then (0, true, [HitZero]) else effect (refcount_sub_and_test_checked 1) v) ∧
  effect refcount_dec_not_one v =
    (if v =? UINT_MAX then (v, true, []) else if v =? 1 then (v, false, [])
     else if v =? 0 then (v, true, [Underflow]) else (v - 1, true, [])) ∧
  effect refcount_dec_if_one v = (if v =? 1 then (0, true, []) else (v, false, [])).
Proof.
  intros Hv Hi. assert (H1 : 0 ≤ 1 ≤ UINT_MAX) by done.
  unfold refcount_add_checked, refcount_inc_checked, refcount_dec_checked,
    refcount_dec_and_test_checked.
  rewrite !warn_on_effect, inc_not_zero_effect, !add_not_zero_effect,
    !sub_and_test_effect, dec_not_one_effect, dec_if_one_effect by done.
  split_and!; try done; saturate.
Qed.

Lemma refcount_saturates_witness :
  effect (refcount_add_not_zero_checked UINT_MAX) 3 = (UINT_MAX, true, [Saturated]) ∧
  effect (refcount_sub_and_test_checked 4) 3 = (3, false, [Underflow]) ∧
  effect refcount_dec_checked 1 = (0, true, [HitZero]).
Proof.
  destruct (refcount_saturates 3 UINT_MAX) as (E1&_); [done..|].
  destruct (refcount_saturates 3 4) as (_&_&_&_&E2&_); [done..|].
  destruct (refcount_saturates 1 0) as (_&_&_&_&_&_&E3&_); [done..|].
  rewrite E1, E2, E3. done.
Defined.

(** ** A counter and its users

    [idle] counts the references in the hands of users; a call takes the references it
    needs with it, and the end of its loop gives back what is left. *)

Definition needs (o : op) : nat :=
  match o with
  | AddNotZero _ | IncNotZero => 0
  | Add _ | Inc | DecAndTest | Dec | DecIfOne | DecNotOne => 1
  | SubAndTest i => i
  end.

Definition settle (o : op) (r : bool) : nat :=
  match o with
  | AddNotZero i => if r then i else 0
  | IncNotZero => if r then 1 else 0
  | Add i => if r then S i else 1
  | Inc => if r then 2 else 1
  | SubAndTest _ | DecAndTest | Dec => 0
  | DecIfOne | DecNotOne => if r then 0 else 1
  end.

(** An operand is an [unsigned int], and nobody drops no references. *)
Definition op_ok (o : op) : Prop :=
  match o with
  | AddNotZero i | Add i => Z.of_nat i ≤ UINT_MAX
  | SubAndTest i => 0 < Z.of_nat i ≤ UINT_MAX
  | _ => True
  end.

(** The answers that tell a caller that its reference was the last one. *)
Definition last_dropped (x : op * bool) : bool :=
  match x with
  | (SubAndTest _, r) | (DecAndTest, r) | (Dec, r) | (DecIfOne, r) => r
  | _ => false
  end.

Definition pending (p : option pc) : nat :=
  match p with
  | Some (Reading o _) | Some (Trying o _ _ _) => needs o
  | Some (Locking _) => 1
  | Some (Unlocking _) | None => 0
  end.

Definition gives (out : outcome) : nat :=
  match o_end out with
  | Some (o, r) => settle o r - pending (o_pc out)
  | None => 0
  end.

Record config := Config { mem : shared; idle : nat; threads : list (option pc) }.

Definition total (c : config) : nat := idle c + sum_list_with pending (threads c).

Section system.
Context `{RefcountHeader}.

Inductive step (c : config) : option (nat * outcome) → config → Prop :=
  | step_run t p out :
      threads c !! t = Some (Some p) → thread_step t p (mem c) = Some out →
      step c (Some (t, out))
        (Config (o_mem out) (idle c + gives out) (<[t := o_pc out]> (threads c)))
  | step_call t o :
      threads c !! t = Some None → op_ok o → (needs o ≤ idle c)%nat →
      step c None (Config (mem c) (idle c - needs o) (<[t := Some (call o Done)]> (threads c)))
  | step_call_lock t l p :
      threads c !! t = Some None → (1 ≤ idle c)%nat →
      p ∈ [refcount_dec_and_mutex_lock l; refcount_dec_and_lock l;
           refcount_dec_and_lock_irqsave l] →
      step c None (Config (mem c) (idle c - 1) (<[t := Some p]> (threads c)))
  | step_user_lock t l :
      threads c !! t = Some None → locks (mem c) !! l = None →
      step c None (Config (Shared (value (mem c)) (<[l := t]> (locks (mem c))))
                     (idle c) (threads c))
  | step_user_unlock t l :
      threads c !! t = Some None → locks (mem c) !! l = Some t →
      step c None (Config (Shared (value (mem c)) (delete l (locks (mem c))))
                     (idle c) (threads c)).

(** A run, with the steps inside the functions, in order. *)
Definition steps : config → list (nat * outcome) → config → Prop := run step.

(** [n] references to begin with, and [k] threads. *)
Definition start (n k : nat) : config :=
  Config (Shared (Z.of_nat n) ∅) n (replicate k None).

(** How often somebody was told that it dropped the last reference. *)
Definition told (x : nat * outcome) : bool :=
  match o_end x.2 with Some y => last_dropped y | None => false end.
Definition times_told (tr : list (nat * outcome)) : nat :=
  length (filter (λ x, told x = true) tr).

Definition harmless (w : warning) : Prop := w = Saturated ∨ w = HitZero.

(** *** The invariant *)

Definition cont_ok (t : nat) (o : op) (k : cont) (ls : gmap nat nat) : Prop :=
  match k with
  | Done => op_ok o
  | Unlocked _ => o = DecNotOne
  | Locked l => o = DecAndTest ∧ ls !! l = Some t
  end.

Definition pc_ok (t : nat) (p : pc) (ls : gmap nat nat) : Prop :=
  match p with
  | Reading o k => cont_ok t o k ls
  | Trying o k val new => cont_ok t o k ls ∧ body (loop_of o) val = Try new
  | Locking _ => True
  | Unlocking l => ls !! l = Some t
  end.

(** The counter is exact, or stuck. *)
Definition counts (v : Z) (n : nat) : Prop :=
  0 ≤ v ≤ UINT_MAX ∧ (v = UINT_MAX ∨ v = Z.of_nat n).

Record inv (told_n : nat) (c : config) : Prop := {
  inv_counts : counts (value (mem c)) (total c);
  inv_pcs : ∀ t p, threads c !! t = Some (Some p) → pc_ok t p (locks (mem c));
  inv_told : told_n = Nat.b2n (value (mem c) =? 0);
}.

Lemma cont_op_ok t o k ls : cont_ok t o k ls → op_ok o.
Proof. destruct k; naive_solver. Qed.

(** A loop, by a caller entitled to it. *)
Lemma loop_counts o v v' r ws n :
  op_ok o → counts v (n + needs o) → effect (loop_of o) v = (v', r, ws) →
  counts v' (n + settle o r) ∧ Forall harmless ws ∧
  Nat.b2n (v' =? 0) = (Nat.b2n (v =? 0)%Z + Nat.b2n (last_dropped (o, r)))%nat.
Proof.
  intros Hok [Hv Hn] He. assert (Hm : 1 < UINT_MAX) by done.
  destruct o; cbn [loop_of needs op_ok settle last_dropped] in *;
    unfold refcount_add_checked, refcount_inc_checked, refcount_dec_checked in He;
    rewrite ?dec_and_test_is in He; unfold refcount_dec_and_test_checked in He;
    rewrite ?warn_on_effect, ?inc_not_zero_effect, ?add_not_zero_effect,
      ?sub_and_test_effect, ?dec_not_one_effect, ?dec_if_one_effect in He by lia;
    unfold WARN_ONCE in He; cbv zeta in He; unfold counts, harmless;
    by_cases; simplify_eq/=; by_cases; simplify_eq/=;
    first [ exfalso; lia
          | rewrite ?Forall_cons, ?Forall_nil;
            split; [lia|split; [by auto|unfold Nat.b2n; by_cases; lia]] ].
Qed.

(** Locks of others stay as they are. *)
Definition keeps (t : nat) (ls ls' : gmap nat nat) : Prop :=
  ∀ l t', t' ≠ t → ls !! l = Some t' → ls' !! l = Some t'.

Lemma pc_ok_keeps t t' p ls ls' : keeps t ls ls' → t' ≠ t → pc_ok t' p ls → pc_ok t' p ls'.
Proof.
  intros Hk Hne Hp. destruct p as [o k|o k val new|l|l]; simpl in *; [| |done|by eauto].
  - destruct k; naive_solver.
  - destruct k; naive_solver.
Qed.

(** What a step of thread [t] does to everybody else's [n] references. *)
Record outcome_ok (t n : nat) (m : shared) (out : outcome) : Prop := {
  ok_counts : counts (value (o_mem out)) (n + (gives out + pending (o_pc out)));
  ok_warn : Forall harmless (o_warn out);
  ok_told : Nat.b2n (value (o_mem out) =? 0) =
    (Nat.b2n (value m =? 0)%Z + Nat.b2n (told (t, out)))%nat;
  ok_pc : ∀ q, o_pc out = Some q → pc_ok t q (locks (o_mem out));
  ok_keeps : keeps t (locks m) (locks (o_mem out));
  ok_locked : ∀ l, o_ret out = Some (ReturnedLock l true) →
    value (o_mem out) = 0 ∧ locks (o_mem out) !! l = Some t;
}.

Lemma ended_ok t n o k m v' r ws :
  cont_ok t o k (locks m) → counts (value m) (n + needs o) →
  effect (loop_of o) (value m) = (v', r, ws) →
  outcome_ok t n m (ended o k r ws (Shared v' (locks m))).
Proof.
  intros Hk Hc He.
  destruct (loop_counts o (value m) v' r ws n) as (Hc'&Hw&Ht); [by eapply cont_op_ok|done..|].
  split; try done; unfold gives, told; simpl.
  - replace (settle o r - _ + _)%nat with (settle o r); [done|].
    destruct k; simpl in *; [lia|subst o|destruct Hk as [-> _]]; destruct r; simpl; lia.
  - intros q. destruct k, r; simpl in *; naive_solver.
  - intros l t' _ ?. done.
  - intros l Hr. destruct k as [|l'|l'], r; simpl in *; simplify_eq.
    destruct Hk as [-> Hl]. split; [|done]. simpl in Ht. destruct (Z.eqb_spec v' 0); [done|].
    simpl in Ht. lia.
Qed.

Lemma decide_on_ok t n o k m :
  cont_ok t o k (locks m) → counts (value m) (n + needs o) →
  outcome_ok t n m (decide_on o k (value m) m).
Proof.
  intros Hk Hc. unfold decide_on. destruct (body (loop_of o) (value m)) as [r ws|new] eqn:Hb.
  - destruct m as [v ls]. apply ended_ok; [done..|]. unfold effect. by rewrite Hb.
  - split; unfold gives, told; simpl; [done|done|lia| |by intros ?|done].
    intros q [= <-]. done.
Qed.

Lemma thread_step_ok t n p m out :
  pc_ok t p (locks m) → counts (value m) (n + pending (Some p)) →
  thread_step t p m = Some out → outcome_ok t n m out.
Proof.
  intros Hp Hc Hs. destruct p as [o k|o k val new|l|l]; simpl in *.
  - simplify_eq. by apply decide_on_ok.
  - destruct Hp as [Hk Hb]. destruct (Z.eqb_spec (value m) val) as [<-|_].
    + destruct (finish (loop_of o) new) as [r ws] eqn:Hf. simplify_eq.
      apply ended_ok; [done..|]. unfold effect. by rewrite Hb, Hf.
    + simplify_eq. by apply decide_on_ok.
  - destruct (locks m !! l) eqn:Hl; simplify_eq.
    split; unfold gives, told; simpl; [done|done|lia| | |done].
    + intros q [= <-]. simpl. by rewrite lookup_insert_eq.
    + intros l' t' _ ?. rewrite lookup_insert_ne by congruence. done.
  - simplify_eq. split; unfold gives, told; simpl; [done|done|lia|done| |done].
    intros l' t' ? ?. rewrite lookup_delete_ne by congruence. done.
Qed.

Lemma sum_pending_insert (l : list (option pc)) t x y :
  l !! t = Some x →
  (sum_list_with pending (<[t := y]> l) + pending x =
   sum_list_with pending l + pending y)%nat.
Proof.
  revert t. induction l as [|z l IH]; intros [|t] Ht; simplify_eq/=; [lia|].
  specialize (IH t Ht). lia.
Qed.

Lemma call_pending o k : pending (Some (call o k)) = needs o.
Proof. unfold call. repeat case_match; done. Qed.

Lemma call_ok t o k ls : cont_ok t o k ls → pc_ok t (call o k) ls.
Proof. intros Hk. unfold call. repeat case_match; done. Qed.

(** A thread is put at [y]; the others are where they were. *)
Lemma inv_insert told_n told_n' c m' n' t x y :
  inv told_n c → threads c !! t = Some x → keeps t (locks (mem c)) (locks m') →
  counts (value m') (n' + pending y + (sum_list_with pending (threads c) - pending x)) →
  (∀ q, y = Some q → pc_ok t q (locks m')) →
  told_n' = Nat.b2n (value m' =? 0) →
  inv told_n' (Config m' n' (<[t := y]> (threads c))).
Proof.
  intros [Hc Hp Hn] Ht Hk Hc' Hy Hn'. split; [|simpl..|done].
  - unfold total; simpl. pose proof (sum_pending_insert (threads c) t x y Ht).
    pose proof (sum_pending_insert (threads c) t x None Ht). simpl in *.
    revert Hc'. unfold counts. lia.
  - intros t' q. destruct (decide (t' = t)) as [->|Hne].
    + rewrite list_lookup_insert_eq by (by eapply lookup_lt_Some). naive_solver.
    + rewrite list_lookup_insert_ne by done. intros Hq. eapply pc_ok_keeps; eauto.
Qed.

(** What a step tells. *)
Definition told_by (x : option (nat * outcome)) : nat :=
  match x with Some y => Nat.b2n (told y) | None => 0 end.

Definition label_ok (x : nat * outcome) : Prop :=
  Forall harmless (o_warn x.2) ∧
  ∀ l, o_ret x.2 = Some (ReturnedLock l true) →
    value (o_mem x.2) = 0 ∧ locks (o_mem x.2) !! l = Some x.1.

Lemma inv_call told_n c t o k :
  inv told_n c → threads c !! t = Some None → (needs o ≤ idle c)%nat →
  cont_ok t o k (locks (mem c)) →
  inv told_n (Config (mem c) (idle c - needs o) (<[t := Some (call o k)]> (threads c))).
Proof.
  intros Hi Ht Hn Hk. pose proof Hi as [Hc _ Htold].
  eapply inv_insert; [done|done|by intros ?| |intros q [= <-]; by apply call_ok|done].
  rewrite call_pending. revert Hc. unfold counts, total. simpl. lia.
Qed.

(** A user changes a lock that nobody, or a thread outside any call, owns. *)
Lemma inv_locks told_n c ls t :
  inv told_n c → threads c !! t = Some None → keeps t (locks (mem c)) ls →
  inv told_n (Config (Shared (value (mem c)) ls) (idle c) (threads c)).
Proof.
  intros [Hc Hp Hn] Ht Hk. split; [done| |done]. simpl. intros t' q Hq.
  eapply pc_ok_keeps; eauto. congruence.
Qed.

Lemma step_inv told_n c x c' :
  inv told_n c → step c x c' → inv (told_n + told_by x) c' ∧ Forall label_ok (option_list x).
Proof.
  intros Hi Hs. destruct Hs as [t p out Ht Hs|t o Ht Ho Hn|t l p Ht Hn Hp|t l Ht Hl|t l Ht Hl];
    simpl; rewrite ?Nat.add_0_r.
  - pose proof Hi as [Hc Hpc Htold].
    pose proof (sum_pending_insert _ _ _ None Ht) as Hsum. unfold pending at 4 in Hsum.
    destruct (thread_step_ok t (total c - pending (Some p)) p (mem c) out)
      as [Hc' Hw Ht' Hq Hk Hl]; [by auto| |done|].
    { revert Hc. unfold counts, total. lia. }
    split; [|by apply Forall_singleton].
    eapply inv_insert; [done..| |done|subst told_n; lia].
    revert Hc'. unfold counts, total. lia.
  - split; [|done]. by apply inv_call.
  - split; [|done].
    assert (p = call DecNotOne (Unlocked l)) as -> by (clear -Hp; set_solver).
    by apply (inv_call told_n c t DecNotOne).
  - split; [|done]. eapply inv_locks; [done..|]. intros l' t' _ ?.
    rewrite lookup_insert_ne by congruence. done.
  - split; [|done]. eapply inv_locks; [done..|]. intros l' t' ? ?.
    rewrite lookup_delete_ne by congruence. done.
Qed.

Lemma times_told_app tr x :
  times_told (tr ++ option_list x) = (times_told tr + told_by x)%nat.
Proof.
  unfold times_told. rewrite filter_app, length_app. f_equal.
  destruct x as [y|]; simpl; [|done]. by destruct (told y) eqn:E; simpl; rewrite ?filter_cons, E.
Qed.

Lemma steps_inv n k tr c :
  0 < Z.of_nat n ≤ UINT_MAX → steps (start n k) tr c →
  inv (times_told tr) c ∧ Forall label_ok tr.
Proof.
  intros Hn. induction 1 as [|tr c1 x c2 _ [IH1 IH2] Hs].
  - split; [|done]. split; [|simpl|].
    + unfold counts, total, start; simpl.
      replace (sum_list_with pending (replicate k None)) with 0%nat by (by induction k). lia.
    + intros t p [??]%lookup_replicate_1. done.
    + simpl. destruct (Z.eqb_spec (Z.of_nat n) 0); [lia|done].
  - destruct (step_inv _ _ _ _ IH1 Hs). rewrite times_told_app, Forall_app. done.
Qed.

(** C28: A counter is right under every interleaving, when its users only give back
    references that they have.  It is the number of references, or stuck at [UINT_MAX];
    so it is 0 only when nobody has a reference.  Exactly one caller is told that it
    dropped the last reference, exactly when the counter has come to 0.  No use after
    free is warned of.  A function with a lock that returns true has the lock, with the
    counter at 0. *)
Theorem refcount_safe n k tr c :
  0 < Z.of_nat n ≤ UINT_MAX → steps (start n k) tr c →
  (value (mem c) = UINT_MAX ∨ value (mem c) = Z.of_nat (total c)) ∧
  times_told tr = Nat.b2n (value (mem c) =? 0) ∧
  (∀ t out, (t, out) ∈ tr →
    (∀ w, w ∈ o_warn out → w = Saturated ∨ w = HitZero) ∧
    (∀ l, o_ret out = Some (ReturnedLock l true) →
       value (o_mem out) = 0 ∧ locks (o_mem out) !! l = Some t)).
Proof.
  intros Hn Hs. destruct (steps_inv _ _ _ _ Hn Hs) as [[[_ Hc] _ Ht] Hl].
  split_and!; [done..|]. intros t out Hin. rewrite Forall_forall in Hl.
  destruct (Hl _ Hin) as [Hw Hr]. split; [|done]. by rewrite Forall_forall in Hw.
Qed.

(** *** Schedules *)

#[local] Instance op_ok_dec o : Decision (op_ok o).
Proof. destruct o; apply _. Defined.

Inductive move := Run (t : nat) | Call (t : nat) (o : op) | CallLock (t l : nat) | Unlock (t l : nat).

Definition carry_out (mv : move) (c : config) : option (option (nat * outcome) * config) :=
  match mv with
  | Run t =>
      p ← mjoin (threads c !! t);
      out ← thread_step t p (mem c);
      Some (Some (t, out),
            Config (o_mem out) (idle c + gives out) (<[t := o_pc out]> (threads c)))
  | Call t o =>
      x ← threads c !! t;
      if decide (x = None ∧ op_ok o ∧ (needs o ≤ idle c)%nat)
      then Some (None, Config (mem c) (idle c - needs o)
                         (<[t := Some (call o Done)]> (threads c)))
      else None
  | CallLock t l =>
      x ← threads c !! t;
      if decide (x = None ∧ (1 ≤ idle c)%nat)
      then Some (None, Config (mem c) (idle c - 1)
                         (<[t := Some (refcount_dec_and_lock l)]> (threads c)))
      else None
  | Unlock t l =>
      x ← threads c !! t;
      if decide (x = None ∧ locks (mem c) !! l = Some t)
      then Some (None, Config (Shared (value (mem c)) (delete l (locks (mem c))))
                         (idle c) (threads c))
      else None
  end.

Lemma carry_out_is_step mv c x c' : carry_out mv c = Some (x, c') → step c x c'.
Proof.
  destruct mv as [t|t o|t l|t l]; simpl; destruct (threads c !! t) as [[p|]|] eqn:Ht; try done;
    simpl; try (case_decide as D; [|done]; destruct_and! D; try done).
  - destruct (thread_step t p (mem c)) eqn:Hs; [|done]. intros [= <- <-]. by econstructor.
  - intros [= <- <-]. by constructor.
  - intros [= <- <-]. apply (step_call_lock c t l); [done..|]. set_solver.
  - intros [= <- <-]. by apply (step_user_unlock c t).
Qed.

#[local] Instance schedule : Schedule step move :=
  {| do_move := carry_out; do_move_step := carry_out_is_step |}.

Definition run_moves : list move → config → list (nat * outcome) * config := run_of step.

End system.

#[local] Instance full_checks : RefcountHeader :=
  {| refcount_dec_and_test := refcount_dec_and_test_checked; dec_and_test_is := eq_refl |}.

(** Thread 0 is about to drop one of two references, with a lock; thread 1 drops one first. *)
Definition race_moves : list move :=
  [CallLock 0 7; Call 1 DecAndTest; Run 0; Run 1; Run 1; Run 0; Run 0; Run 0; Run 0].
Definition race : list (nat * outcome) * config :=
  run_moves race_moves (start 2 2).

Lemma refcount_safe_witness :
  (λ x, (x.1, o_ret x.2)) <$> filter (λ x, is_Some (o_ret x.2)) race.1 =
    [(1%nat, Some (Returned DecAndTest false)); (0%nat, Some (ReturnedLock 7 true))] ∧
  times_told race.1 = 1%nat ∧ total race.2 = 0%nat.
Proof.
  destruct (refcount_safe 2 2 race.1 race.2) as (H1&H2&_).
  - done.
  - apply run_of_run.
  - split_and!.
    + vm_compute. reflexivity.
    + rewrite H2. vm_compute. reflexivity.
    + destruct H1 as [H1|H1]; vm_compute in H1; [done|]. vm_compute. reflexivity.
Defined.

End KRefcount.
