(* ===== verification/KErrseq.v ===== *)
(** * Error sequences, [lib/errseq.c]

    A word of 32 bits records the latest error, whether anybody has seen it, and a counter
    that goes up when a new error replaces one that was seen.  A subscriber keeps a value
    of the word, and learns from a different value that there was an error since.  The
    functions run without a lock; as in [KLlist] a thread is a program counter, its steps
    are single accesses to the word, and memory is sequentially consistent.

    A subscriber is told of every error since its last look, as long as the counter does
    not come around, and as long as no writer came between the two accesses of
    [errseq_check_and_advance].  The comment there says that this does not matter; a run
    shows that it does. *)
From stdpp Require Import base numbers sets gmap list.
From S2P Require Import Prelude KThreads.
Import KThreads.

Module KErrseq.
Local Open Scope Z_scope.

(** [MAX_ERRNO] is in [linux/err.h].  The code demands that it can serve as a mask. *)
Class ErrHeader := {
  MAX_ERRNO : Z;
  max_errno_mask : ∃ n, 0 < n < 31 ∧ MAX_ERRNO = 2 ^ n - 1;
}.

Section errseq.
Context `{ErrHeader}.

Definition ERRSEQ_SHIFT : Z := Z.log2 (MAX_ERRNO + 1).
Definition ERRSEQ_SEEN : Z := Z.shiftl 1 ERRSEQ_SHIFT.
Definition ERRSEQ_CTR_INC : Z := Z.shiftl 1 (ERRSEQ_SHIFT + 1).

Definition is_seen (w : Z) : bool := negb (Z.land w ERRSEQ_SEEN =? 0).
Definition error_of (w : Z) : Z := - Z.land w MAX_ERRNO.

(** The value that [errseq_set] wants to store. *)
Definition set_new (old err : Z) : Z :=
  let new := Z.lor (Z.land old (Z.lnot (Z.lor MAX_ERRNO ERRSEQ_SEEN))) (- err) in
  if is_seen old then w32 (new + ERRSEQ_CTR_INC) else new.

(** What [errseq_set] warns of, and does not record. *)
Definition bad_error (err : Z) : bool := (err =? 0) || (MAX_ERRNO <? w32 (- err)).

(** ** Threads *)

Inductive pc :=
  | SetRead (err : Z)
  | SetTry (err old new : Z)
  | SampleRead
  | CheckRead (since : Z)
  | AdvanceRead (since : Z)
  | AdvanceTry (old new : Z).

(** What a call returns; [errseq_check_and_advance] also writes [*since]. *)
Inductive ret := RSet (v : Z) | RSample (v : Z) | RCheck (err : Z) | RAdvance (err since : Z).

(** Where the thread goes on, the word, what is returned, the error that is recorded, and
    whether a swap that nobody looks at failed. *)
Record outcome := Outcome {
  o_pc : option pc;
  o_word : Z;
  o_ret : option ret;
  o_set : option Z;
  o_beaten : bool;
}.

Definition returns (w : Z) (r : ret) : outcome := Outcome None w (Some r) None false.
Definition goes_on (w : Z) (p : pc) : outcome := Outcome (Some p) w None None false.
Definition has_set (w v err : Z) : outcome := Outcome None w (Some (RSet v)) (Some err) false.

(** The loop, up to the [cmpxchg]. *)
Definition set_test (err old w : Z) : outcome :=
  let new := set_new old err in
  if new =? old then has_set w new err else goes_on w (SetTry err old new).

Definition errseq_set (p : pc) (w : Z) : option outcome :=
  match p with
  | SetRead err =>
      let old := w in
      if bad_error err then Some (returns w (RSet old)) else Some (set_test err old w)
  | SetTry err old new =>
      let cur := w in
      let w := if cur =? old then new else w in
      if (cur =? old) || (cur =? new) then Some (has_set w cur err)
      else Some (set_test err cur w)
  | _ => None
  end.

Definition errseq_sample (w : Z) : Z := if negb (is_seen w) then 0 else w.

Definition errseq_check (w since : Z) : Z := if w =? since then 0 else error_of w.

Definition errseq_check_and_advance (p : pc) (w : Z) : option outcome :=
  match p with
  | AdvanceRead since =>
      let old := w in
      if negb (old =? since) then
        let new := Z.lor old ERRSEQ_SEEN in
        if negb (new =? old) then Some (goes_on w (AdvanceTry old new))
        else Some (returns w (RAdvance (error_of new) new))
      else Some (returns w (RAdvance 0 since))
  | AdvanceTry old new =>
      Some (Outcome None (if w =? old then new else w) (Some (RAdvance (error_of new) new))
              None (negb (w =? old)))
  | _ => None
  end.

Definition thread_step (p : pc) (w : Z) : option outcome :=
  match p with
  | SetRead _ | SetTry _ _ _ => errseq_set p w
  | SampleRead => Some (returns w (RSample (errseq_sample w)))
  | CheckRead since => Some (returns w (RCheck (errseq_check w since)))
  | AdvanceRead _ | AdvanceTry _ _ => errseq_check_and_advance p w
  end.

(** ** The system *)

Record config := Config { word : Z; threads : gmap nat pc }.

Definition put_pc (t : nat) (p : option pc) (ts : gmap nat pc) : gmap nat pc :=
  match p with Some p => <[t := p]> ts | None => delete t ts end.
Arguments put_pc : simpl never.

(** What a thread may call: an error is an [int], and a subscriber passes what it got from
    [errseq_sample] or [errseq_check_and_advance], which is 0 or seen. *)
Definition sampled (since : Z) : Prop := since = 0 ∨ is_seen since = true.
Definition is_call (p : pc) : Prop :=
  match p with
  | SetRead err => - 2 ^ 31 ≤ err < 2 ^ 31
  | SampleRead => True
  | CheckRead since | AdvanceRead since => sampled since
  | SetTry _ _ _ | AdvanceTry _ _ => False
  end.

Inductive step (c : config) : option (nat * outcome) → config → Prop :=
  | step_run t p out :
      threads c !! t = Some p → thread_step p (word c) = Some out →
      step c (Some (t, out)) (Config (o_word out) (put_pc t (o_pc out) (threads c)))
  | step_call t p :
      threads c !! t = None → is_call p →
      step c None (Config (word c) (<[t := p]> (threads c))).

Definition steps : config → list (nat * outcome) → config → Prop := run step.

(** The errors recorded in a run. *)
Definition errors (tr : list (nat * outcome)) : list Z := omap (λ x, o_set x.2) tr.

(** ** The three parts of a word *)

Definition parts (c : Z) (s : bool) (e : Z) : Z :=
  c * 2 ^ (ERRSEQ_SHIFT + 1) + Z.b2z s * 2 ^ ERRSEQ_SHIFT + e.
Definition counters : Z := 2 ^ (31 - ERRSEQ_SHIFT).
Definition parts_ok (c e : Z) : Prop := 0 ≤ c < counters ∧ 0 ≤ e ≤ MAX_ERRNO.

Lemma shift_spec : 0 < ERRSEQ_SHIFT < 31 ∧ MAX_ERRNO = 2 ^ ERRSEQ_SHIFT - 1.
Proof.
  destruct max_errno_mask as (n & Hn & E). unfold ERRSEQ_SHIFT.
  replace (MAX_ERRNO + 1) with (2 ^ n) by lia. rewrite Z.log2_pow2 by lia. done.
Qed.

Lemma pow_S n : 0 ≤ n → 2 ^ (n + 1) = 2 * 2 ^ n.
Proof. intros. rewrite Z.add_1_r. by apply Z.pow_succ_r. Qed.

Lemma counters_pow : counters * 2 ^ (ERRSEQ_SHIFT + 1) = 2 ^ 32.
Proof.
  destruct shift_spec as [Hk _]. unfold counters. rewrite <-Z.pow_add_r by lia. f_equal. lia.
Qed.

Lemma parts_low c s e : parts_ok c e →
  parts c s e mod 2 ^ (ERRSEQ_SHIFT + 1) = Z.b2z s * 2 ^ ERRSEQ_SHIFT + e ∧
  parts c s e / 2 ^ (ERRSEQ_SHIFT + 1) = c.
Proof.
  intros [Hc He]. destruct shift_spec as [Hk Hm].
  assert (2 ^ (ERRSEQ_SHIFT + 1) = 2 * 2 ^ ERRSEQ_SHIFT) by (apply pow_S; lia).
  assert (0 ≤ Z.b2z s * 2 ^ ERRSEQ_SHIFT + e < 2 ^ (ERRSEQ_SHIFT + 1)) by (destruct s; simpl; lia).
  unfold parts. split; symmetry.
  - apply (Z.mod_unique_pos _ _ c); lia.
  - apply (Z.div_unique_pos _ _ _ (Z.b2z s * 2 ^ ERRSEQ_SHIFT + e)); lia.
Qed.

Lemma parts_inj c s e c' s' e' : parts_ok c e → parts_ok c' e' →
  parts c s e = parts c' s' e' → c = c' ∧ s = s' ∧ e = e'.
Proof.
  intros H1 H2 E. pose proof (parts_low c s e H1) as [L1 D1].
  pose proof (parts_low c' s' e' H2) as [L2 D2].
  rewrite E in L1, D1. destruct shift_spec as [Hk Hm], H1, H2.
  destruct s, s'; simpl in *; split_and!; lia || done.
Qed.

Lemma parts_split w : 0 ≤ w < 2 ^ 32 → ∃ c s e, parts_ok c e ∧ w = parts c s e.
Proof.
  intros Hw. destruct shift_spec as [Hk Hm]. pose proof counters_pow as Hc.
  assert (E : 2 ^ (ERRSEQ_SHIFT + 1) = 2 * 2 ^ ERRSEQ_SHIFT) by (apply pow_S; lia).
  pose proof (Z.div_mod w (2 ^ (ERRSEQ_SHIFT + 1))) as D.
  pose proof (Z.mod_pos_bound w (2 ^ (ERRSEQ_SHIFT + 1))) as M.
  set (l := w mod 2 ^ (ERRSEQ_SHIFT + 1)) in *. set (q := w / 2 ^ (ERRSEQ_SHIFT + 1)) in *.
  assert (0 ≤ q < counters) by (split; [|apply Z.div_lt_upper_bound]; subst q;
    try apply Z.div_pos; lia).
  exists q, (2 ^ ERRSEQ_SHIFT <=? l), (l - Z.b2z (2 ^ ERRSEQ_SHIFT <=? l) * 2 ^ ERRSEQ_SHIFT).
  unfold parts_ok, parts. destruct (Z.leb_spec (2 ^ ERRSEQ_SHIFT) l); simpl; split_and!; lia.
Qed.

Lemma parts_range c s e : parts_ok c e → 0 ≤ parts c s e < 2 ^ 32.
Proof.
  intros [Hc He]. destruct shift_spec as [Hk Hm]. pose proof counters_pow as Hp.
  assert (E : 2 ^ (ERRSEQ_SHIFT + 1) = 2 * 2 ^ ERRSEQ_SHIFT) by (apply pow_S; lia).
  unfold parts. destruct s; simpl; nia.
Qed.

Lemma parts_lor c s e : parts_ok c e → Z.lor (parts c s e) ERRSEQ_SEEN = parts c true e.
Proof.
  intros [Hc He]. destruct shift_spec as [Hk Hm]. unfold ERRSEQ_SEEN, parts.
  rewrite Z.shiftl_1_l, pow_S by lia.
  replace (c * (2 * 2 ^ ERRSEQ_SHIFT) + Z.b2z s * 2 ^ ERRSEQ_SHIFT + e)
    with ((2 * c + Z.b2z s) * 2 ^ ERRSEQ_SHIFT + e) by lia.
  rewrite <-lor_disjoint by lia. rewrite <-Z.lor_assoc, (Z.lor_comm e), Z.lor_assoc.
  rewrite <-(Z.mul_1_l (2 ^ ERRSEQ_SHIFT)) at 2.
  rewrite <-!Z.shiftl_mul_pow2, <-Z.shiftl_lor, !Z.shiftl_mul_pow2 by lia.
  rewrite lor_disjoint by lia.
  replace (Z.lor (2 * c + Z.b2z s) 1) with (2 * c + 1) by (destruct s, c; done || lia).
  simpl. lia.
Qed.

Lemma parts_error c s e : parts_ok c e → error_of (parts c s e) = - e.
Proof.
  intros [Hc He]. destruct shift_spec as [Hk Hm]. unfold error_of. f_equal.
  replace MAX_ERRNO with (Z.ones ERRSEQ_SHIFT) by (rewrite Z.ones_equiv; lia).
  rewrite Z.land_ones by lia. unfold parts.
  rewrite pow_S by lia. symmetry. apply (Z.mod_unique_pos _ _ (2 * c + Z.b2z s)); lia.
Qed.

Lemma parts_seen c s e : parts_ok c e → is_seen (parts c s e) = s.
Proof.
  intros [Hc He]. destruct shift_spec as [Hk Hm]. unfold is_seen, ERRSEQ_SEEN.
  rewrite Z.shiftl_1_l, land_pow2_testbit, negb_involutive by lia.
  apply Z.b2z_inj. rewrite Z.testbit_spec' by lia. unfold parts. rewrite pow_S by lia.
  replace (_ / _) with (2 * c + Z.b2z s); [symmetry; apply (Z.mod_unique_pos _ _ c)|
    apply (Z.div_unique_pos _ _ _ e)]; destruct s; simpl; lia.
Qed.

Lemma parts_set c s e err : parts_ok c e → - MAX_ERRNO ≤ err < 0 →
  set_new (parts c s e) err = parts ((c + Z.b2z s) mod counters) false (- err).
Proof.
  intros Hok He. destruct shift_spec as [Hk Hm]. pose proof counters_pow as Hp.
  assert (E : 2 ^ (ERRSEQ_SHIFT + 1) = 2 * 2 ^ ERRSEQ_SHIFT) by (apply pow_S; lia).
  unfold set_new. rewrite parts_seen by done. unfold ERRSEQ_SEEN, ERRSEQ_CTR_INC.
  rewrite !Z.shiftl_1_l.
  replace (Z.lor MAX_ERRNO (2 ^ ERRSEQ_SHIFT)) with (Z.ones (ERRSEQ_SHIFT + 1)).
  2:{ rewrite Z.lor_comm, <-(Z.mul_1_l (2 ^ ERRSEQ_SHIFT)), lor_disjoint, Z.ones_equiv; lia. }
  rewrite <-Z.ldiff_land, Z.ldiff_ones_r, Z.shiftl_mul_pow2, Z.shiftr_div_pow2 by lia.
  destruct (parts_low c s e Hok) as [_ ->]. destruct Hok as [Hc _].
  rewrite lor_disjoint by lia. unfold parts, w32, wrap. destruct s; simpl Z.b2z.
  - pose proof (Z.div_mod (c + 1) counters) as D.
    pose proof (Z.mod_pos_bound (c + 1) counters) as M.
    symmetry. apply (Z.mod_unique_pos _ _ ((c + 1) / counters)); nia.
  - rewrite Z.add_0_r, Z.mod_small by lia. lia.
Qed.

Lemma set_ok c s : 0 ≤ c → 0 ≤ (c + Z.b2z s) mod counters < counters.
Proof.
  intros. apply Z.mod_pos_bound. unfold counters. destruct shift_spec. apply Z.pow_pos_nonneg; lia.
Qed.

Lemma bad_error_spec err : - 2 ^ 31 ≤ err < 2 ^ 31 →
  bad_error err = false ↔ - MAX_ERRNO ≤ err < 0.
Proof.
  intros He. destruct shift_spec as [Hk Hm].
  assert (2 ^ ERRSEQ_SHIFT < 2 ^ 31) by (apply Z.pow_lt_mono_r; lia).
  unfold bad_error, w32, wrap. rewrite orb_false_iff, Z.eqb_neq, Z.ltb_ge.
  destruct (Z.lt_ge_cases 0 err).
  - replace (- err mod 2 ^ 32) with (2 ^ 32 - err); [lia|].
    apply (Z.mod_unique_pos _ _ (-1)); lia.
  - rewrite Z.mod_small by lia. lia.
Qed.

(** ** Every call takes effect at one step *)

Definition in_range (w : Z) : Prop := 0 ≤ w < 2 ^ 32.
Definition good (err : Z) : Prop := - MAX_ERRNO ≤ err < 0.

Definition pc_ok (p : pc) : Prop :=
  match p with
  | SetTry err old new => in_range old ∧ good err ∧ new = set_new old err
  | AdvanceTry old new => in_range old ∧ new = Z.lor old ERRSEQ_SEEN
  | _ => is_call p
  end.

(** What a subscriber holds after a look at the word [w]: the word itself, seen, or 0,
    and then an error in the word counts as new. *)
Definition looked (w s base : Z) : Prop :=
  (is_seen s = true ∧ w = s ∧ base = 0) ∨ (s = 0 ∧ base = error_of w).

Record outcome_ok (w : Z) (out : outcome) : Prop := {
  ok_pc : ∀ q, o_pc out = Some q → pc_ok q;
  ok_word : match o_set out with
            | Some err => good err ∧ o_word out = set_new w err
            | None => o_word out = w ∨ o_word out = Z.lor w ERRSEQ_SEEN
            end;
  ok_sample : ∀ s, o_ret out = Some (RSample s) →
    looked (o_word out) s (if is_seen w then 0 else error_of w);
  ok_advance : ∀ r s, o_ret out = Some (RAdvance r s) → o_beaten out = false →
    looked (o_word out) s 0;
}.

Lemma set_new_same old err : in_range old → good err →
  set_new (set_new old err) err = set_new old err.
Proof.
  intros (c & s & e & Hok & ->)%parts_split He. rewrite parts_set by done.
  destruct (set_ok c s) as [Hc1 Hc2]; [apply Hok|].
  rewrite parts_set; [|split; [lia|unfold good in He; lia]|done]. simpl.
  by rewrite Z.add_0_r, Z.mod_small by lia.
Qed.

Lemma lor_seen w : in_range w → is_seen (Z.lor w ERRSEQ_SEEN) = true.
Proof. intros (c & s & e & Hok & ->)%parts_split. rewrite parts_lor by done. by apply parts_seen. Qed.

Lemma set_test_ok err w : in_range w → good err → outcome_ok w (set_test err w w).
Proof.
  intros Hw He. unfold set_test. destruct (Z.eqb_spec (set_new w err) w) as [E|E].
  - split; simpl; [done|by rewrite E|done..].
  - split; simpl; [|by left|done..]. intros q [= <-]. done.
Qed.

Lemma advance_ok p w out : pc_ok p → in_range w →
  errseq_check_and_advance p w = Some out → outcome_ok w out.
Proof.
  intros Hp Hw E. destruct p as [| | | |since|old new]; try done; simpl in *.
  - destruct (Z.eqb_spec w since) as [<-|Hne]; simpl in *.
    { simplify_eq. split; simpl; [done|by left|done|]. intros r s [= <- <-] _.
      destruct Hp as [->|Hs]; [right|by left]. done. }
    destruct (Z.eqb_spec (Z.lor w ERRSEQ_SEEN) w) as [E'|E']; simpl in *; simplify_eq.
    + split; simpl; [done|by left|done|]. intros r s [= <- <-] _. left.
      split_and!; [by apply lor_seen|done..].
    + split; simpl; [|by left|done..]. intros q [= <-]. done.
  - destruct Hp as [Ho ->]. simplify_eq. destruct (Z.eqb_spec w old) as [->|Hne]; simpl.
    + split; simpl; [done|by right|done|]. intros r s [= <- <-] _. left.
      split_and!; [by apply lor_seen|done..].
    + split; simpl; [done|by left|done..].
Qed.

Lemma thread_step_atomic p w out : pc_ok p → in_range w →
  thread_step p w = Some out → outcome_ok w out.
Proof.
  intros Hp Hw E.
  destruct p as [err|err old new| | | |]; simpl in E; [| | | |by eapply advance_ok..].
  - destruct (bad_error err) eqn:B; simplify_eq.
    + split; simpl; [done|by left|done..].
    + apply set_test_ok; [done|]. by apply bad_error_spec.
  - destruct Hp as (Ho & He & ->). destruct (Z.eqb_spec w old) as [->|Hne]; simpl in *.
    { simplify_eq. by split; simpl. }
    destruct (Z.eqb_spec w (set_new old err)) as [->|Hne']; simplify_eq.
    + split; simpl; [done| |done..]. by rewrite set_new_same.
    + by apply set_test_ok.
  - simplify_eq. split; simpl; [done|by left| |done]. intros s [= <-].
    unfold errseq_sample. destruct (is_seen w) eqn:S; simpl; [by left|by right].
  - simplify_eq. split; simpl; [done|by left|done..].
Qed.

Lemma set_new_range w err : in_range w → good err → in_range (set_new w err).
Proof.
  intros (c & s & e & Hok & ->)%parts_split He. rewrite parts_set by done.
  apply parts_range. split; [apply set_ok, Hok|unfold good in He; lia].
Qed.

Lemma lor_seen_range w : in_range w → in_range (Z.lor w ERRSEQ_SEEN).
Proof. intros (c & s & e & Hok & ->)%parts_split. rewrite parts_lor by done. by apply parts_range. Qed.

Definition config_ok (c : config) : Prop :=
  in_range (word c) ∧ map_Forall (λ _ p, pc_ok p) (threads c).

Lemma step_ok c x c' : config_ok c → step c x c' →
  config_ok c' ∧ (∀ t out, x = Some (t, out) → outcome_ok (word c) out ∧ word c' = o_word out) ∧
  (x = None → word c' = word c).
Proof.
  intros [Hw Hp] Hs. destruct Hs as [t p out Ht Hs|t p Ht Hc].
  - pose proof (thread_step_atomic p (word c) out (Hp _ _ Ht) Hw Hs) as Ho.
    split; [|by split; [intros ?? [= <- <-]|]]. destruct Ho as [Hq Hword _ _]. split; simpl.
    + destruct (o_set out); [destruct Hword as [? ->]; by apply set_new_range|].
      destruct Hword as [->| ->]; [done|by apply lor_seen_range].
    + unfold put_pc. destruct (o_pc out); [|by apply map_Forall_delete].
      apply map_Forall_insert_2; [by apply Hq|done].
  - split; [|by split]. split; [done|]. simpl. apply map_Forall_insert_2; [|done].
    by destruct p.
Qed.

Lemma steps_ok c tr c' : config_ok c → steps c tr c' → config_ok c'.
Proof. intros Hc. apply (run_invariant _ config_ok); [|done]. intros. by eapply step_ok. Qed.

(** ** What a subscriber is told *)

Definition counter_of (w : Z) : Z := w / 2 ^ (ERRSEQ_SHIFT + 1).

Lemma counter_range w : in_range w → 0 ≤ counter_of w < counters.
Proof.
  intros (c & s & e & Hok & ->)%parts_split. unfold counter_of.
  destruct (parts_low c s e Hok) as [_ ->]. apply Hok.
Qed.

Lemma set_new_view w err : in_range w → good err →
  counter_of (set_new w err) = (counter_of w + Z.b2z (is_seen w)) mod counters ∧
  error_of (set_new w err) = err.
Proof.
  intros (c & s & e & Hok & ->)%parts_split He. rewrite parts_set, parts_seen by done.
  assert (Hok' : parts_ok ((c + Z.b2z s) mod counters) (- err))
    by (split; [apply set_ok, Hok|unfold good in He; lia]).
  rewrite parts_error by done. unfold counter_of.
  destruct (parts_low c s e Hok) as [_ ->], (parts_low _ false _ Hok') as [_ ->]. lia.
Qed.

Lemma lor_seen_view w : in_range w →
  counter_of (Z.lor w ERRSEQ_SEEN) = counter_of w ∧ error_of (Z.lor w ERRSEQ_SEEN) = error_of w.
Proof.
  intros (c & s & e & Hok & ->)%parts_split. rewrite parts_lor, !parts_error by done.
  unfold counter_of. by destruct (parts_low c s e Hok) as [_ ->], (parts_low c true e Hok) as [_ ->].
Qed.

Lemma lor_seen_id w : in_range w → is_seen w = true → Z.lor w ERRSEQ_SEEN = w.
Proof.
  intros (c & s & e & Hok & ->)%parts_split. rewrite parts_seen by done. intros ->.
  by apply parts_lor.
Qed.

(** The word after the errors [es], for a subscriber that looked at [w1] and holds [s]. *)
Definition word_since (w1 s : Z) (es : list Z) (w : Z) : Prop :=
  match last es with
  | None => w = w1 ∨ w = Z.lor w1 ERRSEQ_SEEN
  | Some err =>
      good err ∧ error_of w = err ∧
      (is_seen s = true →
       ∃ d, 1 ≤ d ≤ zlen es ∧ counter_of w = (counter_of s + d) mod counters)
  end.

Lemma word_since_seen w1 s es w : in_range w1 → in_range w →
  word_since w1 s es w → word_since w1 s es (Z.lor w ERRSEQ_SEEN).
Proof.
  intros Hw1 Hw. unfold word_since. destruct (lor_seen_view w Hw) as [-> ->].
  destruct (last es); [done|]. intros [->| ->]; right; [done|].
  apply lor_seen_id; [by apply lor_seen_range|by apply lor_seen].
Qed.

Lemma word_since_set w1 s base es w err : in_range w1 → in_range w → good err →
  looked w1 s base → word_since w1 s es w → word_since w1 s (es ++ [err]) (set_new w err).
Proof.
  intros Hw1 Hw He Hl. unfold word_since. rewrite last_snoc.
  destruct (set_new_view w err Hw He) as [Hc Hr]. intros Hs. split_and!; [done..|].
  intros Hseen. destruct Hl as [(_ & -> & _)|[-> _]]; [|done].
  rewrite Hc, zlen_app. change (zlen [err]) with 1. pose proof (zlen_nonneg es).
  destruct (last es) as [e|].
  - destruct Hs as (_ & _ & (d & Hd & ->)); [done|].
    exists (d + Z.b2z (is_seen w)). split; [destruct (is_seen w); simpl; lia|].
    by rewrite Zplus_mod_idemp_l, Z.add_assoc.
  - exists 1. split; [lia|].
    assert (w = s) as -> by (destruct Hs as [->| ->]; [done|by apply lor_seen_id]).
    by rewrite Hseen.
Qed.

Lemma steps_since c1 s base tr c2 : config_ok c1 → looked (word c1) s base →
  steps c1 tr c2 → word_since (word c1) s (errors tr) (word c2).
Proof.
  intros Hc Hl. induction 1 as [|tr c x c' Hss IH Hs]; [by left|].
  assert (config_ok c) as Hc' by (by eapply steps_ok).
  destruct (step_ok _ _ _ Hc' Hs) as (_ & Ho & Hn). unfold errors. rewrite omap_app.
  destruct x as [[t out]|]; simpl; [|rewrite app_nil_r; by rewrite Hn].
  destruct (Ho t out eq_refl) as [[_ Hw _ _] ->].
  destruct (o_set out) as [err|]; simpl.
  - destruct Hw as [He ->]. eapply word_since_set; [apply Hc|apply Hc'|done..].
  - rewrite app_nil_r. destruct Hw as [->| ->]; [done|].
    apply word_since_seen; [apply Hc|apply Hc'|done].
Qed.

Lemma looked_check w1 s base es w : in_range w1 → in_range w → zlen es < counters →
  looked w1 s base → word_since w1 s es w →
  errseq_check w s = default base (last es).
Proof.
  intros Hw1 Hw Hn Hl Hs. unfold word_since in Hs. unfold errseq_check.
  destruct (last es) as [e|] eqn:El; simpl.
  - destruct Hs as (He & Hr & Hc). destruct (Z.eqb_spec w s) as [->|]; [|done].
    destruct Hl as [(Hseen & -> & _)|[-> _]].
    + destruct (Hc Hseen) as (d & Hd & E). exfalso. pose proof (counter_range s Hw) as Hr'.
      destruct (Z.lt_ge_cases (counter_of s + d) counters).
      * rewrite Z.mod_small in E by lia. lia.
      * rewrite <-(Z.mod_unique_pos (counter_of s + d) counters 1
          (counter_of s + d - counters)) in E by lia. lia.
    + unfold good in He. change (error_of 0) with (- 0) in Hr. lia.
  - destruct Hl as [(Hseen & -> & ->)|[-> ->]].
    + assert (w = s) as -> by (destruct Hs as [->| ->]; [done|by apply lor_seen_id]).
      by rewrite Z.eqb_refl.
    + assert (E : error_of w = error_of w1)
        by (destruct Hs as [->| ->]; [done|by apply lor_seen_view]).
      destruct (Z.eqb_spec w 0) as [->|]; [by rewrite <-E|done].
Qed.

Lemma start_ok : config_ok (Config 0 ∅).
Proof. split; [done|]. simpl. apply map_Forall_empty. Qed.

(** C30: Under every interleaving of writers and subscribers, a subscriber that has sampled
    the word, or looked at it with [errseq_check_and_advance] without being beaten to its
    swap, is told the latest error recorded since, and told nothing if there was none: a
    value sampled while an error was unseen reports that error.  Fewer errors than the
    counter has values may come in between. *)
Theorem errseq_reports tr c t out c1 tr' c2 s :
  steps (Config 0 ∅) tr c → step c (Some (t, out)) c1 → steps c1 tr' c2 →
  zlen (errors tr') < 2 ^ (31 - ERRSEQ_SHIFT) →
  (o_ret out = Some (RSample s) →
     errseq_check (word c2) s =
       default (if is_seen (word c) then 0 else error_of (word c)) (last (errors tr'))) ∧
  (∀ r, o_ret out = Some (RAdvance r s) → o_beaten out = false →
     errseq_check (word c2) s = default 0 (last (errors tr'))).
Proof.
  intros Hs1 Hs Hs2 Hn.
  pose proof (steps_ok _ _ _ start_ok Hs1) as Hc.
  destruct (step_ok _ _ _ Hc Hs) as (Hc1 & Ho & _). pose proof (steps_ok _ _ _ Hc1 Hs2) as Hc2.
  destruct (Ho t out eq_refl) as [[_ _ Hsam Hadv] Hw]. rewrite <-Hw in *.
  assert (L : ∀ base, looked (word c1) s base →
    errseq_check (word c2) s = default base (last (errors tr'))).
  { intros base Hl. eapply looked_check; [apply Hc1|apply Hc2|done|done|].
    by eapply steps_since. }
  split; [intros E; by apply L, Hsam|intros r E B; by eapply L, Hadv].
Qed.

(** ** Schedules *)

#[local] Instance is_call_dec p : Decision (is_call p).
Proof. destruct p; try apply _; unfold is_call, sampled; apply _. Defined.

Inductive move := Run (t : nat) | Call (t : nat) (p : pc).

Definition carry_out (mv : move) (c : config) : option (option (nat * outcome) * config) :=
  match mv with
  | Run t =>
      p ← threads c !! t;
      out ← thread_step p (word c);
      Some (Some (t, out), Config (o_word out) (put_pc t (o_pc out) (threads c)))
  | Call t p =>
      if decide (threads c !! t = None ∧ is_call p)
      then Some (None, Config (word c) (<[t := p]> (threads c))) else None
  end.

Lemma carry_out_step mv c x c' : carry_out mv c = Some (x, c') → step c x c'.
Proof.
  destruct mv as [t|t p]; simpl.
  - destruct (threads c !! t) as [p|] eqn:Ht; [|done]. simpl.
    destruct (thread_step p (word c)) eqn:Hs; [|done]. intros [= <- <-]. by econstructor.
  - case_decide as D; [|done]. intros [= <- <-]. destruct D. by constructor.
Qed.

#[local] Instance schedule : Schedule step move :=
  {| do_move := carry_out; do_move_step := carry_out_step |}.

Definition run_moves : list move → config → list (nat * outcome) * config := run_of step.

Lemma run_moves_steps mvs c : steps c (run_moves mvs c).1 (run_moves mvs c).2.
Proof. apply run_of_run. Qed.

Definition set_moves (t : nat) (err : Z) : list move := [Call t (SetRead err); Run t; Run t].
Definition look_moves (t : nat) (since : Z) : list move := [Call t (AdvanceRead since); Run t; Run t].

End errseq.

#[local] Instance errno_4095 : ErrHeader.
Proof. exists 4095. by exists 12. Defined.

Definition after_moves (mvs : list move) : config := (run_moves mvs (Config 0 ∅)).2.

(** An error is set; subscriber 2 looks; two more errors are set, and seen by 3. *)
Definition before_look : list move := set_moves 1 (-5) ++ [Call 2 (AdvanceRead 0); Run 2].

Lemma errseq_reports_witness :
  ∃ out c1 c2, step (after_moves before_look) (Some (2%nat, out)) c1 ∧
    o_ret out = Some (RAdvance (-5) 4101) ∧ errseq_check (word c2) 4101 = -5 ∧
    word c2 = 12293.
Proof.
  set (c := after_moves before_look).
  pose proof (run_moves_steps before_look (Config 0 ∅)) as H1.
  assert (H2 : ∃ out c1, step c (Some (2%nat, out)) c1 ∧ o_ret out = Some (RAdvance (-5) 4101) ∧
    o_beaten out = false ∧ word c1 = 4101 ∧ c1 = (run_moves [Run 2] c).2).
  { eexists _, _. split; [|split_and!]; [apply (carry_out_step (Run 2) c)| | | |];
      vm_compute; reflexivity. }
  destruct H2 as (out & c1 & H2 & E1 & E2 & _ & E3).
  set (mvs := set_moves 1 (-28) ++ set_moves 1 (-5) ++ look_moves 3 0).
  pose proof (run_moves_steps mvs c1) as H3.
  destruct (errseq_reports _ c 2 out c1 _ _ 4101 H1 H2 H3) as [_ R].
  { subst c1. vm_compute. reflexivity. }
  exists out, c1, (run_moves mvs c1).2. split_and!; [done|done| |subst c1; vm_compute; reflexivity].
  rewrite (R (-5) E1 E2). subst c1. vm_compute. reflexivity.
Defined.

(** C31: It matters whether a writer came between the two accesses of
    [errseq_check_and_advance].  Subscriber 2 has read the error -5 when a writer sets -28;
    its swap fails, and it keeps the value for a -5 that is seen.  After it has returned, a
    writer sets -5 again, and subscriber 3 looks at the word.  Now subscriber 2 is told that
    there was no error. *)
Theorem errseq_beaten_misses :
  ∃ tr c out c1 tr' c2,
    steps (Config 0 ∅) tr c ∧ step c (Some (2%nat, out)) c1 ∧ steps c1 tr' c2 ∧
    o_ret out = Some (RAdvance (-5) 4101) ∧ o_beaten out = true ∧
    errors tr = [-5; -28] ∧ errors tr' = [-5] ∧ errseq_check (word c2) 4101 = 0.
Proof.
  set (mvs := before_look ++ set_moves 1 (-28)).
  set (c := after_moves mvs). set (c1 := (run_moves [Run 2] c).2).
  set (mvs' := set_moves 1 (-5) ++ look_moves 3 0).
  exists (run_moves mvs (Config 0 ∅)).1, c. eexists _, c1.
  exists (run_moves mvs' c1).1, (run_moves mvs' c1).2. split_and!; try apply run_moves_steps.
  { apply (carry_out_step (Run 2) c). vm_compute. reflexivity. }
  all: vm_compute; reflexivity.
Qed.

End KErrseq.
