(* ===== verification/KPacking.v ===== *)
(** * Packed bit fields, [lib/packing.c]

    [packing] writes a number of up to 64 bits into a field of a buffer of bytes, or reads
    it back.  The buffer is seen as one number in big-endian order, and three quirks say
    how the hardware departs from it: bytes mirrored within words, words in reverse order,
    bits mirrored within bytes.  [logical_bytes] and [byte_bit] state that order from the
    quirks alone, without the addresses that the code computes.

    A shift by a negative number, or by the width of the type or more, and an access
    outside the buffer are undefined behaviour, [None]. *)
From stdpp Require Import base numbers list.
From S2P Require Import Prelude Ctype KString KStrtox.
Import KString KStrtox.

Module KPacking.
Local Open Scope Z_scope.

(** The masks of [linux/bits.h]. *)
Class BitsHeader := {
  BIT : Z → Z;
  BIT_spec n : 0 ≤ n < 64 → BIT n = 2 ^ n;
  GENMASK_ULL : Z → Z → Z;
  GENMASK_ULL_spec h l i : 0 ≤ l ≤ h → h < 64 → 0 ≤ i →
    Z.testbit (GENMASK_ULL h l) i = (l <=? i) && (i <=? h);
}.

Inductive packing_op := PACK | UNPACK.

(** Shifts of a [u64]. *)
Definition shl64 (x n : Z) : option Z :=
  if (0 <=? n) && (n <? 64) then Some (w64 (Z.shiftl x n)) else None.
Definition shr64 (x n : Z) : option Z :=
  if (0 <=? n) && (n <? 64) then Some (Z.shiftr x n) else None.

(** [((u8 * )pbuf)[i]], read and written. *)
Definition get_u8 (buf : bytes) (i : Z) : option Z := if i <? 0 then None else buf !! Z.to_nat i.
Definition put_u8 (buf : bytes) (i b : Z) : bytes := <[Z.to_nat i := b]> buf.

Definition get_le_offset (offset : Z) : Z :=
  let closest_multiple_of_4 := Z.quot offset 4 * 4 in
  let offset := offset - closest_multiple_of_4 in
  closest_multiple_of_4 + (3 - offset).

Definition get_reverse_lsw32_offset (offset len : Z) : Z :=
  let word_index := Z.quot offset 4 in
  let closest_multiple_of_4 := word_index * 4 in
  let offset := offset - closest_multiple_of_4 in
  let word_index := signed 32 (len / 4 - word_index - 1) in
  word_index * 4 + offset.

Fixpoint reverse_bits_loop (n : nat) (i width val new_val : Z) : Z :=
  match n with
  | O => new_val
  | S n =>
      let bit := if Z.land val (Z.shiftl 1 i) =? 0 then 0 else 1 in
      let new_val := Z.lor new_val (Z.shiftl bit (width - i - 1)) in
      reverse_bits_loop n (i + 1) width val new_val
  end.

Definition bit_reverse (val width : Z) : Z := reverse_bits_loop (Z.to_nat width) 0 width val 0.

Section packing.
Context `{BitsHeader}.

Definition QUIRK_MSB_ON_THE_RIGHT : Z := BIT 0.
Definition QUIRK_LITTLE_ENDIAN : Z := BIT 1.
Definition QUIRK_LSW32_IS_FIRST : Z := BIT 2.

Definition has (quirks quirk : Z) : bool := negb (Z.land quirks quirk =? 0).

(** The new [*to_write], [*box_start_bit], [*box_end_bit] and [*box_mask]. *)
Definition adjust_for_msb_right_quirk (to_write box_start_bit box_end_bit : Z) :
    option (Z * Z * Z * Z) :=
  let box_bit_width := box_start_bit - box_end_bit + 1 in
  to_write ← shr64 to_write box_end_bit;
  let to_write := bit_reverse to_write box_bit_width in
  to_write ← shl64 to_write box_end_bit;
  let new_box_end_bit := box_bit_width - box_start_bit - 1 in
  let new_box_start_bit := box_bit_width - box_end_bit - 1 in
  Some (to_write, new_box_start_bit, new_box_end_bit,
        w8 (GENMASK_ULL new_box_start_bit new_box_end_bit)).

(** Where the box is in the buffer. *)
Definition box_addr (quirks pbuflen box : Z) : Z :=
  let box_addr := signed 32 (pbuflen - box - 1) in
  let box_addr := if has quirks QUIRK_LITTLE_ENDIAN then get_le_offset box_addr else box_addr in
  if has quirks QUIRK_LSW32_IS_FIRST then get_reverse_lsw32_offset box_addr pbuflen
  else box_addr.

(** The quirk of the bits, if it is set. *)
Definition adjust (quirks pval box_start_bit box_end_bit box_mask : Z) :
    option (Z * Z * Z * Z) :=
  if has quirks QUIRK_MSB_ON_THE_RIGHT
  then adjust_for_msb_right_quirk pval box_start_bit box_end_bit
  else Some (pval, box_start_bit, box_end_bit, box_mask).

(** A pass of the loop: one byte. *)
Definition packing_box (startbit endbit pbuflen : Z) (op : packing_op) (quirks box : Z)
    (buf : bytes) (uval : Z) : option (bytes * Z) :=
  let plogical_first_u8 := Z.quot startbit 8 in
  let plogical_last_u8 := Z.quot endbit 8 in
  let box_start_bit := if box =? plogical_first_u8 then Z.rem startbit 8 else 7 in
  let box_end_bit := if box =? plogical_last_u8 then Z.rem endbit 8 else 0 in
  let proj_start_bit := box * 8 + box_start_bit - endbit in
  let proj_end_bit := box * 8 + box_end_bit - endbit in
  let proj_mask := GENMASK_ULL proj_start_bit proj_end_bit in
  let box_mask := w8 (GENMASK_ULL box_start_bit box_end_bit) in
  let addr := box_addr quirks pbuflen box in
  b ← get_u8 buf addr;
  match op with
  | UNPACK =>
      let pval := Z.land b box_mask in
      '(pval, box_start_bit, box_end_bit, box_mask) ←
        adjust quirks pval box_start_bit box_end_bit box_mask;
      pval ← shr64 pval box_end_bit;
      pval ← shl64 pval proj_end_bit;
      let uval := Z.land uval (Z.lnot proj_mask) in
      Some (buf, Z.lor uval pval)
  | PACK =>
      let pval := Z.land uval proj_mask in
      pval ← shr64 pval proj_end_bit;
      '(pval, box_start_bit, box_end_bit, box_mask) ←
        adjust quirks pval box_start_bit box_end_bit box_mask;
      pval ← shl64 pval box_end_bit;
      let b := Z.land b (Z.lnot box_mask) in
      Some (put_u8 buf addr (w8 (Z.lor b pval)), uval)
  end.

(** [n] more passes, downwards from [box]. *)
Fixpoint packing_loop (n : nat) (startbit endbit pbuflen : Z) (op : packing_op)
    (quirks box : Z) (buf : bytes) (uval : Z) : option (bytes * Z) :=
  match n with
  | O => Some (buf, uval)
  | S n =>
      '(buf, uval) ← packing_box startbit endbit pbuflen op quirks box buf uval;
      packing_loop n startbit endbit pbuflen op quirks (box - 1) buf uval
  end.

(** The result, the buffer and [*uval]. *)
Definition packing (buf : bytes) (uval startbit endbit pbuflen : Z) (op : packing_op)
    (quirks : Z) : option (Z * bytes * Z) :=
  if startbit <? endbit then Some (- EINVAL, buf, uval)
  else
    let value_width := w64 (signed 32 (startbit - endbit + 1)) in
    if 64 <? value_width then Some (- ERANGE, buf, uval)
    else if (match op with PACK => true | UNPACK => false end) && (value_width <? 64) &&
            (Z.shiftl 1 value_width <=? uval)
    then Some (- ERANGE, buf, uval)
    else
      let uval := match op with PACK => uval | UNPACK => 0 end in
      let plogical_first_u8 := Z.quot startbit 8 in
      let plogical_last_u8 := Z.quot endbit 8 in
      '(buf, uval) ← packing_loop (Z.to_nat (plogical_first_u8 - plogical_last_u8 + 1))
         startbit endbit pbuflen op quirks plogical_first_u8 buf uval;
      Some (0, buf, uval).

End packing.

(** ** Where the bits of a field are *)

Lemma wrap_bits n x i : 0 ≤ n → 0 ≤ i → Z.testbit (wrap n x) i = (i <? n) && Z.testbit x i.
Proof.
  intros Hn Hi. unfold wrap. destruct (Z.ltb_spec i n); simpl.
  - apply Z.mod_pow2_bits_low. lia.
  - apply Z.mod_pow2_bits_high. lia.
Qed.

Lemma reverse_bits_loop_bits n i width val new_val j :
  0 ≤ i → i + Z.of_nat n = width → 0 ≤ j →
  Z.testbit (reverse_bits_loop n i width val new_val) j =
    Z.testbit new_val j || ((j <? width - i) && Z.testbit val (width - 1 - j)).
Proof.
  revert i new_val. induction n as [|n IH]; intros i new_val Hi Hw Hj; simpl.
  - rewrite (proj2 (Z.ltb_ge j (width - i))) by lia. by rewrite orb_false_r.
  - rewrite IH by lia. rewrite Z.shiftl_1_l, land_pow2_testbit, Z.lor_spec by done.
    rewrite Z.shiftl_spec by done. rewrite <-orb_assoc. f_equal.
    destruct (Z.ltb_spec j (width - (i + 1))), (Z.ltb_spec j (width - i)); try lia; simpl.
    + by rewrite (Z.testbit_neg_r _ (j - _)) by lia.
    + replace (j - (width - i - 1)) with 0 by lia. replace (width - 1 - j) with i by lia.
      by destruct (Z.testbit val i).
    + destruct (Z.testbit val i); simpl.
      * change 1 with (2 ^ 0). by rewrite Z.pow2_bits_false by lia.
      * by rewrite Z.bits_0.
Qed.

Lemma bit_reverse_bits val j : 0 ≤ j →
  Z.testbit (bit_reverse val 8) j = (j <? 8) && Z.testbit val (7 - j).
Proof. intros Hj. unfold bit_reverse. by rewrite reverse_bits_loop_bits, Z.bits_0 by lia. Qed.

Ltac decide_leb :=
  repeat match goal with
  | |- context [?a <=? ?b] =>
      first [rewrite (proj2 (Z.leb_le a b)) by lia | rewrite (proj2 (Z.leb_gt a b)) by lia]
  | |- context [?a <? ?b] =>
      first [rewrite (proj2 (Z.ltb_lt a b)) by lia | rewrite (proj2 (Z.ltb_ge a b)) by lia]
  end.

(** *** The layout of a buffer *)

(** The words of 32 bits, as they follow in memory. *)
Fixpoint words (buf : bytes) : list bytes :=
  match buf with
  | a :: b :: c :: d :: buf => [a; b; c; d] :: words buf
  | [] => []
  | rest => [rest]
  end.

Lemma words_spec n buf : length buf = (4 * n)%nat →
  length (words buf) = n ∧ Forall (λ w, length w = 4%nat) (words buf) ∧ concat (words buf) = buf.
Proof.
  revert buf. induction n as [|n IH]; intros buf Hl; [by destruct buf|].
  destruct buf as [|a [|b [|c [|d buf]]]]; simpl in Hl; try lia.
  destruct (IH buf) as (H1 & H2 & H3); [lia|]. simpl. rewrite H1, H3.
  split_and!; [done|by constructor|done].
Qed.

Lemma concat_words buf : concat (words buf) = buf.
Proof.
  assert (∀ n buf, (length buf < n)%nat → concat (words buf) = buf) as HI; [|by apply (HI (S (length buf))); lia].
  clear buf. induction n as [|n IH]; intros buf Hl; [lia|].
  destruct buf as [|a [|b [|c [|d buf]]]]; simpl in *; try done. rewrite IH by lia. done.
Qed.

(** A byte of a list of words. *)
Lemma concat_lookup4 (ws : list bytes) q r : Forall (λ w, length w = 4%nat) ws → (r < 4)%nat →
  concat ws !! (q * 4 + r)%nat = (w ← ws !! q; w !! r).
Proof.
  intros Hw Hr. revert q. induction Hw as [|w ws Hl _ IH]; intros q; [done|].
  cbn [concat]. destruct q as [|q].
  - by rewrite lookup_app_l by lia.
  - rewrite lookup_app_r by lia. rewrite Hl. cbn [lookup list_lookup]. rewrite <-IH.
    f_equal. lia.
Qed.

(** Words in reverse order, and bytes of words in reverse order. *)
Lemma concat_reverse4 (le lsw : bool) (ws : list bytes) q r :
  Forall (λ w, length w = 4%nat) ws → (q < length ws)%nat → (r < 4)%nat →
  let ws' := if lsw then reverse ws else ws in
  concat (if le then reverse <$> ws' else ws') !! (q * 4 + r)%nat =
  concat ws !! ((if lsw then length ws - 1 - q else q) * 4 + (if le then 3 - r else r))%nat.
Proof.
  intros Hw Hq Hr ws'.
  assert (Forall (λ w, length w = 4%nat) ws') as Hw' by (destruct lsw; [by apply Forall_reverse|done]).
  assert (ws' !! q = ws !! (if lsw then length ws - 1 - q else q)%nat) as Eq.
  { unfold ws'. destruct lsw; [|done]. rewrite reverse_lookup by done. f_equal. lia. }
  rewrite (concat_lookup4 ws) by (done || destruct le; lia). rewrite <-Eq. destruct le.
  - rewrite concat_lookup4; [|by apply Forall_fmap; eapply Forall_impl; [exact Hw'|]; intros w; simpl;
      rewrite length_reverse|done].
    rewrite list_lookup_fmap. destruct (ws' !! q) as [w|] eqn:E; [|done]. simpl.
    pose proof (Forall_lookup_1 _ _ _ _ Hw' E) as Hl. simpl in Hl.
    rewrite reverse_lookup by lia. f_equal. lia.
  - by rewrite concat_lookup4.
Qed.

Section fields.
Context `{BitsHeader}.

(** The bytes of a buffer as the documentation of the quirks puts them, the most
    significant one first: [QUIRK_LSW32_IS_FIRST] reverses the words,
    [QUIRK_LITTLE_ENDIAN] the bytes of each word. *)
Definition logical_bytes (quirks : Z) (buf : bytes) : bytes :=
  let ws := words buf in
  let ws := if has quirks QUIRK_LSW32_IS_FIRST then reverse ws else ws in
  let ws := if has quirks QUIRK_LITTLE_ENDIAN then reverse <$> ws else ws in
  concat ws.

(** The bit [j] of a byte, and the bit [i] of a buffer, in logical order: the bit 0 is the
    least significant one of the last logical byte. *)
Definition byte_bit (quirks b j : Z) : bool :=
  Z.testbit b (if has quirks QUIRK_MSB_ON_THE_RIGHT then 7 - j else j).
Definition logical_bit (quirks : Z) (buf : bytes) (i : Z) : bool :=
  match logical_bytes quirks buf !! Z.to_nat (zlen buf - 1 - i / 8) with
  | Some b => byte_bit quirks b (i mod 8)
  | None => false
  end.

(** The bit as the code finds it. *)
Definition addressed_bit (quirks : Z) (buf : bytes) (i : Z) : bool :=
  match get_u8 buf (box_addr quirks (zlen buf) (i / 8)) with
  | Some b => byte_bit quirks b (i mod 8)
  | None => false
  end.

(** A field inside a buffer of [len] bytes.  Quirks of words need whole words, and the
    quirk of the bits needs whole bytes. *)
Record field_ok (len startbit endbit quirks : Z) : Prop := {
  fo_range : 0 ≤ endbit ≤ startbit ∧ startbit < 8 * len ∧ startbit - endbit < 64;
  fo_len : len < 2 ^ 31;
  fo_words : has quirks QUIRK_LITTLE_ENDIAN || has quirks QUIRK_LSW32_IS_FIRST = true →
    len mod 4 = 0;
  fo_bits : has quirks QUIRK_MSB_ON_THE_RIGHT = true →
    startbit mod 8 = 7 ∧ endbit mod 8 = 0;
}.

Section field.
Context (len startbit endbit quirks : Z) (Hf : field_ok len startbit endbit quirks).

Lemma signed_fit x : - 2 ^ 31 ≤ x < 2 ^ 31 → signed 32 x = x.
Proof.
  intros Hx. symmetry. apply Z.eqb_eq. rewrite signed_fits by lia.
  apply andb_true_iff. rewrite Z.leb_le, Z.ltb_lt. exact Hx.
Qed.

Lemma le_offset_eq a : 0 ≤ a → get_le_offset a = a / 4 * 4 + (3 - a mod 4).
Proof.
  intros Ha. unfold get_le_offset. cbv zeta. rewrite Z.quot_div_nonneg by lia.
  Z.div_mod_to_equations. lia.
Qed.

Lemma lsw32_offset_eq a n : 0 ≤ a < n → n < 2 ^ 31 →
  get_reverse_lsw32_offset a n = (n / 4 - a / 4 - 1) * 4 + a mod 4.
Proof.
  intros Ha Hn. unfold get_reverse_lsw32_offset. cbv zeta. rewrite Z.quot_div_nonneg by lia.
  rewrite signed_fit by (Z.div_mod_to_equations; lia). Z.div_mod_to_equations. lia.
Qed.

Lemma box_addr_eq box : 0 ≤ box < len →
  let a := len - box - 1 in
  let a := if has quirks QUIRK_LITTLE_ENDIAN then a / 4 * 4 + (3 - a mod 4) else a in
  box_addr quirks len box =
    if has quirks QUIRK_LSW32_IS_FIRST then (len / 4 - a / 4 - 1) * 4 + a mod 4 else a.
Proof.
  intros Hb. destruct Hf as [_ Hl Hw _]. unfold box_addr. rewrite signed_fit by lia. cbv zeta.
  destruct (has quirks QUIRK_LITTLE_ENDIAN), (has quirks QUIRK_LSW32_IS_FIRST); simpl in *;
    try specialize (Hw eq_refl);
    rewrite ?le_offset_eq by lia; rewrite ?lsw32_offset_eq; [done|..];
    try done; Z.div_mod_to_equations; lia.
Qed.

Lemma box_addr_range box : 0 ≤ box < len → 0 ≤ box_addr quirks len box < len.
Proof.
  intros Hb. rewrite box_addr_eq by done. cbv zeta. destruct Hf as [_ Hl Hw _].
  destruct (has quirks QUIRK_LITTLE_ENDIAN), (has quirks QUIRK_LSW32_IS_FIRST); simpl in *;
    try specialize (Hw eq_refl); Z.div_mod_to_equations; lia.
Qed.

Lemma box_addr_inj b1 b2 : 0 ≤ b1 < len → 0 ≤ b2 < len →
  box_addr quirks len b1 = box_addr quirks len b2 → b1 = b2.
Proof.
  intros H1 H2. rewrite !box_addr_eq by done. cbv zeta. destruct Hf as [_ Hl Hw _].
  destruct (has quirks QUIRK_LITTLE_ENDIAN), (has quirks QUIRK_LSW32_IS_FIRST); simpl in *;
    try specialize (Hw eq_refl); Z.div_mod_to_equations; lia.
Qed.

(** The layout says where the code looks for a byte. *)
Lemma logical_bytes_at buf box : zlen buf = len → 0 ≤ box < len →
  logical_bytes quirks buf !! Z.to_nat (len - 1 - box) = get_u8 buf (box_addr quirks len box).
Proof.
  intros Hl Hb. unfold get_u8. pose proof (box_addr_range box Hb) as Hr.
  rewrite (proj2 (Z.ltb_ge _ _)) by lia.
  rewrite box_addr_eq in * by done. cbv zeta in *. destruct Hf as [_ _ Hw _]. unfold logical_bytes.
  replace (len - box - 1) with (len - 1 - box) in * by lia.
  destruct (has quirks QUIRK_LITTLE_ENDIAN || has quirks QUIRK_LSW32_IS_FIRST) eqn:Eq.
  2:{ apply orb_false_iff in Eq as [-> ->]. by rewrite concat_words. }
  specialize (Hw eq_refl). set (n := Z.to_nat (len / 4)).
  assert (len = 4 * Z.of_nat n) as Hn by (unfold n; Z.div_mod_to_equations; lia).
  destruct (words_spec n buf) as (Hln & Hall & Hcat); [unfold zlen in Hl; lia|].
  set (q := Z.to_nat ((len - 1 - box) / 4)). set (r := Z.to_nat ((len - 1 - box) mod 4)).
  assert (Z.of_nat q = (len - 1 - box) / 4 ∧ Z.of_nat r = (len - 1 - box) mod 4) as [Hq Hr4].
  { unfold q, r. rewrite !Z2Nat.id; [done|apply Z.mod_pos_bound|apply Z.div_pos]; lia. }
  pose proof (Z.div_mod (len - 1 - box) 4 ltac:(lia)) as Hdm.
  pose proof (Z.mod_pos_bound (len - 1 - box) 4 ltac:(lia)) as Hm. rewrite <-Hq, <-Hr4 in *.
  replace (Z.to_nat (len - 1 - box)) with (q * 4 + r)%nat by lia.
  rewrite concat_reverse4, Hcat by (done || lia). f_equal. rewrite Hln.
  destruct (has quirks QUIRK_LITTLE_ENDIAN), (has quirks QUIRK_LSW32_IS_FIRST);
    Z.div_mod_to_equations; lia.
Qed.

Lemma logical_bit_addressed buf i : zlen buf = len → 0 ≤ i < 8 * len →
  logical_bit quirks buf i = addressed_bit quirks buf i.
Proof.
  intros Hl Hi. unfold logical_bit, addressed_bit. rewrite Hl, logical_bytes_at; [done|done|].
  Z.div_mod_to_equations. lia.
Qed.

(** The bits of a box that belong to the field. *)
Definition box_start (box : Z) : Z := if box =? startbit / 8 then startbit mod 8 else 7.
Definition box_end (box : Z) : Z := if box =? endbit / 8 then endbit mod 8 else 0.
Definition in_field (i : Z) : bool := (endbit <=? i) && (i <=? startbit).

Lemma box_bits box : endbit / 8 ≤ box ≤ startbit / 8 →
  0 ≤ box < len ∧ 0 ≤ box_end box ≤ box_start box ∧ box_start box < 8 ∧
  0 ≤ box * 8 + box_end box - endbit ∧ box * 8 + box_start box - endbit < 64 ∧
  (∀ j, 0 ≤ j < 8 → in_field (8 * box + j) = (box_end box <=? j) && (j <=? box_start box)) ∧
  (has quirks QUIRK_MSB_ON_THE_RIGHT = true → box_end box = 0 ∧ box_start box = 7).
Proof.
  intros Hb. destruct Hf as [Hr _ _ Hm]. unfold box_start, box_end, in_field.
  destruct (Z.eqb_spec box (startbit / 8)), (Z.eqb_spec box (endbit / 8));
    (split_and!; [by Z.div_mod_to_equations; lia..| |intros E; destruct (Hm E); lia]);
    intros j Hj; apply eq_true_iff_eq; rewrite !andb_true_iff, !Z.leb_le;
    Z.div_mod_to_equations; lia.
Qed.

Lemma shl64_eq x n : 0 ≤ n < 64 → shl64 x n = Some (w64 (Z.shiftl x n)).
Proof. intros Hn. unfold shl64. by rewrite (proj2 (Z.leb_le _ _)), (proj2 (Z.ltb_lt _ _)) by lia. Qed.
Lemma shr64_eq x n : 0 ≤ n < 64 → shr64 x n = Some (Z.shiftr x n).
Proof. intros Hn. unfold shr64. by rewrite (proj2 (Z.leb_le _ _)), (proj2 (Z.ltb_lt _ _)) by lia. Qed.

Lemma adjust_ok pval bs be :
  (has quirks QUIRK_MSB_ON_THE_RIGHT = true → be = 0 ∧ bs = 7) →
  ∃ pval', adjust quirks pval bs be (w8 (GENMASK_ULL bs be)) =
             Some (pval', bs, be, w8 (GENMASK_ULL bs be)) ∧
    ∀ j, 0 ≤ j → Z.testbit pval' j =
      if has quirks QUIRK_MSB_ON_THE_RIGHT then (j <? 8) && Z.testbit pval (7 - j)
      else Z.testbit pval j.
Proof.
  intros Hm. unfold adjust. destruct (has quirks QUIRK_MSB_ON_THE_RIGHT); [|by eexists].
  destruct Hm as [-> ->]; [done|]. unfold adjust_for_msb_right_quirk.
  rewrite shr64_eq by lia. cbn [mbind option_bind option_ret]. rewrite shl64_eq by lia. simpl.
  eexists. split; [done|]. intros j Hj. rewrite Z.shiftl_0_r, Z.shiftr_0_r. unfold w64.
  rewrite wrap_bits, bit_reverse_bits by lia.
  destruct (Z.ltb_spec j 8), (Z.ltb_spec j 64); done || lia.
Qed.

Lemma mask_bits h l i : 0 ≤ l ≤ h → h < 8 → 0 ≤ i →
  Z.testbit (w8 (GENMASK_ULL h l)) i = (l <=? i) && (i <=? h).
Proof.
  intros Hl Hh Hi. unfold w8. rewrite wrap_bits, GENMASK_ULL_spec by lia.
  destruct (Z.ltb_spec i 8); simpl; [done|]. destruct (Z.leb_spec i h); [lia|].
  by rewrite andb_false_r.
Qed.

Lemma projection_bits uval ps pe x : 0 ≤ pe ≤ ps → ps < 64 → 0 ≤ x →
  Z.testbit (Z.shiftr (Z.land uval (GENMASK_ULL ps pe)) pe) x =
    Z.testbit uval (x + pe) && (x + pe <=? ps).
Proof.
  intros Hp Hps Hx. rewrite Z.shiftr_spec, Z.land_spec, GENMASK_ULL_spec by lia.
  by rewrite (proj2 (Z.leb_le pe _)) by lia.
Qed.

(** One byte is packed. *)
Lemma pack_box_ok box buf uval b : endbit / 8 ≤ box ≤ startbit / 8 →
  get_u8 buf (box_addr quirks len box) = Some b →
  ∃ b', packing_box startbit endbit len PACK quirks box buf uval =
          Some (put_u8 buf (box_addr quirks len box) b', uval) ∧
    is_byte b' ∧
    ∀ j, 0 ≤ j < 8 → byte_bit quirks b' j =
      if in_field (8 * box + j) then Z.testbit uval (8 * box + j - endbit)
      else byte_bit quirks b j.
Proof.
  intros Hb Hg. destruct (box_bits box Hb) as (Hbox & Hbe & Hbs & Hpe & Hps & Hin & Hm).
  destruct Hf as [Hr _ _ _]. unfold packing_box. rewrite Hg.
  rewrite !Z.quot_div_nonneg, !Z.rem_mod_nonneg by lia.
  fold (box_start box) (box_end box). set (bs := box_start box) in *. set (be := box_end box) in *.
  set (ps := box * 8 + bs - endbit) in *. set (pe := box * 8 + be - endbit) in *.
  cbn [mbind option_bind]. rewrite shr64_eq by lia. cbn [mbind option_bind].
  destruct (adjust_ok (Z.shiftr (Z.land uval (GENMASK_ULL ps pe)) pe) bs be Hm) as (pv & -> & Hpv).
  cbn [mbind option_bind]. rewrite shl64_eq by lia. cbn [mbind option_bind].
  eexists. split; [done|]. split; [unfold w8; apply wrap_range; lia|].
  intros j Hj. rewrite Hin by done. unfold byte_bit, w8, w64.
  set (m := if has quirks QUIRK_MSB_ON_THE_RIGHT then 7 - j else j).
  assert (0 ≤ m < 8) by (subst m; case_match; lia).
  rewrite wrap_bits, Z.lor_spec, Z.land_spec, Z.lnot_spec, mask_bits by lia.
  rewrite wrap_bits, Z.shiftl_spec by lia. rewrite (proj2 (Z.ltb_lt m 8)), (proj2 (Z.ltb_lt m 64)) by lia.
  simpl andb. subst m. destruct (has quirks QUIRK_MSB_ON_THE_RIGHT).
  - destruct Hm as [Ebe Ebs]; [done|]. rewrite Hpv, projection_bits by lia. decide_leb. simpl.
    rewrite andb_false_r, andb_true_r. simpl. f_equal. lia.
  - destruct (Z.lt_ge_cases j be); [|destruct (Z.le_gt_cases j bs)];
      [rewrite (Z.testbit_neg_r pv) by lia|rewrite Hpv, projection_bits by lia..]; decide_leb; simpl.
    + by rewrite andb_true_r, orb_false_r.
    + rewrite andb_false_r, andb_true_r. simpl. f_equal. lia.
    + by rewrite andb_true_r, andb_false_r, orb_false_r.
Qed.

(** One byte is unpacked. *)
Lemma unpack_box_ok box buf uval b : endbit / 8 ≤ box ≤ startbit / 8 →
  get_u8 buf (box_addr quirks len box) = Some b →
  ∃ uval', packing_box startbit endbit len UNPACK quirks box buf uval = Some (buf, uval') ∧
    ∀ k, 0 ≤ k → Z.testbit uval' k =
      if in_field (k + endbit) && ((k + endbit) / 8 =? box)
      then byte_bit quirks b ((k + endbit) mod 8) else Z.testbit uval k.
Proof.
  intros Hb Hg. destruct (box_bits box Hb) as (Hbox & Hbe & Hbs & Hpe & Hps & Hin & Hm).
  destruct Hf as [Hr _ _ _]. unfold packing_box. rewrite Hg.
  rewrite !Z.quot_div_nonneg, !Z.rem_mod_nonneg by lia.
  fold (box_start box) (box_end box). set (bs := box_start box) in *. set (be := box_end box) in *.
  set (ps := box * 8 + bs - endbit) in *. set (pe := box * 8 + be - endbit) in *.
  cbn [mbind option_bind].
  destruct (adjust_ok (Z.land b (w8 (GENMASK_ULL bs be))) bs be Hm) as (pv & -> & Hpv).
  cbn [mbind option_bind]. rewrite shr64_eq by lia. cbn [mbind option_bind].
  rewrite shl64_eq by lia. cbn [mbind option_bind].
  eexists. split; [done|]. intros k Hk. unfold byte_bit, w64.
  rewrite Z.lor_spec, Z.land_spec, Z.lnot_spec, GENMASK_ULL_spec, wrap_bits by lia.
  rewrite Z.shiftl_spec by lia.
  assert (Hsel : in_field (k + endbit) && ((k + endbit) / 8 =? box) = (pe <=? k) && (k <=? ps)).
  { destruct (Z.eqb_spec ((k + endbit) / 8) box) as [E|E].
    - pose proof (Z.div_mod (k + endbit) 8). pose proof (Z.mod_pos_bound (k + endbit) 8).
      replace (k + endbit) with (8 * box + (k + endbit) mod 8) at 1 by lia.
      rewrite Hin, andb_true_r by lia. apply eq_true_iff_eq.
      rewrite !andb_true_iff, !Z.leb_le. lia.
    - rewrite andb_false_r. symmetry. apply andb_false_iff. rewrite !Z.leb_gt.
      clear -E Hbe Hbs. Z.div_mod_to_equations. lia. }
  rewrite Hsel. destruct (Z.lt_ge_cases k pe) as [Hlt|Hge].
  { rewrite (Z.testbit_neg_r (Z.shiftr pv be)) by lia. decide_leb. simpl.
    by rewrite andb_true_r, ?andb_false_r, orb_false_r. }
  rewrite Z.shiftr_spec, Hpv by lia.
  assert (Ej : (k + endbit) mod 8 = k - pe + be ∨ ps < k).
  { destruct (Z.le_gt_cases k ps); [left|by right]. symmetry.
    apply (Z.mod_unique_pos _ _ box); lia. }
  destruct (has quirks QUIRK_MSB_ON_THE_RIGHT); [destruct Hm as [Ebe Ebs]; [done|]|];
    (destruct (Z.le_gt_cases k ps) as [Hle|Hgt]; [destruct Ej as [->|]; [|lia]|]); decide_leb; simpl;
    rewrite ?andb_false_r, ?orb_false_r, ?andb_true_r; simpl; try done;
    rewrite Z.land_spec, mask_bits by lia; decide_leb; simpl;
    by rewrite ?andb_true_r, ?andb_false_r, ?andb_false_r, ?orb_false_r.
Qed.

Lemma get_u8_lookup buf box : zlen buf = len → 0 ≤ box < len →
  ∃ b, get_u8 buf (box_addr quirks len box) = Some b.
Proof.
  intros Hl Hb. pose proof (box_addr_range box Hb). unfold get_u8.
  rewrite (proj2 (Z.ltb_ge _ _)) by lia. apply lookup_lt_is_Some_2. unfold zlen in Hl. lia.
Qed.

Lemma get_put_u8 buf b1 b2 b : zlen buf = len → 0 ≤ b1 < len → 0 ≤ b2 < len →
  get_u8 (put_u8 buf (box_addr quirks len b1) b) (box_addr quirks len b2) =
    if decide (b2 = b1) then Some b else get_u8 buf (box_addr quirks len b2).
Proof.
  intros Hl H1 H2. pose proof (box_addr_range b1 H1). pose proof (box_addr_range b2 H2).
  unfold get_u8, put_u8. rewrite (proj2 (Z.ltb_ge _ _)) by lia. case_decide as D.
  - subst. apply list_lookup_insert_eq. unfold zlen in *. lia.
  - apply list_lookup_insert_ne. intros E. apply D, box_addr_inj; lia.
Qed.

Lemma pack_loop_ok n box buf uval :
  zlen buf = len → Forall is_byte buf → box ≤ startbit / 8 →
  Z.of_nat n = box - endbit / 8 + 1 →
  ∃ buf', packing_loop n startbit endbit len PACK quirks box buf uval = Some (buf', uval) ∧
    zlen buf' = len ∧ Forall is_byte buf' ∧
    ∀ i, 0 ≤ i < 8 * len → addressed_bit quirks buf' i =
      if in_field i && (i / 8 <=? box) then Z.testbit uval (i - endbit)
      else addressed_bit quirks buf i.
Proof.
  revert box buf. induction n as [|n IH]; intros box buf Hl Hbytes Hbox Hn; simpl.
  { exists buf. split_and!; [done..|]. intros i Hi. unfold in_field.
    destruct (Z.leb_spec endbit i); simpl; [|done].
    rewrite (proj2 (Z.leb_gt (i / 8) box)); [by rewrite andb_false_r|].
    assert (endbit / 8 ≤ i / 8) by (apply Z.div_le_mono; lia). lia. }
  assert (Hb : 0 ≤ box < len) by (apply (box_bits box); lia).
  destruct (get_u8_lookup buf box Hl Hb) as [b Hg].
  destruct (pack_box_ok box buf uval b) as (b' & -> & Hb' & Hbits); [lia|done|]. simpl.
  destruct (IH (box - 1) (put_u8 buf (box_addr quirks len box) b')) as (buf' & -> & Hl' & Hby & Hall).
  { unfold zlen, put_u8 in *. by rewrite length_insert. }
  { by apply Forall_insert. }
  { lia. }
  { lia. }
  exists buf'. split_and!; [done..|]. intros i Hi. rewrite Hall by done.
  unfold addressed_bit. rewrite Hl. unfold put_u8, zlen. rewrite length_insert. fold (zlen buf).
  fold (put_u8 buf (box_addr quirks len box) b'). rewrite Hl.
  rewrite get_put_u8 by (done || (Z.div_mod_to_equations; lia)). case_decide as D.
  - subst box. rewrite (proj2 (Z.leb_gt _ _)), (proj2 (Z.leb_le (i / 8) _)) by lia.
    rewrite andb_false_r, andb_true_r, Hg, Hbits by (apply Z.mod_pos_bound; lia).
    by rewrite <-Z.div_mod by lia.
  - destruct (Z.leb_spec (i / 8) (box - 1)), (Z.leb_spec (i / 8) box); done || lia.
Qed.

Lemma unpack_loop_ok n box buf uval :
  zlen buf = len → box ≤ startbit / 8 → Z.of_nat n = box - endbit / 8 + 1 →
  ∃ uval', packing_loop n startbit endbit len UNPACK quirks box buf uval = Some (buf, uval') ∧
    ∀ k, 0 ≤ k → Z.testbit uval' k =
      if in_field (k + endbit) && ((k + endbit) / 8 <=? box)
      then addressed_bit quirks buf (k + endbit) else Z.testbit uval k.
Proof.
  revert box uval. induction n as [|n IH]; intros box uval Hl Hbox Hn; simpl.
  { exists uval. split; [done|]. intros k Hk.
    rewrite (proj2 (Z.leb_gt _ box)); [by rewrite andb_false_r|].
    assert (endbit / 8 ≤ (k + endbit) / 8) by (apply Z.div_le_mono; lia). lia. }
  assert (Hb : 0 ≤ box < len) by (apply (box_bits box); lia).
  destruct (get_u8_lookup buf box Hl Hb) as [b Hg].
  destruct (unpack_box_ok box buf uval b) as (u1 & -> & Hbits); [lia|done|]. simpl.
  destruct (IH (box - 1) u1) as (u2 & -> & Hall); [done|lia|lia|].
  exists u2. split; [done|]. intros k Hk. rewrite Hall, Hbits by done.
  unfold addressed_bit. rewrite Hl.
  destruct (Z.eqb_spec ((k + endbit) / 8) box) as [->|].
  - decide_leb. rewrite andb_false_r, andb_true_r, Hg. done.
  - rewrite andb_false_r. destruct (Z.leb_spec ((k + endbit) / 8) (box - 1)),
      (Z.leb_spec ((k + endbit) / 8) box); done || lia.
Qed.

End field.

(** C32: [packing] writes exactly the field.  For a field inside the buffer, of at most 64
    bits, and a number that fits it, [PACK] succeeds; the bits of the field, in logical
    order, are then those of the number, every other bit of the buffer is as before, and
    [UNPACK] gives the number back, whatever [*uval] held.  The logical order is that of
    [logical_bytes] and [byte_bit]: the words, the bytes of each word and the bits of each
    byte are reversed as the quirks say.  The two quirks of words are restricted to
    buffers of whole words, and [QUIRK_MSB_ON_THE_RIGHT] to fields of whole bytes
    ([startbit] the bit 7 of a byte and [endbit] the bit 0 of one): for other fields that
    quirk does not work, see [packing_msb_undefined]. *)
Theorem packing_packs buf uval startbit endbit quirks :
  field_ok (zlen buf) startbit endbit quirks → Forall is_byte buf →
  0 ≤ uval < 2 ^ (startbit - endbit + 1) →
  ∃ buf', packing buf uval startbit endbit (zlen buf) PACK quirks = Some (0, buf', uval) ∧
    length buf' = length buf ∧ Forall is_byte buf' ∧
    (∀ i, 0 ≤ i < 8 * zlen buf → logical_bit quirks buf' i =
       if (endbit <=? i) && (i <=? startbit) then Z.testbit uval (i - endbit)
       else logical_bit quirks buf i) ∧
    (∀ old, packing buf' old startbit endbit (zlen buf) UNPACK quirks = Some (0, buf', uval)).
Proof.
  intros Hf Hbytes Hu. pose proof (fo_range _ _ _ _ Hf) as Hr.
  assert (endbit / 8 ≤ startbit / 8) by (apply Z.div_le_mono; lia).
  set (n := Z.to_nat (startbit / 8 - endbit / 8 + 1)).
  destruct (pack_loop_ok _ _ _ _ Hf n (startbit / 8) buf uval) as (buf' & E & Hl & Hb & Hbits);
    [done|done|lia|lia|].
  assert (Hlast : ∀ i, in_field startbit endbit i && (i / 8 <=? startbit / 8) = in_field startbit endbit i).
  { intros i. unfold in_field. destruct (Z.leb_spec i startbit); [|by rewrite andb_false_r].
    rewrite (proj2 (Z.leb_le (i / 8) _)) by (apply Z.div_le_mono; lia). by rewrite !andb_true_r. }
  exists buf'. unfold packing. rewrite (proj2 (Z.ltb_ge startbit endbit)) by lia.
  rewrite signed_fit by lia. unfold w64. rewrite wrap_small by lia.
  rewrite (proj2 (Z.ltb_ge 64 _)) by lia. rewrite !Z.quot_div_nonneg by lia. fold n.
  split_and!.
  - rewrite Z.shiftl_1_l, (proj2 (Z.leb_gt (2 ^ _) uval)), andb_false_r by lia. by rewrite E.
  - unfold zlen in Hl. lia.
  - done.
  - intros i Hi. assert (zlen buf' = zlen buf) as Hz by (unfold zlen in *; lia).
    rewrite !(logical_bit_addressed _ _ _ _ Hf) by done. rewrite Hbits by done. by rewrite Hlast.
  - intros old. simpl andb. cbn iota.
    destruct (unpack_loop_ok _ _ _ _ Hf n (startbit / 8) buf' 0) as (u & -> & Hu');
      [done|lia|lia|]. simpl. do 2 f_equal. apply Z.bits_inj'. intros k Hk.
    rewrite Hu', Hlast, Z.bits_0 by done. unfold in_field. rewrite (proj2 (Z.leb_le endbit _)) by lia.
    destruct (Z.leb_spec (k + endbit) startbit) as [Hle|Hgt]; simpl.
    + rewrite Hbits, Hlast by lia. unfold in_field. decide_leb. simpl. f_equal. lia.
    + symmetry. rewrite <-(Z.mod_small uval (2 ^ (startbit - endbit + 1))) by lia.
      apply Z.mod_pow2_bits_high. lia.
Qed.

(** *** The quirk of the bits in part of a byte *)

Lemma adjust_below pval bs be r mask :
  has r QUIRK_MSB_ON_THE_RIGHT = true → 0 < be →
  adjust r pval bs be mask = None ∨
  ∃ pval' bs' mask', adjust r pval bs be mask = Some (pval', bs', - be, mask').
Proof.
  intros Hm Hbe. unfold adjust. rewrite Hm. unfold adjust_for_msb_right_quirk.
  destruct (shr64 pval be) as [x|]; simpl; [|by left].
  destruct (shl64 (bit_reverse x (bs - be + 1)) be) as [y|]; simpl; [|by left].
  right. eexists _, _, _. do 2 f_equal. f_equal. lia.
Qed.

Lemma shift_below x n : n < 0 → shl64 x n = None ∧ shr64 x n = None.
Proof. intros Hn. unfold shl64, shr64. by rewrite (proj2 (Z.leb_gt 0 n)). Qed.

Lemma box_undefined startbit endbit len op quirks buf uval :
  has quirks QUIRK_MSB_ON_THE_RIGHT = true → 0 ≤ endbit → endbit mod 8 ≠ 0 →
  packing_box startbit endbit len op quirks (endbit / 8) buf uval = None.
Proof.
  intros Hm He Hne. pose proof (Z.mod_pos_bound endbit 8). unfold packing_box.
  rewrite (Z.quot_div_nonneg endbit), (Z.rem_mod_nonneg endbit), Z.eqb_refl by lia. cbv zeta.
  destruct (get_u8 buf _) as [b|]; simpl; [|done].
  destruct op; simpl; [destruct (shr64 _ _) as [p|]; simpl; [|done]|];
    match goal with |- context [adjust quirks ?p ?bs ?be ?m] =>
      destruct (adjust_below p bs be quirks m) as [->|(? & ? & ? & ->)]; [done|lia|done|]
    end; simpl; destruct (shift_below x (- (endbit mod 8))) as [E1 E2]; [lia| |lia|].
  - by rewrite E1.
  - by rewrite E2.
Qed.

Lemma loop_undefined n startbit endbit len op quirks box buf uval :
  has quirks QUIRK_MSB_ON_THE_RIGHT = true → 0 ≤ endbit → endbit mod 8 ≠ 0 →
  Z.of_nat n = box - endbit / 8 → 
  packing_loop (S n) startbit endbit len op quirks box buf uval = None.
Proof.
  intros Hm He Hne. revert box buf uval. induction n as [|n IH]; intros box buf uval Hn.
  - simpl. replace box with (endbit / 8) by lia. by rewrite box_undefined.
  - change (packing_loop (S (S n)) startbit endbit len op quirks box buf uval) with
      ('(buf, uval) ← packing_box startbit endbit len op quirks box buf uval;
       packing_loop (S n) startbit endbit len op quirks (box - 1) buf uval).
    destruct (packing_box _ _ _ _ _ _ _ _) as [[b u]|]; [|done]. cbn [mbind option_bind].
    apply IH. lia.
Qed.

(** C33: With bits mirrored within bytes, every use of a field that does not end at the
    border of a byte is undefined: [adjust_for_msb_right_quirk] gives a negative bit number,
    and a shift by it follows, in either direction. *)
Theorem packing_msb_undefined buf uval startbit endbit len op quirks :
  has quirks QUIRK_MSB_ON_THE_RIGHT = true →
  0 ≤ endbit ≤ startbit → startbit - endbit < 64 → endbit mod 8 ≠ 0 →
  0 ≤ uval < 2 ^ (startbit - endbit + 1) →
  packing buf uval startbit endbit len op quirks = None.
Proof.
  intros Hm He Hw Hne Hu. unfold packing. rewrite (proj2 (Z.ltb_ge startbit endbit)) by lia.
  rewrite signed_fit by lia. unfold w64. rewrite wrap_small by lia.
  rewrite (proj2 (Z.ltb_ge 64 _)), Z.shiftl_1_l, (proj2 (Z.leb_gt (2 ^ _) uval)) by lia.
  rewrite andb_false_r. rewrite !Z.quot_div_nonneg by lia.
  assert (endbit / 8 ≤ startbit / 8) by (apply Z.div_le_mono; lia).
  replace (Z.to_nat (startbit / 8 - endbit / 8 + 1))
    with (S (Z.to_nat (startbit / 8 - endbit / 8))) by lia.
  cbv zeta. rewrite loop_undefined by (done || lia). done.
Qed.

End fields.

(** ** The layouts of the documentation *)

Definition genmask (h l : Z) : Z := Z.land (Z.shiftl (Z.ones 64) l) (Z.ones (h + 1)).

#[local] Instance bits_header : BitsHeader.
Proof.
  refine {| BIT := Z.shiftl 1; GENMASK_ULL := genmask |}.
  - intros n Hn. apply Z.shiftl_1_l.
  - intros h l i Hl Hh Hi. unfold genmask. rewrite Z.land_spec, Z.shiftl_spec by done.
    rewrite (Z.testbit_ones_nonneg (h + 1)) by lia.
    destruct (Z.leb_spec l i); simpl; [|by rewrite Z.testbit_neg_r by lia].
    rewrite Z.testbit_ones_nonneg by lia. destruct (Z.ltb_spec (i - l) 64), (Z.ltb_spec i (h + 1)),
      (Z.leb_spec i h); done || lia.
Defined.

(** The eight tables of [Documentation/core-api/packing.rst]: where the bytes 7 to 0 of a
    number are in the buffer; with the third quirk each byte is mirrored. *)
Example packing_layouts :
  (λ q, (λ r, r.1.2) <$> packing (replicate 8 0) 0x0706050403020100 63 0 8 PACK q) <$>
    [0; 2; 4; 6; 1; 3; 5; 7] =
  [Some [7; 6; 5; 4; 3; 2; 1; 0]; Some [4; 5; 6; 7; 0; 1; 2; 3];
   Some [3; 2; 1; 0; 7; 6; 5; 4]; Some [0; 1; 2; 3; 4; 5; 6; 7];
   Some [224; 96; 160; 32; 192; 64; 128; 0]; Some [32; 160; 96; 224; 0; 128; 64; 192];
   Some [192; 64; 128; 0; 224; 96; 160; 32]; Some [0; 128; 64; 192; 32; 160; 96; 224]].
Proof. vm_compute. reflexivity. Qed.

Lemma packing_packs_witness :
  ∃ buf', packing (repeat 255 8) 0x155 38 30 8 PACK 6 = Some (0, buf', 0x155) ∧
    buf' = [255; 255; 255; 127; 213; 255; 255; 255] ∧
    packing buf' 0 38 30 8 UNPACK 6 = Some (0, buf', 0x155).
Proof.
  destruct (packing_packs (repeat 255 8) 0x155 38 30 6) as (buf' & E & _ & _ & _ & U).
  - split; [done|done|done|]. vm_compute. done.
  - vm_decide.
  - done.
  - exists buf'. split_and!; [exact E| |exact (U 0)]. vm_compute in E. by injection E as <-.
Defined.

Lemma packing_msb_undefined_witness : packing (repeat 0 8) 5 6 4 8 PACK 1 = None.
Proof. apply packing_msb_undefined; [vm_compute; reflexivity|lia|lia|done|done]. Defined.

End KPacking.
